(* ===== verification/_CoqProject ===== *)
-Q . S2P
Prelude.v
Text.v
OggPage.v
Bridge.v
Helpers.v
ShuffleVec.v
SpotifyId.v
SpotifyUri.v
RangeSet.v
Streaming.v
Readers.v
Codec.v
Packet.v
Channel.v
Mercury.v
Session.v
DealerMaps.v
Dealer.v
Protocol.v
Config.v
Errors.v
DealerConn.v
Auth.v
Date.v
CdnUrl.v
ApResolve.v
Tokens.v
HttpClient.v
DiffieHellman.v
Effect.v
Handshake.v
Discovery.v
SpClient.v
SpClientSpec.v
Cache.v
CacheSpec.v
Catalogue.v
TrackLoader.v
Connect.v
Player.v
PlayerSpec.v
Playback.v
Events.v
Passthrough.v
AudioFetch.v
AudioFetchSpec.v
ConnectState.v
ConnectContext.v
ConnectTracks.v
ConnectHandle.v
ConnectSpec.v
ContextResolver.v
Spirc.v
SpircSkip.v
SpircSpec.v
OAuth.v
Options.v
Main.v
Sinks.v
Handles.v
Proxy.v
LocalFiles.v
