(* ===== verification/Prelude.v ===== *)
(** * Spotify Connect for the Squeezebox Radio: verification

    ** The program

    The repository turns a Squeezebox Radio into a Spotify Connect device. A fork of librespot
    ([native/librespot]) logs in, keeps the connect state that other Spotify clients see, fetches
    and decrypts tracks and writes the original Ogg packets to a FIFO (the passthrough decoder and
    the pipe sink). The HTTP bridge ([native/bridge/bridge.rs]) reads that stream, cuts it
    into Ogg pages and serves it to the Radio's own player over HTTP; it caches the Vorbis headers
    of the current track for a client that reconnects, discards what is left of a track when a new
    one is loading, and paces the stream. The metadata hook ([native/metadata/main.rs]) is run by
    librespot on player events and writes the files the user interface and the bridge read. The
    supervisor ([native/supervisor/main.rs]) starts librespot and publishes a status file.

    ** What the library models

    Definitions are translations of the Rust sources, as functions that compute. Conventions:
    - the outcome of fallible code is [res] (value, error, panic); an operation on [&mut self] that
      can fail is a state-passing function whose changes stay when it fails ([ConnectState.M]);
    - unsigned integers are [Z] with their wrap-around written out ([wrap], [usize_add], ...), as in
      the optimised build for the Radio's 32-bit CPU, where overflow wraps; indices into a vector
      are [nat] where the source can only increment an index that was in range;
    - strings are byte strings; a [HashMap] is a [gmap]; a protobuf message is a record of the
      fields in use, an optional message field an [option];
    - code outside the repository is a parameter: the random generator ([ShuffleVec.Rng], with what
      it documents as [RngOk]), the unspecified hash of the queue ([ConnectState.QueueHash]), the
      answers of the operating system and of servers (a function of their number, a script or a
      world with them), cryptographic primitives, JSON, protobuf and URL parsing, floating-point
      numbers ([Options.Float]); values drawn at random (identifiers, seeds) and clock readings are
      arguments;
    - concurrent tasks are step relations or events that the environment orders;
    - recursion that is not structural has fuel; running out is [None], a panic or a loop that goes
      on, and a theorem of the file says which fuel is enough (the number of files for the pruning of
      the cache, of bytes for a parser, of packets for a decoder, of attempts for a request);
    - logging is left out.

    Files, in dependency order:
    - [Prelude]: outcomes, machine integers, bytes, slices, shared tactics and lemmas;
    - [Text]: the operations on Rust strings the sources use, decimal printing and parsing;
    - [OggPage]: [page], the reader thread and the header cache of the bridge (state [Headers]);
    - [Bridge]: the rest of the bridge: command line, marker files, HTTP handshake and one
      iteration of the main loop as a function of the state and of the system's answers, with the
      reachable states of the whole loop;
    - [Helpers]: modules [Metadata] and [Supervisor] for the two helper programs;
    - [ShuffleVec]: the shuffled track list ([connect/src/shuffle_vec.rs]);
    - [SpotifyId], [SpotifyUri]: identifiers and addresses ([core/src/spotify_id.rs],
      [file_id.rs], [spotify_uri.rs]);
    - [RangeSet]: byte ranges of a download ([audio/src/range_set.rs]);
    - [Streaming]: the sequential reader of the deployed build ([audio/src/fetch/streaming.rs]):
      the fetching task, its bounded queue as a step relation, [read] and [seek];
    - [Readers]: the layers over it: decryption ([audio/src/decrypt.rs]), [SkipReader] and [Subfile]
      ([playback/src/player.rs]), generic in the reader below (class [ReadSeek]), with the interface
      [Streams] that each layer implements and passes on;
    - [Codec], [Packet]: framing of the access-point connection over the stream cipher
      ([core/src/connection/codec.rs]) and packet types;
    - [Channel], [Mercury], [Session]: channels, the request and subscription protocol and audio
      keys, and the dispatch task with its keep-alive machine ([core/src/channel.rs], [mercury/],
      [audio_key.rs], [session.rs]); futures and queues of their users are stores;
    - [DealerMaps], [Dealer]: the dealer's handler and subscriber maps and its dispatch of messages
      and requests ([core/src/dealer/]); [DealerConn]: its connection, with the ping and the
      reconnects, against a network with a clock;
    - [Protocol], [Config]: messages and their conversions ([protocol/src/impl_trait]), session
      configuration and device types ([core/src/config.rs]);
    - [Errors]: the library error and every conversion into it ([core/src/error.rs]);
    - [Effect]: methods that fail or end the program, with a weakest precondition for them;
    - [Auth], [DiffieHellman], [Handshake], [Connect]: credentials and the blob of a local device
      ([core/src/authentication.rs]), the key exchange, the signed handshake of a connection and the
      login with its retries ([diffie_hellman.rs], [connection/], [session.rs]);
    - [Date], [CdnUrl], [ApResolve], [Tokens]: dates, addresses of the content servers and their
      expiry, access points, access tokens ([date.rs], [cdn_url.rs], [apresolve.rs], [token.rs]);
    - [HttpClient], [SpClient], [SpClientSpec]: requests with their retries and rate limit, the
      service client with its hash-cash puzzle and client token, login5 ([http_client.rs],
      [spclient.rs], [login5.rs], [util.rs]);
    - [Proxy]: connecting through a proxy ([proxytunnel.rs], [socket.rs]);
    - [Discovery]: pairing with a device on the local network ([discovery/src/]);
    - [Cache], [CacheSpec]: the cache with its size limiter over a map of files whose operations can
      fail ([core/src/cache.rs]); the priority queue is the interface [PriorityQueue];
    - [Catalogue], [TrackLoader]: availability of items ([metadata/src/]) and the loading of tracks
      by the player ([PlayerTrackLoader]); [LocalFiles]: the lookup of local files
      ([playback/src/local_file.rs]);
    - [Events]: the event handler of the program with the metadata hook it runs
      ([src/player_event_handler.rs]);
    - [Player]: the player thread ([playback/src/player.rs]): record [PlayerInternal], one function
      per method, [round] for an iteration of its loop; decoders, sinks, clocks and sample arithmetic
      are the class [Backend], loading futures the class [Loaders]. [PlayerSpec]: its reachable states;
      [Playback]: whole tracks, preloading and the failures that end the program;
    - [Passthrough]: the decoder of the deployed build ([playback/src/decoder/passthrough_decoder.rs]),
      over the reader and writer of the ogg crate (class [OggCrate]);
    - [AudioFetch], [AudioFetchSpec]: the random-access download ([audio/src/fetch/mod.rs],
      [receive.rs]), its loop, tasks and readers interleaved by a step relation;
    - [ConnectState], [ConnectContext], [ConnectTracks], [ConnectHandle]: the connect state
      ([connect/src/state.rs], [state/*.rs], [model.rs]): record [ConnectState], its fields and
      accessors; contexts; the lists of previous and next tracks; commands and transfers;
      [ConnectHandle.step] makes every operation by which the controller and the resolver change the
      state a command, [ConnectSpec.run_commands] runs a list of them;
    - [ConnectSpec]: the properties of the connect state as a whole;
    - [ContextResolver]: the queue of contexts the controller fetches ([connect/src/context_resolver.rs]);
    - [Spirc]: the connect controller ([connect/src/spirc.rs]): record [SpircTask], one function per
      handler, [handle_event] for an iteration of its loop and [run] for the loop on a list of events;
      the server, the mixer, clocks and random numbers are the class [Env], what is sent to them and to
      the player is the field [trace]. [SpircSkip]: skipping to a track; [SpircSpec]: the rest.
      [Handles]: what the program holds of the controller and of the player;
    - [OAuth]: the two ways to get an access token ([oauth/src/lib.rs]);
    - [Options], [Main]: the command line ([get_setup] of [src/main.rs] with the configuration it
      gives) and the program with its reconnects ([main]); sessions and controllers are numbered, what
      happens inside one is the business of [Session] and [Spirc];
    - [Sinks]: the pipe sink with the guard of the FIFO and the subprocess sink
      ([playback/src/audio_backend/]), over files and processes whose calls can fail.

    ** What the theorems show

    - Bridge: what a client receives is the cached headers followed by whole pages of the stream,
      in order and without gaps; an audio page is retained until it is sent; in any run ([execution]),
      from the announcement of a new track to its first page nothing of the old one is written, and
      later only pages observed since; pacing never runs ahead, and no input makes the bridge panic. Pages are parsed exactly as they are
      written, over any splitting of the input.
    - Helpers: the metadata file is valid JSON that reads back, a loading event reaches the bridge,
      the supervisor's last status tells how librespot ended.
    - Connect state: from the initial state, after any sequence of commands, the next one panics
      only when it draws from a context without tracks, every loop ends (the fill-up loop has fuel
      [fill_fuel]; running out of it is modelled as a panic and excluded by the same theorem), and
      the 10 and 80 track limits hold, or the lengths of the longest lists that a set-queue command
      stored (class [Limits]: the bounds in force); jumping, skipping, queueing and
      filling up do what their comments say; shuffle can always be turned off without loss.
    - The sequential reader delivers the file in order, whatever the buffer sizes and the schedule
      of task and reader; an error loses the bytes already copied ([failed_read_loses_bytes]).
    - Read through decryption and header skipping, it gives the decrypted track; the passthrough
      decoder turns a track's packets into one Ogg stream with nothing lost, in order.
    - Player: from the start, and whatever fails, listeners' last state event is the state, and the
      sink is released while nothing plays; while sinks and seeks work the program never exits; a
      playing track reaches the sink packet by packet and ends. Repeating a track in the deployed
      build ends the program ([Passthrough.streaming_repeat_exits]).
    - Download: under every interleaving of the loop, the tasks and the readers, and with any requests
      failing, readers get bytes of the file and never wait for bytes that nobody fetches. Sizes and
      measured rates are bounded so that their sums fit a 32-bit [usize].
    - Controller: whatever requests, commands, reports and messages arrive, each is handled to the end
      with the invariants of the connect state and of the resolver kept, apart from three events
      ([SpircSpec.ends_program]): a skip to a track that is neither current nor among the next ones
      (the loop of [handle_next] has fuel, which must exceed the number of next tracks), the loss of
      the premium account, and a shuffled load that draws from a context without tracks. Skipping, pausing, repeating, disconnecting and shutting down do what they promise; a
      shutdown is lost when the server cannot be reached.
    - From the decoder to the FIFO: the player, the passthrough decoder and the pipe sink together add
      exactly one Ogg stream of the track to the FIFO, which the bridge reads; the display shows what
      the player does, except that it shows "stopped" after the end of a track or an unavailable
      track until the next state event ([Events]).
    - Loading: a track is loaded from the first alternative that is available, at the best format for
      the bit rate, and a broken file in the cache is replaced; the cache gives up the least recently
      used files, no more than needed.
    - Access: connecting, logging in, requesting and pruning end; the handshake only succeeds with a
      signed key; only a device that knows the shared key can hand over credentials; the address a
      pairing prints is the one the applet shows.
    - Program: whatever the arguments, the setup is valid or the program exits; the Radio's command
      line gives the configuration it relies on. At most one controller is in charge, and automatic
      reconnects are limited.
    - Connection: packets survive encoding and decoding over any splitting of the input; answers cut
      into parts are reassembled, the keep-alive machine refines its protocol, and nobody waits on a
      lost connection; the dealer answers each request once and reaches the nearest handler.
    - Shuffling is undone exactly; base-62 printing by limbs equals plain division and round trips;
      addresses round trip; range sets are a canonical representation of sets of offsets with
      correct set operations; conversions of messages and device types are lossless.
    Some lemmas record behaviour that differs from the comments of the sources ([ShuffleVec.unshuffle_after_push_stops],
    [SpotifyId.from_base16_accepts_plus], the section on behaviour worth knowing of [ConnectSpec]).

    ** What is not modelled

    Floating-point processing of samples (the symphonia decoder, conversion, dithering, mixers), the
    sinks of other builds, mDNS, websockets, TLS and HTTP below the request, getopts, third-party
    crates, the field-by-field copies of catalogue messages (tracks, playlists, lyrics), serde
    attributes, the accessors of the session, the Lua applet and logging. They hold no logic of this
    program, or none that a model without the library they call could be faithful to. *)
From Stdlib Require Export Ascii ZArith Lia.
From stdpp Require Export prelude list_numbers strings gmap.
Export list.


#[global] Open Scope Z_scope.
#[global] Set Default Goal Selector "!".

(** * Outcomes of fallible code

    A Rust function can return a value, return an error, or panic (slice index out of
    range, division by zero, [unreachable!], [expect] on [None]).  Arithmetic overflow is
    not a panic: the shipped binaries are optimised builds, in which it wraps. *)

Inductive res (E A : Type) : Type :=
| Ok (a : A)
| Err (e : E)
| Panic.
Arguments Ok {E A} a.
Arguments Err {E A} e.
Arguments Panic {E A}.

#[global] Instance res_ret {E} : MRet (res E) := fun A a => Ok a.
#[global] Instance res_bind {E} : MBind (res E) := fun A B f m =>
  match m with Ok a => f a | Err e => Err e | Panic => Panic end.

Definition ok_or {E A} (e : E) (o : option A) : res E A :=
  match o with Some a => Ok a | None => Err e end.

(** [Result::ok] *)
Definition res_ok {E A} (r : res E A) : option A :=
  match r with Ok a => Some a | _ => None end.

Definition is_ok {E A} (r : res E A) : bool :=
  match r with Ok _ => true | _ => false end.

(** * Machine integers

    Unsigned integers of width [w] are [Z] values in [\[0, 2^w)]; [wrap] is what the
    optimised build computes on overflow.  The Radio's CPU has 32-bit addresses, so
    [usize] is 32 bits wide. *)

Definition wrap (w x : Z) : Z := x mod 2 ^ w.
Definition fits (w x : Z) : Prop := 0 <= x < 2 ^ w.

Definition usize_bits : Z := 32.
Definition usize_max : Z := 2 ^ usize_bits - 1.
Definition usize_add (a b : Z) : Z := wrap usize_bits (a + b).
Definition usize_sub (a b : Z) : Z := wrap usize_bits (a - b).

(** [a.saturating_sub(b)] and [a.saturating_mul(b)] on [u64]. *)
Definition u64_saturating_sub (a b : Z) : Z := Z.max 0 (a - b).
Definition u64_saturating_mul (a b : Z) : Z := Z.min (2 ^ 64 - 1) (a * b).

Lemma wrap_small w x : fits w x -> wrap w x = x.
Proof. intros H; apply Z.mod_small, H. Qed.

Lemma wrap_fits w x : 0 <= w -> fits w (wrap w x).
Proof. intros Hw; apply Z.mod_pos_bound, Z.pow_pos_nonneg; lia. Qed.

Lemma usize_add_small a b : 0 <= a + b <= usize_max -> usize_add a b = a + b.
Proof. intros H; apply wrap_small; unfold fits, usize_max, usize_bits in *; lia. Qed.

Lemma usize_sub_small a b : 0 <= a - b <= usize_max -> usize_sub a b = a - b.
Proof. intros H; apply wrap_small; unfold fits, usize_max, usize_bits in *; lia. Qed.

Create Rewrite HintDb machine.
#[export] Hint Rewrite usize_add_small usize_sub_small wrap_small using (unfold fits, usize_max, usize_bits in *; lia) : machine.

(** * Tactics *)

(** Split every boolean test and comparison of the goal and the hypotheses into the
    proposition it decides. *)
Ltac bool_to_prop :=
  repeat match goal with
  | H : context [negb ?b] |- _ => is_var b; destruct b eqn:?; simpl in H
  | H : (_ && _)%bool = true |- _ => apply andb_true_iff in H; destruct H
  | H : (_ || _)%bool = false |- _ => apply orb_false_iff in H; destruct H
  | H : (_ && _)%bool = false |- _ => apply andb_false_iff in H
  | H : (_ || _)%bool = true |- _ => apply orb_true_iff in H
  | H : negb _ = true |- _ => apply negb_true_iff in H
  | H : negb _ = false |- _ => apply negb_false_iff in H
  | H : (_ <=? _) = true |- _ => apply Z.leb_le in H
  | H : (_ <=? _) = false |- _ => apply Z.leb_gt in H
  | H : (_ <? _) = true |- _ => apply Z.ltb_lt in H
  | H : (_ <? _) = false |- _ => apply Z.ltb_ge in H
  | H : (_ =? _) = true |- _ => apply Z.eqb_eq in H
  | H : (_ =? _) = false |- _ => apply Z.eqb_neq in H
  end.

(** Case analysis on the first boolean test of the goal. *)
Ltac case_if :=
  match goal with
  | |- context [if ?b then _ else _] => destruct b eqn:?
  end; bool_to_prop.

(** * Bytes *)

Definition is_byte (z : Z) : Prop := 0 <= z < 256.

(** [u16/u32/u64::from_le_bytes] and [from_be_bytes]. *)
Fixpoint le_combine (l : list Z) : Z :=
  match l with [] => 0 | b :: l' => b + 256 * le_combine l' end.

Definition be_combine (l : list Z) : Z := fold_left (fun acc b => acc * 256 + b) l 0.

(** [to_be_bytes] of an [n]-byte integer. *)
Fixpoint be_split (n : nat) (z : Z) : list Z :=
  match n with O => [] | S n' => be_split n' (z / 256) ++ [z mod 256] end.

(** The bytes of a byte-string literal. *)
Fixpoint bytes (s : string) : list Z :=
  match s with
  | EmptyString => []
  | String c s' => Z.of_N (Ascii.N_of_ascii c) :: bytes s'
  end.

#[global] Arguments bytes : simpl never.

(** [&l\[a..b\]], a panic out of range. *)
Definition slice {E A} (l : list A) (a b : nat) : res E (list A) :=
  if decide (a <= b <= length l)%nat then Ok (take (b - a) (drop a l)) else Panic.

(** [l\[i\]], a panic out of range. *)
Definition index {E A} (l : list A) (i : nat) : res E A :=
  match l !! i with Some x => Ok x | None => Panic end.

(** [iter().position(f)] *)
Fixpoint position {A} (f : A -> bool) (l : list A) : option nat :=
  match l with
  | [] => None
  | x :: l' => if f x then Some O else S <$> position f l'
  end.

Definition sum_Z (l : list Z) : Z := fold_right Z.add 0 l.

Lemma slice_ok {E A} (l : list A) a b :
  (a <= b <= length l)%nat -> slice (E := E) l a b = Ok (take (b - a) (drop a l)).
Proof. intros H. unfold slice. by rewrite decide_True. Qed.

Lemma index_ok {E A} (l : list A) i x : l !! i = Some x -> index (E := E) l i = Ok x.
Proof. intros H. unfold index. by rewrite H. Qed.

Lemma le_combine_bounds l : Forall is_byte l -> 0 <= le_combine l < 256 ^ Z.of_nat (length l).
Proof.
  induction 1 as [|b l Hb Hl IH]; [simpl; lia|].
  cbn [le_combine length]. rewrite Nat2Z.inj_succ, Z.pow_succ_r by lia. unfold is_byte in Hb. lia.
Qed.

Lemma be_combine_app l1 l2 :
  be_combine (l1 ++ l2) = fold_left (fun acc b => acc * 256 + b) l2 (be_combine l1).
Proof. unfold be_combine. by rewrite fold_left_app. Qed.

Lemma be_combine_bounds l : Forall is_byte l -> 0 <= be_combine l < 256 ^ Z.of_nat (length l).
Proof.
  induction l as [|b l IH] using rev_ind; intros Hl; [unfold be_combine; simpl; lia|].
  apply Forall_app in Hl as [Hl Hb]. apply Forall_cons in Hb as [Hb _]. specialize (IH Hl).
  rewrite be_combine_app, length_app, Nat2Z.inj_add, Z.pow_add_r by lia. simpl. unfold is_byte in Hb. lia.
Qed.

Lemma length_be_split n z : length (be_split n z) = n.
Proof. revert z; induction n as [|n IH]; intros z; simpl; [done|]. rewrite length_app, IH. simpl. lia. Qed.

Lemma be_combine_split n z : 0 <= z < 256 ^ Z.of_nat n -> be_combine (be_split n z) = z.
Proof.
  revert z; induction n as [|n IH]; intros z Hz; [simpl in *; unfold be_combine; simpl; lia|].
  simpl. rewrite be_combine_app. simpl. rewrite IH.
  - pose proof (Z.div_mod z 256 ltac:(lia)). lia.
  - rewrite Nat2Z.inj_succ, Z.pow_succ_r in Hz by lia.
    split; [apply Z.div_pos; lia|apply Z.div_lt_upper_bound; lia].
Qed.

Lemma be_split_bytes n z : Forall is_byte (be_split n z).
Proof.
  revert z; induction n as [|n IH]; intros z; simpl; [constructor|].
  apply Forall_app. split; [done|]. constructor; [|constructor].
  apply Z.mod_pos_bound. lia.
Qed.

Lemma be_split_combine l : Forall is_byte l -> be_split (length l) (be_combine l) = l.
Proof.
  induction l as [|b l IH] using rev_ind; intros Hl; [done|].
  apply Forall_app in Hl as [Hl Hb]. inversion Hb as [|? ? Hb' _]; subst. unfold is_byte in Hb'.
  rewrite length_app, Nat.add_comm. simpl. rewrite be_combine_app. simpl.
  rewrite Z.div_add_l, (Z.div_small b), Z.add_0_r, IH by (done || lia).
  f_equal. f_equal. rewrite Z.add_comm, Z_mod_plus_full. by apply Z.mod_small.
Qed.

Lemma position_Some {A} (f : A -> bool) l i :
  position f l = Some i <->
  exists x, l !! i = Some x /\ f x = true /\ (forall j y, (j < i)%nat -> l !! j = Some y -> f y = false).
Proof.
  revert i; induction l as [|a l IH]; intros i; simpl.
  - split; [done|]. intros (x & Hx & _). done.
  - destruct (f a) eqn:Ha.
    + split.
      * intros [= <-]. exists a. split_and!; [done|done|]. intros; lia.
      * intros (x & Hx & Hf & Hmin). destruct i as [|i]; [done|].
        specialize (Hmin O a ltac:(lia) eq_refl). congruence.
    + rewrite fmap_Some. split.
      * intros (k & Hk & ->). apply IH in Hk as (x & Hx & Hf & Hmin). exists x. split_and!; [done|done|].
        intros [|j] y Hj Hy; simpl in *; [congruence|]. eapply Hmin; [|done]. lia.
      * intros (x & Hx & Hf & Hmin). destruct i as [|i]; simpl in *; [congruence|].
        exists i. split; [|done]. apply IH. exists x. split_and!; [done|done|].
        intros j y Hj Hy. apply (Hmin (S j) y); [lia|done].
Qed.

Lemma position_None {A} (f : A -> bool) l : position f l = None <-> Forall (fun x => f x = false) l.
Proof.
  induction l as [|a l IH]; simpl; [by split; [constructor|]|].
  rewrite Forall_cons. destruct (f a); [naive_solver|]. rewrite fmap_None, IH. naive_solver.
Qed.

Lemma position_lt {A} (f : A -> bool) l i : position f l = Some i -> (i < length l)%nat.
Proof. intros (x & Hx & _)%position_Some. by eapply lookup_lt_Some. Qed.

(** [safe P r]: [r] does not panic, and a value it returns satisfies [P]. *)
Definition safe {E A} (P : A -> Prop) (r : res E A) : Prop :=
  match r with Ok a => P a | Err _ => True | Panic => False end.

Lemma safe_bind {E A B} (P : A -> Prop) (Q : B -> Prop) (m : res E A) (f : A -> res E B) :
  safe P m -> (forall a, P a -> safe Q (f a)) -> safe Q (m ≫= f).
Proof. destruct m; simpl; eauto. Qed.

Lemma safe_mono {E A} (P Q : A -> Prop) (r : res E A) :
  (forall a, P a -> Q a) -> safe P r -> safe Q r.
Proof. destruct r; simpl; eauto. Qed.

Lemma safe_slice {E A} (l : list A) a b :
  (a <= b <= length l)%nat -> safe (fun x => x = take (b - a) (drop a l)) (slice (E := E) l a b).
Proof. intros H. rewrite slice_ok by done. done. Qed.

Lemma safe_index {E A} (l : list A) i :
  (i < length l)%nat -> safe (fun x => l !! i = Some x) (index (E := E) l i).
Proof. intros H. unfold index. destruct (lookup_lt_is_Some_2 l i H) as [x ->]. done. Qed.
