(* ===== verification/Text.v ===== *)
(** * Text

    The operations on [&str] the sources use, on byte strings (Rust strings are UTF-8 byte
    sequences, and the operations below look for ASCII delimiters, which never occur inside
    a multi-byte character).  Includes decimal printing and parsing of machine integers. *)
From S2P Require Import Prelude.

#[global] Arguments String.append : simpl nomatch.

Definition char_code (c : ascii) : Z := Z.of_N (Ascii.N_of_ascii c).
Definition code_char (z : Z) : ascii := Ascii.ascii_of_N (Z.to_N z).

(** [str::len]: the number of bytes. *)
Definition str_len (s : string) : Z := Z.of_nat (String.length s).

Definition is_empty (s : string) : bool :=
  match s with EmptyString => true | _ => false end.

(** [s.starts_with(p)] *)
Fixpoint starts_with (s p : string) : bool :=
  match p, s with
  | EmptyString, _ => true
  | String a p', String b s' => Ascii.eqb a b && starts_with s' p'
  | _, EmptyString => false
  end.

(** [s.strip_prefix(p)] *)
Fixpoint strip_prefix (s p : string) : option string :=
  match p, s with
  | EmptyString, _ => Some s
  | String a p', String b s' => if Ascii.eqb a b then strip_prefix s' p' else None
  | _, EmptyString => None
  end.

(** [s.split(c)]: always at least one piece. *)
Fixpoint split (c : ascii) (s : string) : list string :=
  match s with
  | EmptyString => [EmptyString]
  | String a s' =>
      if Ascii.eqb a c then EmptyString :: split c s'
      else match split c s' with
           | piece :: rest => String a piece :: rest
           | [] => [String a EmptyString]
           end
  end.

(** [pieces.join(sep)] *)
Fixpoint join (sep : string) (l : list string) : string :=
  match l with
  | [] => EmptyString
  | [x] => x
  | x :: l' => String.append x (String.append sep (join sep l'))
  end.

(** [s.replace(c, r)] for a one-character pattern. *)
Fixpoint replace_char (c : ascii) (r : string) (s : string) : string :=
  match s with
  | EmptyString => EmptyString
  | String a s' =>
      if Ascii.eqb a c then String.append r (replace_char c r s')
      else String a (replace_char c r s')
  end.

(** [s.find(p)]: everything from the first occurrence of [p] on. *)
Fixpoint find_from (s p : string) : option string :=
  if starts_with s p then Some s
  else match s with EmptyString => None | String _ s' => find_from s' p end.

(** [s.contains(p)] *)
Definition str_contains (s p : string) : bool :=
  match find_from s p with Some _ => true | None => false end.

(** [s.replace(p, r)] for a non-empty pattern: left to right, without overlaps; [skip]
    counts the bytes of a match that are still to be dropped. *)
Fixpoint replace_go (p r : string) (skip : nat) (s : string) : string :=
  match s with
  | EmptyString => EmptyString
  | String a s' =>
      match skip with
      | S k => replace_go p r k s'
      | O => if starts_with s p
             then String.append r (replace_go p r (Nat.pred (String.length p)) s')
             else String a (replace_go p r 0 s')
      end
  end.
Definition replace_str (p r s : string) : string := replace_go p r 0 s.

(** [char::is_whitespace] on UTF-8: the encodings of the White_Space characters. *)
Definition utf8 (l : list Z) : string := fold_right (fun z s => String (code_char z) s) EmptyString l.

(** Well-formed UTF-8 (table 3-7 of the Unicode standard). *)
Definition between (a b z : Z) : bool := (a <=? z) && (z <=? b).
Definition cont (z : Z) : bool := between 128 191 z.

Fixpoint valid_utf8 (l : list Z) : bool :=
  match l with
  | [] => true
  | a :: l1 =>
      if between 0 127 a then valid_utf8 l1
      else
        match l1 with
        | [] => false
        | b :: l2 =>
            if between 194 223 a then cont b && valid_utf8 l2
            else
              match l2 with
              | [] => false
              | c :: l3 =>
                  if a =? 224 then between 160 191 b && cont c && valid_utf8 l3
                  else if a =? 237 then between 128 159 b && cont c && valid_utf8 l3
                  else if between 225 239 a then cont b && cont c && valid_utf8 l3
                  else
                    match l3 with
                    | [] => false
                    | d :: l4 =>
                        if a =? 240 then between 144 191 b && cont c && cont d && valid_utf8 l4
                        else if between 241 243 a then cont b && cont c && cont d && valid_utf8 l4
                        else if a =? 244 then between 128 143 b && cont c && cont d && valid_utf8 l4
                        else false
                    end
              end
        end
  end.

(** [String::from_utf8] *)
Definition from_utf8 (l : list Z) : option string := if valid_utf8 l then Some (utf8 l) else None.

Definition whitespace : list string :=
  map (fun z => utf8 [z]) [9; 10; 11; 12; 13; 32]
  ++ map utf8 ([[194; 133]; [194; 160]; [225; 154; 128]]
               ++ map (fun z => [226; 128; z]) [128; 129; 130; 131; 132; 133; 134; 135; 136; 137; 138; 168; 169; 175]
               ++ [[226; 129; 159]; [227; 128; 128]]).

Fixpoint strip_any (pats : list string) (s : string) : option string :=
  match pats with
  | [] => None
  | p :: pats' => match strip_prefix s p with Some s' => Some s' | None => strip_any pats' s end
  end.

Fixpoint trim_start_go (fuel : nat) (pats : list string) (s : string) : string :=
  match fuel with
  | O => s
  | S fuel => match strip_any pats s with Some s' => trim_start_go fuel pats s' | None => s end
  end.

Definition str_rev (s : string) : string := String.rev s.

(** [s.trim_start()] strips at least one byte per round, so [s.len()] rounds are enough. *)
Definition trim_start (s : string) : string := trim_start_go (String.length s) whitespace s.
Definition trim_end (s : string) : string :=
  str_rev (trim_start_go (String.length s) (map str_rev whitespace) (str_rev s)).
Definition trim (s : string) : string := trim_end (trim_start s).

(** ** Decimal integers *)

Definition digit_char (d : Z) : ascii := code_char (48 + d).

Fixpoint show_go (fuel : nat) (n : Z) (acc : string) : string :=
  match fuel with
  | O => acc
  | S fuel =>
      let acc := String (digit_char (n mod 10)) acc in
      if n <? 10 then acc else show_go fuel (n / 10) acc
  end.

(** [format!("{n}")] of an unsigned integer: a number has at most as many decimal digits
    as binary ones. *)
Definition show_Z (n : Z) : string := show_go (S (Z.to_nat (Z.log2 n))) n EmptyString.

Definition digit_of (c : ascii) : option Z :=
  let z := char_code c in
  if (48 <=? z) && (z <=? 57) then Some (z - 48) else None.

(** Overflow of the accumulator is an error, as in [from_str]. *)
Fixpoint parse_digits (w acc : Z) (s : string) : option Z :=
  match s with
  | EmptyString => Some acc
  | String c s' =>
      match digit_of c with
      | None => None
      | Some d => let acc := acc * 10 + d in
                  if acc <? 2 ^ w then parse_digits w acc s' else None
      end
  end.

(** [u64::from_str] and the like: an optional [+], then at least one digit. *)
Definition parse_uint (w : Z) (s : string) : option Z :=
  match s with
  | EmptyString => None
  | String c s' =>
      if Ascii.eqb c "+"%char then (if is_empty s' then None else parse_digits w 0 s')
      else parse_digits w 0 s
  end.

Fixpoint no_char (c : ascii) (s : string) : bool :=
  match s with EmptyString => true | String a s' => negb (Ascii.eqb a c) && no_char c s' end.

(** The value of a digit string, most significant digit first. *)
Fixpoint value_of (acc : Z) (s : string) : option Z :=
  match s with
  | EmptyString => Some acc
  | String c s' => d ← digit_of c; value_of (acc * 10 + d) s'
  end.

(** ** Lemmas *)

Lemma append_nil_r s : String.append s EmptyString = s.
Proof. induction s as [|c s IH]; simpl; [done|by rewrite IH]. Qed.

Lemma append_assoc a b c :
  String.append a (String.append b c) = String.append (String.append a b) c.
Proof. induction a as [|x a IH]; simpl; [done|by rewrite IH]. Qed.

Lemma code_char_code c : code_char (char_code c) = c.
Proof. unfold code_char, char_code. by rewrite N2Z.id, Ascii.ascii_N_embedding. Qed.

Lemma char_code_char z : 0 <= z < 256 -> char_code (code_char z) = z.
Proof.
  intros H. unfold code_char, char_code. rewrite Ascii.N_ascii_embedding by lia. lia.
Qed.

Lemma no_char_append c a b : no_char c (String.append a b) = no_char c a && no_char c b.
Proof. induction a; simpl; [done|]. by rewrite IHa, andb_assoc. Qed.

Lemma split_no_char c s : no_char c s = true -> split c s = [s].
Proof.
  induction s as [|a s IH]; simpl; [done|]. intros [Ha Hs]%andb_true_iff.
  apply negb_true_iff in Ha. by rewrite Ha, IH.
Qed.

Lemma split_append c a b :
  no_char c a = true -> split c (String.append a (String c b)) = a :: split c b.
Proof.
  induction a as [|x a IH]; simpl.
  - by rewrite Ascii.eqb_refl.
  - intros [Ha Hs]%andb_true_iff. apply negb_true_iff in Ha. by rewrite Ha, IH.
Qed.

Lemma digit_of_char d : 0 <= d < 10 -> digit_of (digit_char d) = Some d.
Proof.
  intros H. unfold digit_of, digit_char. rewrite char_code_char by lia.
  replace (48 <=? 48 + d) with true by lia. replace (48 + d <=? 57) with true by lia.
  simpl. f_equal. lia.
Qed.

Lemma digit_of_range c d : digit_of c = Some d -> 0 <= d < 10.
Proof. unfold digit_of. case_if; intros; simplify_eq; lia. Qed.

Lemma value_of_ge acc s v : value_of acc s = Some v -> 0 <= acc -> acc <= v.
Proof.
  revert acc; induction s as [|c s IH]; simpl; intros acc Hv Hacc; [by simplify_eq|].
  destruct (digit_of c) as [d|] eqn:Hd; simplify_eq/=.
  apply digit_of_range in Hd. apply IH in Hv; lia.
Qed.

Lemma parse_digits_value w acc s v :
  value_of acc s = Some v -> 0 <= acc -> v < 2 ^ w -> parse_digits w acc s = Some v.
Proof.
  revert acc; induction s as [|c s IH]; simpl; intros acc Hv Hacc Hw; [done|].
  destruct (digit_of c) as [d|] eqn:Hd; simplify_eq/=.
  apply digit_of_range in Hd. pose proof (value_of_ge _ _ _ Hv ltac:(lia)).
  replace (acc * 10 + d <? 2 ^ w) with true by lia. apply IH; [done|lia|done].
Qed.

(** Printing [n] in front of [acc] shifts the value read so far by [n]'s digits. *)
Lemma show_go_value fuel n acc :
  0 <= n -> n < 2 ^ Z.of_nat fuel -> (0 < fuel)%nat ->
  exists k, 0 <= k /\ forall z, value_of z (show_go fuel n acc) = value_of (z * 10 ^ k + n) acc.
Proof.
  revert n acc; induction fuel as [|fuel IH]; intros n acc Hn Hlt Hf; [lia|]. simpl.
  pose proof (Z.mod_pos_bound n 10 ltac:(lia)). pose proof (Z.div_mod n 10 ltac:(lia)).
  case_if.
  - exists 1. split; [lia|]. intros z. simpl. rewrite digit_of_char by done. simpl.
    rewrite Z.mod_small by lia. f_equal; lia.
  - assert (n / 10 < 2 ^ Z.of_nat fuel).
    { rewrite Nat2Z.inj_succ, Z.pow_succ_r in Hlt by lia.
      apply Z.div_lt_upper_bound; lia. }
    destruct (decide (fuel = 0%nat)) as [->|]; [simpl in *; lia|].
    destruct (IH (n / 10) (String (digit_char (n mod 10)) acc)) as (k & Hk & IH'); [|done|lia|].
    { apply Z.div_pos; lia. }
    exists (k + 1). split; [lia|]. intros z. rewrite IH'. simpl.
    rewrite digit_of_char by done. simpl. f_equal.
    rewrite Z.pow_add_r by lia. lia.
Qed.

Lemma show_Z_value n : 0 <= n -> value_of 0 (show_Z n) = Some n.
Proof.
  intros Hn. unfold show_Z.
  destruct (show_go_value (S (Z.to_nat (Z.log2 n))) n EmptyString) as (k & _ & Hk); [done| |lia|].
  - rewrite Nat2Z.inj_succ, Z2Nat.id by apply Z.log2_nonneg.
    destruct (decide (n = 0)) as [->|]; [done|]. apply Z.log2_spec; lia.
  - rewrite Hk. simpl. f_equal; lia.
Qed.

Lemma show_go_head fuel n acc :
  (0 < fuel)%nat -> exists d s, show_go fuel n acc = String (digit_char d) s /\ 0 <= d < 10.
Proof.
  revert n acc; induction fuel as [|fuel IH]; intros n acc Hf; [lia|]. simpl.
  pose proof (Z.mod_pos_bound n 10 ltac:(lia)). case_if; [by eauto|].
  destruct fuel; [by eauto|]. apply IH. lia.
Qed.

Lemma digit_char_no_sep d c : 0 <= d < 10 -> digit_of c = None -> Ascii.eqb (digit_char d) c = false.
Proof.
  intros Hd Hc. apply Ascii.eqb_neq. intros <-. by rewrite digit_of_char in Hc.
Qed.

(** Decimal printing followed by [from_str] is the identity on a [w]-bit integer. *)
Lemma parse_show w n : fits w n -> parse_uint w (show_Z n) = Some n.
Proof.
  intros [Hn Hw]. pose proof (show_Z_value n Hn) as Hv.
  destruct (show_go_head (S (Z.to_nat (Z.log2 n))) n EmptyString) as (d & s & Hs & Hd); [lia|].
  unfold parse_uint. fold (show_Z n) in Hs. rewrite Hs in *.
  rewrite digit_char_no_sep by done. by apply parse_digits_value.
Qed.

Lemma show_go_no_char fuel n acc c :
  digit_of c = None -> no_char c (show_go fuel n acc) = no_char c acc.
Proof.
  intros Hc. revert n acc; induction fuel as [|fuel IH]; intros n acc; simpl; [done|].
  pose proof (Z.mod_pos_bound n 10 ltac:(lia)).
  case_if; [|rewrite IH]; simpl; by rewrite digit_char_no_sep.
Qed.

Lemma show_Z_no_char n c : digit_of c = None -> no_char c (show_Z n) = true.
Proof. intros Hc. unfold show_Z. by rewrite show_go_no_char. Qed.

Lemma split_pieces c s : Forall (fun p => no_char c p = true) (split c s).
Proof.
  induction s as [|a s IH]; simpl; [by repeat constructor|].
  destruct (Ascii.eqb a c) eqn:E; [by constructor|].
  destruct (split c s) as [|p ps]; [repeat constructor; simpl; by rewrite E|].
  inversion IH as [|? ? Hp Hps]; subst. constructor; [|done]. simpl. by rewrite E, Hp.
Qed.

Lemma split_nonempty c s : split c s <> [].
Proof. destruct s; simpl; [done|]. destruct (Ascii.eqb _ _); [done|]. by destruct (split c s). Qed.

Lemma split_join c l :
  l <> [] -> Forall (fun p => no_char c p = true) l -> split c (join (String c EmptyString) l) = l.
Proof.
  intros Hne H. induction H as [|p l Hp Hl IH]; [done|]. destruct l as [|q l]; [by apply split_no_char|].
  change (join (String c EmptyString) (p :: q :: l))
    with (String.append p (String c (join (String c EmptyString) (q :: l)))).
  by rewrite split_append, IH.
Qed.

Lemma parse_digits_fits w acc s v : fits w acc -> parse_digits w acc s = Some v -> fits w v.
Proof.
  revert acc; induction s as [|c s IH]; intros acc Ha; simpl; [by intros [= <-]|].
  destruct (digit_of c) as [d|] eqn:E; [|done]. apply digit_of_range in E. case_if; [|done].
  apply IH. unfold fits in *. lia.
Qed.

Lemma parse_uint_fits w s v : 0 <= w -> parse_uint w s = Some v -> fits w v.
Proof.
  intros Hw. assert (fits w 0) as H0 by (unfold fits; pose proof (Z.pow_pos_nonneg 2 w ltac:(lia) Hw); lia).
  destruct s as [|c s]; cbn [parse_uint]; [done|]. case_if; [case_if; [done|]|]; by apply parse_digits_fits.
Qed.

Lemma substring_all s : String.substring 0 (String.length s) s = s.
Proof. induction s as [|c s IH]; simpl; [done|]. by rewrite IH. Qed.
