(* ===== verification/OggPage.v ===== *)
(** * Ogg framing of the bridge ([native/bridge/bridge.rs], [page] and [Headers])

    [page] reads one Ogg page from the producer's standard input; [Headers::observe] caches
    the pages that carry the three Vorbis header packets of the current logical stream. *)
From S2P Require Import Prelude.

(** ** Input and errors *)

Inductive io_error :=
| Other (msg : string)
| UnexpectedEof
| WouldBlock
| TimedOut
| Interrupted
| OsError (code : Z).

(** A reader: the bytes it will deliver, then either end of input or an error. *)
Record reader := mkReader { rd_data : list Z; rd_fails : option io_error }.

Definition rd_advance (r : reader) (n : nat) : reader :=
  mkReader (drop n (rd_data r)) (rd_fails r).

(** [r.read(&mut h\[..1\])]: the byte, or nothing at the end of input. *)
Definition read_byte (r : reader) : res io_error (option Z * reader) :=
  match rd_data r with
  | b :: _ => Ok (Some b, rd_advance r 1)
  | [] => match rd_fails r with Some e => Err e | None => Ok (None, r) end
  end.

(** [r.read_exact(buf)] for a buffer of [n] bytes. *)
Definition read_exact (r : reader) (n : nat) : res io_error (list Z * reader) :=
  if decide (n <= length (rd_data r))%nat
  then Ok (take n (rd_data r), rd_advance r n)
  else Err (match rd_fails r with Some e => e | None => UnexpectedEof end).

(** ** Reading a page *)

Definition MAX_PAGE : Z := 27 + 255 + 255 * 255.
Definition MAX_HEADERS : Z := 65536.
Definition STARTUP_LEAD_MS : Z := 3000.

Definition page (r : reader) : res io_error (option (list Z) * reader) :=
  '(first, r) ← read_byte r;
  match first with
  | None => Ok (None, r)
  | Some h0 =>
      '(h', r) ← read_exact r 26;
      let h := h0 :: h' in
      if negb (bool_decide (take 4 h = bytes "OggS")) || negb (bool_decide (h !! 4%nat = Some 0))
      then Err (Other "invalid Ogg capture/version")
      else
        n ← index h 26;
        '(table, r) ← read_exact r (Z.to_nat n);
        let body := sum_Z table in
        '(data, r) ← read_exact r (Z.to_nat body);
        Ok (Some (h ++ table ++ data), r)
  end.

(** The reader thread: it sends every item and stops after the first that is not a page. *)
Fixpoint reader_thread (fuel : nat) (r : reader) : list (res io_error (option (list Z))) :=
  match fuel with
  | O => []
  | S fuel =>
      match page r with
      | Ok (Some p, r') => Ok (Some p) :: reader_thread fuel r'
      | Ok (None, _) => [Ok None]
      | Err e => [Err e]
      | Panic => [Panic]
      end
  end.

(** ** The header cache *)

Record Headers := mkHeaders {
  serial : option Z;
  hbytes : list Z;
  packets : nat;
  prefix : list Z;
  rate : Z
}.

Definition headers_default : Headers := mkHeaders None [] 0 [] 0.

Definition is_bos (flags : Z) : bool := negb (Z.land flags 2 =? 0).

(** End of a header packet: check its type byte and signature, take the sample rate of the
    identification header, count it. *)
Definition finish_packet (h : Headers) : res io_error Headers :=
  expected ← index [1; 3; 5] (packets h);
  if (length (prefix h) <? 7)%nat
     || negb (bool_decide (prefix h !! 0%nat = Some expected))
     || negb (bool_decide (take 6 (drop 1 (prefix h)) = bytes "vorbis"))
  then Err (Other "invalid Vorbis header order/signature")
  else
    h ← (if (packets h =? 0)%nat then
           if (length (prefix h) <? 16)%nat then Err (Other "short identification header")
           else
             b ← slice (prefix h) 12 16;
             let r := le_combine b in
             if (r =? 0) || (192000 <? r) then Err (Other "invalid sample rate")
             else Ok (mkHeaders (serial h) (hbytes h) (packets h) (prefix h) r)
         else Ok h);
    Ok (mkHeaders (serial h) (hbytes h) (S (packets h)) [] (rate h)).

(** The loop over the segment table of the page. *)
Fixpoint observe_segments (p : list Z) (offset : nat) (segments : list Z) (h : Headers)
  : res io_error Headers :=
  match segments with
  | [] => Ok h
  | segment :: rest =>
      if (packets h =? 3)%nat
      then Err (Other "audio shares setup header page; unsupported producer framing")
      else
        let take_n := Nat.min (16 - length (prefix h)) (Z.to_nat segment) in
        chunk ← slice p offset (offset + take_n);
        let h := mkHeaders (serial h) (hbytes h) (packets h) (prefix h ++ chunk) (rate h) in
        h ← (if segment <? 255 then finish_packet h else Ok h);
        observe_segments p (offset + Z.to_nat segment) rest h
  end.

Definition observe (h : Headers) (p : list Z) : res io_error Headers :=
  sb ← slice p 14 18;
  let sn := le_combine sb in
  flags ← index p 5;
  let h := if is_bos flags then mkHeaders (Some sn) [] 0 [] 0 else h in
  if negb (bool_decide (serial h = Some sn)) then Err (Other "page without matching BOS")
  else if (packets h =? 3)%nat then Ok h
  else if MAX_HEADERS <? Z.of_nat (length (hbytes h) + length p)
  then Err (Other "Vorbis headers exceed 65536-byte limit")
  else
    nb ← index p 26;
    let n := Z.to_nat nb in
    segments ← slice p 27 (27 + n);
    h ← observe_segments p (27 + n) segments h;
    Ok (mkHeaders (serial h) (hbytes h ++ p) (packets h) (prefix h) (rate h)).

(** ** Invariants *)

(** A complete Ogg page: header, segment table, body of the announced size. *)
Definition valid_page (p : list Z) : Prop :=
  Forall is_byte p /\
  take 4 p = bytes "OggS" /\ p !! 4%nat = Some 0 /\
  exists n, p !! 26%nat = Some n /\
    Z.of_nat (length p) = 27 + n + sum_Z (take (Z.to_nat n) (drop 27 p)).

Definition headers_ok (h : Headers) : Prop :=
  (packets h <= 3)%nat /\ (length (prefix h) <= 16)%nat /\ Forall is_byte (prefix h) /\
  Z.of_nat (length (hbytes h)) <= MAX_HEADERS /\
  ((0 < packets h)%nat -> 0 < rate h <= 192000 /\ is_Some (serial h)).

(** What a page does to the cached bytes: a BOS page starts them afresh, a page seen before
    the third header packet is appended, and an audio page leaves them alone. *)
Definition cached_after (h : Headers) (bos : bool) (p : list Z) : list Z :=
  if bos then p else if (packets h =? 3)%nat then hbytes h else hbytes h ++ p.

(** An identification-header page at 44100 Hz, and a two-segment audio page. *)
Definition ex_bos_page : list Z :=
  bytes "OggS" ++ [0; 2] ++ replicate 8 0 ++ [7; 0; 0; 0] ++ replicate 8 0 ++ [1; 30]
  ++ [1] ++ bytes "vorbis" ++ [0; 0; 0; 0; 2] ++ [68; 172; 0; 0] ++ replicate 14 1.
Definition ex_setup_page : list Z :=
  bytes "OggS" ++ [0; 0] ++ replicate 8 0 ++ [7; 0; 0; 0] ++ replicate 8 0 ++ [2; 8; 9]
  ++ [3] ++ bytes "vorbis" ++ [0] ++ [5] ++ bytes "vorbis" ++ [0; 0].
Definition ex_audio_page : list Z :=
  bytes "OggS" ++ [0; 0] ++ [0; 176; 0; 0; 0; 0; 0; 0] ++ [7; 0; 0; 0] ++ replicate 8 0 ++ [2; 3; 1]
  ++ [10; 11; 12; 13].

(** ** Lemmas *)

Lemma read_exact_ok r n l r' :
  read_exact r n = Ok (l, r') ->
  rd_data r = l ++ rd_data r' /\ length l = n /\ rd_fails r' = rd_fails r.
Proof.
  unfold read_exact. case_decide as Hn; intros; simplify_eq. simpl.
  rewrite take_drop, length_take. split_and!; [done|lia|done].
Qed.

Lemma read_exact_app l rest f n :
  length l = n -> read_exact (mkReader (l ++ rest) f) n = Ok (l, mkReader rest f).
Proof.
  intros <-. unfold read_exact, rd_advance; simpl. rewrite decide_True by (rewrite length_app; lia).
  by rewrite take_app_length, drop_app_length.
Qed.

Lemma sum_Z_nonneg l : Forall is_byte l -> 0 <= sum_Z l <= 255 * Z.of_nat (length l).
Proof.
  induction 1 as [|b l Hb Hl IH]; [simpl; lia|].
  cbn [sum_Z fold_right length]. fold (sum_Z l). unfold is_byte in Hb. lia.
Qed.

(** Case analysis on every monadic step of a hypothesis that ends in [Ok]. *)
Ltac run_ok :=
  repeat match goal with
  | H : mbind _ ?m = Ok _ |- _ =>
      let E := fresh "E" in destruct m eqn:E; simpl in H; [|discriminate H|discriminate H]
  | H : Ok _ = Ok _ |- _ => injection H as H; subst
  | H : Err _ = Ok _ |- _ => discriminate H
  | H : Panic = Ok _ |- _ => discriminate H
  | H : context [let '(_, _) := ?x in _] |- _ => is_var x; destruct x; simpl in H
  | H : (if ?b then _ else _) = Ok _ |- _ => destruct b eqn:?
  end.

Lemma page_sound r p r' :
  Forall is_byte (rd_data r) -> page r = Ok (Some p, r') ->
  valid_page p /\ rd_data r = p ++ rd_data r' /\ rd_fails r' = rd_fails r /\
  Z.of_nat (length p) <= MAX_PAGE.
Proof.
  intros Hb H. unfold page, read_byte in H.
  destruct (rd_data r) as [|h0 d] eqn:Hd.
  { destruct (rd_fails r); simpl in H; discriminate. }
  simpl in H. run_ok.
  repeat match goal with
  | E : read_exact _ _ = Ok _ |- _ => apply read_exact_ok in E as (?Hd & ?Hl & ?Hf)
  end.
  unfold rd_advance in *. rewrite Hd in *. simpl in *.
  match goal with E : index _ _ = Ok ?n |- _ =>
    unfold index in E; destruct ((h0 :: l) !! 26%nat) as [n0|] eqn:En; simplify_eq end.
  apply orb_false_iff in Heqb as [H1 H2].
  apply negb_false_iff, bool_decide_eq_true in H1, H2.
  assert (d = l ++ l0 ++ l1 ++ rd_data r') as -> by (rewrite drop_0 in Hd2; congruence).
  rewrite Forall_cons, !Forall_app in Hb. destruct Hb as (Hb0 & Hbl & Hbl0 & Hbl1 & _).
  assert (is_byte a) as Ha.
  { eapply (Forall_lookup_1 _ (h0 :: l)); [|exact En]. by constructor. }
  unfold is_byte in Ha. pose proof (sum_Z_nonneg _ Hbl0) as Hsum.
  split_and!.
  - split_and!.
    + constructor; [done|]. by rewrite !Forall_app.
    + rewrite <- H1. simpl. rewrite take_app_le by lia. done.
    + simpl. rewrite lookup_app_l by lia. done.
    + exists a. split.
      * rewrite app_comm_cons, lookup_app_l by (simpl; lia). done.
      * rewrite app_comm_cons, drop_app_ge by (simpl; lia). simpl length. rewrite Hl1.
        rewrite Nat.sub_diag, drop_0, <- Hl0, take_app_length. rewrite !length_app. lia.
  - by rewrite <- !app_assoc.
  - congruence.
  - unfold MAX_PAGE. rewrite !length_app. lia.
Qed.

(** A valid page is a header, a segment table and a body. *)
Lemma valid_page_split p : valid_page p ->
  exists h0 h' n table body,
    p = (h0 :: h') ++ table ++ body /\ length h' = 26%nat /\
    (h0 :: h') !! 26%nat = Some n /\ 0 <= n < 256 /\ length table = Z.to_nat n /\
    length body = Z.to_nat (sum_Z table) /\ Forall is_byte table /\
    take 4 (h0 :: h') = bytes "OggS" /\ (h0 :: h') !! 4%nat = Some 0.
Proof.
  intros (Hb & Hcap & Hver & n & Hn & Hlen).
  assert (is_byte n) as Hnb by by eapply (Forall_lookup_1 _ p).
  unfold is_byte in Hnb.
  assert (Forall is_byte (take (Z.to_nat n) (drop 27 p))) as Htb by by apply Forall_take, Forall_drop.
  pose proof (sum_Z_nonneg _ Htb) as Hs. pose proof (lookup_lt_Some _ _ _ Hn).
  destruct p as [|h0 p]; [done|].
  exists h0, (take 26 p), n, (take (Z.to_nat n) (drop 26 p)), (drop (Z.to_nat n) (drop 26 p)).
  simpl in *. rewrite length_take, !length_drop in Hs.
  split_and!.
  - by rewrite take_drop, take_drop.
  - rewrite length_take. lia.
  - by rewrite lookup_take_lt by lia.
  - lia.
  - lia.
  - rewrite length_take, length_drop. lia.
  - rewrite !length_drop. lia.
  - done.
  - rewrite <- Hcap. by rewrite take_take.
  - by rewrite lookup_take_lt by lia.
Qed.

Lemma page_complete p rest f :
  valid_page p -> page (mkReader (p ++ rest) f) = Ok (Some p, mkReader rest f).
Proof.
  intros (h0 & h' & n & table & body & -> & Hh & Hn & Hnb & Ht & Hb & Htb & Hcap & Hver)%valid_page_split.
  unfold page, read_byte, rd_advance. simpl.
  rewrite drop_0, <- !app_assoc, read_exact_app by done. cbn [mbind res_bind].
  simpl in Hcap, Hver, Hn |- *.
  rewrite Hcap, Hver. rewrite !bool_decide_true by done. cbn [negb orb].
  unfold index. simpl. rewrite Hn. cbn [mbind res_bind].
  rewrite read_exact_app by done. cbn [mbind res_bind].
  rewrite read_exact_app by done. done.
Qed.

Lemma valid_page_nonempty p : valid_page p -> (27 <= length p)%nat.
Proof.
  intros (h0 & h' & n & table & body & -> & Hh & _)%valid_page_split. rewrite length_app. simpl. lia.
Qed.

Lemma reader_thread_pages ps fuel :
  Forall valid_page ps -> (length ps < fuel)%nat ->
  reader_thread fuel (mkReader (concat ps) None) = map (fun p => Ok (Some p)) ps ++ [Ok None].
Proof.
  revert fuel; induction ps as [|p ps IH]; intros [|fuel] Hps Hf; simpl in *; try lia; [done|].
  inversion Hps; subst. rewrite page_complete by done. rewrite IH by (done || lia). done.
Qed.

Lemma finish_packet_safe h :
  headers_ok h -> (packets h < 3)%nat -> is_Some (serial h) ->
  safe (fun h' => headers_ok h' /\ serial h' = serial h /\ hbytes h' = hbytes h)
       (finish_packet h).
Proof.
  intros (Hp & Hpre & Hbyte & Hby & Hrate) Hlt Hser. unfold finish_packet.
  eapply safe_bind; [apply safe_index; simpl; lia|]. intros expected _. simpl.
  destruct (_ || _ || _); [done|].
  destruct (packets h =? 0)%nat eqn:Hp0.
  - destruct (_ <? 16)%nat eqn:H16; [done|]. apply Nat.ltb_ge in H16.
    rewrite slice_ok by lia. simpl.
    pose proof (le_combine_bounds _ (Forall_take _ 4 _ (Forall_drop _ 12 _ Hbyte))) as Hnn.
    set (r := le_combine _) in *. clearbody r.
    destruct ((r =? 0) || _) eqn:Hr; [done|]. simpl. bool_to_prop.
    unfold headers_ok; simpl. split_and!; try done; try lia. intros _. split; [lia|done].
  - apply Nat.eqb_neq in Hp0. unfold headers_ok; simpl. split_and!; try done; try lia.
    intros _. apply Hrate. lia.
Qed.

Lemma observe_segments_safe p segs : forall offset h,
  headers_ok h -> is_Some (serial h) -> Forall is_byte p -> Forall is_byte segs ->
  Z.of_nat offset + sum_Z segs <= Z.of_nat (length p) ->
  safe (fun h' => headers_ok h' /\ serial h' = serial h /\ hbytes h' = hbytes h)
       (observe_segments p offset segs h).
Proof.
  induction segs as [|seg segs IH]; intros offset h Hok Hser Hp Hsegs Hsum; simpl; [done|].
  inversion Hsegs as [|? ? Hseg Hsegs']; subst. unfold is_byte in Hseg.
  pose proof (sum_Z_nonneg _ Hsegs') as Hnn. cbn [sum_Z fold_right] in Hsum. fold (sum_Z segs) in Hsum.
  destruct (packets h =? 3)%nat eqn:Hp3; [done|]. apply Nat.eqb_neq in Hp3.
  eapply safe_bind; [apply safe_slice; lia|]. intros chunk ->. simpl.
  set (h1 := mkHeaders _ _ _ _ _).
  assert (headers_ok h1) as Hok1.
  { destruct Hok as (? & ? & ? & ? & ?). subst h1. unfold headers_ok; simpl. split_and!; [done| | |done|done].
    - rewrite length_app, length_take. lia.
    - apply Forall_app. split; [done|]. by apply Forall_take, Forall_drop. }
  apply (safe_bind (fun h' => headers_ok h' /\ serial h' = serial h /\ hbytes h' = hbytes h)).
  - destruct (seg <? 255); [|done].
    apply (finish_packet_safe h1); [done|destruct Hok; subst h1; simpl; lia|done].
  - intros h2 (Hok2 & Hs2 & Hb2). rewrite <- Hs2, <- Hb2. apply IH; [done|by rewrite Hs2|done|done|lia].
Qed.

Lemma headers_reset_ok sn : headers_ok (mkHeaders (Some sn) [] 0 [] 0).
Proof. unfold headers_ok, MAX_HEADERS; simpl. split_and!; try lia; constructor. Qed.

Lemma headers_default_ok : headers_ok headers_default.
Proof. unfold headers_ok, MAX_HEADERS; simpl. split_and!; try lia; constructor. Qed.

Lemma observe_safe h p flags :
  headers_ok h -> valid_page p -> p !! 5%nat = Some flags ->
  safe (fun h' => headers_ok h' /\ hbytes h' = cached_after h (is_bos flags) p /\
                  serial h' = Some (le_combine (take 4 (drop 14 p))) /\
                  (is_bos flags = false -> packets h = 3%nat -> h' = h))
       (observe h p).
Proof.
  intros Hok Hv Hflags. pose proof (valid_page_nonempty p Hv) as Hlen. unfold observe.
  rewrite slice_ok by lia. rewrite (index_ok _ _ _ Hflags). cbn [mbind res_bind Nat.sub].
  set (h0 := if is_bos flags then _ else h).
  assert (headers_ok h0) as Hok0 by (subst h0; destruct (is_bos flags); [apply headers_reset_ok|done]).
  destruct (negb _) eqn:Hsn; [done|]. apply negb_false_iff, bool_decide_eq_true in Hsn.
  destruct (packets h0 =? 3)%nat eqn:H3.
  { unfold cached_after. subst h0. destruct (is_bos flags); [done|]. by rewrite H3. }
  destruct (MAX_HEADERS <? _) eqn:Hmax; [done|]. bool_to_prop.
  destruct Hv as (Hb & _ & _ & n & Hn & Hplen).
  assert (is_byte n) as Hnb by by eapply (Forall_lookup_1 _ p). unfold is_byte in Hnb.
  rewrite (index_ok _ _ _ Hn). cbn [mbind res_bind].
  assert (Forall is_byte (take (Z.to_nat n) (drop 27 p))) as Htb by by apply Forall_take, Forall_drop.
  pose proof (sum_Z_nonneg _ Htb) as Hnn.
  rewrite slice_ok by lia. cbn [mbind res_bind]. replace (27 + Z.to_nat n - 27)%nat with (Z.to_nat n) by lia.
  eapply safe_bind; [apply observe_segments_safe; [done|by rewrite Hsn|done|done|lia]|].
  intros h' ((? & ? & ? & ? & ?) & Hs & Hh). simpl. split_and!.
  - unfold headers_ok; simpl. split_and!; [done|done|done|rewrite Hh, length_app; lia|done].
  - rewrite Hh. unfold cached_after. subst h0. destruct (is_bos flags); [done|]. by rewrite H3.
  - by rewrite Hs.
  - intros Hbos Hp3. subst h0. rewrite Hbos, Hp3 in H3. done.
Qed.

(** ** Properties *)

(** C5: the framing round trip: whatever valid pages the producer writes back to back, the
    reader thread delivers exactly those pages in order, then end of input. *)
Theorem ogg_stream_roundtrip (ps : list (list Z)) (Hps : Forall valid_page ps) :
  reader_thread (S (length ps)) (mkReader (concat ps) None)
  = map (fun p => Ok (Some p)) ps ++ [Ok None].
Proof. apply reader_thread_pages; [done|lia]. Qed.

(** A page that is read is a prefix of the input, is well formed, fits the buffer reserved
    for it, and leaves exactly the rest of the input to be read. *)
Theorem ogg_page_sound (r r' : reader) (p : list Z)
    (Hb : Forall is_byte (rd_data r)) (H : page r = Ok (Some p, r')) :
  valid_page p /\ rd_data r = p ++ rd_data r' /\ Z.of_nat (length p) <= MAX_PAGE.
Proof. by destruct (page_sound r p r' Hb H) as (? & ? & ? & ?). Qed.

(** Observing a valid page never panics; it keeps the cache within 65536 bytes, counts at
    most three header packets, and any counted header implies a usable sample rate, so the
    pacing division is safe; after the third packet only a BOS page changes the cache. *)
Theorem headers_observe_safe (h : Headers) (p : list Z) (Hok : headers_ok h) (Hv : valid_page p) :
  observe h p <> Panic /\
  (forall h', observe h p = Ok h' -> headers_ok h' /\
     (forall flags, p !! 5%nat = Some flags ->
        hbytes h' = cached_after h (is_bos flags) p /\
        (is_bos flags = false -> packets h = 3%nat -> h' = h))).
Proof.
  destruct (lookup_lt_is_Some_2 p 5) as [flags Hf]; [pose proof (valid_page_nonempty p Hv); lia|].
  pose proof (observe_safe h p flags Hok Hv Hf) as Hs.
  destruct (observe h p); simpl in Hs; [|done|done]. split; [done|].
  intros h' [= <-]. destruct Hs as (? & ? & ? & ?). split; [done|]. intros. by simplify_eq.
Qed.

(** ** Witnesses *)

Lemma ex_pages_valid : Forall valid_page [ex_bos_page; ex_setup_page; ex_audio_page].
Proof.
  repeat constructor; try (by vm_compute);
    (eexists; split; [reflexivity|vm_compute; reflexivity]).
Qed.

Lemma ogg_stream_roundtrip_witness :
  reader_thread 4 (mkReader (ex_bos_page ++ ex_setup_page ++ ex_audio_page) None)
  = [Ok (Some ex_bos_page); Ok (Some ex_setup_page); Ok (Some ex_audio_page); Ok None].
Proof.
  pose proof (ogg_stream_roundtrip [ex_bos_page; ex_setup_page; ex_audio_page] ex_pages_valid) as H.
  exact H.
Defined.

Lemma ogg_page_sound_witness :
  valid_page ex_audio_page /\ Z.of_nat (length ex_audio_page) <= MAX_PAGE.
Proof.
  destruct (ogg_page_sound (mkReader (ex_audio_page ++ [1; 2]) None) (mkReader [1; 2] None) ex_audio_page)
    as (Hv & _ & Hl); [repeat constructor; by vm_compute|reflexivity|]. by split.
Defined.

Lemma headers_observe_safe_witness :
  exists h, observe headers_default ex_bos_page = Ok h /\ headers_ok h /\ packets h = 1%nat.
Proof.
  destruct (headers_observe_safe headers_default ex_bos_page headers_default_ok
              (Forall_inv ex_pages_valid)) as [_ H].
  eexists. split; [vm_compute; reflexivity|]. split; [|reflexivity].
  apply H. vm_compute. reflexivity.
Defined.
