(* ===== verification/Bridge.v ===== *)
(** * The Ogg HTTP bridge ([native/bridge/bridge.rs], [main] and its helpers)

    One iteration of the main loop is a function of the state and of what the outside world
    answers during that iteration ([env]): the loading marker file, the listening socket, the
    page queue, the clock and the client socket.  [reachable] is the closure of [iteration]
    from the initial state; beside the state it records the pages observed since the last
    beginning-of-stream page, split into header and audio pages, from the events the
    iteration reports; [execution] is a run from any state with all its events in order.
    A client is modelled by the bytes written to its socket. *)
From S2P Require Import Prelude Text OggPage.

(** ** Command line *)

Record Args := mkArgs {
  port : string;
  paced : bool;
  marker : option string;
  loading_marker : option string
}.

(** [args.windows(2).find(|w| w\[0\] == flag).map(|w| w\[1\])] *)
Fixpoint flag_value (flag : string) (args : list string) : option string :=
  match args with
  | a :: rest =>
      match rest with
      | b :: _ => if bool_decide (a = flag) then Some b else flag_value flag rest
      | [] => None
      end
  | [] => None
  end.

Definition parse_args (args : list string) : Args :=
  mkArgs
    (match args with
     | s :: _ => if starts_with s "--" then "17880" else s
     | [] => "17880"
     end)
    (negb (existsb (fun a => bool_decide (a = "--unpaced")) args))
    (flag_value "--stream-marker" args)
    (flag_value "--loading-marker" args).

(** ** Marker files *)

(** The text [write_marker] renames into place. *)
Definition marker_text (generation serial : Z) : string :=
  String.append (show_Z generation) (String.append ":" (String.append (show_Z serial) (String "010" ""))).

(** [read_marker] on the result of reading the file. *)
Definition read_marker (file : option string) : option string :=
  match file with
  | None => None
  | Some value => let value := trim value in if is_empty value then None else Some value
  end.

(** ** HTTP handshake *)

Definition CRLF : list Z := [13; 10].
Definition http_ok : list Z :=
  bytes "HTTP/1.0 200 OK" ++ CRLF ++ bytes "Content-Type: audio/ogg" ++ CRLF
  ++ bytes "Connection: close" ++ CRLF ++ CRLF.
Definition http_bad : list Z :=
  bytes "HTTP/1.0 400 Bad Request" ++ CRLF ++ bytes "Connection: close" ++ CRLF
  ++ bytes "Content-Length: 0" ++ CRLF ++ CRLF.

Definition ends_with (l suffix : list Z) : bool :=
  bool_decide (drop (length l - length suffix) l = suffix).

Definition REQUEST_MAX : nat := 4096.

(** One byte at a time until a blank line or [REQUEST_MAX] bytes. *)
Fixpoint read_request (fuel : nat) (r : reader) (request : list Z) : res io_error (list Z) :=
  match fuel with
  | O => Ok request
  | S fuel =>
      '(b, r) ← read_exact r 1;
      let request := request ++ b in
      if ends_with request [13; 10; 13; 10] || ends_with request [10; 10] then Ok request
      else read_request fuel r request
  end.

(** The first line, without its line feed. *)
Fixpoint first_line (l : list Z) : list Z :=
  match l with
  | [] => []
  | b :: l' => if b =? 10 then [] else b :: first_line l'
  end.

Definition request_supported (request : list Z) : bool :=
  let first := first_line request in
  negb (length request =? REQUEST_MAX)%nat
  && (bool_decide (first = bytes "GET /spotify.ogg HTTP/1.0" ++ [13])
      || bool_decide (first = bytes "GET /spotify.ogg HTTP/1.0")
      || bool_decide (first = bytes "GET /spotify.ogg HTTP/1.1" ++ [13])).

(** A connection as the operating system presents it: the outcome of each call on it. *)
Record conn := mkConn {
  c_setsockopt : option io_error;
  c_read_timeout : option io_error;
  c_write_timeout : option io_error;
  c_request : reader;
  c_response : option io_error;
  c_replay : option io_error;
  c_stream_timeout : option io_error
}.

Definition ok_unless (e : option io_error) : res io_error unit :=
  match e with Some e => Err e | None => Ok tt end.

(** The bytes sent in answer to the request, and whether the client is accepted. *)
Definition accept_http (c : conn) : list Z * res io_error unit :=
  match _ ← ok_unless (c_setsockopt c); _ ← ok_unless (c_read_timeout c);
        _ ← ok_unless (c_write_timeout c); read_request REQUEST_MAX (c_request c) [] with
  | Ok request =>
      let answer := if request_supported request then http_ok else http_bad in
      match c_response c with
      | Some e => ([], Err e)
      | None =>
          (answer, if request_supported request then Ok tt
                   else Err (Other "unsupported HTTP request"))
      end
  | Err e => ([], Err e)
  | Panic => ([], Panic)
  end.

(** ** The main loop *)

Record bridge := mkBridge {
  headers : Headers;
  client : option (list Z);
  pending : option (list Z);
  pending_header : bool;
  offset : nat;
  forwarded : Z;
  timeline : option (Z * Z);
  generation : Z;
  last_loading : option string;
  discard_until_bos : bool
}.

Definition bridge_init : bridge :=
  mkBridge headers_default None None false 0 0 None 0 None false.

Inductive accept_outcome := NoConnection | AcceptError (e : io_error) | Accepted (c : conn).
Inductive recv_outcome :=
| RecvPage (p : list Z) | RecvEof | RecvError (e : io_error) | RecvTimeout | RecvDisconnected.
Inductive write_outcome := WriteOk (n : nat) | WriteErr (e : io_error).

(** What the outside world answers in one iteration.  Times are in nanoseconds; [e_write]
    is given the length of the buffer. *)
Record env := mkEnv {
  e_loading : option string;
  e_accept : accept_outcome;
  e_recv : recv_outcome;
  e_now : Z;
  e_elapsed_at : Z;
  e_write : nat -> write_outcome;
  e_marker : option io_error
}.

Inductive event :=
| Loading (id : string)
| ClientOpened
| ClientClosed
| Observed (p : list Z) (is_header : bool)
| StreamReady (text : string)
| Wrote (bs : list Z).

(** [Fall]: on to the next statement; [Again]: [continue]; [Stop]: [main] returns. *)
Inductive flow :=
| Fall (b : bridge) (evs : list event)
| Again (b : bridge) (evs : list event)
| Stop (r : res io_error unit) (evs : list event).

Definition flow_bind (m : flow) (f : bridge -> flow) : flow :=
  match m with
  | Fall b evs =>
      match f b with
      | Fall b' evs' => Fall b' (evs ++ evs')
      | Again b' evs' => Again b' (evs ++ evs')
      | Stop r evs' => Stop r (evs ++ evs')
      end
  | _ => m
  end.

Definition close_client (b : bridge) : list event :=
  match client b with Some _ => [ClientClosed] | None => [] end.

(** A new loading marker: forget the previous track. *)
Definition check_loading (cfg : Args) (w : env) (b : bridge) : flow :=
  match (match loading_marker cfg with Some _ => read_marker (e_loading w) | None => None end) with
  | Some loading =>
      if bool_decide (last_loading b = Some loading) then Fall b []
      else Fall (mkBridge (headers b) None None (pending_header b) 0 (forwarded b) None
                   (generation b) (Some loading) true)
                (Loading loading :: close_client b)
  | None => Fall b []
  end.

Definition accept_client (w : env) (b : bridge) : flow :=
  match client b with
  | Some _ => Fall b []
  | None =>
      match e_accept w with
      | NoConnection => Fall b []
      | AcceptError e => Stop (Err e) []
      | Accepted c =>
          match accept_http c with
          | (sent, Ok _) =>
              match c_replay c with
              | Some _ => Fall b []
              | None =>
                  match c_stream_timeout c with
                  | Some e => Stop (Err e) []
                  | None =>
                      Fall (mkBridge (headers b) (Some (sent ++ hbytes (headers b))) (pending b)
                              (pending_header b) (offset b) (forwarded b) None (generation b)
                              (last_loading b) (discard_until_bos b)) [ClientOpened]
                  end
              end
          | (_, Err _) => Fall b []
          | (_, Panic) => Stop Panic []
          end
      end
  end.

(** Keep the next audio page until a client arrives. *)
Definition hold_pending (b : bridge) : flow :=
  match pending b, client b with
  | Some _, None => if discard_until_bos b then Fall b [] else Again b []
  | _, _ => Fall b []
  end.

(** The branch of [receive] for a page that is not discarded. *)
Definition take_page (cfg : Args) (w : env) (b : bridge) (p : list Z) (bos : bool) : flow :=
  let is_header := bos || (packets (headers b) <? 3)%nat in
  let closed := if bos then close_client b else [] in
  let client' := if bos then None else client b in
  let timeline' := if bos then None else timeline b in
  let discard' := if bos then false else discard_until_bos b in
  let had_headers := (packets (headers b) =? 3)%nat in
  match observe (headers b) p with
  | Panic => Stop Panic closed
  | Err e => Stop (Err e) closed
  | Ok h =>
      let ready := negb had_headers && (packets h =? 3)%nat in
      let generation' := if ready then wrap 64 (generation b + 1) else generation b in
      let keep := match client' with Some _ => true | None => negb is_header end in
      let b' := mkBridge h client' (if keep then Some p else None)
                  (if keep then is_header else pending_header b)
                  (if keep then 0 else offset b) (forwarded b) timeline' generation'
                  (last_loading b) discard' in
      match (if ready then marker cfg else None), serial h with
      | Some _, Some sn =>
          match e_marker w with
          | Some e => Stop (Err e) (closed ++ [Observed p is_header])
          | None => Fall b' (closed ++ [Observed p is_header; StreamReady (marker_text generation' sn)])
          end
      | _, _ => Fall b' (closed ++ [Observed p is_header])
      end
  end.

Definition receive (cfg : Args) (w : env) (b : bridge) : flow :=
  match pending b with
  | Some _ => Fall b []
  | None =>
      match e_recv w with
      | RecvPage p =>
          match index (E := io_error) p 5 with
          | Ok flags =>
              let bos := is_bos flags in
              if discard_until_bos b && negb bos then Again b []
              else take_page cfg w b p bos
          | _ => Stop Panic []
          end
      | RecvEof | RecvDisconnected => Stop (Ok tt) []
      | RecvError e => Stop (Err e) []
      | RecvTimeout => Again b []
      end
  end.

(** Pacing of the first write of an audio page: [Some timeline'] when the page is due (or not
    paced), [None] paired with the timeline when the loop sleeps instead. *)
Definition u64_max : Z := 2 ^ 64 - 1.

(** The instant, after the epoch, before which a page of granule position [gp] is held back. *)
Definition due_ns (gp base rate : Z) : Z :=
  u64_saturating_sub (u64_saturating_mul (u64_saturating_sub gp base) 1000 / rate) STARTUP_LEAD_MS
  * 1000000.

Definition pace (cfg : Args) (w : env) (b : bridge) (p : list Z) : res io_error (bool * option (Z * Z)) :=
  if paced cfg && negb (pending_header b) && (offset b =? 0)%nat then
    g ← slice p 6 14;
    let gp := le_combine g in
    if gp =? u64_max then Ok (true, timeline b)
    else
      let '(epoch, base) := match timeline b with Some t => t | None => (e_now w, gp) end in
      if rate (headers b) =? 0 then Panic
      else
        let due := due_ns gp base (rate (headers b)) in
        Ok (negb (e_elapsed_at w - epoch <=? due), Some (epoch, base))
  else Ok (true, timeline b).

Definition with_timeline (b : bridge) (t : option (Z * Z)) : bridge :=
  mkBridge (headers b) (client b) (pending b) (pending_header b) (offset b) (forwarded b) t
    (generation b) (last_loading b) (discard_until_bos b).

Definition forward (cfg : Args) (w : env) (b : bridge) : flow :=
  match pending b, client b with
  | Some p, Some sent =>
      match pace cfg w b p with
      | Ok (false, t) => Again (with_timeline b t) []
      | Ok (true, t) =>
          let b := with_timeline b t in
          match slice (E := io_error) p (offset b) (length p) with
          | Ok buf =>
              match e_write w (length buf) with
              | WriteOk (S _ as n) =>
                  let offset' := (offset b + n)%nat in
                  let done := (offset' =? length p)%nat in
                  Fall (mkBridge (headers b) (Some (sent ++ take n buf))
                          (if done then None else Some p) (pending_header b)
                          (if done then 0%nat else offset') (wrap 64 (forwarded b + Z.of_nat n)) t
                          (generation b) (last_loading b) (discard_until_bos b))
                       [Wrote (take n buf)]
              | WriteErr (WouldBlock | TimedOut | Interrupted) => Fall b []
              | _ =>
                  Fall (mkBridge (headers b) None (if pending_header b then None else Some p)
                          (pending_header b) 0 (forwarded b) t (generation b) (last_loading b)
                          (discard_until_bos b)) [ClientClosed]
              end
          | _ => Stop Panic []
          end
      | Err e => Stop (Err e) []
      | Panic => Stop Panic []
      end
  | _, _ => Fall b []
  end.

Definition iteration (cfg : Args) (w : env) (b : bridge) : flow :=
  flow_bind (check_loading cfg w b) (fun b =>
  flow_bind (accept_client w b) (fun b =>
  flow_bind (hold_pending b) (fun b =>
  flow_bind (receive cfg w b) (fun b => forward cfg w b)))).

(** ** Reachable states *)

(** The header pages and the audio pages observed since the last beginning of stream. *)
Definition page_is_bos (p : list Z) : bool :=
  match p !! 5%nat with Some f => is_bos f | None => false end.

Definition track1 (g : list (list Z) * list (list Z)) (e : event) : list (list Z) * list (list Z) :=
  match e with
  | Observed p hdr =>
      if page_is_bos p then ([p], [])
      else if hdr then (g.1 ++ [p], g.2) else (g.1, g.2 ++ [p])
  | _ => g
  end.
Definition track g (evs : list event) := fold_left track1 evs g.

(** The environment delivers whole pages (which is what the reader thread sends) and a write
    reports at most the length of its buffer, as [Write::write] documents. *)
Definition env_ok (w : env) : Prop :=
  (forall p, e_recv w = RecvPage p -> valid_page p) /\
  (forall len n, e_write w len = WriteOk n -> (n <= len)%nat).

Inductive reachable (cfg : Args) : bridge -> list (list Z) * list (list Z) -> Prop :=
| reach_init : reachable cfg bridge_init ([], [])
| reach_fall b g w b' evs :
    reachable cfg b g -> env_ok w -> iteration cfg w b = Fall b' evs -> reachable cfg b' (track g evs)
| reach_again b g w b' evs :
    reachable cfg b g -> env_ok w -> iteration cfg w b = Again b' evs -> reachable cfg b' (track g evs).

(** The part of the pending page that is still to be written. *)
Definition in_flight (b : bridge) : list Z :=
  match pending b with Some p => drop (offset b) p | None => [] end.

Definition pending_ok (b : bridge) (g : list (list Z) * list (list Z)) : Prop :=
  match pending b with
  | None => offset b = 0%nat
  | Some p =>
      valid_page p /\ (offset b < length p)%nat /\ (client b = None -> offset b = 0%nat) /\
      (forall sent, client b = Some sent -> take (offset b) p `suffix_of` sent) /\
      if pending_header b then is_Some (client b)
      else packets (headers b) = 3%nat /\ last g.2 = Some p
  end.

Definition client_ok (b : bridge) (g : list (list Z) * list (list Z)) : Prop :=
  match client b with
  | None => True
  | Some sent => exists skip, (skip <= length g.2)%nat /\
      sent ++ in_flight b = http_ok ++ concat g.1 ++ concat (drop skip g.2)
  end.

Definition bridge_ok (b : bridge) (g : list (list Z) * list (list Z)) : Prop :=
  headers_ok (headers b) /\ hbytes (headers b) = concat g.1 /\
  ((packets (headers b) < 3)%nat -> g.2 = []) /\
  (discard_until_bos b = true -> pending b = None) /\
  pending_ok b g /\ client_ok b g.

Definition flow_ok (g : list (list Z) * list (list Z)) (m : flow) : Prop :=
  match m with
  | Fall b evs | Again b evs => bridge_ok b (track g evs)
  | Stop r _ => r <> Panic
  end.

(** A run in which a client connects between the setup headers and the first audio page. *)
Definition ex_args : Args := mkArgs "17880" false None None.
Definition ex_conn : conn :=
  mkConn None None None (mkReader (bytes "GET /spotify.ogg HTTP/1.0" ++ [13; 10; 13; 10]) None) None None None.
Definition ex_env (a : accept_outcome) (r : recv_outcome) : env :=
  mkEnv None a r 0 0 (fun len => WriteOk len) None.
Definition ex_run : list env :=
  [ex_env NoConnection (RecvPage ex_bos_page); ex_env NoConnection (RecvPage ex_setup_page);
   ex_env (Accepted ex_conn) (RecvPage ex_audio_page)].
Fixpoint run (cfg : Args) (ws : list env) (b : bridge) (g : list (list Z) * list (list Z))
  : option (bridge * (list (list Z) * list (list Z))) :=
  match ws with
  | [] => Some (b, g)
  | w :: ws =>
      match iteration cfg w b with
      | Fall b' evs | Again b' evs => run cfg ws b' (track g evs)
      | Stop _ _ => None
      end
  end.

(** The audio page is received while no client is connected, then a client takes it. *)
Definition ex_run_late : list env :=
  [ex_env NoConnection (RecvPage ex_bos_page); ex_env NoConnection (RecvPage ex_setup_page);
   ex_env NoConnection (RecvPage ex_audio_page)].

Definition ex_args_loading : Args := mkArgs "17880" true None (Some "now.loading").

Fixpoint play (cfg : Args) (ws : list env) (b : bridge) (evs : list event) : option (bridge * list event) :=
  match ws with
  | [] => Some (b, evs)
  | w :: ws =>
      match iteration cfg w b with
      | Fall b' e | Again b' e => play cfg ws b' (evs ++ e)
      | Stop _ _ => None
      end
  end.
Definition ex_env_marked (a : accept_outcome) (r : recv_outcome) : env :=
  mkEnv (Some "6rqhFgbbKwnb9MLmUQDhG6") a r 0 0 (fun len => WriteOk len) None.
Definition ex_run_loading : list env :=
  [ex_env_marked NoConnection (RecvPage ex_audio_page);
   ex_env_marked (Accepted ex_conn) (RecvPage ex_audio_page);
   ex_env_marked NoConnection (RecvPage ex_bos_page);
   ex_env_marked (Accepted ex_conn) (RecvPage ex_setup_page)].

Definition ex_paced_state : bridge :=
  mkBridge (mkHeaders (Some 7) [] 3 [] 44100) (Some []) (Some ex_audio_page) false 0 0 (Some (0, 0)) 1 None false.

(** Events other than writing to the client and discarding the previous track. *)
Definition quiet (e : event) : Prop :=
  match e with Wrote _ | Loading _ => False | _ => True end.

(** A run of any number of iterations, with the events of all of them in order. *)
Inductive execution (cfg : Args) : bridge -> list event -> bridge -> Prop :=
| exec_nil b : execution cfg b [] b
| exec_step b evs b1 w evs' b' :
    execution cfg b evs b1 -> iteration cfg w b1 = Fall b' evs' \/ iteration cfg w b1 = Again b' evs' ->
    execution cfg b (evs ++ evs') b'.

(** A beginning-of-stream page is among the events. *)
Definition bos_seen (evs : list event) : Prop := exists p h, Observed p h ∈ evs /\ page_is_bos p = true.

(** The page was observed as, or after, a beginning-of-stream page of these events. *)
Definition seen_since_bos (evs : list event) (p : list Z) : Prop :=
  exists u pb hb v h, evs = u ++ Observed pb hb :: v /\ page_is_bos pb = true /\
    Observed p h ∈ Observed pb hb :: v.

(** Events of a bridge that discards: clients come and go and loading markers change. *)
Definition silent (e : event) : Prop :=
  match e with Loading _ | ClientOpened | ClientClosed => True | _ => False end.

(** The state after the events [after] that follow a loading marker. *)
Definition announced (after : list event) (b : bridge) : Prop :=
  (forall x bs y, after = x ++ Wrote bs :: y ->
     exists p k n, bs = take n (drop k p) /\ seen_since_bos x p) /\
  (forall p, pending b = Some p -> seen_since_bos after p) /\
  (bos_seen after \/
   Forall silent after /\ discard_until_bos b = true /\ pending b = None /\
   (client b = None \/ client b = Some (http_ok ++ hbytes (headers b)))).

(** ** Lemmas *)

#[local] Opaque http_ok http_bad.

Lemma track_app g e1 e2 : track g (e1 ++ e2) = track (track g e1) e2.
Proof. unfold track. by rewrite fold_left_app. Qed.

Lemma flow_bind_ok g m f :
  flow_ok g m -> (forall b evs, m = Fall b evs -> flow_ok (track g evs) (f b)) -> flow_ok g (flow_bind m f).
Proof.
  destruct m as [b evs| |]; simpl; [|done|done]. intros _ H. specialize (H b evs eq_refl).
  destruct (f b); simpl in *; [by rewrite track_app|by rewrite track_app|done].
Qed.

Lemma read_request_no_panic fuel r acc : read_request fuel r acc <> Panic.
Proof.
  revert r acc; induction fuel as [|fuel IH]; intros r acc; simpl; [done|].
  unfold read_exact. case_decide; simpl; [|done]. case_if; done || apply IH.
Qed.

Lemma accept_http_result c :
  (accept_http c).2 <> Panic /\ forall u, (accept_http c).2 = Ok u -> (accept_http c).1 = http_ok.
Proof.
  unfold accept_http.
  pose proof (read_request_no_panic REQUEST_MAX (c_request c) []) as Hnp. revert Hnp.
  generalize (read_request REQUEST_MAX (c_request c) []). intros r Hnp.
  destruct (c_setsockopt c); [done|]. destruct (c_read_timeout c); [done|].
  destruct (c_write_timeout c); [done|]. simpl.
  destruct r as [a|e|]; [|done|done].
  destruct (c_response c); [done|]. generalize (request_supported a). by intros [].
Qed.

Lemma check_loading_ok cfg w b g : bridge_ok b g -> flow_ok g (check_loading cfg w b).
Proof.
  intros H. unfold check_loading. destruct (loading_marker cfg); [|done].
  destruct (read_marker (e_loading w)); [|done].
  case_bool_decide; [done|]. simpl.
  assert (fold_left track1 (close_client b) g = g) as Ht by (unfold close_client; by destruct (client b)).
  unfold track. simpl. rewrite Ht. destruct H as (? & ? & ? & ? & ? & ?). by split_and!.
Qed.

Lemma accept_client_ok w b g : bridge_ok b g -> flow_ok g (accept_client w b).
Proof.
  intros H. unfold accept_client. destruct (client b) eqn:Hc; [done|].
  destruct (e_accept w) as [|e|c]; [done|done|].
  destruct (accept_http_result c) as [Hnp Hok]. destruct (accept_http c) as [sent [u|e|]]; simpl in *; try done.
  rewrite (Hok u eq_refl). destruct (c_replay c); [done|]. destruct (c_stream_timeout c); [done|]. simpl.
  destruct H as (? & Hh & H3 & ? & Hp & _). split_and!; try done.
  - unfold pending_ok in *; simpl in *. destruct (pending b); [|done].
    destruct Hp as (? & ? & Ho & _ & ?). split_and!; [done|done|done| |by destruct (pending_header b)].
    intros. rewrite (Ho Hc). apply suffix_nil.
  - unfold client_ok, in_flight, pending_ok in *; simpl in *. rewrite Hh, <- app_assoc.
    destruct (pending b) as [p|] eqn:Hpend.
    + destruct Hp as (_ & _ & Ho & _ & Hl). rewrite (Ho Hc), drop_0.
      destruct (pending_header b); [by destruct Hl as [? ?]; congruence|].
      destruct Hl as [_ Hl]. apply last_Some in Hl as [aud Haud]. exists (length aud).
      rewrite Haud, drop_app_length, length_app. simpl. rewrite app_nil_r. split; [lia|done].
    + exists (length g.2). rewrite drop_all. split; [lia|done].
Qed.

Lemma hold_pending_ok b g : bridge_ok b g -> flow_ok g (hold_pending b).
Proof.
  intros H. unfold hold_pending. destruct (pending b), (client b); try done. by destruct (discard_until_bos b).
Qed.

Lemma bos_flag p f : p !! 5%nat = Some f -> page_is_bos p = is_bos f.
Proof. intros H. unfold page_is_bos. by rewrite H. Qed.

Lemma track_observed g closed p hdr evs :
  closed = [] \/ closed = [ClientClosed] ->
  (forall e, e ∈ evs -> exists t, e = StreamReady t) ->
  track g (closed ++ Observed p hdr :: evs) = track1 g (Observed p hdr).
Proof.
  intros Hc He. assert (track g (closed ++ [Observed p hdr]) = track1 g (Observed p hdr)) as <-.
  { destruct Hc as [->| ->]; done. }
  rewrite !track_app. unfold track at 1. simpl. unfold track at 2. simpl.
  generalize (track1 (track g closed) (Observed p hdr)). intros g'.
  induction evs as [|e evs IH]; [done|]. destruct (He e) as [t ->]; [apply list_elem_of_here|].
  simpl. apply IH. intros e' He'. apply He. by apply list_elem_of_further.
Qed.

(** The bookkeeping of an observed page keeps the invariant. *)
Lemma take_page_state b g p flags h keep client' t' gen' d' ll :
  bridge_ok b g -> pending b = None -> valid_page p -> p !! 5%nat = Some flags ->
  observe (headers b) p = Ok h ->
  let bos := is_bos flags in
  let is_header := bos || (packets (headers b) <? 3)%nat in
  client' = (if bos then None else client b) ->
  keep = match client' with Some _ => true | None => negb is_header end ->
  (d' = true -> bos = false /\ discard_until_bos b = true) ->
  (discard_until_bos b = true -> bos = true) ->
  bridge_ok (mkBridge h client' (if keep then Some p else None)
               (if keep then is_header else pending_header b) (if keep then 0%nat else offset b)
               (forwarded b) t' gen' ll d') (track1 g (Observed p is_header)).
Proof.
  intros Hok Hpend Hv Hf Hobs bos is_header Hc Hk Hd Hdb.
  destruct Hok as (Hh & Hhb & H3 & Hdisc & Hp & Hcl). pose proof (valid_page_nonempty p Hv) as Hlen.
  pose proof (observe_safe _ _ _ Hh Hv Hf) as Hs. rewrite Hobs in Hs.
  destruct Hs as (Hh' & Hb' & _ & Hsame). unfold cached_after in Hb'. fold bos in Hb', Hsame.
  unfold pending_ok in Hp. rewrite Hpend in Hp.
  unfold track1. rewrite (bos_flag _ _ Hf). fold bos.
  assert (d' = true -> False) as Hd' by (intros Ht; destruct (Hd Ht) as [? ?]; rewrite Hdb in *; congruence).
  destruct bos eqn:Hbos; simpl in *.
  { subst client' keep. simpl. unfold bridge_ok, pending_ok, client_ok; simpl.
    rewrite app_nil_r. split_and!; done. }
  destruct (packets (headers b) <? 3)%nat eqn:Hlt3.
  - apply Nat.ltb_lt in Hlt3. pose proof (H3 Hlt3) as Hg2. unfold client_ok in Hcl. rewrite Hg2 in Hcl |- *.
    replace (packets (headers b) =? 3)%nat with false in Hb' by (symmetry; apply Nat.eqb_neq; lia).
    unfold bridge_ok, pending_ok, client_ok, in_flight in *. subst client'. simpl in *.
    rewrite concat_app. simpl. rewrite app_nil_r, Hb', Hhb. destruct (client b) as [sent|]; subst keep; simpl in *.
    + split_and!; try done; [lia|intros; apply suffix_nil|].
      destruct Hcl as (skip & Hsk & Hcl). rewrite Hpend in Hcl. exists 0%nat. split; [lia|].
      rewrite drop_0, !app_nil_r in *. rewrite drop_nil in Hcl. simpl in Hcl. rewrite Hcl.
      rewrite app_nil_r. by rewrite <- app_assoc.
    + by split_and!.
  - apply Nat.ltb_ge in Hlt3. assert (packets (headers b) = 3%nat) as Hp3 by (destruct Hh; lia).
    rewrite (Hsame eq_refl Hp3) in *. clear Hsame Hb'.
    assert (keep = true) as -> by (subst keep client'; by destruct (client b)).
    unfold bridge_ok, pending_ok, client_ok, in_flight in *. subst client'. simpl in *. split_and!; try done.
    + intros; lia.
    + lia.
    + intros; apply suffix_nil.
    + by rewrite last_snoc.
    + destruct (client b) as [sent|]; [|done]. destruct Hcl as (skip & Hsk & Hcl). rewrite Hpend, app_nil_r in Hcl.
      exists skip. rewrite length_app. split; [simpl; lia|].
      rewrite drop_0, drop_app_le, concat_app by lia. simpl. rewrite app_nil_r, Hcl.
      by rewrite <- !app_assoc.
Qed.

Lemma receive_ok cfg w b g : env_ok w -> bridge_ok b g -> flow_ok g (receive cfg w b).
Proof.
  intros [Hw _] Hok. unfold receive. destruct (pending b) eqn:Hpend; [done|].
  destruct (e_recv w) as [p| |e| |] eqn:Hr; try done.
  specialize (Hw p eq_refl). pose proof (valid_page_nonempty p Hw) as Hlen.
  destruct (lookup_lt_is_Some_2 p 5) as [flags Hf]; [lia|]. rewrite (index_ok _ _ _ Hf).
  destruct (discard_until_bos b && negb (is_bos flags)) eqn:Hdisc; [done|].
  unfold take_page. pose proof (observe_safe _ _ _ (proj1 Hok) Hw Hf) as Hsafe.
  destruct (observe (headers b) p) as [h|e|] eqn:Hobs; [|done|done]. clear Hsafe.
  set (closed := if is_bos flags then close_client b else []).
  assert (closed = [] \/ closed = [ClientClosed]) as Hcl.
  { subst closed. unfold close_client. destruct (is_bos flags), (client b); auto. }
  assert (discard_until_bos b = true -> is_bos flags = true) as Hdb.
  { intros Hd. rewrite Hd in Hdisc. by destruct (is_bos flags). }
  assert ((if is_bos flags then false else discard_until_bos b) = true ->
          is_bos flags = false /\ discard_until_bos b = true) as Hd' by (by destruct (is_bos flags)).
  match goal with |- context [if ?c then marker cfg else None] => destruct (if c then marker cfg else None) end;
    destruct (serial h); try destruct (e_marker w); simpl; try done;
    (rewrite track_observed;
     [by apply take_page_state with (flags := flags)|done|
      first [by intros e ?%elem_of_nil|intros e ->%list_elem_of_singleton; eauto]]).
Qed.

Lemma pace_safe cfg w b g p :
  bridge_ok b g -> pending b = Some p -> exists r, pace cfg w b p = Ok r.
Proof.
  intros ((_ & _ & _ & _ & Hrate) & _ & _ & _ & Hp & _) Hpend. unfold pending_ok in Hp. rewrite Hpend in Hp.
  destruct Hp as (Hv & _ & _ & _ & Hk). pose proof (valid_page_nonempty p Hv). unfold pace.
  destruct (paced cfg); simpl; [|by eauto]. destruct (pending_header b); simpl; [by eauto|].
  destruct (offset b =? 0)%nat; simpl; [|by eauto]. rewrite slice_ok by lia. simpl.
  case_if; [by eauto|]. destruct Hk as [Hk _]. rewrite Hk in Hrate.
  destruct (Hrate ltac:(lia)) as [? _]. replace (rate (headers b) =? 0) with false by (symmetry; apply Z.eqb_neq; lia).
  destruct (timeline b) as [[epoch base]|]; eauto.
Qed.

Lemma with_timeline_ok b g t : bridge_ok b g -> bridge_ok (with_timeline b t) g.
Proof. done. Qed.

Lemma forward_ok cfg w b g : env_ok w -> bridge_ok b g -> flow_ok g (forward cfg w b).
Proof.
  intros [_ Hw] Hok. unfold forward. destruct (pending b) as [p|] eqn:Hpend; [|done].
  destruct (client b) as [sent|] eqn:Hc; [|done].
  destruct (pace_safe cfg w b g p Hok Hpend) as [[[] t] ->]; [|by apply with_timeline_ok].
  unfold with_timeline. simpl. destruct Hok as (Hh & Hhb & H3 & Hdisc & Hp & Hcl).
  unfold pending_ok in Hp. rewrite Hpend in Hp. destruct Hp as (Hv & Hoff & Hnone & Hsuf & Hk).
  specialize (Hsuf sent Hc).
  unfold client_ok, in_flight in Hcl. rewrite Hc, Hpend in Hcl. destruct Hcl as (skip & Hsk & Hcl).
  assert (discard_until_bos b = true -> False) as Hd by (intros Hd; specialize (Hdisc Hd); congruence).
  rewrite slice_ok by lia. rewrite (take_ge (drop _ p)) by (rewrite length_drop; lia).
  specialize (Hw (length (drop (offset b) p))).
  assert (forall ph n, ph = pending_header b ->
    bridge_ok (mkBridge (headers b) None (if ph then None else Some p) ph 0 n t
                 (generation b) (last_loading b) (discard_until_bos b)) g) as Hdrop.
  { intros ph n ->. unfold bridge_ok, pending_ok, client_ok; simpl. destruct (pending_header b) eqn:Hph.
    - split_and!; done.
    - split_and!; try done; [lia|apply Hk|apply Hk]. }
  assert (bridge_ok (mkBridge (headers b) (Some sent) (Some p) (pending_header b) (offset b) (forwarded b) t
                 (generation b) (last_loading b) (discard_until_bos b)) g) as Hkeep.
  { unfold bridge_ok, pending_ok, client_ok, in_flight; simpl. split_and!; try done.
    - by intros ? [= <-].
    - by destruct (pending_header b).
    - by exists skip. }
  destruct (e_write w _) as [[|n]|e] eqn:Hwr; simpl.
  - by apply (Hdrop (pending_header b)).
  - specialize (Hw _ eq_refl). rewrite length_drop in Hw.
    destruct (offset b + S n =? length p)%nat eqn:Hdone.
    + apply Nat.eqb_eq in Hdone. unfold bridge_ok, pending_ok, client_ok, in_flight; simpl.
      split_and!; try done. exists skip. split; [done|].
      rewrite take_ge by (rewrite length_drop; lia). by rewrite app_nil_r.
    + apply Nat.eqb_neq in Hdone. unfold bridge_ok, pending_ok, client_ok, in_flight; simpl.
      split_and!; try done; [lia| |by destruct (pending_header b)|].
      { intros ? [= <-]. destruct Hsuf as [k ->]. exists k.
        rewrite <- app_assoc. f_equal. by rewrite <- take_take_drop. }
      exists skip. split; [done|]. rewrite <- Hcl, <- app_assoc. f_equal.
      rewrite <- (take_drop (S n) (drop (offset b) p)) at 2. by rewrite drop_drop.
  - destruct e; simpl; rewrite ?Hc, ?Hpend; (by apply Hkeep) || by apply (Hdrop (pending_header b)).
Qed.

Lemma iteration_ok cfg w b g : env_ok w -> bridge_ok b g -> flow_ok g (iteration cfg w b).
Proof.
  intros Hw Hok. unfold iteration.
  apply flow_bind_ok; [by apply check_loading_ok|]. intros b1 e1 E1.
  pose proof (check_loading_ok cfg w b g Hok) as H1. rewrite E1 in H1. simpl in H1.
  apply flow_bind_ok; [by apply accept_client_ok|]. intros b2 e2 E2.
  pose proof (accept_client_ok w b1 _ H1) as H2. rewrite E2 in H2. simpl in H2.
  apply flow_bind_ok; [by apply hold_pending_ok|]. intros b3 e3 E3.
  pose proof (hold_pending_ok b2 _ H2) as H3. rewrite E3 in H3. simpl in H3.
  apply flow_bind_ok; [by apply receive_ok|]. intros b4 e4 E4.
  pose proof (receive_ok cfg w b3 _ Hw H3) as H4. rewrite E4 in H4. simpl in H4.
  by apply forward_ok.
Qed.

Lemma bridge_init_ok : bridge_ok bridge_init ([], []).
Proof. unfold bridge_ok. split_and!; try done. apply headers_default_ok. Qed.

Lemma reachable_ok cfg b g : reachable cfg b g -> bridge_ok b g.
Proof.
  induction 1 as [|b g w b' evs Hr IH Hw Hi|b g w b' evs Hr IH Hw Hi]; [apply bridge_init_ok|..];
    pose proof (iteration_ok cfg w b g Hw IH) as H; by rewrite Hi in H.
Qed.

Lemma run_reachable cfg ws b g b' g' :
  Forall env_ok ws -> reachable cfg b g -> run cfg ws b g = Some (b', g') -> reachable cfg b' g'.
Proof.
  revert b g; induction ws as [|w ws IH]; intros b g Hws Hr H; simpl in H; [by simplify_eq|].
  inversion Hws; subst. destruct (iteration cfg w b) eqn:Hi; [| |done];
    (eapply IH; [done| |exact H]); [by eapply reach_fall|by eapply reach_again].
Qed.

(** A request that is read completely is a prefix of what the client sent, ended by a blank
    line unless it filled the buffer. *)
Lemma read_request_spec fuel r acc req :
  read_request fuel r acc = Ok req ->
  exists l rest, req = acc ++ l /\ rd_data r = l ++ rest /\ (length l <= fuel)%nat /\
    (length l = fuel \/ ends_with req [13; 10; 13; 10] || ends_with req [10; 10] = true).
Proof.
  revert r acc; induction fuel as [|fuel IH]; intros r acc H; simpl in H.
  - simplify_eq. exists [], (rd_data r). rewrite app_nil_r. split_and!; [done|done|simpl; lia|by left].
  - destruct (read_exact r 1) as [[b r']| |] eqn:Hr; simpl in H; [|done|done].
    apply read_exact_ok in Hr as (Hd & Hl & _).
    destruct (ends_with (acc ++ b) _ || ends_with (acc ++ b) _) eqn:He.
    + injection H as <-. exists b, (rd_data r'). split_and!; [done|done|lia|by right].
    + apply IH in H as (l & rest & -> & Hd' & Hl' & Hend). exists (b ++ l), rest.
      rewrite app_assoc. split_and!; [done|by rewrite Hd, Hd', app_assoc|rewrite length_app; lia|].
      destruct Hend as [Hend|Hend]; [left; rewrite length_app; lia|by right].
Qed.

Lemma forward_wrote cfg w b b' evs bs :
  forward cfg w b = Fall b' evs \/ forward cfg w b = Again b' evs -> Wrote bs ∈ evs ->
  exists p sent t, pending b = Some p /\ client b = Some sent /\ pace cfg w b p = Ok (true, t).
Proof.
  unfold forward. destruct (pending b) as [p|]; [|intros [?|?]; simplify_eq; by intros ?%elem_of_nil].
  destruct (client b) as [sent|]; [|intros [?|?]; simplify_eq; by intros ?%elem_of_nil].
  destruct (pace cfg w b p) as [[[] t]| |] eqn:Hp; [by eauto 10| |by intros [?|?]|by intros [?|?]].
  intros [?|?]; simplify_eq. by intros ?%elem_of_nil.
Qed.

(** A stage that ends without events. *)
Ltac no_events := intros; simplify_eq/=; split_and?; try done; try constructor.

Lemma check_loading_frame cfg w b b' evs :
  check_loading cfg w b = Fall b' evs ->
  (forall bs, Wrote bs ∉ evs) /\
  ((exists id, Loading id ∈ evs) /\ pending b' = None /\ discard_until_bos b' = true \/ b' = b /\ evs = []).
Proof.
  assert (forall bs, Wrote bs ∉ []) as Hnil by (intros; apply not_elem_of_nil).
  unfold check_loading, close_client. destruct (loading_marker cfg); [|intros; simplify_eq; auto].
  destruct (read_marker _) as [id|]; [|intros; simplify_eq; auto].
  case_bool_decide; [intros; simplify_eq; auto|]. intros; simplify_eq/=. split.
  - intros bs. destruct (client b); rewrite ?not_elem_of_cons; auto.
  - left. split_and!; [|done|done]. exists id. apply list_elem_of_here.
Qed.

Lemma accept_client_frame w b b' evs :
  accept_client w b = Fall b' evs ->
  pending b' = pending b /\ pending_header b' = pending_header b /\
  discard_until_bos b' = discard_until_bos b /\ Forall quiet evs.
Proof.
  unfold accept_client. destruct (client b); [no_events|].
  destruct (e_accept w) as [|e|c]; [no_events|done|].
  destruct (accept_http c) as [sent [[]|e|]]; [|no_events|done].
  destruct (c_replay c); [no_events|]. destruct (c_stream_timeout c); [done|].
  intros; simplify_eq/=. split_and!; try done. by repeat constructor.
Qed.

Lemma receive_quiet cfg w b b' evs :
  receive cfg w b = Fall b' evs \/ receive cfg w b = Again b' evs -> Forall quiet evs.
Proof.
  unfold receive, take_page, close_client. destruct (pending b); [intros [?|?]; no_events|].
  destruct (e_recv w) as [p| |e| |]; try (intros [?|?]; no_events; fail).
  destruct (index p 5) as [flags| |]; try (intros [?|?]; no_events; fail).
  destruct (discard_until_bos b && _); [intros [?|?]; no_events|].
  destruct (observe (headers b) p) as [h| |]; try (intros [?|?]; no_events; fail).
  match goal with |- context [if ?c then marker cfg else None] => destruct (if c then marker cfg else None) end;
    destruct (serial h); try destruct (e_marker w); intros [?|?]; simplify_eq;
    destruct (is_bos flags), (client b); by repeat constructor.
Qed.

Lemma forward_events cfg w b b' evs :
  forward cfg w b = Fall b' evs \/ forward cfg w b = Again b' evs ->
  (forall id, Loading id ∉ evs) /\
  (pending b = None \/ client b = None -> evs = []).
Proof.
  assert (forall id, Loading id ∉ []) as Hnil by (intros; apply not_elem_of_nil).
  assert (forall id bs, Loading id ∉ [Wrote bs]) as Hw by (by intros ? ? ?%list_elem_of_singleton).
  assert (forall id, Loading id ∉ [ClientClosed]) as Hc by (by intros ? ?%list_elem_of_singleton).
  unfold forward. destruct (pending b) as [p|], (client b) as [sent|]; try (intros [?|?]; simplify_eq; auto; fail).
  destruct (pace cfg w b p) as [[[] t]| |]; try (intros [?|?]; simplify_eq; naive_solver; fail).
  cbn zeta. destruct (slice p _ _); try (intros [?|?]; simplify_eq; fail).
  destruct (e_write w _) as [[|n]|[]]; intros [?|?]; simplify_eq; naive_solver.
Qed.

Lemma quiet_spec evs :
  Forall quiet evs -> (forall bs, Wrote bs ∉ evs) /\ (forall id, Loading id ∉ evs).
Proof. intros H. split; intros x Hin; by apply (proj1 (Forall_forall _ _) H) in Hin. Qed.

(** The frame of an iteration: what each stage of it did. *)
Lemma iteration_inv cfg w b b' evs :
  iteration cfg w b = Fall b' evs \/ iteration cfg w b = Again b' evs ->
  exists b1 e1 b2 e2, check_loading cfg w b = Fall b1 e1 /\ accept_client w b1 = Fall b2 e2 /\
  (hold_pending b2 = Again b2 [] /\ b' = b2 /\ evs = e1 ++ e2 \/
   hold_pending b2 = Fall b2 [] /\
   ((exists e4, receive cfg w b2 = Again b' e4 /\ evs = e1 ++ e2 ++ e4) \/
    exists b4 e4 e5, receive cfg w b2 = Fall b4 e4 /\ evs = e1 ++ e2 ++ e4 ++ e5 /\
      (forward cfg w b4 = Fall b' e5 \/ forward cfg w b4 = Again b' e5))).
Proof.
  unfold iteration. intros H.
  assert (exists b1 e1, check_loading cfg w b = Fall b1 e1) as (b1 & e1 & E1).
  { unfold check_loading. destruct (loading_marker cfg); [|by eauto].
    destruct (read_marker _); [|by eauto]. case_bool_decide; eauto. }
  rewrite E1 in H. cbn [flow_bind] in H.
  destruct (accept_client w b1) as [b2 e2|b2 e2|r e2] eqn:E2; cbn [flow_bind] in H;
    [| |destruct H; discriminate].
  2:{ exfalso. unfold accept_client in E2. destruct (client b1); [done|].
      destruct (e_accept w) as [|?|c]; [done|done|]. destruct (accept_http c) as [? [?|?|]]; [|done|done].
      destruct (c_replay c); [done|]. by destruct (c_stream_timeout c). }
  exists b1, e1, b2, e2. split_and!; [done|done|].
  assert (hold_pending b2 = Again b2 [] \/ hold_pending b2 = Fall b2 []) as [E3|E3].
  { unfold hold_pending. destruct (pending b2), (client b2); auto. destruct (discard_until_bos b2); auto. }
  - left. rewrite E3 in H. simpl in H. rewrite app_nil_r in H. destruct H; simplify_eq. done.
  - right. split; [done|]. rewrite E3 in H. cbn [flow_bind app] in H.
    destruct (receive cfg w b2) as [b4 e4|b4 e4|r e4] eqn:E4; cbn [flow_bind] in H;
      [|left; exists e4; destruct H; simplify_eq; done|destruct H; discriminate].
    right. exists b4, e4. destruct (forward cfg w b4) as [b5 e5|b5 e5|r e5]; [..|destruct H; discriminate];
      exists e5; destruct H; simplify_eq; auto.
Qed.

(** *** What follows a loading marker *)

Lemma seen_since_bos_app evs e p : seen_since_bos evs p -> seen_since_bos (evs ++ e) p.
Proof.
  intros (u & pb & hb & v & h & -> & Hb & Hin). exists u, pb, hb, (v ++ e), h.
  split_and!; [by rewrite <- app_assoc|done|]. rewrite app_comm_cons. apply elem_of_app. by left.
Qed.

Lemma bos_seen_app evs e : bos_seen evs -> bos_seen (evs ++ e).
Proof. intros (p & h & Hin & Hb). exists p, h. split; [|done]. apply elem_of_app. by left. Qed.

(** The last event of a list that ends in a write, or an earlier one. *)
Lemma announced_writes after e :
  (forall x bs y, after = x ++ Wrote bs :: y ->
     exists p k n, bs = take n (drop k p) /\ seen_since_bos x p) ->
  (forall x bs y, e = x ++ Wrote bs :: y ->
     exists p k n, bs = take n (drop k p) /\ seen_since_bos (after ++ x) p) ->
  forall x bs y, after ++ e = x ++ Wrote bs :: y ->
     exists p k n, bs = take n (drop k p) /\ seen_since_bos x p.
Proof.
  intros Ha He x bs y E. apply app_eq_inv in E as [(k & Ek & Ek')|(k & -> & Ek')].
  - destruct k as [|ev k]; simpl in Ek'.
    + destruct (He [] bs y (eq_sym Ek')) as (p & j & n & ? & Hs). rewrite app_nil_r in Ek.
      rewrite app_nil_r, Ek in Hs. by eauto.
    + injection Ek' as <- ->. by apply (Ha x bs k).
  - by apply (He k bs y).
Qed.

Lemma quiet_writes after e x bs y : Forall quiet e -> e = x ++ Wrote bs :: y ->
  exists p k n, bs = take n (drop k p) /\ seen_since_bos (after ++ x) p.
Proof. intros H ->. apply Forall_app in H as [_ H]. by inversion H. Qed.

(** A stage that leaves the page and the discarding alone. *)
Lemma announced_frame after b b' e :
  announced after b -> pending b' = pending b -> discard_until_bos b' = discard_until_bos b ->
  headers b' = headers b -> Forall quiet e -> Forall silent e ->
  (client b' = client b \/ client b' = Some (http_ok ++ hbytes (headers b))) ->
  announced (after ++ e) b'.
Proof.
  intros (Hw & Hp & Hd) Ep Ed Eh Hq Hs Hc. split_and!.
  - apply announced_writes; [done|]. intros. by eapply quiet_writes.
  - intros p E. rewrite Ep in E. by apply seen_since_bos_app, Hp.
  - destruct Hd as [?|(Hf & Hdis & Hn & Hcl)]; [left; by apply bos_seen_app|right].
    rewrite Ep, Ed, Eh. split_and!; [by apply Forall_app|done|done|].
    destruct Hc as [->|]; auto.
Qed.

Lemma accept_client_announced w b b' e after :
  accept_client w b = Fall b' e -> announced after b -> announced (after ++ e) b'.
Proof.
  intros E Ha. destruct (accept_client_frame _ _ _ _ E) as (Hp & _ & Hd & Hq).
  revert E. unfold accept_client. destruct (client b) eqn:Hc; [intros; simplify_eq; by rewrite app_nil_r|].
  destruct (e_accept w) as [|?|c]; [intros; simplify_eq; by rewrite app_nil_r|done|].
  destruct (accept_http_result c) as [_ Hok]. destruct (accept_http c) as [sent [u|?|]]; simpl in Hok;
    [|intros; simplify_eq; by rewrite app_nil_r|done].
  rewrite (Hok u eq_refl). destruct (c_replay c); [intros; simplify_eq; by rewrite app_nil_r|].
  destruct (c_stream_timeout c); [done|]. intros [= <- <-].
  eapply announced_frame; simpl; [exact Ha|done|done|done|by repeat constructor|by repeat constructor|by right].
Qed.

Lemma receive_announced cfg w b b' e after :
  receive cfg w b = Fall b' e \/ receive cfg w b = Again b' e ->
  announced after b -> announced (after ++ e) b'.
Proof.
  intros E (Hw & Hp & Hd). pose proof (receive_quiet _ _ _ _ _ E) as Hq.
  assert (forall x bs y, after ++ e = x ++ Wrote bs :: y ->
     exists p k n, bs = take n (drop k p) /\ seen_since_bos x p) as Hw'.
  { apply announced_writes; [done|]. intros. by eapply quiet_writes. }
  revert E Hq Hw'. unfold receive, take_page.
  destruct (pending b) as [p0|] eqn:Hpend.
  { intros [?|?] _ _; simplify_eq. rewrite app_nil_r. split_and!; [done|by rewrite Hpend|].
    destruct Hd as [?|(? & ? & ? & ?)]; [by left|done]. }
  assert (b' = b -> e = [] -> announced (after ++ e) b') as Hsame.
  { intros -> ->. rewrite app_nil_r. split_and!; [done|by rewrite Hpend|]. rewrite Hpend. done. }
  destruct (e_recv w) as [p| |?| |]; try (intros [?|?]; simplify_eq; auto; fail).
  destruct (index p 5) as [flags| |] eqn:Hf; try (intros [?|?]; simplify_eq; fail).
  assert (page_is_bos p = is_bos flags) as Hbos.
  { apply bos_flag. unfold index in Hf. by destruct (p !! 5%nat); simplify_eq. }
  destruct (discard_until_bos b && negb (is_bos flags)) eqn:Hdisc; [intros [?|?]; simplify_eq; auto|].
  assert (is_bos flags = true \/ bos_seen after) as Hb.
  { destruct Hd as [?|(_ & Hdi & _)]; [by right|left]. rewrite Hdi in Hdisc. by destruct (is_bos flags). }
  clear Hsame Hd. intros E _ Hw'.
  assert (exists c h t, e = c ++ Observed p h :: t /\ forall q, pending b' = Some q -> q = p) as
    (c & h & t & -> & Hpq).
  { destruct (observe (headers b) p) as [hd| |]; try (destruct E; simplify_eq; fail).
    cbv zeta in E. match type of E with context [if ?c then marker cfg else None] =>
      destruct (if c then marker cfg else None) end;
    destruct (serial hd); try destruct (e_marker w); destruct E; simplify_eq/=;
      (eexists _, _, _; split; [reflexivity|]); intros q; rewrite ?Hpend;
      match goal with |- context [if ?c then _ else _] => destruct c; congruence end. }
  assert (seen_since_bos (after ++ c ++ Observed p h :: t) p) as Hs.
  { destruct Hb as [Hb|(pb & hb & Hin & Hb)].
    - exists (after ++ c), p, h, t, h. rewrite <- app_assoc. split_and!; [done|congruence|apply list_elem_of_here].
    - apply list_elem_of_split in Hin as (u & v & ->).
      exists u, pb, hb, (v ++ c ++ Observed p h :: t), h. rewrite <- app_assoc. split_and!; [done|done|].
      apply list_elem_of_further. rewrite !elem_of_app, elem_of_cons. auto. }
  split_and!; [done|by intros q ->%Hpq|left].
  destruct Hs as (u & pb & hb & v & _ & -> & Hbb & _). exists pb, hb. split; [|done].
  apply elem_of_app. right. apply list_elem_of_here.
Qed.

Lemma forward_announced cfg w b b' e after :
  forward cfg w b = Fall b' e \/ forward cfg w b = Again b' e ->
  announced after b -> announced (after ++ e) b'.
Proof.
  intros E (Hw & Hp & Hd). unfold forward in E.
  assert (b' = b -> e = [] -> announced (after ++ e) b') as Hsame.
  { intros -> ->. by rewrite app_nil_r. }
  destruct (pending b) as [p|] eqn:Hpend; [|destruct E; simplify_eq; auto].
  destruct (client b) as [sent|]; [|destruct E; simplify_eq; auto].
  specialize (Hp p eq_refl).
  assert (bos_seen after) as Hb by (by destruct Hd as [?|(_ & _ & ? & _)]).
  assert (forall b2 e2, Forall quiet e2 -> (forall q, pending b2 = Some q -> q = p) ->
    announced (after ++ e2) b2) as Hq.
  { intros b2 e2 Hq2 H2. split_and!; [|by intros q ->%H2; apply seen_since_bos_app|left; by apply bos_seen_app].
    apply announced_writes; [done|]. intros. by eapply quiet_writes. }
  destruct (pace cfg w b p) as [[[] t]| |]; try (destruct E; simplify_eq; fail).
  2:{ destruct E; simplify_eq. apply Hq; [constructor|]. simpl. congruence. }
  cbv zeta in E. destruct (slice p _ _) as [buf| |] eqn:Hsl; try (destruct E; simplify_eq; fail).
  assert (exists k m, buf = take m (drop k p)) as (k & m & Hbuf).
  { unfold slice in Hsl. case_decide; simplify_eq. by eauto. }
  destruct (e_write w (length buf)) as [[|n]|[]]; destruct E; simplify_eq/=; auto;
    try (apply Hq; [by repeat constructor|]; simpl; intros q; by destruct (pending_header b); congruence).
  split_and!.
  - apply announced_writes; [done|]. intros [|ev [|? ?]] bs y Ey; simplify_eq/=.
    exists p, k, (S n `min` m)%nat. rewrite app_nil_r, take_take. done.
  - intros q Eq. apply seen_since_bos_app. cbn [pending with_timeline] in Eq. case_match; simplify_eq. done.
  - left. by apply bos_seen_app.
Qed.

(** Every marker announced in the run has its guarantee in the state reached. *)
Definition all_announced (evs : list event) (b : bridge) : Prop :=
  forall before id after, evs = before ++ Loading id :: after -> announced after b.

Lemma all_announced_app evs e b b' :
  (forall id, Loading id ∉ e) -> (forall after, announced after b -> announced (after ++ e) b') ->
  all_announced evs b -> all_announced (evs ++ e) b'.
Proof.
  intros Hn He Ha before id after E. apply app_eq_inv in E as [(k & -> & Ek)|(k & -> & ->)].
  - destruct k as [|ev k]; simpl in Ek; [|injection Ek as <- ->; by apply He, (Ha before id)].
    exfalso. apply (Hn id). rewrite <- Ek. apply list_elem_of_here.
  - exfalso. apply (Hn id). rewrite elem_of_app. right. apply list_elem_of_here.
Qed.

Lemma check_loading_announced cfg w b b' e evs :
  check_loading cfg w b = Fall b' e -> all_announced evs b -> all_announced (evs ++ e) b'.
Proof.
  unfold check_loading, close_client. destruct (loading_marker cfg); [|intros; simplify_eq; by rewrite app_nil_r].
  destruct (read_marker _) as [id|]; [|intros; simplify_eq; by rewrite app_nil_r].
  case_bool_decide; [intros; simplify_eq; by rewrite app_nil_r|]. intros [= <- <-] Ha.
  set (c := match client b with Some _ => [ClientClosed] | None => [] end).
  assert (Forall quiet c /\ Forall silent c) as [Hq Hs] by (unfold c; destruct (client b); by repeat constructor).
  set (b1 := mkBridge (headers b) None None (pending_header b) 0 (forwarded b) None (generation b) (Some id) true).
  rewrite (app_assoc evs [Loading id] c : evs ++ Loading id :: c = (evs ++ [Loading id]) ++ c).
  apply (all_announced_app _ _ b1); [by apply quiet_spec| |].
  - intros after Hb1. eapply announced_frame; [exact Hb1|..]; auto.
  - intros before id' after E. apply app_eq_inv in E as [(k & -> & Ek)|(k & -> & Ek)].
    + assert (forall l, announced l b -> announced (l ++ [Loading id]) b1) as Hl.
      { intros l (Hw & _ & Hd). split_and!; [|done|].
        - apply announced_writes; [done|]. by intros [|? [|]] ? ? ?.
        - destruct Hd as [?|(? & _)]; [left; by apply bos_seen_app|right].
          split_and!; [apply Forall_app; split; [done|by repeat constructor]|done|done|by left]. }
      destruct k as [|ev k]; simplify_eq/=; [|by apply Hl, (Ha before id')].
      split_and!; [by intros []|done|right]. split_and!; [constructor|done|done|by left].
    + destruct k as [|? [|]]; simplify_eq/=.
      split_and!; [by intros []|done|right]. split_and!; [constructor|done|done|by left].
Qed.

Lemma iteration_announced cfg w b b' e evs :
  iteration cfg w b = Fall b' e \/ iteration cfg w b = Again b' e ->
  all_announced evs b -> all_announced (evs ++ e) b'.
Proof.
  intros Hi Ha. destruct (iteration_inv _ _ _ _ _ Hi) as (b1 & e1 & b2 & e2 & E1 & E2 & Hcases).
  pose proof (check_loading_announced _ _ _ _ _ _ E1 Ha) as H1.
  destruct (accept_client_frame _ _ _ _ E2) as (_ & _ & _ & Hq2).
  assert (all_announced ((evs ++ e1) ++ e2) b2) as H2.
  { eapply all_announced_app; [by apply quiet_spec| |exact H1]. intros after Hb. by apply (accept_client_announced w b1). }
  assert (forall b4 e4, receive cfg w b2 = Fall b4 e4 \/ receive cfg w b2 = Again b4 e4 ->
    all_announced (((evs ++ e1) ++ e2) ++ e4) b4) as H4.
  { intros b4 e4 E4. eapply all_announced_app; [by eapply quiet_spec, receive_quiet| |exact H2].
    intros after. by eapply receive_announced. }
  destruct Hcases as [(_ & -> & ->)|(_ & [(e4 & E4 & ->)|(b4 & e4 & e5 & E4 & -> & E5)])];
    rewrite !app_assoc; [done|auto|].
  eapply all_announced_app; [by eapply forward_events| |apply H4; by left].
  intros after. by eapply forward_announced.
Qed.

Lemma execution_announced cfg b evs b' : execution cfg b evs b' -> all_announced evs b'.
Proof.
  induction 1 as [b|b evs b1 w evs' b' _ IH Hi]; [by intros [] ? ?|]. by eapply iteration_announced.
Qed.

(** ** Properties *)

(** C1: what a client receives.  In every reachable state, the bytes written to the connected
    client, completed by the unwritten part of the pending page, are the HTTP response, the
    cached Vorbis header pages of the current logical stream, and then a gapless run of the
    audio pages received since: the client always joins at a page boundary, sees each page
    once, and never sees audio without its headers. *)
Theorem bridge_client_stream (cfg : Args) (b : bridge) (g : list (list Z) * list (list Z))
    (sent : list Z) (Hr : reachable cfg b g) (Hc : client b = Some sent) :
  exists skip, (skip <= length g.2)%nat /\
    sent ++ in_flight b = http_ok ++ concat g.1 ++ concat (drop skip g.2).
Proof.
  apply reachable_ok in Hr as (_ & _ & _ & _ & _ & H). unfold client_ok in H. by rewrite Hc in H.
Qed.

(** C2: no reachable state panics, whatever the environment does: no index is out of range and
    the pacing division never divides by a zero sample rate. *)
Theorem bridge_never_panics (cfg : Args) (b : bridge) (g : list (list Z) * list (list Z)) (w : env)
    (Hr : reachable cfg b g) (Hw : env_ok w) (evs : list event) :
  iteration cfg w b <> Stop Panic evs.
Proof.
  pose proof (iteration_ok cfg w b g Hw (reachable_ok _ _ _ Hr)) as H. intros E. rewrite E in H. done.
Qed.

(** An audio page is never lost: unless a loading marker discards the previous track, a
    pending audio page stays pending across an iteration (even when its client disconnects)
    until some client has received all of it. *)
Theorem bridge_audio_page_retained (cfg : Args) (b b' : bridge) (g : list (list Z) * list (list Z))
    (w : env) (evs : list event) (p : list Z)
    (Hr : reachable cfg b g) (Hw : env_ok w)
    (Hp : pending b = Some p) (Hh : pending_header b = false)
    (Hi : iteration cfg w b = Fall b' evs \/ iteration cfg w b = Again b' evs)
    (Hl : forall id, Loading id ∉ evs) :
  pending b' = Some p \/ exists sent, client b' = Some sent /\ p `suffix_of` sent.
Proof.
  apply reachable_ok in Hr.
  destruct (iteration_inv _ _ _ _ _ Hi) as (b1 & e1 & b2 & e2 & E1 & E2 & Hcases).
  assert (b1 = b /\ e1 = []) as [-> ->].
  { destruct (check_loading_frame _ _ _ _ _ E1) as [_ [((id & Hid) & _)|?]]; [exfalso|done].
    apply (Hl id). destruct Hcases as [(_ & _ & ->)|(_ & [(? & _ & ->)|(? & ? & ? & _ & -> & _)])];
      rewrite !elem_of_app; by left. }
  pose proof (accept_client_ok w b g Hr) as H2. rewrite E2 in H2. simpl in H2.
  destruct (accept_client_frame _ _ _ _ E2) as (Hp2 & Hh2 & _). rewrite Hp in Hp2. rewrite Hh in Hh2.
  destruct Hcases as [(_ & -> & _)|(_ & [(e4 & E4 & _)|(b4 & e4 & e5 & E4 & _ & E5)])]; [by left|..];
    unfold receive in E4; rewrite Hp2 in E4; simplify_eq.
  destruct H2 as (_ & _ & _ & _ & Hpo & _). unfold pending_ok in Hpo. rewrite Hp2, Hh2 in Hpo.
  destruct Hpo as (_ & Hoff & _ & Hsuf & _).
  unfold forward in E5. rewrite Hp2 in E5. destruct (client b4) as [sent|] eqn:Hc; [|destruct E5; simplify_eq; by left].
  specialize (Hsuf sent eq_refl).
  destruct (pace cfg w b4 p) as [[[] t]| |]; [| |destruct E5; simplify_eq..]; [|destruct E5; simplify_eq; by left].
  simpl in E5. rewrite slice_ok, (take_ge (drop _ p)) in E5 by (rewrite ?length_drop; lia).
  destruct Hw as [_ Hw]. specialize (Hw (length (drop (offset b4) p))).
  destruct (e_write w _) as [[|n]|e]; [destruct E5; simplify_eq/=; rewrite Hh2; by left| |].
  - specialize (Hw _ eq_refl). destruct E5; simplify_eq/=. destruct (_ =? _)%nat eqn:Hd; [|by left].
    apply Nat.eqb_eq in Hd. right. eexists. split; [done|]. destruct Hsuf as [k ->]. exists k.
    rewrite (take_ge (drop _ p)) by (rewrite length_drop; lia). by rewrite <- app_assoc, take_drop.
  - destruct e; destruct E5; simplify_eq/=; rewrite ?Hh2, ?Hp2; by left.
Qed.

(** C3: once the loading marker announces a track, nothing of the previous one is sent.  In
    any run of the bridge, until a beginning-of-stream page has been observed after the
    announcement, the bridge neither observes nor writes anything: it keeps discarding, holds
    no page, and a client that connects meanwhile has been given the HTTP response and the
    cached headers only.  And whatever is written after the announcement, at any later time, is
    part of a page observed at or after such a beginning-of-stream page. *)
Theorem bridge_discards_previous_track (cfg : Args) (b b' : bridge) (evs before after : list event)
    (id : string) (Hx : execution cfg b evs b') (He : evs = before ++ Loading id :: after) :
  (~ bos_seen after ->
     Forall silent after /\ discard_until_bos b' = true /\ pending b' = None /\
     (client b' = None \/ client b' = Some (http_ok ++ hbytes (headers b')))) /\
  (forall x bs y, after = x ++ Wrote bs :: y ->
     exists p k n, bs = take n (drop k p) /\ seen_since_bos x p).
Proof.
  destruct (execution_announced _ _ _ _ Hx _ _ _ He) as (Hfresh & _ & Hd).
  split; [|exact Hfresh]. intros Hb. destruct Hd as [?|?]; done.
Qed.

(** C4: pacing: the first bytes of an audio page with granule position [gp] are written only
    after the stream time of [gp], measured from the epoch and less the three seconds of
    startup lead, has passed. *)
Theorem bridge_pacing (cfg : Args) (w : env) (b b' : bridge) (evs : list event) (p bs : list Z)
    (epoch base : Z)
    (Hp : pending b = Some p) (Hpaced : paced cfg = true) (Hh : pending_header b = false)
    (Ho : offset b = 0%nat) (Ht : timeline b = Some (epoch, base))
    (Hf : forward cfg w b = Fall b' evs) (Hin : Wrote bs ∈ evs) :
  let gp := le_combine (take 8 (drop 6 p)) in
  gp <> u64_max -> 0 <= gp - base -> (gp - base) * 1000 <= u64_max ->
  ((gp - base) * 1000 / rate (headers b) - STARTUP_LEAD_MS) * 1000000 < e_elapsed_at w - epoch.
Proof.
  intros gp Hmax Hge Hsat.
  destruct (forward_wrote cfg w b b' evs bs (or_introl Hf) Hin) as (p' & sent & t & Hp' & _ & Hpace).
  rewrite Hp in Hp'. simplify_eq. unfold pace in Hpace. rewrite Hpaced, Hh, Ho, Ht in Hpace. simpl in Hpace.
  destruct (slice p' 6 14) as [l| |] eqn:Hs; simpl in Hpace; [|done|done].
  unfold slice in Hs. case_decide; [|done]. injection Hs as <-. fold gp in Hpace.
  destruct (gp =? u64_max) eqn:E; [apply Z.eqb_eq in E; done|].
  destruct (rate (headers b) =? 0); [done|]. injection Hpace as Hdue _.
  apply negb_true_iff, Z.leb_gt in Hdue. unfold due_ns, u64_saturating_sub, u64_saturating_mul in Hdue.
  fold u64_max in Hdue. rewrite (Z.max_r 0 (gp - base)), Z.min_r in Hdue by lia. lia.
Qed.

(** A client is accepted only after a complete request for the stream of fewer than 4096
    bytes, and is then answered with the 200 response and nothing else. *)
Theorem bridge_http_accept (c : conn) (sent : list Z) (H : accept_http c = (sent, Ok tt)) :
  sent = http_ok /\ exists request rest,
    rd_data (c_request c) = request ++ rest /\ (length request < REQUEST_MAX)%nat /\
    request_supported request = true /\
    (ends_with request [13; 10; 13; 10] || ends_with request [10; 10]) = true.
Proof.
  unfold accept_http in H.
  pose proof (fun req => read_request_spec REQUEST_MAX (c_request c) [] req) as Hspec.
  revert Hspec H. generalize (read_request REQUEST_MAX (c_request c) []). intros r Hspec H.
  destruct (c_setsockopt c); [done|]. destruct (c_read_timeout c); [done|].
  destruct (c_write_timeout c); [done|]. simpl in H.
  destruct r as [req|e|]; [|done|done]. destruct (c_response c); [done|].
  destruct (request_supported req) eqn:Hs; [|done]. injection H as <-. split; [done|].
  destruct (Hspec req eq_refl) as (l & rest & -> & Hd & Hl & Hend). simpl in *.
  exists l, rest. split_and!; try done.
  - unfold request_supported in Hs. bool_to_prop. apply Nat.eqb_neq in H. lia.
  - destruct Hend as [Hend|?]; [exfalso|done]. unfold request_supported in Hs. bool_to_prop.
    apply Nat.eqb_neq in H. lia.
Qed.

(** ** Witnesses *)

Lemma ex_env_ok a p : valid_page p -> env_ok (ex_env a (RecvPage p)).
Proof. intros H. split; simpl; intros; simplify_eq; done || lia. Qed.

Lemma ex_run_ok : Forall env_ok ex_run.
Proof.
  pose proof ex_pages_valid as H. rewrite !Forall_cons in H. destruct H as (? & ? & ? & _).
  unfold ex_run. rewrite !Forall_cons. split_and!; (by apply ex_env_ok) || apply Forall_nil_2.
Qed.

Lemma ex_run_reachable n b g :
  run ex_args (take n ex_run) bridge_init ([], []) = Some (b, g) -> reachable ex_args b g.
Proof.
  intros H. eapply run_reachable; [|apply reach_init|exact H]. apply Forall_take, ex_run_ok.
Qed.

Lemma bridge_client_stream_witness :
  exists b g sent, run ex_args ex_run bridge_init ([], []) = Some (b, g) /\ client b = Some sent /\
  exists skip, (skip <= length g.2)%nat /\
    sent ++ in_flight b = http_ok ++ concat g.1 ++ concat (drop skip g.2).
Proof.
  eexists _, _, _. split; [vm_compute; reflexivity|]. split; [reflexivity|].
  eapply (bridge_client_stream ex_args); [|reflexivity].
  apply (ex_run_reachable 3). vm_compute. reflexivity.
Defined.

Lemma bridge_never_panics_witness :
  exists b g, run ex_args (take 2 ex_run) bridge_init ([], []) = Some (b, g) /\
  iteration ex_args (ex_env (Accepted ex_conn) (RecvPage ex_audio_page)) b <> Stop Panic [].
Proof.
  eexists _, _. split; [vm_compute; reflexivity|].
  eapply (bridge_never_panics ex_args).
  - apply (ex_run_reachable 2). vm_compute. reflexivity.
  - pose proof ex_run_ok as H. unfold ex_run in H. rewrite !Forall_cons in H. apply H.
Defined.

Lemma play_execution cfg ws b0 evs b evs' b' :
  execution cfg b0 evs b -> play cfg ws b evs = Some (b', evs') -> execution cfg b0 evs' b'.
Proof.
  revert b evs; induction ws as [|w ws IH]; intros b evs Hx H; simpl in H; [by simplify_eq|].
  destruct (iteration cfg w b) as [b1 e|b1 e|] eqn:Hi; [| |done];
    (eapply IH; [|exact H]); eapply exec_step; eauto.
Qed.

Lemma ex_run_late_ok : Forall env_ok ex_run_late.
Proof.
  pose proof ex_pages_valid as H. rewrite !Forall_cons in H. destruct H as (? & ? & ? & _).
  unfold ex_run_late. rewrite !Forall_cons. split_and!; (by apply ex_env_ok) || apply Forall_nil_2.
Qed.

Lemma bridge_audio_page_retained_witness :
  exists b g, run ex_args ex_run_late bridge_init ([], []) = Some (b, g) /\
  exists b' evs, iteration ex_args (ex_env (Accepted ex_conn) RecvTimeout) b = Fall b' evs /\
  (pending b' = Some ex_audio_page \/
   exists sent, client b' = Some sent /\ ex_audio_page `suffix_of` sent).
Proof.
  eexists _, _. split; [vm_compute; reflexivity|]. eexists _, _. split; [vm_compute; reflexivity|].
  eapply (bridge_audio_page_retained ex_args _ _ _ (ex_env (Accepted ex_conn) RecvTimeout)).
  - eapply (run_reachable ex_args ex_run_late); [apply ex_run_late_ok|apply reach_init|vm_compute; reflexivity].
  - split; simpl; intros; simplify_eq; lia.
  - reflexivity.
  - reflexivity.
  - left. vm_compute. reflexivity.
  - intros id. rewrite !not_elem_of_cons. split_and!; try done. apply not_elem_of_nil.
Defined.

(** A page of the previous track and a client arrive after the marker; then the new track starts. *)
Lemma bridge_discards_previous_track_witness :
  (exists b id evs, play ex_args_loading (take 2 ex_run_loading) bridge_init [] = Some (b, Loading id :: evs) /\
     evs = [ClientOpened] /\ discard_until_bos b = true /\ pending b = None) /\
  (exists b id x, play ex_args_loading ex_run_loading bridge_init [] =
     Some (b, Loading id :: x ++ [Wrote ex_setup_page]) /\
     exists p k n, ex_setup_page = take n (drop k p) /\ seen_since_bos x p).
Proof.
  split.
  - assert (exists b id, play ex_args_loading (take 2 ex_run_loading) bridge_init [] =
      Some (b, [Loading id; ClientOpened])) as (b & id & H) by (eexists _, _; vm_compute; reflexivity).
    exists b, id, [ClientOpened]. split; [exact H|]. split; [reflexivity|].
    destruct (bridge_discards_previous_track ex_args_loading bridge_init b _ [] [ClientOpened] id
      (play_execution _ _ _ _ _ _ _ (exec_nil _ _) H) eq_refl) as [Hs _].
    destruct Hs as (_ & Hd & Hp & _); [|split; assumption].
    intros (p & h & Hin & _). by apply list_elem_of_singleton in Hin.
  - assert (exists b id x, play ex_args_loading ex_run_loading bridge_init [] =
      Some (b, Loading id :: x ++ [Wrote ex_setup_page])) as (b & id & x & H).
    { eexists _, _, [_; _; _; _; _]. vm_compute. reflexivity. }
    exists b, id, x. split; [exact H|].
    eapply (bridge_discards_previous_track ex_args_loading bridge_init b _ []).
    + eapply (play_execution _ ex_run_loading); [apply exec_nil|exact H].
    + reflexivity.
    + reflexivity.
Defined.

Lemma bridge_pacing_witness :
  let w := mkEnv None NoConnection RecvTimeout 0 5000000000 (fun len => WriteOk len) None in
  exists b' evs, forward ex_args_loading w ex_paced_state = Fall b' evs /\
  ((45056 - 0) * 1000 / 44100 - STARTUP_LEAD_MS) * 1000000 < 5000000000 - 0.
Proof.
  eexists _, _. split; [vm_compute; reflexivity|].
  eapply (bridge_pacing ex_args_loading
           (mkEnv None NoConnection RecvTimeout 0 5000000000 (fun len => WriteOk len) None)
           ex_paced_state _ _ ex_audio_page ex_audio_page 0 0);
    [reflexivity|reflexivity|reflexivity|reflexivity|reflexivity|vm_compute; reflexivity
    |apply list_elem_of_here|by vm_compute|by vm_compute|by vm_compute].
Defined.

Lemma bridge_http_accept_witness :
  exists sent, accept_http ex_conn = (sent, Ok tt) /\ sent = http_ok.
Proof.
  eexists. split; [vm_compute; reflexivity|].
  apply (bridge_http_accept ex_conn). vm_compute. reflexivity.
Defined.
