(* ===== verification/Helpers.v ===== *)
(** * The helper processes ([native/metadata/main.rs], [native/supervisor/main.rs])

    [Metadata] is the player-event hook: it turns librespot's environment variables into the
    state, volume, loading and metadata files the applet and the bridge read.  [Supervisor]
    runs librespot and keeps the status file.  A file system is a map from paths to contents;
    [fs_fail] says which operations fail. *)
From S2P Require Import Prelude Text OggPage Bridge.

(** ** Files *)

Inductive fs_op := FsWrite (path : string) | FsRename (src dst : string).

Abbreviation files := (gmap string string).

Section Fs.
Variable fs_fail : fs_op -> option io_error.

(** [fs::write], also used for create-truncate-write. *)
Definition fs_write (m : files) (path content : string) : res io_error files :=
  match fs_fail (FsWrite path) with Some e => Err e | None => Ok (<[path := content]> m) end.

Definition fs_rename (m : files) (src dst : string) : res io_error files :=
  match fs_fail (FsRename src dst) with
  | Some e => Err e
  | None => match m !! src with
            | Some c => Ok (<[dst := c]> (delete src m))
            | None => Err (OsError 2)
            end
  end.
End Fs.

Definition backslash : ascii := "092"%char.
Definition dquote : ascii := "034"%char.
Definition newline : ascii := "010"%char.
Definition cr : ascii := "013"%char.
Definition str1 (c : ascii) : string := String c EmptyString.

Module Metadata.

(** The four replacements of [esc], in the source's order. *)
Definition esc (value : string) : string :=
  replace_char cr (String backslash "r")
    (replace_char newline (String backslash "n")
       (replace_char dquote (String backslash (str1 dquote))
          (replace_char backslash (String backslash (str1 backslash)) value))).

(** ["key":"value"] with the value escaped. *)
Definition json_field (key value : string) : string :=
  str1 dquote +:+ key +:+ str1 dquote +:+ ":" +:+ str1 dquote +:+ value +:+ str1 dquote.

Definition metadata_json (state track_id title artist album duration artwork : string) : string :=
  "{" +:+ json_field "playback_state" state +:+ "," +:+ json_field "track_id" (esc track_id)
  +:+ "," +:+ json_field "title" (esc title) +:+ "," +:+ json_field "artist" (esc artist)
  +:+ "," +:+ json_field "album" (esc album) +:+ "," +:+ json_field "duration_ms" (esc duration)
  +:+ "," +:+ json_field "artwork_url" (esc artwork) +:+ "}" +:+ str1 newline.

(** [covers.lines().next().unwrap_or("")]: the text before the first line feed, without a
    carriage return before it. *)
Fixpoint until_newline (s : string) : string * bool :=
  match s with
  | EmptyString => (EmptyString, false)
  | String c s' =>
      if Ascii.eqb c newline then (EmptyString, true)
      else let '(l, b) := until_newline s' in (String c l, b)
  end.

Fixpoint strip_cr (s : string) : string :=
  match s with
  | EmptyString => EmptyString
  | String c EmptyString => if Ascii.eqb c cr then EmptyString else s
  | String c s' => String c (strip_cr s')
  end.

Definition first_line_of (s : string) : string :=
  let '(l, terminated) := until_newline s in if terminated then strip_cr l else l.

(** The playback state of an event, [None] for an event the helper ignores. *)
Definition state_of_event (event : string) : option string :=
  if bool_decide (event = "paused") then Some "paused"
  else if bool_decide (event ∈ ["stopped"; "end_of_track"; "unavailable"]) then Some "stopped"
  else if bool_decide (event ∈ ["playing"; "track_changed"; "loading"]) then Some "playing"
  else None.

Section Main.
Variable fs_fail : fs_op -> option io_error.
(** [env::var(..).unwrap_or_default()] *)
Variable var : string -> string.

Definition main (args : list string) (m : files) : res io_error files :=
  path ← ok_or (Other "metadata path required") (args !! 1%nat);
  let event := var "PLAYER_EVENT" in
  if bool_decide (event = "volume_changed") then
    fs_write fs_fail m (path +:+ ".volume") (var "VOLUME")
  else
    m ← (if bool_decide (event = "loading") then
           let loading_path := path +:+ ".loading" in
           let tmp := loading_path +:+ ".tmp" in
           m ← fs_write fs_fail m tmp (var "TRACK_ID");
           fs_rename fs_fail m tmp loading_path
         else Ok m);
    match state_of_event event with
    | None => Ok m
    | Some state =>
        if negb (bool_decide (event = "track_changed")) then
          fs_write fs_fail m (path +:+ ".state") state
        else
          let json := metadata_json state (var "TRACK_ID") (var "NAME")
                        (replace_char newline ", " (var "ARTISTS")) (var "ALBUM")
                        (var "DURATION_MS") (first_line_of (var "COVERS")) in
          let tmp := path +:+ ".tmp" in
          m ← fs_write fs_fail m tmp json;
          fs_rename fs_fail m tmp path
    end.
End Main.

(** A reader of the body of a JSON string, for the escapes [esc] produces: the value and the
    text after the closing quote. *)
Fixpoint read_json_string (s : string) : option (string * string) :=
  match s with
  | EmptyString => None
  | String c s' =>
      if Ascii.eqb c dquote then Some (EmptyString, s')
      else if Ascii.eqb c backslash then
        match s' with
        | String e s'' =>
            let decoded := if Ascii.eqb e "n"%char then newline
                           else if Ascii.eqb e "r"%char then cr else e in
            '(v, rest) ← read_json_string s''; Some (String decoded v, rest)
        | EmptyString => None
        end
      else '(v, rest) ← read_json_string s'; Some (String c v, rest)
  end.

(** A reader of an object of at most [n] fields whose values are strings. *)
Definition expect (c : ascii) (s : string) : option string :=
  match s with String a s' => if Ascii.eqb a c then Some s' else None | EmptyString => None end.

Definition read_field (s : string) : option (string * string * string) :=
  s ← expect dquote s; '(key, s) ← read_json_string s;
  s ← expect ":"%char s; s ← expect dquote s; '(value, s) ← read_json_string s;
  Some (key, value, s).

Fixpoint read_fields (fuel : nat) (s : string) : option (list (string * string) * string) :=
  match fuel with
  | O => None
  | S fuel =>
      '(key, value, s) ← read_field s;
      match expect ","%char s with
      | Some s' => '(l, s'') ← read_fields fuel s'; Some ((key, value) :: l, s'')
      | None => s' ← expect "}"%char s; Some ([(key, value)], s')
      end
  end.

Definition read_object (n : nat) (s : string) : option (list (string * string) * string) :=
  s ← expect "{"%char s; read_fields n s.

(** [esc] in one pass. *)
Definition esc_char (c : ascii) : string :=
  if Ascii.eqb c backslash then String backslash (str1 backslash)
  else if Ascii.eqb c dquote then String backslash (str1 dquote)
  else if Ascii.eqb c newline then String backslash "n"
  else if Ascii.eqb c cr then String backslash "r"
  else str1 c.

Fixpoint esc1 (s : string) : string :=
  match s with EmptyString => EmptyString | String c s' => esc_char c +:+ esc1 s' end.

End Metadata.

Module Supervisor.

(** [write_status]: the text of the status file. *)
Definition status_json (state : string) (extra : option (string * string)) : string :=
  let json := "{" +:+ str1 dquote +:+ "state" +:+ str1 dquote +:+ ":" +:+ str1 dquote +:+ state +:+ str1 dquote in
  let json :=
    match extra with
    | Some (key, value) =>
        let escaped := replace_char dquote (String backslash (str1 dquote))
                         (replace_char backslash (String backslash (str1 backslash)) value) in
        json +:+ "," +:+ str1 dquote +:+ key +:+ str1 dquote +:+ ":" +:+ str1 dquote +:+ escaped +:+ str1 dquote
    | None => json
    end in
  json +:+ "}" +:+ str1 newline.

(** The command line: [--status PATH -- COMMAND..]. *)
Definition parse_args (args : list string) : res string (string * list string) :=
  match args with
  | flag :: rest =>
      if bool_decide (flag = "--status") then
        match rest with
        | status :: rest' =>
            match rest' with
            | sep :: cmd =>
                if bool_decide (sep = "--") then
                  match cmd with
                  | [] => Err "librespot command required"
                  | _ => Ok (status, cmd)
                  end
                else Err "-- separates supervisor and librespot arguments"
            | [] => Err "-- separates supervisor and librespot arguments"
            end
        | [] => Err "--status PATH required"
        end
      else Err "--status PATH required"
  | [] => Err "--status PATH required"
  end.

Definition drop_str (n : nat) (s : string) : string := String.substring n (String.length s - n) s.

(** What one line of librespot's output does to the status. *)
Definition line_status (line : string) : option (string * option (string * string)) :=
  match find_from line "Browse to: " with
  | Some tail => Some ("pairing", Some ("url", trim (drop_str 11 tail)))
  | None => if str_contains line "Authenticated as" then Some ("connected", None) else None
  end.

(** The two reader threads write the status in the order [lines] in which they handle their
    lines; [main] writes the first status, and the last one when librespot failed.
    [exit_status] is [None] for success and the printed status otherwise. *)
Definition statuses (lines : list string) (exit_status : option string)
  : list (string * option (string * string)) :=
  ("starting", None) :: omap line_status lines
  ++ match exit_status with
     | None => []
     | Some st => [("error", Some ("message", "librespot exited: " +:+ st))]
     end.

(** The status file after the run: every write truncates it. *)
Definition status_file (lines : list string) (exit_status : option string) : string :=
  match last (statuses lines exit_status) with
  | Some (state, extra) => status_json state extra
  | None => EmptyString
  end.

End Supervisor.

(** A [loading] event and a file system without failures, for the witnesses. *)
Definition ex_var (k : string) : string :=
  if bool_decide (k = "PLAYER_EVENT") then "loading"
  else if bool_decide (k = "TRACK_ID") then "6rqhFgbbKwnb9MLmUQDhG6" else "".
Definition no_fail (o : fs_op) : option io_error := None.

(** ** Lemmas *)

Section MetadataFacts.
Import Metadata.

Lemma replace_char_append c r a b :
  replace_char c r (a +:+ b) = replace_char c r a +:+ replace_char c r b.
Proof.
  induction a as [|x a IH]; simpl; [done|]. destruct (Ascii.eqb x c); simpl; rewrite IH; [|done].
  by rewrite append_assoc.
Qed.

Lemma esc_esc1 s : esc s = esc1 s.
Proof.
  induction s as [|c s IH]; [done|]. cbn [esc1]. rewrite <- IH. unfold esc.
  change (String c s) with (str1 c +:+ s). rewrite !replace_char_append. f_equal.
  unfold esc_char. cbn [replace_char str1].
  destruct (Ascii.eqb_spec c backslash) as [->|]; [done|]. cbn [replace_char].
  destruct (Ascii.eqb_spec c dquote) as [->|]; [done|]. cbn [replace_char].
  destruct (Ascii.eqb_spec c newline) as [->|]; [done|]. cbn [replace_char].
  destruct (Ascii.eqb_spec c cr) as [->|]; done.
Qed.

Lemma read_esc1 v rest : read_json_string (esc1 v +:+ String dquote rest) = Some (v, rest).
Proof.
  induction v as [|c v IH]; [done|]. cbn [esc1]. rewrite <- append_assoc. unfold esc_char.
  destruct (Ascii.eqb_spec c backslash) as [->|Hb]; [cbn; by rewrite IH|].
  destruct (Ascii.eqb_spec c dquote) as [->|Hq]; [cbn; by rewrite IH|].
  destruct (Ascii.eqb_spec c newline) as [->|Hn]; [cbn; by rewrite IH|].
  destruct (Ascii.eqb_spec c cr) as [->|Hr]; [cbn; by rewrite IH|].
  cbn [str1 String.append read_json_string].
  apply Ascii.eqb_neq in Hq, Hb. rewrite Hq, Hb, IH. done.
Qed.

Lemma esc1_id v : v = esc1 v -> forall rest, read_json_string (v +:+ String dquote rest) = Some (v, rest).
Proof. intros H rest. rewrite H at 1. apply read_esc1. Qed.

Lemma read_field_json key value rest :
  key = esc1 key -> read_field (json_field key (esc value) +:+ rest) = Some (key, value, rest).
Proof.
  intros Hk. unfold json_field, str1. rewrite <- !append_assoc. unfold read_field. simpl.
  rewrite esc1_id by done. simpl. rewrite esc_esc1, read_esc1. done.
Qed.

Lemma expect_open s : expect "{"%char ("{" +:+ s) = Some s.
Proof. done. Qed.

Lemma read_fields_cons fuel key value s :
  key = esc1 key ->
  read_fields (S fuel) (json_field key (esc value) +:+ "," +:+ s)
  = '(l, s') ← read_fields fuel s; Some ((key, value) :: l, s').
Proof. intros Hk. cbn [read_fields]. rewrite read_field_json by done. done. Qed.

Lemma read_fields_last fuel key value s :
  key = esc1 key ->
  read_fields (S fuel) (json_field key (esc value) +:+ "}" +:+ s) = Some ([(key, value)], s).
Proof. intros Hk. cbn [read_fields]. rewrite read_field_json by done. done. Qed.

Lemma rename_written fs_fail m m1 m2 tmp dst c :
  fs_write fs_fail m tmp c = Ok m1 -> fs_rename fs_fail m1 tmp dst = Ok m2 ->
  m2 = <[dst := c]> (delete tmp m).
Proof.
  unfold fs_write, fs_rename. destruct (fs_fail _); [done|]. intros [= <-].
  destruct (fs_fail _); [done|]. rewrite lookup_insert_eq. intros [= <-]. by rewrite delete_insert_eq.
Qed.
End MetadataFacts.

(** ** Properties *)

(** The metadata document is readable: parsing it gives back every field exactly, whatever
    quotes, backslashes and line breaks the title, artist or album contain. *)
Theorem metadata_json_roundtrip (track_id title artist album duration artwork : string) :
  Metadata.read_object 7 (Metadata.metadata_json "playing" track_id title artist album duration artwork)
  = Some ([("playback_state", "playing"); ("track_id", track_id); ("title", title); ("artist", artist);
           ("album", album); ("duration_ms", duration); ("artwork_url", artwork)], str1 newline).
Proof.
  unfold Metadata.read_object, Metadata.metadata_json. rewrite expect_open. cbn [mbind option_bind].
  change (Metadata.json_field "playback_state" "playing") with (Metadata.json_field "playback_state" (Metadata.esc "playing")).
  do 6 (rewrite read_fields_cons by done). rewrite read_fields_last by done. done.
Qed.

(** A [track_changed] event that succeeds replaces the metadata file in one rename, leaves no
    temporary file and touches no other file; every other event leaves the metadata file as it
    was. *)
Theorem metadata_main_effect (fs_fail : fs_op -> option io_error) (var : string -> string)
    (exe path : string) (m m' : files) (H : Metadata.main fs_fail var [exe; path] m = Ok m') :
  if bool_decide (var "PLAYER_EVENT" = "track_changed")
  then m' = <[path := Metadata.metadata_json "playing" (var "TRACK_ID") (var "NAME")
                        (replace_char newline ", " (var "ARTISTS")) (var "ALBUM")
                        (var "DURATION_MS") (Metadata.first_line_of (var "COVERS"))]>
              (delete (path +:+ ".tmp") m)
  else m' !! path = m !! path.
Proof.
  unfold Metadata.main in H. simpl in H.
  assert (forall suf, suf <> EmptyString -> path +:+ suf <> path) as Hne.
  { intros suf Hs E. apply Hs. revert E. clear. induction path as [|c p IH]; simpl; [done|]. intros [= E]. auto. }
  assert (forall m1 m2 suf c, suf <> EmptyString -> fs_write fs_fail m1 (path +:+ suf) c = Ok m2 ->
          m2 !! path = m1 !! path) as Hw.
  { intros m1 m2 suf c Hs. unfold fs_write. destruct (fs_fail _); [done|]. intros [= <-].
    rewrite lookup_insert_ne; [done|by apply Hne]. }
  destruct (bool_decide (var "PLAYER_EVENT" = "volume_changed")) eqn:Ev.
  { apply bool_decide_eq_true in Ev. rewrite Ev. simpl. by eapply (Hw _ _ ".volume"). }
  destruct (bool_decide (var "PLAYER_EVENT" = "track_changed")) eqn:Et.
  - apply bool_decide_eq_true in Et. rewrite Et in H. simpl in H.
    destruct (fs_write _ _ _ _) as [m1| |] eqn:E1; simpl in H; [|done|done].
    by eapply rename_written.
  - match type of H with mbind _ ?x = _ => destruct x as [m1| |] eqn:E1 end; simpl in H; [|done|done].
    assert (m1 !! path = m !! path) as <-.
    { destruct (bool_decide (var "PLAYER_EVENT" = "loading")); [|congruence].
      destruct (fs_write _ _ _ _) as [m2| |] eqn:E2; simpl in E1; [|done|done].
      rewrite (rename_written _ _ _ _ _ _ _ E2 E1), lookup_insert_ne by (by apply Hne).
      rewrite lookup_delete_ne; [done|]. rewrite <- append_assoc. by apply Hne. }
    destruct (Metadata.state_of_event _); [|congruence].
    simpl in H. by eapply (Hw _ _ ".state").
Qed.

(** The hook and the bridge agree: after a [loading] event for a track has been handled, the
    bridge's next look at the loading file drops the previous track and starts discarding. *)
Theorem loading_reaches_bridge (fs_fail : fs_op -> option io_error) (var : string -> string)
    (exe path : string) (m m' : files) (cfg : Args) (w : env) (b : bridge)
    (Hm : Metadata.main fs_fail var [exe; path] m = Ok m')
    (Hev : var "PLAYER_EVENT" = "loading")
    (Hid : trim (var "TRACK_ID") <> EmptyString)
    (Hnew : last_loading b <> Some (trim (var "TRACK_ID")))
    (Hcfg : loading_marker cfg = Some (path +:+ ".loading"))
    (Hfile : e_loading w = m' !! (path +:+ ".loading")) :
  exists b' evs, check_loading cfg w b = Fall b' evs /\ Loading (trim (var "TRACK_ID")) ∈ evs /\
    pending b' = None /\ client b' = None /\ discard_until_bos b' = true.
Proof.
  assert (m' !! (path +:+ ".loading") = Some (var "TRACK_ID")) as Hl.
  { unfold Metadata.main in Hm. simpl in Hm. rewrite Hev in Hm. simpl in Hm.
    destruct (fs_write _ m _ _) as [m1| |] eqn:E1; simpl in Hm; [|done|done].
    destruct (fs_rename _ m1 _ _) as [m2| |] eqn:E2; simpl in Hm; [|done|done].
    rewrite (rename_written _ _ _ _ _ _ _ E1 E2) in Hm. unfold fs_write in Hm.
    destruct (fs_fail (FsWrite (path +:+ ".state"))); [done|]. injection Hm as <-.
    rewrite lookup_insert_ne, lookup_insert_eq; [done|].
    clear. induction path as [|c p IH]; simpl; [done|]. intros [= E]. auto. }
  unfold check_loading. rewrite Hcfg, Hfile, Hl. unfold read_marker. cbv zeta.
  assert (is_empty (trim (var "TRACK_ID")) = false) as -> by (by destruct (trim (var "TRACK_ID"))).
  rewrite bool_decide_false by done. eexists _, _. split; [done|]. split; [apply list_elem_of_here|done].
Qed.

(** The status file at the end of a run, for every interleaving of the two output streams:
    a failed librespot always ends in the error status; otherwise the last line that reports
    pairing or authentication decides. *)
Theorem supervisor_final_status (lines : list string) (exit_status : option string) :
  Supervisor.status_file lines exit_status =
  match exit_status with
  | Some st => Supervisor.status_json "error" (Some ("message", "librespot exited: " +:+ st))
  | None => match last (omap Supervisor.line_status lines) with
            | Some (state, extra) => Supervisor.status_json state extra
            | None => Supervisor.status_json "starting" None
            end
  end.
Proof.
  unfold Supervisor.status_file, Supervisor.statuses. destruct exit_status as [st|].
  - by rewrite app_comm_cons, last_snoc.
  - rewrite app_nil_r. rewrite last_cons. by destruct (last (omap _ lines)) as [[? ?]|].
Qed.

(** ** Witnesses *)

Lemma metadata_main_effect_witness :
  exists m', Metadata.main no_fail ex_var ["spotify-metadata"; "now"] {["now" := "old"]} = Ok m'
  /\ m' !! "now" = Some "old".
Proof.
  destruct (Metadata.main no_fail ex_var ["spotify-metadata"; "now"] {["now" := "old"]}) as [m'|e|] eqn:E;
    [|vm_compute in E; discriminate E|vm_compute in E; discriminate E].
  exists m'. split; [reflexivity|].
  pose proof (metadata_main_effect no_fail ex_var "spotify-metadata" "now" {["now" := "old"]} m' E) as H.
  rewrite bool_decide_false in H by done. rewrite H. reflexivity.
Defined.

Lemma loading_reaches_bridge_witness :
  exists b' evs,
    check_loading ex_args_loading (ex_env_marked NoConnection (RecvPage ex_audio_page)) bridge_init = Fall b' evs /\
    Loading "6rqhFgbbKwnb9MLmUQDhG6" ∈ evs /\ pending b' = None /\ client b' = None /\
    discard_until_bos b' = true.
Proof.
  eapply (loading_reaches_bridge no_fail ex_var "spotify-metadata" "now" ∅ _ ex_args_loading (ex_env_marked NoConnection (RecvPage ex_audio_page)) bridge_init);
    [vm_compute; reflexivity|reflexivity|by vm_compute|by vm_compute|reflexivity|reflexivity].
Defined.
