(* ===== verification/ShuffleVec.v ===== *)
(** * Shuffled track lists ([native/librespot/connect/src/shuffle_vec.rs])

    A [ShuffleVec] remembers the indices of its Fisher-Yates swaps so that it can be put back
    into the original order.  The random generator comes from the [rand] crate and is a
    parameter: any generator whose draws stay below the requested bound. *)
From S2P Require Import Prelude.

(** ** The generator *)

Class Rng := {
  rng_state : Type;
  seed_from_u64 : Z -> rng_state;
  random_range : rng_state -> nat -> nat * rng_state;
}.

(** What [random_range(0..n)] documents for a non-empty range. *)
Class RngOk `{!Rng} := random_range_lt st n : (0 < n)%nat -> ((random_range st n).1 < n)%nat.

(** ** Data *)

Record ShuffleVec (T : Type) := mkShuffleVec {
  vec : list T;
  indices : option (list nat);
  original_first_position : option nat
}.
Arguments mkShuffleVec {T}.
Arguments vec {T}.
Arguments indices {T}.
Arguments original_first_position {T}.

(** ** Operations *)

Section Ops.
Context {T : Type}.

Definition sv_from (v : list T) : ShuffleVec T := mkShuffleVec v None None.

(** [Vec::push] through [DerefMut]. *)
Definition sv_push (s : ShuffleVec T) (x : T) : ShuffleVec T :=
  mkShuffleVec (vec s ++ [x]) (indices s) (original_first_position s).

(** [slice::swap], which panics out of bounds. *)
Definition swap (l : list T) (i j : nat) : res unit (list T) :=
  match l !! i, l !! j with
  | Some x, Some y => Ok (<[i := y]> (<[j := x]> l))
  | _, _ => Panic
  end.

Fixpoint swaps (l : list T) (ps : list (nat * nat)) : res unit (list T) :=
  match ps with
  | [] => Ok l
  | (i, j) :: ps => l ← swap l i j; swaps l ps
  end.

(** The loop of [unshuffle]: it gives up at the first missing index. *)
Fixpoint unshuffle_loop (ind : list nat) (l : list T) (ks : list nat) : res unit (list T) :=
  match ks with
  | [] => Ok l
  | i :: ks =>
      match ind !! (length l - i - 1)%nat with
      | None => Ok l
      | Some n => l ← swap l n i; unshuffle_loop ind l ks
      end
  end.

Definition unshuffle (s : ShuffleVec T) : res unit (ShuffleVec T) :=
  match indices s with
  | None => Ok s
  | Some ind =>
      '(l, ofp) ← (match original_first_position s with
                   | Some first_pos => l ← swap (vec s) 0 first_pos; Ok (l, None)
                   | None => Ok (vec s, None)
                   end);
      l ← unshuffle_loop ind l (seq 1 (length l - 1));
      Ok (mkShuffleVec l None ofp)
  end.

Context `{!Rng}.

(** [(1..len).rev().map(|i| rng.random_range(0..i + 1)).collect()], for the values [ks] of [i]. *)
Fixpoint draw (st : rng_state) (ks : list nat) : list nat :=
  match ks with
  | [] => []
  | i :: ks => let '(n, st) := random_range st (i + 1) in n :: draw st ks
  end.

Definition shuffle_with_rng (s : ShuffleVec T) (st : rng_state) (is_first : T -> bool)
  : res unit (ShuffleVec T) :=
  if (length (vec s) <=? 1)%nat then Ok s
  else
    s ← (match indices s with Some _ => unshuffle s | None => Ok s end);
    let ks := reverse (seq 1 (length (vec s) - 1)) in
    let ind := draw st ks in
    l ← swaps (vec s) (zip ks ind);
    let ofp := position is_first l in
    l ← (match ofp with Some first_pos => swap l 0 first_pos | None => Ok l end);
    Ok (mkShuffleVec l (Some ind) ofp).

Definition shuffle_with_seed (s : ShuffleVec T) (seed : Z) (is_first : T -> bool)
  : res unit (ShuffleVec T) :=
  shuffle_with_rng s (seed_from_u64 seed) is_first.
End Ops.

(** ** Invariant *)

(** [s] is [base], or a shuffle of it that [unshuffle] undoes. *)
Definition shuffle_of {T} (base : list T) (s : ShuffleVec T) : Prop :=
  exists ofp, unshuffle s = Ok (mkShuffleVec base None ofp) /\
    vec s ≡ₚ base /\
    match indices s with
    | None => True
    | Some ind => S (length ind) = length base /\ ofp = None
    end.

(** What keeps [unshuffle] from indexing out of range, also after tracks were appended: the recorded
    positions are in range. *)
Definition sv_wf {T} (s : ShuffleVec T) : Prop :=
  match indices s with
  | None => True
  | Some ind =>
      Forall (fun n => n < length (vec s))%nat ind /\
      match original_first_position s with Some k => (k < length (vec s))%nat | None => True end
  end.

Inductive sv_op (T : Type) := OpShuffle (seed : Z) (is_first : T -> bool) | OpUnshuffle.
Arguments OpShuffle {T}.
Arguments OpUnshuffle {T}.

Fixpoint run_ops {T} `{!Rng} (s : ShuffleVec T) (ops : list (sv_op T)) : res unit (ShuffleVec T) :=
  match ops with
  | [] => Ok s
  | OpShuffle seed f :: ops => s ← shuffle_with_seed s seed f; run_ops s ops
  | OpUnshuffle :: ops => s ← unshuffle s; run_ops s ops
  end.

(** A small linear congruential generator, to run the model. *)
#[export] Instance lcg : Rng := {|
  rng_state := Z;
  seed_from_u64 := fun s => s;
  random_range := fun st n => (Z.to_nat ((st / 65536) mod Z.of_nat n), (st * 1103515245 + 12345) mod 2 ^ 31)
|}.

(** Six tracks shuffled so that track 4 comes first. *)
Definition ex_shuffled : ShuffleVec Z :=
  match shuffle_with_seed (sv_from [1; 2; 3; 4; 5; 6]) 987654321 (Z.eqb 4) with
  | Ok s => s
  | _ => sv_from []
  end.

(** ** Lemmas *)

Section Facts.
Context {T : Type}.
Implicit Types l : list T.

Lemma swap_ok l i j : (i < length l)%nat -> (j < length l)%nat -> exists l', swap l i j = Ok l'.
Proof.
  intros Hi Hj. unfold swap. destruct (lookup_lt_is_Some_2 l i Hi) as [x ->].
  destruct (lookup_lt_is_Some_2 l j Hj) as [y ->]. eauto.
Qed.

Lemma swap_inv l i j l' : swap l i j = Ok l' ->
  exists x y, l !! i = Some x /\ l !! j = Some y /\ l' = <[i := y]> (<[j := x]> l).
Proof.
  unfold swap. destruct (l !! i) as [x|]; [|done]. destruct (l !! j) as [y|]; [|done].
  intros [= <-]. eauto.
Qed.

Lemma swap_length l i j l' : swap l i j = Ok l' -> length l' = length l.
Proof. intros (x & y & _ & _ & ->)%swap_inv. by rewrite !length_insert. Qed.

Lemma swap_comm l i j : swap l i j = swap l j i.
Proof.
  unfold swap. destruct (l !! i) as [x|] eqn:Hi, (l !! j) as [y|] eqn:Hj; try done.
  destruct (decide (i = j)) as [->|]; [by simplify_eq|]. by rewrite list_insert_insert_ne.
Qed.

Lemma swap_undo l i j l' : swap l i j = Ok l' -> swap l' i j = Ok l.
Proof.
  intros (x & y & Hi & Hj & ->)%swap_inv.
  assert (i < length l)%nat by by eapply lookup_lt_Some. assert (j < length l)%nat by by eapply lookup_lt_Some.
  unfold swap. destruct (decide (i = j)) as [->|Hne].
  - simplify_eq. rewrite list_insert_insert_eq, list_lookup_insert_eq by done.
    by rewrite !list_insert_insert_eq, list_insert_id.
  - rewrite list_lookup_insert_eq by (by rewrite length_insert).
    rewrite list_lookup_insert_ne, list_lookup_insert_eq by done. f_equal.
    rewrite (list_insert_insert_ne _ i j), list_insert_insert_eq, (list_insert_insert_ne _ i j) by done.
    rewrite list_insert_insert_eq. rewrite (list_insert_id l i) by done. by rewrite list_insert_id.
Qed.

Lemma swap_perm l i j l' : swap l i j = Ok l' -> l' ≡ₚ l.
Proof.
  intros (x & y & Hi & Hj & ->)%swap_inv. destruct (decide (i = j)) as [->|Hne].
  { simplify_eq. by rewrite list_insert_insert_eq, list_insert_id. }
  apply Permutation_inj. split; [by rewrite !length_insert|].
  assert (i < length l)%nat by by eapply lookup_lt_Some. assert (j < length l)%nat by by eapply lookup_lt_Some.
  exists (fun k => if decide (k = i) then j else if decide (k = j) then i else k). split.
  - intros a b. repeat case_decide; congruence.
  - intros k. repeat case_decide; subst.
    + by rewrite list_lookup_insert_eq by (by rewrite length_insert).
    + by rewrite list_lookup_insert_ne, list_lookup_insert_eq.
    + by rewrite !list_lookup_insert_ne.
Qed.

Lemma swaps_app l ps qs : swaps l (ps ++ qs) = l' ← swaps l ps; swaps l' qs.
Proof.
  revert l; induction ps as [|[i j] ps IH]; intros l; simpl; [done|].
  destruct (swap l i j); simpl; [apply IH|done|done].
Qed.

Lemma swaps_length l ps l' : swaps l ps = Ok l' -> length l' = length l.
Proof.
  revert l; induction ps as [|[i j] ps IH]; intros l H; simpl in H; [by simplify_eq|].
  destruct (swap l i j) as [l1| |] eqn:E; simpl in H; [|done|done].
  rewrite (IH _ H). by eapply swap_length.
Qed.

Lemma swaps_perm l ps l' : swaps l ps = Ok l' -> l' ≡ₚ l.
Proof.
  revert l; induction ps as [|[i j] ps IH]; intros l H; simpl in H; [by simplify_eq|].
  destruct (swap l i j) as [l1| |] eqn:E; simpl in H; [|done|done].
  rewrite (IH _ H). by eapply swap_perm.
Qed.

Lemma swaps_undo l ps l' : swaps l ps = Ok l' -> swaps l' (reverse ps) = Ok l.
Proof.
  revert l; induction ps as [|[i j] ps IH]; intros l H; simpl in H; [by simplify_eq|].
  destruct (swap l i j) as [l1| |] eqn:E; simpl in H; [|done|done].
  rewrite reverse_cons, swaps_app, (IH _ H). simpl. by rewrite (swap_undo _ _ _ _ E).
Qed.

Lemma swaps_ok l ps :
  Forall (fun p => p.1 < length l /\ p.2 < length l)%nat ps -> exists l', swaps l ps = Ok l'.
Proof.
  revert l; induction ps as [|[i j] ps IH]; intros l H; simpl; [eauto|].
  inversion H as [|? ? [Hi Hj] Hps]; subst; simpl in *.
  destruct (swap_ok l i j Hi Hj) as [l1 E]. rewrite E. simpl. apply IH.
  by rewrite (swap_length _ _ _ _ E).
Qed.

(** With one index per position, the loop is the reversed sequence of swaps. *)
Lemma unshuffle_loop_swaps ind l ks :
  Forall (fun i => length l - i - 1 < length ind)%nat ks ->
  unshuffle_loop ind l ks =
  swaps l (map (fun i => (i, default O (ind !! (length l - i - 1)%nat))) ks).
Proof.
  revert l; induction ks as [|i ks IH]; intros l H; simpl; [done|].
  inversion H as [|? ? Hi His]; subst.
  destruct (lookup_lt_is_Some_2 ind (length l - i - 1) Hi) as [n Hn]. rewrite Hn. simpl.
  rewrite swap_comm. destruct (swap l i n) as [l'| |] eqn:E; simpl; [|done|done].
  pose proof (swap_length _ _ _ _ E) as Hl. rewrite <- Hl in *. apply IH. done.
Qed.

Lemma zip_reversed ind n :
  S (length ind) = n ->
  map (fun i => (i, default O (ind !! (n - i - 1)%nat))) (seq 1 (n - 1))
  = reverse (zip (reverse (seq 1 (n - 1))) ind).
Proof.
  intros <-. apply list_eq. intros k. rewrite list_lookup_fmap.
  replace (S (length ind) - 1)%nat with (length ind) by lia.
  destruct (decide (k < length ind)%nat) as [Hk|Hk].
  - rewrite lookup_seq_lt by done. simpl.
    rewrite reverse_lookup by (rewrite length_zip_with, length_reverse, length_seq; lia).
    rewrite length_zip_with, length_reverse, length_seq, Nat.min_id.
    rewrite lookup_zip_with, reverse_lookup by (rewrite length_seq; lia).
    rewrite length_seq, lookup_seq_lt by lia. simpl.
    destruct (lookup_lt_is_Some_2 ind (length ind - S k)) as [x Hx]; [lia|].
    replace (length ind - k - 1)%nat with (length ind - S k)%nat by lia.
    rewrite Hx. simpl. do 2 f_equal. lia.
  - rewrite lookup_seq_ge by lia. simpl. symmetry. apply lookup_ge_None.
    rewrite length_reverse, length_zip_with, length_reverse, length_seq. lia.
Qed.
End Facts.

Section Correctness.
Context {T : Type} {R : Rng} {ROk : RngOk}.
Implicit Types (l base : list T) (s : ShuffleVec T).

Lemma length_draw st ks : length (draw st ks) = length ks.
Proof.
  revert st; induction ks as [|i ks IH]; intros st; simpl; [done|].
  destruct (random_range st (i + 1)). simpl. by rewrite IH.
Qed.

Lemma draw_bounds st ks n :
  Forall (fun i => i < n)%nat ks -> Forall (fun p => p.1 < n /\ p.2 < n)%nat (zip ks (draw st ks)).
Proof.
  revert st; induction ks as [|i ks IH]; intros st H; simpl; [constructor|].
  inversion H; subst. pose proof (random_range_lt st (i + 1) ltac:(lia)) as Hlt.
  destruct (random_range st (i + 1)) as [r st']. simpl in *. constructor; [simpl; lia|by apply IH].
Qed.

(** Undoing the recorded swaps restores the list they were applied to. *)
Lemma unshuffle_swaps base l st :
  let ks := reverse (seq 1 (length base - 1)) in
  (1 < length base)%nat ->
  swaps base (zip ks (draw st ks)) = Ok l ->
  unshuffle_loop (draw st ks) l (seq 1 (length l - 1)) = Ok base.
Proof.
  intros ks Hlen H. pose proof (swaps_length _ _ _ H) as Hl.
  assert (S (length (draw st ks)) = length l) as Hind.
  { rewrite length_draw. subst ks. rewrite length_reverse, length_seq. lia. }
  rewrite unshuffle_loop_swaps.
  - rewrite zip_reversed by done. replace (length l - 1)%nat with (length base - 1)%nat by lia.
    by apply swaps_undo.
  - apply Forall_forall. intros i Hi%elem_of_seq. lia.
Qed.

Lemma shuffle_of_from base : shuffle_of base (sv_from base).
Proof. by exists None. Qed.

Lemma shuffle_of_unshuffle base s s' :
  shuffle_of base s -> unshuffle s = Ok s' -> shuffle_of base s' /\ vec s' = base.
Proof. intros (ofp & Hu & _) H. rewrite Hu in H. simplify_eq. split; [by exists ofp|done]. Qed.

(** Shuffling from a fresh vector. *)
Lemma shuffle_fresh base ofp st is_first :
  (1 < length base)%nat ->
  exists s', shuffle_with_rng (mkShuffleVec base None ofp) st is_first = Ok s' /\ shuffle_of base s' /\
    vec s' ≡ₚ base /\ (forall x, head (vec s') = Some x -> Exists (fun y => is_first y = true) base -> is_first x = true).
Proof.
  intros Hlen. unfold shuffle_with_rng. simpl.
  replace (length base <=? 1)%nat with false by (symmetry; apply Nat.leb_gt; lia). simpl.
  set (ks := reverse (seq 1 (length base - 1))).
  destruct (swaps_ok base (zip ks (draw st ks))) as [l Hl].
  { apply draw_bounds. subst ks. apply Forall_forall. intros i. rewrite elem_of_reverse, elem_of_seq. lia. }
  rewrite Hl. cbn [mbind res_bind]. pose proof (swaps_length _ _ _ Hl) as Hll. pose proof (swaps_perm _ _ _ Hl) as Hp.
  assert (S (length (draw st ks)) = length base) as Hind.
  { rewrite length_draw. subst ks. rewrite length_reverse, length_seq. lia. }
  pose proof (unshuffle_swaps base l st Hlen Hl) as Hun. fold ks in Hun.
  destruct (position is_first l) as [k|] eqn:Hpos.
  - pose proof (position_lt _ _ _ Hpos) as Hk. destruct (swap_ok l 0 k) as [l' Hl']; [lia|done|].
    rewrite Hl'. cbn [mbind res_bind]. eexists. split; [done|]. split_and!.
    + exists None. unfold unshuffle. simpl. rewrite (swap_undo _ _ _ _ Hl'). simpl.
      rewrite Hun. simpl. by rewrite (swap_perm _ _ _ _ Hl').
    + simpl. by rewrite (swap_perm _ _ _ _ Hl').
    + simpl. intros x Hx _. apply swap_inv in Hl' as (a & b & Ha & Hb & ->).
      apply position_Some in Hpos as (y & Hy & Hfy & _). simplify_eq.
      destruct l as [|z l]; [simpl in Hk; lia|]. destruct k; simpl in *; by simplify_eq.
  - cbn [mbind res_bind]. eexists. split; [done|]. split_and!.
    + exists None. unfold unshuffle. simpl. by rewrite Hun.
    + done.
    + simpl. intros x _ Hex. exfalso. apply position_None in Hpos. rewrite Hp in Hpos.
      apply Exists_exists in Hex as (y & Hy & Hfy). apply (proj1 (Forall_forall _ _) Hpos) in Hy. congruence.
Qed.

Lemma shuffle_of_shuffle base s st is_first :
  shuffle_of base s ->
  exists s', shuffle_with_rng s st is_first = Ok s' /\ shuffle_of base s' /\
    ((1 < length base)%nat -> forall x, head (vec s') = Some x ->
      Exists (fun y => is_first y = true) base -> is_first x = true).
Proof.
  intros (ofp & Hu & Hp & Hi).
  destruct (decide (length base <= 1)%nat) as [Hle|Hgt].
  { exists s. unfold shuffle_with_rng. rewrite Hp.
    replace (length base <=? 1)%nat with true by (symmetry; apply Nat.leb_le; lia).
    split_and!; [done|by exists ofp|lia]. }
  destruct (shuffle_fresh base (match indices s with Some _ => ofp | None => original_first_position s end) st is_first)
    as (s' & Hs & Hs' & _ & Hf); [lia|].
  exists s'. split_and!; [|done|done]. rewrite <- Hs. unfold shuffle_with_rng. simpl. rewrite Hp.
  replace (length base <=? 1)%nat with false by (symmetry; apply Nat.leb_gt; lia).
  destruct s as [v [ind|] o]; simpl in *.
  - rewrite Hu. destruct Hi as [_ ->]. done.
  - unfold unshuffle in Hu. simpl in Hu. simplify_eq. done.
Qed.

Lemma run_ops_ok base ops s :
  shuffle_of base s -> exists s', run_ops s ops = Ok s' /\ shuffle_of base s'.
Proof.
  revert s; induction ops as [|[seed f|] ops IH]; intros s Hs; simpl; [by eauto|..].
  - destruct (shuffle_of_shuffle base s (seed_from_u64 seed) f Hs) as (s' & E & Hs' & _).
    unfold shuffle_with_seed. rewrite E. simpl. by apply IH.
  - destruct Hs as (ofp & Hu & _). rewrite Hu. simpl. apply IH. by exists ofp.
Qed.

(** *** Safety without a way back *)

Lemma unshuffle_loop_ok ind l ks :
  Forall (fun n => n < length l)%nat ind -> Forall (fun i => i < length l)%nat ks ->
  exists l', unshuffle_loop ind l ks = Ok l'.
Proof.
  intros Hind. revert l Hind; induction ks as [|i ks IH]; intros l Hind Hks; simpl; [eauto|].
  apply Forall_cons in Hks as [Hi Hks]. destruct (ind !! _) as [n|] eqn:E; [|eauto].
  pose proof (Forall_lookup_1 _ _ _ _ Hind E) as Hn. simpl in Hn. destruct (swap_ok l n i Hn Hi) as [l1 E1].
  rewrite E1. simpl. apply IH; by rewrite (swap_length _ _ _ _ E1).
Qed.

Lemma sv_wf_from base : sv_wf (sv_from base).
Proof. done. Qed.

Lemma sv_wf_unshuffle s : sv_wf s -> exists s', unshuffle s = Ok s' /\ sv_wf s'.
Proof.
  destruct s as [l [ind|] [k|]]; unfold sv_wf, unshuffle; simpl; intros Hs;
    [destruct Hs as [Hind Hk]..|by eexists|by eexists].
  1: destruct (swap_ok l 0 k) as [l1 E1]; [lia|done|]; rewrite E1; simpl; apply swap_length in E1; rewrite <- E1 in Hind.
  2: set (l1 := l) in *.
  all: destruct (unshuffle_loop_ok ind l1 (seq 1 (length l1 - 1))) as [l2 E2];
    [done|apply Forall_forall; intros i Hi%elem_of_seq; lia|]; rewrite E2; simpl; by eexists.
Qed.

Lemma sv_wf_push s x : sv_wf s -> sv_wf (sv_push s x).
Proof.
  destruct s as [l [ind|] [k|]]; unfold sv_wf; simpl; [| |done|done]; rewrite length_app; intros [Hind Hk].
  all: split; [eapply Forall_impl; [done|]; simpl; lia|lia || done].
Qed.

Lemma draw_lt st ks n : Forall (fun i => i < n)%nat ks -> Forall (fun m => m < n)%nat (draw st ks).
Proof.
  revert st; induction ks as [|i ks IH]; intros st H; simpl; [constructor|]. apply Forall_cons in H as [Hi Hks].
  pose proof (random_range_lt st (i + 1) ltac:(lia)) as Hlt. destruct (random_range st (i + 1)) as [r st'].
  simpl in *. constructor; [lia|by apply IH].
Qed.

Lemma sv_wf_shuffle s seed is_first :
  sv_wf s -> exists s', shuffle_with_seed s seed is_first = Ok s' /\ sv_wf s'.
Proof.
  intros Hs. unfold shuffle_with_seed, shuffle_with_rng. destruct (_ <=? 1)%nat; [by eauto|].
  assert (exists s1, (match indices s with Some _ => unshuffle s | None => Ok s end) = Ok s1) as [s1 ->].
  { destruct (indices s); [|by eauto]. destruct (sv_wf_unshuffle s Hs) as (s1 & -> & _). eauto. }
  cbn [mbind res_bind]. set (ks := reverse _). assert (Forall (fun i => i < length (vec s1))%nat ks) as Hks.
  { apply Forall_reverse, Forall_forall. intros i Hi%elem_of_seq. lia. }
  destruct (swaps_ok (vec s1) (zip ks (draw (seed_from_u64 seed) ks))) as [l E]; [by apply draw_bounds|].
  rewrite E. simpl. apply swaps_length in E.
  pose proof (draw_lt (seed_from_u64 seed) ks (length (vec s1)) Hks) as Hd.
  destruct (position is_first l) as [k|] eqn:Ek; simpl.
  - apply position_lt in Ek. destruct (swap_ok l 0 k) as [l' E']; [lia|done|]. rewrite E'. simpl.
    apply swap_length in E'. eexists. split; [done|]. unfold sv_wf. simpl. rewrite E', E. split; [done|lia].
  - eexists. split; [done|]. unfold sv_wf. simpl. by rewrite E.
Qed.
End Correctness.

(** ** Properties *)

(** C11: whatever sequence of shuffles (with any generator and seeds) and unshuffles a track list
    has gone through, nothing panics, the list is a permutation of the original one, and
    [unshuffle] restores the original order exactly. *)
Theorem shuffle_unshuffle_roundtrip {T : Type} {R : Rng} {ROk : RngOk} (base : list T) (ops : list (sv_op T)) :
  exists s s', run_ops (sv_from base) ops = Ok s /\ vec s ≡ₚ base /\
    unshuffle s = Ok s' /\ vec s' = base.
Proof.
  destruct (run_ops_ok base ops (sv_from base) (shuffle_of_from base)) as (s & E & (ofp & Hu & Hp & _)).
  exists s. eauto.
Qed.

(** Shuffling puts the requested track first: if the list has a track satisfying [is_first],
    the shuffled list starts with one. *)
Theorem shuffle_first {T : Type} {R : Rng} {ROk : RngOk} (base : list T) (ops : list (sv_op T))
    (s : ShuffleVec T) (seed : Z) (is_first : T -> bool)
    (Hs : run_ops (sv_from base) ops = Ok s) (Hlen : (1 < length base)%nat)
    (Hex : Exists (fun y => is_first y = true) base) :
  exists s' x, shuffle_with_seed s seed is_first = Ok s' /\ head (vec s') = Some x /\ is_first x = true.
Proof.
  destruct (run_ops_ok base ops (sv_from base) (shuffle_of_from base)) as (s0 & E & Hso).
  rewrite Hs in E. injection E as <-.
  destruct (shuffle_of_shuffle base s (seed_from_u64 seed) is_first Hso) as (s' & E' & (o & _ & Hp & _) & Hf).
  destruct (vec s') as [|x l] eqn:Hv; [apply Permutation_length in Hp; simpl in Hp; lia|].
  exists s', x. rewrite Hv. split_and!; [done|done|]. apply Hf; [done|done|done].
Qed.

(** A track appended to a shuffled list (as [fill_context_from_page] does) breaks the way
    back: [unshuffle] finds no index for its first position and stops at once, so apart from
    moving the first track back the list keeps its shuffled order. *)
Theorem unshuffle_after_push_stops {T : Type} (base : list T) (s : ShuffleVec T) (ind : list nat) (x : T)
    (Hs : shuffle_of base s) (Hi : indices s = Some ind) :
  exists l, unshuffle (sv_push s x) = Ok (mkShuffleVec (l ++ [x]) None None) /\
    match original_first_position s with
    | None => l = vec s
    | Some k => swap (vec s) 0 k = Ok l
    end.
Proof.
  destruct Hs as (ofp & Hu & Hp & Hind). rewrite Hi in Hind. destruct Hind as [Hind _].
  apply Permutation_length in Hp.
  assert (forall l, length l = length (vec s) -> unshuffle_loop ind (l ++ [x]) (seq 1 (length (l ++ [x]) - 1)) = Ok (l ++ [x])) as Hstop.
  { intros l Hl. rewrite length_app. simpl. replace (length l + 1 - 1)%nat with (S (length l - 1)) by lia.
    cbn [seq unshuffle_loop]. rewrite length_app. simpl. by rewrite (proj2 (lookup_ge_None ind _)) by lia. }
  unfold unshuffle in Hu |- *. simpl. rewrite Hi in Hu |- *.
  destruct (original_first_position s) as [k|]; simpl in *.
  - destruct (swap (vec s) 0 k) as [l| |] eqn:E; simpl in Hu; [|done|done]. exists l. split; [|done].
    pose proof (swap_length _ _ _ _ E) as Hl.
    apply swap_inv in E as (a & b & Ha & Hb & ->).
    assert (0 < length (vec s))%nat by by eapply lookup_lt_Some. assert (k < length (vec s))%nat by by eapply lookup_lt_Some.
    unfold swap. rewrite !lookup_app_l by done. rewrite Ha, Hb. simpl.
    rewrite (insert_app_l _ _ k), (insert_app_l _ _ 0) by (rewrite ?length_insert; done).
    rewrite Hstop by done. done.
  - exists (vec s). by rewrite Hstop.
Qed.

(** ** Witnesses *)

Lemma lcg_ok : @RngOk lcg.
Proof. intros st n Hn. simpl. pose proof (Z.mod_pos_bound (st / 65536) (Z.of_nat n) ltac:(lia)). lia. Qed.

Lemma shuffle_unshuffle_roundtrip_witness :
  exists s s', run_ops (sv_from [1; 2; 3]) [OpShuffle 77 (Z.eqb 2)] = Ok s /\ vec s ≡ₚ [1; 2; 3] /\
    unshuffle s = Ok s' /\ vec s' = [1; 2; 3].
Proof. apply (shuffle_unshuffle_roundtrip (ROk := lcg_ok)). Defined.

Lemma shuffle_first_witness :
  exists s' x, shuffle_with_seed (sv_from [1; 2; 3; 4; 5; 6]) 987654321 (Z.eqb 4) = Ok s' /\
    head (vec s') = Some x /\ (4 =? x) = true.
Proof.
  apply (shuffle_first (ROk := lcg_ok) [1; 2; 3; 4; 5; 6] [] (sv_from [1; 2; 3; 4; 5; 6]) 987654321 (Z.eqb 4));
    [reflexivity|simpl; lia|]. apply Exists_exists. exists 4. split; [set_solver|reflexivity].
Defined.

Lemma unshuffle_after_push_stops_witness :
  exists l, unshuffle (sv_push ex_shuffled 7) = Ok (mkShuffleVec (l ++ [7]) None None) /\
    l <> [1; 2; 3; 4; 5; 6].
Proof.
  destruct (unshuffle_after_push_stops [1; 2; 3; 4; 5; 6] ex_shuffled [4; 3; 1; 0; 1]%nat 7) as (l & Hl & Hk).
  - destruct (shuffle_of_shuffle (ROk := lcg_ok) [1; 2; 3; 4; 5; 6] (sv_from [1; 2; 3; 4; 5; 6])
                (seed_from_u64 987654321) (Z.eqb 4) (shuffle_of_from _)) as (s' & E & Hs & _).
    unfold ex_shuffled, shuffle_with_seed. rewrite E. exact Hs.
  - vm_compute. reflexivity.
  - exists l. split; [exact Hl|]. vm_compute in Hk. injection Hk as <-. discriminate.
Defined.
