(* ===== verification/SpotifyId.v ===== *)
(** * Spotify identifiers ([native/librespot/core/src/spotify_id.rs], [file_id.rs])

    A [SpotifyId] is a 128-bit integer printed in base 62, in hexadecimal or as 16 bytes.
    [to_base62] is the source's algorithm: it takes the identifier in four 32-bit limbs and
    multiplies the digits produced so far by [2^32] in 64-bit arithmetic. *)
From S2P Require Import Prelude Text.

(** ** Data *)

Record SpotifyId := mkSpotifyId { id : Z }.

Inductive SpotifyIdError := InvalidId | InvalidFormat.

Definition SIZE : nat := 16.
Definition SIZE_BASE62 : nat := 22.

Definition BASE62_DIGITS : list ascii :=
  String.list_ascii_of_string "0123456789abcdefghijklmnopqrstuvwxyzABCDEFGHIJKLMNOPQRSTUVWXYZ".

Definition id_ok (i : SpotifyId) : Prop := fits 128 (id i).

(** ** Parsing *)

(** The value of a base-62 character. *)
Definition base62_value (c : ascii) : option Z :=
  let z := char_code c in
  if (48 <=? z) && (z <=? 57) then Some (z - 48)
  else if (97 <=? z) && (z <=? 122) then Some (z - 97 + 10)
  else if (65 <=? z) && (z <=? 90) then Some (z - 65 + 36)
  else None.

(** [checked_mul] and [checked_add] on [u128]. *)
Definition u128_checked (z : Z) : option Z := if z <? 2 ^ 128 then Some z else None.

Fixpoint from_base62_loop (dst : Z) (src : string) : res SpotifyIdError Z :=
  match src with
  | EmptyString => Ok dst
  | String c src =>
      p ← ok_or InvalidId (base62_value c);
      dst ← ok_or InvalidId (u128_checked (dst * 62));
      dst ← ok_or InvalidId (u128_checked (dst + p));
      from_base62_loop dst src
  end.

Definition from_base62 (src : string) : res SpotifyIdError SpotifyId :=
  if negb (String.length src =? SIZE_BASE62)%nat then Err InvalidId
  else dst ← from_base62_loop 0 src; Ok (mkSpotifyId dst).

(** [char::to_digit(16)] *)
Definition hex_value (c : ascii) : option Z :=
  let z := char_code c in
  if (48 <=? z) && (z <=? 57) then Some (z - 48)
  else if (97 <=? z) && (z <=? 102) then Some (z - 97 + 10)
  else if (65 <=? z) && (z <=? 70) then Some (z - 65 + 10)
  else None.

Fixpoint parse_hex (acc : Z) (s : string) : option Z :=
  match s with
  | EmptyString => Some acc
  | String c s =>
      d ← hex_value c; acc ← u128_checked (acc * 16 + d); parse_hex acc s
  end.

(** [u128::from_str_radix(src, 16)]: a leading plus sign is accepted. *)
Definition u128_from_str_radix16 (s : string) : option Z :=
  match s with
  | EmptyString => None
  | String c s' =>
      if Ascii.eqb c "+"%char then (if is_empty s' then None else parse_hex 0 s')
      else parse_hex 0 s
  end.

Definition from_base16 (src : string) : res SpotifyIdError SpotifyId :=
  if negb (String.length src =? 32)%nat then Err InvalidId
  else i ← ok_or InvalidId (u128_from_str_radix16 src); Ok (mkSpotifyId i).

Definition from_raw (src : list Z) : res SpotifyIdError SpotifyId :=
  if (length src =? SIZE)%nat then Ok (mkSpotifyId (be_combine src)) else Err InvalidId.

(** ** Printing *)

(** [for b in &mut dst\[..i\]]: multiply the digits by [2^32] and add the carry. *)
Fixpoint carry_through (ds : list Z) (carry : Z) : list Z * Z :=
  match ds with
  | [] => ([], carry)
  | b :: ds =>
      let carry := wrap 64 (carry + Z.shiftl b 32) in
      let '(ds', c) := carry_through ds (carry / 62) in
      (carry mod 62 :: ds', c)
  end.

(** [while carry > 0]: a 64-bit carry has fewer than 64 digits in base 62. *)
Fixpoint spill (fuel : nat) (dst : list Z) (i : nat) (carry : Z) : res SpotifyIdError (list Z * nat) :=
  match fuel with
  | O => Ok (dst, i)
  | S fuel =>
      if 0 <? carry then
        if (i <? length dst)%nat
        then spill fuel (<[i := carry mod 62]> dst) (S i) (carry / 62)
        else Panic
      else Ok (dst, i)
  end.

Definition limb (n shift : Z) : Z := wrap 32 (Z.shiftr n shift).

Fixpoint to_base62_loop (n : Z) (shifts : list Z) (dst : list Z) (i : nat) : res SpotifyIdError (list Z) :=
  match shifts with
  | [] => Ok dst
  | shift :: shifts =>
      let '(low, carry) := carry_through (take i dst) (limb n shift) in
      '(dst, i) ← spill 64 (low ++ drop i dst) i carry;
      to_base62_loop n shifts dst i
  end.

Definition base62_char (b : Z) : res SpotifyIdError ascii := index BASE62_DIGITS (Z.to_nat b).

(** The digits, most significant first. *)
Fixpoint digits_string (ds : list Z) : res SpotifyIdError string :=
  match ds with
  | [] => Ok EmptyString
  | b :: ds => c ← base62_char b; s ← digits_string ds; Ok (String c s)
  end.

Definition to_base62 (i : SpotifyId) : res SpotifyIdError string :=
  dst ← to_base62_loop (id i) [96; 64; 32; 0] (replicate SIZE_BASE62 0) 0;
  digits_string (reverse dst).

Definition hex_char (d : Z) : ascii := if d <? 10 then code_char (48 + d) else code_char (87 + d).

(** [format!("{:032x}", id)]: a 128-bit integer has at most 32 hexadecimal digits. *)
Fixpoint show_hex (n : nat) (z : Z) (acc : string) : string :=
  match n with
  | O => acc
  | S n => show_hex n (z / 16) (String (hex_char (z mod 16)) acc)
  end.

Definition to_base16 (i : SpotifyId) : string := show_hex 32 (id i) EmptyString.

Definition to_raw (i : SpotifyId) : list Z := be_split SIZE (id i).

(** ** File identifiers *)

Definition RAW_LEN : nat := 20.

Definition FileId := list Z.

(** Shorter inputs are padded with zeros, longer ones give the zero identifier. *)
Definition file_id_from_raw (src : list Z) : FileId :=
  if (length src <=? RAW_LEN)%nat then src ++ replicate (RAW_LEN - length src) 0
  else replicate RAW_LEN 0.

Definition file_id_to_base16 (f : FileId) : string :=
  foldr (fun b s => String (hex_char (b / 16)) (String (hex_char (b mod 16)) s)) EmptyString f.

(** ** Reference definition *)

(** The value of little-endian base-62 digits. *)
Fixpoint val62 (ds : list Z) : Z :=
  match ds with [] => 0 | d :: ds => d + 62 * val62 ds end.

Definition digit62 (d : Z) : Prop := 0 <= d < 62.

(** Naive division: the low [n] digits of [z], least significant first. *)
Fixpoint naive62 (n : nat) (z : Z) : list Z :=
  match n with O => [] | S n => z mod 62 :: naive62 n (z / 62) end.

(** The digits below position [i] are significant, those from [i] on are still zero. *)
Definition dst_ok (dst : list Z) (i : nat) : Prop :=
  length dst = SIZE_BASE62 /\ (i <= SIZE_BASE62)%nat /\ Forall digit62 dst /\
  drop i dst = replicate (SIZE_BASE62 - i) 0.

(** The value of big-endian digits after an accumulator. *)
Definition val_be (acc : Z) (ds : list Z) : Z := fold_left (fun a d => a * 62 + d) ds acc.

Definition ex_id : SpotifyId := mkSpotifyId 238762092608182713602505436543891614649.

(** ** Lemmas *)

Lemma val62_app a b : val62 (a ++ b) = val62 a + 62 ^ Z.of_nat (length a) * val62 b.
Proof.
  induction a as [|d a IH]; cbn [app val62 length]; [lia|].
  rewrite IH, Nat2Z.inj_succ, Z.pow_succ_r by lia. lia.
Qed.

Lemma val62_bounds ds : Forall digit62 ds -> 0 <= val62 ds < 62 ^ Z.of_nat (length ds).
Proof.
  induction 1 as [|d ds Hd Hds IH]; cbn [val62 length]; [lia|].
  rewrite Nat2Z.inj_succ, Z.pow_succ_r by lia. unfold digit62 in Hd. lia.
Qed.

Lemma val62_zeros n : val62 (replicate n 0) = 0.
Proof. induction n as [|n IH]; cbn [replicate val62]; lia. Qed.

Lemma naive62_unique ds : Forall digit62 ds -> naive62 (length ds) (val62 ds) = ds.
Proof.
  induction 1 as [|d ds Hd Hds IH]; cbn [naive62 val62 length]; [done|]. unfold digit62 in Hd.
  rewrite Z.add_comm, Z.mul_comm, Z.div_add_l, (Z.div_small d), Z.add_0_r by lia.
  rewrite (Z.add_comm (_ * 62)), Z_mod_plus_full, Z.mod_small by lia. by rewrite IH.
Qed.

Lemma naive62_digits n z : Forall digit62 (naive62 n z).
Proof.
  revert z; induction n as [|n IH]; intros z; simpl; constructor; [|done].
  apply Z.mod_pos_bound. lia.
Qed.

Lemma carry_through_spec ds carry :
  Forall digit62 ds -> 0 <= carry < 2 ^ 32 ->
  let '(ds', c) := carry_through ds carry in
  Forall digit62 ds' /\ length ds' = length ds /\ 0 <= c < 2 ^ 32 /\
  val62 ds' + 62 ^ Z.of_nat (length ds) * c = val62 ds * 2 ^ 32 + carry.
Proof.
  intros H. revert carry; induction H as [|b ds Hb Hds IH]; intros carry Hc; cbn [carry_through].
  - split_and!; [constructor|done|lia..|cbn [val62 length]; lia].
  - unfold digit62 in Hb. rewrite Z.shiftl_mul_pow2 by lia.
    rewrite wrap_small by (unfold fits; lia).
    specialize (IH ((carry + b * 2 ^ 32) / 62)).
    destruct (carry_through ds ((carry + b * 2 ^ 32) / 62)) as [ds' c].
    pose proof (Z.div_mod (carry + b * 2 ^ 32) 62 ltac:(lia)) as Hdm.
    pose proof (Z.mod_pos_bound (carry + b * 2 ^ 32) 62 ltac:(lia)).
    destruct IH as (? & ? & ? & Hv).
    { split; [apply Z.div_pos; lia|apply Z.div_lt_upper_bound; lia]. }
    split_and!; [by constructor|simpl; lia|lia..|].
    cbn [val62 length]. rewrite Nat2Z.inj_succ, Z.pow_succ_r by lia. lia.
Qed.

Lemma dst_ok_set dst i d :
  dst_ok dst i -> (i < SIZE_BASE62)%nat -> digit62 d ->
  dst_ok (<[i := d]> dst) (S i) /\ take (S i) (<[i := d]> dst) = take i dst ++ [d].
Proof.
  intros (Hl & Hi & Hd & Hz) Hlt Hdig. split.
  - split_and!; [by rewrite length_insert|lia|by apply Forall_insert|].
    rewrite drop_insert_lt by lia. rewrite <- Nat.add_1_r, <- drop_drop, Hz, drop_replicate. f_equal. lia.
  - rewrite (take_S_r _ _ d) by (by rewrite list_lookup_insert_eq by lia). by rewrite take_insert_ge by lia.
Qed.

Lemma spill_spec fuel dst i carry :
  dst_ok dst i -> 0 <= carry < 2 ^ Z.of_nat fuel ->
  val62 (take i dst) + 62 ^ Z.of_nat i * carry < 62 ^ 22 ->
  exists dst' i', spill fuel dst i carry = Ok (dst', i') /\ dst_ok dst' i' /\
    val62 (take i' dst') = val62 (take i dst) + 62 ^ Z.of_nat i * carry.
Proof.
  revert dst i carry; induction fuel as [|fuel IH]; intros dst i carry Hok Hc Hlt; cbn [spill].
  { exists dst, i. split_and!; [done|done|]. simpl in Hc. replace carry with 0 by lia. lia. }
  case_if; [|exists dst, i; split_and!; [done|done|]; replace carry with 0 by lia; lia].
  pose proof Hok as (Hl & Hi & Hd & Hz).
  assert (0 <= val62 (take i dst)) as Hv by (apply val62_bounds; by apply Forall_take).
  assert (i < SIZE_BASE62)%nat as Hi22.
  { destruct (decide (i = SIZE_BASE62)) as [->|]; [|lia]. exfalso.
    change (Z.of_nat SIZE_BASE62) with 22 in Hlt. nia. }
  replace (i <? length dst)%nat with true by (symmetry; apply Nat.ltb_lt; lia).
  pose proof (Z.div_mod carry 62 ltac:(lia)) as Hdm. pose proof (Z.mod_pos_bound carry 62 ltac:(lia)) as Hm.
  destruct (dst_ok_set dst i (carry mod 62) Hok Hi22 Hm) as [Hok' Htake].
  assert (val62 (take (S i) (<[i := carry mod 62]> dst)) + 62 ^ Z.of_nat (S i) * (carry / 62)
          = val62 (take i dst) + 62 ^ Z.of_nat i * carry) as Hval.
  { rewrite Htake, val62_app, length_take_le by lia. cbn [val62].
    rewrite Nat2Z.inj_succ, Z.pow_succ_r by lia. rewrite Hdm at 3. ring. }
  destruct (IH (<[i := carry mod 62]> dst) (S i) (carry / 62)) as (dst' & i' & E & Hok'' & Hv'); [done| |lia|].
  - rewrite Nat2Z.inj_succ, Z.pow_succ_r in Hc by lia.
    split; [apply Z.div_pos; lia|apply Z.div_lt_upper_bound; lia].
  - exists dst', i'. split_and!; [done|done|]. lia.
Qed.

Lemma limb_step n s : 0 <= n -> 0 <= s ->
  Z.shiftr n (s + 32) * 2 ^ 32 + limb n s = Z.shiftr n s.
Proof.
  intros Hn Hs. unfold limb, wrap. rewrite !Z.shiftr_div_pow2 by lia.
  rewrite Z.pow_add_r, <- Z.div_div by (lia || apply Z.pow_pos_nonneg; lia).
  pose proof (Z.div_mod (n / 2 ^ s) (2 ^ 32) ltac:(lia)). lia.
Qed.

Lemma shiftr_lt n s : 0 <= n < 2 ^ 128 -> 0 <= s -> 0 <= Z.shiftr n s < 62 ^ 22.
Proof.
  intros Hn Hs. rewrite Z.shiftr_div_pow2 by lia.
  pose proof (Z.pow_pos_nonneg 2 s ltac:(lia) Hs).
  split; [apply Z.div_pos; lia|]. apply Z.div_lt_upper_bound; nia.
Qed.

(** One round of the outer loop advances the digits from [n >> (s + 32)] to [n >> s]. *)
Lemma to_base62_round n s dst i :
  0 <= n < 2 ^ 128 -> 0 <= s -> dst_ok dst i -> val62 (take i dst) = Z.shiftr n (s + 32) ->
  exists dst' i',
    (let '(low, carry) := carry_through (take i dst) (limb n s) in spill 64 (low ++ drop i dst) i carry)
      = Ok (dst', i') /\ dst_ok dst' i' /\ val62 (take i' dst') = Z.shiftr n s.
Proof.
  intros Hn Hs (Hl & Hi & Hd & Hz) Hv.
  assert (0 <= limb n s < 2 ^ 32) as Hlimb by (apply wrap_fits; lia).
  pose proof (carry_through_spec (take i dst) (limb n s) (Forall_take _ i _ Hd) Hlimb) as Hct.
  destruct (carry_through (take i dst) (limb n s)) as [low carry]. destruct Hct as (Hdl & Hll & Hc & Heq).
  rewrite length_take_le in Heq, Hll by lia.
  assert (take i (low ++ drop i dst) = low) as Htl by (rewrite <- Hll; apply take_app_length).
  pose proof (limb_step n s ltac:(lia) Hs) as Hstep. pose proof (shiftr_lt n s Hn Hs) as Hsl.
  destruct (spill_spec 64 (low ++ drop i dst) i carry) as (dst' & i' & E & Hok & Hval).
  - split_and!; [rewrite length_app, length_drop; lia|done| |].
    + apply Forall_app. split; [done|by apply Forall_drop].
    + rewrite <- Hll at 1. by rewrite drop_app_length.
  - simpl. lia.
  - rewrite Htl. lia.
  - exists dst', i'. split_and!; [done|done|]. rewrite Hval, Htl. lia.
Qed.

Lemma to_base62_loop_spec n :
  0 <= n < 2 ^ 128 ->
  to_base62_loop n [96; 64; 32; 0] (replicate SIZE_BASE62 0) 0 = Ok (naive62 SIZE_BASE62 n).
Proof.
  intros Hn.
  assert (dst_ok (replicate SIZE_BASE62 0) 0) as H0.
  { split_and!; [done|lia| |done]. apply Forall_replicate. unfold digit62; lia. }
  assert (val62 (take 0 (replicate SIZE_BASE62 0)) = Z.shiftr n (96 + 32)) as V0.
  { rewrite Z.shiftr_div_pow2, Z.div_small by lia. done. }
  cbn [to_base62_loop].
  destruct (to_base62_round n 96 _ _ Hn ltac:(lia) H0 V0) as (d1 & i1 & E1 & H1 & V1).
  destruct (to_base62_round n 64 _ _ Hn ltac:(lia) H1 V1) as (d2 & i2 & E2 & H2 & V2).
  destruct (to_base62_round n 32 _ _ Hn ltac:(lia) H2 V2) as (d3 & i3 & E3 & H3 & V3).
  destruct (to_base62_round n 0 _ _ Hn ltac:(lia) H3 V3) as (d4 & i4 & E4 & H4 & V4).
  repeat match goal with
  | E : (let '(_, _) := carry_through ?a ?b in _) = _ |- context [carry_through ?a ?b] =>
      destruct (carry_through a b) as [? ?]; rewrite E; cbn [mbind res_bind]
  end.
  f_equal. destruct H4 as (Hl & Hi & Hd & Hz). rewrite Z.shiftr_0_r in V4.
  rewrite <- (naive62_unique d4 Hd), Hl. f_equal.
  rewrite <- (take_drop i4 d4), val62_app, Hz, val62_zeros. lia.
Qed.

Lemma base62_char_value d : digit62 d -> exists c, base62_char d = Ok c /\ base62_value c = Some d.
Proof.
  intros Hd.
  assert (Forall (fun d => exists c, base62_char d = Ok c /\ base62_value c = Some d) (seqZ 0 62)) as H.
  { let l := eval vm_compute in (seqZ 0 62) in change (seqZ 0 62) with l.
    repeat (apply Forall_cons; split; [eexists; split; vm_compute; reflexivity|]). apply Forall_nil_2. }
  rewrite Forall_forall in H. apply H, elem_of_seqZ. unfold digit62 in Hd. lia.
Qed.

Lemma base62_value_char c d : base62_value c = Some d -> digit62 d /\ base62_char d = Ok c.
Proof.
  destruct c as [[] [] [] [] [] [] [] []]; vm_compute; intros [= <-]; split; (split; congruence) || reflexivity.
Qed.

Lemma val_be_reverse ds : val_be 0 (reverse ds) = val62 ds.
Proof.
  unfold val_be. induction ds as [|d ds IH]; [done|].
  rewrite reverse_cons, fold_left_app, IH. simpl. lia.
Qed.

Lemma val_be_ge ds acc : Forall digit62 ds -> 0 <= acc -> acc <= val_be acc ds.
Proof.
  intros H. revert acc; induction H as [|d ds Hd Hds IH]; intros acc Ha; unfold val_be in *; simpl; [lia|].
  unfold digit62 in Hd. specialize (IH (acc * 62 + d)). lia.
Qed.

Lemma from_base62_loop_digits ds acc s :
  Forall digit62 ds -> digits_string ds = Ok s -> 0 <= acc -> val_be acc ds < 2 ^ 128 ->
  from_base62_loop acc s = Ok (val_be acc ds) /\ String.length s = length ds.
Proof.
  intros H. revert acc s; induction H as [|d ds Hd Hds IH]; intros acc s Hs Ha Hlt; cbn [digits_string] in Hs.
  { by simplify_eq. }
  destruct (base62_char_value d Hd) as (c & Hc & Hv). rewrite Hc in Hs. simpl in Hs.
  destruct (digits_string ds) as [s'| |] eqn:Es; simpl in Hs; [|done|done]. simplify_eq.
  cbn [from_base62_loop]. rewrite Hv. simpl. unfold digit62 in Hd.
  pose proof (val_be_ge ds (acc * 62 + d) Hds ltac:(lia)) as Hge.
  change (val_be acc (d :: ds)) with (val_be (acc * 62 + d) ds) in *.
  unfold u128_checked. replace (acc * 62 <? 2 ^ 128) with true by lia. simpl.
  replace (acc * 62 + d <? 2 ^ 128) with true by lia. simpl.
  destruct (IH (acc * 62 + d) s' eq_refl) as [-> ->]; [lia|done|done].
Qed.

Lemma digits_string_ok ds : Forall digit62 ds -> exists s, digits_string ds = Ok s.
Proof.
  induction 1 as [|d ds Hd Hds [s IH]]; simpl; [eauto|].
  destruct (base62_char_value d Hd) as (c & -> & _). rewrite IH. simpl. eauto.
Qed.

(** Conversely, an accepted string is the image of its digits. *)
Lemma from_base62_loop_inv acc s v :
  0 <= acc -> from_base62_loop acc s = Ok v ->
  exists ds, Forall digit62 ds /\ digits_string ds = Ok s /\ v = val_be acc ds /\ length ds = String.length s /\
    (v = acc \/ v < 2 ^ 128).
Proof.
  revert acc; induction s as [|c s IH]; intros acc Ha H; cbn [from_base62_loop] in H.
  { simplify_eq. exists []. split_and!; try done. by left. }
  destruct (base62_value c) as [d|] eqn:Hv; simpl in H; [|done].
  apply base62_value_char in Hv as [Hd Hc]. unfold digit62 in Hd.
  unfold u128_checked in H. case_match eqn:E1; simpl in H; [|done].
  destruct (acc * 62 <? 2 ^ 128); simplify_eq.
  destruct (acc * 62 + d <? 2 ^ 128) eqn:E2; simpl in H; [|done]. apply Z.ltb_lt in E2.
  apply IH in H as (ds & Hds & Hs & -> & Hl & Hb); [|lia].
  exists (d :: ds). split_and!; [by constructor|cbn [digits_string]; rewrite Hc; simpl; by rewrite Hs|done|simpl; lia|].
  right. destruct Hb as [Hb|Hb]; [rewrite Hb; lia|done].
Qed.

Lemma hex_char_value d : 0 <= d < 16 -> hex_value (hex_char d) = Some d.
Proof.
  intros Hd.
  assert (Forall (fun d => hex_value (hex_char d) = Some d) (seqZ 0 16)) as H.
  { let l := eval vm_compute in (seqZ 0 16) in change (seqZ 0 16) with l.
    repeat (apply Forall_cons; split; [vm_compute; reflexivity|]). apply Forall_nil_2. }
  rewrite Forall_forall in H. apply H, elem_of_seqZ. lia.
Qed.

Lemma parse_hex_show n z acc rest :
  0 <= z < 16 ^ Z.of_nat n -> 0 <= acc -> (acc + 1) * 16 ^ Z.of_nat n <= 2 ^ 128 ->
  parse_hex acc (show_hex n z rest) = parse_hex (acc * 16 ^ Z.of_nat n + z) rest.
Proof.
  revert z acc rest; induction n as [|n IH]; intros z acc rest Hz Ha Hb; cbn [show_hex].
  { simpl in *. f_equal. lia. }
  rewrite Nat2Z.inj_succ, Z.pow_succ_r in Hz, Hb |- * by lia.
  pose proof (Z.div_mod z 16 ltac:(lia)) as Hdm. pose proof (Z.mod_pos_bound z 16 ltac:(lia)) as Hm.
  rewrite IH; [|split; [apply Z.div_pos; lia|apply Z.div_lt_upper_bound; lia]|done|nia].
  cbn [parse_hex]. rewrite hex_char_value by done. simpl. unfold u128_checked.
  assert (z / 16 < 16 ^ Z.of_nat n) by (apply Z.div_lt_upper_bound; lia).
  replace (_ <? 2 ^ 128) with true by (symmetry; apply Z.ltb_lt; nia). simpl. f_equal. nia.
Qed.

Lemma show_hex_length n z acc : String.length (show_hex n z acc) = (n + String.length acc)%nat.
Proof. revert z acc; induction n as [|n IH]; intros z acc; simpl; [done|]. rewrite IH. simpl. lia. Qed.

Lemma show_hex_head n z acc :
  exists d s, show_hex (S n) z acc = String (hex_char d) s /\ 0 <= d < 16.
Proof.
  revert z acc; induction n as [|n IH]; intros z acc.
  - exists (z mod 16), acc. split; [done|]. apply Z.mod_pos_bound. lia.
  - cbn [show_hex]. apply IH.
Qed.

Lemma hex_char_not_plus d : 0 <= d < 16 -> Ascii.eqb (hex_char d) "+"%char = false.
Proof.
  intros Hd. apply Ascii.eqb_neq. intros E. pose proof (hex_char_value d Hd) as H. rewrite E in H. done.
Qed.

Lemma to_from_base62 i :
  id_ok i -> exists s, to_base62 i = Ok s /\ String.length s = SIZE_BASE62 /\ from_base62 s = Ok i.
Proof.
  intros Hi.
  unfold to_base62. rewrite to_base62_loop_spec by done. cbn [mbind res_bind].
  pose proof (Forall_reverse digit62 (naive62 SIZE_BASE62 (id i))) as Hrev.
  destruct (digits_string_ok (reverse (naive62 SIZE_BASE62 (id i)))) as [s Hs].
  { apply Hrev, naive62_digits. }
  assert (val62 (naive62 SIZE_BASE62 (id i)) = id i) as Hval.
  { assert (forall n z, 0 <= z < 62 ^ Z.of_nat n -> val62 (naive62 n z) = z) as Hn.
    { induction n as [|n IH]; intros z Hz; cbn [naive62 val62]; [simpl in Hz; lia|].
      rewrite Nat2Z.inj_succ, Z.pow_succ_r in Hz by lia. pose proof (Z.div_mod z 62 ltac:(lia)).
      rewrite IH; [lia|]. split; [apply Z.div_pos; lia|apply Z.div_lt_upper_bound; lia]. }
    apply Hn. unfold id_ok, fits in Hi. split; [lia|]. change (Z.of_nat SIZE_BASE62) with 22. lia. }
  destruct (from_base62_loop_digits _ 0 s (proj2 Hrev (naive62_digits _ _)) Hs) as [Hf Hl]; [lia| |].
  { rewrite val_be_reverse, Hval. apply Hi. }
  assert (length (naive62 SIZE_BASE62 (id i)) = SIZE_BASE62) as Hlen by done.
  rewrite length_reverse, Hlen in Hl.
  exists s. split_and!; [done|done|]. unfold from_base62. rewrite Hl, Hf, val_be_reverse, Hval. by destruct i.
Qed.

Lemma from_to_base62 s i : from_base62 s = Ok i -> to_base62 i = Ok s /\ id_ok i.
Proof.
  intros H.
  unfold from_base62 in H. destruct (String.length s =? SIZE_BASE62)%nat eqn:Hl; [|done]. simpl in H.
  apply Nat.eqb_eq in Hl. destruct (from_base62_loop 0 s) as [v| |] eqn:E; simpl in H; [|done|done]. simplify_eq.
  apply from_base62_loop_inv in E as (ds & Hds & Hs & Hv & Hlen & Hb); [|lia].
  rewrite <- (reverse_involutive ds), val_be_reverse in Hv.
  assert (Forall digit62 (reverse ds)) as Hr by by apply Forall_reverse.
  pose proof (val62_bounds _ Hr) as [Hnn _]. assert (id_ok (mkSpotifyId v)) as Hok.
  { unfold id_ok, fits. simpl. destruct Hb; lia. }
  split; [|done]. unfold to_base62. rewrite to_base62_loop_spec by done. cbn [mbind res_bind id].
  rewrite Hv. replace SIZE_BASE62 with (length (reverse ds)) by (rewrite length_reverse; lia).
  rewrite naive62_unique by done. by rewrite reverse_involutive.
Qed.

Lemma base62_value_no_char c d : base62_value c = Some d -> Ascii.eqb c ":"%char = false.
Proof. intros H. apply Ascii.eqb_neq. by intros ->. Qed.

(** No accepted identifier contains the separator of URIs. *)
Lemma from_base62_no_colon s i : from_base62 s = Ok i -> no_char ":"%char s = true.
Proof.
  unfold from_base62. destruct (negb _); [done|].
  assert (forall acc v, from_base62_loop acc s = Ok v -> no_char ":"%char s = true) as H.
  { induction s as [|c s IH]; intros acc v; [done|]. cbn [from_base62_loop no_char].
    destruct (base62_value c) as [d|] eqn:E; simpl; [|done]. rewrite (base62_value_no_char c d E). simpl.
    destruct (u128_checked (acc * 62)); simpl; [|done]. destruct (u128_checked _); simpl; [apply IH|done]. }
  destruct (from_base62_loop 0 s) as [v| |] eqn:E; simpl; [intros _; by eapply H|done|done].
Qed.

(** ** Properties *)

(** C12: the limb-wise base-62 conversion is plain division: on every 128-bit identifier it does
    not overflow its 64-bit arithmetic, does not run past its 22-byte buffer, and prints exactly
    the 22 base-62 digits, most significant first. *)
Theorem to_base62_is_naive (i : SpotifyId) (Hi : id_ok i) :
  to_base62 i = digits_string (reverse (naive62 SIZE_BASE62 (id i))).
Proof. unfold to_base62. by rewrite to_base62_loop_spec. Qed.

(** Printing in base 62 and parsing back is the identity, on a string of 22 characters. *)
Theorem base62_roundtrip (i : SpotifyId) (Hi : id_ok i) :
  exists s, to_base62 i = Ok s /\ String.length s = SIZE_BASE62 /\ from_base62 s = Ok i.
Proof. by apply to_from_base62. Qed.

(** Base 62 is canonical: a string that parses is the one that is printed back, so an
    identifier has exactly one accepted spelling. *)
Theorem base62_canonical (s : string) (i : SpotifyId) (H : from_base62 s = Ok i) : to_base62 i = Ok s /\ id_ok i.
Proof. by apply from_to_base62. Qed.

(** The hexadecimal and the raw forms round trip too, at 32 characters and 16 bytes. *)
Theorem base16_raw_roundtrip (i : SpotifyId) (Hi : id_ok i) :
  String.length (to_base16 i) = 32%nat /\ from_base16 (to_base16 i) = Ok i /\
  length (to_raw i) = SIZE /\ from_raw (to_raw i) = Ok i.
Proof.
  assert (String.length (to_base16 i) = 32%nat) as Hl by apply show_hex_length.
  split_and!; [done| |apply length_be_split|].
  - unfold from_base16. rewrite Hl. cbn [negb Nat.eqb].
    destruct (show_hex_head 31 (id i) EmptyString) as (d & s & E & Hd). unfold u128_from_str_radix16.
    unfold to_base16. rewrite E, hex_char_not_plus, <- E by done.
    rewrite parse_hex_show; [simpl; by destruct i|apply Hi|lia|by vm_compute].
  - unfold from_raw, to_raw. rewrite length_be_split. cbn [Nat.eqb SIZE].
    rewrite be_combine_split by apply Hi. by destruct i.
Qed.

(** [from_base16] is not canonical: [u128::from_str_radix] accepts a plus sign, so a string
    with a character that is not a hexadecimal digit is accepted. *)
Theorem from_base16_accepts_plus :
  from_base16 "+0000000000000000000000000000001" = Ok (mkSpotifyId 1) /\
  to_base16 (mkSpotifyId 1) <> "+0000000000000000000000000000001".
Proof. split; [reflexivity|by vm_compute]. Qed.

(** ** Witnesses *)

Lemma to_base62_is_naive_witness : to_base62 ex_id = Ok "5sWHDYs0csV6RS48xBl0tH".
Proof.
  rewrite (to_base62_is_naive ex_id); [vm_compute; reflexivity|split; by vm_compute].
Defined.

Lemma base62_roundtrip_witness : from_base62 "5sWHDYs0csV6RS48xBl0tH" = Ok ex_id.
Proof.
  destruct (base62_roundtrip ex_id) as (s & Hs & _ & Hf); [split; by vm_compute|].
  vm_compute in Hs. injection Hs as <-. exact Hf.
Defined.

Lemma base62_canonical_witness : to_base62 ex_id = Ok "5sWHDYs0csV6RS48xBl0tH" /\ id_ok ex_id.
Proof. apply (base62_canonical "5sWHDYs0csV6RS48xBl0tH" ex_id). vm_compute. reflexivity. Defined.

Lemma base16_raw_roundtrip_witness :
  to_base16 ex_id = "b39fe8081e1f4c54be38e8d6f9f12bb9" /\ from_base16 (to_base16 ex_id) = Ok ex_id.
Proof.
  split; [vm_compute; reflexivity|]. apply (base16_raw_roundtrip ex_id). split; by vm_compute.
Defined.
