(* ===== verification/SpotifyUri.v ===== *)
(** * Spotify URIs ([native/librespot/core/src/spotify_uri.rs])

    The [SpotifyUri] type, its parser [from_uri], its printer [to_uri] and the conversions from
    protocol messages. A conversion takes the field of the message that the source reads. *)
From S2P Require Import Prelude Text SpotifyId.

(** ** Data *)

Definition SPOTIFY_ITEM_TYPE_ALBUM : string := "album".
Definition SPOTIFY_ITEM_TYPE_ARTIST : string := "artist".
Definition SPOTIFY_ITEM_TYPE_EPISODE : string := "episode".
Definition SPOTIFY_ITEM_TYPE_PLAYLIST : string := "playlist".
Definition SPOTIFY_ITEM_TYPE_SHOW : string := "show".
Definition SPOTIFY_ITEM_TYPE_TRACK : string := "track".
Definition SPOTIFY_ITEM_TYPE_LOCAL : string := "local".
Definition SPOTIFY_ITEM_TYPE_UNKNOWN : string := "unknown".

Inductive SpotifyUriError := UriInvalidFormat | UriInvalidRoot.

(** The two error types that [crate::Error] wraps here. *)
Inductive Error := UriError (e : SpotifyUriError) | IdError (e : SpotifyIdError).

(** [std::time::Duration] *)
Record Duration := mkDuration { as_secs : Z; subsec_nanos : Z }.

Definition from_secs (s : Z) : Duration := mkDuration s 0.

Inductive SpotifyUri :=
| Album (id : SpotifyId)
| Artist (id : SpotifyId)
| Episode (id : SpotifyId)
| Playlist (user : option string) (id : SpotifyId)
| Show (id : SpotifyId)
| Track (id : SpotifyId)
| Local (artist album_title track_title : string) (duration : Duration)
| Unknown (kind id : string).

(** ** Operations *)

Definition is_playable (u : SpotifyUri) : bool :=
  match u with Episode _ | Track _ | Local _ _ _ _ => true | _ => false end.

Definition item_type (u : SpotifyUri) : string :=
  match u with
  | Album _ => SPOTIFY_ITEM_TYPE_ALBUM
  | Artist _ => SPOTIFY_ITEM_TYPE_ARTIST
  | Episode _ => SPOTIFY_ITEM_TYPE_EPISODE
  | Playlist _ _ => SPOTIFY_ITEM_TYPE_PLAYLIST
  | Show _ => SPOTIFY_ITEM_TYPE_SHOW
  | Track _ => SPOTIFY_ITEM_TYPE_TRACK
  | Local _ _ _ _ => SPOTIFY_ITEM_TYPE_LOCAL
  | Unknown _ _ => SPOTIFY_ITEM_TYPE_UNKNOWN
  end.

Definition to_id (u : SpotifyUri) : res SpotifyIdError string :=
  match u with
  | Album id | Artist id | Episode id | Playlist _ id | Show id | Track id => to_base62 id
  | Local artist album_title track_title duration =>
      Ok (join ":" [artist; album_title; track_title; show_Z (as_secs duration)])
  | Unknown _ id => Ok id
  end.

Definition to_uri (u : SpotifyUri) : res SpotifyIdError string :=
  match u with
  | Playlist (Some user) id => s ← to_base62 id; Ok (join ":" ["spotify"; "user"; user; item_type u; s])
  | _ => name ← to_id u; Ok (join ":" ["spotify"; item_type u; name])
  end.

(** [parts.next().ok_or(SpotifyUriError::InvalidFormat)?] *)
Definition next_part (parts : list string) : res Error (string * list string) :=
  match parts with
  | part :: parts => Ok (part, parts)
  | [] => Err (UriError UriInvalidFormat)
  end.

(** [SpotifyId::from_base62(name)?] *)
Definition parse_id (name : string) : res Error SpotifyId :=
  match from_base62 name with Ok i => Ok i | Err e => Err (IdError e) | Panic => Panic end.

Definition from_uri (src : string) : res Error SpotifyUri :=
  '(scheme, parts) ← next_part (split ":" src);
  if negb (String.eqb scheme "spotify") then Err (UriError UriInvalidRoot)
  else
    '(next, parts) ← next_part parts;
    '(username, item_type, parts) ←
      (if String.eqb next "user" then
         '(user, parts) ← next_part parts;
         '(item_type, parts) ← next_part parts;
         Ok (Some user, item_type, parts)
       else Ok (None, next, parts));
    '(name, parts) ← next_part parts;
    if String.eqb item_type SPOTIFY_ITEM_TYPE_ALBUM then i ← parse_id name; Ok (Album i)
    else if String.eqb item_type SPOTIFY_ITEM_TYPE_ARTIST then i ← parse_id name; Ok (Artist i)
    else if String.eqb item_type SPOTIFY_ITEM_TYPE_EPISODE then i ← parse_id name; Ok (Episode i)
    else if String.eqb item_type SPOTIFY_ITEM_TYPE_PLAYLIST then i ← parse_id name; Ok (Playlist username i)
    else if String.eqb item_type SPOTIFY_ITEM_TYPE_SHOW then i ← parse_id name; Ok (Show i)
    else if String.eqb item_type SPOTIFY_ITEM_TYPE_TRACK then i ← parse_id name; Ok (Track i)
    else if String.eqb item_type SPOTIFY_ITEM_TYPE_LOCAL then
      let artist := name in
      '(album_title, parts) ← next_part parts;
      '(track_title, parts) ← next_part parts;
      duration_secs ← ok_or (UriError UriInvalidFormat) (f ← head parts; parse_uint 64 f);
      Ok (Local artist album_title track_title (from_secs duration_secs))
    else Ok (Unknown item_type name).

(** [impl TryFrom<&SpotifyUri> for SpotifyId] *)
Definition id_of_uri (u : SpotifyUri) : res SpotifyIdError SpotifyId :=
  match u with
  | Album id | Artist id | Episode id | Playlist _ id | Show id | Track id => Ok id
  | Local _ _ _ _ | Unknown _ _ => Err InvalidFormat
  end.

(** Conversions from the [gid] of an album, artist, episode, track, show and artist with role. *)
Definition uri_of_album (gid : list Z) := i ← from_raw gid; Ok (Album i).
Definition uri_of_artist (gid : list Z) := i ← from_raw gid; Ok (Artist i).
Definition uri_of_episode (gid : list Z) := i ← from_raw gid; Ok (Episode i).
Definition uri_of_track (gid : list Z) := i ← from_raw gid; Ok (Track i).
Definition uri_of_show (gid : list Z) := i ← from_raw gid; Ok (Show i).
Definition uri_of_artist_with_role (artist_gid : list Z) := i ← from_raw artist_gid; Ok (Artist i).

(** Conversions of playlist messages. *)
Definition uri_of_item (uri : string) : res Error SpotifyUri := from_uri uri.
Definition uri_of_meta_item (revision : list Z) :=
  i ← from_raw revision; s ← to_base62 i; Ok (Unknown "MetaItem" s).
Definition uri_of_selected_list_content (revision : list Z) :=
  i ← from_raw revision; s ← to_base62 i; Ok (Unknown "SelectedListContent" s).
Definition uri_of_transcoded_picture (uri : string) : res Error SpotifyUri :=
  Ok (Unknown "TranscodedPicture" uri).

(** ** Well-formed URIs *)

Definition plain (s : string) : Prop := no_char ":"%char s = true.

(** The values the parser can produce. *)
Definition parsed (u : SpotifyUri) : Prop :=
  match u with
  | Album id | Artist id | Episode id | Show id | Track id => id_ok id
  | Playlist user id => id_ok id /\ match user with Some u => plain u | None => True end
  | Local artist album_title track_title duration =>
      plain artist /\ plain album_title /\ plain track_title /\
      fits 64 (as_secs duration) /\ subsec_nanos duration = 0
  | Unknown _ id => plain id
  end.

(** What printing forgets: the type of an unknown item. *)
Definition canonical (u : SpotifyUri) : SpotifyUri :=
  match u with Unknown _ id => Unknown SPOTIFY_ITEM_TYPE_UNKNOWN id | _ => u end.

Definition late_error {A} (r : res Error A) : Prop :=
  match r with Panic => False | Err (UriError UriInvalidRoot) => False | _ => True end.

Definition ex_local : SpotifyUri :=
  Local "David Wise" "Donkey Kong" "Snomads Island" (from_secs 127).

(** ** Lemmas *)

Lemma to_base62_plain i : id_ok i -> exists s, to_base62 i = Ok s /\ parse_id s = Ok i /\ plain s.
Proof.
  intros Hi. destruct (to_from_base62 i Hi) as (s & Hs & _ & Hf). exists s.
  split_and!; [done|unfold parse_id; by rewrite Hf|by eapply from_base62_no_colon].
Qed.

Lemma parse_id_inv s i : parse_id s = Ok i -> id_ok i.
Proof.
  unfold parse_id. destruct (from_base62 s) as [j| |] eqn:E; [|done|done]. intros [= <-].
  by apply from_to_base62 in E as [_ ?].
Qed.

(** The parser on the pieces of a plain URI. *)
Ltac split_uri :=
  unfold from_uri; rewrite split_join by (done || by repeat constructor); cbn [mbind res_bind next_part].

Lemma from_to_uri u : parsed u -> exists s, to_uri u = Ok s /\ from_uri s = Ok (canonical u).
Proof.
  destruct u as [i|i|i|[user|] i|i|i|a b c d|k i]; cbn [parsed canonical];
    intros Hu; unfold to_uri; cbn [item_type to_id].
  1-3,5-7: assert (id_ok i) as Hi by first [exact Hu|exact (proj1 Hu)];
    destruct (to_base62_plain i Hi) as (s & -> & Hp & Hs); eexists; split; [done|];
    split_uri; simpl; by rewrite Hp.
  - destruct Hu as [Hi Hus]. destruct (to_base62_plain i Hi) as (s & -> & Hp & Hs).
    eexists; split; [done|]. split_uri. simpl. by rewrite Hp.
  - destruct Hu as (Ha & Hb & Hc & Hd & Hn). destruct d as [secs nanos]; simpl in Hd, Hn; subst nanos.
    cbn [mbind res_bind as_secs]. eexists; split; [done|]. unfold from_uri.
    change (join ":" ["spotify"; SPOTIFY_ITEM_TYPE_LOCAL; join ":" [a; b; c; show_Z secs]])
      with (join ":" ["spotify"; SPOTIFY_ITEM_TYPE_LOCAL; a; b; c; show_Z secs]).
    rewrite split_join; [|done|by repeat constructor; try done; apply show_Z_no_char].
    simpl. by rewrite parse_show.
  - eexists; split; [done|]. split_uri. done.
Qed.

Lemma next_part_ok parts x : next_part parts = Ok x -> parts = x.1 :: x.2.
Proof. destruct parts; simpl; [done|]. by intros [= <-]. Qed.

Lemma res_bind_ok {E A B} (m : res E A) (f : A -> res E B) b : m ≫= f = Ok b -> exists a, m = Ok a /\ f a = Ok b.
Proof. destruct m; simpl; [eauto|done|done]. Qed.

(** The parser produces well-formed values only. *)
Lemma from_uri_parsed s u : from_uri s = Ok u -> parsed u.
Proof.
  unfold from_uri. pose proof (split_pieces ":"%char s) as Hp. revert Hp.
  generalize (split ":"%char s). intros parts Hp.
  intros ([scheme p1] & ->%next_part_ok & H)%res_bind_ok. apply Forall_cons in Hp as [_ Hp]. simpl in Hp.
  case_match; [done|].
  apply res_bind_ok in H as ([nx p2] & ->%next_part_ok & H). apply Forall_cons in Hp as [_ Hp]. simpl in Hp.
  apply res_bind_ok in H as ([[username ty] p3] & Hu & H).
  assert (Forall plain p3 /\ match username with Some u => plain u | None => True end) as [Hp3 Huser].
  { destruct (String.eqb nx "user"); [|by simplify_eq].
    apply res_bind_ok in Hu as ([us p4] & ->%next_part_ok & Hu).
    apply res_bind_ok in Hu as ([it p5] & ->%next_part_ok & Hu). simplify_eq. simpl in Hp.
    rewrite !Forall_cons in Hp. tauto. }
  apply res_bind_ok in H as ([name p6] & ->%next_part_ok & H). apply Forall_cons in Hp3 as [Hname Hp6].
  simpl in Hname, Hp6.
  repeat match type of H with
  | (if ?b then mbind _ (parse_id _) else _) = _ =>
      destruct b; [apply res_bind_ok in H as (i & Hi%parse_id_inv & H); injection H as <-; first [exact Hi|exact (conj Hi Huser)]|]
  end.
  destruct (String.eqb ty SPOTIFY_ITEM_TYPE_LOCAL); [|by simplify_eq].
  apply res_bind_ok in H as ([b p7] & ->%next_part_ok & H). apply res_bind_ok in H as ([c p8] & ->%next_part_ok & H).
  apply res_bind_ok in H as (d & Hd & H). injection H as <-. simpl in Hp6, Hd.
  rewrite !Forall_cons in Hp6. destruct Hp6 as (Hb & Hc & _).
  destruct p8 as [|f p8]; simpl in Hd; [done|]. destruct (parse_uint 64 f) as [v|] eqn:E; [|done].
  simpl in Hd. simplify_eq. apply parse_uint_fits in E; [|lia]. done.
Qed.

(** No panic and no [InvalidRoot]: what holds of every step after the scheme was accepted. *)
Lemma late_parse_id name : late_error (parse_id name).
Proof.
  unfold parse_id, from_base62. destruct (negb _); [done|].
  assert (forall s acc, safe (fun _ => True) (from_base62_loop acc s)) as H.
  { induction s as [|c s IH]; intros acc; [done|]. cbn [from_base62_loop].
    destruct (base62_value c); simpl; [|done]. destruct (u128_checked _); simpl; [|done].
    destruct (u128_checked _); simpl; [apply IH|done]. }
  specialize (H name 0). by destruct (from_base62_loop 0 name).
Qed.

Lemma late_next_part parts : late_error (next_part parts).
Proof. by destruct parts. Qed.

Lemma late_bind {A B} (m : res Error A) (f : A -> res Error B) :
  late_error m -> (forall a, late_error (f a)) -> late_error (m ≫= f).
Proof. by destruct m; simpl. Qed.

Ltac late_step :=
  match goal with
  | |- late_error (Ok _) => exact I
  | |- late_error (let '(_, _) := ?x in _) => destruct x
  | |- late_error (next_part _) => apply late_next_part
  | |- late_error (parse_id _) => apply late_parse_id
  | |- late_error (ok_or _ ?o) => by destruct o
  | |- late_error (mbind _ _) => apply late_bind; [|intros ?]
  | |- late_error (if ?b then _ else _) => destruct b
  end.

Lemma from_uri_late s : head (split ":" s) = Some "spotify" -> late_error (from_uri s).
Proof.
  intros H. unfold from_uri. destruct (split ":" s) as [|scheme parts]; [done|]. simpl in H. injection H as ->.
  cbn [mbind res_bind next_part String.eqb Ascii.eqb Bool.eqb negb]. repeat late_step.
Qed.

Lemma from_uri_foreign s : head (split ":" s) <> Some "spotify" -> from_uri s = Err (UriError UriInvalidRoot).
Proof.
  intros H. unfold from_uri. destruct (split ":" s) as [|scheme parts] eqn:E; [by destruct (split_nonempty ":" s)|].
  cbn [mbind res_bind next_part]. destruct (String.eqb_spec scheme "spotify") as [->|]; [done|done].
Qed.

Lemma from_uri_not_panic s : from_uri s <> Panic.
Proof.
  destruct (decide (head (split ":" s) = Some "spotify")) as [H|H].
  - intros E. apply from_uri_late in H. by rewrite E in H.
  - by rewrite (from_uri_foreign s H).
Qed.

(** ** Properties *)

(** Printing a URI and parsing it back gives the URI, with the type of an unknown item
    replaced by [unknown]; the printed text exists for every well-formed URI. *)
Theorem uri_roundtrip (u : SpotifyUri) (H : parsed u) :
  exists s, to_uri u = Ok s /\ from_uri s = Ok (canonical u).
Proof. by apply from_to_uri. Qed.

(** Whatever text is parsed, the result prints, and the printed text parses to the same URI
    up to the type of an unknown item: one round of normalisation reaches a fixed point. *)
Theorem uri_reparse (src : string) (u : SpotifyUri) (H : from_uri src = Ok u) :
  exists s, to_uri u = Ok s /\ from_uri s = Ok (canonical u) /\ to_uri (canonical u) = Ok s.
Proof.
  apply from_uri_parsed in H. destruct (from_to_uri u H) as (s & Hs & Hf). exists s.
  split_and!; [done|done|]. by destruct u.
Qed.

(** Parsing never panics, and it reports a foreign root exactly when the text before the
    first colon is not [spotify]. *)
Theorem from_uri_errors (src : string) :
  from_uri src <> Panic /\
  (from_uri src = Err (UriError UriInvalidRoot) <-> head (split ":" src) <> Some "spotify").
Proof.
  split; [apply from_uri_not_panic|]. split.
  - intros E H. apply from_uri_late in H. by rewrite E in H.
  - apply from_uri_foreign.
Qed.

(** ** Witnesses *)

Lemma uri_roundtrip_witness :
  exists s, to_uri ex_local = Ok s /\ from_uri s = Ok ex_local /\
    s = "spotify:local:David Wise:Donkey Kong:Snomads Island:127".
Proof.
  destruct (uri_roundtrip ex_local) as (s & Hs & Hf); [repeat split; by vm_compute|].
  exists s. split_and!; [done|done|]. vm_compute in Hs. by injection Hs.
Defined.

Lemma uri_reparse_witness :
  exists s, to_uri (Unknown "station" "abc") = Ok s /\ from_uri s = Ok (Unknown "unknown" "abc") /\
    to_uri (Unknown "unknown" "abc") = Ok s.
Proof. apply (uri_reparse "spotify:station:abc:def" (Unknown "station" "abc")). vm_compute. reflexivity. Defined.
