(* ===== verification/RangeSet.v ===== *)
(** * Byte-range sets ([native/librespot/audio/src/range_set.rs])

    [RangeSet] keeps the requested and the downloaded parts of an audio file as a vector
    of disjoint ranges.  The model keeps the vector as a list in the same order; a [for]
    loop over indices that edits the vector at the current index is a recursion over the
    remaining suffix, and the inner [while] loops are recursions of their own.

    The invariant [wf] is the normal form: ascending, non-empty, non-touching ranges whose
    ends do not overflow.  The theorems show that every operation preserves it and computes
    the set operation it is named after, that two normal forms of one set are equal, and
    that [len] is the cardinality. *)
From S2P Require Import Prelude.

(** ** Data *)

Record Range := mkRange { range_start : Z; range_length : Z }.

Definition range_new (start length : Z) : Range := mkRange start length.

Definition range_end (r : Range) : Z := usize_add (range_start r) (range_length r).

Definition RangeSet := list Range.

(** ** Queries *)

Definition rs_new : RangeSet := [].

Definition rs_is_empty (s : RangeSet) : bool :=
  match s with [] => true | _ => false end.

(** [iter().map(|r| r.length).sum()] *)
Definition rs_len (s : RangeSet) : Z :=
  fold_left (fun acc r => usize_add acc (range_length r)) s 0.

(** Indexing panics out of bounds. *)
Definition get_range (s : RangeSet) (index : nat) : res unit Range :=
  match s !! index with Some r => Ok r | None => Panic end.

Fixpoint contains (s : RangeSet) (value : Z) : bool :=
  match s with
  | [] => false
  | range :: rest =>
      if value <? range_start range then false
      else if (range_start range <=? value) && (value <? range_end range) then true
      else contains rest value
  end.

Fixpoint contained_length_from_value (s : RangeSet) (value : Z) : Z :=
  match s with
  | [] => 0
  | range :: rest =>
      if value <? range_start range then 0
      else if (range_start range <=? value) && (value <? range_end range)
      then usize_sub (range_end range) value
      else contained_length_from_value rest value
  end.

Fixpoint contains_range_set (s other : RangeSet) : bool :=
  match other with
  | [] => true
  | range :: rest =>
      if contained_length_from_value s (range_start range) <? range_length range
      then false
      else contains_range_set s rest
  end.

(** ** Insertion *)

(** The [while] loop of [add_range]: absorb every following range that starts at or
    before the end of the merged one. *)
Fixpoint merge_following (new_range : Range) (s : RangeSet) : Range * RangeSet :=
  match s with
  | [] => (new_range, [])
  | r :: rest =>
      if range_start r <=? range_end new_range then
        let new_end := Z.max (range_end new_range) (range_end r) in
        let new_start := Z.min (range_start new_range) (range_start r) in
        merge_following (mkRange new_start (usize_sub new_end new_start)) rest
      else (new_range, s)
  end.

Fixpoint add_range_loop (s : RangeSet) (range : Range) : RangeSet :=
  match s with
  | [] => [range]
  | r :: rest =>
      if range_end range <? range_start r then range :: s
      else if (range_start range <=? range_end r) && (range_start r <=? range_end range) then
        let '(new_range, rest') := merge_following range s in new_range :: rest'
      else r :: add_range_loop rest range
  end.

Definition add_range (s : RangeSet) (range : Range) : RangeSet :=
  if range_length range =? 0 then s else add_range_loop s range.

Definition add_range_set (s other : RangeSet) : RangeSet := fold_left add_range other s.

Definition rs_union (s other : RangeSet) : RangeSet := add_range_set s other.

(** ** Removal *)

(** The [while] loop of [subtract_range]: remove the ranges that end within the
    subtracted one. *)
Fixpoint drop_covered (s : RangeSet) (e : Z) : RangeSet :=
  match s with
  | [] => []
  | r :: rest => if range_end r <=? e then drop_covered rest e else s
  end.

(** Cut the beginning of the first range that is left, if it starts before [e]. *)
Definition trim_first (s : RangeSet) (e : Z) : RangeSet :=
  match s with
  | [] => []
  | r :: rest =>
      if range_start r <? e
      then mkRange e (usize_sub (range_length r) (usize_sub e (range_start r))) :: rest
      else s
  end.

Fixpoint subtract_range_loop (s : RangeSet) (range : Range) : RangeSet :=
  match s with
  | [] => []
  | r :: rest =>
      if range_end range <=? range_start r then s
      else if (range_start range <=? range_start r) && (range_start r <? range_end range) then
        trim_first (drop_covered s (range_end range)) (range_end range)
      else if range_end range <? range_end r then
        mkRange (range_start r) (usize_sub (range_start range) (range_start r))
        :: mkRange (range_end range)
             (usize_sub (range_length r) (usize_sub (range_end range) (range_start r)))
        :: rest
      else if range_start range <? range_end r then
        mkRange (range_start r) (usize_sub (range_start range) (range_start r))
        :: subtract_range_loop rest range
      else r :: subtract_range_loop rest range
  end.

Definition subtract_range (s : RangeSet) (range : Range) : RangeSet :=
  if range_length range =? 0 then s else subtract_range_loop s range.

Definition subtract_range_set (s other : RangeSet) : RangeSet :=
  fold_left subtract_range other s.

Definition minus (s other : RangeSet) : RangeSet := subtract_range_set s other.

(** ** Intersection

    The [while] loop advances one of the two indices in every iteration, so the sum of
    the two lengths bounds the iterations. *)
Fixpoint intersection_loop (fuel : nat) (a b result : RangeSet) : RangeSet :=
  match fuel with
  | O => result
  | S fuel =>
      match a, b with
      | ra :: a', rb :: b' =>
          if range_end ra <=? range_start rb then intersection_loop fuel a' b result
          else if range_end rb <=? range_start ra then intersection_loop fuel a b' result
          else
            let new_start := Z.max (range_start ra) (range_start rb) in
            let new_end := Z.min (range_end ra) (range_end rb) in
            let result := add_range result (range_new new_start (usize_sub new_end new_start)) in
            if range_end ra <=? range_end rb
            then intersection_loop fuel a' b result
            else intersection_loop fuel a b' result
      | _, _ => result
      end
  end.

Definition intersection (s other : RangeSet) : RangeSet :=
  intersection_loop (length s + length other) s other rs_new.

(** ** Invariant and meaning *)

(** A range of at least one byte whose end is a [usize]. *)
Definition range_ok (r : Range) : Prop :=
  0 <= range_start r /\ 0 < range_length r /\ range_start r + range_length r <= usize_max.

(** A range as callers build it: possibly empty. *)
Definition range_fits (r : Range) : Prop :=
  0 <= range_start r /\ 0 <= range_length r /\ range_start r + range_length r <= usize_max.

Fixpoint wf_from (lo : Z) (s : RangeSet) : Prop :=
  match s with
  | [] => True
  | r :: rest =>
      lo <= range_start r /\ range_ok r /\ wf_from (range_start r + range_length r + 1) rest
  end.

Definition wf (s : RangeSet) : Prop := wf_from 0 s.

Definition in_range (x : Z) (r : Range) : Prop :=
  range_start r <= x < range_start r + range_length r.

Definition mem (x : Z) (s : RangeSet) : Prop := Exists (in_range x) s.

Fixpoint wf_fromb (lo : Z) (s : RangeSet) : bool :=
  match s with
  | [] => true
  | r :: rest =>
      (lo <=? range_start r) && (0 <=? range_start r) && (0 <? range_length r)
      && (range_start r + range_length r <=? usize_max)
      && wf_fromb (range_start r + range_length r + 1) rest
  end.

(** The members of a range set, as a list. *)
Definition members (s : RangeSet) : list Z :=
  s ≫= fun r => seqZ (range_start r) (range_length r).

(** Sample sets used by the witnesses. *)
Definition ex_downloaded : RangeSet := [mkRange 0 65536; mkRange 131072 4096].
Definition ex_requested : RangeSet := [mkRange 1000 100; mkRange 131000 200; mkRange 262144 10].

(** ** Lemmas *)

Lemma wf_fromb_sound lo s : wf_fromb lo s = true -> wf_from lo s.
Proof.
  revert lo; induction s as [|r s IH]; intros lo H; simpl in *; [done|].
  bool_to_prop. unfold range_ok. auto.
Qed.

Lemma range_end_ok r : range_ok r -> range_end r = range_start r + range_length r.
Proof. intros (? & ? & ?). unfold range_end. autorewrite with machine. done. Qed.

Lemma range_fits_end r : range_fits r -> range_end r = range_start r + range_length r.
Proof. intros (? & ? & ?). unfold range_end. autorewrite with machine. done. Qed.

Lemma wf_from_weaken lo lo' s : lo' <= lo -> wf_from lo s -> wf_from lo' s.
Proof. destruct s; simpl; intuition lia. Qed.

Lemma mem_cons x r s : mem x (r :: s) <-> in_range x r \/ mem x s.
Proof. apply Exists_cons. Qed.

Lemma mem_nil x : mem x [] <-> False.
Proof. apply Exists_nil. Qed.

Lemma mem_lower lo s x : wf_from lo s -> mem x s -> lo <= x.
Proof.
  revert lo; induction s as [|r s IH]; intros lo Hwf; simpl in *.
  - by rewrite mem_nil.
  - rewrite mem_cons. destruct Hwf as (? & (?&?&?) & Hs). intros [[? ?]|Hm]; [lia|].
    specialize (IH _ Hs Hm). lia.
Qed.

(** Unfold a well-formed cons and replace every [range_end] by the sum it is. *)
Ltac open_wf :=
  repeat match goal with
  | H : wf_from _ (_ :: _) |- _ => destruct H as (? & ? & ?)
  | H : range_ok ?r |- _ =>
      lazymatch goal with
      | _ : range_end r = _ |- _ => fail
      | _ => pose proof (range_end_ok r H)
      end
  end.

Lemma usize_sub_sub a e s :
  0 <= e - s <= usize_max -> 0 <= a - (e - s) <= usize_max ->
  usize_sub a (usize_sub e s) = a - (e - s).
Proof. intros. by rewrite (usize_sub_small e s), usize_sub_small. Qed.

(** Close an arithmetic goal about membership in a few ranges. *)
Ltac solve_ranges :=
  unfold in_range, range_ok, range_fits in *; simpl in *;
  repeat match goal with H : _ /\ _ |- _ => destruct H end;
  repeat match goal with E : range_end _ = _ |- _ => rewrite E in * end;
  autorewrite with machine; intuition (try lia).

Lemma contains_from_spec lo s x : wf_from lo s -> contains s x = true <-> mem x s.
Proof.
  revert lo; induction s as [|r s IH]; intros lo Hwf; simpl.
  - by rewrite mem_nil.
  - rewrite mem_cons. open_wf. specialize (IH _ H1).
    pose proof (mem_lower _ _ x H1) as Hlow.
    repeat case_if; solve_ranges.
Qed.

(** The value is not in the set: length 0; otherwise the run starting at the value. *)
Lemma contained_length_not_mem lo s v :
  wf_from lo s -> ~ mem v s -> contained_length_from_value s v = 0.
Proof.
  revert lo; induction s as [|r s IH]; intros lo Hwf Hn; simpl; [done|].
  rewrite mem_cons in Hn. open_wf.
  repeat case_if; [done| solve_ranges | eapply IH; eauto].
Qed.

Lemma contained_length_mem lo s v :
  wf_from lo s -> mem v s ->
  exists r, r ∈ s /\ in_range v r /\
    contained_length_from_value s v = range_start r + range_length r - v.
Proof.
  revert lo; induction s as [|r s IH]; intros lo Hwf Hm; simpl.
  - by rewrite mem_nil in Hm.
  - rewrite mem_cons in Hm. open_wf.
    pose proof (mem_lower _ _ v H1) as Hlow.
    repeat case_if.
    + exfalso. solve_ranges.
    + exists r. split; [apply list_elem_of_here|]. solve_ranges.
    + destruct Hm as [Hm|Hm]; [exfalso; solve_ranges|].
      destruct (IH _ H1 Hm) as (r' & ? & ? & ->). exists r'.
      split; [by apply list_elem_of_further|done].
Qed.

Lemma wf_elem_ok lo s r : wf_from lo s -> r ∈ s -> range_ok r /\ lo <= range_start r.
Proof.
  revert lo; induction s as [|r0 s IH]; intros lo Hwf Hin; [by inversion Hin|].
  open_wf. apply elem_of_cons in Hin as [->|Hin]; [done|].
  destruct (IH _ H1 Hin). solve_ranges.
Qed.

(** A member range of a normal form ends in a gap. *)
Lemma wf_range_gap lo s r :
  wf_from lo s -> r ∈ s -> ~ mem (range_start r + range_length r) s.
Proof.
  revert lo; induction s as [|r0 s IH]; intros lo Hwf Hin; [by inversion Hin|].
  open_wf. rewrite mem_cons.
  apply elem_of_cons in Hin as [->|Hin]; intros [Hm|Hm].
  - solve_ranges.
  - apply (mem_lower _ _ _ H1) in Hm. lia.
  - destruct (wf_elem_ok _ _ _ H1 Hin). solve_ranges.
  - by eapply IH.
Qed.

Lemma merge_following_spec lo nr s :
  range_ok nr -> wf_from lo s ->
  (forall r, head s = Some r -> range_start nr <= range_start r + range_length r) ->
  let '(nr', rest) := merge_following nr s in
  range_ok nr' /\ Z.min lo (range_start nr) <= range_start nr' /\
  wf_from (range_start nr' + range_length nr' + 1) rest /\
  (forall x, mem x (nr' :: rest) <-> in_range x nr \/ mem x s).
Proof.
  revert lo nr; induction s as [|r s IH]; intros lo nr Hnr Hwf Hhd; simpl.
  - setoid_rewrite mem_cons. split_and!; [done|lia|done|done].
  - specialize (Hhd r eq_refl). open_wf. case_if.
    + set (nr1 := mkRange _ _).
      assert (range_ok nr1) as Hnr1 by (subst nr1; solve_ranges).
      specialize (IH (range_start r + range_length r + 1) nr1 Hnr1 H1).
      destruct (merge_following nr1 s) as [nr' rest].
      destruct IH as (? & ? & ? & Hmem).
      { intros r' Hr'. destruct s; simplify_eq/=. subst nr1. solve_ranges. }
      split_and!; [done| subst nr1; solve_ranges |done|].
      intros x. rewrite Hmem, mem_cons. subst nr1. solve_ranges.
    + split_and!; [done|lia| |by intros; rewrite mem_cons].
      simpl. split_and!; [solve_ranges|done|done].
Qed.

Lemma add_range_loop_spec lo s range :
  range_ok range -> lo <= range_start range -> wf_from lo s ->
  wf_from lo (add_range_loop s range) /\
  (forall x, mem x (add_range_loop s range) <-> mem x s \/ in_range x range).
Proof.
  revert lo; induction s as [|r s IH]; intros lo Hr Hlo Hwf; cbn [add_range_loop].
  - split; [done|]. intros x. rewrite mem_cons. tauto.
  - pose proof (merge_following_spec lo range (r :: s) Hr Hwf) as Hm.
    open_wf. repeat case_if.
    + split; [|intros x; rewrite !mem_cons; tauto].
      simpl. split_and!; solve_ranges.
    + destruct (merge_following range (r :: s)) as [nr' rest].
      destruct Hm as (? & ? & ? & Hmem); [intros ? [= <-]; solve_ranges|].
      split; [simpl; split_and!; [lia|done|done]|].
      intros x. rewrite Hmem. tauto.
    + destruct (IH (range_start r + range_length r + 1) Hr) as [Hwf1 Hmem]; [solve_ranges|done|].
      split; [simpl; split_and!; done|].
      intros x. rewrite !mem_cons, Hmem. tauto.
Qed.

Lemma add_range_from lo s range :
  range_fits range -> lo <= range_start range -> wf_from lo s ->
  wf_from lo (add_range s range) /\
  (forall x, mem x (add_range s range) <-> mem x s \/ in_range x range).
Proof.
  intros (? & ? & ?) Hlo Hwf. unfold add_range. case_if.
  - split; [done|]. intros x. unfold in_range. intuition lia.
  - apply add_range_loop_spec; [solve_ranges|done|done].
Qed.

Lemma drop_covered_spec lo s e :
  wf_from lo s ->
  wf_from lo (drop_covered s e) /\
  (forall r, head (drop_covered s e) = Some r -> e < range_start r + range_length r) /\
  (forall x, e <= x -> mem x (drop_covered s e) <-> mem x s).
Proof.
  revert lo; induction s as [|r s IH]; intros lo Hwf; simpl; [done|].
  open_wf. case_if.
  - destruct (IH _ H1) as (Hw & Hhd & Hmem). split_and!; [|done|].
    + eapply wf_from_weaken; [|done]. solve_ranges.
    + intros x Hx. rewrite Hmem by done. rewrite mem_cons. solve_ranges.
  - split_and!; [by simpl| |done]. intros ? [= <-]. solve_ranges.
Qed.

Lemma trim_first_spec lo s e :
  wf_from lo s -> lo <= e ->
  (forall r, head s = Some r -> e < range_start r + range_length r) ->
  wf_from e (trim_first s e) /\
  (forall x, mem x (trim_first s e) <-> mem x s /\ e <= x).
Proof.
  destruct s as [|r s]; intros Hwf Hlo Hhd; simpl.
  { split; [done|]. intros x. rewrite mem_nil. tauto. }
  specialize (Hhd r eq_refl). open_wf.
  pose proof (fun x => mem_lower _ _ x H1) as Hlow. case_if.
  - assert (usize_sub (range_length r) (usize_sub e (range_start r))
            = range_start r + range_length r - e) as -> by (rewrite usize_sub_sub; solve_ranges).
    split; [simpl; split_and!; [lia|solve_ranges|]; by replace (e + _ + 1) with (range_start r + range_length r + 1) by lia|].
    intros x. rewrite !mem_cons. specialize (Hlow x). solve_ranges.
  - split; [simpl; split_and!; [lia|done|done]|].
    intros x. rewrite !mem_cons. specialize (Hlow x). solve_ranges.
Qed.

Lemma subtract_range_loop_spec lo s range :
  range_ok range -> wf_from lo s ->
  wf_from lo (subtract_range_loop s range) /\
  (forall x, mem x (subtract_range_loop s range) <-> mem x s /\ ~ in_range x range).
Proof.
  revert lo; induction s as [|r s IH]; intros lo Hr Hwf; cbn [subtract_range_loop].
  { split; [done|]. intros x. rewrite mem_nil. tauto. }
  open_wf. pose proof (fun x => mem_lower _ _ x H1) as Hlow.
  assert (forall x, mem x (r :: s) -> range_start r <= x) as Hlow'.
  { intros x. rewrite mem_cons. specialize (Hlow x). solve_ranges. }
  repeat case_if.
  - split; [by simpl|]. intros x. specialize (Hlow' x). solve_ranges.
  - destruct (drop_covered_spec (range_start r) (r :: s) (range_end range)) as (Hw & Hhd & Hmem).
    { simpl. split_and!; [lia|done|done]. }
    destruct (trim_first_spec (range_start r) (drop_covered (r :: s) (range_end range)) (range_end range))
      as [Hw' Hmem']; [done|solve_ranges|done|].
    split; [eapply wf_from_weaken; [|exact Hw']; solve_ranges|].
    intros x. rewrite Hmem'. specialize (Hlow' x). split.
    + intros [Hx ?]. apply Hmem in Hx; [|done]. solve_ranges.
    + intros [Hx ?]. assert (range_end range <= x) by solve_ranges.
      split; [by apply Hmem|done].
  - assert (usize_sub (range_length r) (usize_sub (range_end range) (range_start r))
            = range_start r + range_length r - range_end range) as -> by (rewrite usize_sub_sub; solve_ranges).
    rewrite (usize_sub_small (range_start range)) by solve_ranges.
    split.
    + simpl. split_and!; [lia|solve_ranges|solve_ranges|solve_ranges|].
      by replace (range_end range + _ + 1) with (range_start r + range_length r + 1) by lia.
    + intros x. rewrite !mem_cons. specialize (Hlow x). solve_ranges.
  - rewrite (usize_sub_small (range_start range)) by solve_ranges.
    destruct (IH (range_start r + range_length r + 1) Hr H1) as [Hw Hmem]. split.
    + simpl. split_and!; [lia|solve_ranges|]. eapply wf_from_weaken; [|done]. solve_ranges.
    + intros x. rewrite !mem_cons, Hmem. specialize (Hlow x). solve_ranges.
  - destruct (IH (range_start r + range_length r + 1) Hr H1) as [Hw Hmem].
    split; [simpl; split_and!; done|].
    intros x. rewrite !mem_cons, Hmem. solve_ranges.
Qed.

Lemma subtract_range_from lo s range :
  range_fits range -> wf_from lo s ->
  wf_from lo (subtract_range s range) /\
  (forall x, mem x (subtract_range s range) <-> mem x s /\ ~ in_range x range).
Proof.
  intros (? & ? & ?) Hwf. unfold subtract_range. case_if.
  - split; [done|]. intros x. unfold in_range. intuition lia.
  - apply subtract_range_loop_spec; [solve_ranges|done].
Qed.

Lemma wf_range_fits s r : wf s -> r ∈ s -> range_fits r.
Proof. intros Hwf Hin. destruct (wf_elem_ok _ _ _ Hwf Hin). solve_ranges. Qed.

(** Folding an operation over the ranges of a second set. *)
Lemma add_range_set_spec other s :
  Forall range_fits other -> wf s ->
  wf (add_range_set s other) /\ (forall x, mem x (add_range_set s other) <-> mem x s \/ mem x other).
Proof.
  unfold add_range_set. revert s; induction other as [|r other IH]; intros s Hf Hwf; simpl.
  - split; [done|]. intros x. rewrite mem_nil. tauto.
  - inversion Hf as [|? ? Hr Hf']; subst.
    destruct (add_range_from 0 s r Hr) as [Hw Hm]; [by destruct Hr|done|].
    destruct (IH (add_range s r) Hf' Hw) as [Hw' Hm']. split; [done|].
    intros x. rewrite Hm', Hm, mem_cons. tauto.
Qed.

Lemma subtract_range_set_spec other s :
  Forall range_fits other -> wf s ->
  wf (subtract_range_set s other) /\
  (forall x, mem x (subtract_range_set s other) <-> mem x s /\ ~ mem x other).
Proof.
  unfold subtract_range_set. revert s; induction other as [|r other IH]; intros s Hf Hwf; simpl.
  - split; [done|]. intros x. rewrite mem_nil. tauto.
  - inversion Hf as [|? ? Hr Hf']; subst.
    destruct (subtract_range_from 0 s r Hr Hwf) as [Hw Hm].
    destruct (IH (subtract_range s r) Hf' Hw) as [Hw' Hm']. split; [done|].
    intros x. rewrite Hm', Hm, mem_cons. tauto.
Qed.

Lemma wf_Forall_fits s : wf s -> Forall range_fits s.
Proof. intros Hwf. apply Forall_forall. intros r. by apply wf_range_fits. Qed.

Lemma intersection_loop_spec fuel la lb a b result :
  (length a + length b <= fuel)%nat ->
  wf_from la a -> wf_from lb b -> wf result ->
  wf (intersection_loop fuel a b result) /\
  (forall x, mem x (intersection_loop fuel a b result)
             <-> mem x result \/ (mem x a /\ mem x b)).
Proof.
  revert la lb a b result; induction fuel as [|fuel IH];
    intros la lb [|ra a] [|rb b] result Hfuel Ha Hb Hres; simpl in Hfuel; try lia;
    cbn [intersection_loop]; try (split; [done|]; intros x; rewrite ?mem_nil; tauto).
  destruct Ha as (Ha1 & Ha2 & Ha3), Hb as (Hb1 & Hb2 & Hb3).
  pose proof (range_end_ok ra Ha2). pose proof (range_end_ok rb Hb2).
  pose proof (fun x => mem_lower _ _ x Ha3) as Hla. pose proof (fun x => mem_lower _ _ x Hb3) as Hlb.
  assert (Hwa : wf_from la (ra :: a)) by done. assert (Hwb : wf_from lb (rb :: b)) by done.
  case_if; [|case_if].
  - destruct (IH _ _ a (rb :: b) result ltac:(simpl; lia) Ha3 Hwb Hres) as [Hw Hm].
    split; [done|]. intros x. rewrite Hm, !mem_cons. specialize (Hla x). specialize (Hlb x). solve_ranges.
  - destruct (IH _ _ (ra :: a) b result ltac:(simpl; lia) Hwa Hb3 Hres) as [Hw Hm].
    split; [done|]. intros x. rewrite Hm, !mem_cons. specialize (Hla x). specialize (Hlb x). solve_ranges.
  - set (new := range_new _ _).
    assert (range_start new = Z.max (range_start ra) (range_start rb) /\
            range_length new = Z.min (range_end ra) (range_end rb) - range_start new) as [Hs Hl].
    { subst new. unfold range_new. simpl. split; [done|]. rewrite usize_sub_small; solve_ranges. }
    assert (range_fits new) as Hnew by (clearbody new; solve_ranges).
    destruct (add_range_from 0 result new Hnew) as [Hw0 Hm0]; [by destruct Hnew|done|].
    case_if.
    + destruct (IH _ _ a (rb :: b) _ ltac:(simpl; lia) Ha3 Hwb Hw0) as [Hw Hm].
      split; [done|]. intros x. rewrite Hm, Hm0, !mem_cons.
      specialize (Hla x). specialize (Hlb x). clearbody new. solve_ranges.
    + destruct (IH _ _ (ra :: a) b _ ltac:(simpl; lia) Hwa Hb3 Hw0) as [Hw Hm].
      split; [done|]. intros x. rewrite Hm, Hm0, !mem_cons.
      specialize (Hla x). specialize (Hlb x). clearbody new. solve_ranges.
Qed.

(** The normal form of a set is unique. *)
Lemma wf_from_canonical lo lo' s1 s2 :
  wf_from lo s1 -> wf_from lo' s2 -> (forall x, mem x s1 <-> mem x s2) -> s1 = s2.
Proof.
  revert lo lo' s2; induction s1 as [|[a n] s1 IH]; intros lo lo' [|[b m] s2] H1 H2 Hm; [done|..].
  1: exfalso; destruct H2 as (_ & (?&?&?) & _); simpl in *; apply (mem_nil b), Hm, mem_cons; left; unfold in_range; simpl; lia.
  1: exfalso; destruct H1 as (_ & (?&?&?) & _); simpl in *; apply (mem_nil a), Hm, mem_cons; left; unfold in_range; simpl; lia.
  pose proof (wf_range_gap _ _ _ H1 (list_elem_of_here _ _)) as Hg1.
  pose proof (wf_range_gap _ _ _ H2 (list_elem_of_here _ _)) as Hg2.
  destruct H1 as (? & (?&?&?) & Hs1), H2 as (? & (?&?&?) & Hs2); simpl in *.
  pose proof (fun x => mem_lower _ _ x Hs1) as Hl1. pose proof (fun x => mem_lower _ _ x Hs2) as Hl2.
  setoid_rewrite mem_cons in Hm. rewrite mem_cons in Hg1, Hg2. unfold in_range in *; simpl in *.
  assert (a = b) as <-.
  { destruct (proj1 (Hm a)) as [?|?%Hl2]; [left; lia|..];
      destruct (proj2 (Hm b)) as [?|?%Hl1]; try (left; lia); lia. }
  assert (n = m) as <-.
  { destruct (Z.lt_total n m) as [?|[?|?]]; [exfalso|done|exfalso].
    - apply Hg1, Hm. left; lia.
    - apply Hg2, Hm. left; lia. }
  f_equal. eapply IH; [done|done|]. intros x. split; intros Hx.
  - destruct (proj1 (Hm x)) as [?|?]; [by right| |done]. apply Hl1 in Hx; lia.
  - destruct (proj2 (Hm x)) as [?|?]; [by right| |done]. apply Hl2 in Hx; lia.
Qed.

Lemma elem_of_members s x : x ∈ members s <-> mem x s.
Proof.
  induction s as [|r s IH]; unfold members in *; simpl.
  - rewrite mem_nil. by rewrite elem_of_nil.
  - rewrite elem_of_app, elem_of_seqZ, mem_cons, <- IH. done.
Qed.

Lemma members_NoDup lo s : wf_from lo s -> NoDup (members s).
Proof.
  revert lo; induction s as [|r s IH]; intros lo Hwf; [constructor|].
  destruct Hwf as (? & ? & Hs). unfold members; simpl. apply NoDup_app. split_and!.
  - apply NoDup_seqZ.
  - intros x Hx%elem_of_seqZ Hx'. apply elem_of_members, (mem_lower _ _ _ Hs) in Hx'. lia.
  - by eapply IH.
Qed.

Lemma rs_len_members lo s acc :
  wf_from lo s -> 0 <= acc <= lo ->
  fold_left (fun acc r => usize_add acc (range_length r)) s acc = acc + Z.of_nat (length (members s)).
Proof.
  revert lo acc; induction s as [|r s IH]; intros lo acc Hwf Hacc; simpl; [lia|].
  destruct Hwf as (? & (? & ? & ?) & Hs). rewrite usize_add_small by lia.
  erewrite IH; [|exact Hs|lia]. unfold members; simpl. rewrite length_app, length_seqZ. lia.
Qed.

Lemma contained_length_maximal s v : wf s ->
  let n := contained_length_from_value s v in
  0 <= n /\ (forall x, v <= x < v + n -> mem x s) /\ ~ mem (v + n) s.
Proof.
  intros Hwf.   destruct (contains s v) eqn:Hc.
  - apply (contains_from_spec 0) in Hc; [|done].
    destruct (contained_length_mem _ _ _ Hwf Hc) as (r & Hr & Hin & ->).
    split; [unfold in_range in Hin; lia|]. split.
    + intros x Hx. apply Exists_exists. exists r. split; [done|]. unfold in_range in *. lia.
    + replace (v + (_ - v)) with (range_start r + range_length r) by lia. by eapply wf_range_gap.
  - assert (~ mem v s) as Hn by (rewrite <- (contains_from_spec 0) by done; congruence).
    cbv zeta. rewrite (contained_length_not_mem 0) by done.
    rewrite Z.add_0_r. split_and!; [lia|intros; lia|done].
Qed.

(** ** Properties *)

(** [contains] decides membership of a well-formed set: its early return on the first
    range that starts after the value never misses a later range. *)
Theorem rs_contains_spec (s : RangeSet) (v : Z) (Hwf : wf s) :
  contains s v = true <-> mem v s.
Proof. by apply (contains_from_spec 0). Qed.

(** [contained_length_from_value] is the length of the maximal run of the set that starts
    at the value: every byte of the run is in the set and the byte after it is not. *)
Theorem rs_contained_length_maximal (s : RangeSet) (v : Z) (Hwf : wf s) :
  let n := contained_length_from_value s v in
  0 <= n /\ (forall x, v <= x < v + n -> mem x s) /\ ~ mem (v + n) s.
Proof. by apply contained_length_maximal. Qed.

(** C13: [add_range] keeps the normal form and adds exactly the bytes of the range. *)
Theorem rs_add_range_correct (s : RangeSet) (range : Range) (Hwf : wf s) (Hr : range_fits range) :
  wf (add_range s range) /\
  (forall x, mem x (add_range s range) <-> mem x s \/ in_range x range).
Proof. apply add_range_from; [done|by destruct Hr|done]. Qed.

(** [subtract_range] keeps the normal form and removes exactly the bytes of the range,
    through the hole-punching, the truncating and the multi-range branch. *)
Theorem rs_subtract_range_correct (s : RangeSet) (range : Range) (Hwf : wf s) (Hr : range_fits range) :
  wf (subtract_range s range) /\
  (forall x, mem x (subtract_range s range) <-> mem x s /\ ~ in_range x range).
Proof. by apply subtract_range_from. Qed.

(** [union], [minus] and [intersection] are the set operations on normal forms, and the
    two-index loop of [intersection] has finished when its bound on iterations is reached. *)
Theorem rs_set_algebra (s other : RangeSet) (Hs : wf s) (Ho : wf other) (x : Z) :
  (wf (rs_union s other) /\ (mem x (rs_union s other) <-> mem x s \/ mem x other)) /\
  (wf (minus s other) /\ (mem x (minus s other) <-> mem x s /\ ~ mem x other)) /\
  (wf (intersection s other) /\ (mem x (intersection s other) <-> mem x s /\ mem x other)).
Proof.
  destruct (add_range_set_spec other s (wf_Forall_fits _ Ho) Hs) as [? Hu].
  destruct (subtract_range_set_spec other s (wf_Forall_fits _ Ho) Hs) as [? Hm].
  destruct (intersection_loop_spec (length s + length other) 0 0 s other rs_new) as [? Hi]; [lia|done..|].
  unfold rs_union, minus, intersection. split_and!; [done|apply Hu|done|apply Hm|done|].
  rewrite Hi. unfold rs_new. rewrite mem_nil. tauto.
Qed.

(** The normal form is canonical, and [len] (the pending-byte count of the fetcher) is the
    number of bytes in the set. *)
Theorem rs_canonical_and_len (s other : RangeSet) (Hs : wf s) (Ho : wf other)
    (Heq : forall x, mem x s <-> mem x other) :
  s = other /\ rs_len s = Z.of_nat (size (list_to_set (members other) : gset Z)).
Proof.
  assert (s = other) as -> by by eapply wf_from_canonical.
  split; [done|]. rewrite size_list_to_set by by eapply members_NoDup.
  unfold rs_len. by rewrite (rs_len_members 0).
Qed.

(** [contains_range_set] decides inclusion. *)
Theorem rs_contains_range_set_spec (s other : RangeSet) (Hs : wf s) (Ho : wf other) :
  contains_range_set s other = true <-> (forall x, mem x other -> mem x s).
Proof.
  pose proof (wf_Forall_fits _ Ho) as Hf. assert (Forall (fun r => 0 < range_length r) other) as Hpos.
  { apply Forall_forall. intros r Hr. by destruct (wf_elem_ok _ _ _ Ho Hr) as [(?&?&?) ?]. }
  clear Ho. induction other as [|r other IH]; cbn [contains_range_set].
  { split; [intros _ x Hx; by apply mem_nil in Hx|done]. }
  inversion Hf; inversion Hpos; subst. setoid_rewrite mem_cons.
  destruct (contained_length_maximal s (range_start r) Hs) as (Hn & Hrun & Hend). cbv zeta in *. case_if.
  - split; [done|]. intros Hsub. exfalso. apply Hend, Hsub. left. unfold in_range. lia.
  - rewrite IH by done. split; [|naive_solver].
    intros Hsub x [Hx|Hx]; [apply Hrun; unfold in_range in Hx; lia|by apply Hsub].
Qed.

(** ** Witnesses *)

Lemma rs_contains_spec_witness : wf ex_downloaded /\ mem 131080 ex_downloaded.
Proof.
  split; [by apply wf_fromb_sound|].
  apply (rs_contains_spec ex_downloaded 131080); [by apply wf_fromb_sound|reflexivity].
Defined.

Lemma rs_contained_length_maximal_witness :
  contained_length_from_value ex_downloaded 65000 = 536 /\ ~ mem 65536 ex_downloaded.
Proof.
  split; [reflexivity|].
  apply (rs_contained_length_maximal ex_downloaded 65000). by apply wf_fromb_sound.
Defined.

Lemma rs_add_range_correct_witness :
  add_range ex_downloaded (mkRange 65536 65536) = [mkRange 0 135168]
  /\ wf (add_range ex_downloaded (mkRange 65536 65536)).
Proof.
  split; [reflexivity|].
  apply (rs_add_range_correct ex_downloaded (mkRange 65536 65536));
    [by apply wf_fromb_sound|unfold range_fits; simpl; repeat split; by vm_compute].
Defined.

Lemma rs_subtract_range_correct_witness :
  subtract_range ex_downloaded (mkRange 100 131072)
    = [mkRange 0 100; mkRange 131172 3996]
  /\ wf (subtract_range ex_downloaded (mkRange 100 131072)).
Proof.
  split; [reflexivity|].
  apply (rs_subtract_range_correct ex_downloaded (mkRange 100 131072));
    [by apply wf_fromb_sound|unfold range_fits; simpl; repeat split; by vm_compute].
Defined.

Lemma rs_set_algebra_witness :
  intersection ex_downloaded ex_requested = [mkRange 1000 100; mkRange 131072 128]
  /\ mem 131073 (intersection ex_downloaded ex_requested).
Proof.
  split; [reflexivity|].
  apply (rs_set_algebra ex_downloaded ex_requested);
    [by apply wf_fromb_sound|by apply wf_fromb_sound|].
  split; apply (contains_from_spec 0); [by apply wf_fromb_sound|done|by apply wf_fromb_sound|done].
Defined.

Lemma rs_canonical_and_len_witness :
  rs_len ex_downloaded = Z.of_nat (size (list_to_set (members ex_downloaded) : gset Z)).
Proof.
  apply (rs_canonical_and_len ex_downloaded ex_downloaded);
    [by apply wf_fromb_sound|by apply wf_fromb_sound|done].
Defined.

Lemma rs_contains_range_set_spec_witness :
  contains_range_set ex_downloaded [mkRange 10 20] = true
  /\ (forall x, mem x [mkRange 10 20] -> mem x ex_downloaded).
Proof.
  split; [reflexivity|].
  apply (rs_contains_range_set_spec ex_downloaded [mkRange 10 20]);
    [by apply wf_fromb_sound|by apply wf_fromb_sound|reflexivity].
Defined.
