(* ===== verification/Streaming.v ===== *)
(** * Sequential audio reader ([native/librespot/audio/src/fetch/streaming.rs])

    The reader of the deployed build: a task fetches the file from the content server in chunks of
    64 KiB and sends them through a bounded queue, and [read] takes them out of it in order. The
    answers of the server are parameters of the model; [recv] blocks until an item arrives, so the
    queue is the list of the items the task will send, and its end is the dropped sender. *)
From S2P Require Import Prelude Text.

Definition CHUNK : Z := 64 * 1024.
Definition QUEUE : nat := 4.

(** ** The server *)

Inductive body_result := BodyOk (data : list Z) | BodyErr (e : string).

(** What a request yields: it cannot be made, there is no answer, an error, or an answer with its
    status code (and how it is printed), its [content-range] header and its body. *)
Inductive answer :=
| RequestErr (e : string)
| AnswerNone
| AnswerErr (e : string)
| Answer (status : Z) (shown : string) (content_range : option string) (body : body_result).

Definition PARTIAL_CONTENT : Z := 206.

(** ** Opening *)

Inductive OpenError := Request (e : string) | NoContentRange | UrlsFailed.

(** [v.rsplit('/').next()], parsed as [usize]. *)
Definition total_of (content_range : option string) : option Z :=
  v ← content_range; part ← last (split "/" v); parse_uint usize_bits part.

(** The first address that answers with partial content; [first url] is the answer to the request
    for its first chunk, a time-out being [AnswerNone]. *)
Fixpoint select (first : string -> answer) (urls : list string) : res OpenError (string * body_result * Z) :=
  match urls with
  | [] => Err UrlsFailed
  | url :: urls =>
      match first url with
      | RequestErr e => Err (Request e)
      | Answer status _ header body =>
          if status =? PARTIAL_CONTENT
          then total ← ok_or NoContentRange (total_of header); Ok (url, body, total)
          else select first urls
      | AnswerErr _ | AnswerNone => select first urls
      end
  end.

(** ** The task *)

Definition item := (list Z + string)%type.

(** The rest of a round once a body is there. A send that fails because the reader is gone ends the
    task, and nobody sees what it would have sent. *)
Definition send_body (b : body_result) (k : list Z -> list item) : list item :=
  match b with
  | BodyErr e => [inr e]
  | BodyOk [] => []
  | BodyOk data => inl data :: k data
  end.

(** [ask offset] is the answer to the request for the chunk at [offset]; [response] is the body of
    the answer that is already there. Every round that continues has received data, so a file of
    [total] bytes takes at most [total] rounds. *)
Fixpoint task (fuel : nat) (ask : Z -> answer) (total offset : Z) (response : option body_result) : list item :=
  match fuel with
  | O => []
  | S fuel =>
      let next (data : list Z) := task fuel ask total (usize_add offset (Z.of_nat (length data))) None in
      match response with
      | Some body => send_body body next
      | None =>
          if total <=? offset then []
          else
            match ask offset with
            | RequestErr e => [inr e]
            | AnswerNone => [inr "streaming CDN EOF"]
            | AnswerErr e => [inr e]
            | Answer status shown _ body =>
                if status =? PARTIAL_CONTENT then send_body body next
                else [inr (String.append "streaming CDN status " shown)]
            end
      end
  end.

(** ** The reader *)

Record SequentialAudio := mkSequentialAudio {
  rx : list item;
  current : option (list Z * nat);
  position_ : Z;
  file_size : Z
}.

Definition open (first : string -> answer) (ask : string -> Z -> answer) (urls : list string)
    : res OpenError SequentialAudio :=
  '(url, body, total) ← select first urls;
  Ok (mkSequentialAudio (task (S (S (Z.to_nat total))) (ask url) total 0 (Some body)) None 0 total).

Inductive ReadError := ReadFailed (e : string) | Unsupported.

(** Is the current chunk missing or used up? *)
Definition needs_chunk (s : SequentialAudio) : bool :=
  match current s with None => true | Some (data, pos) => (length data <=? pos)%nat end.

(** The copying half of a round; [want] bytes are missing in the output. *)
Definition copy_chunk (want : nat) (s : SequentialAudio) : res ReadError (list Z * SequentialAudio) :=
  match current s with
  | None => Panic
  | Some (data, pos) =>
      let n := Nat.min want (length data - pos) in
      bytes ← slice data pos (pos + n);
      Ok (bytes, mkSequentialAudio (rx s) (Some (data, pos + n)%nat) (wrap 64 (position_ s + Z.of_nat n)) (file_size s))
  end.

(** [while copied < out.len()]: the bytes copied so far come back with the state also when the read
    fails. A round takes a chunk from the queue or copies a byte, which bounds the rounds; running
    out of them is a panic. *)
Fixpoint read_loop (fuel : nat) (want : nat) (s : SequentialAudio)
    : res ReadError unit * list Z * SequentialAudio :=
  match fuel with
  | O => (Panic, [], s)
  | S fuel =>
      if (want =? 0)%nat then (Ok tt, [], s)
      else
        let go (s : SequentialAudio) :=
          match copy_chunk want s with
          | Ok (bytes, s) =>
              let '(r, more, s) := read_loop fuel (want - length bytes) s in (r, bytes ++ more, s)
          | Err e => (Err e, [], s)
          | Panic => (Panic, [], s)
          end in
        if needs_chunk s then
          match rx s with
          | [] => (Ok tt, [], s)
          | inl data :: rx => go (mkSequentialAudio rx (Some (data, O)) (position_ s) (file_size s))
          | inr e :: rx => (Err (ReadFailed e), [], mkSequentialAudio rx (current s) (position_ s) (file_size s))
          end
        else go s
  end.

Definition read_fuel (want : nat) (s : SequentialAudio) : nat := S (want + length (rx s)).

(** [read]: the bytes written to the front of a buffer of [len] bytes. *)
Definition read (len : nat) (s : SequentialAudio) : res ReadError (list Z) * SequentialAudio :=
  let '(r, copied, s) := read_loop (read_fuel len s) len s in
  (match r with Ok _ => Ok copied | Err e => Err e | Panic => Panic end, s).

Inductive SeekFrom := Start (pos : Z) | End_ (pos : Z) | Current (pos : Z).

Definition seek (pos : SeekFrom) (s : SequentialAudio) : res ReadError Z :=
  match pos with
  | Current z => if z =? 0 then Ok (position_ s) else Err Unsupported
  | _ => Err Unsupported
  end.

(** ** The queue between the task and the reader

    [sync_channel(QUEUE)]: a send blocks while [QUEUE] items wait, a receive while none does and the
    sender is alive. [todo] is what the task has still to send and [got] what was received. *)

Record pipe := mkPipe { todo : list item; queued : list item; got : list item }.

Inductive pipe_step : pipe -> pipe -> Prop :=
| pipe_send i t q g : (length q < QUEUE)%nat -> pipe_step (mkPipe (i :: t) q g) (mkPipe t (q ++ [i]) g)
| pipe_recv i t q g : pipe_step (mkPipe t (i :: q) g) (mkPipe t q (g ++ [i])).

(** ** Specification *)

(** The bytes still to be read when the items are chunks. *)
Definition chunks (l : list item) : list Z := concat (map (fun i => match i with inl d => d | inr _ => [] end) l).

Definition remaining (s : SequentialAudio) : list Z :=
  match current s with Some (data, pos) => drop pos data | None => [] end ++ chunks (rx s).

Definition all_data (l : list item) : Prop := Forall (fun i => match i with inl _ => True | inr _ => False end) l.

(** The position in the current chunk is within it. *)
Definition reader_ok (s : SequentialAudio) : Prop :=
  match current s with Some (data, pos) => (pos <= length data)%nat | None => True end.

(** A server that holds [file]: each request is answered with the next chunk. *)
Definition serves (file : list Z) (ask : Z -> answer) : Prop :=
  forall offset, 0 <= offset < Z.of_nat (length file) ->
    exists shown header, ask offset = Answer PARTIAL_CONTENT shown header
      (BodyOk (take (Z.to_nat CHUNK) (drop (Z.to_nat offset) file))).

(** What reading [want] bytes does to the reader. *)
Definition advanced (want : nat) (s : SequentialAudio) (copied : list Z) (s' : SequentialAudio) : Prop :=
  copied = take want (remaining s) /\ remaining s' = drop want (remaining s) /\ reader_ok s' /\ all_data (rx s') /\
  position_ s' = wrap 64 (position_ s + Z.of_nat (length copied)) /\ file_size s' = file_size s.

(** Reads with buffers of the given sizes. *)
Fixpoint reads (lens : list nat) (s : SequentialAudio) : res ReadError (list (list Z)) * SequentialAudio :=
  match lens with
  | [] => (Ok [], s)
  | len :: lens =>
      match read len s with
      | (Ok bs, s) =>
          let '(r, s) := reads lens s in
          (match r with Ok l => Ok (bs :: l) | Err e => Err e | Panic => Panic end, s)
      | (Err e, s) => (Err e, s)
      | (Panic, s) => (Panic, s)
      end
  end.

(** A server with a short file, behind an address that does not answer. *)
Definition ex_file : list Z := [79; 103; 103; 83; 0].
Definition ex_ask (offset : Z) : answer :=
  Answer PARTIAL_CONTENT "206 Partial Content" None (BodyOk (take (Z.to_nat CHUNK) (drop (Z.to_nat offset) ex_file))).
Definition ex_first (url : string) : answer :=
  if String.eqb url "dead" then AnswerErr "refused"
  else Answer PARTIAL_CONTENT "206 Partial Content" (Some "bytes 0-4/5") (BodyOk (take (Z.to_nat CHUNK) ex_file)).

(** ** Lemmas *)

Lemma chunks_cons d l : chunks (inl d :: l) = d ++ chunks l.
Proof. done. Qed.

Lemma wrap_wrap_add w a b : wrap w (wrap w a + b) = wrap w (a + b).
Proof. unfold wrap. apply Zplus_mod_idemp_l. Qed.

Lemma copy_chunk_ok want s data pos :
  current s = Some (data, pos) -> (pos <= length data)%nat ->
  copy_chunk want s =
    Ok (take want (drop pos data),
        mkSequentialAudio (rx s) (Some (data, pos + Nat.min want (length data - pos))%nat)
          (wrap 64 (position_ s + Z.of_nat (Nat.min want (length data - pos)))) (file_size s)).
Proof.
  intros Hc Hp. unfold copy_chunk. rewrite Hc. rewrite slice_ok by lia. cbn [mbind res_bind]. do 2 f_equal.
  replace (pos + Nat.min want (length data - pos) - pos)%nat with (Nat.min want (length data - pos)) by lia.
  destruct (decide (want <= length data - pos)%nat) as [Hle|Hgt]; [by rewrite Nat.min_l|].
  rewrite Nat.min_r by lia. rewrite !take_ge by (rewrite length_drop; lia). done.
Qed.

(** One round copies what there is of the current chunk and leaves the rest to the next. *)
Lemma copy_advances want s data pos :
  current s = Some (data, pos) -> (pos <= length data)%nat -> all_data (rx s) ->
  exists copied s', copy_chunk want s = Ok (copied, s') /\ rx s' = rx s /\ reader_ok s' /\
    copied = take want (drop pos data) /\
    remaining s' = drop (length copied) (remaining s) /\
    position_ s' = wrap 64 (position_ s + Z.of_nat (length copied)) /\ file_size s' = file_size s.
Proof.
  intros Hc Hp Hd. rewrite (copy_chunk_ok want s data pos Hc Hp). eexists _, _. split; [done|]. simpl.
  assert (length (take want (drop pos data)) = Nat.min want (length data - pos)) as Hlen
    by (rewrite length_take, length_drop; lia).
  rewrite Hlen. split_and!; try done; [unfold reader_ok; simpl; lia|]. unfold remaining. rewrite Hc. cbn [current rx].
  rewrite drop_app_le by (rewrite length_drop; lia). by rewrite drop_drop.
Qed.

(** Copying [b] and then reading the rest. *)
Lemma advanced_trans want s b s2 more s3 :
  (length b <= want)%nat -> b = take (length b) (remaining s) -> remaining s2 = drop (length b) (remaining s) ->
  position_ s2 = wrap 64 (position_ s + Z.of_nat (length b)) -> file_size s2 = file_size s ->
  advanced (want - length b) s2 more s3 -> advanced want s (b ++ more) s3.
Proof.
  intros Hw Hb Hr Hp Hf (Hm & Hr3 & Hok & Hd & Hp3 & Hf3). rewrite Hr in Hm, Hr3. split_and!; try done.
  - rewrite Hm. rewrite Hb at 1. rewrite take_take_drop. f_equal. lia.
  - rewrite Hr3, drop_drop. f_equal. lia.
  - rewrite Hp3, Hp, wrap_wrap_add, length_app. f_equal. lia.
  - by rewrite Hf3.
Qed.

(** A round on a current chunk, given that the rounds after it are correct. *)
Lemma round_advances fuel want s data pos :
  (forall want s, (want + length (rx s) < fuel)%nat -> reader_ok s -> all_data (rx s) -> fits 64 (position_ s) ->
    exists copied s', read_loop fuel want s = (Ok tt, copied, s') /\ advanced want s copied s') ->
  current s = Some (data, pos) -> (pos <= length data)%nat -> all_data (rx s) ->
  (want - Nat.min want (length data - pos) + length (rx s) < fuel)%nat ->
  exists copied s',
    (match copy_chunk want s with
     | Ok (bytes, s) => let '(r, more, s) := read_loop fuel (want - length bytes) s in (r, bytes ++ more, s)
     | Err e => (Err e, [], s)
     | Panic => (Panic, [], s)
     end) = (Ok tt, copied, s') /\ advanced want s copied s'.
Proof.
  intros IH Hc Hp Hd Hf.
  destruct (copy_advances want s data pos Hc Hp Hd) as (b & s2 & -> & Hrx & Hok2 & Hb & Hr2 & Hp2 & Hf2).
  assert (length b = Nat.min want (length data - pos)) as Hl by (rewrite Hb, length_take, length_drop; lia).
  destruct (IH (want - length b)%nat s2) as (more & s3 & -> & Hadv).
  - rewrite Hrx, Hl. lia.
  - done.
  - by rewrite Hrx.
  - rewrite Hp2. apply wrap_fits. lia.
  - exists (b ++ more), s3. split; [done|]. eapply advanced_trans; [lia| |done..].
    unfold remaining. rewrite Hc, Hl. rewrite take_app_le by (rewrite length_drop; lia).
    rewrite Hb. destruct (decide (want <= length data - pos)%nat); [by rewrite Nat.min_l|].
    rewrite Nat.min_r by lia. rewrite !take_ge by (rewrite length_drop; lia). done.
Qed.

Lemma needs_chunk_remaining s : needs_chunk s = true -> remaining s = chunks (rx s).
Proof.
  unfold needs_chunk, remaining. destruct (current s) as [[data pos]|]; [|done].
  intros H%Nat.leb_le. by rewrite drop_ge.
Qed.

Lemma read_loop_spec fuel want s :
  (want + length (rx s) < fuel)%nat -> reader_ok s -> all_data (rx s) -> fits 64 (position_ s) ->
  exists copied s', read_loop fuel want s = (Ok tt, copied, s') /\ advanced want s copied s'.
Proof.
  revert want s; induction fuel as [|fuel IH]; intros want s Hf Hok Hd Hpos; [lia|]. cbn [read_loop].
  destruct (Nat.eqb_spec want 0) as [->|Hw].
  { exists [], s. split; [done|]. split_and!; try done. simpl. rewrite Z.add_0_r. by rewrite wrap_small. }
  destruct (needs_chunk s) eqn:Hn.
  - apply needs_chunk_remaining in Hn. destruct (rx s) as [|[data|e] l] eqn:Hrx.
    + exists [], s. split; [done|]. unfold advanced. rewrite Hn, Hrx. change (chunks []) with (@nil Z).
      rewrite take_nil, drop_nil. cbn [length].
      split_and!; try done. rewrite Z.add_0_r. by rewrite wrap_small.
    + apply Forall_cons in Hd as [_ Hd].
      destruct (round_advances fuel want (mkSequentialAudio l (Some (data, O)) (position_ s) (file_size s)) data 0 IH)
        as (copied & s' & E & Hadv); [done|lia|done|simpl in *; lia|].
      exists copied, s'. split; [exact E|]. unfold advanced in *. by rewrite Hn.
    + apply Forall_cons in Hd as [[] _].
  - unfold needs_chunk, reader_ok in *. destruct (current s) as [[data pos]|] eqn:Hc; [|done].
    apply Nat.leb_gt in Hn. apply (round_advances fuel want s data pos IH Hc Hok Hd). lia.
Qed.

(** The task sends the file in chunks. *)
Lemma task_spec fuel file ask offset :
  serves file ask -> Z.of_nat (length file) < 2 ^ 32 -> (offset <= length file)%nat ->
  (length file - offset < fuel)%nat ->
  let items := task fuel ask (Z.of_nat (length file)) (Z.of_nat offset) None in
  all_data items /\ chunks items = drop offset file.
Proof.
  intros Hs Hlen. unfold serves in Hs. assert (0 < Z.to_nat CHUNK)%nat as HK by (unfold CHUNK; lia).
  revert Hs HK. generalize (Z.to_nat CHUNK) as K. intros K Hs HK.
  revert offset; induction fuel as [|fuel IH]; intros offset Ho Hf; [lia|]. cbn [task].
  case_if.
  { rewrite drop_ge by lia. split; [constructor|done]. }
  destruct (Hs (Z.of_nat offset)) as (h1 & h & ->); [lia|]. cbn [Z.eqb PARTIAL_CONTENT Pos.eqb]. rewrite Nat2Z.id.
  set (data := take (K) (drop offset file)).
  assert (length data = Nat.min (K) (length file - offset)) as Hl
    by (unfold data; rewrite length_take, length_drop; lia).
  assert (usize_add (Z.of_nat offset) (Z.of_nat (length data)) = Z.of_nat (offset + length data)) as Hadd.
  { rewrite usize_add_small; [lia|]. unfold usize_max, usize_bits. lia. }
  destruct data as [|b data'] eqn:Hdata; [simpl in Hl; lia|]. cbn [send_body]. rewrite <- Hdata in *.
  rewrite Hadd. destruct (IH (offset + length data)%nat) as [Hd Hc]; [lia|lia|].
  split; [by constructor|]. rewrite chunks_cons, Hc, <- drop_drop. unfold data.
  rewrite length_take, length_drop.
  destruct (decide (K <= length file - offset)%nat).
  - rewrite Nat.min_l by lia. apply take_drop.
  - rewrite Nat.min_r by lia. rewrite take_ge by (rewrite length_drop; lia).
    rewrite (drop_ge (drop offset file)) by (rewrite length_drop; lia). apply app_nil_r.
Qed.

Lemma read_spec len s :
  reader_ok s -> all_data (rx s) -> fits 64 (position_ s) ->
  exists copied s', read len s = (Ok copied, s') /\ advanced len s copied s'.
Proof.
  intros Hok Hd Hp. unfold read, read_fuel.
  destruct (read_loop_spec (S (len + length (rx s))) len s) as (c & s' & -> & Ha); [lia|done..|]. by exists c, s'.
Qed.

Lemma reads_spec lens s :
  reader_ok s -> all_data (rx s) -> fits 64 (position_ s) ->
  exists outs s', reads lens s = (Ok outs, s') /\ concat outs = take (sum_list lens) (remaining s) /\
    position_ s' = wrap 64 (position_ s + Z.of_nat (length (concat outs))).
Proof.
  revert s; induction lens as [|len lens IH]; intros s Hok Hd Hp; cbn [reads].
  { exists [], s. split; [done|]. simpl. rewrite Z.add_0_r. by rewrite wrap_small. }
  destruct (read_spec len s Hok Hd Hp) as (c & s1 & -> & Hc & Hr & Hok1 & Hd1 & Hp1 & _).
  destruct (IH s1 Hok1 Hd1) as (outs & s2 & -> & Ho & Hp2); [rewrite Hp1; apply wrap_fits; lia|].
  exists (c :: outs), s2. split; [done|]. cbn [concat sum_list]. split.
  - rewrite Ho, Hr, Hc. apply take_take_drop.
  - rewrite Hp2, Hp1, wrap_wrap_add, length_app. f_equal. lia.
Qed.

Lemma open_task_spec file ask fuel :
  serves file ask -> Z.of_nat (length file) < 2 ^ 32 -> (length file < fuel)%nat ->
  let items := task (S fuel) ask (Z.of_nat (length file)) 0 (Some (BodyOk (take (Z.to_nat CHUNK) file))) in
  all_data items /\ chunks items = file.
Proof.
  intros Hs Hlen Hf. cbn [task]. set (data := take (Z.to_nat CHUNK) file).
  assert (length data <= length file)%nat as Hl by (unfold data; rewrite length_take; lia).
  assert (file = data ++ drop (length data) file) as Hfile.
  { unfold data. rewrite length_take. rewrite <- (take_drop (Z.to_nat CHUNK) file) at 1. f_equal.
    destruct (decide (Z.to_nat CHUNK <= length file)%nat); [by rewrite Nat.min_l|].
    rewrite Nat.min_r, !drop_ge by lia. done. }
  destruct (task_spec fuel file ask (length data) Hs Hlen Hl) as [Hd Hc]; [lia|].
  assert (usize_add 0 (Z.of_nat (length data)) = Z.of_nat (length data)) as Hadd.
  { rewrite usize_add_small; [lia|]. unfold usize_max, usize_bits. lia. }
  destruct data as [|b d] eqn:Hdata; cbn [send_body].
  - split; [constructor|]. assert (0 < Z.to_nat CHUNK)%nat by (unfold CHUNK; lia).
    assert (length file = 0)%nat as He%nil_length_inv; [|by rewrite He].
    assert (length (take (Z.to_nat CHUNK) file) = 0)%nat as H0 by (fold data; by rewrite Hdata).
    rewrite length_take in H0. lia.
  - rewrite <- Hdata in *. rewrite Hadd. split; [by constructor|]. by rewrite chunks_cons, Hc.
Qed.

Lemma pipe_step_inv items p p' :
  got p ++ queued p ++ todo p = items -> (length (queued p) <= QUEUE)%nat -> pipe_step p p' ->
  got p' ++ queued p' ++ todo p' = items /\ (length (queued p') <= QUEUE)%nat.
Proof.
  intros Hi Hq Hs. destruct Hs; simpl in *.
  - rewrite <- app_assoc. split; [done|]. rewrite length_app. simpl. lia.
  - rewrite <- app_assoc. split; [done|lia].
Qed.

Lemma pipe_progress p : todo p ++ queued p <> [] -> exists p', pipe_step p p'.
Proof.
  destruct p as [[|i t] [|j q] g]; simpl; intros H; [done| | |];
    eexists; [apply pipe_recv|apply pipe_send; unfold QUEUE; simpl; lia|apply pipe_recv].
Qed.

(** ** Properties *)

(** The reader delivers the file: when the server holds the file and answers, opening succeeds
    and reads with buffers of any sizes return its bytes from the beginning, in order, without gaps
    or repetition, a read being short only at the end; the reported position is the number of
    bytes read. *)
Theorem sequential_reads_file (file : list Z) (first : string -> answer) (ask : string -> Z -> answer)
    (urls : list string) (url : string) (lens : list nat)
    (Hsel : select first urls = Ok (url, BodyOk (take (Z.to_nat CHUNK) file), Z.of_nat (length file)))
    (Hs : serves file (ask url)) (Hlen : Z.of_nat (length file) < 2 ^ 32) :
  exists s outs s', open first ask urls = Ok s /\ reads lens s = (Ok outs, s') /\
    concat outs = take (sum_list lens) file /\
    seek (Current 0) s' = Ok (Z.of_nat (length (concat outs))) /\ file_size s = Z.of_nat (length file).
Proof.
  unfold open. rewrite Hsel. cbn [mbind res_bind].
  destruct (open_task_spec file (ask url) (S (Z.to_nat (Z.of_nat (length file)))) Hs Hlen) as [Hd Hc]; [lia|].
  set (s := mkSequentialAudio _ None 0 _).
  destruct (reads_spec lens s) as (outs & s' & E & Ho & Hp); [done|exact Hd|done|].
  assert (remaining s = file) as Hr by exact Hc. rewrite Hr in Ho.
  exists s, outs, s'. split_and!; [done|done|done| |done]. cbn [seek Z.eqb]. rewrite Hp. cbn [s position_].
  rewrite Z.add_0_l, wrap_small; [done|]. unfold fits. rewrite Ho, length_take. lia.
Qed.

(** However the task and the reader are scheduled, the reader receives what the task sends, in
    order: the received, the waiting and the unsent items are always the items of the task, never
    more than four wait, and unless everything was received one of the two can make a step. *)
Theorem queue_in_order (fuel : nat) (ask : Z -> answer) (total : Z) (response : option body_result) (p : pipe)
    (Hp : rtc pipe_step (mkPipe (task fuel ask total 0 response) [] []) p) :
  got p ++ queued p ++ todo p = task fuel ask total 0 response /\ (length (queued p) <= QUEUE)%nat /\
  (got p = task fuel ask total 0 response \/ exists p', pipe_step p p').
Proof.
  remember (task fuel ask total 0 response) as items eqn:Hi. clear Hi.
  assert (got p ++ queued p ++ todo p = items /\ (length (queued p) <= QUEUE)%nat) as [H1 H2].
  { revert Hp. apply (rtc_ind_r (fun p => got p ++ queued p ++ todo p = items /\ (length (queued p) <= QUEUE)%nat)).
    - simpl. split; [done|lia].
    - intros q r _ Hs [Hi Hq]. by eapply pipe_step_inv. }
  split_and!; [done..|]. destruct (decide (todo p ++ queued p = [])) as [[Ht Hq]%app_nil|Hne].
  - left. by rewrite Ht, Hq, !app_nil_r in H1.
  - right. by apply pipe_progress.
Qed.

(** A failed read loses data: bytes that were already copied into the buffer count as read in
    the position, but the caller gets only the error. Here three bytes are lost. *)
Theorem failed_read_loses_bytes :
  let s := mkSequentialAudio [inl [1; 2; 3]; inr "reset"; inl [4]] None 0 10 in
  read 5 s = (Err (ReadFailed "reset"), mkSequentialAudio [inl [4]] (Some ([1; 2; 3], 3%nat)) 3 10).
Proof. reflexivity. Qed.

(** ** Witnesses *)

Lemma sequential_reads_file_witness :
  exists s outs s', open ex_first (fun _ => ex_ask) ["dead"; "live"] = Ok s /\
    reads [2; 4]%nat s = (Ok outs, s') /\
    seek (Current 0) s' = Ok 5.
Proof.
  destruct (sequential_reads_file ex_file ex_first (fun _ => ex_ask) ["dead"; "live"] "live" [2; 4]%nat)
    as (s & outs & s' & Ho & Hr & Hc & Hp & _).
  - vm_compute. reflexivity.
  - intros offset _. by do 2 eexists.
  - vm_compute. reflexivity.
  - exists s, outs, s'. split_and!; [done|done|]. rewrite Hp, Hc, length_take. done.
Defined.

Lemma queue_in_order_witness :
  let p := mkPipe [inr "reset"] [] [inl [1; 2]] in
  got p ++ queued p ++ todo p = task 3 (fun _ => AnswerErr "reset") 4 0 (Some (BodyOk [1; 2])).
Proof.
  apply (queue_in_order 3 (fun _ => AnswerErr "reset") 4 (Some (BodyOk [1; 2]))).
  eapply rtc_l; [apply pipe_send; unfold QUEUE; simpl; lia|]. simpl. eapply rtc_l; [apply pipe_recv|]. apply rtc_refl.
Defined.
