(* ===== verification/Readers.v ===== *)
(** * Readers ([native/librespot/audio/src/decrypt.rs], [native/librespot/playback/src/player.rs])

    The layers between the network and the decoder: [AudioDecrypt] over the file, and on top of it
    [SkipReader] (deployed build) or [Subfile], which leave out Spotify's own header. Each is generic in
    the reader below it, here the class [ReadSeek]. [Streams] states what a layer promises to the
    next: a byte sequence is read from the front without loss. The block cipher is a parameter. *)
From S2P Require Import Prelude Streaming.

Inductive IoError := IoRead (e : ReadError) | IoUnsupported | IoInvalidInput.

(** [io::Read + io::Seek]: a read with a buffer of [n] bytes returns the bytes put in its front. *)
Class ReadSeek (T : Type) := {
  rd_read : nat -> T -> res IoError (list Z) * T;
  rd_seek : SeekFrom -> T -> res IoError Z * T
}.

Definition lift_read {A} (r : res ReadError A) : res IoError A :=
  match r with Ok a => Ok a | Err e => Err (IoRead e) | Panic => Panic end.

#[global] Instance SequentialAudio_ReadSeek : ReadSeek SequentialAudio := {|
  rd_read n s := let '(r, s) := read n s in (lift_read r, s);
  rd_seek pos s := (lift_read (seek pos s), s)
|}.

(** A file of the operating system: content and position. *)
Record IoFile := mkIoFile { content : list Z; at_ : Z }.

Definition file_seek (pos : SeekFrom) (f : IoFile) : res IoError Z * IoFile :=
  let target := match pos with
                | Start p => p
                | End_ p => Z.of_nat (length (content f)) + p
                | Current p => at_ f + p
                end in
  if target <? 0 then (Err IoInvalidInput, f) else (Ok target, mkIoFile (content f) target).

Definition file_read (n : nat) (f : IoFile) : res IoError (list Z) * IoFile :=
  let bytes := take n (drop (Z.to_nat (at_ f)) (content f)) in
  (Ok bytes, mkIoFile (content f) (at_ f + Z.of_nat (length bytes))).

#[global] Instance IoFile_ReadSeek : ReadSeek IoFile := {| rd_read := file_read; rd_seek := file_seek |}.

(** ** Decryption *)

(** A seekable stream cipher with keys of 16 bytes. *)
Class StreamCipher := {
  Cipher : Type;
  new_from_slices : list Z -> list Z -> option Cipher;
  apply_keystream : list Z -> Cipher -> list Z * Cipher;
  cipher_seek : Z -> Cipher -> Cipher
}.

Definition AUDIO_AESIV : list Z :=
  [0x72; 0xe0; 0x67; 0xfb; 0xdd; 0xcb; 0xcf; 0x77; 0xeb; 0xe8; 0xbc; 0x64; 0x3f; 0x63; 0x0d; 0x93].

Section readers.
Context {SC : StreamCipher} {T : Type} {RS : ReadSeek T}.

Record AudioDecrypt := mkAudioDecrypt { cipher : option Cipher; reader : T }.

Definition decrypt_new (key : option (list Z)) (r : T) : AudioDecrypt :=
  mkAudioDecrypt (key ← key; new_from_slices key AUDIO_AESIV) r.

Definition decrypt_read (n : nat) (d : AudioDecrypt) : res IoError (list Z) * AudioDecrypt :=
  match rd_read n (reader d) with
  | (Ok output, r) =>
      match cipher d with
      | Some c => let '(output, c) := apply_keystream output c in (Ok output, mkAudioDecrypt (Some c) r)
      | None => (Ok output, mkAudioDecrypt None r)
      end
  | (Err e, r) => (Err e, mkAudioDecrypt (cipher d) r)
  | (Panic, r) => (Panic, mkAudioDecrypt (cipher d) r)
  end.

Definition decrypt_seek (pos : SeekFrom) (d : AudioDecrypt) : res IoError Z * AudioDecrypt :=
  match rd_seek pos (reader d) with
  | (Ok newpos, r) => (Ok newpos, mkAudioDecrypt (cipher_seek newpos <$> cipher d) r)
  | (Err e, r) => (Err e, mkAudioDecrypt (cipher d) r)
  | (Panic, r) => (Panic, mkAudioDecrypt (cipher d) r)
  end.

(** ** Skipping the header *)

Record SkipReader := mkSkipReader { inner : T; skip_remaining : nat }.

(** The loop of [read]: every round that goes on has skipped a byte, so [remaining] rounds and the
    last one are enough. A reader that returns more than its buffer holds is a panic below it. *)
Fixpoint skip_loop (fuel : nat) (s : SkipReader) : res IoError bool * SkipReader :=
  match fuel with
  | O => (Panic, s)
  | S fuel =>
      if (skip_remaining s =? 0)%nat then (Ok true, s)
      else
        let limit := Nat.min (skip_remaining s) 256 in
        match rd_read limit (inner s) with
        | (Ok bytes, r) =>
            match bytes with
            | [] => (Ok false, mkSkipReader r (skip_remaining s))
            | _ => skip_loop fuel (mkSkipReader r (skip_remaining s - length bytes))
            end
        | (Err e, r) => (Err e, mkSkipReader r (skip_remaining s))
        | (Panic, r) => (Panic, mkSkipReader r (skip_remaining s))
        end
  end.

Definition skip_read (n : nat) (s : SkipReader) : res IoError (list Z) * SkipReader :=
  match skip_loop (S (skip_remaining s)) s with
  | (Ok true, s) => let '(r, i) := rd_read n (inner s) in (r, mkSkipReader i (skip_remaining s))
  | (Ok false, s) => (Ok [], s)
  | (Err e, s) => (Err e, s)
  | (Panic, s) => (Panic, s)
  end.

Definition skip_seek (pos : SeekFrom) (s : SkipReader) : res IoError Z * SkipReader :=
  (match pos with Current 0 => Ok 0 | _ => Err IoUnsupported end, s).

(** ** The part of a file after the header *)

Record Subfile := mkSubfile { stream : T; sub_offset : Z; sub_length : Z }.

Definition subfile_new (s : T) (offset length : Z) : res IoError Subfile :=
  match rd_seek (Start offset) s with
  | (Ok _, s) => Ok (mkSubfile s offset length)
  | (Err e, _) => Err e
  | (Panic, _) => Panic
  end.

Definition subfile_read (n : nat) (s : Subfile) : res IoError (list Z) * Subfile :=
  let '(r, i) := rd_read n (stream s) in (r, mkSubfile i (sub_offset s) (sub_length s)).

Definition subfile_seek (pos : SeekFrom) (s : Subfile) : res IoError Z * Subfile :=
  let go (pos : SeekFrom) :=
    let '(r, i) := rd_seek pos (stream s) in
    (newpos ← r; Ok (wrap 64 (newpos - sub_offset s)), mkSubfile i (sub_offset s) (sub_length s)) in
  match pos with
  | Start offset => go (Start (wrap 64 (offset + sub_offset s)))
  | End_ offset => if sub_length s - offset <? sub_offset s then (Err IoInvalidInput, s) else go pos
  | _ => go pos
  end.

Definition byte_len (s : Subfile) : option Z := Some (sub_length s).

End readers.
Arguments AudioDecrypt {SC} T.
Arguments SkipReader T : clear implicits.
Arguments Subfile T : clear implicits.

#[global] Instance AudioDecrypt_ReadSeek `{StreamCipher} `{ReadSeek T} : ReadSeek (AudioDecrypt T) :=
  {| rd_read := decrypt_read; rd_seek := decrypt_seek |}.
#[global] Instance SkipReader_ReadSeek `{ReadSeek T} : ReadSeek (SkipReader T) :=
  {| rd_read := skip_read; rd_seek := skip_seek |}.
#[global] Instance Subfile_ReadSeek `{ReadSeek T} : ReadSeek (Subfile T) :=
  {| rd_read := subfile_read; rd_seek := subfile_seek |}.

(** ** What a layer promises

    [rest x] are the bytes still to come: a read returns some of them from the front, at most as many
    as the buffer holds, and none only at the end. *)
Class Streams (T : Type) `{ReadSeek T} := {
  rest : T -> list Z;
  sound : T -> Prop;
  read_front n x : (0 < n)%nat -> sound x -> exists bytes x',
    rd_read n x = (Ok bytes, x') /\ rest x = bytes ++ rest x' /\ (length bytes <= n)%nat /\
    (bytes = [] -> rest x = []) /\ sound x'
}.

(** Reading to the end with a buffer of [n] bytes. *)
Fixpoint read_all `{ReadSeek T} (fuel n : nat) (x : T) : res IoError (list Z) :=
  match fuel with
  | O => Panic
  | S fuel =>
      match rd_read n x with
      | (Ok [], _) => Ok []
      | (Ok bytes, x) => more ← read_all fuel n x; Ok (bytes ++ more)
      | (Err e, _) => Err e
      | (Panic, _) => Panic
      end
  end.

Lemma read_all_spec `{Streams T} fuel n (x : T) :
  (0 < n)%nat -> sound x -> (length (rest x) < fuel)%nat -> read_all fuel n x = Ok (rest x).
Proof.
  revert x. induction fuel as [|fuel IH]; intros x Hn Hs Hf; [lia|]. simpl.
  destruct (read_front n x Hn Hs) as (bytes & x' & -> & Hr & Hl & Hz & Hs').
  destruct bytes as [|b bytes]; [by rewrite Hz|].
  rewrite IH; [|done|done|rewrite Hr, length_app in Hf; simpl in Hf; lia]. by rewrite Hr.
Qed.

#[global] Program Instance SequentialAudio_Streams : Streams SequentialAudio := {|
  rest := remaining;
  sound s := reader_ok s /\ all_data (rx s) /\ fits 64 (position_ s)
|}.
Next Obligation.
  intros n s Hn (Hok & Hd & Hp). destruct (read_spec n s Hok Hd Hp) as (bytes & s' & E & -> & Hr & Hok' & Hd' & Hp' & _).
  exists (take n (remaining s)), s'. unfold rd_read, SequentialAudio_ReadSeek. rewrite E. split_and!; [done| |rewrite length_take; lia| | | |].
  - rewrite Hr. symmetry. apply take_drop.
  - intros H. destruct (remaining s), n; done || lia.
  - done.
  - done.
  - rewrite Hp'. apply wrap_fits. lia.
Qed.

(** A cipher adds its key stream [base], byte by byte, goes on where it stopped, and can be moved.
    [keystream] is the stream from its position on. *)
Class LawfulCipher `{StreamCipher} := {
  base : Cipher -> nat -> Z;
  keystream : Cipher -> nat -> Z;
  new_law k iv c i : new_from_slices k iv = Some c -> keystream c i = base c i;
  apply_law l c : exists c', apply_keystream l c = (imap (fun i b => Z.lxor b (keystream c i)) l, c') /\
    (forall i, keystream c' i = keystream c (length l + i)%nat) /\ base c' = base c;
  seek_law p c i : 0 <= p -> keystream (cipher_seek p c) i = base c (Z.to_nat p + i)%nat;
  seek_base p c : base (cipher_seek p c) = base c
}.

Definition decrypted `{LawfulCipher} (c : option Cipher) (l : list Z) : list Z :=
  match c with
  | Some c => imap (fun i b => Z.lxor b (keystream c i)) l
  | None => l
  end.

#[global] Program Instance AudioDecrypt_Streams `{LawfulCipher} `{Streams T} : Streams (AudioDecrypt T) := {|
  rest d := decrypted (cipher d) (rest (reader d));
  sound d := sound (reader d)
|}.
Next Obligation.
  intros SC LC T RS ST n d Hn Hs. destruct (read_front n (reader d) Hn Hs) as (bytes & r & E & Hr & Hl & Hz & Hs').
  unfold rd_read, AudioDecrypt_ReadSeek, decrypt_read, decrypted. rewrite E. destruct (cipher d) as [c|].
  - destruct (apply_law bytes c) as (c' & -> & Hk & _). eexists _, _. split; [done|]. simpl. rewrite Hr, imap_app, length_imap.
    split_and!; [|done| |done].
    + f_equal. apply imap_ext. intros i b _. simpl. by rewrite Hk.
    + intros Hb. destruct bytes; [|done]. specialize (Hz eq_refl). rewrite Hz in Hr. simpl in Hr |- *. by rewrite <- Hr.
  - eexists _, _. split; [done|]. simpl. split_and!; auto.
Qed.

Lemma skip_loop_spec `{Streams T} fuel (s : SkipReader T) :
  sound (inner s) -> (skip_remaining s < fuel)%nat ->
  exists b s', skip_loop fuel s = (Ok b, s') /\ sound (inner s') /\
    drop (skip_remaining s') (rest (inner s')) = drop (skip_remaining s) (rest (inner s)) /\
    (if b then skip_remaining s' = 0%nat else drop (skip_remaining s) (rest (inner s)) = []).
Proof.
  revert s. induction fuel as [|fuel IH]; intros s Hs Hf; [lia|]. simpl.
  destruct (Nat.eqb_spec (skip_remaining s) 0) as [Hz0|Hz0]; [by exists true, s|].
  destruct (read_front (Nat.min (skip_remaining s) 256) (inner s)) as (bytes & r & E & Hr & Hl & Hz & Hs'); [lia|done|].
  rewrite E. destruct bytes as [|b bytes].
  - exists false. eexists. split; [done|]. simpl. specialize (Hz eq_refl). rewrite Hz in Hr |- *. simpl in Hr. rewrite <- Hr.
    by rewrite drop_nil.
  - simpl in Hl. destruct (IH (mkSkipReader r (skip_remaining s - length (b :: bytes)))) as (b' & s' & E' & Hs1 & Hd & Hb).
    { done. }
    { simpl in *. lia. }
    exists b', s'. split; [done|]. simpl in Hd, Hb |- *. rewrite Hr, Hd.
    rewrite (drop_app_ge (b :: bytes)) by (simpl; lia). split_and!; [done|done|]. by destruct b'.
Qed.

#[global] Program Instance SkipReader_Streams `{Streams T} : Streams (SkipReader T) := {|
  rest s := drop (skip_remaining s) (rest (inner s));
  sound s := sound (inner s)
|}.
Next Obligation.
  intros T RS ST n s Hn Hs. destruct (skip_loop_spec (S (skip_remaining s)) s Hs) as (b & s' & E & Hs' & Hd & Hb); [lia|].
  unfold rd_read, SkipReader_ReadSeek, skip_read. rewrite E. destruct b.
  - rewrite Hb in Hd. rewrite drop_0 in Hd. destruct (read_front n (inner s') Hn Hs') as (bytes & r & -> & Hr & Hl & Hz & Hs'').
    eexists _, _. split; [done|]. simpl. rewrite Hb, drop_0. rewrite <- Hd. split_and!; auto.
  - exists [], s'. split; [done|]. simpl. split_and!; [by rewrite Hd|lia|auto|done].
Qed.

#[global] Program Instance IoFile_Streams : Streams IoFile := {|
  rest f := drop (Z.to_nat (at_ f)) (content f);
  sound f := 0 <= at_ f
|}.
Next Obligation.
  intros n f Hn Hs. simpl in *. unfold file_read. eexists _, _. split; [done|]. simpl.
  set (l := drop (Z.to_nat (at_ f)) (content f)).
  assert (Hl : drop (Z.to_nat (at_ f + Z.of_nat (length (take n l)))) (content f) = drop n l).
  { rewrite length_take, Z2Nat.inj_add, Nat2Z.id, <- drop_drop by lia. fold l.
    destruct (decide (n <= length l)%nat); [by rewrite Nat.min_l by lia|].
    rewrite Nat.min_r by lia. by rewrite !drop_ge by lia. }
  rewrite Hl. split_and!; [symmetry; apply take_drop|rewrite length_take; lia| |lia].
  intros H. destruct l, n; done || lia.
Qed.

#[global] Program Instance Subfile_Streams `{Streams T} : Streams (Subfile T) := {|
  rest s := rest (stream s);
  sound s := sound (stream s)
|}.
Next Obligation.
  intros T RS ST n s Hn Hs. destruct (read_front n (stream s) Hn Hs) as (bytes & r & E & Hr).
  exists bytes, (mkSubfile r (sub_offset s) (sub_length s)). simpl. unfold subfile_read. by rewrite E.
Qed.

(** ** Properties *)

Definition SPOTIFY_OGG_HEADER_END : Z := 0xa7.

(** C17: The deployed reader delivers the track: over a server that holds the encrypted file, reading
    the opened file through decryption and [SkipReader] to its end, with a buffer of any size, returns
    the decrypted file without its first 167 bytes. *)
Theorem pipeline_reads_track `{LawfulCipher} (file : list Z) (first : string -> answer) (ask : string -> Z -> answer)
    (urls : list string) (url : string) (key : option (list Z)) (n fuel : nat) :
  select first urls = Ok (url, BodyOk (take (Z.to_nat CHUNK) file), Z.of_nat (length file)) ->
  serves file (ask url) -> Z.of_nat (length file) < 2 ^ 32 -> (0 < n)%nat -> (length file < fuel)%nat ->
  exists s, open first ask urls = Ok s /\
    read_all fuel n (mkSkipReader (decrypt_new key s) (Z.to_nat SPOTIFY_OGG_HEADER_END)) =
      Ok (drop (Z.to_nat SPOTIFY_OGG_HEADER_END) (decrypted (key ← key; new_from_slices key AUDIO_AESIV) file)).
Proof.
  intros Hsel Hsv Hlen Hn Hf. unfold open. rewrite Hsel. cbn [mbind res_bind].
  destruct (open_task_spec file (ask url) (S (Z.to_nat (Z.of_nat (length file)))) Hsv Hlen) as [Hd Hc]; [lia|].
  set (s := mkSequentialAudio _ None 0 _). exists s. split; [done|].
  set (x := mkSkipReader _ _).
  assert (Hx : rest x = drop (Z.to_nat SPOTIFY_OGG_HEADER_END) (decrypted (key ← key; new_from_slices key AUDIO_AESIV) file)).
  { unfold rest at 1. simpl. do 2 f_equal. exact Hc. }
  rewrite <- Hx. apply read_all_spec; [done|by split_and!|]. rewrite Hx, length_drop.
  assert (length (decrypted (key ← key; new_from_slices key AUDIO_AESIV) file) = length file) as ->; [|lia].
  unfold decrypted. destruct (_ ≫= _); [apply length_imap|done].
Qed.

(** The whole file as the cipher at [base] decrypts it. *)
Definition plain `{LawfulCipher} (c : option Cipher) (l : list Z) : list Z :=
  match c with
  | Some c => imap (fun i b => Z.lxor b (base c i)) l
  | None => l
  end.

Lemma drop_imap {A C} (f : nat -> A -> C) n l : drop n (imap f l) = imap (fun i => f (n + i)%nat) (drop n l).
Proof.
  revert f n. induction l as [|x l IH]; intros f n; [by destruct n|]. destruct n as [|n]; [done|].
  simpl. rewrite IH. by apply imap_ext.
Qed.

Lemma decrypted_at `{LawfulCipher} c p l :
  0 <= p -> decrypted (cipher_seek p <$> c) (drop (Z.to_nat p) l) = drop (Z.to_nat p) (plain c l).
Proof.
  intros Hp. destruct c as [c|]; [|done]. simpl. rewrite drop_imap. apply imap_ext. intros i b _. by rewrite seek_law.
Qed.

(** Seeking in the part of a cached file after the header: opened at the offset, [Subfile] over
    decryption moves to the position asked for and reads from there the decrypted file, from the
    offset on, to its end. *)
Theorem subfile_seek_reads `{LawfulCipher} (file : list Z) (at0 offset pos : Z) (c : option Cipher) (n fuel : nat) :
  0 <= offset -> 0 <= pos -> offset + pos < 2 ^ 64 -> (0 < n)%nat -> (length file < fuel)%nat ->
  exists s s',
    subfile_new (mkAudioDecrypt c (mkIoFile file at0)) offset (Z.of_nat (length file)) = Ok s /\
    read_all fuel n s = Ok (drop (Z.to_nat offset) (plain c file)) /\
    subfile_seek (Start pos) s = (Ok pos, s') /\
    read_all fuel n s' = Ok (drop (Z.to_nat pos) (drop (Z.to_nat offset) (plain c file))).
Proof.
  intros Ho Hp Hb Hn Hf.
  assert (Hfit : fits 64 (pos + offset)) by (unfold fits; lia).
  assert (Hrest : forall (c : option Cipher) p, (length (rest (mkAudioDecrypt c (mkIoFile file p))) <= length file)%nat).
  { intros c0 p. unfold rest; simpl. destruct c0; simpl; rewrite ?length_imap, length_drop; lia. }
  set (s := mkSubfile (mkAudioDecrypt (cipher_seek offset <$> c) (mkIoFile file offset)) offset (Z.of_nat (length file))).
  set (s' := mkSubfile (mkAudioDecrypt (cipher_seek (pos + offset) <$> (cipher_seek offset <$> c)) (mkIoFile file (pos + offset)))
    offset (Z.of_nat (length file))).
  exists s, s'. split_and!.
  - unfold subfile_new, rd_seek, AudioDecrypt_ReadSeek, decrypt_seek, rd_seek, IoFile_ReadSeek, file_seek. simpl.
    by rewrite (proj2 (Z.ltb_ge _ _) Ho).
  - rewrite read_all_spec; [|done|done|]. { f_equal. unfold rest; simpl. by apply decrypted_at. }
    eapply Nat.le_lt_trans; [apply Hrest|done].
  - unfold subfile_seek. rewrite wrap_small by done. simpl. unfold decrypt_seek. simpl. unfold file_seek. simpl.
    rewrite (proj2 (Z.ltb_ge (pos + offset) 0)) by lia. simpl. rewrite Z.add_simpl_r, wrap_small by (unfold fits; lia). done.
  - rewrite read_all_spec; [|done|simpl; lia|].
    { f_equal. unfold rest; simpl. rewrite decrypted_at by lia. rewrite drop_drop, Z2Nat.inj_add, Nat.add_comm by lia.
      f_equal. destruct c as [c|]; [|done]. simpl. by rewrite seek_base. }
    eapply Nat.le_lt_trans; [apply Hrest|done].
Qed.

(** The end-relative seek of [Subfile] has its sign the wrong way round: a distance beyond the part's
    start is accepted and the position returned wraps around, one within the file is refused. *)
Lemma subfile_end_wraps :
  let s := mkSubfile (mkIoFile (replicate 300 0) 167) 167 300 in
  (subfile_seek (End_ (-200)) s).1 = Ok (2 ^ 64 - 67) /\ (subfile_seek (End_ 200) s).1 = Err IoInvalidInput.
Proof. by vm_compute. Qed.

(** ** Examples *)

Definition toy_cipher : StreamCipher := {|
  Cipher := list Z * nat;
  new_from_slices k _ := if (length k =? 16)%nat then Some (k, 0%nat) else None;
  apply_keystream l c := (imap (fun i b => Z.lxor b (nth ((c.2 + i) mod 16) c.1 0)) l, (c.1, (c.2 + length l)%nat));
  cipher_seek p c := (c.1, Z.to_nat p)
|}.

Program Definition toy_lawful : LawfulCipher (H := toy_cipher) := {|
  base c i := nth (i mod 16) c.1 0;
  keystream c i := nth ((c.2 + i) mod 16) c.1 0
|}.
Next Obligation. intros k iv c i H. simpl in *. destruct (_ =? _)%nat; [|done]. by injection H as <-. Qed.
Next Obligation. intros l c. eexists. split; [done|]. simpl. split; [|done]. intros i. by rewrite Nat.add_assoc. Qed.
Next Obligation. done. Qed.
Next Obligation. done. Qed.

Definition ex_track : list Z := replicate 167 9 ++ [79; 103; 103; 83].

#[local] Existing Instance toy_cipher.
#[local] Existing Instance toy_lawful.

Definition ex_track_first (_ : string) : answer :=
  Answer 206 "206" (Some "bytes 0-65535/171"%string) (BodyOk (take (Z.to_nat CHUNK) ex_track)).
Definition ex_track_ask (_ : string) (offset : Z) : answer :=
  Answer 206 "206" None (BodyOk (take (Z.to_nat CHUNK) (drop (Z.to_nat offset) ex_track))).

Lemma pipeline_reads_track_witness :
  exists s, open ex_track_first ex_track_ask ["cdn"%string] = Ok s /\
    read_all 200 8 (mkSkipReader (decrypt_new (Some (replicate 16 1)) s) (Z.to_nat SPOTIFY_OGG_HEADER_END)) =
      Ok [78; 102; 102; 82].
Proof.
  destruct (pipeline_reads_track ex_track ex_track_first ex_track_ask ["cdn"%string] "cdn" (Some (replicate 16 1)) 8 200)
    as (s & Ho & Hr); [by vm_compute| |by vm_compute|lia|vm_compute; lia|].
  { intros offset _. by eexists _, _. }
  exists s. split; [exact Ho|]. etransitivity; [exact Hr|by vm_compute].
Defined.

Definition ex_cipher : option Cipher := Some (replicate 16 1, 0%nat).

Lemma subfile_seek_reads_witness :
  exists s s', subfile_new (T := AudioDecrypt IoFile) (mkAudioDecrypt ex_cipher (mkIoFile ex_track 0)) 167 171 = Ok s /\
    read_all 200 8 s = Ok [78; 102; 102; 82] /\ subfile_seek (Start 2) s = (Ok 2, s') /\ read_all 200 8 s' = Ok [102; 82].
Proof.
  destruct (subfile_seek_reads ex_track 0 167 2 ex_cipher 8 200) as (s & s' & Ho & Hr & Hk & Hr');
    [lia..|vm_compute; lia|].
  exists s, s'. split_and!; [exact Ho| |exact Hk|]; [etransitivity; [exact Hr|by vm_compute]|].
  etransitivity; [exact Hr'|by vm_compute].
Defined.
