(* ===== verification/Codec.v ===== *)
(** * Packet framing ([native/librespot/core/src/connection/codec.rs], [packet.rs])

    A packet is a command byte, a 16-bit length and the payload, encrypted with a stream cipher, and
    the authentication code of what was encrypted. The cipher is a third-party crate, the class
    [Cipher]; [CipherOk] states what the codec relies on. *)
From S2P Require Import Prelude.

(** ** The cipher *)

(** The operations of [shannon::Shannon]; [&mut self] is passed and returned. *)
Class Cipher := {
  cipher : Type;
  cipher_new : list Z -> cipher;
  nonce_u32 : Z -> cipher -> cipher;
  encrypt : list Z -> cipher -> list Z * cipher;
  decrypt : list Z -> cipher -> list Z * cipher;
  finish : nat -> cipher -> list Z * cipher;
  check_mac : list Z -> cipher -> bool * cipher
}.

(** A stream cipher: setting the nonce makes the state depend on key and nonce only; decryption
    undoes encryption from the same state, reaches the same state and can be done in pieces; the
    code that [finish] computes, of the length asked for, is the only one of its length accepted. *)
Class CipherOk (C : Cipher) := {
  keyed : list Z -> cipher -> Prop;
  keyed_new k : keyed k (cipher_new k);
  keyed_nonce k n c : keyed k c -> keyed k (nonce_u32 n c);
  keyed_encrypt k l c : keyed k c -> keyed k (encrypt l c).2;
  keyed_decrypt k l c : keyed k c -> keyed k (decrypt l c).2;
  keyed_finish k n c : keyed k c -> keyed k (finish n c).2;
  keyed_check k m c : keyed k c -> keyed k (check_mac m c).2;
  nonce_resets k n c c' : keyed k c -> keyed k c' -> nonce_u32 n c = nonce_u32 n c';
  length_encrypt l c : length (encrypt l c).1 = length l;
  decrypt_encrypt l c : decrypt (encrypt l c).1 c = (l, (encrypt l c).2);
  decrypt_app l1 l2 c :
    decrypt (l1 ++ l2) c =
      ((decrypt l1 c).1 ++ (decrypt l2 (decrypt l1 c).2).1, (decrypt l2 (decrypt l1 c).2).2);
  length_decrypt l c : length (decrypt l c).1 = length l;
  length_finish n c : length (finish n c).1 = n;
  check_mac_spec m c : (check_mac m c).1 = bool_decide (m = (finish (length m) c).1)
}.

(** ** The codec *)

Definition HEADER_SIZE : nat := 3.
Definition MAC_SIZE : nat := 4.

Section codec.
Context `{C : Cipher}.

Inductive ApCodecError := Payload | MacMismatch.

Inductive DecodeState := DHeader | DPayload (cmd : Z) (size : nat).

Record ApCodec := mkApCodec {
  encode_nonce : Z;
  encode_cipher : cipher;
  decode_nonce : Z;
  decode_cipher : cipher;
  decode_state : DecodeState
}.

Definition codec_new (send_key recv_key : list Z) : ApCodec :=
  mkApCodec 0 (cipher_new send_key) 0 (cipher_new recv_key) DHeader.

(** [encode]: appends the packet to [buf]. *)
Definition encode (item : Z * list Z) (buf : list Z) (s : ApCodec) : list Z * ApCodec :=
  let '(cmd, payload) := item in
  let offset := length buf in
  let buf := buf ++ [cmd] ++ be_split 2 (wrap 16 (Z.of_nat (length payload))) ++ payload in
  let c := nonce_u32 (encode_nonce s) (encode_cipher s) in
  let nonce := wrap 32 (encode_nonce s + 1) in
  let '(sealed, c) := encrypt (drop offset buf) c in
  let '(mac, c) := finish MAC_SIZE c in
  (take offset buf ++ sealed ++ mac, mkApCodec nonce c (decode_nonce s) (decode_cipher s) (decode_state s)).

(** The first half of [decode]: a header is taken once there are three bytes. *)
Definition decode_header (buf : list Z) (s : ApCodec) : list Z * ApCodec :=
  match decode_state s with
  | DHeader =>
      if (HEADER_SIZE <=? length buf)%nat then
        let c := nonce_u32 (decode_nonce s) (decode_cipher s) in
        let nonce := wrap 32 (decode_nonce s + 1) in
        let '(header, c) := decrypt (take HEADER_SIZE buf) c in
        let cmd := nth 0 header 0 in
        let size := Z.to_nat (be_combine (drop 1 header)) in
        (drop HEADER_SIZE buf, mkApCodec (encode_nonce s) (encode_cipher s) nonce c (DPayload cmd size))
      else (buf, s)
  | DPayload _ _ => (buf, s)
  end.

(** The second half: the payload and its code are taken once they are there. The caller's buffer and
    the state come back with the outcome. *)
Definition decode_payload (buf : list Z) (s : ApCodec)
    : res ApCodecError (option (Z * list Z)) * list Z * ApCodec :=
  match decode_state s with
  | DPayload cmd size =>
      if (size + MAC_SIZE <=? length buf)%nat then
        let payload := take (size + MAC_SIZE) buf in
        let buf := drop (size + MAC_SIZE) buf in
        let set c := mkApCodec (encode_nonce s) (encode_cipher s) (decode_nonce s) c DHeader in
        if (size <=? length payload)%nat then
          let '(plain, c) := decrypt (take size payload) (decode_cipher s) in
          let mac := drop size payload in
          let '(good, c) := check_mac mac c in
          (if good : bool then Ok (Some (cmd, plain)) else Err MacMismatch, buf, set c)
        else (Err Payload, buf, set (decode_cipher s))
      else (Ok None, buf, s)
  | DHeader => (Ok None, buf, s)
  end.

Definition decode (buf : list Z) (s : ApCodec) : res ApCodecError (option (Z * list Z)) * list Z * ApCodec :=
  let '(buf, s) := decode_header buf s in decode_payload buf s.

(** ** The framed transport

    The library that drives the codec encodes one item after the other into the outgoing buffer, and
    decodes as long as the incoming buffer yields items, and then reads on. *)

Fixpoint encode_all (items : list (Z * list Z)) (buf : list Z) (s : ApCodec) : list Z * ApCodec :=
  match items with
  | [] => (buf, s)
  | item :: items => let '(buf, s) := encode item buf s in encode_all items buf s
  end.

(** Every item takes at least four bytes out of the buffer, which bounds the rounds. *)
Fixpoint drain (fuel : nat) (buf : list Z) (s : ApCodec)
    : res ApCodecError (list (Z * list Z)) * list Z * ApCodec :=
  match fuel with
  | O => (Panic, buf, s)
  | S fuel =>
      match decode buf s with
      | (Ok (Some m), buf, s) =>
          let '(r, buf, s) := drain fuel buf s in
          (match r with Ok ms => Ok (m :: ms) | Err e => Err e | Panic => Panic end, buf, s)
      | (Ok None, buf, s) => (Ok [], buf, s)
      | (Err e, buf, s) => (Err e, buf, s)
      | (Panic, buf, s) => (Panic, buf, s)
      end
  end.

Fixpoint receive (chunks : list (list Z)) (buf : list Z) (s : ApCodec)
    : res ApCodecError (list (Z * list Z)) * list Z * ApCodec :=
  match chunks with
  | [] => (Ok [], buf, s)
  | chunk :: chunks =>
      let buf := buf ++ chunk in
      match drain (S (length buf)) buf s with
      | (Ok ms, buf, s) =>
          let '(r, buf, s) := receive chunks buf s in
          (match r with Ok ms' => Ok (ms ++ ms') | Err e => Err e | Panic => Panic end, buf, s)
      | (Err e, buf, s) => (Err e, buf, s)
      | (Panic, buf, s) => (Panic, buf, s)
      end
  end.

(** ** Specification *)

(** A packet the format can carry. *)
Definition packet_ok (m : Z * list Z) : Prop := is_byte m.1 /\ Z.of_nat (length m.2) < 2 ^ 16.

(** The plain text of a packet. *)
Definition plain (m : Z * list Z) : list Z := [m.1] ++ be_split 2 (wrap 16 (Z.of_nat (length m.2))) ++ m.2.

(** The bytes of a packet sent with nonce [n] under the key of [c]. *)
Definition frame (c : cipher) (n : Z) (m : Z * list Z) : list Z :=
  let '(sealed, c) := encrypt (plain m) (nonce_u32 n c) in sealed ++ (finish MAC_SIZE c).1.

Fixpoint frames (c : cipher) (n : Z) (ms : list (Z * list Z)) : list Z :=
  match ms with [] => [] | m :: ms => frame c n m ++ frames c (wrap 32 (n + 1)) ms end.

Context {CO : CipherOk C}.

(** [expects k s rest ms]: the decoder [s] under key [k], given the bytes [rest], has the packets [ms]
    before it. *)
Inductive expects (k : list Z) (s : ApCodec) : list Z -> list (Z * list Z) -> Prop :=
| expects_header ms :
    decode_state s = DHeader -> keyed k (decode_cipher s) -> Forall packet_ok ms ->
    expects k s (frames (decode_cipher s) (decode_nonce s) ms) ms
| expects_payload cmd payload sealed ms :
    decode_state s = DPayload cmd (length payload) -> keyed k (decode_cipher s) -> Forall packet_ok ms ->
    (decrypt sealed (decode_cipher s)).1 = payload -> length sealed = length payload ->
    expects k s
      (sealed ++ (finish MAC_SIZE (decrypt sealed (decode_cipher s)).2).1 ++
       frames (decode_cipher s) (decode_nonce s) ms)
      ((cmd, payload) :: ms).

(** The decoder has to wait for more bytes. *)
Definition short (buf : list Z) (s : ApCodec) : Prop :=
  match decode_state s with
  | DHeader => (length buf < HEADER_SIZE)%nat
  | DPayload _ size => (length buf < size + MAC_SIZE)%nat
  end.

(** ** Lemmas *)

Lemma keyed_frame k c c' n m : keyed k c -> keyed k c' -> frame c n m = frame c' n m.
Proof. intros H H'. unfold frame. by rewrite (nonce_resets k n c c'). Qed.

Lemma keyed_frames k c c' n ms : keyed k c -> keyed k c' -> frames c n ms = frames c' n ms.
Proof.
  intros H H'. revert n; induction ms as [|m ms IH]; intros n; cbn [frames]; [done|].
  by rewrite (keyed_frame k c c'), IH.
Qed.

Lemma frame_eq c n m :
  frame c n m = (encrypt (plain m) (nonce_u32 n c)).1 ++ (finish MAC_SIZE (encrypt (plain m) (nonce_u32 n c)).2).1.
Proof. unfold frame. by destruct (encrypt _ _). Qed.

Lemma length_plain m : length (plain m) = (3 + length m.2)%nat.
Proof. unfold plain. rewrite !length_app, length_be_split. done. Qed.

Lemma length_frame c n m : length (frame c n m) = (7 + length m.2)%nat.
Proof. rewrite frame_eq, length_app, length_encrypt, length_finish, length_plain. unfold MAC_SIZE. lia. Qed.

Lemma encode_frame k m buf s :
  keyed k (encode_cipher s) ->
  exists s', encode m buf s = (buf ++ frame (encode_cipher s) (encode_nonce s) m, s') /\
    keyed k (encode_cipher s') /\ encode_nonce s' = wrap 32 (encode_nonce s + 1).
Proof.
  intros Hk. unfold encode. destruct m as [cmd payload].
  rewrite drop_app_length, take_app_length, frame_eq.
  change ([cmd] ++ _ ++ payload) with (plain (cmd, payload)).
  pose proof (keyed_encrypt k (plain (cmd, payload)) _ (keyed_nonce k (encode_nonce s) _ Hk)) as Hk1.
  destruct (encrypt _ _) as [sealed c1]. pose proof (keyed_finish k MAC_SIZE c1 Hk1) as Hk2.
  cbn [fst snd]. destruct (finish MAC_SIZE c1) as [mac c2]. by eexists.
Qed.

Lemma encode_all_frames k ms buf s :
  keyed k (encode_cipher s) -> (encode_all ms buf s).1 = buf ++ frames (encode_cipher s) (encode_nonce s) ms.
Proof.
  revert buf s; induction ms as [|m ms IH]; intros buf s Hk; cbn [encode_all frames]; [by rewrite app_nil_r|].
  destruct (encode_frame k m buf s Hk) as (s' & -> & Hk' & Hn). rewrite (IH _ s' Hk'), Hn.
  by rewrite <- app_assoc, (keyed_frames k (encode_cipher s') (encode_cipher s)).
Qed.

(** Decrypting the header of a packet leaves a state in which the rest is decrypted. *)
Lemma decrypt_header c m :
  let sealed := (encrypt (plain m) c).1 in
  (decrypt (take 3 sealed) c).1 = take 3 (plain m) /\
  (decrypt (drop 3 sealed) (decrypt (take 3 sealed) c).2).1 = m.2 /\
  (decrypt (drop 3 sealed) (decrypt (take 3 sealed) c).2).2 = (encrypt (plain m) c).2.
Proof.
  intros sealed. assert (length sealed = 3 + length m.2)%nat as Hl
    by (unfold sealed; by rewrite length_encrypt, length_plain).
  pose proof (decrypt_encrypt (plain m) c) as H. fold sealed in H.
  rewrite <- (take_drop 3 sealed), decrypt_app in H. injection H as H1 H2.
  assert (plain m = take 3 (plain m) ++ m.2) as Hp by done.
  rewrite Hp in H1. apply app_inj_1 in H1 as [Ha Hb].
  - split_and!; [exact Ha|exact Hb|exact H2].
  - rewrite length_decrypt, !length_take, length_plain. lia.
Qed.

Lemma be_combine_header m : be_combine (drop 1 (take 3 (plain m))) = wrap 16 (Z.of_nat (length m.2)).
Proof. apply (be_combine_split 2). apply (wrap_fits 16). lia. Qed.

(** The header of a packet that is there is taken. *)
Lemma decode_header_frame k s m tail buf fut :
  let sealed := (encrypt (plain m) (nonce_u32 (decode_nonce s) (decode_cipher s))) in
  decode_state s = DHeader -> keyed k (decode_cipher s) ->
  buf ++ fut = sealed.1 ++ tail -> (HEADER_SIZE <= length buf)%nat ->
  exists s', decode_header buf s = (drop 3 buf, s') /\
    decode_state s' = DPayload m.1 (Z.to_nat (wrap 16 (Z.of_nat (length m.2)))) /\
    decode_nonce s' = wrap 32 (decode_nonce s + 1) /\ keyed k (decode_cipher s') /\
    decrypt (drop 3 sealed.1) (decode_cipher s') = (m.2, sealed.2) /\
    drop 3 buf ++ fut = drop 3 sealed.1 ++ tail.
Proof.
  intros sealed' Hs Hk Hb Hlen. unfold decode_header, HEADER_SIZE in *. rewrite Hs.
  apply Nat.leb_le in Hlen as Hlen'. rewrite Hlen'.
  set (c := nonce_u32 (decode_nonce s) (decode_cipher s)) in *. set (sealed := sealed'.1) in *.
  assert (length sealed = 3 + length m.2)%nat as Hl
    by (unfold sealed, sealed'; by rewrite length_encrypt, length_plain).
  destruct (decrypt_header c m) as (H1 & H2 & H3). fold sealed' in H1, H2, H3. fold sealed in H1, H2, H3.
  assert (keyed k (decrypt (take 3 sealed) c).2) as Hkd by (by apply keyed_decrypt, keyed_nonce).
  assert (take 3 buf = take 3 sealed) as Ht.
  { rewrite <- (take_app_le buf fut 3), Hb by lia. rewrite take_app_le by lia. done. }
  rewrite Ht. destruct (decrypt (take 3 sealed) c) as [header c1] eqn:Hd. cbn [fst snd] in *. subst header.
  eexists. split; [reflexivity|]. cbn [decode_state decode_nonce decode_cipher].
  rewrite be_combine_header. split_and!; try done.
  - destruct (decrypt (drop 3 sealed) c1); cbn [fst snd] in *. by subst.
  - rewrite <- drop_app_le, Hb by lia. rewrite drop_app_le by lia. done.
Qed.

Lemma size_ok m : packet_ok m -> Z.to_nat (wrap 16 (Z.of_nat (length m.2))) = length m.2.
Proof. intros [_ H]. rewrite wrap_small by (unfold fits; lia). lia. Qed.

Lemma decode_header_expects k s buf fut ms :
  expects k s (buf ++ fut) ms ->
  exists buf' s', decode_header buf s = (buf', s') /\ expects k s' (buf' ++ fut) ms /\
    (length buf' <= length buf)%nat /\ (decode_state s' = DHeader -> buf' = buf /\ (length buf < HEADER_SIZE)%nat).
Proof.
  intros He. destruct (decode_state s) eqn:Hs.
  2:{ exists buf, s. unfold decode_header. rewrite Hs. split_and!; try done. }
  destruct (decide (HEADER_SIZE <= length buf)%nat) as [Hlen|Hlen].
  2:{ exists buf, s. unfold decode_header. rewrite Hs.
      destruct (Nat.leb_spec HEADER_SIZE (length buf)); [lia|]. split_and!; done. }
  inversion He as [ms' _ Hk Hms Heq|? ? ? ? Hs' _]; [|by rewrite Hs in Hs']. subst ms'.
  destruct ms as [|m ms].
  { destruct buf; [unfold HEADER_SIZE in Hlen; simpl in Hlen; lia|done]. }
  apply Forall_cons in Hms as [Hm Hms]. cbn [frames] in Heq.
  rewrite frame_eq, <- app_assoc in Heq.
  destruct (decode_header_frame k s m _ buf fut Hs Hk (eq_sym Heq) Hlen)
    as (s' & -> & Hst & Hn & Hk' & Hpay & Hrest).
  exists (drop 3 buf), s'. rewrite Hrest. split_and!; [done| |rewrite length_drop; lia|by rewrite Hst].
  rewrite <- Hn, (keyed_frames k (decode_cipher s) (decode_cipher s')) by done.
  destruct m as [cmd payload]. pose proof (f_equal snd Hpay) as Hpay2. cbn [snd] in Hpay2. rewrite <- Hpay2.
  apply expects_payload; try done.
  - rewrite Hst. by rewrite size_ok.
  - by rewrite Hpay.
  - rewrite length_drop, length_encrypt, length_plain. simpl. lia.
Qed.

Lemma decode_payload_expects k s buf fut ms :
  expects k s (buf ++ fut) ms ->
  (short buf s /\ decode_payload buf s = (Ok None, buf, s)) \/ decode_state s = DHeader \/
  exists m ms' buf' s', decode_payload buf s = (Ok (Some m), buf', s') /\ ms = m :: ms' /\
    expects k s' (buf' ++ fut) ms' /\ (length buf' < length buf)%nat.
Proof.
  intros He. unfold decode_payload, short. inversion He as [|cmd payload sealed ms' Hs Hk Hms Hp Hl Heq]; [auto|].
  subst ms. rewrite Hs. destruct (Nat.leb_spec (length payload + MAC_SIZE) (length buf)) as [Hle|Hlt]; [|auto].
  right; right. set (mac := (finish MAC_SIZE (decrypt sealed (decode_cipher s)).2).1) in *.
  assert (length mac = MAC_SIZE) as Hmac by apply length_finish.
  rewrite app_assoc in Heq. assert (take (length payload + MAC_SIZE) buf = sealed ++ mac) as Ht.
  { rewrite <- (take_app_le buf fut) by lia. rewrite <- Heq.
    rewrite take_app_length' by (rewrite length_app; lia). done. }
  rewrite Ht. destruct (Nat.leb_spec (length payload) (length (sealed ++ mac))) as [_|Hx];
    [|rewrite length_app in Hx; lia].
  rewrite take_app_length', drop_app_length' by lia.
  pose proof (keyed_decrypt k sealed _ Hk) as Hk1.
  destruct (decrypt sealed (decode_cipher s)) as [pl c1] eqn:Hd. cbn [fst snd] in *. subst pl.
  pose proof (keyed_check k mac c1 Hk1) as Hk2. pose proof (check_mac_spec mac c1) as Hc.
  destruct (check_mac mac c1) as [good c2]. cbn [fst snd] in *. rewrite bool_decide_true in Hc by (by rewrite Hmac). subst good.
  eexists _, _, _, _. split; [reflexivity|]. split; [done|]. split; [|rewrite length_drop; unfold MAC_SIZE in *; lia].
  rewrite <- drop_app_le, <- Heq by lia. rewrite drop_app_length' by (rewrite length_app; lia).
  rewrite (keyed_frames k (decode_cipher s) c2) by done.
  refine (expects_header k (mkApCodec _ _ (decode_nonce s) c2 DHeader) ms' _ _ _); done.
Qed.

(** One call of [decode]: it waits, or it returns the next packet. *)
Lemma decode_expects k s buf fut ms :
  expects k s (buf ++ fut) ms ->
  exists buf' s', expects k s' (buf' ++ fut) ms /\ short buf' s' /\ decode buf s = (Ok None, buf', s') \/
  exists m ms', decode buf s = (Ok (Some m), buf', s') /\ ms = m :: ms' /\
    expects k s' (buf' ++ fut) ms' /\ (length buf' < length buf)%nat.
Proof.
  intros He. destruct (decode_header_expects k s buf fut ms He) as (b1 & s1 & E1 & He1 & Hl1 & Hh).
  unfold decode. rewrite E1.
  destruct (decode_payload_expects k s1 b1 fut ms He1) as [[Hs E]|[Hs|(m & ms' & b2 & s2 & E & -> & He2 & Hl2)]].
  - exists b1, s1. left. by rewrite E.
  - exists b1, s1. left. unfold decode_payload, short. rewrite Hs. destruct (Hh Hs) as [-> Hlt]. done.
  - exists b2, s2. right. exists m, ms'. rewrite E. split_and!; try done. lia.
Qed.

Lemma drain_expects k fuel s buf fut ms :
  expects k s (buf ++ fut) ms -> (length buf < fuel)%nat ->
  exists ms1 ms2 buf' s', drain fuel buf s = (Ok ms1, buf', s') /\ ms = ms1 ++ ms2 /\
    expects k s' (buf' ++ fut) ms2 /\ short buf' s'.
Proof.
  revert s buf ms; induction fuel as [|fuel IH]; intros s buf ms He Hf; [lia|]. cbn [drain].
  destruct (decode_expects k s buf fut ms He) as (b & s' & [(He' & Hs & ->)|(m & ms' & -> & -> & He' & Hl)]).
  - by exists [], ms, b, s'.
  - destruct (IH s' b ms' He') as (ms1 & ms2 & b2 & s2 & -> & -> & He2 & Hs2); [lia|].
    by exists (m :: ms1), ms2, b2, s2.
Qed.

Lemma receive_expects k chunks s buf ms :
  expects k s (buf ++ concat chunks) ms -> short buf s ->
  exists ms1 ms2 buf' s', receive chunks buf s = (Ok ms1, buf', s') /\ ms = ms1 ++ ms2 /\
    expects k s' buf' ms2 /\ short buf' s'.
Proof.
  revert s buf ms; induction chunks as [|chunk chunks IH]; intros s buf ms He Hs; cbn [receive].
  { simpl in He. rewrite app_nil_r in He. by exists [], ms, buf, s. }
  cbn [concat] in He. rewrite app_assoc in He.
  destruct (drain_expects k (S (length (buf ++ chunk))) s _ _ ms He) as (ms1 & ms2 & b1 & s1 & -> & -> & He1 & Hs1); [lia|].
  destruct (IH s1 b1 ms2 He1 Hs1) as (ms3 & ms4 & b2 & s2 & -> & -> & He2 & Hs2).
  exists (ms1 ++ ms3), ms4, b2, s2. by rewrite <- app_assoc.
Qed.

(** A decoder that waits although everything has arrived has no packets before it. *)
Lemma expects_short k s buf ms : expects k s buf ms -> short buf s -> ms = [] /\ buf = [].
Proof.
  intros He Hs. unfold short in Hs. inversion He as [ms' Hd Hk Hms|? ? ? ? Hd]; subst.
  - rewrite Hd in Hs. destruct ms as [|m ms]; [done|]. cbn [frames] in Hs.
    rewrite length_app, length_frame in Hs. unfold HEADER_SIZE in Hs. lia.
  - rewrite Hd, !length_app, length_finish in Hs. lia.
Qed.

Lemma short_new k1 k2 : short [] (codec_new k1 k2).
Proof. unfold short. simpl. unfold HEADER_SIZE. lia. Qed.

Lemma receive_encoded (send_key recv_key : list Z) (ms : list (Z * list Z)) (chunks : list (list Z)) :
  Forall packet_ok ms -> concat chunks = (encode_all ms [] (codec_new send_key recv_key)).1 ->
  exists s, receive chunks [] (codec_new recv_key send_key) = (Ok ms, [], s).
Proof.
  intros Hms Hchunks.
  rewrite (encode_all_frames send_key) in Hchunks by apply keyed_new. cbn [app] in Hchunks.
  destruct (receive_expects send_key chunks (codec_new recv_key send_key) [] ms)
    as (ms1 & ms2 & b & s & E & -> & He & Hs).
  - rewrite app_nil_l, Hchunks. apply expects_header; [done|apply keyed_new|done].
  - apply short_new.
  - destruct (expects_short _ _ _ _ He Hs) as [-> ->]. exists s. by rewrite app_nil_r.
Qed.

(** ** Properties *)

(** C37: what one side encodes the other decodes: however the bytes of any sequence of packets, each
    with a payload shorter than 2^16 bytes, are cut into pieces on the way, the receiver that was given the sender's key gets exactly these
    packets, in order, with nothing left in its buffer, without an error. *)
Theorem codec_roundtrip (send_key recv_key : list Z) (ms : list (Z * list Z)) (chunks : list (list Z))
    (Hms : Forall packet_ok ms)
    (Hchunks : concat chunks = (encode_all ms [] (codec_new send_key recv_key)).1) :
  exists s, receive chunks [] (codec_new recv_key send_key) = (Ok ms, [], s).
Proof. by apply receive_encoded. Qed.

(** A packet whose authentication code was altered is refused, and the refusal consumes exactly
    that packet. *)
Theorem altered_mac_refused (k : list Z) (s : ApCodec) (m : Z * list Z) (mac rest : list Z)
    (Hm : packet_ok m) (Hs : decode_state s = DHeader) (Hk : keyed k (decode_cipher s))
    (Hlen : length mac = MAC_SIZE)
    (Hmac : frame (decode_cipher s) (decode_nonce s) m <>
            (encrypt (plain m) (nonce_u32 (decode_nonce s) (decode_cipher s))).1 ++ mac) :
  exists s', decode ((encrypt (plain m) (nonce_u32 (decode_nonce s) (decode_cipher s))).1 ++ mac ++ rest) s =
    (Err MacMismatch, rest, s') /\ decode_state s' = DHeader.
Proof.
  set (sealed := encrypt _ _) in *.
  assert (length sealed.1 = 3 + length m.2)%nat as Hl by (unfold sealed; by rewrite length_encrypt, length_plain).
  destruct (decode_header_frame k s m (mac ++ rest) (sealed.1 ++ mac ++ rest) [] Hs Hk)
    as (s1 & E & Hst & _ & _ & Hd & Hb).
  { by rewrite app_nil_r. } { rewrite !length_app. unfold HEADER_SIZE. lia. }
  fold sealed in Hd, Hb. unfold decode. rewrite E, app_nil_r in *. rewrite Hb. rewrite size_ok in Hst by done.
  unfold decode_payload. rewrite Hst.
  assert (length (drop 3 sealed.1) = length m.2) as Hl3 by (rewrite length_drop; lia).
  rewrite app_assoc, length_app, (length_app _ mac), Hl3, Hlen.
  destruct (Nat.leb_spec (length m.2 + MAC_SIZE) (length m.2 + MAC_SIZE + length rest)) as [_|?]; [|lia].
  rewrite (take_app_length' (drop 3 sealed.1 ++ mac)), (drop_app_length' (drop 3 sealed.1 ++ mac))
    by (rewrite length_app; lia).
  rewrite length_app, Hl3. destruct (Nat.leb_spec (length m.2) (length m.2 + length mac)) as [_|?]; [|lia].
  rewrite take_app_length', drop_app_length' by lia. rewrite Hd.
  pose proof (check_mac_spec mac sealed.2) as Hc. destruct (check_mac mac sealed.2) as [good c2]. cbn [fst] in Hc.
  rewrite bool_decide_false in Hc; [subst good; by eexists|].
  intros Heq. apply Hmac. rewrite frame_eq. fold sealed. by rewrite Heq, Hlen.
Qed.

(** A payload of 2^16 bytes or more is not delivered: [encode] accepts it, but the length field
    wraps, so the receiver never decodes the packet that was sent. *)
Theorem oversized_payload_lost (k : list Z) (s : ApCodec) (m : Z * list Z) (rest : list Z)
    (Hm : 2 ^ 16 <= Z.of_nat (length m.2)) (Hs : decode_state s = DHeader) (Hk : keyed k (decode_cipher s)) :
  (decode (frame (decode_cipher s) (decode_nonce s) m ++ rest) s).1.1 <> Ok (Some m).
Proof.
  set (sealed := (encrypt (plain m) (nonce_u32 (decode_nonce s) (decode_cipher s)))).
  destruct (decode_header_frame k s m ((finish MAC_SIZE sealed.2).1 ++ rest)
    (frame (decode_cipher s) (decode_nonce s) m ++ rest) [] Hs Hk) as (s1 & E & Hst & _).
  { by rewrite app_nil_r, frame_eq, <- app_assoc. }
  { rewrite length_app, length_frame. unfold HEADER_SIZE. lia. }
  unfold decode. rewrite E. unfold decode_payload. rewrite Hst.
  set (size := Z.to_nat _). assert (size < length m.2)%nat as Hlt.
  { unfold size. pose proof (wrap_fits 16 (Z.of_nat (length m.2)) ltac:(lia)) as Hf. unfold fits in Hf. lia. }
  set (buf := drop 3 _). destruct (size + MAC_SIZE <=? length buf)%nat; [|done].
  destruct (size <=? length (take (size + MAC_SIZE) buf))%nat; [|done].
  pose proof (length_decrypt (take size (take (size + MAC_SIZE) buf)) (decode_cipher s1)) as Hl.
  destruct (decrypt _ _) as [pl c1]. destruct (check_mac _ c1) as [[] c2]; [|done]. cbn [fst] in *.
  intros [= Heq%(f_equal snd)]. cbn [snd] in Heq. subst pl. rewrite !length_take in Hl. lia.
Qed.

End codec.

(** ** A cipher

    For the witnesses: every byte is combined with a running counter that starts at key and nonce,
    and the code is computed from a checksum of the plain text. *)
Module Counter.

Record t := mk { key : Z; count : Z; sum : Z }.

Fixpoint enc (l : list Z) (c : t) : list Z * t :=
  match l with
  | [] => ([], c)
  | b :: l =>
      let '(out, c') := enc l (mk (key c) (count c + 1) (sum c * 31 + b)) in (Z.lxor b (count c) :: out, c')
  end.

Fixpoint dec (l : list Z) (c : t) : list Z * t :=
  match l with
  | [] => ([], c)
  | b :: l =>
      let p := Z.lxor b (count c) in
      let '(out, c') := dec l (mk (key c) (count c + 1) (sum c * 31 + p)) in (p :: out, c')
  end.

Definition fin (n : nat) (c : t) : list Z * t := (be_split n (sum c), c).

#[export] Instance counter_cipher : Cipher := {|
  cipher := t;
  cipher_new k := mk (be_combine k) 0 0;
  nonce_u32 n c := mk (key c) (key c + n) 0;
  encrypt := enc;
  decrypt := dec;
  finish := fin;
  check_mac m c := (bool_decide (m = (fin (length m) c).1), c)
|}.

Lemma enc_key l c : key (enc l c).2 = key c.
Proof.
  revert c; induction l as [|b l IH]; intros c; cbn [enc]; [done|].
  specialize (IH (mk (key c) (count c + 1) (sum c * 31 + b))). destruct (enc l _). exact IH.
Qed.

Lemma dec_key l c : key (dec l c).2 = key c.
Proof.
  revert c; induction l as [|b l IH]; intros c; cbn [dec]; [done|].
  specialize (IH (mk (key c) (count c + 1) (sum c * 31 + Z.lxor b (count c)))). destruct (dec l _). exact IH.
Qed.

Lemma enc_length l c : length (enc l c).1 = length l.
Proof.
  revert c; induction l as [|b l IH]; intros c; cbn [enc]; [done|].
  specialize (IH (mk (key c) (count c + 1) (sum c * 31 + b))). destruct (enc l _). simpl in *. lia.
Qed.

Lemma dec_length l c : length (dec l c).1 = length l.
Proof.
  revert c; induction l as [|b l IH]; intros c; cbn [dec]; [done|].
  specialize (IH (mk (key c) (count c + 1) (sum c * 31 + Z.lxor b (count c)))). destruct (dec l _). simpl in *. lia.
Qed.

Lemma dec_enc l c : dec (enc l c).1 c = (l, (enc l c).2).
Proof.
  revert c; induction l as [|b l IH]; intros c; cbn [enc]; [done|].
  specialize (IH (mk (key c) (count c + 1) (sum c * 31 + b))).
  destruct (enc l _) as [out c']. cbn [fst snd] in *. cbn [dec].
  rewrite Z.lxor_assoc, Z.lxor_nilpotent, Z.lxor_0_r. by rewrite IH.
Qed.

Lemma dec_app l1 l2 c :
  dec (l1 ++ l2) c = ((dec l1 c).1 ++ (dec l2 (dec l1 c).2).1, (dec l2 (dec l1 c).2).2).
Proof.
  revert c; induction l1 as [|b l1 IH]; intros c; cbn [dec app fst snd]; [by destruct (dec l2 c)|].
  rewrite IH. by destruct (dec l1 _).
Qed.

#[export] Instance counter_ok : CipherOk counter_cipher.
Proof.
  refine {| keyed := fun k (c : @cipher counter_cipher) => key c = be_combine k |}.
  - done.
  - done.
  - intros k l c. change (key c = be_combine k -> key (enc l c).2 = be_combine k). by rewrite enc_key.
  - intros k l c. change (key c = be_combine k -> key (dec l c).2 = be_combine k). by rewrite dec_key.
  - done.
  - done.
  - intros k n c c' H H'. simpl in *. by rewrite H, H'.
  - apply enc_length.
  - apply dec_enc.
  - apply dec_app.
  - apply dec_length.
  - intros n c. apply length_be_split.
  - done.
Defined.

End Counter.
Import Counter.

(** ** Witnesses *)

(** Two packets, delivered in three pieces. *)
Lemma codec_roundtrip_witness :
  let stream := (encode_all [(4, [1; 2; 3]); (73, [])] [] (codec_new [7] [9])).1 in
  exists s, receive [take 2 stream; take 6 (drop 2 stream); drop 8 stream] [] (codec_new [9] [7]) =
    (Ok [(4, [1; 2; 3]); (73, [])], [], s).
Proof.
  apply (codec_roundtrip [7] [9]).
  - repeat constructor; unfold is_byte; simpl; lia.
  - vm_compute. reflexivity.
Defined.

Lemma altered_mac_refused_witness :
  let s := codec_new [9] [7] in
  exists s', decode ((encrypt (plain (4, [1; 2; 3])) (nonce_u32 0 (decode_cipher s))).1 ++ [0; 0; 0; 0] ++ []) s =
    (Err MacMismatch, [], s') /\ decode_state s' = DHeader.
Proof.
  apply (altered_mac_refused [7] (codec_new [9] [7]) (4, [1; 2; 3]) [0; 0; 0; 0] []); [..|vm_compute; discriminate].
  - split; unfold is_byte; simpl; lia.
  - reflexivity.
  - reflexivity.
  - reflexivity.
Defined.

Lemma oversized_payload_lost_witness :
  let s := codec_new [9] [7] in
  let m := (4, replicate (Z.to_nat 65536) 1) in
  (decode (frame (decode_cipher s) (decode_nonce s) m ++ []) s).1.1 <> Ok (Some m).
Proof.
  cbv zeta. apply (oversized_payload_lost [7]); [|reflexivity..]. cbn [snd]. rewrite length_replicate. lia.
Defined.
