(* ===== verification/Packet.v ===== *)
(** * Packet types and sequence numbers ([native/librespot/core/src/packet.rs], [util.rs]) *)
From S2P Require Import Prelude.

Inductive PacketType :=
| SecretBlock | Ping | StreamChunk | StreamChunkRes | PChannelError | ChannelAbort | RequestKey
| AesKey | AesKeyError | Image | CountryCode | Pong | PongAck | Pause | ProductInfo | LegacyWelcome
| LicenseVersion | Login | APWelcome | AuthFailure | MercuryReq | MercurySub | MercuryUnsub
| MercuryEvent | TrackEndedTime | UnknownDataAllZeros | PreferredLocale | Unknown0x0f | Unknown0x10
| Unknown0x4f | Unknown0xb6.

#[global] Instance PacketType_eq_dec : EqDecision PacketType.
Proof. solve_decision. Defined.

(** [cmd as u8] *)
Definition to_u8 (p : PacketType) : Z :=
  match p with
  | SecretBlock => 0x02
  | Ping => 0x04
  | StreamChunk => 0x08
  | StreamChunkRes => 0x09
  | PChannelError => 0x0a
  | ChannelAbort => 0x0b
  | RequestKey => 0x0c
  | AesKey => 0x0d
  | AesKeyError => 0x0e
  | Image => 0x19
  | CountryCode => 0x1b
  | Pong => 0x49
  | PongAck => 0x4a
  | Pause => 0x4b
  | ProductInfo => 0x50
  | LegacyWelcome => 0x69
  | LicenseVersion => 0x76
  | Login => 0xab
  | APWelcome => 0xac
  | AuthFailure => 0xad
  | MercuryReq => 0xb2
  | MercurySub => 0xb3
  | MercuryUnsub => 0xb4
  | MercuryEvent => 0xb5
  | TrackEndedTime => 0x82
  | UnknownDataAllZeros => 0x1f
  | PreferredLocale => 0x74
  | Unknown0x0f => 0x0f
  | Unknown0x10 => 0x10
  | Unknown0x4f => 0x4f
  | Unknown0xb6 => 0xb6
  end.

Definition packet_types : list PacketType :=
  [SecretBlock; Ping; StreamChunk; StreamChunkRes; PChannelError; ChannelAbort; RequestKey; AesKey;
   AesKeyError; Image; CountryCode; Pong; PongAck; Pause; ProductInfo; LegacyWelcome; LicenseVersion;
   Login; APWelcome; AuthFailure; MercuryReq; MercurySub; MercuryUnsub; MercuryEvent; TrackEndedTime;
   UnknownDataAllZeros; PreferredLocale; Unknown0x0f; Unknown0x10; Unknown0x4f; Unknown0xb6].

(** The derived [FromPrimitive::from_u8]. *)
Definition from_u8 (b : Z) : option PacketType := List.find (fun p => to_u8 p =? b) packet_types.

(** [SeqGenerator<uW>::get]: the value, and the generator with the next one. *)
Definition seq_get (w v : Z) : Z * Z := (v, wrap w (v + 1)).

(** [data.split_to(n)] of [Bytes], a panic when there are fewer bytes: the front and the rest. *)
Definition split_to {E} (n : nat) (data : list Z) : res E (list Z * list Z) :=
  if (n <=? length data)%nat then Ok (take n data, drop n data) else Panic.

(** A message of which [ready!] passes on the pending case. *)
Inductive poll (A : Type) := Pending | Ready (a : A).
Arguments Pending {A}.
Arguments Ready {A} a.

(** ** Lemmas *)

Lemma from_u8_to_u8 p : from_u8 (to_u8 p) = Some p.
Proof. by destruct p. Qed.

Lemma from_u8_inv b p : from_u8 b = Some p -> to_u8 p = b.
Proof. intros H. unfold from_u8 in H. apply find_some in H as [_ H]. by apply Z.eqb_eq. Qed.

Lemma split_to_app {E} n (l1 l2 : list Z) : length l1 = n -> split_to (E := E) n (l1 ++ l2) = Ok (l1, l2).
Proof.
  intros <-. unfold split_to. destruct (Nat.leb_spec (length l1) (length (l1 ++ l2))) as [_|H].
  - by rewrite take_app_length, drop_app_length.
  - rewrite length_app in H. lia.
Qed.

Lemma split_to_short {E} n (l : list Z) : (length l < n)%nat -> split_to (E := E) n l = Panic.
Proof. intros H. unfold split_to. destruct (Nat.leb_spec n (length l)); [lia|done]. Qed.

Lemma split_to_inv {E} n (l a b : list Z) : split_to (E := E) n l = Ok (a, b) -> l = a ++ b /\ length a = n.
Proof.
  unfold split_to. destruct (Nat.leb_spec n (length l)) as [H|]; [|done]. intros [= <- <-].
  rewrite take_drop, length_take. split; [done|lia].
Qed.
