(* ===== verification/Channel.v ===== *)
(** * Channels ([native/librespot/core/src/channel.rs])

    The manager gives every channel a 16-bit identifier and keeps its sending half; packets from the
    connection are dispatched by identifier. A channel is a stream of headers followed by data. The
    receiving halves live in a store, so that a sender and its receiver are the same queue. *)
From S2P Require Import Prelude Packet.

Inductive ChannelState := Header (data : list Z) | Data | Closed.

Inductive ChannelEvent := EHeader (id : Z) (data : list Z) | EData (data : list Z).

Inductive ChannelError := channel_error.

(** [mpsc::UnboundedReceiver]: the packets that wait, whether the sender still exists, and whether
    the receiver accepts packets. *)
Record Receiver := mkReceiver { queue : list (Z * list Z); sender_alive : bool; is_open : bool }.

Record Channel := mkChannel { receiver : Receiver; state : ChannelState }.

(** ** The manager *)

Record ChannelManager := mkChannelManager {
  sequence : Z;
  channels : gmap Z nat;
  download_rate_estimate : Z;
  download_measurement_start : option Z;
  download_measurement_bytes : Z;
  invalid : bool
}.

(** The manager with the channels its users hold, by a number no two of them share. *)
Record World := mkWorld { manager : ChannelManager; store : gmap nat Channel; next : nat }.

Definition manager_new : ChannelManager := mkChannelManager 0 ∅ 0 None 0 false.
Definition world_new : World := mkWorld manager_new ∅ 0.

Definition channel_new (alive : bool) : Channel := mkChannel (mkReceiver [] alive true) (Header []).

(** Dropping the sending half of channel [h]. *)
Definition drop_sender (h : nat) (s : gmap nat Channel) : gmap nat Channel :=
  alter (fun c => mkChannel (mkReceiver (queue (receiver c)) false (is_open (receiver c))) (state c)) h s.

(** A channel with an identifier; the sender that had the identifier before is dropped. *)
Definition allocate (w : World) : Z * nat * World :=
  let m := manager w in
  let '(seq, sequence) := seq_get 16 (sequence m) in
  let h := next w in
  let old := if invalid m then None else channels m !! seq in
  let store := <[h := channel_new (negb (invalid m))]> (match old with Some o => drop_sender o (store w) | None => store w end) in
  let channels := if invalid m then channels m else <[seq := h]> (channels m) in
  (seq, h,
   mkWorld
     (mkChannelManager sequence channels (download_rate_estimate m) (download_measurement_start m)
        (download_measurement_bytes m) (invalid m))
     store (S h)).

(** Times are in nanoseconds. *)
Definition ONE_SECOND : Z := 1000000000.
Definition as_millis (d : Z) : Z := d / 1000000.

(** The measurement at the start of [dispatch]; the subtraction of instants saturates. *)
Definition measure (now : Z) (m : ChannelManager) : res ChannelError ChannelManager :=
  match download_measurement_start m with
  | Some start =>
      let elapsed := Z.max 0 (now - start) in
      if ONE_SECOND <? elapsed then
        let ms := wrap usize_bits (as_millis elapsed) in
        if ms =? 0 then Panic
        else Ok (mkChannelManager (sequence m) (channels m)
                   (wrap usize_bits (as_millis ONE_SECOND * download_measurement_bytes m) / ms)
                   (Some now) 0 (invalid m))
      else Ok m
  | None =>
      Ok (mkChannelManager (sequence m) (channels m) (download_rate_estimate m) (Some now)
            (download_measurement_bytes m) (invalid m))
  end.

Definition add_measured (n : nat) (m : ChannelManager) : ChannelManager :=
  mkChannelManager (sequence m) (channels m) (download_rate_estimate m) (download_measurement_start m)
    (usize_add (download_measurement_bytes m) (Z.of_nat n)) (invalid m).

(** [UnboundedSender::send] to channel [h]. *)
Definition send_to (h : nat) (p : Z * list Z) (s : gmap nat Channel) : res ChannelError (gmap nat Channel) :=
  match s !! h with
  | Some c =>
      if is_open (receiver c)
      then Ok (<[h := mkChannel (mkReceiver (queue (receiver c) ++ [p]) (sender_alive (receiver c)) true) (state c)]> s)
      else Err channel_error
  | None => Err channel_error
  end.

Definition dispatch (cmd : PacketType) (data : list Z) (now : Z) (w : World) : res ChannelError unit * World :=
  match split_to (E := ChannelError) 2 data with
  | Ok (front, data) =>
      let id := be_combine front in
      match measure now (manager w) with
      | Ok m =>
          let w := mkWorld (add_measured (length data) m) (store w) (next w) in
          match channels m !! id with
          | Some h =>
              match send_to h (to_u8 cmd, data) (store w) with
              | Ok s => (Ok tt, mkWorld (manager w) s (next w))
              | Err e => (Err e, w)
              | Panic => (Panic, w)
              end
          | None => (Ok tt, w)
          end
      | _ => (Panic, w)
      end
  | _ => (Panic, w)
  end.

Definition shutdown (w : World) : World :=
  let m := manager w in
  mkWorld
    (mkChannelManager (sequence m) ∅ (download_rate_estimate m) (download_measurement_start m)
       (download_measurement_bytes m) true)
    (map_fold (fun _ h s => drop_sender h s) (store w) (channels m)) (next w).

(** A user drops its channel. *)
Definition drop_channel (h : nat) (w : World) : World :=
  mkWorld (manager w) (delete h (store w)) (next w).

(** ** The stream *)

(** [poll_recv]: a packet, the end when the sender is gone, or pending. *)
Definition poll_recv (r : Receiver) : poll (option (Z * list Z)) * Receiver :=
  match queue r with
  | p :: q => (Ready (Some p), mkReceiver q (sender_alive r) (is_open r))
  | [] => (if sender_alive r && is_open r then Pending else Ready None, r)
  end.

(** The outcome of a poll: it can panic, and it comes with the channel it leaves. *)
Definition polled (A : Type) := (res Empty_set (poll A) * Channel)%type.

Definition recv_packet (c : Channel) : polled (list Z + ChannelError) :=
  let '(p, r) := poll_recv (receiver c) in
  let c := mkChannel r (state c) in
  match p with
  | Pending => (Ok Pending, c)
  | Ready None => (Ok (Ready (inr channel_error)), c)
  | Ready (Some (cmd, packet)) =>
      if bool_decide (from_u8 cmd = Some PChannelError) then
        if (length packet <? 2)%nat then (Panic, c)
        else (Ok (Ready (inr channel_error)), mkChannel r Closed)
      else (Ok (Ready (inl packet)), c)
  end.

(** The [Header] arm once the data of a packet is there: an event, or the switch to [Data]. *)
Definition parse_header (data : list Z) : res Empty_set (option ChannelEvent * ChannelState) :=
  '(front, data) ← split_to 2 data;
  let length := Z.to_nat (be_combine front) in
  if (length =? 0)%nat then Ok (None, Data)
  else
    '(id, data) ← split_to 1 data;
    '(header_data, data) ← split_to (length - 1) data;
    Ok (Some (EHeader (nth 0 id 0) header_data), Header data).

(** [poll_next]; the loop goes round at most once, from the last header to the data. *)
Fixpoint poll_loop (fuel : nat) (c : Channel) : polled (option (ChannelEvent + ChannelError)) :=
  match fuel with
  | O => (Panic, c)
  | S fuel =>
      match state c with
      | Closed => (Ok (Ready None), c)
      | Header data =>
          let parse data c :=
            match parse_header data with
            | Ok (Some event, st) => (Ok (Ready (Some (inl event))), mkChannel (receiver c) st)
            | Ok (None, st) => poll_loop fuel (mkChannel (receiver c) st)
            | _ => (Panic, c)
            end in
          match data with
          | [] =>
              match recv_packet c with
              | (Ok Pending, c) => (Ok Pending, c)
              | (Ok (Ready (inr e)), c) => (Ok (Ready (Some (inr e))), c)
              | (Ok (Ready (inl packet)), c) => parse packet c
              | (_, c) => (Panic, c)
              end
          | _ => parse data c
          end
      | Data =>
          match recv_packet c with
          | (Ok Pending, c) => (Ok Pending, c)
          | (Ok (Ready (inr e)), c) => (Ok (Ready (Some (inr e))), c)
          | (Ok (Ready (inl [])), c) =>
              (Ok (Ready None), mkChannel (mkReceiver (queue (receiver c)) (sender_alive (receiver c)) false) Closed)
          | (Ok (Ready (inl packet)), c) => (Ok (Ready (Some (inl (EData packet)))), c)
          | (_, c) => (Panic, c)
          end
      end
  end.

Definition poll_next : Channel -> polled (option (ChannelEvent + ChannelError)) := poll_loop 2.

(** [ChannelData]: the headers are skipped. The bytes that wait bound the rounds. *)
Definition waiting (c : Channel) : nat :=
  (match state c with Header d => length d | _ => 0 end + sum_list (map (fun p => S (length p.2)) (queue (receiver c))))%nat.

Fixpoint data_loop (fuel : nat) (c : Channel) : polled (option (list Z + ChannelError)) :=
  match fuel with
  | O => (Panic, c)
  | S fuel =>
      match poll_next c with
      | (Ok Pending, c) => (Ok Pending, c)
      | (Ok (Ready (Some (inr e))), c) => (Ok (Ready (Some (inr e))), c)
      | (Ok (Ready (Some (inl (EHeader _ _)))), c) => data_loop fuel c
      | (Ok (Ready (Some (inl (EData data)))), c) => (Ok (Ready (Some (inl data))), c)
      | (Ok (Ready None), c) => (Ok (Ready None), c)
      | (_, c) => (Panic, c)
      end
  end.

Definition data_poll_next (c : Channel) : polled (option (list Z + ChannelError)) := data_loop (S (waiting c)) c.

Definition headers_poll_next (c : Channel) : polled (option (Z * list Z + ChannelError)) :=
  match poll_next c with
  | (Ok Pending, c) => (Ok Pending, c)
  | (Ok (Ready (Some (inr e))), c) => (Ok (Ready (Some (inr e))), c)
  | (Ok (Ready (Some (inl (EHeader id data)))), c) => (Ok (Ready (Some (inl (id, data)))), c)
  | (Ok (Ready _), c) => (Ok (Ready None), c)
  | (_, c) => (Panic, c)
  end.

(** ** Specification *)

(** What the program does with channels. The times of the packets are less than 2^32 ms apart. *)
Definition time_ok (now : Z) : Prop := 0 <= now < 2 ^ 32 * 1000000.

Inductive world_step : World -> World -> Prop :=
| step_allocate w id h w' : allocate w = (id, h, w') -> world_step w w'
| step_dispatch w cmd data now r w' : time_ok now -> dispatch cmd data now w = (r, w') -> world_step w w'
| step_shutdown w : world_step w (shutdown w)
| step_drop w h : world_step w (drop_channel h w)
| step_poll w h c r c' :
    store w !! h = Some c -> poll_next c = (r, c') -> world_step w (mkWorld (manager w) (<[h := c']> (store w)) (next w)).

Definition reachable (w : World) : Prop := rtc world_step world_new w.

Record world_ok (w : World) : Prop := {
  ok_ids id h : channels (manager w) !! id = Some h -> (h < next w)%nat;
  ok_store h c : store w !! h = Some c -> (h < next w)%nat;
  ok_inj id id' h : channels (manager w) !! id = Some h -> channels (manager w) !! id' = Some h -> id = id';
  ok_alive h c : store w !! h = Some c ->
    (sender_alive (receiver c) = true <-> exists id, channels (manager w) !! id = Some h);
  ok_invalid : invalid (manager w) = true -> channels (manager w) = ∅;
  ok_time : match download_measurement_start (manager w) with Some t => time_ok t | None => True end
}.

(** The wire form of a header. *)
Definition header_bytes (h : Z * list Z) : list Z := be_split 2 (Z.of_nat (length h.2) + 1) ++ h.1 :: h.2.
Definition header_ok (h : Z * list Z) : Prop := Z.of_nat (length h.2) + 1 < 2 ^ 16.

(** The packets of a channel: headers over several packets, the end of the headers (what follows it
    in its packet is ignored), data, and an empty packet. *)
Definition stream_packets (hss : list (list (Z * list Z))) (last : list (Z * list Z)) (junk : list Z) (datas : list (list Z))
    : list (list Z) :=
  map (fun hs => concat (map header_bytes hs)) hss ++ [concat (map header_bytes last) ++ [0; 0] ++ junk] ++ datas ++ [[]].

Inductive yields : Channel -> list ChannelEvent -> Channel -> Prop :=
| yields_nil c : yields c [] c
| yields_cons c e c1 es c2 :
    poll_next c = (Ok (Ready (Some (inl e))), c1) -> yields c1 es c2 -> yields c (e :: es) c2.

(** Packets from the connection: identifier, type, content and time. *)
Record Incoming := mkIncoming { in_id : Z; in_cmd : PacketType; in_data : list Z; in_time : Z }.

Definition incoming_ok (p : Incoming) : Prop := 0 <= in_id p < 2 ^ 16 /\ time_ok (in_time p).

(** The session dispatches one packet after the other and goes on after an error. *)
Fixpoint dispatch_all (l : list Incoming) (w : World) : res ChannelError World :=
  match l with
  | [] => Ok w
  | p :: l =>
      match dispatch (in_cmd p) (be_split 2 (in_id p) ++ in_data p) (in_time p) w with
      | (Panic, _) => Panic
      | (_, w) => dispatch_all l w
      end
  end.

(** ** Lemmas *)

Lemma measure_ok now m :
  time_ok now -> match download_measurement_start m with Some t => time_ok t | None => True end ->
  exists m', measure now m = Ok m' /\ sequence m' = sequence m /\ channels m' = channels m /\ invalid m' = invalid m /\
    match download_measurement_start m' with Some t => time_ok t | None => True end.
Proof.
  intros Hn Hs. unfold measure. destruct (download_measurement_start m) as [t|] eqn:Ht; [|by eexists].
  case_if; [|exists m; rewrite Ht; done].
  unfold time_ok, ONE_SECOND in *.
  assert (1000 <= as_millis (Z.max 0 (now - t)) < 2 ^ 32) as Hms.
  { unfold as_millis. split; [apply Z.div_le_lower_bound; lia|apply Z.div_lt_upper_bound; lia]. }
  rewrite (wrap_small _ (as_millis (Z.max _ _))) by (unfold fits, usize_bits; lia).
  case_if; [lia|]. eexists. split; [reflexivity|]. done.
Qed.

Lemma drop_sender_lookup h h' s :
  drop_sender h s !! h' =
    (fun c => if decide (h = h') then mkChannel (mkReceiver (queue (receiver c)) false (is_open (receiver c))) (state c) else c)
      <$> s !! h'.
Proof.
  unfold drop_sender. case_decide as Hd; [subst; by rewrite lookup_alter_eq|].
  rewrite lookup_alter_ne by done. by destruct (s !! h').
Qed.

(** The sender of a channel is dropped when one of the identifiers is its own. *)
Lemma drop_senders_alive (ids : gmap Z nat) (s : gmap nat Channel) :
  let s' := map_fold (fun _ h s => drop_sender h s) s ids in
  (forall h, is_Some (s' !! h) <-> is_Some (s !! h)) /\
  (forall h c', s' !! h = Some c' -> sender_alive (receiver c') = true -> s !! h = Some c' /\ forall id, ids !! id <> Some h).
Proof.
  apply (map_fold_weak_ind (fun s' ids =>
    (forall h, is_Some (s' !! h) <-> is_Some (s !! h)) /\
    (forall h c', s' !! h = Some c' -> sender_alive (receiver c') = true -> s !! h = Some c' /\ forall id, ids !! id <> Some h))).
  - split; [done|]. intros h c' Hh _. split; [done|]. intros id. by rewrite lookup_empty.
  - intros id o ids' s' Hid [H1 H2]. split.
    + intros h. rewrite drop_sender_lookup, fmap_is_Some. apply H1.
    + intros h c'. rewrite drop_sender_lookup. intros (c & Hc & ->)%fmap_Some. case_decide as Hd; [done|].
      intros Ha. destruct (H2 h c Hc Ha) as [Hs Hids]. split; [done|]. intros id'.
      destruct (decide (id = id')) as [->|]; [rewrite lookup_insert_eq; congruence|].
      rewrite lookup_insert_ne by done. apply Hids.
Qed.

Lemma recv_packet_alive c : sender_alive (receiver (recv_packet c).2) = sender_alive (receiver c).
Proof.
  unfold recv_packet, poll_recv. destruct (queue (receiver c)) as [|[cmd packet] q].
  - by destruct (sender_alive (receiver c) && is_open (receiver c)).
  - case_bool_decide; [|done]. by destruct (length packet <? 2)%nat.
Qed.

Lemma poll_loop_alive fuel c : sender_alive (receiver (poll_loop fuel c).2) = sender_alive (receiver c).
Proof.
  revert c; induction fuel as [|fuel IH]; intros c; cbn [poll_loop]; [done|].
  pose proof (recv_packet_alive c) as Hr. destruct (state c) as [data| |]; [|..].
  - destruct data as [|b data].
    + destruct (recv_packet c) as [[[|[packet|e]]|[]|] c1]; cbn [snd] in *; try done.
      destruct (parse_header packet) as [[[ev|] st]|e|]; [done|by rewrite IH|done..].
    + destruct (parse_header _) as [[[ev|] st]|e|]; [done|by rewrite IH|done..].
  - by destruct (recv_packet c) as [[[|[[|b packet]|e]]|[]|] c1].
  - done.
Qed.

Lemma poll_next_alive c r c' : poll_next c = (r, c') -> sender_alive (receiver c') = sender_alive (receiver c).
Proof. intros H. pose proof (poll_loop_alive 2 c) as Ha. unfold poll_next in H. by rewrite H in Ha. Qed.

(** A channel without a sender never waits. *)
Lemma recv_packet_dead c : sender_alive (receiver c) = false -> (recv_packet c).1 <> Ok Pending.
Proof.
  unfold recv_packet, poll_recv. intros H. destruct (queue (receiver c)) as [|[cmd packet] q].
  - by rewrite H.
  - case_bool_decide; [|done]. by destruct (length packet <? 2)%nat.
Qed.

Lemma poll_loop_dead fuel c : sender_alive (receiver c) = false -> (poll_loop fuel c).1 <> Ok Pending.
Proof.
  revert c; induction fuel as [|fuel IH]; intros c Hd; cbn [poll_loop]; [done|].
  pose proof (recv_packet_dead c Hd) as Hr. pose proof (recv_packet_alive c) as Ha.
  destruct (state c) as [data| |]; [|..].
  - destruct data as [|b data].
    + destruct (recv_packet c) as [[[|[packet|e]]|[]|] c1]; cbn [fst snd] in *; try done.
      destruct (parse_header packet) as [[[ev|] st]|e|]; [done| |done..]. apply IH. simpl. congruence.
    + destruct (parse_header _) as [[[ev|] st]|e|]; [done|by apply IH|done..].
  - by destruct (recv_packet c) as [[[|[[|b packet]|e]]|[]|] c1].
  - done.
Qed.

Lemma world_new_ok : world_ok world_new.
Proof. split; simpl; try done; intros *; rewrite ?lookup_empty; done. Qed.

Lemma allocate_ok w id h w' : world_ok w -> allocate w = (id, h, w') -> world_ok w'.
Proof.
  intros [Hi Hs Hinj Ha Hinv Ht]. unfold allocate, seq_get. set (m := manager w) in *. intros [= <- <- <-].
  destruct (invalid m) eqn:Hm.
  - specialize (Hinv eq_refl). split; cbn [manager channels store next sequence invalid download_measurement_start negb]; try done.
    + intros id h. rewrite Hinv, lookup_empty. done.
    + intros h c. rewrite lookup_insert_Some. intros [[<- _]|[_ Hc]]; [lia|]. specialize (Hs _ _ Hc). lia.
    + intros h c. rewrite lookup_insert_Some. intros [[<- <-]|[_ Hc]]; [|by apply Ha].
      rewrite Hinv. simpl. split; [done|]. intros [id Hid]. by rewrite lookup_empty in Hid.
  - split; cbn [manager channels store next sequence invalid download_measurement_start negb]; try done.
    + intros id h. rewrite lookup_insert_Some. intros [[_ <-]|[_ Hc]]; [lia|]. specialize (Hi _ _ Hc). lia.
    + intros h c. rewrite lookup_insert_Some. intros [[<- _]|[_ Hc]]; [lia|].
      assert (is_Some (store w !! h)) as [c' Hc'].
      { destruct (channels m !! _); [|by eexists]. rewrite drop_sender_lookup in Hc.
        apply fmap_Some in Hc as (c' & Hc' & _). by eexists. }
      specialize (Hs _ _ Hc'). lia.
    + intros id id' h. rewrite !lookup_insert_Some. intros [[<- <-]|[Hn Hc]] [[<- H2]|[Hn' Hc']]; try done.
      * specialize (Hi _ _ Hc'). lia.
      * subst h. specialize (Hi _ _ Hc). lia.
      * by eapply Hinj.
    + intros h c. rewrite lookup_insert_Some. intros [[<- <-]|[Hn Hc]].
      { simpl. split; [|done]. intros _. eexists. by rewrite lookup_insert_eq. }
      destruct (channels m !! sequence m) as [o|] eqn:Ho.
      * rewrite drop_sender_lookup in Hc. apply fmap_Some in Hc as (c0 & Hc0 & ->).
        case_decide as Hd.
        -- subst o. simpl. split; [done|]. intros [id Hid]. apply lookup_insert_Some in Hid as [[_ Hx]|[Hne Hid]]; [done|].
           by destruct Hne; eapply Hinj.
        -- rewrite (Ha _ _ Hc0). split; intros [id Hid]; exists id.
           ++ rewrite lookup_insert_ne; [done|]. intros <-. congruence.
           ++ apply lookup_insert_Some in Hid as [[_ Hx]|[_ Hid]]; [done|]. done.
      * rewrite (Ha _ _ Hc). split; intros [id Hid]; exists id.
        -- rewrite lookup_insert_ne; [done|]. intros <-. congruence.
        -- apply lookup_insert_Some in Hid as [[_ Hx]|[_ Hid]]; [done|]. done.
Qed.

(** Changing channels without touching their senders. *)
Lemma world_ok_store w m s :
  world_ok w -> channels m = channels (manager w) -> invalid m = invalid (manager w) ->
  match download_measurement_start m with Some t => time_ok t | None => True end ->
  (forall h c, s !! h = Some c -> exists c0, store w !! h = Some c0 /\ sender_alive (receiver c) = sender_alive (receiver c0)) ->
  world_ok (mkWorld m s (next w)).
Proof.
  intros [Hi Hs Hinj Ha Hinv Ht] Hc Hm Hmt Hst. split; cbn [manager store next]; rewrite ?Hc, ?Hm; try done.
  - intros h c Hh. destruct (Hst h c Hh) as (c0 & Hc0 & _). by eapply Hs.
  - intros h c Hh. destruct (Hst h c Hh) as (c0 & Hc0 & ->). by apply Ha.
Qed.

Definition push (p : Z * list Z) (c : Channel) : Channel :=
  mkChannel (mkReceiver (queue (receiver c) ++ [p]) (sender_alive (receiver c)) (is_open (receiver c))) (state c).

(** What [dispatch] does to the store: the packet is appended to the open channel that has the
    identifier. *)
Lemma dispatch_spec w cmd front data now :
  world_ok w -> time_ok now -> length front = 2%nat ->
  let id := be_combine front in
  exists r m s,
    dispatch cmd (front ++ data) now w = (r, mkWorld m s (next w)) /\ r <> Panic /\
    world_ok (mkWorld m s (next w)) /\ channels m = channels (manager w) /\ invalid m = invalid (manager w) /\
    (forall h c, store w !! h = Some c ->
      s !! h = Some (if decide (channels (manager w) !! id = Some h /\ is_open (receiver c) = true)
                     then push (to_u8 cmd, data) c else c)).
Proof.
  intros Hok Hn Hf id. unfold dispatch. rewrite split_to_app by done. fold id.
  destruct (measure_ok now (manager w) Hn (ok_time _ Hok)) as (m & -> & _ & Hc & Hinv & Hm). rewrite Hc.
  assert (forall s, world_ok (mkWorld (manager w) s (next w)) -> world_ok (mkWorld (add_measured (length data) m) s (next w))) as Hok2.
  { intros s Hs. apply (world_ok_store _ (add_measured (length data) m) s Hs); [done..|]. intros h c Hh. by eexists. }
  assert (world_ok (mkWorld (manager w) (store w) (next w))) as Hok1 by (by destruct w).
  destruct (channels (manager w) !! id) as [h|] eqn:Hh.
  2:{ eexists _, _, _. split; [reflexivity|]. split; [done|]. split_and!; [auto|done..|].
      intros h c Hsc. rewrite decide_False; [done|]. by intros [? _]. }
  unfold send_to. cbn [store]. destruct (store w !! h) as [c|] eqn:Hsc; [destruct (is_open (receiver c)) eqn:Ho|].
  - eexists _, _, _. split; [reflexivity|]. split; [done|].
    split_and!; [|done..|].
    + apply Hok2. apply (world_ok_store w); [done..|apply Hok|]. intros h' c'. rewrite lookup_insert_Some.
      intros [[<- <-]|[_ Hc']]; eexists; done.
    + intros h' c' Hc'. destruct (decide (h = h')) as [<-|Hne].
      * rewrite lookup_insert_eq. simplify_eq. rewrite decide_True by done. unfold push. by rewrite Ho.
      * rewrite lookup_insert_ne by done. rewrite decide_False; [done|]. intros [? _]. congruence.
  - eexists _, _, _. split; [reflexivity|]. split; [done|]. split_and!; [auto|done..|].
    intros h' c' Hc'. rewrite decide_False; [done|]. intros [? ?]. simplify_eq. congruence.
  - eexists _, _, _. split; [reflexivity|]. split; [done|]. split_and!; [auto|done..|].
    intros h' c' Hc'. rewrite decide_False; [done|]. intros [? ?]. simplify_eq.
Qed.

Lemma shutdown_ok w : world_ok w -> world_ok (shutdown w).
Proof.
  intros [Hi Hs Hinj Ha Hinv Ht]. destruct (drop_senders_alive (channels (manager w)) (store w)) as [H1 H2].
  unfold shutdown. split; cbn [manager channels store next invalid download_measurement_start]; try done.
  - intros h c Hc. destruct (proj1 (H1 h)) as [c0 Hc0]; [by eexists|]. by eapply Hs.
  - intros h c Hc. split; [|intros [id Hid]; by rewrite lookup_empty in Hid].
    intros Hal. destruct (H2 h c Hc Hal) as [Hc0 Hno]. apply (Ha _ _ Hc0) in Hal as [id Hid]. by destruct (Hno id).
Qed.

Lemma world_step_ok w w' : world_ok w -> world_step w w' -> world_ok w'.
Proof.
  intros Hok Hstep. destruct Hstep as [w id h w' H|w cmd data now r w' Ht H|w|w h|w h c r c' Hc Hp].
  - by eapply allocate_ok.
  - destruct (decide (2 <= length data)%nat) as [Hl|Hl].
    + rewrite <- (take_drop 2 data) in H. destruct (dispatch_spec w cmd (take 2 data) (drop 2 data) now Hok Ht)
        as (r' & m & s & E & _ & Hok' & _); [rewrite length_take; lia|]. rewrite E in H. by injection H as _ <-.
    + unfold dispatch in H. rewrite split_to_short in H by lia. by injection H as _ <-.
  - by apply shutdown_ok.
  - apply (world_ok_store w); [done..|apply Hok|]. intros h1 c1 [_ Hc1]%lookup_delete_Some. by eexists.
  - apply (world_ok_store w); [done..|apply Hok|]. intros h' c1. rewrite lookup_insert_Some.
    intros [[<- <-]|[_ Hc1]]; [|by eexists]. exists c. split; [done|]. by eapply poll_next_alive.
Qed.

Lemma world_step_invalid w w' : world_step w w' -> invalid (manager w) = true -> invalid (manager w') = true.
Proof.
  intros Hs Hi. destruct Hs as [w id h w' H|w cmd data now r w' Ht H|w|w h|w h c r c' Hc Hp]; try done.
  - unfold allocate, seq_get in H. injection H as _ _ <-. done.
  - unfold dispatch in H. destruct (split_to 2 data) as [[front rest]| |]; [|by injection H as _ <-..].
    assert (forall m, measure now (manager w) = Ok m -> invalid m = true) as Hm.
    { intros m. unfold measure. destruct (download_measurement_start _); [|by intros [= <-]].
      case_if; [case_if; [done|]|]; by intros [= <-]. }
    destruct (measure now (manager w)) as [m| |]; [|by injection H as _ <-..]. specialize (Hm m eq_refl).
    destruct (channels m !! _); [destruct (send_to _ _ _)|]; injection H as _ <-; done.
Qed.

Lemma channel_reachable_ok w : reachable w -> world_ok w.
Proof.
  intros Hr. eapply (rtc_ind_r (fun w => world_ok w)); [|..|exact Hr].
  - apply world_new_ok.
  - intros x y _ Hs Hx. by eapply world_step_ok.
Qed.

Lemma invalid_poll w h c :
  world_ok w -> invalid (manager w) = true -> store w !! h = Some c -> (poll_next c).1 <> Ok Pending.
Proof.
  intros Hok Hinv Hc. apply poll_loop_dead. destruct (sender_alive (receiver c)) eqn:Hal; [|done].
  apply (ok_alive _ Hok _ _ Hc) in Hal as [id Hid]. by rewrite (ok_invalid _ Hok Hinv), lookup_empty in Hid.
Qed.

Lemma fresh_channel w id h w1 :
  world_ok w -> invalid (manager w) = false -> allocate w = (id, h, w1) ->
  store w1 !! h = Some (channel_new true) /\ channels (manager w1) !! id = Some h.
Proof.
  intros Hok Hinv. unfold allocate, seq_get. rewrite Hinv. intros [= <- <- <-].
  cbn [store manager channels negb]. by rewrite !lookup_insert_eq.
Qed.

(** Packets for other channels do not reach channel [h]. *)
Lemma dispatch_all_queue l w h id c :
  world_ok w -> Forall incoming_ok l -> channels (manager w) !! id = Some h -> store w !! h = Some c ->
  is_open (receiver c) = true ->
  exists w', dispatch_all l w = Ok w' /\
    store w' !! h = Some (mkChannel
      (mkReceiver (queue (receiver c) ++
         map (fun p => (to_u8 (in_cmd p), in_data p)) (filter (fun p => in_id p = id) l))
         (sender_alive (receiver c)) true) (state c)).
Proof.
  revert w c; induction l as [|p l IH]; intros w c Hok Hl Hid Hc Ho; cbn [dispatch_all].
  { exists w. split; [done|]. rewrite Hc. simpl. rewrite app_nil_r, <- Ho. by destruct c as [[] ?]. }
  apply Forall_cons in Hl as [[Hp Ht] Hl].
  destruct (dispatch_spec w (in_cmd p) (be_split 2 (in_id p)) (in_data p) (in_time p) Hok Ht)
    as (r & m & s & -> & Hr & Hok' & Hch & _ & Hs); [apply length_be_split|].
  rewrite be_combine_split in Hs by (simpl; lia). specialize (Hs h c Hc).
  assert (exists w', dispatch_all l (mkWorld m s (next w)) = Ok w' /\ store w' !! h =
    Some (mkChannel (mkReceiver (queue (receiver c) ++
         map (fun p => (to_u8 (in_cmd p), in_data p)) (filter (fun p => in_id p = id) (p :: l)))
         (sender_alive (receiver c)) true) (state c))) as Hgoal; [|destruct r; [done|done|congruence]].
  destruct (decide (in_id p = id)) as [Hpid|Hpid];
    [rewrite filter_cons_True by done|rewrite filter_cons_False by done].
  - rewrite decide_True in Hs by (subst; done).
    destruct (IH (mkWorld m s (next w)) (push (to_u8 (in_cmd p), in_data p) c) Hok' Hl) as (w' & E & Hw'); [cbn [manager]; by rewrite Hch|exact Hs|done|].
    exists w'. split; [done|]. rewrite Hw'. unfold push. simpl. by rewrite <- app_assoc.
  - rewrite decide_False in Hs by (intros [Hx _]; apply Hpid; by eapply (ok_inj w Hok)).
    apply (IH (mkWorld m s (next w)) c Hok' Hl); [cbn [manager]; by rewrite Hch|done|done].
Qed.

(** ** Reading a channel *)

Definition data_packet (p : list Z) : Z * list Z := (to_u8 StreamChunkRes, p).

Definition in_state (q : list (list Z)) (st : ChannelState) : Channel :=
  mkChannel (mkReceiver (map data_packet q) true true) st.

Lemma parse_header_bytes h rest :
  header_ok h -> parse_header (header_bytes h ++ rest) = Ok (Some (EHeader h.1 h.2), Header rest).
Proof.
  unfold header_ok. intros Hh. unfold parse_header, header_bytes. rewrite <- app_assoc.
  rewrite split_to_app by apply length_be_split. cbn [mbind res_bind]. rewrite be_combine_split by (simpl; lia).
  destruct (Nat.eqb_spec (Z.to_nat (Z.of_nat (length h.2) + 1)) 0) as [|_]; [lia|].
  change ((h.1 :: h.2) ++ rest) with ([h.1] ++ h.2 ++ rest). rewrite split_to_app by done. cbn [mbind res_bind].
  by rewrite split_to_app by lia.
Qed.

Lemma parse_headers_end junk : parse_header ([0; 0] ++ junk) = Ok (None, Data).
Proof. unfold parse_header. by rewrite split_to_app. Qed.

Lemma poll_header q h rest :
  header_ok h -> poll_next (in_state q (Header (header_bytes h ++ rest))) =
    (Ok (Ready (Some (inl (EHeader h.1 h.2)))), in_state q (Header rest)).
Proof.
  intros Hh. unfold poll_next. cbn [poll_loop in_state state]. rewrite parse_header_bytes by done.
  unfold header_bytes. simpl. done.
Qed.

(** The first header of a new packet, and the last header of a packet before the data. *)
Lemma poll_next_packet q p :
  p <> [] -> is_ok (parse_header p) = true ->
  poll_next (in_state (p :: q) (Header [])) = poll_next (in_state q (Header p)).
Proof.
  intros Hp Hok. unfold poll_next. change (S 1) with 2%nat. cbn [poll_loop in_state state].
  unfold recv_packet, in_state at 1. cbn [receiver poll_recv queue map data_packet].
  rewrite bool_decide_false by done. cbn [state receiver sender_alive is_open].
  destruct p as [|b p]; [done|]. by destruct (parse_header (b :: p)) as [[[]]| |].
Qed.

Lemma poll_headers_end q junk : poll_next (in_state q (Header ([0; 0] ++ junk))) = poll_next (in_state q Data).
Proof. unfold poll_next. cbn [poll_loop in_state state]. by rewrite parse_headers_end. Qed.

Lemma poll_data q p : p <> [] -> poll_next (in_state (p :: q) Data) = (Ok (Ready (Some (inl (EData p)))), in_state q Data).
Proof. intros Hp. destruct p; [done|]. reflexivity. Qed.

Lemma yields_app c es c1 es' c2 : yields c es c1 -> yields c1 es' c2 -> yields c (es ++ es') c2.
Proof. induction 1; simpl; [done|]. intros. econstructor; eauto. Qed.

(** Two channels in which the next poll does the same yield the same events, if any. *)
Lemma yields_poll_eq c c' es d : poll_next c = poll_next c' -> es <> [] -> yields c' es d -> yields c es d.
Proof. intros H Hne Hy. destruct Hy; [done|]. econstructor; [by rewrite H|done]. Qed.

Lemma yields_headers q hs rest :
  Forall header_ok hs ->
  yields (in_state q (Header (concat (map header_bytes hs) ++ rest))) (map (fun h => EHeader h.1 h.2) hs) (in_state q (Header rest)).
Proof.
  induction 1 as [|h hs Hh Hhs IH]; [constructor|]. cbn [map concat]. rewrite <- app_assoc.
  econstructor; [by apply poll_header|done].
Qed.

Lemma headers_nonempty hs : hs <> [] -> concat (map header_bytes hs) <> [].
Proof.
  intros Hne Heq%(f_equal (@length Z)). destruct hs as [|h hs]; [done|]. cbn [map concat] in Heq.
  unfold header_bytes in Heq. rewrite !length_app, length_be_split in Heq. simpl in Heq. lia.
Qed.

Lemma yields_header_packets q hss :
  Forall (fun hs => hs <> [] /\ Forall header_ok hs) hss ->
  yields (in_state (map (fun hs => concat (map header_bytes hs)) hss ++ q) (Header []))
    (map (fun h => EHeader h.1 h.2) (concat hss)) (in_state q (Header [])).
Proof.
  induction 1 as [|hs hss [Hne Hhs] Hhss IH]; [constructor|]. cbn [map concat app]. rewrite map_app.
  eapply yields_app; [|exact IH]. eapply yields_poll_eq.
  - apply poll_next_packet; [by apply headers_nonempty|].
    destruct Hhs as [|h hs Hh _]; [done|]. cbn [map concat]. by rewrite parse_header_bytes.
  - by destruct hs.
  - rewrite <- (app_nil_r (concat (map header_bytes hs))). by apply yields_headers.
Qed.

Lemma yields_data q datas :
  Forall (fun d => d <> []) datas -> yields (in_state (datas ++ q) Data) (map EData datas) (in_state q Data).
Proof.
  induction 1 as [|d datas Hd Hds IH]; [constructor|]. cbn [map app]. econstructor; [by apply poll_data|done].
Qed.

(** The stream ends. *)
Definition ends (c : Channel) : Prop := exists c', poll_next c = (Ok (Ready None), c') /\ state c' = Closed.

Lemma yields_tail c datas :
  Forall (fun d => d <> []) datas -> poll_next c = poll_next (in_state (datas ++ [[]]) Data) ->
  exists c', yields c (map EData datas) c' /\ ends c'.
Proof.
  intros Hds Hc. destruct datas as [|d datas].
  - exists c. split; [constructor|]. unfold ends. rewrite Hc. by eexists.
  - exists (in_state [[]] Data). split; [|by eexists]. eapply yields_poll_eq; [exact Hc|done|]. by apply yields_data.
Qed.

Lemma yields_last c last junk datas :
  Forall header_ok last -> Forall (fun d => d <> []) datas ->
  poll_next c = poll_next (in_state (datas ++ [[]]) (Header (concat (map header_bytes last) ++ [0; 0] ++ junk))) ->
  exists c', yields c (map (fun h => EHeader h.1 h.2) last ++ map EData datas) c' /\ ends c'.
Proof.
  intros Hl Hds Hc. destruct last as [|h last].
  - apply yields_tail; [done|]. rewrite Hc. apply poll_headers_end.
  - destruct (yields_tail (in_state (datas ++ [[]]) (Header ([0; 0] ++ junk))) datas Hds) as (c' & Hy & He).
    { apply poll_headers_end. }
    exists c'. split; [|done]. eapply yields_app; [|exact Hy].
    eapply yields_poll_eq; [exact Hc|done|]. by apply yields_headers.
Qed.

Lemma yields_stream hss last junk datas :
  Forall (fun hs => hs <> [] /\ Forall header_ok hs) hss -> Forall header_ok last -> Forall (fun d => d <> []) datas ->
  exists c', yields (in_state (stream_packets hss last junk datas) (Header []))
    (map (fun h => EHeader h.1 h.2) (concat hss ++ last) ++ map EData datas) c' /\ ends c'.
Proof.
  intros Hh Hl Hd. unfold stream_packets.
  destruct (yields_last (in_state ((concat (map header_bytes last) ++ [0; 0] ++ junk) :: datas ++ [[]]) (Header []))
    last junk datas Hl Hd) as (c' & Hy & He).
  { apply poll_next_packet; [by intros [_ [=]]%app_nil|]. destruct Hl as [|h last Hh1 _]; [done|].
    cbn [map concat]. rewrite <- app_assoc. by rewrite parse_header_bytes. }
  exists c'. split; [|done]. rewrite map_app, <- app_assoc. eapply yields_app; [|exact Hy].
  by apply yields_header_packets.
Qed.

(** ** Properties *)

(** A channel delivers what is sent on it: once a channel was allocated, the packets that arrive
    with its identifier, in whatever order packets for other identifiers come between them, are
    read as the headers, then the data, then the end of the stream. No packet makes the dispatch
    panic. *)
Theorem channel_delivers (w : World) (id : Z) (h : nat) (w1 : World) (l : list Incoming)
    (hss : list (list (Z * list Z))) (last : list (Z * list Z)) (junk : list Z) (datas : list (list Z))
    (Hr : reachable w) (Hv : invalid (manager w) = false) (Ha : allocate w = (id, h, w1))
    (Hl : Forall incoming_ok l)
    (Hmine : map (fun p => (to_u8 (in_cmd p), in_data p)) (filter (fun p => in_id p = id) l) =
             map data_packet (stream_packets hss last junk datas))
    (Hh : Forall (fun hs => hs <> [] /\ Forall header_ok hs) hss) (Hlast : Forall header_ok last)
    (Hd : Forall (fun d => d <> []) datas) :
  exists w2 c c', dispatch_all l w1 = Ok w2 /\ store w2 !! h = Some c /\
    yields c (map (fun h => EHeader h.1 h.2) (concat hss ++ last) ++ map EData datas) c' /\ ends c'.
Proof.
  pose proof (channel_reachable_ok w Hr) as Hok. destruct (fresh_channel w id h w1 Hok Hv Ha) as [Hs Hid].
  destruct (dispatch_all_queue l w1 h id _ (allocate_ok w id h w1 Hok Ha) Hl Hid Hs eq_refl) as (w2 & E & Hw2).
  destruct (yields_stream hss last junk datas Hh Hlast Hd) as (c' & Hy & He).
  eexists w2, _, c'. split_and!; [done|exact Hw2| |done]. rewrite Hmine. exact Hy.
Qed.

(** A shut-down manager leaves nobody waiting: in every state the program can reach, a channel has
    a sender exactly while its identifier is assigned to it, no two identifiers share a channel, and
    after the shutdown no poll of any channel, however old or new, is left pending. *)
Theorem shutdown_wakes_everyone (w : World) (Hr : reachable w) :
  (forall h c, store w !! h = Some c ->
    (sender_alive (receiver c) = true <-> exists id, channels (manager w) !! id = Some h)) /\
  (forall id id' h, channels (manager w) !! id = Some h -> channels (manager w) !! id' = Some h -> id = id') /\
  (forall w' h c, rtc world_step (shutdown w) w' -> store w' !! h = Some c -> (poll_next c).1 <> Ok Pending).
Proof.
  pose proof (channel_reachable_ok w Hr) as Hok. split_and!; [apply Hok..|].
  intros w' h c Hrtc Hc.
  assert (world_ok w' /\ invalid (manager w') = true) as [Hok' Hinv].
  { revert Hrtc. apply (rtc_ind_r (fun w' => world_ok w' /\ invalid (manager w') = true)).
    - split; [by apply shutdown_ok|done].
    - intros x y _ Hs [Hx Hi]. split; [by eapply world_step_ok|]. by eapply world_step_invalid. }
  by apply (invalid_poll w' h).
Qed.

(** The header stream eats data: polled once more after its last header, it reports its end, but
    the first data packet is taken out of the channel and lost. *)
Theorem headers_end_loses_data (q : list (list Z)) (p : list Z) (Hp : p <> []) :
  headers_poll_next (in_state (p :: q) Data) = (Ok (Ready None), in_state q Data).
Proof. unfold headers_poll_next. by rewrite poll_data. Qed.

(** ** Witnesses *)

(** Two channels; the packets of the first come with one for the second among them. *)
Lemma channel_delivers_witness :
  exists w2 c c',
    dispatch_all
      [mkIncoming 0 StreamChunkRes [0; 3; 7; 1; 2; 0; 0] 5; mkIncoming 1 StreamChunkRes [9] 6;
       mkIncoming 0 StreamChunkRes [8; 8] 7; mkIncoming 0 StreamChunkRes [] 8]
      (allocate world_new).2 = Ok w2 /\ store w2 !! 0%nat = Some c /\
    yields c [EHeader 7 [1; 2]; EData [8; 8]] c' /\ ends c'.
Proof.
  apply (channel_delivers world_new 0 0 (allocate world_new).2 _ [] [(7, [1; 2])] [] [[8; 8]]).
  - apply rtc_refl.
  - reflexivity.
  - reflexivity.
  - repeat constructor; simpl; lia.
  - reflexivity.
  - constructor.
  - repeat constructor; simpl; lia.
  - by repeat constructor.
Defined.

Lemma shutdown_wakes_everyone_witness :
  (poll_next (mkChannel (mkReceiver [] false true) (Header []))).1 <> Ok Pending.
Proof.
  eapply (shutdown_wakes_everyone (allocate world_new).2).
  - eapply rtc_once, (step_allocate _ 0 0). reflexivity.
  - apply rtc_refl.
  - instantiate (1 := 0%nat). reflexivity.
Defined.

Lemma headers_end_loses_data_witness :
  headers_poll_next (in_state [[1; 2]; [3]] Data) = (Ok (Ready None), in_state [[3]] Data).
Proof. apply headers_end_loses_data. discriminate. Defined.
