(* ===== verification/Mercury.v ===== *)
(** * Mercury ([native/librespot/core/src/mercury])

    Requests to Spotify with numbered answers, which can come in several packets, and events for
    subscribers. A future is a oneshot channel in a store: it waits while its sender exists, and it
    ends with the answer, or cancelled when the sender is dropped. Protocol-buffer messages, URL
    encoding and the connection are parameters. *)
From S2P Require Import Prelude Text Packet.

(** ** Requests and responses ([types.rs]) *)

Inductive MercuryMethod := Get | Sub | Unsub | Send.

Record MercuryRequest := mkMercuryRequest {
  method : MercuryMethod;
  req_uri : string;
  content_type : option string;
  req_payload : list (list Z)
}.

Record MercuryResponse := mkMercuryResponse { uri : string; status_code : Z; payload : list (list Z) }.

Inductive MercuryError := EChannel | ECommand (cmd : PacketType) | EResponse (r : MercuryResponse) | EHeader.

Definition method_to_string (m : MercuryMethod) : string :=
  match m with Get => "GET" | Sub => "SUB" | Unsub => "UNSUB" | Send => "SEND" end.

Definition command (m : MercuryMethod) : PacketType :=
  match m with Get | Send => MercuryReq | Sub => MercurySub | Unsub => MercuryUnsub end.

Section mercury.

(** The header of a request as it is written: address, method and content type; the header of an
    answer as it is read: address and status code; the address of a subscription. *)
Variable write_header : string -> string -> option string -> list Z.
Variable parse_header : list Z -> option (string * Z).
Variable parse_subscription : list Z -> option string.
(** [form_urlencoded::byte_serialize] *)
Variable byte_serialize : string -> string.
(** Whether the dealer handles an address. *)
Variable dealer_handles : string -> bool.

Definition u16_be (n : nat) : list Z := be_split 2 (wrap 16 (Z.of_nat n)).

Definition encode (r : MercuryRequest) (seq : list Z) : list Z :=
  let header := write_header (req_uri r) (method_to_string (method r)) (content_type r) in
  u16_be (length seq) ++ seq ++ [1] ++
  be_split 2 (wrap 16 (1 + wrap 16 (Z.of_nat (length (req_payload r))))) ++
  u16_be (length header) ++ header ++
  concat (map (fun p => u16_be (length p) ++ p) (req_payload r)).

(** ** The manager ([mod.rs]) *)

Record MercuryPending := mkMercuryPending {
  parts : list (list Z);
  partial : option (list Z);
  callback : option nat
}.

Record MercuryManager := mkMercuryManager {
  sequence : Z;
  pending : gmap (list Z) MercuryPending;
  subscriptions : list (string * nat);
  invalid : bool
}.

(** A future, while its user holds it. *)
Inductive future := Waiting | Resolved (r : MercuryResponse + MercuryError) | Cancelled.

(** The manager with the futures and the queues of subscribers that its users hold, and the packets
    handed to the connection. *)
Record World := mkWorld {
  manager : MercuryManager;
  futures : gmap nat future;
  queues : gmap nat (list MercuryResponse);
  next : nat;
  sent : list (PacketType * list Z)
}.

Definition world_new : World := mkWorld (mkMercuryManager 0 ∅ [] false) ∅ ∅ 0 [].

(** Dropping the sender of a future. *)
Definition cancel (cb : option nat) (f : gmap nat future) : gmap nat future :=
  match cb with
  | Some h => alter (fun x => match x with Waiting => Cancelled | x => x end) h f
  | None => f
  end.

(** [oneshot::Sender::send]; it fails when the future was dropped. *)
Definition resolve (h : nat) (r : MercuryResponse + MercuryError) (f : gmap nat future) : bool * gmap nat future :=
  match f !! h with Some _ => (true, <[h := Resolved r]> f) | None => (false, f) end.

Definition set_manager (m : MercuryManager) (w : World) : World := mkWorld m (futures w) (queues w) (next w) (sent w).
Definition set_futures (f : gmap nat future) (w : World) : World := mkWorld (manager w) f (queues w) (next w) (sent w).
Definition set_pending (p : gmap (list Z) MercuryPending) (m : MercuryManager) : MercuryManager :=
  mkMercuryManager (sequence m) p (subscriptions m) (invalid m).
Definition set_subscriptions (l : list (string * nat)) (m : MercuryManager) : MercuryManager :=
  mkMercuryManager (sequence m) (pending m) l (invalid m).

(** [next_seq]: the number as eight bytes. *)
Definition next_seq (m : MercuryManager) : list Z * MercuryManager :=
  let '(n, sequence) := seq_get 64 (sequence m) in
  (be_split 8 n, mkMercuryManager sequence (pending m) (subscriptions m) (invalid m)).

(** [request]; [connected] tells whether the packet can be sent. The entry of a request whose packet
    could not be sent stays. *)
Definition request (connected : bool) (r : MercuryRequest) (w : World) : option nat * World :=
  let h := next w in
  let entry := mkMercuryPending [] None (Some h) in
  let '(seq, m) := next_seq (manager w) in
  let old := match pending m !! seq with Some p => callback p | None => None end in
  let '(m, f) :=
    if invalid m then (m, <[h := Cancelled]> (futures w))
    else (set_pending (<[seq := entry]> (pending m)) m, <[h := Waiting]> (cancel old (futures w))) in
  if connected then (Some h, mkWorld m f (queues w) (S h) (sent w ++ [(command (method r), encode r seq)]))
  else (None, mkWorld m (base.delete h f) (queues w) (S h) (sent w)).

Definition get (connected : bool) (uri : string) : World -> option nat * World :=
  request connected (mkMercuryRequest Get uri None []).

Definition send (connected : bool) (uri : string) (data : list Z) : World -> option nat * World :=
  request connected (mkMercuryRequest Send uri None [data]).

(** The first half of [subscribe]. *)
Definition subscribe_request (connected : bool) (uri : string) : World -> option nat * World :=
  request connected (mkMercuryRequest Sub uri None []).

(** The second half of [subscribe], once its request was answered. *)
Definition subscribed (uri : string) (response : MercuryResponse) (w : World) : nat * World :=
  let h := next w in
  let m := manager w in
  let new :=
    match payload response with
    | [] => [(uri, h)]
    | l => omap (fun sub => (fun u => (u, h)) <$> parse_subscription sub) l
    end in
  let m := if invalid m then m else set_subscriptions (subscriptions m ++ new) m in
  (h, mkWorld m (futures w) (<[h := []]> (queues w)) (S h) (sent w)).

Definition listen_for (uri : string) (w : World) : nat * World :=
  let h := next w in
  let m := manager w in
  let m := if invalid m then m else set_subscriptions (subscriptions m ++ [(uri, h)]) m in
  (h, mkWorld m (futures w) (<[h := []]> (queues w)) (S h) (sent w)).

Definition parse_part (data : list Z) : res MercuryError (list Z * list Z) :=
  '(size, data) ← split_to 2 data;
  split_to (Z.to_nat (be_combine size)) data.

(** The loop over the parts of a packet, of which [left_] are to come. *)
Fixpoint parts_loop (left_ : nat) (flags : Z) (data : list Z) (p : MercuryPending) : res MercuryError MercuryPending :=
  match left_ with
  | O => Ok p
  | S left_ =>
      '(part, data) ← parse_part data;
      let part := match partial p with Some partial => partial ++ part | None => part end in
      let p :=
        if (left_ =? 0)%nat && (flags =? 2) then mkMercuryPending (parts p) (Some part) (callback p)
        else mkMercuryPending (parts p ++ [part]) None (callback p) in
      parts_loop left_ flags data p
  end.

(** The address of an event with its components encoded, except for the first. *)
Definition encoded_uri (uri : string) : string :=
  match split "/" uri with
  | first :: rest => join "/" (first :: map byte_serialize rest)
  | [] => ""
  end.

(** [retain] over the subscriptions: matching ones get the response, and go when their receiver is
    gone. *)
Fixpoint notify (uri : string) (r : MercuryResponse) (l : list (string * nat)) (q : gmap nat (list MercuryResponse))
    : bool * list (string * nat) * gmap nat (list MercuryResponse) :=
  match l with
  | [] => (false, [], q)
  | (prefix, h) :: l =>
      if starts_with uri prefix then
        let '(kept, q) := match q !! h with Some rs => (true, <[h := rs ++ [r]]> q) | None => (false, q) end in
        let '(_, l, q) := notify uri r l q in
        (true, if kept : bool then (prefix, h) :: l else l, q)
      else let '(found, l, q) := notify uri r l q in (found, (prefix, h) :: l, q)
  end.

(** The pending request is dropped with its callback also when the code panics. *)
Definition complete_request (cmd : PacketType) (p : MercuryPending) (w : World) : res MercuryError unit * World :=
  let dropped := set_futures (cancel (callback p) (futures w)) w in
  match parts p with
  | [] => (Panic, dropped)
  | header_data :: rest =>
      match parse_header header_data with
      | None => (Err EHeader, dropped)
      | Some (u, code) =>
          let response := mkMercuryResponse u code rest in
          if 500 <=? code then (Err (EResponse response), dropped)
          else if 400 <=? code then
            match callback p with
            | Some cb =>
                let '(ok, f) := resolve cb (inr (EResponse response)) (futures w) in
                if ok then (Err (EResponse response), set_futures f w) else (Err EChannel, w)
            | None => (Err (EResponse response), w)
            end
          else if bool_decide (cmd = MercuryEvent) then
            let '(found, subs, q) := notify (encoded_uri u) response (subscriptions (manager w)) (queues w) in
            let w := mkWorld (set_subscriptions subs (manager w)) (cancel (callback p) (futures w)) q (next w) (sent w) in
            if found then (Ok tt, w)
            else if dealer_handles u then (Ok tt, w)
            else (Err (EResponse response), w)
          else
            match callback p with
            | Some cb =>
                let '(ok, f) := resolve cb (inl response) (futures w) in
                if ok then (Ok tt, set_futures f w) else (Err EChannel, w)
            | None => (Err (EResponse response), w)
            end
      end
  end.

(** A packet: number, flags, count and the parts. *)
Definition parse_packet (data : list Z) : res MercuryError (list Z * Z * nat * list Z) :=
  '(seq_len, data) ← split_to 2 data;
  '(seq, data) ← split_to (Z.to_nat (be_combine seq_len)) data;
  '(flags, data) ← split_to 1 data;
  '(count, data) ← split_to 2 data;
  Ok (seq, nth 0 flags 0, Z.to_nat (be_combine count), data).

Definition dispatch (cmd : PacketType) (data : list Z) (w : World) : res MercuryError unit * World :=
  match parse_packet data with
  | Ok (seq, flags, count, data) =>
      let m := manager w in
      let found :=
        match pending m !! seq with
        | Some p => Some p
        | None => if bool_decide (cmd = MercuryEvent) then Some (mkMercuryPending [] None None) else None
        end in
      let w := set_manager (set_pending (base.delete seq (pending m)) m) w in
      match found with
      | None => (Err (ECommand cmd), w)
      | Some p =>
          match parts_loop count flags data p with
          | Ok p =>
              if flags =? 1 then complete_request cmd p w
              else (Ok tt, set_manager (set_pending (<[seq := p]> (pending (manager w))) (manager w)) w)
          | Err e => (Err e, set_futures (cancel (callback p) (futures w)) w)
          | Panic => (Panic, set_futures (cancel (callback p) (futures w)) w)
          end
      end
  | Err e => (Err e, w)
  | Panic => (Panic, w)
  end.

Definition shutdown (w : World) : World :=
  let m := manager w in
  mkWorld (mkMercuryManager (sequence m) ∅ [] true)
    (map_fold (fun _ p f => cancel (callback p) f) (futures w) (pending m)) (queues w) (next w) (sent w).

(** A user drops a future or a subscription. *)
Definition drop_future (h : nat) (w : World) : World := set_futures (base.delete h (futures w)) w.
Definition drop_queue (h : nat) (w : World) : World :=
  mkWorld (manager w) (futures w) (base.delete h (queues w)) (next w) (sent w).

(** ** Specification *)

(** What the program does with the manager. *)
Inductive world_step : World -> World -> Prop :=
| step_request w c r : world_step w (request c r w).2
| step_subscribed w u r : world_step w (subscribed u r w).2
| step_listen_for w u : world_step w (listen_for u w).2
| step_dispatch w cmd data : world_step w (dispatch cmd data w).2
| step_shutdown w : world_step w (shutdown w)
| step_drop_future w h : world_step w (drop_future h w)
| step_drop_queue w h : world_step w (drop_queue h w).

Definition reachable : World -> Prop := rtc world_step world_new.

(** A future waits exactly while a pending request has it as its callback, and no two do. *)
Record world_ok (w : World) : Prop := {
  ok_callback s p h : pending (manager w) !! s = Some p -> callback p = Some h -> (h < next w)%nat;
  ok_future h f : futures w !! h = Some f -> (h < next w)%nat;
  ok_distinct s s' p p' h : pending (manager w) !! s = Some p -> pending (manager w) !! s' = Some p' ->
    callback p = Some h -> callback p' = Some h -> s = s';
  ok_waiting h f : futures w !! h = Some f ->
    (f = Waiting <-> exists s p, pending (manager w) !! s = Some p /\ callback p = Some h);
  ok_invalid s p : invalid (manager w) = true -> pending (manager w) !! s = Some p -> callback p = None
}.

(** The wire form of a packet. *)
Definition packet_bytes (seq : list Z) (flags : Z) (parts : list (list Z)) : list Z :=
  u16_be (length seq) ++ seq ++ [flags] ++ u16_be (length parts) ++ concat (map (fun p => u16_be (length p) ++ p) parts).

Definition packet_ok (seq : list Z) (parts : list (list Z)) : Prop :=
  Z.of_nat (length seq) < 2 ^ 16 /\ Z.of_nat (length parts) < 2 ^ 16 /\ Forall (fun p => Z.of_nat (length p) < 2 ^ 16) parts.

(** [cuts packets parts]: the flags and parts of packets that carry the message [parts]. A packet with
    flag 0 ends at the end of a part, one with flag 2 within a part, and flag 1 marks the last. *)
Inductive cuts : list (Z * list (list Z)) -> list (list Z) -> Prop :=
| cuts_final l : cuts [(1, l)] l
| cuts_more l packets l' : cuts packets l' -> cuts ((0, l) :: packets) (l ++ l')
| cuts_within l a b packets l' : cuts packets (b :: l') -> cuts ((2, l ++ [a]) :: packets) (l ++ (a ++ b) :: l').

(** A packet from the connection; the session dispatches one after the other and goes on after an
    error. *)
Record Incoming := mkIncoming { in_cmd : PacketType; in_seq : list Z; in_flags : Z; in_parts : list (list Z) }.

Definition in_bytes (p : Incoming) : list Z := packet_bytes (in_seq p) (in_flags p) (in_parts p).

Fixpoint dispatch_all (l : list Incoming) (w : World) : res MercuryError World :=
  match l with
  | [] => Ok w
  | p :: l => match dispatch (in_cmd p) (in_bytes p) w with (Panic, _) => Panic | (_, w) => dispatch_all l w end
  end.

(** What arrives while request [seq] waits: well-formed packets, those of other requests not empty, and
    no event under the number of the request. *)
Definition incoming_ok (seq : list Z) (q : Incoming) : Prop :=
  packet_ok (in_seq q) (in_parts q) /\ (in_seq q <> seq -> in_parts q <> []) /\ (in_seq q = seq -> in_cmd q <> MercuryEvent).

(** ** Lemmas *)

Lemma cancel_lookup cb f h :
  cancel cb f !! h =
    (if decide (cb = Some h) then (fun x => match x with Waiting => Cancelled | x => x end) <$> f !! h else f !! h).
Proof.
  unfold cancel. destruct cb as [h'|]; [|by rewrite decide_False].
  destruct (decide (h' = h)) as [->|Hne].
  - rewrite decide_True by done. by rewrite lookup_alter_eq.
  - rewrite decide_False by congruence. by rewrite lookup_alter_ne.
Qed.

(** What becomes of the futures when the request with callback [cb] is given up or answered: only
    that future changes, and it no longer waits. *)
Definition settled (cb : option nat) (f f' : gmap nat future) : Prop :=
  (forall h, cb <> Some h -> f' !! h = f !! h) /\
  (forall h x, cb = Some h -> f' !! h = Some x -> x <> Waiting /\ is_Some (f !! h)).

Lemma settled_cancel cb f : settled cb f (cancel cb f).
Proof.
  split; intros h; rewrite cancel_lookup.
  - intros Hne. by rewrite decide_False.
  - intros x ->. rewrite decide_True by done. intros (y & Hy & ->)%fmap_Some. split; [by destruct y|by eexists].
Qed.

Lemma settled_resolve h r f b f' : resolve h r f = (b, f') -> settled (Some h) f f'.
Proof.
  unfold resolve. destruct (f !! h) eqn:Hh; intros [= <- <-].
  - split; [intros h' Hne; rewrite lookup_insert_ne; congruence|].
    intros h' x [= <-]. rewrite lookup_insert_eq. intros [= <-]. split; [done|by eexists].
  - split; [done|]. intros h' x [= <-]. by rewrite Hh.
Qed.

Lemma settled_refl f : settled None f f.
Proof. done. Qed.

(** The part of the world the invariant is about. *)
Definition same_requests (w w' : World) : Prop :=
  pending (manager w') = pending (manager w) /\ invalid (manager w') = invalid (manager w) /\
  sequence (manager w') = sequence (manager w) /\ next w' = next w.

Lemma complete_request_settles cmd p w :
  settled (callback p) (futures w) (futures (complete_request cmd p w).2) /\
  same_requests w (complete_request cmd p w).2.
Proof.
  unfold complete_request. destruct (parts p) as [|hd rest]; [by split; [apply settled_cancel|]|].
  destruct (parse_header hd) as [[u code]|]; [|by split; [apply settled_cancel|]].
  case_if; [by split; [apply settled_cancel|]|].
  assert (forall r, let '(ok, f) := match callback p with Some cb => resolve cb r (futures w) | None => (true, futures w) end in
    settled (callback p) (futures w) f) as Hres.
  { intros r. destruct (callback p) as [cb|]; [|done]. destruct (resolve cb r (futures w)) eqn:E. by eapply settled_resolve. }
  case_if.
  - specialize (Hres (inr (EResponse (mkMercuryResponse u code rest)))).
    destruct (callback p) as [cb|]; [|done]. unfold resolve in *. by destruct (futures w !! cb).
  - case_if.
    + destruct (notify _ _ _ _) as [[found subs] q].
      destruct found; [by split; [apply settled_cancel|]|]. by destruct (dealer_handles u); (split; [apply settled_cancel|]).
    + specialize (Hres (inl (mkMercuryResponse u code rest))).
      destruct (callback p) as [cb|]; [|done]. unfold resolve in *. by destruct (futures w !! cb).
Qed.

Lemma mercury_new_ok : world_ok world_new.
Proof. split; simpl; intros *; rewrite ?lookup_empty; done. Qed.

(** Worlds that agree on requests and futures. *)
Lemma requests_ok_same w w' :
  world_ok w -> pending (manager w') = pending (manager w) -> invalid (manager w') = invalid (manager w) ->
  futures w' = futures w -> (next w <= next w')%nat -> world_ok w'.
Proof.
  intros [Hc Hf Hd Hw Hi] Hp Hv Hfu Hn. split; intros *; rewrite ?Hp, ?Hv, ?Hfu; eauto.
  - intros H1 H2. specialize (Hc _ _ _ H1 H2). lia.
  - intros H1. specialize (Hf _ _ H1). lia.
Qed.

(** A request is taken out and its future settled. *)
Lemma settle_ok w w' s p :
  world_ok w -> pending (manager w) !! s = Some p -> pending (manager w') = base.delete s (pending (manager w)) ->
  invalid (manager w') = invalid (manager w) -> next w' = next w -> settled (callback p) (futures w) (futures w') ->
  world_ok w'.
Proof.
  intros [Hc Hf Hd Hw Hi] Hs Hp Hv Hn [Hother Hmine]. split; intros *; rewrite ?Hp, ?Hv, ?Hn, ?lookup_delete_Some.
  - intros [_ H1]. by eapply Hc.
  - intros Hh. destruct (decide (callback p = Some h)) as [Hcb|Hne]; [|rewrite Hother in Hh by done; by eapply Hf].
    destruct (Hmine h _ Hcb Hh) as [_ [x Hx]]. by eapply Hf.
  - intros [_ H1] [_ H2]. by eapply Hd.
  - intros Hh. destruct (decide (callback p = Some h)) as [Hcb|Hne].
    + destruct (Hmine h _ Hcb Hh) as [Hnw _]. split; [done|]. intros (s' & p' & [Hne Hs']%lookup_delete_Some & Hcb').
      destruct Hne. by eapply Hd.
    + rewrite Hother in Hh by done. rewrite (Hw _ _ Hh). split; intros (s' & p' & Hs' & Hcb').
      * exists s', p'. rewrite lookup_delete_Some. split; [|done]. split; [|done]. intros <-. congruence.
      * apply lookup_delete_Some in Hs' as [_ Hs']. by exists s', p'.
  - intros Hinv [_ H1]. by eapply Hi.
Qed.

(** A request that is put back with the same callback. *)
Lemma put_back_ok w w' s p p' :
  world_ok w -> pending (manager w) !! s = Some p \/ (callback p = None /\ pending (manager w) !! s = None) ->
  callback p' = callback p -> pending (manager w') = <[s := p']> (pending (manager w)) ->
  invalid (manager w') = invalid (manager w) -> next w' = next w -> futures w' = futures w -> world_ok w'.
Proof.
  intros [Hc Hf Hd Hw Hi] Hs Hcb Hp Hv Hn Hfu.
  assert (forall s1 p1 h, pending (manager w') !! s1 = Some p1 -> callback p1 = Some h ->
    exists p2, pending (manager w) !! s1 = Some p2 /\ callback p2 = Some h) as Hback.
  { intros s1 p1 h. rewrite Hp, lookup_insert_Some. intros [[<- <-]|[_ H1]] H2; [|by eauto].
    rewrite Hcb in H2. destruct Hs as [Hs|[Hs _]]; [by eauto|congruence]. }
  split.
  - intros s1 p1 h H1 H2. rewrite Hn. destruct (Hback _ _ _ H1 H2) as (p2 & H3 & H4). by eapply Hc.
  - intros h f. rewrite Hfu, Hn. by eapply Hf.
  - intros s1 s2 p1 p2 h H1 H2 H3 H4. destruct (Hback _ _ _ H1 H3) as (? & ? & ?), (Hback _ _ _ H2 H4) as (? & ? & ?).
    by eapply Hd.
  - intros h f. rewrite Hfu. intros Hh. rewrite (Hw _ _ Hh). split; intros (s1 & p1 & H1 & H2); [|by eauto].
    rewrite Hp. destruct (decide (s1 = s)) as [->|Hne].
    + exists s, p'. rewrite lookup_insert_eq, Hcb. destruct Hs as [Hs|[_ Hs]]; [by simplify_eq|congruence].
    + exists s1, p1. by rewrite lookup_insert_ne.
  - intros s1 p1 Hinv. rewrite Hv in Hinv. rewrite Hp, lookup_insert_Some. intros [[<- <-]|[_ H1]]; [|by eapply Hi].
    rewrite Hcb. destruct Hs as [Hs|[Hs _]]; [by eapply Hi|done].
Qed.

Lemma parts_loop_callback n flags data p p' : parts_loop n flags data p = Ok p' -> callback p' = callback p.
Proof.
  revert data p; induction n as [|n IH]; intros data p; cbn [parts_loop]; [by intros [= <-]|].
  destruct (parse_part data) as [[part rest]| |]; [|done..]. cbn [mbind res_bind]. intros H%IH. rewrite H.
  by destruct ((n =? 0)%nat && (flags =? 2)).
Qed.

Lemma mercury_dispatch_ok cmd data w : world_ok w -> world_ok (dispatch cmd data w).2.
Proof.
  intros Hok. unfold dispatch. destruct (parse_packet data) as [[[[seq flags] count] rest]| |]; [|done..].
  set (w0 := set_manager _ w).
  destruct (pending (manager w) !! seq) as [p|] eqn:Hs.
  - destruct (parts_loop count flags rest p) as [p'| |] eqn:E.
    + apply parts_loop_callback in E. case_if.
      * destruct (complete_request_settles cmd p' w0) as [Hset (H1 & H2 & H3 & H4)]. rewrite E in Hset.
        by apply (settle_ok w _ seq p).
      * apply (put_back_ok w _ seq p p'); try done; [by left|]. cbn. by rewrite insert_delete_eq.
    + apply (settle_ok w _ seq p); try done. apply settled_cancel.
    + apply (settle_ok w _ seq p); try done. apply settled_cancel.
  - assert (pending (manager w0) = pending (manager w)) as Hp0 by (cbn; by rewrite delete_id).
    assert (world_ok w0) as Hok0 by (by apply (requests_ok_same w)).
    case_bool_decide; [|done]. destruct (parts_loop count flags rest _) as [p'| |] eqn:E; [|done..].
    apply parts_loop_callback in E. case_if.
    + destruct (complete_request_settles cmd p' w0) as [[Hset _] (H1 & H2 & H3 & H4)]. rewrite E in Hset.
      apply (requests_ok_same w0); try done; [|by rewrite H4]. apply map_eq. intros h. by apply Hset.
    + apply (put_back_ok w0 _ seq (mkMercuryPending [] None None) p'); try done. right. by rewrite Hp0.
Qed.

(** A new request with a new future, which its user may have dropped already. *)
Lemma add_request_ok w w' s :
  world_ok w -> pending (manager w) !! s = None -> invalid (manager w) = false -> invalid (manager w') = false ->
  pending (manager w') = <[s := mkMercuryPending [] None (Some (next w))]> (pending (manager w)) ->
  next w' = S (next w) ->
  (forall h f, futures w' !! h = Some f -> (h = next w /\ f = Waiting) \/ (h <> next w /\ futures w !! h = Some f)) ->
  world_ok w'.
Proof.
  intros [Hc Hf Hd Hw Hi] Hs Hv0 Hv Hp Hn Hfu. split; intros *; rewrite ?Hp, ?Hn, ?lookup_insert_Some.
  - intros [[<- <-]|[_ H1]] H2; [simpl in H2; simplify_eq; lia|]. specialize (Hc _ _ _ H1 H2). lia.
  - intros [[-> _]|[_ H1]]%Hfu; [lia|]. specialize (Hf _ _ H1). lia.
  - intros [[<- <-]|[_ H1]] [[H2 H3]|[_ H2]] H4 H5; simpl in *; simplify_eq; try done.
    + specialize (Hc _ _ _ H2 H5). simpl in *. simplify_eq. lia.
    + specialize (Hc _ _ _ H1 H4). simpl in *. simplify_eq. lia.
    + by eapply Hd.
  - intros [[-> ->]|[Hne H1]]%Hfu.
    + split; [|done]. intros _. eexists s, _. by rewrite lookup_insert_eq.
    + rewrite (Hw _ _ H1). split; intros (s1 & p1 & H2 & H3); exists s1, p1.
      * split; [|done]. rewrite lookup_insert_ne; [done|]. intros <-. congruence.
      * apply lookup_insert_Some in H2 as [[_ <-]|[_ H2]]; [simpl in H3; congruence|done].
  - congruence.
Qed.

Lemma request_ok c r w : world_ok w -> world_ok (request c r w).2.
Proof.
  intros Hok. unfold request, next_seq, seq_get. cbn [pending invalid sequence].
  set (seq := be_split 8 _). destruct (invalid (manager w)) eqn:Hv.
  - assert (forall (w' : World), pending (manager w') = pending (manager w) -> invalid (manager w') = true -> next w' = S (next w) ->
      (forall h f, futures w' !! h = Some f -> (h = next w /\ f = Cancelled) \/ (h <> next w /\ futures w !! h = Some f)) -> world_ok w') as Hgen.
    { intros w' Hp Hv' Hn Hfu. destruct Hok as [Hc Hf Hd Hw Hi]. split; intros *; rewrite ?Hp, ?Hn.
      - intros H1 H2. specialize (Hc _ _ _ H1 H2). lia.
      - intros [[-> _]|[_ H1]]%Hfu; [lia|]. specialize (Hf _ _ H1). lia.
      - apply Hd.
      - intros [[-> ->]|[_ H1]]%Hfu; [|by apply Hw]. split; [done|]. intros (s & p & H1 & H2). specialize (Hc _ _ _ H1 H2). lia.
      - intros _. by apply Hi. }
    destruct c; apply Hgen; try done; intros h f; cbn [futures snd].
    + rewrite lookup_insert_Some. intros [[<- <-]|[Hne H1]]; auto.
    + rewrite lookup_delete_Some, lookup_insert_Some. intros [Hne [[<- <-]|[_ H1]]]; auto.
  - set (old := match pending (manager w) !! seq with Some p => callback p | None => None end).
    set (w1 := mkWorld (set_pending (base.delete seq (pending (manager w))) (manager w)) (cancel old (futures w)) (queues w) (next w) (sent w)).
    assert (world_ok w1) as Hok1.
    { unfold w1, old. destruct (pending (manager w) !! seq) as [p|] eqn:Hs.
      - apply (settle_ok w _ seq p); try done. apply settled_cancel.
      - apply (requests_ok_same w); try done. cbn. by rewrite delete_id. }
    destruct c; apply (add_request_ok w1 _ seq Hok1); try done; cbn; try apply lookup_delete_eq;
      try (by rewrite insert_delete_eq); intros h f.
    + rewrite lookup_insert_Some. intros [[<- <-]|[Hne H1]]; auto.
    + rewrite lookup_delete_Some, lookup_insert_Some. intros [Hne [[<- <-]|[_ H1]]]; auto.
Qed.

Lemma shutdown_futures (ps : gmap (list Z) MercuryPending) (f : gmap nat future) :
  let f' := map_fold (fun _ p f => cancel (callback p) f) f ps in
  forall h x, f' !! h = Some x ->
    exists y, f !! h = Some y /\ ((forall s p, ps !! s = Some p -> callback p <> Some h) \/ x <> Waiting) /\ (y <> Waiting -> x <> Waiting).
Proof.
  apply (map_fold_weak_ind (fun f' ps => forall h x, f' !! h = Some x -> exists y, f !! h = Some y /\
    ((forall s p, ps !! s = Some p -> callback p <> Some h) \/ x <> Waiting) /\ (y <> Waiting -> x <> Waiting))).
  - intros h x Hx. exists x. split; [done|]. split; [|done]. left. intros s p. by rewrite lookup_empty.
  - intros s p ps' f' Hs IH h x. rewrite cancel_lookup. case_decide as Hcb.
    + intros (y & Hy & ->)%fmap_Some. destruct (IH h y Hy) as (z & Hz & _ & Hzw). exists z. split; [done|].
      split; [right; by destruct y|]. intros Hz'. by destruct y.
    + intros Hx. destruct (IH h x Hx) as (y & Hy & Hor & Himp). exists y. split_and!; [done| |done].
      destruct Hor as [Hno|Hnw]; [left|by right]. intros s' p'. rewrite lookup_insert_Some.
      intros [[_ <-]|[_ H1]]; [done|by eapply Hno].
Qed.

Lemma shutdown_waiting w h f : world_ok w -> futures (shutdown w) !! h = Some f -> f <> Waiting.
Proof.
  intros Hok Hf. destruct (shutdown_futures (pending (manager w)) (futures w) h f Hf) as (y & Hy & [Hno|Hnw] & Himp); [|done].
  apply Himp. intros Hyw. apply (ok_waiting w Hok _ _ Hy) in Hyw as (s & p & Hs & Hcb). by eapply Hno.
Qed.

Lemma mercury_shutdown_ok w : world_ok w -> world_ok (shutdown w).
Proof.
  intros Hok. split; intros *; cbn [shutdown manager pending invalid next]; rewrite ?lookup_empty; try done.
  - intros Hf. destruct (shutdown_futures _ _ _ _ Hf) as (y & Hy & _). by eapply ok_future.
  - intros Hf. split; [intros ->; by eapply shutdown_waiting in Hf|]. intros (s & p & H & _). by rewrite lookup_empty in H.
Qed.

Lemma mercury_step_ok w w' : world_ok w -> world_step w w' -> world_ok w'.
Proof.
  intros Hok Hstep. revert Hok. destruct Hstep as [w0 c r|w0 u r|w0 u|w0 cmd data|w0|w0 h|w0 h]; intros Hok.
  - by apply request_ok.
  - apply (requests_ok_same w0); try done; unfold subscribed; simpl; [by destruct (invalid (manager w0)) eqn:?..|lia].
  - apply (requests_ok_same w0); try done; unfold listen_for; simpl; [by destruct (invalid (manager w0)) eqn:?..|lia].
  - by apply mercury_dispatch_ok.
  - by apply mercury_shutdown_ok.
  - destruct Hok as [Hc Hf Hd Hw Hi]. split; simpl; eauto; intros h' f [_ H]%lookup_delete_Some; eauto.
  - by apply (requests_ok_same w0).
Qed.

Lemma complete_keeps_invalid cmd data w : invalid (manager w) = true -> invalid (manager (dispatch cmd data w).2) = true.
Proof.
  intros Hi. unfold dispatch. destruct (parse_packet data) as [[[[seq flags] count] rest]| |]; [|done..].
  destruct (match pending (manager w) !! seq with Some p => _ | None => _ end) as [p|]; [|done].
  destruct (parts_loop count flags rest p) as [p'| |]; [|done..]. case_if; [|done].
  destruct (complete_request_settles cmd p' (set_manager (set_pending (base.delete seq (pending (manager w))) (manager w)) w))
    as [_ (_ & -> & _)]. done.
Qed.

Lemma step_stays_invalid w w' : world_step w w' -> invalid (manager w) = true -> invalid (manager w') = true.
Proof.
  intros Hs Hi. destruct Hs as [w0 c r|w0 u r|w0 u|w0 cmd data|w0|w0 h|w0 h]; try done.
  - unfold request, next_seq, seq_get. cbn [invalid]. rewrite Hi. by destruct c.
  - unfold subscribed. cbn. by rewrite Hi.
  - unfold listen_for. cbn. by rewrite Hi.
  - by apply complete_keeps_invalid.
Qed.

Lemma mercury_reachable_ok w : reachable w -> world_ok w.
Proof.
  intros Hr. eapply (rtc_ind_r (fun w => world_ok w)); [apply mercury_new_ok| |exact Hr].
  intros x y _ Hs Hx. by eapply mercury_step_ok.
Qed.

(** ** Reassembly *)

Definition part_bytes (p : list Z) : list Z := u16_be (length p) ++ p.

(** The loop on parts that were read. *)
Fixpoint absorb (flags : Z) (l : list (list Z)) (p : MercuryPending) : MercuryPending :=
  match l with
  | [] => p
  | a :: l =>
      let a := match partial p with Some x => x ++ a | None => a end in
      absorb flags l
        (if (length l =? 0)%nat && (flags =? 2) then mkMercuryPending (parts p) (Some a) (callback p)
         else mkMercuryPending (parts p ++ [a]) None (callback p))
  end.

Lemma u16_be_combine n : Z.of_nat n < 2 ^ 16 -> Z.to_nat (be_combine (u16_be n)) = n.
Proof.
  intros Hn. unfold u16_be. rewrite be_combine_split by (apply (wrap_fits 16); lia).
  rewrite wrap_small by (unfold fits; lia). lia.
Qed.

Lemma parse_part_bytes a rest : Z.of_nat (length a) < 2 ^ 16 -> parse_part (part_bytes a ++ rest) = Ok (a, rest).
Proof.
  intros Ha. unfold parse_part, part_bytes. rewrite <- app_assoc. rewrite split_to_app by apply length_be_split.
  cbn [mbind res_bind]. rewrite u16_be_combine by done. by rewrite split_to_app.
Qed.

Lemma parts_loop_absorb l flags p :
  Forall (fun a => Z.of_nat (length a) < 2 ^ 16) l ->
  parts_loop (length l) flags (concat (map part_bytes l)) p = Ok (absorb flags l p).
Proof.
  revert p; induction l as [|a l IH]; intros p Hl; [done|]. apply Forall_cons in Hl as [Ha Hl].
  cbn [length map concat parts_loop absorb]. rewrite parse_part_bytes by done. cbn [mbind res_bind]. by apply IH.
Qed.

Lemma parse_packet_bytes seq flags l :
  packet_ok seq l ->
  parse_packet (packet_bytes seq flags l) = Ok (seq, flags, length l, concat (map part_bytes l)).
Proof.
  intros (Hs & Hn & _). unfold parse_packet, packet_bytes. rewrite split_to_app by apply length_be_split.
  cbn [mbind res_bind]. rewrite u16_be_combine by done. rewrite split_to_app by done. cbn [mbind res_bind].
  rewrite split_to_app by done. cbn [mbind res_bind]. rewrite split_to_app by apply length_be_split.
  cbn [mbind res_bind]. by rewrite u16_be_combine.
Qed.

(** The parts of the whole message when [rest] is still to come. *)
Definition whole (p : MercuryPending) (rest : list (list Z)) : list (list Z) :=
  parts p ++ match partial p, rest with Some x, b :: rest => (x ++ b) :: rest | Some _, [] => [] | None, _ => rest end.

Definition continues (p : MercuryPending) (rest : list (list Z)) : Prop := partial p = None \/ rest <> [].

Lemma absorb_plain flags l p :
  flags <> 2 -> l <> [] -> parts (absorb flags l p) = whole p l /\ partial (absorb flags l p) = None.
Proof.
  intros Hf. revert p; induction l as [|a l IH]; intros p Hl; [done|]. cbn [absorb].
  destruct (Z.eqb_spec flags 2); [done|]. rewrite andb_false_r. destruct l as [|b l].
  - simpl. unfold whole. by destruct (partial p).
  - destruct (IH (mkMercuryPending (parts p ++ [match partial p with Some x => x ++ a | None => a end]) None (callback p))) as [-> ->]; [done|].
    unfold whole. cbn [partial parts]. rewrite <- app_assoc. by destruct (partial p).
Qed.

Lemma absorb_more flags l p rest :
  flags <> 2 -> continues p (l ++ rest) ->
  whole (absorb flags l p) rest = whole p (l ++ rest) /\ continues (absorb flags l p) rest.
Proof.
  intros Hf Hc. destruct l as [|a l]; [done|]. destruct (absorb_plain flags (a :: l) p Hf) as [H1 H2]; [done|].
  unfold whole at 1, continues. rewrite H1, H2. split; [|by left]. unfold whole. rewrite <- app_assoc. by destruct (partial p).
Qed.

Lemma absorb_within l a b p rest :
  whole (absorb 2 (l ++ [a]) p) (b :: rest) = whole p (l ++ (a ++ b) :: rest) /\
  continues (absorb 2 (l ++ [a]) p) (b :: rest).
Proof.
  split; [|by right]. revert p; induction l as [|c l IH]; intros p; cbn [app absorb].
  - cbn [length Nat.eqb]. cbn [absorb andb Z.eqb Pos.eqb]. unfold whole. cbn [parts partial].
    destruct (partial p); [|done]. by rewrite app_assoc.
  - rewrite length_app. replace (length l + length [a] =? 0)%nat with false by (symmetry; apply Nat.eqb_neq; simpl; lia).
    cbn [andb]. rewrite IH. unfold whole. cbn [parts partial]. rewrite <- app_assoc. by destruct (partial p).
Qed.

Lemma absorb_callback flags l p : callback (absorb flags l p) = callback p.
Proof.
  revert p; induction l as [|a l IH]; intros p; cbn [absorb]; [done|]. rewrite IH.
  by destruct ((length l =? 0)%nat && (flags =? 2)).
Qed.

Lemma cuts_nonempty packets l : cuts packets l -> packets <> [].
Proof. by destruct 1. Qed.

Lemma complete_no_panic cmd p w : parts p <> [] -> (complete_request cmd p w).1 <> Panic.
Proof.
  unfold complete_request. intros Hp. destruct (parts p) as [|hd rest]; [done|].
  destruct (parse_header hd) as [[u code]|]; [|done]. case_if; [done|]. case_if.
  - destruct (callback p) as [cb|]; [|done]. by destruct (resolve cb _ _) as [[] f].
  - case_if.
    + destruct (notify _ _ _ _) as [[[] subs] q]; [done|]. by destruct (dealer_handles u).
    + destruct (callback p) as [cb|]; [|done]. by destruct (resolve cb _ _) as [[] f].
Qed.

Lemma absorb_final_nonempty l p : l <> [] -> parts (absorb 1 l p) <> [].
Proof.
  intros Hl. destruct (absorb_plain 1 l p ltac:(done) Hl) as [-> _]. unfold whole. intros [_ H]%app_nil.
  destruct (partial p), l; done.
Qed.

(** A packet for another request. *)
Lemma dispatch_other q w h :
  packet_ok (in_seq q) (in_parts q) -> in_parts q <> [] ->
  (forall p, pending (manager w) !! in_seq q = Some p -> callback p <> Some h) ->
  exists r w', dispatch (in_cmd q) (in_bytes q) w = (r, w') /\ r <> Panic /\ futures w' !! h = futures w !! h /\
    forall s, s <> in_seq q -> pending (manager w') !! s = pending (manager w) !! s.
Proof.
  intros Hok Hne Hcb. unfold dispatch, in_bytes. rewrite parse_packet_bytes by done.
  set (w0 := set_manager _ w). set (found := match pending (manager w) !! in_seq q with Some p => Some p | None => _ end).
  assert (forall p, found = Some p -> callback p <> Some h) as Hf.
  { intros p. unfold found. destruct (pending (manager w) !! in_seq q) as [p0|]; [intros [= ->]; by apply Hcb|].
    case_bool_decide; [|done]. by intros [= <-]. }
  assert (forall s, s <> in_seq q -> pending (manager w0) !! s = pending (manager w) !! s) as Hp0
    by (intros s Hs; apply lookup_delete_ne; congruence).
  destruct found as [p|]; [|eexists _, _; split; [reflexivity|]; done].
  rewrite parts_loop_absorb by apply Hok. case_if.
  - destruct (complete_request_settles (in_cmd q) (absorb (in_flags q) (in_parts q) p) w0) as [[Hset _] (Hp & _)].
    pose proof (complete_no_panic (in_cmd q) (absorb (in_flags q) (in_parts q) p) w0) as Hnp.
    destruct (complete_request _ _ _) as [r w']. exists r, w'. cbn [fst snd] in *. split; [done|]. split.
    + apply Hnp. replace (in_flags q) with 1 by done. by apply absorb_final_nonempty.
    + split; [|intros s Hs; rewrite Hp; by apply Hp0]. rewrite Hset; [done|]. rewrite absorb_callback. by apply Hf.
  - eexists _, _. split; [reflexivity|]. split; [done|]. split; [done|]. intros s Hs. cbn.
    rewrite lookup_insert_ne by congruence. rewrite lookup_delete_ne by congruence. done.
Qed.

(** A packet of the request itself. *)
Lemma dispatch_more q w p :
  packet_ok (in_seq q) (in_parts q) -> pending (manager w) !! in_seq q = Some p -> in_flags q <> 1 ->
  exists w', dispatch (in_cmd q) (in_bytes q) w = (Ok tt, w') /\ futures w' = futures w /\
    pending (manager w') !! in_seq q = Some (absorb (in_flags q) (in_parts q) p).
Proof.
  intros Hok Hp Hf. unfold dispatch, in_bytes. rewrite parse_packet_bytes by done. rewrite Hp.
  rewrite parts_loop_absorb by apply Hok. case_if; [done|]. eexists. split; [reflexivity|]. split; [done|].
  cbn. by rewrite lookup_insert_eq.
Qed.

Lemma dispatch_final q w p h hd rest u code :
  packet_ok (in_seq q) (in_parts q) -> pending (manager w) !! in_seq q = Some p -> in_flags q = 1 ->
  in_cmd q <> MercuryEvent -> callback p = Some h -> is_Some (futures w !! h) ->
  parts (absorb 1 (in_parts q) p) = hd :: rest -> parse_header hd = Some (u, code) -> code < 400 ->
  exists w', dispatch (in_cmd q) (in_bytes q) w = (Ok tt, w') /\
    futures w' !! h = Some (Resolved (inl (mkMercuryResponse u code rest))).
Proof.
  intros Hok Hp Hf Hcmd Hcb [x Hx] Hparts Hh Hcode. unfold dispatch, in_bytes. rewrite parse_packet_bytes by done.
  rewrite Hp, Hf. rewrite parts_loop_absorb by apply Hok. cbn [Z.eqb Pos.eqb].
  unfold complete_request. rewrite Hparts, Hh, absorb_callback, Hcb.
  case_if; [lia|]. case_if; [lia|]. rewrite bool_decide_false by done.
  unfold resolve. cbn [futures set_manager]. rewrite Hx. eexists. split; [reflexivity|]. cbn. by rewrite lookup_insert_eq.
Qed.

(** Once a future is settled, packets for other requests leave it alone. *)
Lemma dispatch_all_settled l w h x :
  world_ok w -> futures w !! h = Some x -> x <> Waiting ->
  Forall (fun q => packet_ok (in_seq q) (in_parts q) /\ in_parts q <> []) l ->
  exists w', dispatch_all l w = Ok w' /\ futures w' !! h = Some x.
Proof.
  revert w; induction l as [|q l IH]; intros w Hok Hh Hx Hl; [by exists w|]. apply Forall_cons in Hl as [[Hq Hne] Hl].
  destruct (dispatch_other q w h Hq Hne) as (r & w' & E & Hr & Hf & _).
  { intros p Hp Hcb. apply Hx. apply (ok_waiting w Hok _ _ Hh). by eauto. }
  pose proof (mercury_dispatch_ok (in_cmd q) (in_bytes q) w Hok) as Hok'. rewrite E in Hok'.
  destruct (IH w' Hok') as (w'' & E' & Hw''); [by rewrite Hf|done|done|].
  exists w''. split; [|done]. cbn [dispatch_all]. rewrite E. by destruct r.
Qed.

Lemma others_only seq l :
  [] = map (fun q => (in_flags q, in_parts q)) (filter (fun q => in_seq q = seq) l) -> Forall (fun q => in_seq q <> seq) l.
Proof.
  intros H. apply Forall_forall. intros q Hq Hs.
  assert (q ∈ filter (fun q => in_seq q = seq) l) as Hin by (by apply list_elem_of_filter).
  destruct (filter _ l); [by apply elem_of_nil in Hin|done].
Qed.

Lemma dispatch_all_cuts seq h hd rest u code l w p packets message :
  world_ok w -> pending (manager w) !! seq = Some p -> callback p = Some h -> futures w !! h = Some Waiting ->
  Forall (incoming_ok seq) l ->
  map (fun q => (in_flags q, in_parts q)) (filter (fun q => in_seq q = seq) l) = packets ->
  cuts packets message -> continues p message -> whole p message = hd :: rest ->
  parse_header hd = Some (u, code) -> code < 400 ->
  exists w', dispatch_all l w = Ok w' /\ futures w' !! h = Some (Resolved (inl (mkMercuryResponse u code rest))).
Proof.
  intros Hok Hp Hcb Hh Hl Hm Hc Hcont Hw Hhd Hcode.
  revert w p packets message Hok Hp Hcb Hh Hm Hc Hcont Hw; induction l as [|q l IH]; intros w p packets message Hok Hp Hcb Hh Hm Hc Hcont Hw.
  { simpl in Hm. subst packets. by destruct (cuts_nonempty _ _ Hc). }
  apply Forall_cons in Hl as [(Hq & Hother & Hmine) Hl]. specialize (IH Hl).
  pose proof (mercury_dispatch_ok (in_cmd q) (in_bytes q) w Hok) as Hok'.
  destruct (decide (in_seq q = seq)) as [Hs|Hs].
  2:{ rewrite filter_cons_False in Hm by done.
      destruct (dispatch_other q w h Hq (Hother Hs)) as (r & w' & E & Hr & Hf & Hpend).
      { intros p' Hp' Hcb'. apply Hs. by eapply (ok_distinct w Hok). }
      rewrite E in Hok'. cbn [dispatch_all]. rewrite E.
      assert (exists w'', dispatch_all l w' = Ok w'' /\ futures w'' !! h = Some (Resolved (inl (mkMercuryResponse u code rest)))) as Hgoal;
        [|by destruct r].
      eapply (IH w' p packets message Hok'); try done; [rewrite Hpend by congruence; done|by rewrite Hf]. }
  rewrite filter_cons_True in Hm by done. simpl in Hm. subst packets. rewrite <- Hs in Hp. cbn [dispatch_all].
  inversion Hc as [l0 Hf Hl0|l0 pk l' Hc' Hf Hl0|l0 a b pk l' Hc' Hf Hl0]; subst.
  - assert (parts (absorb 1 (in_parts q) p) = hd :: rest) as Hparts.
    { destruct (in_parts q) as [|a l0] eqn:Hl0; [|rewrite <- Hw; by apply absorb_plain].
      destruct Hcont as [Hn|]; [|done]. unfold whole in Hw. rewrite Hn, app_nil_r in Hw. done. }
    destruct (dispatch_final q w p h hd rest u code) as (w' & E & Hf'); try done; [by apply Hmine|].
    rewrite E in *. apply (dispatch_all_settled l w' h _ Hok'); [done..|].
    eapply Forall_impl; [apply Forall_and; split; [exact Hl|apply (others_only (in_seq q)); by symmetry]|].
    intros x [(Hx & Hxo & _) Hxs]. auto.
  - destruct (dispatch_more q w p Hq Hp) as (w' & E & Hf' & Hp'); [congruence|]. rewrite E in *. rewrite <- Hf in Hp'.
    destruct (absorb_more 0 (in_parts q) p l') as [H1 H2]; [done|done|].
    eapply (IH w' (absorb 0 (in_parts q) p) _ l' Hok'); try done; [by rewrite absorb_callback|by rewrite Hf'|by rewrite H1].
  - match goal with H : l0 ++ [a] = _ |- _ => rename H into Hparts end.
    destruct (dispatch_more q w p Hq Hp) as (w' & E & Hf' & Hp'); [congruence|]. rewrite E in *. rewrite <- Hf, <- Hparts in Hp'.
    destruct (absorb_within l0 a b p l') as [H1 H2].
    eapply (IH w' (absorb 2 (l0 ++ [a]) p) _ (b :: l') Hok'); try done; [by rewrite absorb_callback|by rewrite Hf'|by rewrite H1].
Qed.

(** ** Properties *)

(** C38: answers are reassembled: however the parts of an answer with a status below 400 are cut into
    packets, also in the middle of a part, and whatever (non-empty) packets of other requests and
    events come between them, the
    future of the request receives exactly the address and status of the header and the other
    parts, and no packet makes the dispatch panic. *)
Theorem answer_reassembled (w : World) (seq : list Z) (h : nat) (hd : list Z) (rest : list (list Z)) (u : string) (code : Z)
    (l : list Incoming)
    (Hr : reachable w) (Hp : pending (manager w) !! seq = Some (mkMercuryPending [] None (Some h)))
    (Hh : is_Some (futures w !! h)) (Hl : Forall (incoming_ok seq) l)
    (Hc : cuts (map (fun q => (in_flags q, in_parts q)) (filter (fun q => in_seq q = seq) l)) (hd :: rest))
    (Hhd : parse_header hd = Some (u, code)) (Hcode : code < 400) :
  exists w', dispatch_all l w = Ok w' /\ futures w' !! h = Some (Resolved (inl (mkMercuryResponse u code rest))).
Proof.
  pose proof (mercury_reachable_ok w Hr) as Hok. destruct Hh as [f Hh].
  assert (f = Waiting) as ->. { apply (ok_waiting w Hok _ _ Hh). by eauto. }
  eapply (dispatch_all_cuts seq h hd rest u code l w); try done. by left.
Qed.

(** Nobody waits for ever on a closed connection: in every state the program can reach a future
    waits exactly while a pending request holds it, and after the shutdown no future waits, of an
    earlier or of a later request. *)
Theorem shutdown_cancels_requests (w : World) (Hr : reachable w) :
  (forall h f, futures w !! h = Some f ->
    (f = Waiting <-> exists s p, pending (manager w) !! s = Some p /\ callback p = Some h)) /\
  (forall w' h f, rtc world_step (shutdown w) w' -> futures w' !! h = Some f -> f <> Waiting).
Proof.
  pose proof (mercury_reachable_ok w Hr) as Hok. split; [by apply ok_waiting|].
  intros w' h f Hrtc Hf.
  assert (world_ok w' /\ invalid (manager w') = true) as [Hok' Hinv].
  { revert Hrtc. apply (rtc_ind_r (fun w' => world_ok w' /\ invalid (manager w') = true)).
    - split; [by apply mercury_shutdown_ok|done].
    - intros x y _ Hs [Hx Hi]. split; [by eapply mercury_step_ok|]. by eapply step_stays_invalid. }
  intros Hw. apply (ok_waiting _ Hok' _ _ Hf) in Hw as (s & p & Hs & Hcb).
  by rewrite (ok_invalid _ Hok' _ _ Hinv Hs) in Hcb.
Qed.

(** A request is written in the format the answers are read in: its number, the flag for the
    last packet, and as parts the header and the payloads, as long as no length exceeds 16 bits. *)
Theorem request_wire_format (r : MercuryRequest) (seq : list Z)
    (Hok : packet_ok seq (write_header (req_uri r) (method_to_string (method r)) (content_type r) :: req_payload r)) :
  encode r seq =
    packet_bytes seq 1 (write_header (req_uri r) (method_to_string (method r)) (content_type r) :: req_payload r).
Proof.
  destruct Hok as (_ & Hn & _). unfold encode, packet_bytes. cbn [length map concat] in *.
  rewrite (wrap_small 16 (Z.of_nat (length (req_payload r)))) by (unfold fits; lia).
  replace (1 + Z.of_nat (length (req_payload r))) with (Z.of_nat (S (length (req_payload r)))) by lia.
  by rewrite <- !app_assoc.
Qed.
End mercury.

(** ** Examples *)

(** Headers are their address, with status 200. *)
Definition ex_write (uri m : string) (ct : option string) : list Z := bytes uri.
Definition ex_parse (l : list Z) : option (string * Z) := Some (utf8 l, 200).
Definition ex_sub (l : list Z) : option string := Some (utf8 l).
Definition ex_world : World := (get ex_write true "hm://x" world_new).2.

(** An answer in two packets, cut in the middle of a part, with a packet of another request between. *)
Definition ex_incoming : list Incoming :=
  [mkIncoming MercuryReq (be_split 8 0) 2 [bytes "hm://x"; [1; 2]];
   mkIncoming MercuryReq (be_split 8 7) 1 [[5]];
   mkIncoming MercuryReq (be_split 8 0) 1 [[3]; [4]]].

(** ** Witnesses *)

Lemma answer_reassembled_witness :
  exists w', dispatch_all ex_parse id (fun _ => false) ex_incoming ex_world = Ok w' /\
    futures w' !! 0%nat = Some (Resolved (inl (mkMercuryResponse "hm://x" 200 [[1; 2; 3]; [4]]))).
Proof.
  apply (answer_reassembled ex_write ex_parse ex_sub id (fun _ => false) ex_world (be_split 8 0) 0 (bytes "hm://x")
           [[1; 2; 3]; [4]] "hm://x" 200 ex_incoming).
  - apply rtc_once. apply (step_request ex_write ex_parse ex_sub id (fun _ => false) world_new true (mkMercuryRequest Get "hm://x" None [])).
  - reflexivity.
  - by eexists.
  - unfold ex_incoming, incoming_ok, packet_ok. repeat constructor; simpl; try lia; done.
  - apply (cuts_within [bytes "hm://x"] [1; 2] [3] [(1, [[3]; [4]])] [[4]]). constructor.
  - reflexivity.
  - lia.
Defined.

Lemma shutdown_cancels_requests_witness : Cancelled <> Waiting.
Proof.
  eapply (shutdown_cancels_requests ex_write ex_parse ex_sub id (fun _ => false) ex_world).
  - apply rtc_once. apply (step_request ex_write ex_parse ex_sub id (fun _ => false) world_new true (mkMercuryRequest Get "hm://x" None [])).
  - apply rtc_refl.
  - instantiate (1 := 0%nat). reflexivity.
Defined.

Lemma request_wire_format_witness :
  encode ex_write (mkMercuryRequest Send "hm://x" None [[1; 2]]) (be_split 8 0) =
    packet_bytes (be_split 8 0) 1 [bytes "hm://x"; [1; 2]].
Proof.
  apply (request_wire_format ex_write (mkMercuryRequest Send "hm://x" None [[1; 2]])).
  unfold packet_ok. repeat constructor; simpl; lia.
Defined.
