(* ===== verification/Session.v ===== *)
(** * Session ([native/librespot/core/src/session.rs], [audio_key.rs])

    The task that reads the packets of the connection, hands each to the component it is for, and
    keeps the connection alive: the server pings, the client answers after a minute, the server
    acknowledges. Times are in nanoseconds. What the session needs of the components is the class
    [Components]; its instance combines the channels, Mercury and the audio keys. XML parsing is a
    parameter. *)
From S2P Require Import Prelude Text Packet Channel Mercury.

(** ** Audio keys *)

Inductive AudioKeyError := KAesKey | KChannel | KPacket (cmd : Z) | KSequence (seq : Z).

(** What the future of a request ends with; requests hold their future in a store. *)
Inductive key_future := KWaiting | KDone (r : list Z + AudioKeyError).

Record AudioKeyManager := mkAudioKeyManager {
  sequence : Z;
  pending : gmap Z nat;
  keys : gmap nat key_future;
  next : nat
}.

Definition send_key (h : nat) (r : list Z + AudioKeyError) (k : AudioKeyManager) : res AudioKeyError unit * AudioKeyManager :=
  match keys k !! h with
  | Some _ => (Ok tt, mkAudioKeyManager (sequence k) (pending k) (<[h := KDone r]> (keys k)) (next k))
  | None => (Err KChannel, k)
  end.

Definition key_dispatch (cmd : PacketType) (data : list Z) (k : AudioKeyManager) : res AudioKeyError unit * AudioKeyManager :=
  match split_to (E := AudioKeyError) 4 data with
  | Ok (front, data) =>
      let seq := be_combine front in
      match pending k !! seq with
      | None => (Err (KSequence seq), k)
      | Some h =>
          let k := mkAudioKeyManager (sequence k) (base.delete seq (pending k)) (keys k) (next k) in
          match cmd with
          | AesKey => if (length data =? 16)%nat then send_key h (inl data) k else (Panic, k)
          | AesKeyError => if (length data <? 2)%nat then (Panic, k) else send_key h (inr KAesKey) k
          | _ => (Err (KPacket (to_u8 cmd)), k)
          end
      end
  | _ => (Panic, k)
  end.

(** The first half of [request]: the packet of the key request is built from the file and the track. *)
Definition key_request (file track : list Z) (k : AudioKeyManager) : Z * nat * list Z * AudioKeyManager :=
  let '(seq, sequence) := seq_get 32 (sequence k) in
  let h := next k in
  (seq, h, file ++ track ++ be_split 4 seq ++ be_split 2 0,
   mkAudioKeyManager sequence (<[seq := h]> (pending k)) (<[h := KWaiting]> (keys k)) (S h)).

(** The future is dropped after a time-out of 1.5 s; the pending entry stays. *)
Definition key_timeout (h : nat) (k : AudioKeyManager) : AudioKeyManager :=
  mkAudioKeyManager (sequence k) (pending k) (base.delete h (keys k)) (next k).

(** A key that arrives under the number of a request ends its future. *)
Lemma audio_key_delivered file track k key :
  fits 32 (sequence k) -> length key = 16%nat ->
  let '(seq, h, packet, k1) := key_request file track k in
  exists k2, key_dispatch AesKey (be_split 4 seq ++ key) k1 = (Ok tt, k2) /\
    keys k2 !! h = Some (KDone (inl key)) /\ pending k2 = base.delete seq (pending k).
Proof.
  intros Hs Hk. unfold key_request, seq_get, key_dispatch. rewrite split_to_app by apply length_be_split.
  rewrite be_combine_split by exact Hs. cbn [pending]. rewrite lookup_insert_eq.
  rewrite Hk. cbn [Nat.eqb]. unfold send_key. cbn [keys]. rewrite lookup_insert_eq.
  eexists. split; [reflexivity|]. cbn [keys pending]. rewrite lookup_insert_eq. split; [done|]. by rewrite delete_insert_eq.
Qed.

(** ** The session *)

Inductive KeepAliveState := ExpectingPing | PendingPong | ExpectingPongAck.

Definition from_secs (n : Z) : Z := n * 1000000000.

Definition INITIAL_PING_TIMEOUT : Z := from_secs 20.
Definition PING_TIMEOUT : Z := from_secs 80.
Definition PONG_DELAY : Z := from_secs 60.
Definition PONG_ACK_TIMEOUT : Z := from_secs 20.

Inductive XmlEvent := XStart (name : list Z) | XEnd | XText (content : option string) | XOther | XError.

Inductive SessionError := SPacket (cmd : Z) | SUtf8 | SXml | SComponent.

(** What a handler ends with: the program exits when the account is not a premium account. *)
Inductive outcome := Done (r : res SessionError unit) | Exit.

(** What the session uses of the components and what it can rely on: they stay [healthy], and once
    they are shut down they are [quiet], with nobody waiting for them. *)
Class Components (P : Type) := {
  channel_dispatch : Z -> PacketType -> list Z -> P -> res SessionError unit * P;
  mercury_dispatch : PacketType -> list Z -> P -> res SessionError unit * P;
  audio_key_dispatch : PacketType -> list Z -> P -> res SessionError unit * P;
  components_shutdown : P -> P;
  healthy : P -> Prop;
  quiet : P -> Prop;
  channel_healthy now cmd data p : Channel.time_ok now -> healthy p -> healthy (channel_dispatch now cmd data p).2;
  mercury_healthy cmd data p : healthy p -> healthy (mercury_dispatch cmd data p).2;
  audio_key_healthy cmd data p : healthy p -> healthy (audio_key_dispatch cmd data p).2;
  shutdown_healthy p : healthy p -> healthy (components_shutdown p);
  shutdown_quiet p : healthy p -> quiet (components_shutdown p)
}.

Section session.
Context {Parts : Type} {C : Components Parts}.
(** The events of an XML document up to its end. *)
Variable read_xml : string -> list XmlEvent.

Record SessionData := mkSessionData {
  time_delta : Z;
  invalid : bool;
  country : string;
  attributes : gmap string string
}.

(** The dispatch task with the session it belongs to; [deadline] is when the timer fires. *)
Record Task := mkTask {
  keep_alive_state : KeepAliveState;
  deadline : Z;
  data : SessionData;
  parts : Parts;
  sent : list (PacketType * list Z)
}.

Definition task_new (now : Z) (d : SessionData) (p : Parts) : Task :=
  mkTask ExpectingPing (now + INITIAL_PING_TIMEOUT) d p [].

Definition set_data (d : SessionData) (t : Task) : Task := mkTask (keep_alive_state t) (deadline t) d (parts t) (sent t).
Definition set_parts (p : Parts) (t : Task) : Task := mkTask (keep_alive_state t) (deadline t) (data t) p (sent t).
Definition set_keep_alive (s : KeepAliveState) (deadline : Z) (t : Task) : Task :=
  mkTask s deadline (data t) (parts t) (sent t).

(** [Session::shutdown] *)
Definition shutdown (t : Task) : Task :=
  set_parts (components_shutdown (parts t))
    (set_data (mkSessionData (time_delta (data t)) true (country (data t)) (attributes (data t))) t).

(** [check_catalogue] passes unless the account type is known and not premium. *)
Definition check_catalogue (attrs : gmap string string) : bool :=
  match attrs !! "type" with Some t => bool_decide (t = "premium") | None => true end.

(** The loop over the product information: the text of an element is its attribute. *)
Fixpoint read_attributes (events : list XmlEvent) (current : string) (attrs : gmap string string)
    : res SessionError (gmap string string) :=
  match events with
  | [] => Ok attrs
  | XStart name :: events => current ← ok_or SUtf8 (from_utf8 name); read_attributes events current attrs
  | XEnd :: events => read_attributes events "" attrs
  | XText content :: events =>
      if is_empty current then read_attributes events current attrs
      else text ← ok_or SXml content; read_attributes events current (<[current := text]> attrs)
  | (XOther | XError) :: events => read_attributes events current attrs
  end.

(** [i64::saturating_sub] of the server's and the own clock *)
Definition i64_saturating_sub (a b : Z) : Z := Z.max (- 2 ^ 63) (Z.min (2 ^ 63 - 1) (a - b)).

Definition component (d : Parts -> res SessionError unit * Parts) (t : Task) : outcome * Task :=
  let '(r, p) := d (parts t) in (Done r, set_parts p t).

(** [dispatch]; [now] is the timer's clock and [unix] the wall clock. The timer is reset before the
    content of a ping is read. *)
Definition dispatch (cmd : Z) (payload : list Z) (now unix : Z) (t : Task) : outcome * Task :=
  match from_u8 cmd with
  | None => (Done (Err (SPacket cmd)), t)
  | Some Ping =>
      let t := set_keep_alive PendingPong (now + PONG_DELAY) t in
      if (length payload <? 4)%nat then (Done Panic, t)
      else
        let server_timestamp := be_combine (take 4 payload) in
        (Done (Ok tt),
         set_data (mkSessionData (i64_saturating_sub server_timestamp unix) (invalid (data t)) (country (data t))
                     (attributes (data t))) t)
  | Some PongAck => (Done (Ok tt), set_keep_alive ExpectingPing (now + PING_TIMEOUT) t)
  | Some CountryCode =>
      match from_utf8 payload with
      | Some c => (Done (Ok tt), set_data (mkSessionData (time_delta (data t)) (invalid (data t)) c (attributes (data t))) t)
      | None => (Done (Err SUtf8), t)
      end
  | Some ((StreamChunkRes | PChannelError) as c) => component (channel_dispatch now c payload) t
  | Some ((AesKey | AesKeyError) as c) => component (audio_key_dispatch c payload) t
  | Some ((MercuryReq | MercurySub | MercuryUnsub | MercuryEvent) as c) => component (mercury_dispatch c payload) t
  | Some ProductInfo =>
      match from_utf8 payload with
      | None => (Done (Err SUtf8), t)
      | Some text =>
          match read_attributes (read_xml text) "" ∅ with
          | Ok attrs =>
              if check_catalogue attrs
              then (Done (Ok tt), set_data (mkSessionData (time_delta (data t)) (invalid (data t)) (country (data t)) attrs) t)
              else (Exit, t)
          | Err e => (Done (Err e), t)
          | Panic => (Done Panic, t)
          end
      end
  | Some (SecretBlock | LegacyWelcome | UnknownDataAllZeros | LicenseVersion) => (Done (Ok tt), t)
  | Some c => (Done (Err (SPacket (to_u8 c))), t)
  end.

(** What the connection has for a poll: packets, then more later, its end or an error. *)
Inductive stream_end := More | EndOfStream | StreamError.

Inductive polled := Pending | Finished (ok : bool) | TimedOut (s : KeepAliveState) | Stopped (exit : bool).

(** The packets that are ready; an error of a handler is only logged. *)
Fixpoint process (packets : list (Z * list Z)) (now unix : Z) (t : Task) : option bool * Task :=
  match packets with
  | [] => (None, t)
  | (cmd, payload) :: packets =>
      match dispatch cmd payload now unix t with
      | (Done (Ok _ | Err _), t) => process packets now unix t
      | (Done Panic, t) => (Some false, t)
      | (Exit, t) => (Some true, t)
      end
  end.

(** [poll] of a task whose session is still held by somebody (otherwise [try_upgrade] fails and the
    task ends at once with [Ok]). A pong is put on the queue of the sender task; the result of
    [send_packet] is ignored by the code, and [sent] lists what was handed to it. *)
Definition poll (packets : list (Z * list Z)) (e : stream_end) (now unix : Z) (t : Task) : polled * Task :=
  match process packets now unix t with
  | (Some exit, t) => (Stopped exit, t)
  | (None, t) =>
      match e with
      | EndOfStream => (Finished true, shutdown t)
      | StreamError => (Finished false, shutdown t)
      | More =>
          if deadline t <=? now then
            match keep_alive_state t with
            | PendingPong =>
                (Pending, mkTask ExpectingPongAck (now + PONG_ACK_TIMEOUT) (data t) (parts t) (sent t ++ [(Pong, [0; 0; 0; 0])]))
            | s => (TimedOut s, if invalid (data t) then t else shutdown t)
            end
          else (Pending, t)
      end
  end.

(** ** Specification *)

(** The keep-alive protocol alone: what a packet does to the state and the deadline, and what a poll
    at time [now] does after the packets; [None] is a lost connection. *)
Definition ka_packet (now : Z) (s : KeepAliveState * Z) (p : Z * list Z) : KeepAliveState * Z :=
  if p.1 =? to_u8 Ping then (PendingPong, now + PONG_DELAY)
  else if p.1 =? to_u8 PongAck then (ExpectingPing, now + PING_TIMEOUT)
  else s.

Definition ka_poll (packets : list (Z * list Z)) (now : Z) (s : KeepAliveState * Z)
    : option (KeepAliveState * Z) * list (PacketType * list Z) :=
  let '(s, deadline) := foldl (ka_packet now) s packets in
  if deadline <=? now then
    match s with
    | PendingPong => (Some (ExpectingPongAck, now + PONG_ACK_TIMEOUT), [(Pong, [0; 0; 0; 0])])
    | _ => (None, [])
    end
  else (Some (s, deadline), []).

Definition ka_state (t : Task) : KeepAliveState * Z := (keep_alive_state t, deadline t).

(** ** Lemmas *)

Lemma dispatch_keep_alive cmd payload now unix t :
  let t' := (dispatch cmd payload now unix t).2 in
  ka_state t' = ka_packet now (ka_state t) (cmd, payload) /\ sent t' = sent t /\ invalid (data t') = invalid (data t).
Proof.
  unfold dispatch, ka_packet. cbn [fst].
  destruct (from_u8 cmd) as [c|] eqn:Hc.
  - apply from_u8_inv in Hc. subst cmd. unfold component.
    destruct c; cbn [to_u8 Z.eqb Pos.eqb]; try done;
      try (by destruct (length payload <? 4)%nat);
      try (by destruct (channel_dispatch _ _ _ _)); try (by destruct (mercury_dispatch _ _ _));
      try (by destruct (audio_key_dispatch _ _ _)); destruct (from_utf8 payload) as [text|]; try done.
    destruct (read_attributes _ _ _) as [attrs| |]; try done. by destruct (check_catalogue attrs).
  - destruct (Z.eqb_spec cmd (to_u8 Ping)) as [->|_]; [by rewrite from_u8_to_u8 in Hc|].
    destruct (Z.eqb_spec cmd (to_u8 PongAck)) as [->|_]; [by rewrite from_u8_to_u8 in Hc|]. done.
Qed.

Lemma dispatch_healthy cmd payload now unix t :
  Channel.time_ok now -> healthy (parts t) -> healthy (parts (dispatch cmd payload now unix t).2).
Proof.
  intros Hn Hh. unfold dispatch. destruct (from_u8 cmd) as [c|]; [|done]. unfold component.
  pose proof (channel_healthy now c payload (parts t) Hn Hh) as H1.
  pose proof (mercury_healthy c payload (parts t) Hh) as H2.
  pose proof (audio_key_healthy c payload (parts t) Hh) as H3.
  destruct c; try done; try (by destruct (length payload <? 4)%nat);
    try (by destruct (channel_dispatch _ _ _ _)); try (by destruct (mercury_dispatch _ _ _));
    try (by destruct (audio_key_dispatch _ _ _)); destruct (from_utf8 payload) as [text|]; try done.
  destruct (read_attributes _ _ _) as [attrs| |]; try done. by destruct (check_catalogue attrs).
Qed.

Lemma process_keep_alive packets now unix t t' :
  process packets now unix t = (None, t') ->
  ka_state t' = foldl (ka_packet now) (ka_state t) packets /\ sent t' = sent t /\ invalid (data t') = invalid (data t).
Proof.
  revert t; induction packets as [|[cmd payload] packets IH]; intros t; cbn [process foldl]; [by intros [= <-]|].
  pose proof (dispatch_keep_alive cmd payload now unix t) as Hd.
  destruct (dispatch cmd payload now unix t) as [[[[]| |]|] t1]; try done; intros H%IH; cbn [snd] in Hd;
    destruct Hd as (H1 & H2 & H3); destruct H as (-> & -> & ->); by rewrite H1, H2, H3.
Qed.

Lemma process_healthy packets now unix t r t' :
  Channel.time_ok now -> healthy (parts t) -> process packets now unix t = (r, t') -> healthy (parts t').
Proof.
  intros Hn. revert t; induction packets as [|[cmd payload] packets IH]; intros t Hh; cbn [process]; [by intros [= <- <-]|].
  pose proof (dispatch_healthy cmd payload now unix t Hn Hh) as Hd.
  destruct (dispatch cmd payload now unix t) as [[[[]| |]|] t1]; cbn [snd] in Hd; [by apply IH|by apply IH|..]; by intros [= <- <-].
Qed.

(** ** Properties *)

(** C39: the task implements the keep-alive protocol, whatever else arrives: while the connection
    lasts, a poll moves state and deadline and sends pongs exactly as the protocol does for the pings
    and acknowledgements among its packets, and reports a time-out exactly when the protocol loses
    the connection. *)
Theorem keep_alive_refines (packets : list (Z * list Z)) (now unix : Z) (t : Task) :
  match poll packets More now unix t with
  | (Pending, t') =>
      exists pongs, ka_poll packets now (ka_state t) = (Some (ka_state t'), pongs) /\ sent t' = sent t ++ pongs /\
        invalid (data t') = invalid (data t)
  | (TimedOut s, t') => ka_poll packets now (ka_state t) = (None, []) /\ sent t' = sent t
  | (Finished _, _) => False
  | (Stopped _, _) => True
  end.
Proof.
  unfold poll. destruct (process packets now unix t) as [[stop|] t1] eqn:E; [done|].
  apply process_keep_alive in E as (Hk & Hs & Hi). unfold ka_poll. rewrite <- Hk.
  unfold ka_state. case_if.
  - destruct (keep_alive_state t1).
    + by destruct (invalid (data t1)).
    + eexists. cbn. by rewrite Hs.
    + by destruct (invalid (data t1)).
  - exists []. by rewrite Hs, app_nil_r.
Qed.

(** A lost connection releases everybody: whenever a poll ends the task, because the stream ended
    or failed or because the server did not keep the connection alive, the session is invalid and no
    component leaves anybody waiting. *)
Theorem lost_connection_releases (packets : list (Z * list Z)) (e : stream_end) (now unix : Z) (t : Task)
    (Hn : Channel.time_ok now) (Hh : healthy (parts t)) (Hv : invalid (data t) = false) :
  match poll packets e now unix t with
  | (Pending, t') => healthy (parts t') /\ invalid (data t') = false
  | (Finished _, t') | (TimedOut _, t') => invalid (data t') = true /\ quiet (parts t')
  | (Stopped _, t') => True
  end.
Proof.
  unfold poll. destruct (process packets now unix t) as [[stop|] t1] eqn:E; [done|].
  pose proof (process_healthy _ _ _ _ _ _ Hn Hh E) as Hh1. apply process_keep_alive in E as (_ & _ & Hi). rewrite Hv in Hi.
  pose proof (shutdown_quiet _ Hh1) as Hq. destruct e; [|done..]. case_if; [|done].
  destruct (keep_alive_state t1); rewrite ?Hi; done.
Qed.

End session.

(** ** The components of the session *)

Section components.
Variable parse_header : list Z -> option (string * Z).
Variable byte_serialize : string -> string.
Variable dealer_handles : string -> bool.

Record SessionParts := mkSessionParts {
  channels_part : Channel.World;
  mercury_part : Mercury.World;
  keys_part : AudioKeyManager
}.

(** Errors of the components are logged. *)
Definition as_error {E} (r : res E unit) : res SessionError unit :=
  match r with Ok _ => Ok tt | Err _ => Err SComponent | Panic => Panic end.

#[global] Instance session_components : Components SessionParts.
Proof.
  refine {|
    channel_dispatch now cmd data p :=
      let '(r, w) := Channel.dispatch cmd data now (channels_part p) in (as_error r, mkSessionParts w (mercury_part p) (keys_part p));
    mercury_dispatch cmd data p :=
      let '(r, w) := Mercury.dispatch parse_header byte_serialize dealer_handles cmd data (mercury_part p) in
      (as_error r, mkSessionParts (channels_part p) w (keys_part p));
    audio_key_dispatch cmd data p :=
      let '(r, k) := key_dispatch cmd data (keys_part p) in (as_error r, mkSessionParts (channels_part p) (mercury_part p) k);
    components_shutdown p :=
      mkSessionParts (Channel.shutdown (channels_part p)) (Mercury.shutdown (mercury_part p)) (keys_part p);
    healthy p := Channel.world_ok (channels_part p) /\ Mercury.world_ok (mercury_part p);
    quiet p :=
      (forall h c, Channel.store (channels_part p) !! h = Some c -> (Channel.poll_next c).1 <> Ok Packet.Pending) /\
      (forall h f, Mercury.futures (mercury_part p) !! h = Some f -> f <> Mercury.Waiting)
  |}.
  - intros now cmd data p Hn [Hc Hm]. destruct (Channel.dispatch cmd data now (channels_part p)) as [r w] eqn:E.
    split; [|done]. eapply Channel.world_step_ok; [exact Hc|]. by eapply Channel.step_dispatch.
  - intros cmd data p [Hc Hm].
    pose proof (Mercury.mercury_dispatch_ok parse_header byte_serialize dealer_handles cmd data _ Hm) as H.
    destruct (Mercury.dispatch _ _ _ cmd data (mercury_part p)) as [r w]. by split.
  - intros cmd data p Hh. by destruct (key_dispatch cmd data (keys_part p)).
  - intros p [Hc Hm]. split; [by apply Channel.shutdown_ok|by apply Mercury.mercury_shutdown_ok].
  - intros p [Hc Hm]. split.
    + intros h c Hh. eapply Channel.invalid_poll; [by apply Channel.shutdown_ok|done|exact Hh].
    + intros h f. by apply Mercury.shutdown_waiting.
Defined.
End components.

(** ** Witnesses *)

Definition ex_components : Components SessionParts := session_components (fun _ => None) id (fun _ => false).
Definition ex_parts : SessionParts := mkSessionParts Channel.world_new Mercury.world_new (mkAudioKeyManager 0 ∅ ∅ 0).

(** The server never pings. *)
Lemma lost_connection_releases_witness :
  let t := task_new 0 (mkSessionData 0 false "" ∅) ex_parts in
  invalid (data (poll (C := ex_components) (fun _ => []) [] More (from_secs 20) 0 t).2) = true.
Proof.
  pose proof (lost_connection_releases (C := ex_components) (fun _ => []) [] More (from_secs 20) 0
    (task_new 0 (mkSessionData 0 false "" ∅) ex_parts)) as H.
  cbv zeta. set (r := poll _ _ _ _ _ _) in *. assert (r.1 = TimedOut ExpectingPing) as Hr by (vm_compute; reflexivity).
  destruct r as [x t']. cbn [fst snd] in *. subst x. apply H; clear H.
  - unfold Channel.time_ok, from_secs. lia.
  - split; [apply Channel.world_new_ok|apply Mercury.mercury_new_ok].
  - reflexivity.
Defined.
