(* ===== verification/DealerMaps.v ===== *)
(** * Handler and subscriber maps ([native/librespot/core/src/dealer/maps.rs])

    Two tries over the components of an address: [HandlerMap] with at most one handler on a path,
    [SubscriberMap] with any number of subscribers at each node. The specification sees a map as
    what is stored at each path. *)
From S2P Require Import Prelude.

Abbreviation path := (list string).

#[warnings="-register-all"]
Inductive HandlerMap (T : Type) :=
| Leaf (t : T)
| Branch (m : gmap string (HandlerMap T)).
Arguments Leaf {T} t.
Arguments Branch {T} m.

Inductive HandlerMapError := AlreadyHandled.

Module Handler.
Section handler.
Context {T : Type}.

Definition default : HandlerMap T := Branch ∅.

Definition contains (m : HandlerMap T) (p : string) : bool :=
  match m with Leaf _ => false | Branch map => bool_decide (is_Some (map !! p)) end.

(** The map comes back also with an error. *)
Fixpoint insert (p : path) (handler : T) (m : HandlerMap T) : res HandlerMapError unit * HandlerMap T :=
  match m, p with
  | Leaf _, _ => (Err AlreadyHandled, m)
  | Branch children, component :: p =>
      let node := match children !! component with Some n => n | None => default end in
      let '(r, node) := insert p handler node in
      (r, Branch (<[component := node]> children))
  | Branch children, [] =>
      if bool_decide (children = ∅) then (Ok tt, Leaf handler) else (Err AlreadyHandled, m)
  end.

Fixpoint get (p : path) (m : HandlerMap T) : option T :=
  match m, p with
  | Leaf t, _ => Some t
  | Branch _, [] => None
  | Branch map, component :: p => n ← map !! component; get p n
  end.

Fixpoint remove (p : path) (m : HandlerMap T) : option T * HandlerMap T :=
  match m, p with
  | Leaf t, _ => (Some t, default)
  | Branch _, [] => (None, m)
  | Branch map, component :: p =>
      match map !! component with
      | None => (None, m)
      | Some next =>
          let '(result, next) := remove p next in
          match next with
          | Branch b =>
              if bool_decide (b = ∅) then (result, Branch (base.delete component map))
              else (result, Branch (<[component := next]> map))
          | _ => (result, Branch (<[component := next]> map))
          end
      end
  end.

(** ** Specification *)

(** The handler stored at exactly a path. *)
Fixpoint exact (p : path) (m : HandlerMap T) : option T :=
  match m, p with
  | Leaf t, [] => Some t
  | Leaf _, _ :: _ => None
  | Branch _, [] => None
  | Branch map, component :: p => n ← map !! component; exact p n
  end.

(** No branch but the root is empty. *)
Inductive full : HandlerMap T -> Prop :=
| full_leaf t : full (Leaf t)
| full_branch m : m <> ∅ -> (forall k n, m !! k = Some n -> full n) -> full (Branch m).

Definition wf (m : HandlerMap T) : Prop := m = default \/ full m.

(** ** Lemmas *)

Lemma exact_default p : exact p default = None.
Proof. destruct p; [done|]. simpl. by rewrite lookup_empty. Qed.

Lemma full_exact m : full m -> exists p, is_Some (exact p m).
Proof.
  induction 1 as [t|m Hne Hm IH]; [by exists []|].
  destruct (map_choose m Hne) as (k & n & Hk). destruct (IH k n Hk) as [p Hp].
  exists (k :: p). simpl. by rewrite Hk.
Qed.

Lemma wf_child m k n : wf (Branch m) -> m !! k = Some n -> full n.
Proof.
  intros [[= ->]|Hf] Hk; [by rewrite lookup_empty in Hk|]. inversion Hf as [|? _ H]. by eapply H.
Qed.

(** The handlers of a map: no path with one extends another. *)
Lemma exact_prefix_free m p q : is_Some (exact p m) -> is_Some (exact (p ++ q) m) -> q = [].
Proof.
  revert m; induction p as [|c p IH]; intros m Hp Hq.
  - destruct m; simpl in *; [|by destruct Hp]. by destruct q; [|destruct Hq].
  - destruct m as [t|m]; [by destruct Hp|]. simpl in *. destruct (m !! c) as [n|]; [|by destruct Hp]. by eapply IH.
Qed.

Lemma get_exact m p t : get p m = Some t <-> exists q r, p = q ++ r /\ exact q m = Some t.
Proof.
  revert m; induction p as [|c p IH]; intros m.
  - destruct m as [u|m]; simpl.
    + split; [intros [= <-]; by exists [], []|]. intros ([|] & r & H & E); [done|discriminate].
    + split; [done|]. intros ([|] & r & H & E); [done|discriminate].
  - destruct m as [u|m]; simpl.
    + split; [intros [= <-]; by exists [], (c :: p)|]. intros ([|] & r & H & E); [done|done].
    + destruct (m !! c) as [n|] eqn:Hc; simpl.
      * rewrite IH. split.
        -- intros (q & r & -> & E). exists (c :: q), r. simpl. by rewrite Hc.
        -- intros ([|d q] & r & H & E); [done|]. injection H as -> ->. simpl in E. rewrite Hc in E. by exists q, r.
      * split; [done|]. intros ([|d q] & r & H & E); [done|]. injection H as -> ->. simpl in E. by rewrite Hc in E.
Qed.

Lemma insert_full p t m m' : wf m -> insert p t m = (Ok tt, m') -> full m'.
Proof.
  revert m m'; induction p as [|c p IH]; intros m m' Hwf; destruct m as [u|m]; simpl; try done.
  - case_bool_decide; [|done]. intros [= <-]. constructor.
  - destruct (insert p t _) as [r n'] eqn:E. intros [= -> <-]. constructor.
    + apply insert_non_empty.
    + intros k n. rewrite lookup_insert_Some. intros [[<- <-]|[_ Hk]]; [|by eapply wf_child].
      eapply IH; [|exact E]. destruct (m !! c) as [n0|] eqn:Hc; [right; by eapply wf_child|by left].
Qed.

Lemma insert_err p t m m' : wf m -> insert p t m = (Err AlreadyHandled, m') -> m' = m.
Proof.
  revert m m'; induction p as [|c p IH]; intros m m' Hwf; destruct m as [u|m]; simpl; try (by intros [= <-]).
  - case_bool_decide; [done|]. by intros [= <-].
  - destruct (m !! c) as [n|] eqn:Hc.
    + destruct (insert p t n) as [r n'] eqn:E. intros [= -> <-].
      rewrite (IH n n') by (done || (right; by eapply wf_child)). by rewrite insert_id.
    + destruct (insert p t default) as [r n'] eqn:E. intros [= -> <-]. exfalso.
      clear -E. revert n' E; induction p as [|d p IH]; intros n'; simpl; [by rewrite bool_decide_true|].
      rewrite lookup_empty. destruct (insert p t default) as [r n] eqn:E. intros [= -> _]. by eapply IH.
Qed.

Lemma insert_exact p t m m' q :
  insert p t m = (Ok tt, m') -> exact q m' = if decide (q = p) then Some t else exact q m.
Proof.
  revert m m' q; induction p as [|c p IH]; intros m m' q; destruct m as [u|m]; simpl; try done.
  - case_bool_decide as Hm; [|done]. intros [= <-]. subst m. destruct q; [done|]. simpl. by rewrite lookup_empty.
  - destruct (insert p t _) as [r n'] eqn:E. intros [= -> <-]. destruct q as [|d q]; [done|]. simpl.
    destruct (decide (c = d)) as [<-|Hne].
    + rewrite lookup_insert_eq. simpl. rewrite (IH _ _ q E).
      destruct (decide (q = p)) as [->|Hq]; [by rewrite decide_True|]. rewrite decide_False by congruence.
      destruct (m !! c); [done|]. apply exact_default.
    + rewrite lookup_insert_ne by done. rewrite decide_False by congruence. done.
Qed.

(** Insertion fails exactly when a handler is on the path or below it. *)
Lemma insert_conflict p t m :
  wf m -> (insert p t m).1 = Err AlreadyHandled <->
  exists q r, is_Some (exact q m) /\ (p = q ++ r \/ q = p ++ r).
Proof.
  revert m; induction p as [|c p IH]; intros m Hwf; destruct m as [u|m]; simpl.
  - split; [|done]. intros _. exists [], []. split; [by eexists|by left].
  - case_bool_decide as Hm; simpl; [split; [done|]|split; [|done]].
    + intros (q & r & [v Hq] & _). subst m. by rewrite exact_default in Hq.
    + intros _. destruct Hwf as [[= ->]|Hf]; [done|]. destruct (full_exact _ Hf) as [q Hq]. exists q, q. auto.
  - split; [|done]. intros _. exists [], (c :: p). split; [by eexists|by left].
  - assert (wf (match m !! c with Some n => n | None => default end)) as Hw.
    { destruct (m !! c) eqn:Hc; [right; by eapply wf_child|by left]. }
    specialize (IH _ Hw). destruct (insert p t _) as [r n']. simpl in *. rewrite IH. split.
    + intros (q & s & Hq & Hpq). destruct (m !! c) as [n|] eqn:Hc; [|rewrite exact_default in Hq; by destruct Hq].
      exists (c :: q), s. simpl. rewrite Hc. split; [done|]. destruct Hpq as [->| ->]; auto.
    + intros ([|d q] & s & Hq & Hpq); [by destruct Hq|]. simpl in Hq.
      assert (c = d) as <- by (destruct Hpq as [[= <- _]|[= <- _]]; done).
      destruct (m !! c) as [n|]; [|by destruct Hq]. exists q, s. split; [done|].
      destruct Hpq as [[= ->]|[= ->]]; auto.
Qed.

Lemma insert_total p t m m' : insert p t m <> (Panic, m').
Proof.
  revert m m'; induction p as [|c p IH]; intros m m'; destruct m as [u|m]; simpl; try done.
  - by case_bool_decide.
  - destruct (insert p t _) as [r n'] eqn:E. intros [= -> _]. by eapply IH.
Qed.

Lemma remove_result p m : (remove p m).1 = get p m.
Proof.
  revert m; induction p as [|c p IH]; intros m; destruct m as [t|m]; simpl; try done.
  destruct (m !! c) as [n|]; [|done]. simpl. rewrite <- IH. destruct (remove p n) as [r [u|b]]; [done|].
  by case_bool_decide.
Qed.

Lemma remove_exact p m q : exact q (remove p m).2 = if decide (q `prefix_of` p) then None else exact q m.
Proof.
  revert m q; induction p as [|c p IH]; intros m q; destruct m as [t|m]; cbn [remove].
  - cbn [snd]. rewrite exact_default. destruct q; [done|]. rewrite decide_False; [done|]. intros [? [=]].
  - cbn [snd]. destruct q as [|d q]; [done|]. rewrite decide_False; [done|]. intros [? [=]].
  - cbn [snd]. rewrite exact_default. by destruct q; [|case_decide].
  - destruct q as [|d q].
    { transitivity (@None T); [|by case_decide]. destruct (m !! c); [|done]. destruct (remove p _) as [r [u|b]]; [done|].
      by case_bool_decide. }
    destruct (decide (c = d)) as [<-|Hne].
    2:{ rewrite decide_False by (intros [? [=]]; congruence). destruct (m !! c); [|done].
        destruct (remove p _) as [r [u|b]]; [|case_bool_decide]; simpl;
          by rewrite ?lookup_insert_ne, ?lookup_delete_ne by done. }
    replace (if decide (c :: q `prefix_of` c :: p) then None else exact (c :: q) (Branch m))
      with (if decide (q `prefix_of` p) then None else n ← m !! c; exact q n).
    2:{ destruct (decide (q `prefix_of` p)) as [H|H].
        - rewrite decide_True; [done|]. by apply prefix_cons.
        - rewrite decide_False; [done|]. by intros ?%prefix_cons_inv_2. }
    destruct (m !! c) as [n|] eqn:Hc; [|simpl; rewrite Hc; by case_decide].
    simpl. rewrite <- (IH n q). destruct (remove p n) as [r [u|b]]; [|case_bool_decide]; simpl.
    + by rewrite lookup_insert_eq.
    + subst b. rewrite lookup_delete_eq. by rewrite exact_default.
    + by rewrite lookup_insert_eq.
Qed.

Lemma remove_wf p m : wf m -> wf (remove p m).2.
Proof.
  revert m; induction p as [|c p IH]; intros m Hwf; destruct m as [t|m]; simpl; try done; try by left.
  destruct (m !! c) as [n|] eqn:Hc; [|done]. specialize (IH n (or_intror (wf_child _ _ _ Hwf Hc))).
  assert (forall m', m' <> ∅ -> (forall k n, m' !! k = Some n -> full n) -> wf (Branch m')) as Hfull by (intros; right; by constructor).
  destruct (remove p n) as [r [u|b]]; cbn [snd] in *; [|case_bool_decide as Hb].
  - apply Hfull; [apply insert_non_empty|]. intros k n'. rewrite lookup_insert_Some.
    intros [[_ <-]|[_ Hk]]; [constructor|by eapply wf_child].
  - simpl. destruct (decide (base.delete c m = ∅)) as [->|Hne]; [by left|].
    apply Hfull; [done|]. intros k n'. rewrite lookup_delete_Some. intros [_ Hk]. by eapply wf_child.
  - apply Hfull; [apply insert_non_empty|]. intros k n'. rewrite lookup_insert_Some.
    intros [[_ <-]|[_ Hk]]; [|by eapply wf_child]. destruct IH as [[= ->]|Hf]; [done|done].
Qed.

(** ** Properties *)

(** A handler map is a set of addresses none of which extends another, each with its handler.
    [get] finds the handler of the address or of the prefix of it that has one. [insert] adds the
    handler, or fails and changes nothing, exactly when a handler is on the path to the address or
    below it. [remove] returns what [get] finds and takes it out. The well-formedness of the tree
    is kept. *)
Theorem handler_map_refines (m : HandlerMap T) (p : path) (t : T) (Hwf : wf m) :
  (forall u, get p m = Some u <-> exists q, q `prefix_of` p /\ exact q m = Some u) /\
  ((insert p t m).1 = Err AlreadyHandled <->
     exists q, is_Some (exact q m) /\ (q `prefix_of` p \/ p `prefix_of` q)) /\
  (match insert p t m with
   | (Ok _, m') => wf m' /\ forall q, exact q m' = if decide (q = p) then Some t else exact q m
   | (Err _, m') => m' = m
   | (Panic, _) => False
   end) /\
  (let '(r, m') := remove p m in
   r = get p m /\ wf m' /\ forall q, exact q m' = if decide (q `prefix_of` p) then None else exact q m).
Proof.
  split_and!.
  - intros u. rewrite get_exact. split; [intros (q & r & -> & H); exists q; split; [by eexists|done]|].
    intros (q & [r ->] & H). by exists q, r.
  - rewrite insert_conflict by done. split.
    + intros (q & r & H & Hq). exists q. split; [done|]. destruct Hq; [left|right]; by exists r.
    + intros (q & H & [[r Hr]|[r Hr]]); exists q, r; auto.
  - destruct (insert p t m) as [r m'] eqn:E. destruct r as [[]|[]|].
    + split; [right; by eapply insert_full|]. intros q. by apply insert_exact.
    + by eapply insert_err.
    + by eapply insert_total.
  - pose proof (remove_result p m) as Hr. pose proof (remove_wf p m Hwf) as Hw.
    pose proof (fun q => remove_exact p m q) as He. by destruct (remove p m).
Qed.
End handler.

(** ** Witnesses *)

Lemma handler_map_refines_witness :
  let m := (insert ["hm"; "a"] 1%nat default).2 in
  get ["hm"; "a"; "b"] m = Some 1%nat /\ (insert ["hm"] 2%nat m).1 = Err AlreadyHandled.
Proof.
  cbv zeta. assert (wf (insert ["hm"; "a"] 1%nat default).2) as Hwf.
  { right. apply (insert_full ["hm"; "a"] 1%nat default); [by left|reflexivity]. }
  destruct (handler_map_refines (insert ["hm"; "a"] 1%nat default).2 ["hm"; "a"; "b"] 2%nat Hwf) as [H _].
  destruct (handler_map_refines (insert ["hm"; "a"] 1%nat default).2 ["hm"] 2%nat Hwf) as (_ & Hc & _).
  split; [apply H|apply Hc]; exists ["hm"; "a"]; (split; [|try done]).
  - by exists ["b"].
  - by eexists.
  - right. by exists ["a"].
Defined.
End Handler.

#[warnings="-register-all"]
Inductive SubscriberMap (T : Type) :=
| Node (subscribed : list T) (children : gmap string (SubscriberMap T)).
Arguments Node {T} subscribed children.

Module Subscriber.
Section subscriber.
Context {T S : Type}.

Definition default : SubscriberMap T := Node [] ∅.

Definition subscribed (m : SubscriberMap T) : list T := let 'Node s _ := m in s.
Definition children (m : SubscriberMap T) : gmap string (SubscriberMap T) := let 'Node _ c := m in c.

Fixpoint insert (p : path) (handler : T) (m : SubscriberMap T) : SubscriberMap T :=
  match p with
  | component :: p =>
      let node := match children m !! component with Some n => n | None => default end in
      Node (subscribed m) (<[component := insert p handler node]> (children m))
  | [] => Node (subscribed m ++ [handler]) (children m)
  end.

Definition is_empty (m : SubscriberMap T) : bool :=
  bool_decide (children m = ∅) && match subscribed m with [] => true | _ => false end.

Fixpoint contains (p : path) (m : SubscriberMap T) : bool :=
  match subscribed m with
  | _ :: _ => true
  | [] =>
      match p with
      | next :: p => match children m !! next with Some next_map => contains p next_map | None => false end
      | [] => negb (is_empty m)
      end
  end.

(** [Vec::retain]; the closure's own state is passed along. *)
Fixpoint retain_list (f : T -> S -> bool * S) (l : list T) (s : S) : list T * S :=
  match l with
  | [] => ([], s)
  | x :: l =>
      let '(keep, s) := f x s in
      let '(l, s) := retain_list f l s in
      (if keep : bool then x :: l else l, s)
  end.

Fixpoint retain (p : path) (f : T -> S -> bool * S) (m : SubscriberMap T) (s : S) : bool * SubscriberMap T * S :=
  let handled_by_any := match subscribed m with [] => false | _ => true end in
  let '(subs, s) := retain_list f (subscribed m) s in
  match p with
  | [] => (handled_by_any, Node subs (children m), s)
  | next :: p =>
      match children m !! next with
      | None => (handled_by_any, Node subs (children m), s)
      | Some y =>
          let '(handled_by_any, y, s) := if handled_by_any then (true, y, s) else retain p f y s in
          (handled_by_any, Node subs (if is_empty y then base.delete next (children m) else <[next := y]> (children m)), s)
      end
  end.

(** ** Specification *)

(** The subscribers of exactly a path. *)
Fixpoint subs (p : path) (m : SubscriberMap T) : list T :=
  match p with
  | [] => subscribed m
  | c :: p => match children m !! c with Some n => subs p n | None => [] end
  end.

(** Every node but the root leads to a subscriber. *)
Inductive live : SubscriberMap T -> Prop :=
| live_node l c : l <> [] \/ c <> ∅ -> (forall k n, c !! k = Some n -> live n) -> live (Node l c).

Definition wf (m : SubscriberMap T) : Prop := forall k n, children m !! k = Some n -> live n.

(** ** Lemmas *)

Lemma live_wf m : live m -> wf m.
Proof. by destruct 1. Qed.

Lemma wf_live m : wf m -> is_empty m = false -> live m.
Proof.
  destruct m as [l c]. intros Hwf He. constructor; [|done]. unfold is_empty in He. simpl in He.
  destruct l; [|by left]. right. apply andb_false_iff in He as [He|He]; [by apply bool_decide_eq_false in He|done].
Qed.

Lemma live_nonempty m : live m -> is_empty m = false.
Proof.
  destruct 1 as [l c Hne _]. unfold is_empty. simpl. destruct Hne as [Hl|Hc].
  - destruct l; [done|]. by rewrite andb_false_r.
  - by rewrite bool_decide_false.
Qed.

Lemma live_subs m : live m -> exists q, subs q m <> [].
Proof.
  induction 1 as [l c Hne Hc IH]. destruct Hne as [Hl|Hm]; [by exists []|].
  destruct (map_choose c Hm) as (k & n & Hk). destruct (IH k n Hk) as [q Hq]. exists (k :: q). simpl. by rewrite Hk.
Qed.

Lemma subs_default q : subs q default = [].
Proof. destruct q; [done|]. simpl. by rewrite lookup_empty. Qed.

Lemma insert_live p t m : wf m -> live (insert p t m).
Proof.
  revert m; induction p as [|c p IH]; intros m Hwf; simpl.
  - constructor; [left; by destruct (subscribed m)|done].
  - constructor; [right; apply insert_non_empty|]. intros k n. rewrite lookup_insert_Some.
    intros [[_ <-]|[_ Hk]]; [|by eapply Hwf]. apply IH. destruct (children m !! c) as [n|] eqn:Hc.
    + apply live_wf. by eapply Hwf.
    + intros k' n'. simpl. by rewrite lookup_empty.
Qed.

Lemma insert_subs p t m q : subs q (insert p t m) = if decide (q = p) then subs q m ++ [t] else subs q m.
Proof.
  revert m q; induction p as [|c p IH]; intros m q; simpl; [by destruct q|].
  destruct q as [|d q]; [done|]. simpl. destruct (decide (c = d)) as [<-|Hne].
  - rewrite lookup_insert_eq, IH. destruct (children m !! c) as [n|]; [|rewrite subs_default];
      (destruct (decide (q = p)) as [->|Hq]; [by rewrite decide_True|by rewrite decide_False by congruence]).
  - rewrite lookup_insert_ne by done. by rewrite decide_False by congruence.
Qed.

Lemma contains_subs p m :
  wf m -> contains p m = true <-> exists q, subs q m <> [] /\ (q `prefix_of` p \/ p `prefix_of` q).
Proof.
  revert m; induction p as [|c p IH]; intros m Hwf; cbn [contains].
  - destruct (subscribed m) as [|x l] eqn:Hs.
    + rewrite negb_true_iff. split.
      * intros He. destruct (live_subs m (wf_live m Hwf He)) as [q Hq]. exists q. split; [done|]. right. apply prefix_nil.
      * intros (q & Hq & _). destruct q as [|d q]; simpl in Hq; [by rewrite Hs in Hq|].
        unfold is_empty. rewrite bool_decide_false; [done|]. intros Hc. by rewrite Hc, lookup_empty in Hq.
    + split; [|done]. intros _. exists []. split; [simpl; by rewrite Hs|]. left. apply prefix_nil.
  - destruct (subscribed m) as [|x l] eqn:Hs.
    2:{ split; [|done]. intros _. exists []. split; [simpl; by rewrite Hs|]. left. apply prefix_nil. }
    destruct (children m !! c) as [n|] eqn:Hc.
    + rewrite IH by (apply live_wf; by eapply Hwf). split.
      * intros (q & Hq & Hp). exists (c :: q). simpl. rewrite Hc. split; [done|].
        destruct Hp; [left|right]; by apply prefix_cons.
      * intros ([|d q] & Hq & Hp); simpl in Hq; [by rewrite Hs in Hq|].
        assert (c = d) as <- by (by destruct Hp as [Hp%prefix_cons_inv_1|Hp%prefix_cons_inv_1]).
        rewrite Hc in Hq. exists q. split; [done|]. destruct Hp as [Hp%prefix_cons_inv_2|Hp%prefix_cons_inv_2]; auto.
    + split; [done|]. intros ([|d q] & Hq & Hp); simpl in Hq; [by rewrite Hs in Hq|].
      assert (c = d) as <- by (by destruct Hp as [Hp%prefix_cons_inv_1|Hp%prefix_cons_inv_1]). by rewrite Hc in Hq.
Qed.

Lemma empty_subs m q : is_empty m = true -> subs q m = [].
Proof.
  unfold is_empty. intros [Hc Hs]%andb_true_iff. apply bool_decide_eq_true in Hc.
  destruct q as [|c q]; simpl; [by destruct (subscribed m)|]. by rewrite Hc, lookup_empty.
Qed.

(** Without a subscriber on the path nothing happens. *)
Lemma retain_none p f m (s : S) :
  wf m -> (forall q, q `prefix_of` p -> subs q m = []) -> retain p f m s = (false, m, s).
Proof.
  revert m; induction p as [|c p IH]; intros m Hwf Hno; pose proof (Hno [] (prefix_nil _)) as Hs; simpl in Hs;
    cbn [retain]; rewrite Hs; cbn [retain_list]; destruct m as [l ch]; simpl in *; subst l; [done|].
  destruct (ch !! c) as [n|] eqn:Hc; [|done].
  rewrite IH.
  - rewrite live_nonempty by (by eapply Hwf). by rewrite insert_id.
  - apply live_wf. by eapply Hwf.
  - intros q Hq. specialize (Hno (c :: q) (prefix_cons _ _ _ Hq)). simpl in Hno. by rewrite Hc in Hno.
Qed.

(** The subscribers closest to the root on the path, and only they, are asked. *)
Lemma retain_nearest p f m (s : S) q r :
  wf m -> p = q ++ r -> subs q m <> [] -> (forall a c b, q = a ++ c :: b -> subs a m = []) ->
  exists m', retain p f m s = (true, m', (retain_list f (subs q m) s).2) /\ wf m' /\
    forall q', subs q' m' = if decide (q' = q) then (retain_list f (subs q m) s).1 else subs q' m.
Proof.
  revert m q r; induction p as [|c p IH]; intros m q r Hwf Hp Hq Hmin; destruct q as [|d q].
  - cbn [subs retain] in *. destruct (retain_list f (subscribed m) s) as [l' s']. destruct (subscribed m); [done|].
    eexists. split; [reflexivity|]. split; [done|]. by intros [|].
  - discriminate.
  - cbn [subs retain] in *. destruct (retain_list f (subscribed m) s) as [l' s']. destruct (subscribed m); [done|].
    assert (children m !! c = None \/ exists y, children m !! c = Some y /\ is_empty y = false) as [Hc|(y & Hc & Hy)].
    { destruct (children m !! c) eqn:Hc; [right|by left]. eexists. split; [done|]. by eapply live_nonempty, Hwf. }
    + rewrite Hc. eexists. split; [reflexivity|]. split; [done|]. by intros [|].
    + rewrite Hc, Hy, insert_id by done. eexists. split; [reflexivity|]. split; [done|]. by intros [|].
  - injection Hp as <- ->. pose proof (Hmin [] c q eq_refl) as Hs. cbn [subs] in *.
    cbn [retain]. rewrite Hs. cbn [retain_list].
    destruct (children m !! c) as [y|] eqn:Hc; [|done].
    destruct (IH y q r) as (y' & -> & Hwf' & Hsubs); [apply live_wf; by eapply Hwf|done|done| |].
    { intros a e b ->. specialize (Hmin (c :: a) e b eq_refl). cbn [subs] in Hmin. by rewrite Hc in Hmin. }
    eexists. split; [reflexivity|]. split.
    + intros k n. simpl. destruct (is_empty y') eqn:He.
      * rewrite lookup_delete_Some. intros [_ Hk]. by eapply Hwf.
      * rewrite lookup_insert_Some. intros [[_ <-]|[_ Hk]]; [by apply wf_live|by eapply Hwf].
    + intros [|e q']; [simpl; by rewrite Hs|]. cbn [subs children]. destruct (decide (c = e)) as [<-|Hne].
      * rewrite Hc. replace (if decide (c :: q' = c :: q) then _ else subs q' y) with (subs q' y').
        2:{ rewrite Hsubs. destruct (decide (q' = q)) as [->|Hx]; [by rewrite decide_True|by rewrite decide_False by congruence]. }
        destruct (is_empty y') eqn:He; [rewrite lookup_delete_eq; by rewrite empty_subs|by rewrite lookup_insert_eq].
      * rewrite decide_False by congruence. destruct (is_empty y'); by rewrite ?lookup_delete_ne, ?lookup_insert_ne by done.
Qed.
End subscriber.
End Subscriber.
