(* ===== verification/Dealer.v ===== *)
(** * Dealer ([native/librespot/core/src/dealer/mod.rs], [protocol.rs], [manager.rs])

    Messages and requests that Spotify pushes over a websocket are dispatched by their address:
    messages to subscribers, requests to at most one handler, which answers. The websocket's
    tasks are in [DealerConn]. Receiving halves of channels live in stores, by number, so that a
    subscriber that was dropped is one without an entry. *)
From S2P Require Import Prelude Text DealerMaps.

(** ** Addresses *)

(** [trim_end_matches(c)] *)
Fixpoint trim_end_char (c : ascii) (s : string) : string :=
  match s with
  | EmptyString => EmptyString
  | String a s =>
      match trim_end_char c s with
      | EmptyString => if Ascii.eqb a c then EmptyString else String a EmptyString
      | s => String a s
      end
  end.

(** The scheme and the components. *)
Definition split_uri (s : string) : option path :=
  '(scheme, sep, rest) ←
    match strip_prefix s "hm://" with
    | Some rest => Some ("hm", "/"%char, rest)
    | None =>
        match strip_prefix s "spotify:" with
        | Some rest => Some ("spotify", ":"%char, rest)
        | None => if str_contains s "/" then Some ("", "/"%char, s) else None
        end
    end;
  Some (scheme :: split sep (trim_end_char sep rest)).

(** ** Messages and requests *)

Section dealer.

(** JSON values, decoded requests, and what third-party code makes of encoded payloads. *)
Context {JsonValue Request : Type}.
Variable json_to_string : JsonValue -> string.
Variable base64_decode : string -> option (list Z).
Variable gunzip : list Z -> option (list Z).
Variable parse_request : string -> option Request.

Inductive MessagePayloadValue := PString (s : string) | PBytes (b : list Z) | PJson (j : JsonValue).
Inductive PayloadValue := Empty | Raw (b : list Z) | Json (s : string).
Inductive ProtocolError := Base64 | GZip | Deserialization | MoreThenOneValue (n : nat) | Utf8.

Record WebsocketMessage := mkWebsocketMessage {
  m_headers : gmap string string;
  m_payloads : list MessagePayloadValue;
  m_uri : string
}.
Record WebsocketRequest := mkWebsocketRequest {
  r_headers : gmap string string;
  message_ident : string;
  key : string;
  compressed : string
}.
Record Message := mkMessage { headers : gmap string string; payload : PayloadValue; uri : string }.

Inductive MessageOrRequest := AMessage (m : WebsocketMessage) | ARequest (r : WebsocketRequest).

Definition handle_transfer_encoding (headers : gmap string string) (data : list Z) : res ProtocolError (list Z) :=
  if bool_decide (headers !! "Transfer-Encoding" = Some "gzip") then ok_or GZip (gunzip data) else Ok data.

(** [WebsocketMessage::handle_payload]; the single payload is popped. *)
Definition message_payload (m : WebsocketMessage) : res ProtocolError PayloadValue :=
  match m_payloads m with
  | [] => Ok Empty
  | [PString s] => bytes ← ok_or Base64 (base64_decode s); b ← handle_transfer_encoding (m_headers m) bytes; Ok (Raw b)
  | [PBytes bytes] => b ← handle_transfer_encoding (m_headers m) bytes; Ok (Raw b)
  | [PJson j] => Ok (Json (json_to_string j))
  | l => Err (MoreThenOneValue (length l))
  end.

Definition request_payload (r : WebsocketRequest) : res ProtocolError Request :=
  bytes ← ok_or Base64 (base64_decode (compressed r));
  payload ← handle_transfer_encoding (r_headers r) bytes;
  payload ← ok_or Utf8 (from_utf8 payload);
  ok_or Deserialization (parse_request payload).

(** ** The maps of the dealer *)

(** A subscription or a request handler is the number of its receiving half. *)
Record Maps := mkMaps { message_handlers : SubscriberMap nat; request_handlers : HandlerMap nat }.

Definition maps_new : Maps := mkMaps Subscriber.default Handler.default.

Inductive DealerError := InvalidUri (uri : string) | Handled | BuilderNotAvailable | LaunchFailure | CouldNotSetDealer.

Definition add_handler (uri : string) (handler : nat) (m : Maps) : res DealerError unit * Maps :=
  match split_uri uri with
  | None => (Err (InvalidUri uri), m)
  | Some p =>
      let '(r, h) := Handler.insert p handler (request_handlers m) in
      (match r with Ok _ => Ok tt | Err _ => Err Handled | Panic => Panic end, mkMaps (message_handlers m) h)
  end.

Definition remove_handler (uri : string) (m : Maps) : option nat * Maps :=
  match split_uri uri with
  | None => (None, m)
  | Some p => let '(r, h) := Handler.remove p (request_handlers m) in (r, mkMaps (message_handlers m) h)
  end.

(** The addresses before an invalid one stay subscribed. *)
Fixpoint subscribe (uris : list string) (tx : nat) (m : Maps) : res DealerError unit * Maps :=
  match uris with
  | [] => (Ok tt, m)
  | uri :: uris =>
      match split_uri uri with
      | None => (Err (InvalidUri uri), m)
      | Some p => subscribe uris tx (mkMaps (Subscriber.insert p tx (message_handlers m)) (request_handlers m))
      end
  end.

Definition handles (m : Maps) (uri : string) : bool :=
  if Handler.contains (request_handlers m) uri then true
  else match split_uri uri with None => false | Some p => Subscriber.contains p (message_handlers m) end.

(** ** Dispatching *)

(** The receiving halves: of subscriptions and of request handlers. *)
Record Receivers := mkReceivers { messages : gmap nat (list Message); requests : gmap nat (list Request) }.

(** [UnboundedSender::send] *)
Definition send {A} (h : nat) (a : A) (s : gmap nat (list A)) : bool * gmap nat (list A) :=
  match s !! h with Some q => (true, <[h := q ++ [a]]> s) | None => (false, s) end.

Definition dispatch_message (m : WebsocketMessage) (maps : Maps) (rs : Receivers) : Maps * Receivers :=
  match message_payload m with
  | Ok value =>
      let msg := mkMessage (m_headers m) value (m_uri m) in
      match split_uri (m_uri m) with
      | Some p =>
          let '(_, subs, store) := Subscriber.retain p (fun tx s => send tx msg s) (message_handlers maps) (messages rs) in
          (mkMaps subs (request_handlers maps), mkReceivers store (requests rs))
      | None => (maps, rs)
      end
  | _ => (maps, rs)
  end.

(** A reply on the websocket: the key of the request and whether it was accepted. *)
Definition reply := (string * bool)%type.

(** [DealerRequestHandler::handle_request]: the request is queued and acknowledged at once. *)
Definition handle_request (handler : nat) (request : Request) (key : string) (rs : Receivers) : list reply * Receivers :=
  let '(ok, store) := send handler request (requests rs) in
  ([(key, ok)], mkReceivers (messages rs) store).

(** A responder that is dropped unused replies with a failure. *)
Definition dispatch_request (r : WebsocketRequest) (maps : Maps) (rs : Receivers) : list reply * Receivers :=
  match request_payload r with
  | Ok request =>
      match split_uri (message_ident r) with
      | None => ([(key r, false)], rs)
      | Some p =>
          match Handler.get p (request_handlers maps) with
          | Some handler => handle_request handler request (key r) rs
          | None => ([(key r, false)], rs)
          end
      end
  | _ => ([], rs)
  end.

Definition dispatch (m : MessageOrRequest) (maps : Maps) (rs : Receivers) : list reply * Maps * Receivers :=
  match m with
  | AMessage m => let '(maps, rs) := dispatch_message m maps rs in ([], maps, rs)
  | ARequest r => let '(replies, rs) := dispatch_request r maps rs in (replies, maps, rs)
  end.

(** ** The manager *)

(** Registrations go to the builder until the dealer runs. *)
Record DealerManager := mkDealerManager { builder : option Maps; dealer : option Maps }.

Definition manager_new : DealerManager := mkDealerManager (Some maps_new) None.

(** Apply a registration to the dealer, or else to the builder. *)
Definition register (f : Maps -> res DealerError unit * Maps) (d : DealerManager) : res DealerError unit * DealerManager :=
  match dealer d, builder d with
  | Some m, b => let '(r, m) := f m in (r, mkDealerManager b (Some m))
  | None, Some b => let '(r, b) := f b in (r, mkDealerManager (Some b) None)
  | None, None => (Err BuilderNotAvailable, d)
  end.

Definition add_listen_for (url : string) (tx : nat) : DealerManager -> res DealerError unit * DealerManager :=
  register (subscribe [url] tx).

Definition add_handle_for (url : string) (tx : nat) : DealerManager -> res DealerError unit * DealerManager :=
  register (add_handler url tx).

Definition manager_handles (uri : string) (d : DealerManager) : bool :=
  match dealer d, builder d with
  | Some m, _ => handles m uri
  | None, Some b => handles b uri
  | None, None => false
  end.

(** [start] takes the builder, launches with it and, when that succeeded, stores the dealer. Other
    calls can come between the two halves, while the connection is made. *)
Definition start_take (d : DealerManager) : res DealerError Maps * DealerManager :=
  (ok_or BuilderNotAvailable (builder d), mkDealerManager None (dealer d)).

Definition start_set (launched : option Maps) (d : DealerManager) : res DealerError unit * DealerManager :=
  match launched with
  | None => (Err LaunchFailure, d)
  | Some m =>
      match dealer d with
      | Some _ => (Err CouldNotSetDealer, d)
      | None => (Ok tt, mkDealerManager (builder d) (Some m))
      end
  end.

Definition close (d : DealerManager) : DealerManager := mkDealerManager (builder d) None.

(** ** Specification *)

(** The maps the program can build and use. *)
Inductive maps_step : Maps -> Maps -> Prop :=
| step_add_handler m uri h : maps_step m (add_handler uri h m).2
| step_remove_handler m uri : maps_step m (remove_handler uri m).2
| step_subscribe m uris tx : maps_step m (subscribe uris tx m).2
| step_dispatch m x rs : maps_step m (dispatch x m rs).1.2.

Definition maps_reachable : Maps -> Prop := rtc maps_step maps_new.

Definition schemes : list string := ["hm"; "spotify"; ""].

Record maps_ok (m : Maps) : Prop := {
  ok_subs : Subscriber.wf (message_handlers m);
  ok_handlers : Handler.wf (request_handlers m);
  ok_root : forall p t, Handler.exact p (request_handlers m) = Some t ->
    match p with scheme :: _ => scheme ∈ schemes | [] => False end
}.

(** [q] is the shortest prefix of [p] with subscribers. *)
Definition nearest (p q : path) (m : SubscriberMap nat) : Prop :=
  q `prefix_of` p /\ Subscriber.subs q m <> [] /\
  forall a c b, q = a ++ c :: b -> Subscriber.subs a m = [].

(** ** Lemmas *)

Lemma split_uri_scheme uri p : split_uri uri = Some p -> exists scheme rest, p = scheme :: rest /\ scheme ∈ schemes /\ rest <> [].
Proof.
  unfold split_uri, schemes. intros H.
  destruct (strip_prefix uri "hm://"); [|destruct (strip_prefix uri "spotify:"); [|destruct (str_contains uri "/"); [|done]]];
    injection H as <-; eexists _, _; (split; [reflexivity|]); (split; [set_solver|apply split_nonempty]).
Qed.

Lemma maps_new_ok : maps_ok maps_new.
Proof.
  split.
  - intros k n Hk. change ((∅ : gmap string (SubscriberMap nat)) !! k = Some n) in Hk. by rewrite lookup_empty in Hk.
  - by left.
  - intros p t Hp. cbn [request_handlers maps_new] in Hp. by rewrite Handler.exact_default in Hp.
Qed.

Lemma send_delivers {A} (a : A) l (s : gmap nat (list A)) :
  let '(l', s') := Subscriber.retain_list (fun tx s => send tx a s) l s in
  l' = filter (fun h => is_Some (s !! h)) l /\
  forall h, s' !! h = (fun q => q ++ replicate (count_occ Nat.eq_dec l h) a) <$> s !! h.
Proof.
  revert s; induction l as [|x l IH]; intros s; cbn [Subscriber.retain_list].
  { split; [done|]. intros h. destruct (s !! h); [|done]. simpl. by rewrite app_nil_r. }
  unfold send at 1. destruct (s !! x) as [q|] eqn:Hx.
  - specialize (IH (<[x := q ++ [a]]> s)). destruct (Subscriber.retain_list _ l _) as [l' s'].
    destruct IH as [-> IH]. split.
    + rewrite filter_cons_True by (by eexists). f_equal. apply list_filter_iff. intros h.
      destruct (decide (x = h)) as [<-|Hne]; [rewrite lookup_insert_eq, Hx; split; by eexists|].
      by rewrite lookup_insert_ne.
    + intros h. rewrite IH. destruct (decide (x = h)) as [<-|Hne].
      * rewrite lookup_insert_eq, Hx. cbn [fmap option_fmap option_map]. rewrite count_occ_cons_eq by done.
        by rewrite <- app_assoc.
      * rewrite lookup_insert_ne by done. by rewrite count_occ_cons_neq by done.
  - specialize (IH s). destruct (Subscriber.retain_list _ l _) as [l' s']. destruct IH as [-> IH]. split.
    + rewrite filter_cons_False; [done|]. rewrite Hx. by intros [? ?].
    + intros h. rewrite IH. destruct (decide (x = h)) as [<-|Hne]; [by rewrite Hx|]. by rewrite count_occ_cons_neq by done.
Qed.

(** Is there a subscriber on the path? *)
Lemma nearest_dec p m : (forall q, q `prefix_of` p -> Subscriber.subs q m = []) \/ exists q, nearest p q m.
Proof.
  revert m; induction p as [|c p IH]; intros m.
  - destruct (Subscriber.subs [] m) eqn:Hs.
    + left. intros q [r Hq]. by destruct q.
    + right. exists []. split_and!; [done|by rewrite Hs|]. by intros [|].
  - destruct (Subscriber.subs [] m) eqn:Hs.
    2:{ right. exists []. split_and!; [apply prefix_nil|by rewrite Hs|]. by intros [|]. }
    destruct (Subscriber.children m !! c) as [n|] eqn:Hc.
    + destruct (IH n) as [Hno|(q & Hq & Hne & Hmin)].
      * left. intros [|d q] Hq; [done|]. assert (d = c) as -> by (by apply prefix_cons_inv_1 in Hq).
        simpl. rewrite Hc. apply Hno. by apply prefix_cons_inv_2 in Hq.
      * right. exists (c :: q). split_and!; [by apply prefix_cons|simpl; by rewrite Hc|].
        intros [|d a] e b; [done|]. intros [= <- ->]. simpl. rewrite Hc. by eapply Hmin.
    + left. intros [|d q] Hq; [done|]. assert (d = c) as -> by (by apply prefix_cons_inv_1 in Hq). simpl. by rewrite Hc.
Qed.

Lemma retain_wf {A} (a : A) p m (s : gmap nat (list A)) :
  Subscriber.wf m -> Subscriber.wf (Subscriber.retain p (fun tx s => send tx a s) m s).1.2.
Proof.
  intros Hwf. destruct (nearest_dec p m) as [Hno|(q & [r Hq] & Hne & Hmin)].
  - by rewrite Subscriber.retain_none.
  - by destruct (Subscriber.retain_nearest p (fun tx s => send tx a s) m s q r Hwf Hq Hne Hmin) as (m' & -> & Hm' & _).
Qed.

Lemma subscribe_ok uris tx m : maps_ok m -> maps_ok (subscribe uris tx m).2.
Proof.
  revert m; induction uris as [|uri uris IH]; intros m Hok; cbn [subscribe]; [done|].
  destruct (split_uri uri) as [p|]; [|done]. apply IH. destruct Hok as [Hs Hh Hr]. split; try done.
  by apply Subscriber.live_wf, Subscriber.insert_live.
Qed.

Lemma add_handler_ok uri h m : maps_ok m -> maps_ok (add_handler uri h m).2.
Proof.
  intros [Hs Hh Hr]. unfold add_handler. destruct (split_uri uri) as [p|] eqn:Hp; [|done].
  destruct (Handler.insert p h (request_handlers m)) as [[[]|[]|] hm] eqn:E.
  - split; [done|right; by eapply Handler.insert_full|]. intros q t. cbn [request_handlers snd].
    rewrite (Handler.insert_exact p h _ _ q E). case_decide; [|apply Hr]. intros _. subst q.
    by destruct (split_uri_scheme uri p Hp) as (scheme & rest & -> & Hsch & _).
  - apply Handler.insert_err in E; [|done]. subst hm. by split.
  - by apply Handler.insert_total in E.
Qed.

Lemma remove_handler_ok uri m : maps_ok m -> maps_ok (remove_handler uri m).2.
Proof.
  intros [Hs Hh Hr]. unfold remove_handler. destruct (split_uri uri) as [p|] eqn:Hp; [|done].
  pose proof (Handler.remove_wf p _ Hh) as Hwf. pose proof (Handler.remove_exact p (request_handlers m)) as He.
  destruct (Handler.remove p (request_handlers m)) as [r hm]. split; [done|done|].
  intros q t. cbn [request_handlers snd] in *. rewrite He. case_decide; [done|apply Hr].
Qed.

Lemma dispatch_ok x m rs : maps_ok m -> maps_ok (dispatch x m rs).1.2.
Proof.
  intros Hok. destruct x as [msg|r]; cbn [dispatch].
  - unfold dispatch_message. destruct (message_payload msg) as [v| |]; [|done..]. destruct (split_uri (m_uri msg)) as [p|]; [|done].
    destruct Hok as [Hs Hh Hr]. pose proof (retain_wf (mkMessage (m_headers msg) v (m_uri msg)) p _ (messages rs) Hs) as Hwf.
    destruct (Subscriber.retain _ _ _ _) as [[b sm] st]. by split.
  - by destruct (dispatch_request r m rs).
Qed.

Lemma maps_reachable_ok m : maps_reachable m -> maps_ok m.
Proof.
  intros Hr. eapply (rtc_ind_r (fun m => maps_ok m)); [apply maps_new_ok| |exact Hr].
  intros x y _ [] Hx; auto using add_handler_ok, remove_handler_ok, subscribe_ok, dispatch_ok.
Qed.

(** The components at the root of the request map are schemes. *)
Lemma contains_scheme m uri : maps_ok m -> Handler.contains (request_handlers m) uri = true -> uri ∈ schemes.
Proof.
  intros [_ Hh Hr] Hc. unfold Handler.contains in Hc. destruct (request_handlers m) as [t|map] eqn:Hm; [done|].
  apply bool_decide_eq_true in Hc as [n Hn]. destruct (Handler.full_exact n) as [p [t Hp]]; [by eapply Handler.wf_child|].
  apply (Hr (uri :: p) t). simpl. by rewrite Hn.
Qed.

Lemma scheme_no_split uri : uri ∈ schemes -> split_uri uri = None.
Proof.
  unfold schemes. rewrite !elem_of_cons, elem_of_nil. intros [->|[->|[->|[]]]]; done.
Qed.

(** ** Properties *)

(** A message goes to the subscribers of one address only: of the prefixes of its address that
    have subscribers, the shortest. Each of these gets it once per subscription, at the end of its
    queue, and the ones that are gone are removed; no other queue and no other subscription
    changes. When no prefix has subscribers nothing changes. *)
Theorem message_to_nearest (m : WebsocketMessage) (maps : Maps) (rs : Receivers) (v : PayloadValue) (p : path)
    (Hr : maps_reachable maps) (Hv : message_payload m = Ok v) (Hp : split_uri (m_uri m) = Some p) :
  let '(maps', rs') := dispatch_message m maps rs in
  ((forall q, q `prefix_of` p -> Subscriber.subs q (message_handlers maps) = []) -> maps' = maps /\ rs' = rs) /\
  forall q, nearest p q (message_handlers maps) ->
    let l := Subscriber.subs q (message_handlers maps) in
    (forall h, messages rs' !! h =
      (fun queue => queue ++ replicate (count_occ Nat.eq_dec l h) (mkMessage (m_headers m) v (m_uri m))) <$> messages rs !! h) /\
    (forall q', Subscriber.subs q' (message_handlers maps') =
      if decide (q' = q) then filter (fun h => is_Some (messages rs !! h)) l
      else Subscriber.subs q' (message_handlers maps)).
Proof.
  pose proof (ok_subs _ (maps_reachable_ok maps Hr)) as Hwf. unfold dispatch_message. rewrite Hv, Hp.
  set (msg := mkMessage _ _ _). destruct (Subscriber.retain _ _ _ _) as [[b sm] st] eqn:E. split.
  - intros Hno. rewrite Subscriber.retain_none in E by done. injection E as <- <- <-. by destruct maps, rs.
  - intros q ([r Hq] & Hne & Hmin).
    destruct (Subscriber.retain_nearest p (fun tx s => send tx msg s) _ (messages rs) q r Hwf Hq Hne Hmin) as (m' & E' & _ & Hs).
    rewrite E' in E. injection E as <- <- <-.
    pose proof (send_delivers msg (Subscriber.subs q (message_handlers maps)) (messages rs)) as Hd.
    destruct (Subscriber.retain_list _ _ _) as [l' s']. cbn [fst snd] in *. destruct Hd as [-> Hd]. by split.
Qed.

(** A request is answered exactly once: when its payload can be read there is one reply, with its
    key; the reply says success exactly when a handler is registered for the address or a prefix of
    it and its receiver is there, and then the request is queued with it; otherwise nothing
    changes. *)
Theorem request_answered_once (r : WebsocketRequest) (maps : Maps) (rs : Receivers) (request : Request)
    (Hv : request_payload r = Ok request) :
  exists ok rs', dispatch_request r maps rs = ([(key r, ok)], rs') /\ messages rs' = messages rs /\
    if ok : bool then
      exists p h queue, split_uri (message_ident r) = Some p /\ Handler.get p (request_handlers maps) = Some h /\
        requests rs !! h = Some queue /\ requests rs' = <[h := queue ++ [request]]> (requests rs)
    else
      rs' = rs /\ forall p h, split_uri (message_ident r) = Some p -> Handler.get p (request_handlers maps) = Some h ->
        requests rs !! h = None.
Proof.
  unfold dispatch_request. rewrite Hv. destruct (split_uri (message_ident r)) as [p|]; [|by exists false, rs].
  destruct (Handler.get p (request_handlers maps)) as [h|] eqn:Hg.
  2:{ exists false, rs. split_and!; [done..|]. intros p' h' [= <-]. by rewrite Hg. }
  unfold handle_request, send. destruct (requests rs !! h) as [queue|] eqn:Hq.
  - eexists true, _. split; [reflexivity|]. split; [done|]. by exists p, h, queue.
  - eexists false, _. split; [reflexivity|]. split; [done|]. split; [by destruct rs|].
    intros p' h' [= <-]. rewrite Hg. by intros [= <-].
Qed.

(** [handles] does not see request handlers: for an address that can be dispatched it only
    looks at the subscriptions, because it looks up the whole address among the schemes at the root
    of the request map. *)
Theorem handles_ignores_request_handlers (maps : Maps) (uri : string) (p : path)
    (Hr : maps_reachable maps) (Hp : split_uri uri = Some p) :
  handles maps uri = Subscriber.contains p (message_handlers maps).
Proof.
  unfold handles. rewrite Hp. destruct (Handler.contains (request_handlers maps) uri) eqn:Hc; [|done].
  apply contains_scheme in Hc; [|by apply maps_reachable_ok]. apply scheme_no_split in Hc. congruence.
Qed.

End dealer.

(** ** Examples *)

(** Payloads in the clear. *)
Definition ex_json (j : string) : string := j.
Definition ex_decode (s : string) : option (list Z) := Some (bytes s).
Definition ex_gunzip (l : list Z) : option (list Z) := Some l.
Definition ex_parse (s : string) : option string := Some s.

(** Subscriber 0 of an address and subscriber 1 of an address below it. *)
Definition ex_maps : Maps := (subscribe ["hm://a/b"] 1 (subscribe ["hm://a/"] 0 maps_new).2).2.
Definition ex_message (uri : string) : WebsocketMessage (JsonValue := string) := mkWebsocketMessage ∅ [PJson "1"] uri.
Definition ex_receivers : Receivers (Request := string) := mkReceivers {[ 0%nat := []; 1%nat := [] ]} ∅.

(** A subscriber can be starved: a message for exactly the address subscriber 1 asked for reaches
    only subscriber 0, who asked for the address above it. *)
Theorem nested_subscription_starved :
  let '(maps, rs) := dispatch_message ex_json ex_decode ex_gunzip (ex_message "hm://a/b") ex_maps ex_receivers in
  maps = ex_maps /\ messages rs !! 0%nat = Some [mkMessage ∅ (Json "1") "hm://a/b"] /\ messages rs !! 1%nat = Some [].
Proof. vm_compute. by split_and!. Qed.

(** ** Witnesses *)

Lemma message_to_nearest_witness :
  messages (dispatch_message ex_json ex_decode ex_gunzip (ex_message "hm://a/c") ex_maps ex_receivers).2 !! 0%nat =
    Some [mkMessage ∅ (Json "1") "hm://a/c"].
Proof.
  pose proof (message_to_nearest ex_json ex_decode ex_gunzip ex_parse (ex_message "hm://a/c") ex_maps ex_receivers
    (Json "1") ["hm"; "a"; "c"]) as H.
  destruct (dispatch_message _ _ _ _ _ _) as [maps' rs']. destruct H as [_ H].
  - eapply rtc_l; [apply (step_subscribe _ _ _ _ _ ["hm://a/"] 0)|]. apply rtc_once, (step_subscribe _ _ _ _ _ ["hm://a/b"] 1).
  - reflexivity.
  - reflexivity.
  - destruct (H ["hm"; "a"]) as [Hm _]; [|by rewrite Hm].
    split; [by exists ["c"]|]. split; [done|]. intros [|a [|b [|c d]]] e f [=]; subst; done.
Defined.

Lemma request_answered_once_witness :
  let maps := (add_handler "hm://connect-state/v1/" 3 maps_new).2 in
  let r := mkWebsocketRequest ∅ "hm://connect-state/v1/player/command" "k1" "body" in
  exists ok rs', dispatch_request ex_decode ex_gunzip ex_parse r maps (mkReceivers ∅ {[ 3%nat := [] ]}) =
    ([("k1", ok)], rs').
Proof.
  destruct (request_answered_once ex_decode ex_gunzip ex_parse
    (mkWebsocketRequest ∅ "hm://connect-state/v1/player/command" "k1" "body")
    (add_handler "hm://connect-state/v1/" 3 maps_new).2 (mkReceivers ∅ {[ 3%nat := [] ]}) "body") as (ok & rs' & H & _).
  - reflexivity.
  - by exists ok, rs'.
Defined.

Lemma handles_ignores_request_handlers_witness :
  let maps := (add_handler "hm://connect-state/v1/" 3 maps_new).2 in
  handles maps "hm://connect-state/v1/" = false.
Proof.
  cbv zeta. rewrite (handles_ignores_request_handlers ex_json ex_decode ex_gunzip ex_parse
    (add_handler "hm://connect-state/v1/" 3 maps_new).2 "hm://connect-state/v1/" ["hm"; "connect-state"; "v1"]).
  - reflexivity.
  - apply rtc_once, step_add_handler.
  - reflexivity.
Defined.
