(* ===== verification/Protocol.v ===== *)
(** * Protocol messages ([native/librespot/protocol/proto/*.proto],
      [native/librespot/protocol/src/impl_trait/player.rs], [context.rs])

    The messages of the connect state that the engine reads and writes, as records with one
    field per protobuf field the code uses, and the [From] conversions between the two families
    of messages (those of the playback commands and those, prefixed [Player], of the state that
    is sent to the server). A protobuf [map] is a [gmap], a message field an [option]; the
    bag of unknown fields every message carries is copied along by every conversion and left
    out. Floating point numbers are the specification floats of the Standard Library. *)
From Stdlib Require Export SpecFloat.
From S2P Require Import Prelude Text.

(** ** Values *)

Definition f64 := spec_float.
Definition f64_zero : f64 := S754_zero false.
Definition f64_one : f64 := S754_finite false 4503599627370496 (-52).

(** [hashmap_into]: convert every value of a map. *)
Definition hashmap_into {A B} (f : A -> B) (m : gmap string A) : gmap string B := f <$> m.

(** [for (k, v) in new { old.insert(k, v) }] *)
Definition extend_map (old new : gmap string string) : gmap string string := new ∪ old.

(** ** Restrictions *)

Record RestrictionReasons := mkRestrictionReasons { rr_reasons : list string }.

Record ModeRestrictions := mkModeRestrictions { mr_values : gmap string RestrictionReasons }.

Record Restrictions := mkRestrictions { r_disallow_pausing_reasons : list string;
  r_disallow_resuming_reasons : list string; r_disallow_seeking_reasons : list string;
  r_disallow_peeking_prev_reasons : list string; r_disallow_peeking_next_reasons : list string;
  r_disallow_skipping_prev_reasons : list string; r_disallow_skipping_next_reasons : list string;
  r_disallow_toggling_repeat_context_reasons : list string; r_disallow_toggling_repeat_track_reasons
  : list string; r_disallow_toggling_shuffle_reasons : list string; r_disallow_set_queue_reasons :
  list string; r_disallow_interrupting_playback_reasons : list string;
  r_disallow_transferring_playback_reasons : list string; r_disallow_remote_control_reasons : list
  string; r_disallow_inserting_into_next_tracks_reasons : list string;
  r_disallow_inserting_into_context_tracks_reasons : list string;
  r_disallow_reordering_in_next_tracks_reasons : list string;
  r_disallow_reordering_in_context_tracks_reasons : list string;
  r_disallow_removing_from_next_tracks_reasons : list string;
  r_disallow_removing_from_context_tracks_reasons : list string; r_disallow_updating_context_reasons
  : list string; r_disallow_add_to_queue_reasons : list string; r_disallow_setting_playback_speed :
  list string; r_disallow_setting_modes : gmap string ModeRestrictions; r_disallow_signals : gmap
  string RestrictionReasons }.

Definition Restrictions_default : Restrictions := mkRestrictions [] [] [] [] [] [] [] [] [] [] [] []
  [] [] [] [] [] [] [] [] [] [] [] ∅ ∅.

Record PlayerRestrictionReasons := mkPlayerRestrictionReasons { prr_reasons : list string }.

Record PlayerModeRestrictions := mkPlayerModeRestrictions { pmr_values : gmap string
  PlayerRestrictionReasons }.

Record PlayerRestrictions := mkPlayerRestrictions { pr_disallow_pausing_reasons : list string;
  pr_disallow_resuming_reasons : list string; pr_disallow_seeking_reasons : list string;
  pr_disallow_peeking_prev_reasons : list string; pr_disallow_peeking_next_reasons : list string;
  pr_disallow_skipping_prev_reasons : list string; pr_disallow_skipping_next_reasons : list string;
  pr_disallow_toggling_repeat_context_reasons : list string;
  pr_disallow_toggling_repeat_track_reasons : list string; pr_disallow_toggling_shuffle_reasons :
  list string; pr_disallow_set_queue_reasons : list string;
  pr_disallow_interrupting_playback_reasons : list string; pr_disallow_transferring_playback_reasons
  : list string; pr_disallow_remote_control_reasons : list string;
  pr_disallow_inserting_into_next_tracks_reasons : list string;
  pr_disallow_inserting_into_context_tracks_reasons : list string;
  pr_disallow_reordering_in_next_tracks_reasons : list string;
  pr_disallow_reordering_in_context_tracks_reasons : list string;
  pr_disallow_removing_from_next_tracks_reasons : list string;
  pr_disallow_removing_from_context_tracks_reasons : list string;
  pr_disallow_updating_context_reasons : list string; pr_disallow_playing_reasons : list string;
  pr_disallow_stopping_reasons : list string; pr_disallow_add_to_queue_reasons : list string;
  pr_disallow_setting_playback_speed_reasons : list string; pr_disallow_setting_modes : gmap string
  PlayerModeRestrictions; pr_disallow_signals : gmap string PlayerRestrictionReasons }.

Definition PlayerRestrictions_default : PlayerRestrictions := mkPlayerRestrictions [] [] [] [] [] []
  [] [] [] [] [] [] [] [] [] [] [] [] [] [] [] [] [] [] [] ∅ ∅.

Definition set_pr_disallow_pausing_reasons (v : list string) (r : PlayerRestrictions) :
  PlayerRestrictions := mkPlayerRestrictions v (pr_disallow_resuming_reasons r)
  (pr_disallow_seeking_reasons r) (pr_disallow_peeking_prev_reasons r)
  (pr_disallow_peeking_next_reasons r) (pr_disallow_skipping_prev_reasons r)
  (pr_disallow_skipping_next_reasons r) (pr_disallow_toggling_repeat_context_reasons r)
  (pr_disallow_toggling_repeat_track_reasons r) (pr_disallow_toggling_shuffle_reasons r)
  (pr_disallow_set_queue_reasons r) (pr_disallow_interrupting_playback_reasons r)
  (pr_disallow_transferring_playback_reasons r) (pr_disallow_remote_control_reasons r)
  (pr_disallow_inserting_into_next_tracks_reasons r)
  (pr_disallow_inserting_into_context_tracks_reasons r)
  (pr_disallow_reordering_in_next_tracks_reasons r)
  (pr_disallow_reordering_in_context_tracks_reasons r)
  (pr_disallow_removing_from_next_tracks_reasons r)
  (pr_disallow_removing_from_context_tracks_reasons r) (pr_disallow_updating_context_reasons r)
  (pr_disallow_playing_reasons r) (pr_disallow_stopping_reasons r) (pr_disallow_add_to_queue_reasons
  r) (pr_disallow_setting_playback_speed_reasons r) (pr_disallow_setting_modes r)
  (pr_disallow_signals r).

Definition set_pr_disallow_resuming_reasons (v : list string) (r : PlayerRestrictions) :
  PlayerRestrictions := mkPlayerRestrictions (pr_disallow_pausing_reasons r) v
  (pr_disallow_seeking_reasons r) (pr_disallow_peeking_prev_reasons r)
  (pr_disallow_peeking_next_reasons r) (pr_disallow_skipping_prev_reasons r)
  (pr_disallow_skipping_next_reasons r) (pr_disallow_toggling_repeat_context_reasons r)
  (pr_disallow_toggling_repeat_track_reasons r) (pr_disallow_toggling_shuffle_reasons r)
  (pr_disallow_set_queue_reasons r) (pr_disallow_interrupting_playback_reasons r)
  (pr_disallow_transferring_playback_reasons r) (pr_disallow_remote_control_reasons r)
  (pr_disallow_inserting_into_next_tracks_reasons r)
  (pr_disallow_inserting_into_context_tracks_reasons r)
  (pr_disallow_reordering_in_next_tracks_reasons r)
  (pr_disallow_reordering_in_context_tracks_reasons r)
  (pr_disallow_removing_from_next_tracks_reasons r)
  (pr_disallow_removing_from_context_tracks_reasons r) (pr_disallow_updating_context_reasons r)
  (pr_disallow_playing_reasons r) (pr_disallow_stopping_reasons r) (pr_disallow_add_to_queue_reasons
  r) (pr_disallow_setting_playback_speed_reasons r) (pr_disallow_setting_modes r)
  (pr_disallow_signals r).

Definition set_pr_disallow_peeking_prev_reasons (v : list string) (r : PlayerRestrictions) :
  PlayerRestrictions := mkPlayerRestrictions (pr_disallow_pausing_reasons r)
  (pr_disallow_resuming_reasons r) (pr_disallow_seeking_reasons r) v
  (pr_disallow_peeking_next_reasons r) (pr_disallow_skipping_prev_reasons r)
  (pr_disallow_skipping_next_reasons r) (pr_disallow_toggling_repeat_context_reasons r)
  (pr_disallow_toggling_repeat_track_reasons r) (pr_disallow_toggling_shuffle_reasons r)
  (pr_disallow_set_queue_reasons r) (pr_disallow_interrupting_playback_reasons r)
  (pr_disallow_transferring_playback_reasons r) (pr_disallow_remote_control_reasons r)
  (pr_disallow_inserting_into_next_tracks_reasons r)
  (pr_disallow_inserting_into_context_tracks_reasons r)
  (pr_disallow_reordering_in_next_tracks_reasons r)
  (pr_disallow_reordering_in_context_tracks_reasons r)
  (pr_disallow_removing_from_next_tracks_reasons r)
  (pr_disallow_removing_from_context_tracks_reasons r) (pr_disallow_updating_context_reasons r)
  (pr_disallow_playing_reasons r) (pr_disallow_stopping_reasons r) (pr_disallow_add_to_queue_reasons
  r) (pr_disallow_setting_playback_speed_reasons r) (pr_disallow_setting_modes r)
  (pr_disallow_signals r).

Definition set_pr_disallow_skipping_prev_reasons (v : list string) (r : PlayerRestrictions) :
  PlayerRestrictions := mkPlayerRestrictions (pr_disallow_pausing_reasons r)
  (pr_disallow_resuming_reasons r) (pr_disallow_seeking_reasons r) (pr_disallow_peeking_prev_reasons
  r) (pr_disallow_peeking_next_reasons r) v (pr_disallow_skipping_next_reasons r)
  (pr_disallow_toggling_repeat_context_reasons r) (pr_disallow_toggling_repeat_track_reasons r)
  (pr_disallow_toggling_shuffle_reasons r) (pr_disallow_set_queue_reasons r)
  (pr_disallow_interrupting_playback_reasons r) (pr_disallow_transferring_playback_reasons r)
  (pr_disallow_remote_control_reasons r) (pr_disallow_inserting_into_next_tracks_reasons r)
  (pr_disallow_inserting_into_context_tracks_reasons r)
  (pr_disallow_reordering_in_next_tracks_reasons r)
  (pr_disallow_reordering_in_context_tracks_reasons r)
  (pr_disallow_removing_from_next_tracks_reasons r)
  (pr_disallow_removing_from_context_tracks_reasons r) (pr_disallow_updating_context_reasons r)
  (pr_disallow_playing_reasons r) (pr_disallow_stopping_reasons r) (pr_disallow_add_to_queue_reasons
  r) (pr_disallow_setting_playback_speed_reasons r) (pr_disallow_setting_modes r)
  (pr_disallow_signals r).

Definition set_pr_disallow_toggling_repeat_context_reasons (v : list string) (r :
  PlayerRestrictions) : PlayerRestrictions := mkPlayerRestrictions (pr_disallow_pausing_reasons r)
  (pr_disallow_resuming_reasons r) (pr_disallow_seeking_reasons r) (pr_disallow_peeking_prev_reasons
  r) (pr_disallow_peeking_next_reasons r) (pr_disallow_skipping_prev_reasons r)
  (pr_disallow_skipping_next_reasons r) v (pr_disallow_toggling_repeat_track_reasons r)
  (pr_disallow_toggling_shuffle_reasons r) (pr_disallow_set_queue_reasons r)
  (pr_disallow_interrupting_playback_reasons r) (pr_disallow_transferring_playback_reasons r)
  (pr_disallow_remote_control_reasons r) (pr_disallow_inserting_into_next_tracks_reasons r)
  (pr_disallow_inserting_into_context_tracks_reasons r)
  (pr_disallow_reordering_in_next_tracks_reasons r)
  (pr_disallow_reordering_in_context_tracks_reasons r)
  (pr_disallow_removing_from_next_tracks_reasons r)
  (pr_disallow_removing_from_context_tracks_reasons r) (pr_disallow_updating_context_reasons r)
  (pr_disallow_playing_reasons r) (pr_disallow_stopping_reasons r) (pr_disallow_add_to_queue_reasons
  r) (pr_disallow_setting_playback_speed_reasons r) (pr_disallow_setting_modes r)
  (pr_disallow_signals r).

Definition set_pr_disallow_toggling_repeat_track_reasons (v : list string) (r : PlayerRestrictions)
  : PlayerRestrictions := mkPlayerRestrictions (pr_disallow_pausing_reasons r)
  (pr_disallow_resuming_reasons r) (pr_disallow_seeking_reasons r) (pr_disallow_peeking_prev_reasons
  r) (pr_disallow_peeking_next_reasons r) (pr_disallow_skipping_prev_reasons r)
  (pr_disallow_skipping_next_reasons r) (pr_disallow_toggling_repeat_context_reasons r) v
  (pr_disallow_toggling_shuffle_reasons r) (pr_disallow_set_queue_reasons r)
  (pr_disallow_interrupting_playback_reasons r) (pr_disallow_transferring_playback_reasons r)
  (pr_disallow_remote_control_reasons r) (pr_disallow_inserting_into_next_tracks_reasons r)
  (pr_disallow_inserting_into_context_tracks_reasons r)
  (pr_disallow_reordering_in_next_tracks_reasons r)
  (pr_disallow_reordering_in_context_tracks_reasons r)
  (pr_disallow_removing_from_next_tracks_reasons r)
  (pr_disallow_removing_from_context_tracks_reasons r) (pr_disallow_updating_context_reasons r)
  (pr_disallow_playing_reasons r) (pr_disallow_stopping_reasons r) (pr_disallow_add_to_queue_reasons
  r) (pr_disallow_setting_playback_speed_reasons r) (pr_disallow_setting_modes r)
  (pr_disallow_signals r).

Definition set_pr_disallow_toggling_shuffle_reasons (v : list string) (r : PlayerRestrictions) :
  PlayerRestrictions := mkPlayerRestrictions (pr_disallow_pausing_reasons r)
  (pr_disallow_resuming_reasons r) (pr_disallow_seeking_reasons r) (pr_disallow_peeking_prev_reasons
  r) (pr_disallow_peeking_next_reasons r) (pr_disallow_skipping_prev_reasons r)
  (pr_disallow_skipping_next_reasons r) (pr_disallow_toggling_repeat_context_reasons r)
  (pr_disallow_toggling_repeat_track_reasons r) v (pr_disallow_set_queue_reasons r)
  (pr_disallow_interrupting_playback_reasons r) (pr_disallow_transferring_playback_reasons r)
  (pr_disallow_remote_control_reasons r) (pr_disallow_inserting_into_next_tracks_reasons r)
  (pr_disallow_inserting_into_context_tracks_reasons r)
  (pr_disallow_reordering_in_next_tracks_reasons r)
  (pr_disallow_reordering_in_context_tracks_reasons r)
  (pr_disallow_removing_from_next_tracks_reasons r)
  (pr_disallow_removing_from_context_tracks_reasons r) (pr_disallow_updating_context_reasons r)
  (pr_disallow_playing_reasons r) (pr_disallow_stopping_reasons r) (pr_disallow_add_to_queue_reasons
  r) (pr_disallow_setting_playback_speed_reasons r) (pr_disallow_setting_modes r)
  (pr_disallow_signals r).

Definition player_reasons (v : RestrictionReasons) : PlayerRestrictionReasons :=
  mkPlayerRestrictionReasons (rr_reasons v).
Definition reasons_of_player (v : PlayerRestrictionReasons) : RestrictionReasons :=
  mkRestrictionReasons (prr_reasons v).

Definition player_modes (v : ModeRestrictions) : PlayerModeRestrictions :=
  mkPlayerModeRestrictions (hashmap_into player_reasons (mr_values v)).
Definition modes_of_player (v : PlayerModeRestrictions) : ModeRestrictions :=
  mkModeRestrictions (hashmap_into reasons_of_player (pmr_values v)).

Definition player_restrictions (v : Restrictions) : PlayerRestrictions := mkPlayerRestrictions
  (r_disallow_pausing_reasons v) (r_disallow_resuming_reasons v) (r_disallow_seeking_reasons v)
  (r_disallow_peeking_prev_reasons v) (r_disallow_peeking_next_reasons v)
  (r_disallow_skipping_prev_reasons v) (r_disallow_skipping_next_reasons v)
  (r_disallow_toggling_repeat_context_reasons v) (r_disallow_toggling_repeat_track_reasons v)
  (r_disallow_toggling_shuffle_reasons v) (r_disallow_set_queue_reasons v)
  (r_disallow_interrupting_playback_reasons v) (r_disallow_transferring_playback_reasons v)
  (r_disallow_remote_control_reasons v) (r_disallow_inserting_into_next_tracks_reasons v)
  (r_disallow_inserting_into_context_tracks_reasons v) (r_disallow_reordering_in_next_tracks_reasons
  v) (r_disallow_reordering_in_context_tracks_reasons v)
  (r_disallow_removing_from_next_tracks_reasons v) (r_disallow_removing_from_context_tracks_reasons
  v) (r_disallow_updating_context_reasons v) [] [] (r_disallow_add_to_queue_reasons v)
  (r_disallow_setting_playback_speed v) (hashmap_into player_modes (r_disallow_setting_modes v))
  (hashmap_into player_reasons (r_disallow_signals v)).

Definition restrictions_of_player (v : PlayerRestrictions) : Restrictions := mkRestrictions
  (pr_disallow_pausing_reasons v) (pr_disallow_resuming_reasons v) (pr_disallow_seeking_reasons v)
  (pr_disallow_peeking_prev_reasons v) (pr_disallow_peeking_next_reasons v)
  (pr_disallow_skipping_prev_reasons v) (pr_disallow_skipping_next_reasons v)
  (pr_disallow_toggling_repeat_context_reasons v) (pr_disallow_toggling_repeat_track_reasons v)
  (pr_disallow_toggling_shuffle_reasons v) (pr_disallow_set_queue_reasons v)
  (pr_disallow_interrupting_playback_reasons v) (pr_disallow_transferring_playback_reasons v)
  (pr_disallow_remote_control_reasons v) (pr_disallow_inserting_into_next_tracks_reasons v)
  (pr_disallow_inserting_into_context_tracks_reasons v)
  (pr_disallow_reordering_in_next_tracks_reasons v)
  (pr_disallow_reordering_in_context_tracks_reasons v)
  (pr_disallow_removing_from_next_tracks_reasons v)
  (pr_disallow_removing_from_context_tracks_reasons v) (pr_disallow_updating_context_reasons v)
  (pr_disallow_add_to_queue_reasons v) (pr_disallow_setting_playback_speed_reasons v) (hashmap_into
  modes_of_player (pr_disallow_setting_modes v)) (hashmap_into reasons_of_player
  (pr_disallow_signals v)).

(** ** Options, origin and suppressions *)

Record ContextPlayerOptions := mkContextPlayerOptions { cpo_shuffling_context : option bool;
  cpo_repeating_context : option bool; cpo_repeating_track : option bool; cpo_playback_speed :
  option f64; cpo_modes : gmap string string }.

Record PlayerContextPlayerOptions := mkPlayerContextPlayerOptions { po_shuffling_context : bool;
  po_repeating_context : bool; po_repeating_track : bool; po_modes : gmap string string;
  po_playback_speed : option f64 }.

Definition PlayerContextPlayerOptions_default : PlayerContextPlayerOptions :=
  mkPlayerContextPlayerOptions false false false ∅ None.

Definition set_po_shuffling_context (v : bool) (r : PlayerContextPlayerOptions) :
  PlayerContextPlayerOptions := mkPlayerContextPlayerOptions v (po_repeating_context r)
  (po_repeating_track r) (po_modes r) (po_playback_speed r).

Definition set_po_repeating_context (v : bool) (r : PlayerContextPlayerOptions) :
  PlayerContextPlayerOptions := mkPlayerContextPlayerOptions (po_shuffling_context r) v
  (po_repeating_track r) (po_modes r) (po_playback_speed r).

Definition set_po_repeating_track (v : bool) (r : PlayerContextPlayerOptions) :
  PlayerContextPlayerOptions := mkPlayerContextPlayerOptions (po_shuffling_context r)
  (po_repeating_context r) v (po_modes r) (po_playback_speed r).

Definition player_options (v : ContextPlayerOptions) : PlayerContextPlayerOptions :=
  mkPlayerContextPlayerOptions (default false (cpo_shuffling_context v)) (default false (cpo_repeating_context v))
    (default false (cpo_repeating_track v)) (cpo_modes v) (cpo_playback_speed v).

Record PlayOrigin := mkPlayOrigin { o_feature_identifier : option string; o_feature_version : option
  string; o_view_uri : option string; o_external_referrer : option string; o_referrer_identifier :
  option string; o_device_identifier : option string; o_feature_classes : list string;
  o_restriction_identifier : option string }.

Record PlayerPlayOrigin := mkPlayerPlayOrigin { po_feature_identifier : string; po_feature_version :
  string; po_view_uri : string; po_external_referrer : string; po_referrer_identifier : string;
  po_device_identifier : string; po_feature_classes : list string; po_restriction_identifier :
  string }.

Definition PlayerPlayOrigin_default : PlayerPlayOrigin := mkPlayerPlayOrigin EmptyString EmptyString
  EmptyString EmptyString EmptyString EmptyString [] EmptyString.

Definition player_origin (v : PlayOrigin) : PlayerPlayOrigin := mkPlayerPlayOrigin (default
  EmptyString (o_feature_identifier v)) (default EmptyString (o_feature_version v)) (default
  EmptyString (o_view_uri v)) (default EmptyString (o_external_referrer v)) (default EmptyString
  (o_referrer_identifier v)) (default EmptyString (o_device_identifier v)) (o_feature_classes v)
  (default EmptyString (o_restriction_identifier v)).

Record Suppressions := mkSuppressions { sup_providers : list string }.

Record PlayerSuppressions := mkPlayerSuppressions { psup_providers : list string }.

Definition PlayerSuppressions_default : PlayerSuppressions := mkPlayerSuppressions [].

Definition player_suppressions (v : Suppressions) : PlayerSuppressions := mkPlayerSuppressions (sup_providers v).

(** ** Contexts, tracks and the player state *)

Record ContextTrack := mkContextTrack { ct_uri : option string; ct_uid : option string; ct_gid :
  option (list Z); ct_metadata : gmap string string }.

Definition ContextTrack_default : ContextTrack := mkContextTrack None None None ∅.

Record ContextPage := mkContextPage { pg_page_url : option string; pg_next_page_url : option string;
  pg_metadata : gmap string string; pg_tracks : list ContextTrack }.

Definition ContextPage_default : ContextPage := mkContextPage None None ∅ [].

Record Context := mkContext { ctx_uri : option string; ctx_url : option string; ctx_metadata : gmap
  string string; ctx_restrictions : option Restrictions; ctx_pages : list ContextPage }.

Definition Context_default : Context := mkContext None None ∅ None [].

(** [impl From<Vec<String>> for ContextPage] and [impl From<Vec<ContextTrack>> for ContextPage] *)
Definition page_of_uris (value : list string) : ContextPage :=
  mkContextPage None None ∅ ((fun uri => mkContextTrack (Some uri) None None ∅) <$> value).
Definition page_of_tracks (tracks : list ContextTrack) : ContextPage := mkContextPage None None ∅ tracks.

Record ContextIndex := mkContextIndex { ci_page : Z; ci_track : Z }.

Definition ContextIndex_default : ContextIndex := mkContextIndex 0 0.

Definition set_ci_page (v : Z) (r : ContextIndex) : ContextIndex := mkContextIndex v (ci_track r).

Definition set_ci_track (v : Z) (r : ContextIndex) : ContextIndex := mkContextIndex (ci_page r) v.

Record ProvidedTrack := mkProvidedTrack { pt_uri : string; pt_uid : string; pt_metadata : gmap
  string string; pt_provider : string }.

Definition ProvidedTrack_default : ProvidedTrack := mkProvidedTrack EmptyString EmptyString ∅
  EmptyString.

Definition set_pt_uri (v : string) (r : ProvidedTrack) : ProvidedTrack := mkProvidedTrack v (pt_uid
  r) (pt_metadata r) (pt_provider r).

Definition set_pt_uid (v : string) (r : ProvidedTrack) : ProvidedTrack := mkProvidedTrack (pt_uri r)
  v (pt_metadata r) (pt_provider r).

Definition set_pt_metadata (v : gmap string string) (r : ProvidedTrack) : ProvidedTrack :=
  mkProvidedTrack (pt_uri r) (pt_uid r) v (pt_provider r).

Definition set_pt_provider (v : string) (r : ProvidedTrack) : ProvidedTrack := mkProvidedTrack
  (pt_uri r) (pt_uid r) (pt_metadata r) v.

Record PlayerState := mkPlayerState { ps_timestamp : Z; ps_context_uri : string; ps_context_url :
  string; ps_context_restrictions : option PlayerRestrictions; ps_play_origin : option
  PlayerPlayOrigin; ps_index : option ContextIndex; ps_track : option ProvidedTrack;
  ps_playback_speed : f64; ps_position_as_of_timestamp : Z; ps_duration : Z; ps_is_playing : bool;
  ps_is_paused : bool; ps_is_buffering : bool; ps_is_system_initiated : bool; ps_options : option
  PlayerContextPlayerOptions; ps_restrictions : option PlayerRestrictions; ps_suppressions : option
  PlayerSuppressions; ps_prev_tracks : list ProvidedTrack; ps_next_tracks : list ProvidedTrack;
  ps_context_metadata : gmap string string; ps_session_id : string; ps_queue_revision : string }.

Definition PlayerState_default : PlayerState := mkPlayerState 0 EmptyString EmptyString None None
  None None f64_zero 0 0 false false false false None None None [] [] ∅ EmptyString EmptyString.

Definition set_ps_timestamp (v : Z) (r : PlayerState) : PlayerState := mkPlayerState v
  (ps_context_uri r) (ps_context_url r) (ps_context_restrictions r) (ps_play_origin r) (ps_index r)
  (ps_track r) (ps_playback_speed r) (ps_position_as_of_timestamp r) (ps_duration r) (ps_is_playing
  r) (ps_is_paused r) (ps_is_buffering r) (ps_is_system_initiated r) (ps_options r) (ps_restrictions
  r) (ps_suppressions r) (ps_prev_tracks r) (ps_next_tracks r) (ps_context_metadata r)
  (ps_session_id r) (ps_queue_revision r).

Definition set_ps_context_uri (v : string) (r : PlayerState) : PlayerState := mkPlayerState
  (ps_timestamp r) v (ps_context_url r) (ps_context_restrictions r) (ps_play_origin r) (ps_index r)
  (ps_track r) (ps_playback_speed r) (ps_position_as_of_timestamp r) (ps_duration r) (ps_is_playing
  r) (ps_is_paused r) (ps_is_buffering r) (ps_is_system_initiated r) (ps_options r) (ps_restrictions
  r) (ps_suppressions r) (ps_prev_tracks r) (ps_next_tracks r) (ps_context_metadata r)
  (ps_session_id r) (ps_queue_revision r).

Definition set_ps_context_url (v : string) (r : PlayerState) : PlayerState := mkPlayerState
  (ps_timestamp r) (ps_context_uri r) v (ps_context_restrictions r) (ps_play_origin r) (ps_index r)
  (ps_track r) (ps_playback_speed r) (ps_position_as_of_timestamp r) (ps_duration r) (ps_is_playing
  r) (ps_is_paused r) (ps_is_buffering r) (ps_is_system_initiated r) (ps_options r) (ps_restrictions
  r) (ps_suppressions r) (ps_prev_tracks r) (ps_next_tracks r) (ps_context_metadata r)
  (ps_session_id r) (ps_queue_revision r).

Definition set_ps_context_restrictions (v : option PlayerRestrictions) (r : PlayerState) :
  PlayerState := mkPlayerState (ps_timestamp r) (ps_context_uri r) (ps_context_url r) v
  (ps_play_origin r) (ps_index r) (ps_track r) (ps_playback_speed r) (ps_position_as_of_timestamp r)
  (ps_duration r) (ps_is_playing r) (ps_is_paused r) (ps_is_buffering r) (ps_is_system_initiated r)
  (ps_options r) (ps_restrictions r) (ps_suppressions r) (ps_prev_tracks r) (ps_next_tracks r)
  (ps_context_metadata r) (ps_session_id r) (ps_queue_revision r).

Definition set_ps_play_origin (v : option PlayerPlayOrigin) (r : PlayerState) : PlayerState :=
  mkPlayerState (ps_timestamp r) (ps_context_uri r) (ps_context_url r) (ps_context_restrictions r) v
  (ps_index r) (ps_track r) (ps_playback_speed r) (ps_position_as_of_timestamp r) (ps_duration r)
  (ps_is_playing r) (ps_is_paused r) (ps_is_buffering r) (ps_is_system_initiated r) (ps_options r)
  (ps_restrictions r) (ps_suppressions r) (ps_prev_tracks r) (ps_next_tracks r) (ps_context_metadata
  r) (ps_session_id r) (ps_queue_revision r).

Definition set_ps_index (v : option ContextIndex) (r : PlayerState) : PlayerState := mkPlayerState
  (ps_timestamp r) (ps_context_uri r) (ps_context_url r) (ps_context_restrictions r) (ps_play_origin
  r) v (ps_track r) (ps_playback_speed r) (ps_position_as_of_timestamp r) (ps_duration r)
  (ps_is_playing r) (ps_is_paused r) (ps_is_buffering r) (ps_is_system_initiated r) (ps_options r)
  (ps_restrictions r) (ps_suppressions r) (ps_prev_tracks r) (ps_next_tracks r) (ps_context_metadata
  r) (ps_session_id r) (ps_queue_revision r).

Definition set_ps_track (v : option ProvidedTrack) (r : PlayerState) : PlayerState := mkPlayerState
  (ps_timestamp r) (ps_context_uri r) (ps_context_url r) (ps_context_restrictions r) (ps_play_origin
  r) (ps_index r) v (ps_playback_speed r) (ps_position_as_of_timestamp r) (ps_duration r)
  (ps_is_playing r) (ps_is_paused r) (ps_is_buffering r) (ps_is_system_initiated r) (ps_options r)
  (ps_restrictions r) (ps_suppressions r) (ps_prev_tracks r) (ps_next_tracks r) (ps_context_metadata
  r) (ps_session_id r) (ps_queue_revision r).

Definition set_ps_playback_speed (v : f64) (r : PlayerState) : PlayerState := mkPlayerState
  (ps_timestamp r) (ps_context_uri r) (ps_context_url r) (ps_context_restrictions r) (ps_play_origin
  r) (ps_index r) (ps_track r) v (ps_position_as_of_timestamp r) (ps_duration r) (ps_is_playing r)
  (ps_is_paused r) (ps_is_buffering r) (ps_is_system_initiated r) (ps_options r) (ps_restrictions r)
  (ps_suppressions r) (ps_prev_tracks r) (ps_next_tracks r) (ps_context_metadata r) (ps_session_id
  r) (ps_queue_revision r).

Definition set_ps_position_as_of_timestamp (v : Z) (r : PlayerState) : PlayerState := mkPlayerState
  (ps_timestamp r) (ps_context_uri r) (ps_context_url r) (ps_context_restrictions r) (ps_play_origin
  r) (ps_index r) (ps_track r) (ps_playback_speed r) v (ps_duration r) (ps_is_playing r)
  (ps_is_paused r) (ps_is_buffering r) (ps_is_system_initiated r) (ps_options r) (ps_restrictions r)
  (ps_suppressions r) (ps_prev_tracks r) (ps_next_tracks r) (ps_context_metadata r) (ps_session_id
  r) (ps_queue_revision r).

Definition set_ps_duration (v : Z) (r : PlayerState) : PlayerState := mkPlayerState (ps_timestamp r)
  (ps_context_uri r) (ps_context_url r) (ps_context_restrictions r) (ps_play_origin r) (ps_index r)
  (ps_track r) (ps_playback_speed r) (ps_position_as_of_timestamp r) v (ps_is_playing r)
  (ps_is_paused r) (ps_is_buffering r) (ps_is_system_initiated r) (ps_options r) (ps_restrictions r)
  (ps_suppressions r) (ps_prev_tracks r) (ps_next_tracks r) (ps_context_metadata r) (ps_session_id
  r) (ps_queue_revision r).

Definition set_ps_is_playing (v : bool) (r : PlayerState) : PlayerState := mkPlayerState
  (ps_timestamp r) (ps_context_uri r) (ps_context_url r) (ps_context_restrictions r) (ps_play_origin
  r) (ps_index r) (ps_track r) (ps_playback_speed r) (ps_position_as_of_timestamp r) (ps_duration r)
  v (ps_is_paused r) (ps_is_buffering r) (ps_is_system_initiated r) (ps_options r) (ps_restrictions
  r) (ps_suppressions r) (ps_prev_tracks r) (ps_next_tracks r) (ps_context_metadata r)
  (ps_session_id r) (ps_queue_revision r).

Definition set_ps_is_paused (v : bool) (r : PlayerState) : PlayerState := mkPlayerState
  (ps_timestamp r) (ps_context_uri r) (ps_context_url r) (ps_context_restrictions r) (ps_play_origin
  r) (ps_index r) (ps_track r) (ps_playback_speed r) (ps_position_as_of_timestamp r) (ps_duration r)
  (ps_is_playing r) v (ps_is_buffering r) (ps_is_system_initiated r) (ps_options r) (ps_restrictions
  r) (ps_suppressions r) (ps_prev_tracks r) (ps_next_tracks r) (ps_context_metadata r)
  (ps_session_id r) (ps_queue_revision r).

Definition set_ps_is_buffering (v : bool) (r : PlayerState) : PlayerState := mkPlayerState
  (ps_timestamp r) (ps_context_uri r) (ps_context_url r) (ps_context_restrictions r) (ps_play_origin
  r) (ps_index r) (ps_track r) (ps_playback_speed r) (ps_position_as_of_timestamp r) (ps_duration r)
  (ps_is_playing r) (ps_is_paused r) v (ps_is_system_initiated r) (ps_options r) (ps_restrictions r)
  (ps_suppressions r) (ps_prev_tracks r) (ps_next_tracks r) (ps_context_metadata r) (ps_session_id
  r) (ps_queue_revision r).

Definition set_ps_options (v : option PlayerContextPlayerOptions) (r : PlayerState) : PlayerState :=
  mkPlayerState (ps_timestamp r) (ps_context_uri r) (ps_context_url r) (ps_context_restrictions r)
  (ps_play_origin r) (ps_index r) (ps_track r) (ps_playback_speed r) (ps_position_as_of_timestamp r)
  (ps_duration r) (ps_is_playing r) (ps_is_paused r) (ps_is_buffering r) (ps_is_system_initiated r)
  v (ps_restrictions r) (ps_suppressions r) (ps_prev_tracks r) (ps_next_tracks r)
  (ps_context_metadata r) (ps_session_id r) (ps_queue_revision r).

Definition set_ps_restrictions (v : option PlayerRestrictions) (r : PlayerState) : PlayerState :=
  mkPlayerState (ps_timestamp r) (ps_context_uri r) (ps_context_url r) (ps_context_restrictions r)
  (ps_play_origin r) (ps_index r) (ps_track r) (ps_playback_speed r) (ps_position_as_of_timestamp r)
  (ps_duration r) (ps_is_playing r) (ps_is_paused r) (ps_is_buffering r) (ps_is_system_initiated r)
  (ps_options r) v (ps_suppressions r) (ps_prev_tracks r) (ps_next_tracks r) (ps_context_metadata r)
  (ps_session_id r) (ps_queue_revision r).

Definition set_ps_suppressions (v : option PlayerSuppressions) (r : PlayerState) : PlayerState :=
  mkPlayerState (ps_timestamp r) (ps_context_uri r) (ps_context_url r) (ps_context_restrictions r)
  (ps_play_origin r) (ps_index r) (ps_track r) (ps_playback_speed r) (ps_position_as_of_timestamp r)
  (ps_duration r) (ps_is_playing r) (ps_is_paused r) (ps_is_buffering r) (ps_is_system_initiated r)
  (ps_options r) (ps_restrictions r) v (ps_prev_tracks r) (ps_next_tracks r) (ps_context_metadata r)
  (ps_session_id r) (ps_queue_revision r).

Definition set_ps_prev_tracks (v : list ProvidedTrack) (r : PlayerState) : PlayerState :=
  mkPlayerState (ps_timestamp r) (ps_context_uri r) (ps_context_url r) (ps_context_restrictions r)
  (ps_play_origin r) (ps_index r) (ps_track r) (ps_playback_speed r) (ps_position_as_of_timestamp r)
  (ps_duration r) (ps_is_playing r) (ps_is_paused r) (ps_is_buffering r) (ps_is_system_initiated r)
  (ps_options r) (ps_restrictions r) (ps_suppressions r) v (ps_next_tracks r) (ps_context_metadata
  r) (ps_session_id r) (ps_queue_revision r).

Definition set_ps_next_tracks (v : list ProvidedTrack) (r : PlayerState) : PlayerState :=
  mkPlayerState (ps_timestamp r) (ps_context_uri r) (ps_context_url r) (ps_context_restrictions r)
  (ps_play_origin r) (ps_index r) (ps_track r) (ps_playback_speed r) (ps_position_as_of_timestamp r)
  (ps_duration r) (ps_is_playing r) (ps_is_paused r) (ps_is_buffering r) (ps_is_system_initiated r)
  (ps_options r) (ps_restrictions r) (ps_suppressions r) (ps_prev_tracks r) v (ps_context_metadata
  r) (ps_session_id r) (ps_queue_revision r).

Definition set_ps_context_metadata (v : gmap string string) (r : PlayerState) : PlayerState :=
  mkPlayerState (ps_timestamp r) (ps_context_uri r) (ps_context_url r) (ps_context_restrictions r)
  (ps_play_origin r) (ps_index r) (ps_track r) (ps_playback_speed r) (ps_position_as_of_timestamp r)
  (ps_duration r) (ps_is_playing r) (ps_is_paused r) (ps_is_buffering r) (ps_is_system_initiated r)
  (ps_options r) (ps_restrictions r) (ps_suppressions r) (ps_prev_tracks r) (ps_next_tracks r) v
  (ps_session_id r) (ps_queue_revision r).

Definition set_ps_session_id (v : string) (r : PlayerState) : PlayerState := mkPlayerState
  (ps_timestamp r) (ps_context_uri r) (ps_context_url r) (ps_context_restrictions r) (ps_play_origin
  r) (ps_index r) (ps_track r) (ps_playback_speed r) (ps_position_as_of_timestamp r) (ps_duration r)
  (ps_is_playing r) (ps_is_paused r) (ps_is_buffering r) (ps_is_system_initiated r) (ps_options r)
  (ps_restrictions r) (ps_suppressions r) (ps_prev_tracks r) (ps_next_tracks r) (ps_context_metadata
  r) v (ps_queue_revision r).

Definition set_ps_queue_revision (v : string) (r : PlayerState) : PlayerState := mkPlayerState
  (ps_timestamp r) (ps_context_uri r) (ps_context_url r) (ps_context_restrictions r) (ps_play_origin
  r) (ps_index r) (ps_track r) (ps_playback_speed r) (ps_position_as_of_timestamp r) (ps_duration r)
  (ps_is_playing r) (ps_is_paused r) (ps_is_buffering r) (ps_is_system_initiated r) (ps_options r)
  (ps_restrictions r) (ps_suppressions r) (ps_prev_tracks r) (ps_next_tracks r) (ps_context_metadata
  r) (ps_session_id r) v.

(** ** Transferred state *)

Record TransferPlayback := mkTransferPlayback { tp_timestamp : option Z; tp_position_as_of_timestamp :
  option Z; tp_playback_speed : option f64; tp_is_paused : option bool; tp_current_track : option
  ContextTrack }.

Definition TransferPlayback_default : TransferPlayback := mkTransferPlayback None None None None None.

Record TransferSession := mkTransferSession { ts_play_origin : option PlayOrigin; ts_context :
  option Context; ts_current_uid : option string; ts_suppressions : option Suppressions;
  ts_shuffle_seed : option string }.

Definition TransferSession_default : TransferSession := mkTransferSession None None None None None.

Record TransferQueue := mkTransferQueue { tq_tracks : list ContextTrack; tq_is_playing_queue :
  option bool }.

Definition TransferQueue_default : TransferQueue := mkTransferQueue [] None.

Record TransferState := mkTransferState { t_options : option ContextPlayerOptions; t_playback :
  option TransferPlayback; t_current_session : option TransferSession; t_queue : option
  TransferQueue }.

(** ** Lemmas *)

Lemma hashmap_into_id {A B} (f : A -> B) (g : B -> A) m :
  (forall a, g (f a) = a) -> hashmap_into g (hashmap_into f m) = m.
Proof.
  intros H. apply map_eq. intros k. unfold hashmap_into. rewrite !lookup_fmap.
  destruct (m !! k) as [a|]; simpl; [by rewrite H|done].
Qed.

Lemma reasons_id v : reasons_of_player (player_reasons v) = v.
Proof. by destruct v. Qed.

Lemma modes_id v : modes_of_player (player_modes v) = v.
Proof.
  destruct v as [m]. unfold modes_of_player, player_modes. simpl. f_equal. apply hashmap_into_id, reasons_id.
Qed.

(** ** Properties *)

(** The restrictions of a context survive the conversion to the form sent to the server and
    back, every reason list and every nested map included. *)
Theorem restrictions_roundtrip (v : Restrictions) : restrictions_of_player (player_restrictions v) = v.
Proof.
  destruct v. unfold restrictions_of_player, player_restrictions. cbn -[hashmap_into]. f_equal.
  - apply hashmap_into_id, modes_id.
  - apply hashmap_into_id, reasons_id.
Qed.
