(* ===== verification/Config.v ===== *)
(** * Configuration ([native/librespot/core/src/config.rs])

    The session configuration and the device type with its textual form and its protocol value.
    The command line parses the type case-insensitively. [to_lowercase] is only compared with ASCII
    names; of the characters outside ASCII only the Kelvin sign has an ASCII lower case, so all others
    can be left as they are. *)
From S2P Require Import Prelude Text.

Definition KEYMASTER_CLIENT_ID : string := "65b708073fc0480ea92a077233ca87bd".
Definition ANDROID_CLIENT_ID : string := "9a8d2f0ce77a4e248bb71fefcb557637".
Definition IOS_CLIENT_ID : string := "58bd3c95768941ea9eb4350aaa033eb3".

Record SessionConfig := mkSessionConfig {
  client_id : string;
  device_id : string;
  proxy : option string;
  ap_port : option Z;
  tmp_dir : string;
  autoplay : option bool
}.

(** [uuid] is the random identifier drawn, [temp_dir] the directory the system reports. *)
Definition default_for_os (uuid temp_dir os : string) : SessionConfig :=
  mkSessionConfig
    (if String.eqb os "android" then ANDROID_CLIENT_ID
     else if String.eqb os "ios" then IOS_CLIENT_ID
     else KEYMASTER_CLIENT_ID)
    uuid None None temp_dir None.

Inductive DeviceType :=
| DUnknown | Computer | Tablet | Smartphone | Speaker | Tv | Avr | Stb | AudioDongle | GameConsole
| CastAudio | CastVideo | Automobile | Smartwatch | Chromebook | UnknownSpotify | CarThing | Observer.

#[export] Instance DeviceType_eq_dec : EqDecision DeviceType.
Proof. solve_decision. Defined.

Definition discriminant (d : DeviceType) : Z :=
  match d with
  | DUnknown => 0 | Computer => 1 | Tablet => 2 | Smartphone => 3 | Speaker => 4 | Tv => 5 | Avr => 6
  | Stb => 7 | AudioDongle => 8 | GameConsole => 9 | CastAudio => 10 | CastVideo => 11 | Automobile => 12
  | Smartwatch => 13 | Chromebook => 14 | UnknownSpotify => 100 | CarThing => 101 | Observer => 102
  end.

(** [char::to_ascii_lowercase] *)
Definition lower_char (c : ascii) : ascii :=
  let z := char_code c in if (65 <=? z) && (z <=? 90) then code_char (z + 32) else c.

(** [str::to_lowercase], up to characters without an ASCII lower case; the Kelvin sign is the bytes
    226, 132, 170. *)
Fixpoint to_lowercase (s : string) : string :=
  match s with
  | EmptyString => EmptyString
  | String c s1 =>
      let plain := String (lower_char c) (to_lowercase s1) in
      match s1 with
      | String c2 (String c3 s3) =>
          if (char_code c =? 226) && (char_code c2 =? 132) && (char_code c3 =? 170) then String "k"%char (to_lowercase s3) else plain
      | _ => plain
      end
  end.

(** The arms of [from_str]. *)
Definition device_names : list (string * DeviceType) :=
  [("computer", Computer); ("tablet", Tablet); ("smartphone", Smartphone); ("speaker", Speaker); ("tv", Tv);
   ("avr", Avr); ("stb", Stb); ("audiodongle", AudioDongle); ("gameconsole", GameConsole);
   ("castaudio", CastAudio); ("castvideo", CastVideo); ("automobile", Automobile);
   ("smartwatch", Smartwatch); ("chromebook", Chromebook); ("carthing", CarThing)].

Fixpoint assoc {A} (k : string) (l : list (string * A)) : option A :=
  match l with [] => None | (k', a) :: l => if String.eqb k k' then Some a else assoc k l end.

Definition device_from_str (s : string) : option DeviceType := assoc (to_lowercase s) device_names.

Definition device_to_str (d : DeviceType) : string :=
  match d with
  | DUnknown => "Unknown" | Computer => "Computer" | Tablet => "Tablet" | Smartphone => "Smartphone"
  | Speaker => "Speaker" | Tv => "TV" | Avr => "AVR" | Stb => "STB" | AudioDongle => "AudioDongle"
  | GameConsole => "GameConsole" | CastAudio => "CastAudio" | CastVideo => "CastVideo"
  | Automobile => "Automobile" | Smartwatch => "Smartwatch" | Chromebook => "Chromebook"
  | UnknownSpotify => "UnknownSpotify" | CarThing => "CarThing" | Observer => "Observer"
  end.

(** The protocol's enumeration ([protocol/proto/devices.proto]). *)
Inductive ProtoDeviceType :=
| UNKNOWN | COMPUTER | TABLET | SMARTPHONE | SPEAKER | TV | AVR | STB | AUDIO_DONGLE | GAME_CONSOLE
| CAST_VIDEO | CAST_AUDIO | AUTOMOBILE | SMARTWATCH | CHROMEBOOK | UNKNOWN_SPOTIFY | CAR_THING | OBSERVER.

Definition proto_number (d : ProtoDeviceType) : Z :=
  match d with
  | UNKNOWN => 0 | COMPUTER => 1 | TABLET => 2 | SMARTPHONE => 3 | SPEAKER => 4 | TV => 5 | AVR => 6 | STB => 7
  | AUDIO_DONGLE => 8 | GAME_CONSOLE => 9 | CAST_VIDEO => 10 | CAST_AUDIO => 11 | AUTOMOBILE => 12
  | SMARTWATCH => 13 | CHROMEBOOK => 14 | UNKNOWN_SPOTIFY => 100 | CAR_THING => 101 | OBSERVER => 102
  end.

Definition proto_device_type (d : DeviceType) : ProtoDeviceType :=
  match d with
  | DUnknown => UNKNOWN | Computer => COMPUTER | Tablet => TABLET | Smartphone => SMARTPHONE
  | Speaker => SPEAKER | Tv => TV | Avr => AVR | Stb => STB | AudioDongle => AUDIO_DONGLE
  | GameConsole => GAME_CONSOLE | CastAudio => CAST_VIDEO | CastVideo => CAST_AUDIO
  | Automobile => AUTOMOBILE | Smartwatch => SMARTWATCH | Chromebook => CHROMEBOOK
  | UnknownSpotify => UNKNOWN_SPOTIFY | CarThing => CAR_THING | Observer => OBSERVER
  end.

(** ** Properties *)

(** A device type prints to a name that parses back to it, except the three types that have
    no name to configure them by, which do not parse; and the protocol value sent to the server
    carries the same number, so the server sees the configured type. *)
Theorem device_type_roundtrip (d : DeviceType) :
  device_from_str (device_to_str d) =
    (if bool_decide (d ∈ [DUnknown; UnknownSpotify; Observer]) then None else Some d) /\
  proto_number (proto_device_type d) = discriminant d.
Proof. by destruct d. Qed.

(** The names of the two cast types are exchanged on the way. *)
Lemma cast_names_swapped : proto_device_type CastAudio = CAST_VIDEO /\ proto_device_type CastVideo = CAST_AUDIO.
Proof. done. Qed.
