(* ===== verification/Errors.v ===== *)
(** * Errors ([native/librespot/core/src/error.rs])

    Every fallible call of the core library returns this error: a kind, on which callers decide
    whether to try again, and a boxed cause. A [Box<dyn Error>] holds one of the causes the
    modelled code boxes; [downcast_ref] is a match on it. Each [impl From<E> for Error] is a
    function and an instance of [IntoError], which [?] applies ([raise]). *)
From S2P Require Import Prelude.

Inductive ErrorKind :=
| Cancelled | Unknown | InvalidArgument | DeadlineExceeded | NotFound | AlreadyExists | PermissionDenied
| Unauthenticated | ResourceExhausted | FailedPrecondition | Aborted | OutOfRange | Unimplemented | Internal
| Unavailable | DataLoss | DoNotUse.

#[export] Instance ErrorKind_eq_dec : EqDecision ErrorKind.
Proof. solve_decision. Defined.

(** The discriminants. *)
Definition kind_code (k : ErrorKind) : Z :=
  match k with
  | Cancelled => 1 | Unknown => 2 | InvalidArgument => 3 | DeadlineExceeded => 4 | NotFound => 5
  | AlreadyExists => 6 | PermissionDenied => 7 | Unauthenticated => 16 | ResourceExhausted => 8
  | FailedPrecondition => 9 | Aborted => 10 | OutOfRange => 11 | Unimplemented => 12 | Internal => 13
  | Unavailable => 14 | DataLoss => 15 | DoNotUse => -1
  end.

(** ** The errors that are boxed *)

(** [std::io::ErrorKind] *)
Inductive IoErrorKind :=
| IoNotFound | IoPermissionDenied | IoAddrInUse | IoAlreadyExists | IoAddrNotAvailable | IoConnectionRefused
| IoNotConnected | IoBrokenPipe | IoConnectionReset | IoConnectionAborted | IoInterrupted | IoWouldBlock
| IoInvalidData | IoUnexpectedEof | IoTimedOut | IoInvalidInput | IoWriteZero | IoOther.

Inductive CacheError := CachePath.
Inductive CdnUrlError := Expired | Storage | Unresolved.
Inductive TokenError := TokenEmpty.
Inductive HttpClientError := HttpStatusCode (code : Z).
Inductive SpClientError := SpAttribute (name : string) | NoData | ExpectedEntry (name : string).

(** [LoginError] of the login5 protocol, by its number. *)
Inductive Login5Error := FaultyRequest (e : Z) | CodeChallenge | NoStoredCredentials | RetriesFailed (n : Z) | OnlyForMobile.

(** [ErrorCode] of the key exchange protocol. *)
Inductive ErrorCode :=
| ProtocolError | TryAnotherAP | BadConnectionId | TravelRestriction | PremiumAccountRequired | BadCredentials
| CouldNotValidateCredentials | AccountExists | ExtraVerificationRequired | InvalidAppKey | ApplicationBanned.

Inductive AuthenticationError := LoginFailed (code : ErrorCode) | BadPacket (cmd : Z) | NoTransport.
Inductive CredentialsError := AuthType (n : Z) | AuthKey.
Inductive SessionError := SessionAuthentication | SessionIo | NotConnected | SessionPacket (cmd : Z).

(** What [From<hyper::Error>] and [From<http::Error>] ask of the libraries' errors. *)
Record HyperError := mkHyperError {
  is_parse : bool; is_parse_status : bool; is_user : bool; is_canceled : bool; is_incomplete_message : bool;
  is_body_write_aborted : bool; is_closed : bool; is_timeout : bool
}.
Inductive HttpError := InvalidHeaderName | InvalidHeaderValue | InvalidMethod | InvalidUri | InvalidUriParts
| InvalidStatusCode | OtherHttpError.

Inductive OAuthError :=
| AuthCodeBadUri | AuthCodeNotFound | AuthCodeStdinRead | AuthCodeListenerBind | AuthCodeListenerTerminated
| AuthCodeListenerRead | AuthCodeListenerParse | AuthCodeListenerWrite | InvalidSpotifyUri | InvalidRedirectUri
| Recv | ExchangeCode | DeviceCode | ExchangeDeviceCode.

Inductive MetadataError := EmptyResponse | NonPlayable | InvalidDuration (ms : Z) | ExplicitContentFiltered.

Inductive DiscoveryError := AesError | DnsSdError | HmacError (key : list Z) | HttpServerError | ParamsError (key : string).

(** Of the websocket library: what makes an address unusable. *)
Inductive UrlError := NoHostName | UnsupportedUrlScheme.

(** Library errors that always become the same kind. *)
Inductive LibraryError :=
| DecodeError | TimeParse | XmlError | JsonError | FromUtf8Error | UrlParseError | ParseIntError | TryFromIntError
| ProtobufError | ToStrError | Utf8Error | JsonMappingError | RecvError | SendError | AcquireError | TryAcquireError
| ComponentRange | EncodingError.

(** [Box<dyn Error + Send + Sync>] *)
Inductive dyn_error :=
| EMessage (s : string) | EIo (k : IoErrorKind) | ECache (e : CacheError) | ECdnUrl (e : CdnUrlError)
| EToken (e : TokenError) | EHttpStatus (e : HttpClientError) | ESpClient (e : SpClientError)
| ELogin5 (e : Login5Error) | EAuthentication (e : AuthenticationError) | ECredentials (e : CredentialsError)
| ESession (e : SessionError) | EHyper (e : HyperError) | EHyperClient (is_connect : bool) | EHttp (e : HttpError)
| EOAuth (e : OAuthError) | ELibrary (e : LibraryError) | EMetadata (e : MetadataError)
| EDiscovery (e : DiscoveryError) | EWebsocket (e : UrlError).

Record Error := mkError { kind : ErrorKind; error : dyn_error }.

(** ** Constructors *)

Definition error_new (k : ErrorKind) (e : dyn_error) : Error := mkError k e.
Definition aborted (e : dyn_error) : Error := mkError Aborted e.
Definition already_exists (e : dyn_error) : Error := mkError AlreadyExists e.
Definition cancelled (e : dyn_error) : Error := mkError Cancelled e.
Definition data_loss (e : dyn_error) : Error := mkError DataLoss e.
Definition deadline_exceeded (e : dyn_error) : Error := mkError DeadlineExceeded e.
Definition do_not_use (e : dyn_error) : Error := mkError DoNotUse e.
Definition failed_precondition (e : dyn_error) : Error := mkError FailedPrecondition e.
Definition internal (e : dyn_error) : Error := mkError Internal e.
Definition invalid_argument (e : dyn_error) : Error := mkError InvalidArgument e.
Definition not_found (e : dyn_error) : Error := mkError NotFound e.
Definition out_of_range (e : dyn_error) : Error := mkError OutOfRange e.
Definition permission_denied (e : dyn_error) : Error := mkError PermissionDenied e.
Definition resource_exhausted (e : dyn_error) : Error := mkError ResourceExhausted e.
Definition unauthenticated (e : dyn_error) : Error := mkError Unauthenticated e.
Definition unavailable (e : dyn_error) : Error := mkError Unavailable e.
Definition unimplemented (e : dyn_error) : Error := mkError Unimplemented e.
Definition unknown (e : dyn_error) : Error := mkError Unknown e.

(** ** Conversions *)

Class IntoError (E : Type) := into_error : E -> Error.

Definition error_from_io (k : IoErrorKind) : Error :=
  match k with
  | IoNotFound => error_new NotFound (EIo k)
  | IoPermissionDenied => error_new PermissionDenied (EIo k)
  | IoAddrInUse | IoAlreadyExists => error_new AlreadyExists (EIo k)
  | IoAddrNotAvailable | IoConnectionRefused | IoNotConnected => error_new Unavailable (EIo k)
  | IoBrokenPipe | IoConnectionReset | IoConnectionAborted => error_new Aborted (EIo k)
  | IoInterrupted | IoWouldBlock => error_new Cancelled (EIo k)
  | IoInvalidData | IoUnexpectedEof => error_new FailedPrecondition (EIo k)
  | IoTimedOut => error_new DeadlineExceeded (EIo k)
  | IoInvalidInput => error_new InvalidArgument (EIo k)
  | IoWriteZero => error_new ResourceExhausted (EIo k)
  | IoOther => error_new Unknown (EIo k)
  end.

Definition error_from_hyper (e : HyperError) : Error :=
  if is_parse e || is_parse_status e || is_user e then error_new Internal (EHyper e)
  else if is_canceled e then error_new Cancelled (EHyper e)
  else if is_incomplete_message e then error_new DataLoss (EHyper e)
  else if is_body_write_aborted e || is_closed e then error_new Aborted (EHyper e)
  else if is_timeout e then error_new DeadlineExceeded (EHyper e)
  else error_new Unknown (EHyper e).

Definition error_from_hyper_client (is_connect : bool) : Error :=
  if is_connect then error_new Unavailable (EHyperClient is_connect) else error_new Unknown (EHyperClient is_connect).

Definition error_from_http (e : HttpError) : Error :=
  match e with
  | InvalidHeaderName | InvalidHeaderValue | InvalidMethod | InvalidUri | InvalidUriParts =>
      error_new InvalidArgument (EHttp e)
  | InvalidStatusCode => error_new FailedPrecondition (EHttp e)
  | OtherHttpError => error_new Unknown (EHttp e)
  end.

Definition error_from_oauth (e : OAuthError) : Error :=
  match e with
  | AuthCodeBadUri | AuthCodeNotFound | AuthCodeListenerRead | AuthCodeListenerParse => unavailable (EOAuth e)
  | AuthCodeStdinRead | AuthCodeListenerBind | AuthCodeListenerTerminated | AuthCodeListenerWrite | Recv
  | ExchangeCode => internal (EOAuth e)
  | _ => failed_precondition (EOAuth e)
  end.

Definition error_from_library (e : LibraryError) : Error :=
  match e with
  | DecodeError | TimeParse | XmlError | JsonError | FromUtf8Error | UrlParseError | ParseIntError
  | TryFromIntError | ProtobufError | ToStrError | Utf8Error => error_new FailedPrecondition (ELibrary e)
  | JsonMappingError => failed_precondition (ELibrary e)
  | RecvError | SendError => error_new Internal (ELibrary e)
  | AcquireError | TryAcquireError => error_new ResourceExhausted (ELibrary e)
  | ComponentRange => out_of_range (ELibrary e)
  | EncodingError => invalid_argument (ELibrary e)
  end.

Definition error_from_cache (e : CacheError) : Error := failed_precondition (ECache e).

Definition error_from_cdn_url (e : CdnUrlError) : Error :=
  match e with
  | Expired => deadline_exceeded (ECdnUrl e)
  | Storage | Unresolved => unavailable (ECdnUrl e)
  end.

Definition error_from_token (e : TokenError) : Error := unavailable (EToken e).

Definition error_from_spclient (e : SpClientError) : Error := failed_precondition (ESpClient e).

(** The status codes by their number. *)
Definition error_from_status (e : HttpClientError) : Error :=
  let 'HttpStatusCode code := e in
  let among l := existsb (Z.eqb code) l in
  if among [504; 408] then deadline_exceeded (EHttpStatus e)
  else if among [410; 404; 301; 308; 307] then not_found (EHttpStatus e)
  else if among [403; 402] then permission_denied (EHttpStatus e)
  else if among [511; 407; 401] then unauthenticated (EHttpStatus e)
  else if among [417; 412; 428] then failed_precondition (EHttpStatus e)
  else if among [416] then out_of_range (EHttpStatus e)
  else if among [500; 421; 503; 451] then unavailable (EHttpStatus e)
  else if among [400; 505; 411; 405; 406; 413; 431; 415; 414] then invalid_argument (EHttpStatus e)
  else if among [429] then resource_exhausted (EHttpStatus e)
  else if among [501] then unimplemented (EHttpStatus e)
  else unknown (EHttpStatus e).

Definition error_from_login5 (e : Login5Error) : Error :=
  match e with
  | NoStoredCredentials | OnlyForMobile => unavailable (ELogin5 e)
  | RetriesFailed _ | FaultyRequest _ => failed_precondition (ELogin5 e)
  | CodeChallenge => unimplemented (ELogin5 e)
  end.

Definition error_from_authentication (e : AuthenticationError) : Error :=
  match e with
  | LoginFailed _ => permission_denied (EAuthentication e)
  | BadPacket _ => unimplemented (EAuthentication e)
  | NoTransport => unavailable (EAuthentication e)
  end.

Definition error_from_credentials (e : CredentialsError) : Error := invalid_argument (ECredentials e).

Definition error_from_session (e : SessionError) : Error :=
  match e with
  | SessionAuthentication => unauthenticated (ESession e)
  | SessionIo => unavailable (ESession e)
  | NotConnected => unavailable (ESession e)
  | SessionPacket _ => unimplemented (ESession e)
  end.

Definition error_from_ws (e : UrlError) : Error := failed_precondition (EWebsocket e).

Definition error_from_discovery (e : DiscoveryError) : Error :=
  match e with
  | AesError | DnsSdError | HttpServerError => unavailable (EDiscovery e)
  | HmacError _ | ParamsError _ => invalid_argument (EDiscovery e)
  end.

#[export] Instance into_io : IntoError IoErrorKind := error_from_io.
#[export] Instance into_hyper : IntoError HyperError := error_from_hyper.
#[export] Instance into_http : IntoError HttpError := error_from_http.
#[export] Instance into_oauth : IntoError OAuthError := error_from_oauth.
#[export] Instance into_library : IntoError LibraryError := error_from_library.
#[export] Instance into_cache : IntoError CacheError := error_from_cache.
#[export] Instance into_cdn_url : IntoError CdnUrlError := error_from_cdn_url.
#[export] Instance into_token : IntoError TokenError := error_from_token.
#[export] Instance into_spclient : IntoError SpClientError := error_from_spclient.
#[export] Instance into_status : IntoError HttpClientError := error_from_status.
#[export] Instance into_login5 : IntoError Login5Error := error_from_login5.
#[export] Instance into_authentication : IntoError AuthenticationError := error_from_authentication.
#[export] Instance into_credentials : IntoError CredentialsError := error_from_credentials.
#[export] Instance into_session : IntoError SessionError := error_from_session.
#[export] Instance into_discovery : IntoError DiscoveryError := error_from_discovery.
#[export] Instance into_self : IntoError Error := fun e => e.

(** [r?] *)
Definition raise {E A} `{IntoError E} (r : res E A) : res Error A :=
  match r with Ok a => Ok a | Err e => Err (into_error e) | Panic => Panic end.

(** [downcast_ref::<AuthenticationError>] *)
Definition downcast_authentication (e : dyn_error) : option AuthenticationError :=
  match e with EAuthentication e => Some e | _ => None end.

(** ** Properties *)

Lemma kind_code_inj k1 k2 : kind_code k1 = kind_code k2 -> k1 = k2.
Proof. by destruct k1, k2. Qed.

(** The errors on which the service client tries again. *)
Definition retried (k : ErrorKind) : bool := match k with Unavailable | DeadlineExceeded => true | _ => false end.

Lemma status_retried code :
  retried (kind (error_from_status (HttpStatusCode code))) = true <->
  code = 504 \/ code = 408 \/ code = 500 \/ code = 421 \/ code = 503 \/ code = 451.
Proof. unfold error_from_status. cbn [existsb]. repeat (case_if; [simpl; lia|]). simpl. lia. Qed.
