(* ===== verification/DealerConn.v ===== *)
(** * Connections of the dealer ([native/librespot/core/src/dealer/mod.rs], [core/src/util.rs])

    Each connection has two tasks. One forwards queued messages to the websocket; the other reads
    the websocket, dispatches what it reads and sends a ping every 30 seconds. [run] watches both
    and connects again when one has ended. Here the tasks, [run] and the timeouts of dropped tasks
    are interleaved by events: an event names who goes on and carries the answer of the network.
    Time is in milliseconds and passes only while nobody has work to do and no timer is due
    ([may_wait]); a task that waits for the websocket or for the server can wait for ever. JSON,
    base64, gzip and URL parsing are parameters. *)
From S2P Require Import Prelude Text Errors DealerMaps Dealer.

Definition WEBSOCKET_CLOSE_TIMEOUT : Z := 3000.
Definition PING_INTERVAL : Z := 30000.
Definition PING_TIMEOUT : Z := 3000.
Definition RECONNECT_INTERVAL : Z := 10000.

(** ** Addresses *)

(** What [connect] asks of a URL. *)
Record Url := mkUrl { url_scheme : string; host_str : option string; url_port : option Z }.

(** The host and port [connect] dials. *)
Definition connect_target (address : Url) : res Error (string * Z) :=
  host ← ok_or (error_from_ws NoHostName) (host_str address);
  default_port ←
    (if String.eqb (url_scheme address) "ws" then Ok 80
     else if String.eqb (url_scheme address) "wss" then Ok 443
     else Err (error_from_ws UnsupportedUrlScheme));
  Ok (host, default (default_port : Z) (url_port address)).

(** [DealerManager::get_url], on the answers of the resolver and of the token server. *)
Definition get_url (parse_url : string -> option Url) (resolved : res Error (string * Z)) (token : res Error string) : res Error Url :=
  '(host, port) ← resolved;
  token ← token;
  ok_or (into_error UrlParseError)
    (parse_url ("wss://" +:+ host +:+ ":" +:+ show_Z port +:+ "/?access_token=" +:+ token)).

Section conn.

Context {JsonValue Request Text : Type}.
Variable json_to_string : JsonValue -> string.
Variable base64_decode : string -> option (list Z).
Variable gunzip : list Z -> option (list Z).
Variable parse_request : string -> option Request.
Variable from_str : Text -> option (MessageOrRequest (JsonValue := JsonValue)).
Variable reply_text : reply -> Text.

#[local] Abbreviation Maps := Dealer.Maps.
#[local] Abbreviation Receivers := (Dealer.Receivers (Request := Request)).
#[local] Abbreviation dispatch := (Dealer.dispatch json_to_string base64_decode gunzip parse_request).

(** ** One connection *)

(** A close frame is a code and a reason. *)
Definition CloseFrame := (Z * string)%type.
Inductive WsMessage := WsText (t : Text) | WsBinary | WsPing | WsPong | WsClose (frame : option CloseFrame).
Inductive WsError := AlreadyClosed | ConnectionClosed | OtherWsError.

(** The last thing the sending task does: a close frame, or only a flush. *)
Inductive Closing := CloseWith (frame : option CloseFrame) | Flush.

Inductive SendTask := SLoop | SFeeding (m : WsMessage) | SClosing (c : Closing) | SDone.

(** The ping task waits for a tick, or for a pong until [at]; the tick after it comes at [next]. *)
Inductive Ping := PTick (due : Z) | PCheck (at_ next : Z).

Inductive RecvTask := Receiving (pong_received : bool) (ping : Ping) | RecvDone.

Record Conn := mkConn {
  queue : list WsMessage;      (* [send_rx] *)
  rx_open : bool;
  send_task : SendTask;
  recv_task : RecvTask;
  wire : list WsMessage        (* what the websocket accepted *)
}.

Definition set_send (t : SendTask) (c : Conn) : Conn := mkConn (queue c) (rx_open c) t (recv_task c) (wire c).
Definition set_recv (t : RecvTask) (c : Conn) : Conn := mkConn (queue c) (rx_open c) (send_task c) t (wire c).
Definition set_queue (q : list WsMessage) (c : Conn) : Conn := mkConn q (rx_open c) (send_task c) (recv_task c) (wire c).
Definition close_rx (c : Conn) : Conn := mkConn (queue c) false (send_task c) (recv_task c) (wire c).
Definition add_wire (m : WsMessage) (c : Conn) : Conn := mkConn (queue c) (rx_open c) (send_task c) (recv_task c) (wire c ++ [m]).

(** A connection that was just made: the first tick of an interval is immediate. *)
Definition conn_new (now : Z) : Conn := mkConn [] true SLoop (Receiving true (PTick now)) [].

(** [send_tx.send(m)] *)
Definition push (m : WsMessage) (c : Conn) : bool * Conn :=
  if rx_open c then (true, set_queue (queue c ++ [m]) c) else (false, c).

Definition send_live (c : Conn) : bool := match send_task c with SDone => false | _ => true end.
Definition recv_live (c : Conn) : bool := match recv_task c with RecvDone => false | _ => true end.

(** ** The sending task *)

(** The end of the loop: [send_rx.close()] and the choice of the last message. *)
Definition send_break (r : res WsError (option CloseFrame)) (c : Conn) : Conn :=
  set_send (SClosing match r with
                     | Ok frame => CloseWith frame
                     | Err AlreadyClosed | Err ConnectionClosed => Flush
                     | _ => CloseWith None
                     end) (close_rx c).

(** The answer of the websocket to the pending operation. *)
Inductive SockAnswer := SockOk | SockErr (e : WsError).

(** One step of the task: a turn of its biased [select!], the end of [feed], or the end of the last
    operation. Without a message the task only flushes, which ends it when it fails. *)
Definition send_step (closed : bool) (answer : SockAnswer) (c : Conn) : option Conn :=
  match send_task c with
  | SLoop =>
      if closed then Some (send_break (Ok None) c)
      else match queue c with
           | WsClose frame :: q => Some (send_break (Ok frame) (set_queue q c))
           | m :: q => Some (set_send (SFeeding m) (set_queue q c))
           | [] => if recv_live c then
                     match answer with SockErr e => Some (send_break (Err e) c) | SockOk => None end
                   else Some (send_break (Ok None) c)
           end
  | SFeeding m =>
      match answer with
      | SockOk => Some (set_send SLoop (add_wire m c))
      | SockErr e => Some (send_break (Err e) c)
      end
  | SClosing k =>
      Some (set_send SDone
        match k, answer with CloseWith frame, SockOk => add_wire (WsClose frame) c | _, _ => c end)
  | SDone => None
  end.

(** The task has something to do that does not wait for the websocket. *)
Definition send_ready (closed : bool) (c : Conn) : bool :=
  match send_task c with SLoop => closed || negb (recv_live c) || negb (bool_decide (length (queue c) = 0%nat)) | _ => false end.

(** ** The receiving task *)

(** What [ws_rx.next()] gives. *)
Inductive Incoming := InMessage (m : WsMessage) | InError | InEnd.

(** One of the two subtasks has ended. *)
Definition recv_end (c : Conn) : Conn := set_recv RecvDone (push (WsClose None) c).2.

Definition recv_step (f : Incoming) (maps : Maps) (rs : Receivers) (c : Conn) : option (Maps * Receivers * Conn) :=
  match recv_task c with
  | RecvDone => None
  | Receiving pong ping =>
      Some match f with
      | InMessage (WsText t) =>
          match from_str t with
          | Some m =>
              let '(replies, maps, rs) := dispatch m maps rs in
              (maps, rs, foldl (fun c r => (push (WsText (reply_text r)) c).2) c replies)
          | None => (maps, rs, c)
          end
      | InMessage WsPong => (maps, rs, set_recv (Receiving true ping) c)
      | InMessage (WsClose _) | InError | InEnd => (maps, rs, recv_end c)
      | InMessage WsBinary | InMessage WsPing => (maps, rs, c)
      end
  end.

(** The timer of the ping task fires; a late tick does not move the next one. *)
Definition ping_step (now : Z) (c : Conn) : option Conn :=
  match recv_task c with
  | RecvDone => None
  | Receiving _ (PTick due) =>
      if due <=? now then
        let '(sent, c) := push WsPing c in
        Some (if sent then set_recv (Receiving false (PCheck (now + PING_TIMEOUT) (due + PING_INTERVAL))) c else recv_end c)
      else None
  | Receiving pong (PCheck at_ next) =>
      if at_ <=? now then Some (if pong then set_recv (Receiving true (PTick next)) c else recv_end c) else None
  end.

Definition ping_due (c : Conn) : option Z :=
  match recv_task c with
  | RecvDone => None
  | Receiving _ (PTick due) => Some due
  | Receiving _ (PCheck at_ _) => Some at_
  end.

(** ** [run] *)

(** A task, by its connection. *)
Inductive Task := TSend (i : nat) | TRecv (i : nat).

Inductive Phase :=
| RTop | RSelect | RUrl | RConnect (url : Url) | RSleep (until : Z) | RJoin | REnded (r : res Error unit).

Record Net := mkNet {
  now : Z;
  closed : bool;                       (* [notify_drop] *)
  maps : Maps;
  receivers : Receivers;
  conns : list Conn;                   (* every connection that was made *)
  tasks : option nat * option nat;     (* the connections of the two tasks [run] holds *)
  dropped : list (Task * Z);           (* dropped tasks, with the end of their timeout *)
  phase : Phase
}.

Definition set_conn (i : nat) (c : Conn) (s : Net) : Net :=
  mkNet (now s) (closed s) (maps s) (receivers s) (<[i := c]> (conns s)) (tasks s) (dropped s) (phase s).
Definition set_shared (m : Maps) (rs : Receivers) (s : Net) : Net :=
  mkNet (now s) (closed s) m rs (conns s) (tasks s) (dropped s) (phase s).
Definition set_phase (p : Phase) (s : Net) : Net :=
  mkNet (now s) (closed s) (maps s) (receivers s) (conns s) (tasks s) (dropped s) p.
Definition set_tasks (t : option nat * option nat) (s : Net) : Net :=
  mkNet (now s) (closed s) (maps s) (receivers s) (conns s) t (dropped s) (phase s).
Definition set_dropped (d : list (Task * Z)) (s : Net) : Net :=
  mkNet (now s) (closed s) (maps s) (receivers s) (conns s) (tasks s) d (phase s).
Definition add_conn (c : Conn) (s : Net) : Net :=
  mkNet (now s) (closed s) (maps s) (receivers s) (conns s ++ [c]) (tasks s) (dropped s) (phase s).
Definition set_closed (s : Net) : Net :=
  mkNet (now s) true (maps s) (receivers s) (conns s) (tasks s) (dropped s) (phase s).
Definition set_now (t : Z) (s : Net) : Net :=
  mkNet t (closed s) (maps s) (receivers s) (conns s) (tasks s) (dropped s) (phase s).

(** A dealer started by [Builder::launch_in_background]. *)
Definition net_new (m : Maps) (rs : Receivers) (t : Z) : Net := mkNet t false m rs [] (None, None) [] RTop.

(** [Builder::launch]: the first connection is made before [run] is spawned; [dial] is the outcome of
    dialing and of the handshake. *)
Definition launch (m : Maps) (rs : Receivers) (t : Z) (url : res Error Url) (dial : res Error unit) : res Error Net :=
  url ← url;
  _ ← connect_target url;
  _ ← dial;
  Ok (mkNet t false m rs [conn_new t] (Some 0%nat, Some 0%nat) [] RTop).

Definition live (cs : list Conn) (t : Task) : bool :=
  match t with
  | TSend i => match cs !! i with Some c => send_live c | None => false end
  | TRecv i => match cs !! i with Some c => recv_live c | None => false end
  end.

(** [TimeoutOnDrop::drop]: a task that has not ended gets three more seconds. *)
Definition drop_task (t : Task) (s : Net) : Net :=
  if live (conns s) t then set_dropped (dropped s ++ [(t, now s + WEBSOCKET_CLOSE_TIMEOUT)]) s else s.

(** Both tasks [run] still holds. *)
Definition drop_tasks (s : Net) : Net :=
  let s' := match (tasks s).1 with Some i => drop_task (TSend i) s | None => s end in
  let s'' := match (tasks s).2 with Some i => drop_task (TRecv i) s' | None => s' end in
  set_tasks (None, None) s''.

#[local] Arguments drop_tasks : simpl never.
#[local] Arguments live : simpl never.

(** [JoinHandle::abort]: the halves of the queue the task holds are dropped. *)
Definition abort_task (t : Task) (s : Net) : Net :=
  match t with
  | TSend i => match conns s !! i with
               | Some c => if send_live c then set_conn i (set_send SDone (close_rx c)) s else s
               | None => s
               end
  | TRecv i => match conns s !! i with Some c => set_conn i (set_recv RecvDone c) s | None => s end
  end.

Definition task_done (s : Net) (t : option Task) : bool :=
  match t with Some t => negb (live (conns s) t) | None => true end.

(** What [run] waits for. *)
Inductive RunEvent :=
| RunGo | RunClosed | RunTask0 | RunTask1 | RunUrl (r : res Error Url) | RunConnected | RunRefused | RunWake | RunJoined.

(** One step of [run]; [RunConnected] and [RunRefused] are the outcome of dialing and of the
    websocket handshake. *)
Definition run_step (e : RunEvent) (s : Net) : option Net :=
  match phase s, e with
  | RTop, RunGo =>
      Some (set_phase (if closed s then RJoin else match tasks s with (Some _, Some _) => RSelect | _ => RUrl end) s)
  | RSelect, RunClosed => if closed s then Some (set_phase RJoin s) else None
  | RSelect, RunTask0 =>
      if task_done s (TSend <$> (tasks s).1) then Some (set_phase RTop (set_tasks (None, (tasks s).2) s)) else None
  | RSelect, RunTask1 =>
      if task_done s (TRecv <$> (tasks s).2) then Some (set_phase RTop (set_tasks ((tasks s).1, None) s)) else None
  | RUrl, RunClosed => if closed s then Some (set_phase RJoin s) else None
  | RUrl, RunUrl (Ok url) => Some (set_phase (RConnect url) s)
  | RUrl, RunUrl r => Some (set_phase (REnded (match r with Err e => Err e | _ => Panic end)) (drop_tasks s))
  | RConnect url, RunConnected =>
      match connect_target url with
      | Ok _ =>
          let i := length (conns s) in
          Some (set_phase RTop (set_tasks (Some i, Some i) (add_conn (conn_new (now s)) (drop_tasks s))))
      | _ => None
      end
  | RConnect url, RunRefused => Some (set_phase (RSleep (now s + RECONNECT_INTERVAL)) s)
  | RSleep t, RunWake => if t <=? now s then Some (set_phase RTop s) else None
  | RJoin, RunJoined =>
      if task_done s (TSend <$> (tasks s).1) && task_done s (TRecv <$> (tasks s).2)
      then Some (set_phase (REnded (Ok tt)) (set_tasks (None, None) s)) else None
  | _, _ => None
  end.

Definition run_ready (s : Net) : bool :=
  match phase s with
  | RTop => true
  | RSelect => closed s || task_done s (TSend <$> (tasks s).1) || task_done s (TRecv <$> (tasks s).2)
  | RUrl => closed s
  | RJoin => task_done s (TSend <$> (tasks s).1) && task_done s (TRecv <$> (tasks s).2)
  | _ => false
  end.

(** ** The whole *)

(** When the next timer fires. *)
Definition timers (s : Net) : list Z :=
  omap ping_due (conns s) ++ map snd (dropped s) ++ match phase s with RSleep t => [t] | _ => [] end.

Definition may_wait (d : Z) (s : Net) : bool :=
  (0 <? d) && forallb (fun t => now s + d <=? t) (timers s) &&
  negb (run_ready s) && forallb (fun c => negb (send_ready (closed s) c)) (conns s).

Inductive Event :=
| ESend (i : nat) (a : SockAnswer)
| ERecv (i : nat) (f : Incoming)
| EPing (i : nat)
| ERun (e : RunEvent)
| ETimeout (k : nat)
| EAddHandler (uri : string) (h : nat)
| ERemoveHandler (uri : string)
| ESubscribe (uris : list string) (tx : nat)
| EClose
| EWait (d : Z).

(** [None] when the event cannot happen now. *)
Definition step (e : Event) (s : Net) : option Net :=
  match e with
  | ESend i a => c ← conns s !! i; c ← send_step (closed s) a c; Some (set_conn i c s)
  | ERecv i f =>
      c ← conns s !! i; '(m, rs, c) ← recv_step f (maps s) (receivers s) c; Some (set_conn i c (set_shared m rs s))
  | EPing i => c ← conns s !! i; c ← ping_step (now s) c; Some (set_conn i c s)
  | ERun e => run_step e s
  | ETimeout k =>
      '(t, due) ← dropped s !! k;
      if due <=? now s then Some (set_dropped (delete k (dropped s)) (abort_task t s)) else None
  | EAddHandler uri h => Some (set_shared (add_handler uri h (maps s)).2 (receivers s) s)
  | ERemoveHandler uri => Some (set_shared (remove_handler uri (maps s)).2 (receivers s) s)
  | ESubscribe uris tx => Some (set_shared (subscribe uris tx (maps s)).2 (receivers s) s)
  | EClose => Some (set_closed s)
  | EWait d => if may_wait d s then Some (set_now (now s + d) s) else None
  end.

Fixpoint steps (es : list Event) (s : Net) : option Net :=
  match es with [] => Some s | e :: es => s ← step e s; steps es s end.

Definition reachable (s : Net) : Prop :=
  exists m rs t es, steps es (net_new m rs t) = Some s.

(** ** Invariant *)

(** Timers are not in the past and not too far ahead. *)
Definition ping_ok (t : Z) (c : Conn) : Prop :=
  match recv_task c with
  | RecvDone => True
  | Receiving _ (PTick due) => t <= due <= t + PING_INTERVAL
  | Receiving _ (PCheck at_ next) => t <= at_ <= t + PING_TIMEOUT /\ next = at_ + (PING_INTERVAL - PING_TIMEOUT)
  end.

(** The queue is open while the sending task is in its loop. *)
Definition rx_ok (c : Conn) : Prop :=
  rx_open c = match send_task c with SLoop | SFeeding _ => true | SClosing _ | SDone => false end.

Definition conn_ok (t : Z) (c : Conn) : Prop := ping_ok t c /\ rx_ok c.

(** Who holds a task: [run], or a timeout. *)
Definition held (s : Net) (t : Task) : Prop :=
  match t with TSend i => (tasks s).1 = Some i | TRecv i => (tasks s).2 = Some i end \/ exists due, (t, due) ∈ dropped s.

Definition phase_ok (s : Net) : Prop :=
  match phase s with
  | RSelect => is_Some (tasks s).1 /\ is_Some (tasks s).2
  | RUrl | RConnect _ => (tasks s).1 = None \/ (tasks s).2 = None
  | RSleep t => ((tasks s).1 = None \/ (tasks s).2 = None) /\ now s <= t <= now s + RECONNECT_INTERVAL
  | REnded _ => tasks s = (None, None)
  | RTop | RJoin => True
  end.

Record net_ok (s : Net) : Prop := {
  ok_conns : Forall (conn_ok (now s)) (conns s);
  ok_dropped : Forall (fun d => now s <= d.2 <= now s + WEBSOCKET_CLOSE_TIMEOUT) (dropped s);
  ok_held : forall t, live (conns s) t = true -> held s t;
  ok_tasks0 : forall i, (tasks s).1 = Some i -> (i < length (conns s))%nat;
  ok_tasks1 : forall i, (tasks s).2 = Some i -> (i < length (conns s))%nat;
  ok_phase : phase_ok s
}.

(** How the event [e] can change connection [i]. *)
Inductive move (s : Net) (i : nat) : Event -> Conn -> Conn -> Prop :=
| move_none e c : move s i e c c
| move_send a c c' : send_step (closed s) a c = Some c' -> move s i (ESend i a) c c'
| move_recv f c m rs c' : recv_step f (maps s) (receivers s) c = Some (m, rs, c') -> move s i (ERecv i f) c c'
| move_ping c c' : ping_step (now s) c = Some c' -> move s i (EPing i) c c'
| move_abort_send k due c : dropped s !! k = Some (TSend i, due) -> send_live c = true ->
    move s i (ETimeout k) c (set_send SDone (close_rx c))
| move_abort_recv k due c : dropped s !! k = Some (TRecv i, due) -> move s i (ETimeout k) c (set_recv RecvDone c).

(** ** Lemmas: one connection *)

Lemma push_fields m c : let c' := (push m c).2 in
  rx_open c' = rx_open c /\ send_task c' = send_task c /\ recv_task c' = recv_task c /\ wire c' = wire c.
Proof. unfold push. destruct c as [q [] st rt w]; done. Qed.

Lemma push_ok t m c : conn_ok t c -> conn_ok t (push m c).2.
Proof.
  destruct (push_fields m c) as (Hrx & Hs & Hr & _). unfold conn_ok, ping_ok, rx_ok. by rewrite Hrx, Hs, Hr.
Qed.

Lemma push_all_fields {A} (f : A -> WsMessage) l c : let c' := foldl (fun c r => (push (f r) c).2) c l in
  rx_open c' = rx_open c /\ send_task c' = send_task c /\ recv_task c' = recv_task c /\ wire c' = wire c.
Proof.
  revert c. induction l as [|r l IH]; intros c; [done|]. cbn [foldl]. destruct (IH (push (f r) c).2) as (-> & -> & -> & ->).
  apply push_fields.
Qed.

Lemma recv_end_ok t c : conn_ok t c -> conn_ok t (recv_end c).
Proof. intros [_ Hrx]%(push_ok t (WsClose None)). split; [exact I|exact Hrx]. Qed.

Lemma send_step_recv b a c c' : send_step b a c = Some c' -> recv_task c' = recv_task c.
Proof.
  unfold send_step, send_break, set_send, set_queue, close_rx, add_wire. intros H.
  repeat case_match; simplify_eq; done.
Qed.

Lemma send_step_ok b t a c c' : send_step b a c = Some c' -> conn_ok t c -> conn_ok t c'.
Proof.
  intros H [Hp Hrx]. split; [unfold ping_ok; by rewrite (send_step_recv _ _ _ _ H)|].
  revert Hrx H. unfold rx_ok, send_step, send_break, set_send, set_queue, close_rx, add_wire. intros Hrx H.
  repeat case_match; simplify_eq; try done; simpl in *; congruence.
Qed.

Lemma recv_step_ok t f m rs c m' rs' c' : recv_step f m rs c = Some (m', rs', c') -> conn_ok t c -> conn_ok t c'.
Proof.
  unfold recv_step. destruct (recv_task c) as [pong ping|] eqn:Hr; [|done]. intros [= H] Hc.
  pose proof (recv_end_ok t c Hc) as Hend.
  destruct f as [[x| | | |fr]| |]; try (by simplify_eq).
  - destruct (from_str x) as [y|]; [|by simplify_eq]. destruct (dispatch y m rs) as [[l ?] ?]. simplify_eq.
    destruct (push_all_fields (fun r => WsText (reply_text r)) l c) as (Hrx & Hs & Hr' & _).
    destruct Hc as [Hp Hx]. split; [unfold ping_ok; by rewrite Hr'|unfold rx_ok; by rewrite Hrx, Hs].
  - simplify_eq. destruct Hc as [Hp Hx]. split; [|done]. unfold ping_ok in *. rewrite Hr in Hp. by destruct ping.
Qed.

Lemma ping_step_ok t c c' : ping_step t c = Some c' -> conn_ok t c -> conn_ok t c'.
Proof.
  unfold ping_step. intros H Hc. pose proof (recv_end_ok t c Hc) as Hend.
  destruct (recv_task c) as [pong [due|at_ next]|] eqn:Hr; [| |done].
  - destruct (due <=? t) eqn:Hd; [|done]. destruct (push WsPing c) as [sent c1] eqn:Hpush.
    pose proof (push_ok t WsPing c Hc) as Hc1. rewrite Hpush in Hc1. cbn in Hc1. apply Z.leb_le in Hd.
    destruct Hc as [Hp _]. unfold ping_ok in Hp. rewrite Hr in Hp.
    destruct sent; simplify_eq; [|by apply recv_end_ok]. split; [|apply Hc1].
    unfold ping_ok, PING_TIMEOUT, PING_INTERVAL in *. cbn. lia.
  - destruct (at_ <=? t) eqn:Ha; [|done]. apply Z.leb_le in Ha. destruct Hc as [Hp Hx]. unfold ping_ok in Hp. rewrite Hr in Hp.
    destruct pong; simplify_eq; [|done]. split; [|done]. unfold ping_ok, PING_TIMEOUT, PING_INTERVAL in *. cbn. lia.
Qed.

Lemma move_ok s i e c c' : move s i e c c' -> conn_ok (now s) c -> conn_ok (now s) c'.
Proof.
  intros [] Hc; eauto using send_step_ok, recv_step_ok, ping_step_ok.
  - destruct Hc as [Hp Hx]. by split.
  - destruct Hc as [Hp Hx]. by split.
Qed.

(** A task that has ended stays ended. *)
Lemma recv_step_send f m rs c m' rs' c' : recv_step f m rs c = Some (m', rs', c') -> send_task c' = send_task c.
Proof.
  unfold recv_step. destruct (recv_task c) as [pong ping|]; [|done]. intros [= H].
  destruct f as [[x| | | |fr]| |]; simplify_eq; try done; try apply push_fields.
  destruct (from_str x) as [y|]; [|by simplify_eq]. destruct (dispatch y m rs) as [[l ?] ?]. simplify_eq.
  apply (push_all_fields (fun r => WsText (reply_text r))).
Qed.

Lemma ping_step_send t c c' : ping_step t c = Some c' -> send_task c' = send_task c.
Proof.
  unfold ping_step. intros H. destruct (recv_task c) as [pong [due|at_ next]|]; [| |done]; case_match; try done.
  - destruct (push WsPing c) as [sent c1] eqn:Hpush. pose proof (push_fields WsPing c) as (_ & Hs & _ & _). rewrite Hpush in Hs.
    cbn in Hs. destruct sent; simplify_eq; [done|]. rewrite <- Hs. apply push_fields.
  - destruct pong; simplify_eq; [done|apply push_fields].
Qed.

Lemma move_send_dead s i e c c' : move s i e c c' -> send_live c = false -> send_live c' = false.
Proof.
  intros [ |a c1 c1' H|f c1 m rs c1' H|c1 c1' H| | ] Hd; try done.
  - by destruct c1 as [? ? [] ? ?].
  - unfold send_live in *. by rewrite (recv_step_send _ _ _ _ _ _ _ H).
  - unfold send_live in *. by rewrite (ping_step_send _ _ _ H).
Qed.

Lemma move_recv_dead s i e c c' : move s i e c c' -> recv_live c = false -> recv_live c' = false.
Proof.
  intros [ |a c1 c1' H|f c1 m rs c1' H|c1 c1' H| | ] Hd; try done.
  - unfold recv_live in *. by rewrite (send_step_recv _ _ _ _ H).
  - by destruct c1 as [? ? ? [] ?].
  - by destruct c1 as [? ? ? [] ?].
Qed.

(** ** Lemmas: the whole *)

Lemma drop_task_fields t s : let s' := drop_task t s in
  now s' = now s /\ closed s' = closed s /\ conns s' = conns s /\ tasks s' = tasks s /\ phase s' = phase s /\
  maps s' = maps s /\ receivers s' = receivers s.
Proof. unfold drop_task. by destruct (live _ _). Qed.

Lemma drop_tasks_fields s : let s' := drop_tasks s in
  now s' = now s /\ closed s' = closed s /\ conns s' = conns s /\ tasks s' = (None, None) /\ phase s' = phase s /\
  maps s' = maps s /\ receivers s' = receivers s.
Proof.
  unfold drop_tasks, drop_task. destruct (tasks s) as [[i|] [j|]]; cbn; repeat case_match; done.
Qed.

(** A dropped task that is alive gets a timeout. *)
Lemma drop_task_mono t s x : x ∈ dropped s -> x ∈ dropped (drop_task t s).
Proof. intros Hx. unfold drop_task. case_match; [|done]. apply elem_of_app. by left. Qed.

Lemma drop_task_adds t s : live (conns s) t = true -> (t, now s + WEBSOCKET_CLOSE_TIMEOUT) ∈ dropped (drop_task t s).
Proof. intros Hl. unfold drop_task. rewrite Hl. apply elem_of_app. right. by apply list_elem_of_singleton. Qed.

Lemma drop_tasks_held s t : live (conns s) t = true -> held s t -> exists due, (t, due) ∈ dropped (drop_tasks s).
Proof.
  intros Hl [Ht|[due Hin]].
  - exists (now s + WEBSOCKET_CLOSE_TIMEOUT). unfold drop_tasks. destruct t as [i|i]; rewrite Ht; unfold set_tasks; cbn [dropped].
    + destruct (tasks s).2; [apply drop_task_mono|]; by apply drop_task_adds.
    + destruct (tasks s).1 as [j|]; [|by apply drop_task_adds].
      destruct (drop_task_fields (TSend j) s) as (Hn & _ & Hc & _). rewrite <- Hn. apply drop_task_adds. by rewrite Hc.
  - exists due. unfold drop_tasks, set_tasks. cbn [dropped].
    destruct (tasks s).1, (tasks s).2; auto using drop_task_mono.
Qed.

Lemma drop_task_dropped t s (P : Task * Z -> Prop) :
  Forall P (dropped s) -> P (t, now s + WEBSOCKET_CLOSE_TIMEOUT) -> Forall P (dropped (drop_task t s)).
Proof. intros H Ht. unfold drop_task. case_match; [|done]. by apply Forall_app; split; [|constructor]. Qed.

Lemma drop_tasks_dropped s :
  Forall (fun d => now s <= d.2 <= now s + WEBSOCKET_CLOSE_TIMEOUT) (dropped s) ->
  Forall (fun d => now s <= d.2 <= now s + WEBSOCKET_CLOSE_TIMEOUT) (dropped (drop_tasks s)).
Proof.
  intros H. unfold drop_tasks. destruct (tasks s) as [[i|] [j|]]; cbn; repeat apply drop_task_dropped; try done;
    rewrite ?(proj1 (drop_task_fields (TSend i) s)); cbn; unfold WEBSOCKET_CLOSE_TIMEOUT; lia.
Qed.

Lemma lookup_set_conn i j c s c0 : conns s !! i = Some c0 -> conns (set_conn i c s) !! j = if decide (i = j) then Some c else conns s !! j.
Proof.
  intros Hi. cbn. case_decide as Hij; subst; [|by rewrite list_lookup_insert_ne].
  apply list_lookup_insert_eq. by eapply lookup_lt_Some.
Qed.

(** Every event changes connections by [move] only, and [run] makes new ones. *)
Lemma step_conn e s s' i c : step e s = Some s' -> conns s !! i = Some c -> exists c', conns s' !! i = Some c' /\ move s i e c c'.
Proof.
  intros H Hi. destruct e as [j a|j f|j|e|k|uri h|uri|uris tx| |d]; cbn [step] in H.
  - destruct (conns s !! j) as [d|] eqn:Hj; [|done]. cbn in H. destruct (send_step (closed s) a d) as [d'|] eqn:Hd; [|done].
    injection H as <-. rewrite (lookup_set_conn j i d' s d Hj). case_decide; subst; [|eauto using move_none].
    simplify_eq. eauto using move_send.
  - destruct (conns s !! j) as [d|] eqn:Hj; [|done]. cbn in H.
    destruct (recv_step f (maps s) (receivers s) d) as [[[m rs] d']|] eqn:Hd; [|done].
    injection H as <-. rewrite (lookup_set_conn j i d' (set_shared m rs s) d Hj). case_decide; subst; [|eauto using move_none].
    simplify_eq. eauto using move_recv.
  - destruct (conns s !! j) as [d|] eqn:Hj; [|done]. cbn in H. destruct (ping_step (now s) d) as [d'|] eqn:Hd; [|done].
    injection H as <-. rewrite (lookup_set_conn j i d' s d Hj). case_decide; subst; [|eauto using move_none].
    simplify_eq. eauto using move_ping.
  - exists c. split; [|apply move_none]. unfold run_step in H. destruct (drop_tasks_fields s) as (_ & _ & Hc & _).
    repeat case_match; simplify_eq; cbn; rewrite ?Hc; auto using lookup_app_l_Some.
  - destruct (dropped s !! k) as [[t due]|] eqn:Hk; [|done]. cbn in H. destruct (due <=? now s); [|done]. injection H as <-.
    unfold abort_task. destruct t as [j|j]; cbn; destruct (conns s !! j) as [d|] eqn:Hj; try (by eauto using move_none).
    + destruct (send_live d) eqn:Hd; [|by eauto using move_none].
      change (exists c', conns (set_conn j (set_send SDone (close_rx d)) s) !! i = Some c' /\ move s i (ETimeout k) c c').
      rewrite (lookup_set_conn j i _ s d Hj). case_decide; subst; [|eauto using move_none]. simplify_eq. eauto using move_abort_send.
    + change (exists c', conns (set_conn j (set_recv RecvDone d) s) !! i = Some c' /\ move s i (ETimeout k) c c').
      rewrite (lookup_set_conn j i _ s d Hj). case_decide; subst; [|eauto using move_none]. simplify_eq. eauto using move_abort_recv.
  - injection H as <-. eauto using move_none.
  - injection H as <-. eauto using move_none.
  - injection H as <-. eauto using move_none.
  - injection H as <-. eauto using move_none.
  - destruct (may_wait d s); [|done]. injection H as <-. eauto using move_none.
Qed.

Lemma step_length e s s' : step e s = Some s' ->
  length (conns s') = length (conns s) \/
  conns s' = conns s ++ [conn_new (now s)] /\ e = ERun RunConnected /\ exists url, phase s = RConnect url.
Proof.
  intros H. destruct e as [j a|j f|j|e|k|uri h|uri|uris tx| |d]; cbn [step] in H.
  - left. destruct (conns s !! j); [|done]. cbn in H. destruct (send_step _ _ _); [|done]. injection H as <-. apply length_insert.
  - left. destruct (conns s !! j); [|done]. cbn in H. destruct (recv_step _ _ _ _) as [[[m rs] d']|]; [|done]. injection H as <-. apply length_insert.
  - left. destruct (conns s !! j); [|done]. cbn in H. destruct (ping_step _ _); [|done]. injection H as <-. apply length_insert.
  - destruct (drop_tasks_fields s) as (_ & _ & Hc & _). unfold run_step in H.
    repeat case_match; simplify_eq; cbn; rewrite ?Hc; eauto.
  - left. destruct (dropped s !! k) as [[t due]|]; [|done]. cbn in H. destruct (due <=? now s); [|done]. injection H as <-.
    unfold abort_task. repeat case_match; cbn; rewrite ?length_insert; done.
  - injection H as <-. by left.
  - injection H as <-. by left.
  - injection H as <-. by left.
  - injection H as <-. by left.
  - destruct (may_wait d s); [|done]. injection H as <-. by left.
Qed.

Lemma abort_task_fields t s : let s' := abort_task t s in
  now s' = now s /\ closed s' = closed s /\ tasks s' = tasks s /\ dropped s' = dropped s /\ phase s' = phase s /\
  maps s' = maps s /\ receivers s' = receivers s.
Proof. unfold abort_task. destruct t; repeat case_match; done. Qed.

(** Only [run] changes its phase and its tasks; time only passes by waiting. *)
Lemma step_frame e s s' : step e s = Some s' ->
  match e with
  | ERun r => run_step r s = Some s' /\ now s' = now s /\ closed s' = closed s
  | EWait d => may_wait d s = true /\ s' = set_now (now s + d) s
  | ETimeout k => now s' = now s /\ closed s' = closed s /\ tasks s' = tasks s /\ phase s' = phase s /\
      exists t due, dropped s !! k = Some (t, due) /\ conns s' = conns (abort_task t s) /\ dropped s' = delete k (dropped s)
  | _ => now s' = now s /\ closed s' = (match e with EClose => true | _ => closed s end) /\ tasks s' = tasks s /\
      phase s' = phase s /\ dropped s' = dropped s
  end.
Proof.
  intros H. destruct e as [j a|j f|j|e|k|uri h|uri|uris tx| |d]; cbn [step] in H.
  - destruct (conns s !! j); [|done]. cbn in H. destruct (send_step _ _ _); [|done]. by injection H as <-.
  - destruct (conns s !! j); [|done]. cbn in H. destruct (recv_step _ _ _ _) as [[[m rs] d']|]; [|done]. by injection H as <-.
  - destruct (conns s !! j); [|done]. cbn in H. destruct (ping_step _ _); [|done]. by injection H as <-.
  - split; [done|]. destruct (drop_tasks_fields s) as (Hn & Hcl & _). unfold run_step in H.
    repeat case_match; simplify_eq; cbn; rewrite ?Hn, ?Hcl; done.
  - destruct (dropped s !! k) as [[t due]|]; [|done]. cbn in H. destruct (due <=? now s); [|done]. injection H as <-.
    destruct (abort_task_fields t s) as (? & ? & ? & ? & ? & _). cbn. split_and!; try done. by exists t, due.
  - by injection H as <-.
  - by injection H as <-.
  - by injection H as <-.
  - by injection H as <-.
  - destruct (may_wait d s); [|done]. by injection H as <-.
Qed.

(** A task that lives was alive before, or was just started. *)
Lemma step_live e s s' t : step e s = Some s' -> live (conns s') t = true ->
  live (conns s) t = true \/ e = ERun RunConnected /\ (t = TSend (length (conns s)) \/ t = TRecv (length (conns s))).
Proof.
  intros H Hl. assert (forall i c', conns s' !! i = Some c' ->
    (exists c, conns s !! i = Some c /\ move s i e c c') \/ e = ERun RunConnected /\ i = length (conns s)) as Hback.
  { intros i c' Hi. destruct (conns s !! i) as [c|] eqn:Hc.
    - left. exists c. split; [done|]. destruct (step_conn e s s' i c H Hc) as (c1 & Hc1 & Hm). by simplify_eq.
    - right. apply lookup_ge_None in Hc. apply lookup_lt_Some in Hi.
      destruct (step_length e s s' H) as [Hlen|(Hlen & -> & _)]; [lia|]. split; [done|].
      rewrite Hlen, length_app in Hi. cbn in Hi. lia. }
  destruct t as [i|i]; unfold live in *; destruct (conns s' !! i) as [c'|] eqn:Hi; try done;
    (destruct (Hback i c' Hi) as [(c & Hc & Hm)|[He Hlen]]; [left; rewrite Hc|right; split; [done|subst i; auto]]).
  - destruct (send_live c) eqn:Hd; [done|]. by rewrite (move_send_dead _ _ _ _ _ Hm Hd) in Hl.
  - destruct (recv_live c) eqn:Hd; [done|]. by rewrite (move_recv_dead _ _ _ _ _ Hm Hd) in Hl.
Qed.

(** An aborted task is dead. *)
Lemma abort_task_dead t s : live (conns (abort_task t s)) t = false.
Proof.
  destruct t as [i|i]; unfold abort_task, live; destruct (conns s !! i) as [c|] eqn:Hi; cbn; rewrite ?Hi; try done.
  - destruct (send_live c) eqn:Hd; cbn; [|by rewrite Hi]. rewrite list_lookup_insert_eq; [done|by eapply lookup_lt_Some].
  - rewrite list_lookup_insert_eq; [done|by eapply lookup_lt_Some].
Qed.

(** Waiting does not pass a timer. *)
Lemma may_wait_spec d s : may_wait d s = true -> 0 < d /\ (forall t, t ∈ timers s -> now s + d <= t) /\ run_ready s = false /\
  (forall i c, conns s !! i = Some c -> send_ready (closed s) c = false).
Proof.
  unfold may_wait. rewrite !andb_true_iff, Z.ltb_lt, !negb_true_iff, !forallb_forall. intros [[[Hd Ht] Hr] Hs]. split_and!; try done.
  - intros t Hin. apply Z.leb_le, Ht. by apply list_elem_of_In.
  - intros i c Hi. apply negb_true_iff, Hs. by eapply list_elem_of_In, list_elem_of_lookup_2.
Qed.

Lemma ping_due_timer s i c t : conns s !! i = Some c -> ping_due c = Some t -> t ∈ timers s.
Proof. intros Hi Ht. unfold timers. apply elem_of_app. left. apply list_elem_of_omap. eauto using list_elem_of_lookup_2. Qed.

Lemma dropped_timer s x : x ∈ dropped s -> x.2 ∈ timers s.
Proof. intros Hx. unfold timers. rewrite !elem_of_app. right. left. by apply list_elem_of_fmap_2. Qed.

Lemma wait_ok d s : may_wait d s = true -> net_ok s -> net_ok (set_now (now s + d) s).
Proof.
  intros (Hd & Ht & Hr & _)%may_wait_spec [Hc Hdr Hh H0 H1 Hp]. split; try done; cbn.
  - apply Forall_lookup_2. intros i c Hi. pose proof (Forall_lookup_1 _ _ _ _ Hc Hi) as [Hpi Hrx]. split; [|done].
    pose proof (ping_due_timer s i c) as Hdue. unfold ping_due, ping_ok in *.
    destruct (recv_task c) as [pong [due|at_ next]|]; [| |done]; specialize (Ht _ (Hdue _ Hi eq_refl)); lia.
  - apply Forall_forall. intros x Hx. pose proof (proj1 (Forall_forall _ _) Hdr x Hx). cbn in H. specialize (Ht _ (dropped_timer s x Hx)). lia.
  - unfold phase_ok in *. cbn. destruct (phase s) eqn:Hph; try done. destruct Hp as [Hp1 Hp2]. split; [done|].
    specialize (Ht until). unfold timers in Ht. rewrite Hph, !elem_of_app in Ht.
    assert (now s + d <= until) by (apply Ht; right; right; by apply list_elem_of_singleton). lia.
Qed.

Lemma conn_new_ok t : conn_ok t (conn_new t).
Proof. split; [|done]. unfold ping_ok, PING_INTERVAL. cbn. lia. Qed.

(** The fields of the invariant that are about tasks and timeouts, for the steps of [run]. *)
Lemma run_step_held r s s' : run_step r s = Some s' -> net_ok s -> forall t, live (conns s) t = true -> held s' t.
Proof.
  intros H Hok t Hl. pose proof (ok_held s Hok t Hl) as Hh.
  assert (forall s1, tasks s1 = tasks s -> dropped s1 = dropped s -> held s1 t) as Hsame.
  { intros s1 Ht Hd. unfold held. by rewrite Ht, Hd. }
  pose proof (drop_tasks_held s t Hl Hh) as Hdrop.
  unfold run_step in H. destruct (phase s), r; try done;
    try (repeat case_match; simplify_eq; by apply Hsame); try (repeat case_match; simplify_eq; right; exact Hdrop).
  - destruct (task_done s (TSend <$> (tasks s).1)) eqn:Hd; [|done]. injection H as <-.
    destruct Hh as [Ht|Hin]; [|by right]. destruct t as [i|i]; [|by left]. rewrite Ht in Hd. cbn in Hd. by rewrite Hl in Hd.
  - destruct (task_done s (TRecv <$> (tasks s).2)) eqn:Hd; [|done]. injection H as <-.
    destruct Hh as [Ht|Hin]; [|by right]. destruct t as [i|i]; [by left|]. rewrite Ht in Hd. cbn in Hd. by rewrite Hl in Hd.
  - destruct r as [url|e|]; simplify_eq; [by apply Hsame|right; exact Hdrop..].
  - destruct (task_done s (TSend <$> (tasks s).1) && task_done s (TRecv <$> (tasks s).2)) eqn:Hd; [|done]. injection H as <-.
    apply andb_true_iff in Hd as [Hd0 Hd1]. destruct Hh as [Ht|Hin]; [|by right].
    destruct t as [i|i]; [rewrite Ht in Hd0; cbn in Hd0; by rewrite Hl in Hd0|rewrite Ht in Hd1; cbn in Hd1; by rewrite Hl in Hd1].
Qed.

Lemma run_step_phase r s s' : run_step r s = Some s' -> net_ok s -> phase_ok s'.
Proof.
  intros H Hok. pose proof (ok_phase s Hok) as Hp. unfold run_step in H. unfold phase_ok in *.
  pose proof (drop_tasks_fields s) as (_ & _ & _ & Htasks & _).
  destruct (phase s) eqn:Hph, r; try done; try (repeat case_match; simplify_eq; cbn in *; by auto).
  - injection H as <-. cbn. destruct (closed s); [done|]. destruct (tasks s) as [[i|] [j|]]; cbn; auto; split; by eexists.
  - injection H as <-. cbn. split; [done|]. unfold RECONNECT_INTERVAL. lia.
Qed.

Lemma run_step_tasks r s s' : run_step r s = Some s' -> net_ok s ->
  (forall i, (tasks s').1 = Some i -> (i < length (conns s'))%nat) /\ (forall i, (tasks s').2 = Some i -> (i < length (conns s'))%nat).
Proof.
  intros H [_ _ _ H0 H1 _]. pose proof (drop_tasks_fields s) as (_ & _ & Hc & Htasks & _). unfold run_step in H.
  destruct (phase s), r; try done; repeat case_match; simplify_eq; cbn; try match goal with E : tasks s = _ |- _ => rewrite E end;
    rewrite ?Htasks; cbn; try (by split; intros i Hi; [discriminate Hi || eauto..]).
  rewrite length_app, Hc. cbn. split; intros i [= <-]; lia.
Qed.

Lemma run_step_dropped r s s' : run_step r s = Some s' -> dropped s' = dropped s \/ dropped s' = dropped (drop_tasks s).
Proof. intros H. unfold run_step in H. repeat case_match; simplify_eq; auto. Qed.

Lemma event_wait e : (exists d, e = EWait d) \/ ~ (exists d, e = EWait d).
Proof. destruct e; eauto; right; by intros [? ?]. Qed.

Lemma event_run e : (exists r, e = ERun r) \/ ~ (exists r, e = ERun r).
Proof. destruct e; eauto; right; by intros [? ?]. Qed.

(** Timeouts are not lost while their task lives, and only [run] adds any. *)
Lemma timeouts_sub e s s' x : step e s = Some s' -> ~ (exists r, e = ERun r) -> x ∈ dropped s' -> x ∈ dropped s.
Proof.
  intros Hf%step_frame Hnr. destruct e; try (by destruct Hf as (_ & _ & _ & _ & ->)); [destruct Hnr; by eexists| |].
  - destruct Hf as (_ & _ & _ & _ & (t & due & _ & _ & ->)). rewrite delete_take_drop, elem_of_app.
    intros [Hx|Hx]; apply list_elem_of_lookup in Hx as [n Hn];
      [apply lookup_take_Some in Hn as [Hn _]|rewrite lookup_drop in Hn]; by eapply list_elem_of_lookup_2.
  - by destruct Hf as [_ ->].
Qed.

Lemma timeouts_kept e s s' t due : step e s = Some s' -> ~ (exists r, e = ERun r) -> live (conns s') t = true ->
  (t, due) ∈ dropped s -> (t, due) ∈ dropped s'.
Proof.
  intros Hf%step_frame Hnr Hl Hin. destruct e; try (by destruct Hf as (_ & _ & _ & _ & ->)); [destruct Hnr; by eexists| |].
  - destruct Hf as (_ & _ & _ & _ & (t' & due' & Hk & Hc & ->)).
    apply list_elem_of_lookup in Hin as [n Hn]. destruct (decide (n = k)) as [->|Hnk].
    { simplify_eq. by rewrite Hc, abort_task_dead in Hl. }
    rewrite delete_take_drop. apply elem_of_app. destruct (decide (n < k)%nat).
    + left. apply list_elem_of_lookup. exists n. by rewrite lookup_take_lt.
    + right. apply list_elem_of_lookup. exists (n - S k)%nat. rewrite lookup_drop. by replace (S k + (n - S k))%nat with n by lia.
  - by destruct Hf as [_ ->].
Qed.

Lemma step_tasks e s s' : step e s = Some s' -> ~ (exists r, e = ERun r) -> tasks s' = tasks s /\ phase s' = phase s.
Proof.
  intros Hf%step_frame Hnr. destruct e; try (by destruct Hf as (? & ? & ? & ? & _)); [destruct Hnr; by eexists|].
  by destruct Hf as [_ ->].
Qed.

Lemma step_ok e s s' : step e s = Some s' -> net_ok s -> net_ok s'.
Proof.
  intros H Hok. destruct (event_wait e) as [[d ->]|Hnw].
  { apply step_frame in H as [Hw ->]. by apply wait_ok. }
  assert (now s' = now s) as Hnow.
  { pose proof (step_frame e s s' H) as Hf. destruct e; try (by destruct Hf as [? ?]); [apply Hf|]. destruct Hnw. by eexists. }
  pose proof (ok_phase s Hok) as Hph. pose proof (ok_dropped s Hok) as Hdr.
  assert (Forall (conn_ok (now s')) (conns s')) as Hconns.
  { apply Forall_lookup_2. intros i c' Hi. rewrite Hnow. destruct (conns s !! i) as [c|] eqn:Hc.
    - destruct (step_conn e s s' i c H Hc) as (c1 & Hc1 & Hm). simplify_eq. eapply move_ok; [done|].
      exact (Forall_lookup_1 _ _ _ _ (ok_conns s Hok) Hc).
    - destruct (step_length e s s' H) as [Hlen|(Hlen & _)].
      + apply lookup_ge_None in Hc. apply lookup_lt_Some in Hi. lia.
      + rewrite Hlen in Hi. rewrite lookup_app_r in Hi by (by apply lookup_ge_None). apply list_lookup_singleton_Some in Hi as [_ <-].
        apply conn_new_ok. }
  pose proof (step_frame e s s' H) as Hf.
  destruct (event_run e) as [[r ->]|Hnr].
  - destruct Hf as [Hr _]. destruct (run_step_tasks r s s' Hr Hok) as [Ht0 Ht1]. split; try done.
    + rewrite Hnow. destruct (run_step_dropped r s s' Hr) as [-> | ->]; [done|by apply drop_tasks_dropped].
    + intros t Hl. destruct (step_live _ s s' t H Hl) as [Hl'|[[= ->] Hnew]]; [by eapply run_step_held|].
      unfold run_step in Hr. destruct (phase s); try done. destruct (connect_target url); try done. injection Hr as <-.
      by destruct Hnew as [-> | ->]; left.
    + by eapply run_step_phase.
  - destruct (step_tasks e s s' H Hnr) as [Htasks Hphase].
    assert (length (conns s') = length (conns s)) as Hlen.
    { destruct (step_length e s s' H) as [|(_ & -> & _)]; [done|]. destruct Hnr. by eexists. }
    split; try done.
    + rewrite Hnow. rewrite Forall_forall in Hdr |- *. eauto using timeouts_sub.
    + intros t Hl. destruct (step_live e s s' t H Hl) as [Hl'|[He _]]; [|destruct Hnr; by eexists].
      pose proof (ok_held s Hok t Hl') as [Ht|[due Hin]]; [left; by rewrite Htasks|right; eauto using timeouts_kept].
    + intros i. rewrite Htasks, Hlen. apply (ok_tasks0 s Hok).
    + intros i. rewrite Htasks, Hlen. apply (ok_tasks1 s Hok).
    + unfold phase_ok in *. by rewrite Hphase, Htasks, Hnow.
Qed.

Lemma steps_ok es s s' : steps es s = Some s' -> net_ok s -> net_ok s'.
Proof.
  revert s. induction es as [|e es IH]; intros s H Hok; cbn in H; [by simplify_eq|].
  destruct (step e s) as [s1|] eqn:He; [|done]. eapply IH; [exact H|]. by eapply step_ok.
Qed.

Lemma net_new_ok m rs t : net_ok (net_new m rs t).
Proof. split; try done. by intros [i|i]. Qed.

Lemma net_reachable_ok s : reachable s -> net_ok s.
Proof. intros (m & rs & t & es & H). eapply steps_ok; [exact H|apply net_new_ok]. Qed.

(** A launched dealer is one that made its first connection. *)
Lemma launch_reachable m rs t url dial s : launch m rs t url dial = Ok s -> reachable s.
Proof.
  unfold launch. destruct url as [url|e|]; try done. cbn. destruct (connect_target url) as [target|e|] eqn:Hu; try done.
  destruct dial as [[]|e|]; try done. intros [= <-].
  exists m, rs, t, [ERun RunGo; ERun (RunUrl (Ok url)); ERun RunConnected]. cbn. by rewrite Hu.
Qed.

Lemma step_now e s s' : step e s = Some s' -> now s' = match e with EWait d => now s + d | _ => now s end.
Proof. intros Hf%step_frame. destruct e; try (by destruct Hf as [? ?]); [apply Hf|]. by destruct Hf as [_ ->]. Qed.

(** Follow an invariant of the events in [P] along an execution. *)
Lemma steps_invariant (P : Event -> Prop) (I : Net -> Prop) es s s' :
  (forall e s s', P e -> net_ok s -> I s -> step e s = Some s' -> I s') ->
  Forall P es -> net_ok s -> I s -> steps es s = Some s' -> I s'.
Proof.
  intros Hstep HP. revert s. induction HP as [|e es He _ IH]; intros s Hok HI Hs; cbn in Hs; [by simplify_eq|].
  destruct (step e s) as [s1|] eqn:Hs1; [|done]. apply (IH s1); [by eapply step_ok|by eapply Hstep|done].
Qed.

Lemma steps_app es es' s : steps (es ++ es') s = s' ← steps es s; steps es' s'.
Proof. revert s. induction es as [|e es IH]; intros s; [done|]. cbn. destruct (step e s); [apply IH|done]. Qed.

(** ** Lost connections are noticed *)

(** When the ping task gives up, at the latest, if no pong arrives. *)
Definition deadline (c : Conn) : option Z :=
  match recv_task c with
  | RecvDone => None
  | Receiving _ (PTick due) => Some (due + PING_TIMEOUT)
  | Receiving pong (PCheck at_ next) => Some (if pong then next + PING_TIMEOUT else at_)
  end.

(** [run] does not wait for the tasks of connection [i]. *)
Definition unwatched (i : nat) (s : Net) : Prop :=
  (tasks s).2 = Some i -> (tasks s).1 = None \/ phase s = RJoin \/ exists r, phase s = REnded r.

Lemma unwatched_step i e s s' : (i < length (conns s))%nat -> unwatched i s -> step e s = Some s' -> unwatched i s'.
Proof.
  intros Hi Hu H. destruct (event_run e) as [[r ->]|Hnr].
  - apply step_frame in H as (H & _). pose proof (drop_tasks_fields s) as (_ & _ & _ & Htasks & _). unfold unwatched, run_step in *.
    destruct (phase s), r; try done; repeat case_match; simplify_eq; cbn;
      try match goal with E : tasks s = _ |- _ => rewrite E end; rewrite ?Htasks; cbn; try done; try (by eauto);
      try (intros Hx; destruct (Hu Hx) as [?|[?|[? ?]]]; simplify_eq; by eauto). intros [= <-]. lia.
  - destruct (step_tasks e s s' H Hnr) as [Ht Hp]. unfold unwatched. by rewrite Ht, Hp.
Qed.

(** While time passes, a task that has ended is not watched. *)
Lemma wait_unwatched d s i : may_wait d s = true -> net_ok s -> live (conns s) (TRecv i) = false -> unwatched i s.
Proof.
  intros (_ & _ & Hr & _)%may_wait_spec Hok Hl Ht. pose proof (ok_phase s Hok) as Hp. unfold phase_ok, run_ready in *.
  destruct (phase s); eauto; try done.
  - rewrite Ht in Hr. cbn in Hr. by rewrite Hl, !orb_true_r in Hr.
  - destruct Hp as [Hp|Hp]; [auto|congruence].
  - destruct Hp as [Hp|Hp]; [auto|congruence].
  - destruct Hp as [[Hp|Hp] _]; [auto|congruence].
Qed.

Lemma move_deadline s i e c c' D : move s i e c c' -> (forall f, e <> ERecv i f) -> conn_ok (now s) c ->
  (forall b, deadline c = Some b -> b <= D) -> forall b, deadline c' = Some b -> b <= D.
Proof.
  intros [ |a c1 c1' H|f c1 m rs c1' H|c1 c1' H| | ] Hq [Hp _] HD; try done.
  - unfold deadline in *. by rewrite (send_step_recv _ _ _ _ H).
  - by destruct (Hq f).
  - unfold ping_step in H. unfold deadline, ping_ok in *. destruct (recv_task c1) as [pong [due|at_ next]|] eqn:Hr; [| |done].
    + destruct (due <=? now s) eqn:Hd; [|done]. apply Z.leb_le in Hd. destruct (push WsPing c1) as [sent c2].
      specialize (HD _ eq_refl). destruct sent; simplify_eq; [|done]. intros b [= <-]. lia.
    + destruct (at_ <=? now s); [|done]. specialize (HD _ eq_refl). destruct pong; simplify_eq; [|done]. by intros b [= <-].
Qed.

(** A live receiving task has a timer before its deadline. *)
Lemma deadline_due c t : conn_ok t c -> recv_live c = true -> exists due b, ping_due c = Some due /\ deadline c = Some b /\ due <= b /\
  b <= t + PING_INTERVAL + PING_TIMEOUT.
Proof.
  intros [Hp _] Hl. unfold ping_ok, recv_live, ping_due, deadline, PING_TIMEOUT, PING_INTERVAL in *.
  destruct (recv_task c) as [pong [due|at_ next]|]; [| |done]; eexists _, _; (split; [done|]); (split; [done|]); [lia|].
  destruct pong; lia.
Qed.

Definition watch (i : nat) (D : Z) (s : Net) : Prop :=
  exists c, conns s !! i = Some c /\ (forall b, deadline c = Some b -> b <= D) /\
    (D < now s -> recv_live c = false /\ unwatched i s).

Lemma watch_step i D e s s' : (forall f, e <> ERecv i f) -> net_ok s -> watch i D s -> step e s = Some s' -> watch i D s'.
Proof.
  intros Hq Hok (c & Hc & HD & Hlate) H. destruct (step_conn e s s' i c H Hc) as (c' & Hc' & Hm). exists c'. split; [done|].
  pose proof (Forall_lookup_1 _ _ _ _ (ok_conns s Hok) Hc) as Hcok. split; [by eapply move_deadline|].
  intros Hnow. pose proof (step_now e s s' H) as Hn. rewrite Hn in Hnow.
  assert (recv_live c = false /\ unwatched i s) as [Hdead Hun].
  { destruct (event_wait e) as [[d ->]|Hnw].
    - destruct (decide (D < now s)) as [|Hge]; [by apply Hlate|]. apply step_frame in H as [Hw ->].
      destruct (recv_live c) eqn:Hl.
      + destruct (deadline_due c (now s) Hcok Hl) as (due & b & Hdue & Hb & Hle & _).
        apply may_wait_spec in Hw as (_ & Ht & _). specialize (Ht due (ping_due_timer s i c due Hc Hdue)). specialize (HD b Hb). lia.
      + split; [done|]. eapply wait_unwatched; [done..|]. unfold live. by rewrite Hc.
    - apply Hlate. destruct e; try done. destruct Hnw. by eexists. }
  split; [by eapply move_recv_dead|]. exact (unwatched_step i e s s' (lookup_lt_Some _ _ _ Hc) Hun H).
Qed.

(** ** Tasks that were dropped end *)

Lemma drop_tasks_elem s x : x ∈ dropped (drop_tasks s) -> x ∈ dropped s \/ x.2 = now s + WEBSOCKET_CLOSE_TIMEOUT /\
  match x.1 with TSend i => (tasks s).1 = Some i | TRecv i => (tasks s).2 = Some i end.
Proof.
  assert (forall t s1, x ∈ dropped (drop_task t s1) -> x ∈ dropped s1 \/ x = (t, now s1 + WEBSOCKET_CLOSE_TIMEOUT)) as Hone.
  { intros t s1. unfold drop_task. case_match; [|auto]. cbn. rewrite elem_of_app, list_elem_of_singleton. tauto. }
  unfold drop_tasks. cbn. destruct (tasks s).1 as [i|], (tasks s).2 as [j|]; intros H; auto;
    repeat (apply Hone in H as [H| ->]; [|right; cbn; rewrite ?(proj1 (drop_task_fields (TSend i) s)); done]); auto.
Qed.

(** Nobody holds the tasks of connection [i] but timeouts that end by [D]. *)
Definition fading (i : nat) (D : Z) (s : Net) : Prop :=
  (i < length (conns s))%nat /\ (tasks s).1 <> Some i /\ (tasks s).2 <> Some i /\
  forall t due, t = TSend i \/ t = TRecv i -> (t, due) ∈ dropped s -> due <= D.

Lemma fading_step i D e s s' : net_ok s -> fading i D s -> step e s = Some s' -> fading i D s'.
Proof.
  intros Hok (Hi & H0 & H1 & HD) H. split.
  { destruct (step_length e s s' H) as [->|(-> & _)]; [done|]. rewrite length_app. lia. }
  destruct (event_run e) as [[r ->]|Hnr].
  - apply step_frame in H as (H & _). pose proof (drop_tasks_fields s) as (_ & _ & _ & Htasks & _). split_and!.
    + unfold run_step in H. destruct (phase s), r; try done; repeat case_match; simplify_eq; cbn; rewrite ?Htasks; cbn; try done; try congruence.
      intros [= <-]. lia.
    + unfold run_step in H. destruct (phase s), r; try done; repeat case_match; simplify_eq; cbn; rewrite ?Htasks; cbn; try done; try congruence.
      intros [= <-]. lia.
    + intros t due Ht Hin. destruct (run_step_dropped r s s' H) as [Hd|Hd]; rewrite Hd in Hin; [by eapply HD|].
      apply drop_tasks_elem in Hin as [Hin|[_ Hheld]]; [by eapply HD|]. by destruct Ht as [-> | ->].
  - destruct (step_tasks e s s' H Hnr) as [-> _]. split_and!; [done..|]. intros t due Ht Hin. eapply HD; [done|]. by eapply timeouts_sub.
Qed.

Lemma fading_dead i D s : net_ok s -> fading i D s -> D < now s -> forall t, t = TSend i \/ t = TRecv i -> live (conns s) t = false.
Proof.
  intros Hok (_ & H0 & H1 & HD) Hnow t Ht. destruct (live (conns s) t) eqn:Hl; [|done].
  destruct (ok_held s Hok t Hl) as [Hh|[due Hin]]; [by destruct Ht as [-> | ->]|].
  pose proof (proj1 (Forall_forall _ _) (ok_dropped s Hok) _ Hin) as Hb. cbn in Hb. specialize (HD t due Ht Hin). lia.
Qed.

(** What is dropped now is gone after the timeout. *)
Lemma unheld_fading i s : net_ok s -> (i < length (conns s))%nat -> (tasks s).1 <> Some i -> (tasks s).2 <> Some i ->
  fading i (now s + WEBSOCKET_CLOSE_TIMEOUT) s.
Proof.
  intros Hok Hi H0 H1. split_and!; [done..|]. intros t due _ Hin.
  pose proof (proj1 (Forall_forall _ _) (ok_dropped s Hok) _ Hin) as Hb. cbn in Hb. lia.
Qed.

(** ** [run] that has ended *)

Lemma ended_step e s s' r : phase s = REnded r -> step e s = Some s' -> phase s' = REnded r /\ length (conns s') = length (conns s).
Proof.
  intros Hp H. split.
  - destruct (event_run e) as [[x ->]|Hnr]; [|by rewrite (proj2 (step_tasks e s s' H Hnr))].
    apply step_frame in H as (H & _). unfold run_step in H. by rewrite Hp in H.
  - destruct (step_length e s s' H) as [|(_ & _ & url & Hu)]; [done|congruence].
Qed.

Lemma ended_steps es s s' r : phase s = REnded r -> steps es s = Some s' -> phase s' = REnded r /\ length (conns s') = length (conns s).
Proof.
  revert s. induction es as [|e es IH]; intros s Hp H; cbn in H; [by simplify_eq|].
  destruct (step e s) as [s1|] eqn:He; [|done]. destruct (ended_step e s s1 r Hp He) as [Hp1 <-]. by apply IH.
Qed.

(** Without a receiving task nothing is delivered. *)
Lemma dead_silent e s s' : (forall t, live (conns s) t = false) -> step e s = Some s' -> receivers s' = receivers s.
Proof.
  intros Hd H. destruct e as [j a|j f|j|e|k|uri h|uri|uris tx| |d]; cbn [step] in H.
  - destruct (conns s !! j); [|done]. cbn in H. destruct (send_step _ _ _); [|done]. by injection H as <-.
  - specialize (Hd (TRecv j)). unfold live in Hd. destruct (conns s !! j) as [c|]; [|done]. cbn in H.
    unfold recv_step in H. unfold recv_live in Hd. by destruct (recv_task c).
  - destruct (conns s !! j); [|done]. cbn in H. destruct (ping_step _ _); [|done]. by injection H as <-.
  - destruct (drop_tasks_fields s) as (_ & _ & _ & _ & _ & _ & Hrs). unfold run_step in H.
    repeat case_match; simplify_eq; cbn; done.
  - destruct (dropped s !! k) as [[t due]|]; [|done]. cbn in H. destruct (due <=? now s); [|done]. injection H as <-.
    by destruct (abort_task_fields t s) as (_ & _ & _ & _ & _ & _ & Hrs).
  - by injection H as <-.
  - by injection H as <-.
  - by injection H as <-.
  - by injection H as <-.
  - destruct (may_wait d s); [|done]. by injection H as <-.
Qed.

(** A dealer whose [run] has ended and whose tasks are gone stays silent. *)
Lemma ended_silent es s s' r : phase s = REnded r -> (forall t, live (conns s) t = false) -> steps es s = Some s' ->
  receivers s' = receivers s.
Proof.
  revert s. induction es as [|e es IH]; intros s Hp Hd H; cbn in H; [by simplify_eq|].
  destruct (step e s) as [s1|] eqn:He; [|done]. rewrite <- (dead_silent e s s1 Hd He).
  destruct (ended_step e s s1 r Hp He) as [Hp1 _]. apply IH; [done| |done].
  intros t. destruct (live (conns s1) t) eqn:Hl; [|done]. destruct (step_live e s s1 t He Hl) as [Hl'|[-> _]]; [by rewrite Hd in Hl'|].
  apply step_frame in He as (He & _). unfold run_step in He. by rewrite Hp in He.
Qed.

(** ** Closing *)

(** The websocket is prompt: no time passes while the sending task waits for it. *)
Definition idle (c : Conn) : bool := match send_task c with SLoop | SDone => true | _ => false end.

Fixpoint prompt (es : list Event) (s : Net) : Prop :=
  match es with
  | [] => True
  | e :: es =>
      (forall d, e = EWait d -> Forall (fun c => idle c = true) (conns s)) /\
      match step e s with Some s' => prompt es s' | None => True end
  end.

(** When the receiving task ends, at the latest, once the sending task is gone. *)
Definition last_tick (c : Conn) : option Z :=
  match recv_task c with
  | RecvDone => None
  | Receiving _ (PTick due) => Some due
  | Receiving _ (PCheck _ next) => Some next
  end.

Definition closing_phase (s : Net) : Prop :=
  match phase s with RTop | RSelect | RJoin | REnded _ => True | _ => False end.

(** The dealer was closed at [t0]; since time has passed every sending task is gone. *)
Record closing (t0 : Z) (s : Net) : Prop := {
  cl_closed : closed s = true;
  cl_phase : closing_phase s;
  cl_sends : t0 < now s -> Forall (fun c => send_task c = SDone) (conns s);
  cl_ticks : Forall (fun c => forall b, last_tick c = Some b -> b <= t0 + PING_INTERVAL) (conns s);
  cl_start : t0 <= now s;
  cl_end : t0 + PING_INTERVAL < now s -> exists r, phase s = REnded r
}.

Lemma move_last_tick s i e c c' t0 : move s i e c c' -> conn_ok (now s) c -> t0 <= now s ->
  (t0 < now s -> send_task c = SDone) ->
  (forall b, last_tick c = Some b -> b <= t0 + PING_INTERVAL) -> forall b, last_tick c' = Some b -> b <= t0 + PING_INTERVAL.
Proof.
  intros [ |a c1 c1' H|f c1 m rs c1' H|c1 c1' H| | ] [Hp Hx] Ht Hs HD; try done.
  - unfold last_tick in *. by rewrite (send_step_recv _ _ _ _ H).
  - unfold recv_step in H. unfold last_tick in *. destruct (recv_task c1) as [pong ping|] eqn:Hr; [|done]. injection H as H.
    destruct f as [[x| | | |fr]| |]; simplify_eq; try (by rewrite Hr); try done; try (by destruct ping).
    destruct (from_str x) as [y|]; [|simplify_eq; by rewrite Hr]. destruct (dispatch y (maps s) (receivers s)) as [[l ?] ?]. simplify_eq.
    destruct (push_all_fields (fun r => WsText (reply_text r)) l c1) as (_ & _ & Hr' & _). by rewrite Hr', Hr.
  - unfold ping_step in H. unfold last_tick, ping_ok, rx_ok in *. destruct (recv_task c1) as [pong [due|at_ next]|] eqn:Hr; [| |done].
    + destruct (due <=? now s) eqn:Hd; [|done]. apply Z.leb_le in Hd. unfold push in H. destruct (rx_open c1) eqn:Hrx; simplify_eq; [|done].
      intros b [= <-]. destruct (decide (t0 < now s)) as [Hlt|]; [|lia]. by rewrite (Hs Hlt) in Hx.
    + destruct (at_ <=? now s); [|done]. destruct pong; simplify_eq; [|done]. intros b [= <-]. by apply HD.
Qed.

Lemma move_sent s i e c c' : move s i e c c' -> send_task c = SDone -> send_task c' = SDone.
Proof.
  intros Hm Hs. assert (send_live c' = false) as Hl; [eapply move_send_dead; [done|]; unfold send_live; by rewrite Hs|].
  unfold send_live in Hl. by destruct (send_task c').
Qed.

(** Waiting when closed: all sending tasks are gone, and without receiving tasks [run] has ended. *)
Lemma wait_closing d s : may_wait d s = true -> closed s = true -> closing_phase s -> Forall (fun c => idle c = true) (conns s) ->
  Forall (fun c => send_task c = SDone) (conns s) /\ ((exists r, phase s = REnded r) \/ exists i, live (conns s) (TRecv i) = true).
Proof.
  intros (_ & _ & Hr & Hs)%may_wait_spec Hcl Hp Hidle.
  assert (Forall (fun c => send_task c = SDone) (conns s)) as Hdone.
  { apply Forall_lookup_2. intros i c Hi. specialize (Hs i c Hi). pose proof (Forall_lookup_1 _ _ _ _ Hidle Hi) as Hid.
    unfold send_ready, idle in *. rewrite Hcl in Hs. cbn in Hs. by destruct (send_task c). }
  split; [done|]. unfold closing_phase, run_ready in *. destruct (phase s) as [| | |url|u| |r]; try done; [by rewrite Hcl in Hr| |by eauto].
  right. destruct (tasks s) as [t0 t1]; cbn in Hr.
  assert (task_done s (TSend <$> t0) = true) as H0.
  { destruct t0 as [i|]; [|done]. cbn. unfold live. destruct (conns s !! i) as [c|] eqn:Hi; [|done].
    pose proof (Forall_lookup_1 _ _ _ _ Hdone Hi) as Hc. cbn in Hc. unfold send_live. by rewrite Hc. }
  rewrite H0 in Hr. destruct t1 as [i|]; [|done]. exists i. cbn in Hr. by destruct (live (conns s) (TRecv i)).
Qed.

Lemma closing_conns t0 e s s' : net_ok s -> closing t0 s -> step e s = Some s' -> length (conns s') = length (conns s) ->
  (t0 < now s -> Forall (fun c => send_task c = SDone) (conns s')) /\
  Forall (fun c => forall b, last_tick c = Some b -> b <= t0 + PING_INTERVAL) (conns s').
Proof.
  intros Hok Hc H Hlen.
  assert (forall i c', conns s' !! i = Some c' -> exists c, conns s !! i = Some c /\ move s i e c c') as Hback.
  { intros i c' Hi. destruct (conns s !! i) as [c|] eqn:Hci.
    - destruct (step_conn e s s' i c H Hci) as (c1 & Hc1 & Hm). simplify_eq. eauto.
    - apply lookup_ge_None in Hci. apply lookup_lt_Some in Hi. lia. }
  split.
  - intros Hlt. apply Forall_lookup_2. intros i c' (c & Hci & Hm)%Hback. eapply move_sent; [exact Hm|].
    exact (Forall_lookup_1 _ _ _ _ (cl_sends t0 s Hc Hlt) Hci).
  - apply Forall_lookup_2. intros i c' (c & Hci & Hm)%Hback. eapply move_last_tick; [exact Hm| |apply Hc| |].
    + exact (Forall_lookup_1 _ _ _ _ (ok_conns s Hok) Hci).
    + intros Hlt. exact (Forall_lookup_1 _ _ _ _ (cl_sends t0 s Hc Hlt) Hci).
    + exact (Forall_lookup_1 _ _ _ _ (cl_ticks t0 s Hc) Hci).
Qed.

Lemma step_closed e s s' : step e s = Some s' -> closed s = true -> closed s' = true.
Proof. intros Hf%step_frame. destruct e; try (by destruct Hf as (? & -> & _)); [by destruct Hf as (_ & _ & ->)|by destruct Hf as [_ ->]]. Qed.

Lemma closing_phase_step e s s' : step e s = Some s' -> closed s = true -> closing_phase s -> closing_phase s'.
Proof.
  intros H Hcl Hp. destruct (event_run e) as [[r ->]|Hnr].
  - apply step_frame in H as (H & _). unfold run_step, closing_phase in *. rewrite Hcl in H.
    destruct (phase s) eqn:Hph, r; try done; repeat case_match; simplify_eq; done.
  - unfold closing_phase. by rewrite (proj2 (step_tasks e s s' H Hnr)).
Qed.

Lemma closing_step t0 e s s' : net_ok s -> closing t0 s -> (forall d, e = EWait d -> Forall (fun c => idle c = true) (conns s)) ->
  step e s = Some s' -> closing t0 s'.
Proof.
  intros Hok Hc Hidle H. pose proof (step_closed e s s' H (cl_closed t0 s Hc)) as Hcl'.
  pose proof (closing_phase_step e s s' H (cl_closed t0 s Hc) (cl_phase t0 s Hc)) as Hp'.
  pose proof (step_now e s s' H) as Hnow. pose proof (cl_start t0 s Hc) as Hstart. destruct (event_wait e) as [[d ->]|Hnw].
  - specialize (Hidle d eq_refl). apply step_frame in H as [Hw ->].
    destruct (wait_closing d s Hw (cl_closed t0 s Hc) (cl_phase t0 s Hc) Hidle) as [Hdone Hend].
    apply may_wait_spec in Hw as (Hd & Ht & _). split; cbn; try done; [apply Hc|lia|].
    intros Hlate. destruct Hend as [|[i Hl]]; [done|]. exfalso. unfold live in Hl. destruct (conns s !! i) as [c|] eqn:Hi; [|done].
    pose proof (Forall_lookup_1 _ _ _ _ (cl_ticks t0 s Hc) Hi) as HD. pose proof (Forall_lookup_1 _ _ _ _ (ok_conns s Hok) Hi) as [Hpi _].
    pose proof (fun t E => Ht t (ping_due_timer s i c t Hi E)) as Hdue.
    unfold recv_live, last_tick, ping_due, ping_ok, PING_INTERVAL, PING_TIMEOUT in *.
    destruct (recv_task c) as [pong [due|at_ next]|]; [| |done]; specialize (HD _ eq_refl); specialize (Hdue _ eq_refl); lia.
  - assert (now s' = now s) as Hsame by (destruct e; try done; destruct Hnw; by eexists).
    assert (length (conns s') = length (conns s)) as Hlen.
    { destruct (step_length e s s' H) as [|(_ & _ & url & Hu)]; [done|]. pose proof (cl_phase t0 s Hc) as Hp.
      unfold closing_phase in Hp. by rewrite Hu in Hp. }
    destruct (closing_conns t0 e s s' Hok Hc H Hlen) as [Hsends Hticks]. split; rewrite ?Hsame; try done.
    intros Hlate. destruct (cl_end t0 s Hc Hlate) as [r Hr]. exists r. by eapply ended_step.
Qed.

Lemma closing_steps t0 es s s' : net_ok s -> closing t0 s -> prompt es s -> steps es s = Some s' -> closing t0 s'.
Proof.
  revert s. induction es as [|e es IH]; intros s Hok Hc Hp H; cbn in H; [by simplify_eq|]. destruct Hp as [Hidle Hp].
  destruct (step e s) as [s1|] eqn:He; [|done]. apply (IH s1); [by eapply step_ok|by eapply closing_step|done|done].
Qed.

(** ** Time goes on *)

Lemma timers_slack (t : Z) l : Forall (fun x => t < x) l -> exists d, 0 < d /\ forallb (fun x => t + d <=? x) l = true.
Proof.
  induction 1 as [|x l Hx _ (d & Hd & Hl)]; [by exists 1|]. exists (Z.min d (x - t)). split; [lia|].
  cbn. rewrite andb_true_iff, Z.leb_le. split; [lia|]. rewrite forallb_forall in Hl |- *. intros y Hy. specialize (Hl y Hy).
  rewrite Z.leb_le in Hl |- *. lia.
Qed.

Lemma run_ready_goes s : net_ok s -> run_ready s = true -> exists r s', run_step r s = Some s'.
Proof.
  intros Hok Hr. unfold run_ready, run_step in *. destruct (phase s); try done.
  - by exists RunGo; eexists.
  - destruct (closed s); [by exists RunClosed; eexists|]. cbn in Hr. apply orb_true_iff in Hr as [Hr|Hr].
    + exists RunTask0. rewrite Hr. by eexists.
    + exists RunTask1. rewrite Hr. by eexists.
  - rewrite Hr. by exists RunClosed; eexists.
  - exists RunJoined. rewrite Hr. by eexists.
Qed.

Lemma due_goes s t : t ∈ timers s -> t <= now s ->
  exists e s', (forall d, e <> EWait d) /\ (forall i f, e <> ERecv i f) /\ step e s = Some s'.
Proof.
  unfold timers. rewrite !elem_of_app, list_elem_of_omap. intros Hin Ht%Z.leb_le. destruct Hin as [(c & Hc & Hdue)|[Hin|Hin]].
  - apply list_elem_of_lookup in Hc as [i Hi]. exists (EPing i). cbn [step]. rewrite Hi. cbn. unfold ping_due in Hdue. unfold ping_step.
    destruct (recv_task c) as [pong [due|at_ next]|]; simplify_eq; rewrite Ht; [destruct (push WsPing c)|]; by eexists.
  - apply list_elem_of_fmap in Hin as ([t' due] & -> & Hin). apply list_elem_of_lookup in Hin as [k Hk]. exists (ETimeout k).
    cbn [step]. rewrite Hk. cbn. cbn in Ht. rewrite Ht. by eexists.
  - exists (ERun RunWake). cbn [step]. unfold run_step. destruct (phase s); try by apply not_elem_of_nil in Hin.
    apply list_elem_of_singleton in Hin as ->. rewrite Ht. by eexists.
Qed.

(** No reachable state is stuck: a task can go on or time can pass. *)
Lemma never_stuck s : reachable s ->
  (exists e s', (forall d, e <> EWait d) /\ (forall i f, e <> ERecv i f) /\ step e s = Some s') \/
  exists d s', step (EWait d) s = Some s'.
Proof.
  intros Hr%net_reachable_ok. destruct (decide (Forall (fun t => now s < t) (timers s))) as [Ht|Ht].
  - destruct (run_ready s) eqn:Hrun.
    { left. destruct (run_ready_goes s Hr Hrun) as (r & s' & H). by exists (ERun r), s'. }
    destruct (existsb (send_ready (closed s)) (conns s)) eqn:Hsend.
    + left. apply existsb_exists in Hsend as (c & Hc%list_elem_of_In & Hready).
      apply list_elem_of_lookup in Hc as [i Hi]. exists (ESend i SockOk). cbn [step]. rewrite Hi. cbn.
      unfold send_ready in Hready. unfold send_step. destruct (send_task c); try done. destruct (closed s); [by eexists|].
      destruct (queue c) as [|[] q]; try (by eexists). cbn in Hready. destruct (recv_live c); [done|by eexists].
    + right. destruct (timers_slack (now s) (timers s) Ht) as (d & Hd & Hl). exists d. cbn [step]. unfold may_wait.
      assert (forallb (fun c => negb (send_ready (closed s) c)) (conns s) = true) as ->.
      { apply forallb_forall. intros c Hc. destruct (send_ready (closed s) c) eqn:Hready; [|done].
        apply not_true_iff_false in Hsend. destruct Hsend. apply existsb_exists. eauto. }
      rewrite (proj2 (Z.ltb_lt 0 d) Hd), Hl, Hrun. by eexists.
  - left. apply not_Forall_Exists in Ht; [|apply _]. apply Exists_exists in Ht as (t & Hin & Hle).
    destruct (due_goes s t Hin) as (e & s' & H); [unfold compose in Hle; lia|]. by exists e, s'.
Qed.

(** ** Properties *)

(** C40: A dead peer is noticed. Take any connection in any reachable state: if nothing is received
    on it from then on, then whatever else happens (other connections, writes that succeed, fail or
    block, registrations), 33 seconds later (an interval and a timeout of the ping task) its receiving
    task has ended, and [run] no longer waits for that connection: it is asking for an address,
    dialing, waiting to dial again, watching another connection, or closing down. *)
Theorem dead_peer_detected (s s' : Net) (es : list Event) (i : nat)
    (Hr : reachable s) (Hi : (i < length (conns s))%nat) (Hq : Forall (fun e => forall f, e <> ERecv i f) es)
    (Hs : steps es s = Some s') (Ht : now s + PING_INTERVAL + PING_TIMEOUT < now s') :
  live (conns s') (TRecv i) = false /\ ~ (phase s' = RSelect /\ (tasks s').2 = Some i).
Proof.
  pose proof (net_reachable_ok s Hr) as Hok. apply lookup_lt_is_Some in Hi as [c Hc].
  assert (watch i (now s + PING_INTERVAL + PING_TIMEOUT) s) as Hw.
  { exists c. split; [done|]. split; [|unfold PING_INTERVAL, PING_TIMEOUT; lia]. intros b Hb.
    destruct (recv_live c) eqn:Hl; [|unfold recv_live, deadline in *; by destruct (recv_task c)].
    destruct (deadline_due c (now s) (Forall_lookup_1 _ _ _ _ (ok_conns s Hok) Hc) Hl) as (due & b' & _ & Hb' & _ & Hle). by simplify_eq. }
  pose proof (steps_ok es s s' Hs Hok) as Hok'.
  eapply (steps_invariant (fun e => forall f, e <> ERecv i f) (watch i (now s + PING_INTERVAL + PING_TIMEOUT))) in Hs;
    [|eauto using watch_step|done..].
  destruct Hs as (c' & Hc' & _ & Hlate). destruct (Hlate Ht) as [Hdead Hun]. split; [unfold live; by rewrite Hc'|].
  intros [Hph Htask]. pose proof (ok_phase s' Hok') as Hp. unfold phase_ok in Hp. rewrite Hph in Hp.
  destruct (Hun Htask) as [Hx|[Hx|[r Hx]]]; [by destruct Hp as [[? ?] _]; congruence|congruence..].
Qed.

(** A connection that [run] has given up is gone after three seconds: neither of its tasks
    survives, even if the websocket blocks. *)
Theorem lost_connection_cleared (s s' : Net) (es : list Event) (i : nat)
    (Hr : reachable s) (Hi : (i < length (conns s))%nat) (H0 : (tasks s).1 <> Some i) (H1 : (tasks s).2 <> Some i)
    (Hs : steps es s = Some s') (Ht : now s + WEBSOCKET_CLOSE_TIMEOUT < now s') :
  live (conns s') (TSend i) = false /\ live (conns s') (TRecv i) = false.
Proof.
  pose proof (net_reachable_ok s Hr) as Hok. pose proof (steps_ok es s s' Hs Hok) as Hok'. pose proof (unheld_fading i s Hok Hi H0 H1) as Hf.
  eapply (steps_invariant (fun _ => True) (fading i (now s + WEBSOCKET_CLOSE_TIMEOUT))) in Hs;
    [|eauto using fading_step|by apply Forall_true|done..].
  split; eapply fading_dead; eauto.
Qed.

(** One failure to get an address ends the dealer for good: [run] returns the error instead of
    trying again, as it does when dialing fails. No connection is made any more, after three seconds
    no task is left, and from then on no subscriber and no handler ever receives anything, although
    their registrations stay. *)
Theorem url_failure_is_final (s s1 s' : Net) (es : list Event) (e : Error)
    (Hr : reachable s) (Hfail : step (ERun (RunUrl (Err e))) s = Some s1) (Hs : steps es s1 = Some s') :
  phase s' = REnded (Err e) /\ length (conns s') = length (conns s) /\
  (now s + WEBSOCKET_CLOSE_TIMEOUT < now s' ->
    (forall t, live (conns s') t = false) /\ forall es' s'', steps es' s' = Some s'' -> receivers s'' = receivers s').
Proof.
  pose proof (net_reachable_ok s Hr) as Hok. pose proof (step_ok _ s s1 Hfail Hok) as Hok1. pose proof (steps_ok es s1 s' Hs Hok1) as Hok'.
  pose proof (step_now _ s s1 Hfail) as Hnow. pose proof (step_length _ s s1 Hfail) as [Hlen1|(_ & Hbad & _)]; [|discriminate].
  assert (phase s1 = REnded (Err e)) as Hp1.
  { apply step_frame in Hfail as (Hrun & _). unfold run_step in Hrun. destruct (phase s); try done. by injection Hrun as <-. }
  destruct (ended_steps es s1 s' _ Hp1 Hs) as [Hp Hlen]. split_and!; [done|congruence|]. intros Hlate.
  assert (forall t, live (conns s') t = false) as Hdead.
  { intros t. destruct (live (conns s') t) eqn:Hl; [|done].
    pose proof (ok_phase s1 Hok1) as Hnone. unfold phase_ok in Hnone. rewrite Hp1 in Hnone.
    assert (exists i, (t = TSend i \/ t = TRecv i) /\ (i < length (conns s1))%nat) as (i & Ht & Hi).
    { rewrite <- Hlen. destruct t as [i|i]; exists i; (split; [auto|]); unfold live in Hl;
        destruct (conns s' !! i) eqn:Hi; try done; by eapply lookup_lt_Some. }
    assert (fading i (now s1 + WEBSOCKET_CLOSE_TIMEOUT) s1) as Hf by (apply unheld_fading; rewrite ?Hnone; done).
    eapply (steps_invariant (fun _ => True) (fading i (now s1 + WEBSOCKET_CLOSE_TIMEOUT))) in Hs;
      [|eauto using fading_step|by apply Forall_true|done..].
    rewrite (fading_dead i _ s' Hok' Hs) in Hl; [done|rewrite Hnow; lia|done]. }
  split; [done|]. intros es' s'' Hs'. by eapply ended_silent.
Qed.

(** Closing ends the dealer: when the websocket takes writes without delay and [run] is not
    dialing, [run] has returned 30 seconds after [close], even if the peer never answers; the
    receiving task notices at the next tick that the queue is closed. *)
Theorem close_ends (s s' : Net) (es : list Event)
    (Hr : reachable s) (Hc : closed s = true) (Hp : closing_phase s) (Hq : prompt es s)
    (Hs : steps es s = Some s') (Ht : now s + PING_INTERVAL < now s') :
  exists r, phase s' = REnded r.
Proof.
  pose proof (net_reachable_ok s Hr) as Hok. eapply (cl_end (now s) s'); [|done]. eapply closing_steps; [exact Hok| |done..].
  split; try done; try lia; [|unfold PING_INTERVAL; lia]. apply Forall_lookup_2. intros i c Hi b.
  pose proof (Forall_lookup_1 _ _ _ _ (ok_conns s Hok) Hi) as [Hpi _].
  unfold last_tick, ping_ok, PING_INTERVAL, PING_TIMEOUT in *. destruct (recv_task c) as [pong [due|at_ next]|]; [| |done]; intros [= <-]; lia.
Qed.

End conn.

(** ** Examples *)

Definition ex_url : Url := mkUrl "wss" (Some "dealer.spotify.com") None.

Example ex_target : connect_target ex_url = Ok ("dealer.spotify.com", 443).
Proof. reflexivity. Qed.

Definition ex_from_str (t : string) : option (MessageOrRequest (JsonValue := string)) := Some (AMessage (ex_message t)).
Definition ex_reply (r : reply) : string := r.1.

Definition ex_step := step ex_json ex_decode ex_gunzip ex_parse ex_from_str ex_reply.
Definition ex_steps := steps ex_json ex_decode ex_gunzip ex_parse ex_from_str ex_reply.

Definition ex_open : list (Event (Text := string)) :=
  [ERun RunGo; ERun (RunUrl (Ok ex_url)); ERun RunConnected; ERun RunGo].

(** A dealer that watches its first connection. *)
Definition ex_net : Net := default (net_new ex_maps ex_receivers 0) (ex_steps ex_open (net_new ex_maps ex_receivers 0)).

Lemma ex_net_reachable : reachable ex_json ex_decode ex_gunzip ex_parse ex_from_str ex_reply ex_net.
Proof. by exists ex_maps, ex_receivers, 0, ex_open. Qed.

(** A message reaches its subscriber. *)
Example ex_delivers : (s ← ex_steps [ERecv 0 (InMessage (WsText "hm://a/c"))] ex_net; messages (receivers s) !! 0%nat) =
  Some [mkMessage ∅ (Json "1") "hm://a/c"].
Proof. reflexivity. Qed.

(** The ping is sent, no pong comes, and [run] asks for an address. *)
Definition ex_silence : list (Event (Text := string)) :=
  [EPing 0; ESend 0 SockOk; ESend 0 SockOk; EWait 3000; EPing 0; ERun RunTask1; ERun RunGo; ESend 0 SockOk; EWait 40000].

(** No address, with the first connection lost. *)
Definition ex_offline : Net := default ex_net (ex_steps (take 7 ex_silence) ex_net).
Definition ex_error : Error := into_error IoTimedOut.

(** The receiving task fails while the websocket blocks the sending task, then [close]. *)
Definition ex_blocked : list (Event (Text := string)) := [EPing 0; ESend 0 SockOk; ERecv 0 InError; EClose; ERun RunClosed].

Definition ex_hung : Net := default ex_net (ex_steps ex_blocked ex_net).

(** [close] has no time limit: while the websocket blocks, [run] can wait for the sending task as
    long as one likes, since the timeout of three seconds is for dropped tasks only. *)
Theorem close_has_no_timeout (d : Z) (Hd : 0 < d) :
  exists s, ex_steps (ex_blocked ++ [EWait d]) ex_net = Some s /\ closed s = true /\ phase s = RJoin /\ now s = d.
Proof.
  unfold ex_steps. rewrite steps_app. change (steps _ _ _ _ _ _ ex_blocked ex_net) with (Some ex_hung). cbn [mbind option_bind].
  exists (set_now d ex_hung). split; [|by split_and!].
  cbn [steps step]. assert (may_wait d ex_hung = true) as ->; [|done].
  unfold may_wait. rewrite (proj2 (Z.ltb_lt 0 d) Hd). reflexivity.
Qed.

(** ** Witnesses *)

Lemma dead_peer_detected_witness :
  (s ← ex_steps ex_silence ex_net; Some (live (conns s) (TRecv 0), now s)) = Some (false, 43000).
Proof.
  destruct (ex_steps ex_silence ex_net) as [s|] eqn:Hs; [|vm_compute in Hs; discriminate].
  change (Some (live (conns s) (TRecv 0), now s) = Some (false, 43000)).
  destruct (dead_peer_detected ex_json ex_decode ex_gunzip ex_parse ex_from_str ex_reply ex_net s ex_silence 0) as [Hl _].
  - apply ex_net_reachable.
  - vm_compute. lia.
  - repeat constructor; done.
  - exact Hs.
  - vm_compute in Hs. injection Hs as <-. reflexivity.
  - rewrite Hl. vm_compute in Hs. injection Hs as <-. reflexivity.
Defined.

(** A second connection is made; the sending task of the first one blocks until its timeout. *)
Definition ex_again : list (Event (Text := string)) := [ERun (RunUrl (Ok ex_url)); ERun RunConnected; ERun RunGo; EPing 1; ESend 1 SockOk].
Definition ex_second : Net := default ex_net (ex_steps ex_again ex_offline).
Definition ex_timeout : list (Event (Text := string)) :=
  [ESend 0 SockOk; EWait 3000; ETimeout 0; ERecv 1 (InMessage WsPong); EPing 1; EWait 1].

Lemma lost_connection_cleared_witness :
  match ex_steps ex_timeout ex_second with
  | Some s => live (conns ex_second) (TSend 0) = true /\ live (conns s) (TSend 0) = false
  | None => False
  end.
Proof.
  destruct (ex_steps ex_timeout ex_second) as [s|] eqn:Hs; [|vm_compute in Hs; discriminate]. split; [reflexivity|].
  apply (lost_connection_cleared ex_json ex_decode ex_gunzip ex_parse ex_from_str ex_reply ex_second s ex_timeout 0).
  - exists ex_maps, ex_receivers, 0, (ex_open ++ take 7 ex_silence ++ ex_again). vm_compute. reflexivity.
  - vm_compute. lia.
  - done.
  - done.
  - exact Hs.
  - vm_compute in Hs. injection Hs as <-. reflexivity.
Defined.

Lemma url_failure_is_final_witness :
  match ex_steps [ERun (RunUrl (Err ex_error)); ESend 0 SockOk; EWait 3000; ETimeout 0; EWait 5] ex_offline with
  | Some s => phase s = REnded (Err ex_error) /\ forall t, live (conns s) t = false
  | None => False
  end.
Proof.
  destruct (ex_steps _ ex_offline) as [s|] eqn:Hs; [|vm_compute in Hs; discriminate].
  destruct (url_failure_is_final ex_json ex_decode ex_gunzip ex_parse ex_from_str ex_reply ex_offline
    (default ex_offline (ex_step (ERun (RunUrl (Err ex_error))) ex_offline)) s [ESend 0 SockOk; EWait 3000; ETimeout 0; EWait 5] ex_error)
    as (Hp & _ & Hl).
  - exists ex_maps, ex_receivers, 0, (ex_open ++ take 7 ex_silence). vm_compute. reflexivity.
  - reflexivity.
  - exact Hs.
  - split; [exact Hp|]. apply Hl. vm_compute in Hs. injection Hs as <-. reflexivity.
Defined.

(** [close] while all is well, with a peer that does not answer. *)
Definition ex_close : list (Event (Text := string)) :=
  [ESend 0 SockOk; ESend 0 SockOk; ERun RunClosed; EPing 0; ERun RunJoined; EWait 30001].
Definition ex_closed : Net := default ex_net (ex_step EClose ex_net).

Lemma close_ends_witness : match ex_steps ex_close ex_closed with Some s => exists r, phase s = REnded r | None => False end.
Proof.
  destruct (ex_steps ex_close ex_closed) as [s|] eqn:Hs; [|vm_compute in Hs; discriminate].
  apply (close_ends ex_json ex_decode ex_gunzip ex_parse ex_from_str ex_reply ex_closed s ex_close).
  - exists ex_maps, ex_receivers, 0, (ex_open ++ [EClose]). vm_compute. reflexivity.
  - reflexivity.
  - exact I.
  - vm_compute. repeat split; try discriminate. intros d _. repeat constructor.
  - exact Hs.
  - vm_compute in Hs. injection Hs as <-. reflexivity.
Defined.

Lemma close_has_no_timeout_witness : exists s, ex_steps (ex_blocked ++ [EWait 86400000]) ex_net = Some s /\ phase s = RJoin.
Proof. destruct (close_has_no_timeout 86400000 eq_refl) as (s & Hs & _ & Hp & _). by exists s. Defined.
