(* ===== verification/Auth.v ===== *)
(** * Credentials ([native/librespot/core/src/authentication.rs])

    The credentials a session logs in with, and [with_blob], which recovers them from the blob
    that a device on the local network sends: base64, AES-192 in ECB mode, a chain of exclusive
    ors, and a small binary record. The primitives (SHA-1, PBKDF2, base64, AES) belong to other
    crates and are parameters. *)
From S2P Require Import Prelude Errors.

Inductive AuthenticationType :=
| AUTHENTICATION_USER_PASS | AUTHENTICATION_STORED_SPOTIFY_CREDENTIALS | AUTHENTICATION_STORED_FACEBOOK_CREDENTIALS
| AUTHENTICATION_SPOTIFY_TOKEN | AUTHENTICATION_FACEBOOK_TOKEN.

#[export] Instance AuthenticationType_eq_dec : EqDecision AuthenticationType.
Proof. solve_decision. Defined.

Definition auth_type_value (t : AuthenticationType) : Z :=
  match t with
  | AUTHENTICATION_USER_PASS => 0 | AUTHENTICATION_STORED_SPOTIFY_CREDENTIALS => 1
  | AUTHENTICATION_STORED_FACEBOOK_CREDENTIALS => 2 | AUTHENTICATION_SPOTIFY_TOKEN => 3
  | AUTHENTICATION_FACEBOOK_TOKEN => 4
  end.

(** [AuthenticationType::from_i32] *)
Definition auth_type_from_i32 (n : Z) : option AuthenticationType :=
  match n with
  | 0 => Some AUTHENTICATION_USER_PASS
  | 1 => Some AUTHENTICATION_STORED_SPOTIFY_CREDENTIALS
  | 2 => Some AUTHENTICATION_STORED_FACEBOOK_CREDENTIALS
  | 3 => Some AUTHENTICATION_SPOTIFY_TOKEN
  | 4 => Some AUTHENTICATION_FACEBOOK_TOKEN
  | _ => None
  end.

Record Credentials := mkCredentials {
  username : option string;
  auth_type : AuthenticationType;
  auth_data : list Z
}.

#[export] Instance Credentials_eq_dec : EqDecision Credentials.
Proof. solve_decision. Defined.

Definition with_password (user password : string) : Credentials :=
  mkCredentials (Some user) AUTHENTICATION_USER_PASS (bytes password).

Definition with_access_token (token : string) : Credentials :=
  mkCredentials None AUTHENTICATION_SPOTIFY_TOKEN (bytes token).

(** ** Reading the record of a blob, from a cursor over its bytes *)

Abbreviation cursor := (list Z) (only parsing).

Definition read_u8 (c : cursor) : res IoErrorKind (Z * cursor) :=
  match c with [] => Err IoUnexpectedEof | b :: c => Ok (b, c) end.

Definition read_int (c : cursor) : res IoErrorKind (Z * cursor) :=
  '(lo, c) ← read_u8 c;
  if Z.land lo 128 =? 0 then mret (lo, c)
  else '(hi, c) ← read_u8 c;
       mret (Z.lor (Z.land lo 127) (Z.shiftl hi 7), c).

Definition read_bytes (c : cursor) : res IoErrorKind (list Z * cursor) :=
  '(length, c) ← read_int c;
  if (Z.to_nat length <=? List.length c)%nat then mret (take (Z.to_nat length) c, drop (Z.to_nat length) c)
  else Err IoUnexpectedEof.

(** The record: two ignored fields with a byte string between them, the type, the data. *)
Definition read_blob (user : string) (blob : cursor) : res Error Credentials :=
  '(_, c) ← raise (read_u8 blob);
  '(_, c) ← raise (read_bytes c);
  '(_, c) ← raise (read_u8 c);
  '(typ, c) ← raise (read_int c);
  typ ← raise (ok_or (AuthType typ) (auth_type_from_i32 typ));
  '(_, c) ← raise (read_u8 c);
  '(data, _) ← raise (read_bytes c);
  mret (mkCredentials (Some user) typ data).

(** ** Decryption *)

Definition BLOCK : nat := 16.

Section blob.
Context (sha1 : list Z -> list Z) (pbkdf2 : list Z -> list Z -> Z -> nat -> list Z)
        (base64_decode : list Z -> option (list Z)) (decrypt_block : list Z -> list Z -> list Z).

(** [key\[..20\].copy_from_slice(hash)] panics unless the digest has 20 bytes; the last four
    bytes are the big-endian 20. *)
Definition blob_key (user device_id : list Z) : res Error (list Z) :=
  let secret := sha1 device_id in
  let hash := sha1 (pbkdf2 secret user 256 20%nat) in
  if (length hash =? 20)%nat then Ok (hash ++ be_split 4 20) else Panic.

(** [data.chunks_exact_mut(16)]: [n] whole blocks, the rest is left alone. *)
Fixpoint decrypt_chunks (key : list Z) (n : nat) (data : list Z) : list Z :=
  match n with
  | O => data
  | S n => decrypt_block key (take BLOCK data) ++ decrypt_chunks key n (drop BLOCK data)
  end.

(** [data\[i\]] for a [usize] [i] *)
Definition at_usize (data : list Z) (i : Z) : res Error Z :=
  if i <? Z.of_nat (length data) then index data (Z.to_nat i) else Panic.

(** The loop [for i in 0..l - 0x10], whose bound and indices are [usize] differences. An index
    leaves the data by [i = l] at the latest, so [l + 1] rounds are enough. *)
Fixpoint unchain (fuel : nat) (l i : Z) (data : list Z) : res Error (list Z) :=
  if i <? usize_sub l 16 then
    match fuel with
    | O => Panic
    | S fuel =>
        let hi := usize_sub (usize_sub l i) 1 in
        a ← at_usize data hi;
        b ← at_usize data (usize_sub (usize_sub l i) 17);
        unchain fuel l (i + 1) (<[Z.to_nat hi := Z.lxor a b]> data)
    end
  else Ok data.

Definition decrypt_blob (key data : list Z) : res Error (list Z) :=
  let data := decrypt_chunks key (length data / BLOCK) data in
  unchain (S (length data)) (Z.of_nat (length data)) 0 data.

Definition with_blob (user : string) (encrypted_blob device_id : list Z) : res Error Credentials :=
  key ← blob_key (bytes user) device_id;
  data ← raise (ok_or DecodeError (base64_decode encrypted_blob));
  blob ← decrypt_blob key data;
  read_blob user blob.

End blob.

(** ** The encoding the decoder inverts *)

Definition write_int (n : Z) : list Z :=
  if n <? 128 then [n] else [128 + n mod 128; n / 128].

Definition write_blob (pad1 pad2 pad3 : Z) (skipped : list Z) (c : Credentials) : list Z :=
  [pad1] ++ write_int (Z.of_nat (length skipped)) ++ skipped ++ [pad2] ++ write_int (auth_type_value (auth_type c))
  ++ [pad3] ++ write_int (Z.of_nat (length (auth_data c))) ++ auth_data c.

(** Each byte is the exclusive or of the plain byte and the chained byte 16 places before. *)
Fixpoint chain (prev : list Z) (plain : list Z) : list Z :=
  match plain with
  | [] => []
  | b :: plain =>
      match prev with
      | p :: prev => let c := Z.lxor b p in c :: chain (prev ++ [c]) plain
      | [] => b :: plain
      end
  end.
Definition chained (plain : list Z) : list Z := chain (replicate BLOCK 0) plain.

Fixpoint encrypt_chunks (encrypt_block : list Z -> list Z -> list Z) (key : list Z) (n : nat) (data : list Z) : list Z :=
  match n with
  | O => data
  | S n => encrypt_block key (take BLOCK data) ++ encrypt_chunks encrypt_block key n (drop BLOCK data)
  end.

Definition encrypt_blob (encrypt_block : list Z -> list Z -> list Z) (key plain : list Z) : list Z :=
  let data := chained plain in encrypt_chunks encrypt_block key (length data / BLOCK) data.

(** What the loop computes. *)
Definition unchained (data : list Z) : list Z := zip_with Z.lxor data (replicate BLOCK 0 ++ data).

(** ** Lemmas *)

Lemma at_usize_ok data i x : data !! i = Some x -> at_usize data (Z.of_nat i) = Ok x.
Proof.
  intros H. pose proof (lookup_lt_Some _ _ _ H). unfold at_usize.
  rewrite (proj2 (Z.ltb_lt _ _)) by lia. rewrite Nat2Z.id. by apply index_ok.
Qed.

Lemma at_usize_cases data i : at_usize data i = Panic \/ exists x, at_usize data i = Ok x.
Proof. unfold at_usize, index. case_if; [|by left]. destruct (data !! Z.to_nat i); eauto. Qed.

Lemma length_unchained data : length (unchained data) = length data.
Proof. unfold unchained. rewrite length_zip_with, length_app. lia. Qed.

Lemma unchained_lo data i : (i < BLOCK)%nat -> unchained data !! i = data !! i.
Proof.
  intros Hi. unfold unchained.
  rewrite lookup_zip_with, (lookup_app_l (replicate _ _)), lookup_replicate_2 by (rewrite ?length_replicate; lia).
  destruct (data !! i) as [x|]; [|done]. simpl. by rewrite Z.lxor_0_r.
Qed.

Lemma unchained_hi data i x y :
  data !! (BLOCK + i)%nat = Some x -> data !! i = Some y -> unchained data !! (BLOCK + i)%nat = Some (Z.lxor x y).
Proof.
  intros Hx Hy. unfold unchained.
  rewrite lookup_zip_with, Hx, (lookup_app_r (replicate _ _)), length_replicate by (rewrite length_replicate; lia).
  replace (BLOCK + i - BLOCK)%nat with i by lia. by rewrite Hy.
Qed.

(** Replacing the last element of the part that is still to do. *)
Lemma insert_boundary {A} (D U : list A) k x :
  length D = length U -> U !! k = Some x ->
  <[k := x]> (take (S k) D ++ drop (S k) U) = take k D ++ drop k U.
Proof.
  intros Hl Hx. pose proof (lookup_lt_Some _ _ _ Hx). apply list_eq. intros j.
  destruct (decide (j = k)) as [->|Hj].
  - rewrite list_lookup_insert_eq by (rewrite length_app, length_take, length_drop; lia).
    rewrite lookup_app_r by (rewrite length_take; lia). rewrite length_take, Nat.min_l, Nat.sub_diag by lia.
    by rewrite lookup_drop, Nat.add_0_r.
  - rewrite list_lookup_insert_ne by done. destruct (decide (j < k)%nat).
    + rewrite !lookup_app_l by (rewrite length_take; lia). by rewrite !lookup_take_lt by lia.
    + rewrite !lookup_app_r by (rewrite length_take; lia). rewrite !length_take, !Nat.min_l by lia.
      rewrite !lookup_drop. f_equal. lia.
Qed.

Lemma unchain_round data n :
  (S n + BLOCK <= length data)%nat -> Z.of_nat (length data) <= usize_max ->
  forall fuel, (n < fuel)%nat ->
  let l := Z.of_nat (length data) in
  let k := (BLOCK + n)%nat in
  unchain fuel l (l - 16 - Z.of_nat (S n)) (take (S k) data ++ drop (S k) (unchained data)) =
  unchain (pred fuel) l (l - 16 - Z.of_nat n) (take k data ++ drop k (unchained data)).
Proof.
  intros Hn Hl [|fuel] Hf l k; [lia|]. unfold usize_max, usize_bits, BLOCK in *. subst k.
  assert (Hhi : usize_sub (usize_sub l (l - 16 - Z.of_nat (S n))) 1 = Z.of_nat (16 + n))
    by (rewrite (usize_sub_small l) by (unfold usize_max, usize_bits; lia); rewrite usize_sub_small by (unfold usize_max, usize_bits; lia); lia).
  assert (Hlo : usize_sub (usize_sub l (l - 16 - Z.of_nat (S n))) 17 = Z.of_nat n)
    by (rewrite (usize_sub_small l) by (unfold usize_max, usize_bits; lia); rewrite usize_sub_small by (unfold usize_max, usize_bits; lia); lia).
  destruct (lookup_lt_is_Some_2 data (16 + n)) as [x Hx]; [lia|].
  destruct (lookup_lt_is_Some_2 data n) as [y Hy]; [lia|].
  cbn [unchain pred]. rewrite Hhi, Hlo, (proj2 (Z.ltb_lt _ _)) by (rewrite usize_sub_small by (unfold usize_max, usize_bits; lia); lia).
  rewrite (at_usize_ok _ (16 + n) x), (at_usize_ok _ n y)
    by (rewrite lookup_app_l by (rewrite length_take; lia); by rewrite lookup_take_lt by lia).
  cbn [mbind res_bind]. rewrite Nat2Z.id, insert_boundary.
  - f_equal. lia.
  - by rewrite length_unchained.
  - by apply unchained_hi.
Qed.

Lemma unchain_spec data n fuel :
  (n + BLOCK <= length data)%nat -> Z.of_nat (length data) <= usize_max -> (n <= fuel)%nat ->
  let l := Z.of_nat (length data) in
  unchain fuel l (l - 16 - Z.of_nat n) (take (BLOCK + n) data ++ drop (BLOCK + n) (unchained data)) = Ok (unchained data).
Proof.
  intros Hn Hl. revert fuel. induction n as [|n IH]; intros fuel Hf l.
  - replace (l - 16 - Z.of_nat 0) with (l - 16) by lia. rewrite Nat.add_0_r.
    replace (take BLOCK data) with (take BLOCK (unchained data)).
    + rewrite take_drop. destruct fuel; cbn [unchain];
        rewrite usize_sub_small by (unfold usize_max, usize_bits, BLOCK in *; lia); by rewrite Z.ltb_irrefl.
    + apply list_eq. intros j. destruct (decide (j < BLOCK)%nat).
      * rewrite !lookup_take_lt by done. by apply unchained_lo.
      * rewrite !lookup_take_ge by lia. done.
  - rewrite (Nat.add_succ_r BLOCK n). subst l. rewrite unchain_round by (unfold BLOCK in *; lia).
    apply IH; lia.
Qed.

Lemma decrypt_loop_spec data :
  (BLOCK <= length data)%nat -> Z.of_nat (length data) <= usize_max ->
  unchain (S (length data)) (Z.of_nat (length data)) 0 data = Ok (unchained data).
Proof.
  intros Hb Hl. pose proof (unchain_spec data (length data - BLOCK) (S (length data))) as H.
  cbn zeta in H. unfold BLOCK in *.
  replace (Z.of_nat (length data) - 16 - Z.of_nat (length data - 16)) with 0 in H by lia.
  replace (16 + (length data - 16))%nat with (length data) in H by lia.
  rewrite firstn_all, drop_ge, app_nil_r in H by (rewrite length_unchained; lia). apply H; lia.
Qed.

Lemma length_chain plain prev : length prev = BLOCK -> length (chain prev plain) = length plain.
Proof.
  revert prev. induction plain as [|b plain IH]; intros [|p prev] Hp; try done. simpl. f_equal. apply IH.
  rewrite length_app. simpl in *. lia.
Qed.

Lemma chain_inverse plain prev :
  length prev = BLOCK -> zip_with Z.lxor (chain prev plain) (prev ++ chain prev plain) = plain.
Proof.
  revert prev. induction plain as [|b plain IH]; intros [|p prev] Hp; try done. simpl. f_equal.
  - by rewrite Z.lxor_assoc, Z.lxor_nilpotent, Z.lxor_0_r.
  - rewrite <- (IH (prev ++ [Z.lxor b p])) at 3 by (rewrite length_app; simpl in *; lia). by rewrite <- app_assoc.
Qed.

Lemma unchained_chained plain : unchained (chained plain) = plain.
Proof. apply chain_inverse. by rewrite length_replicate. Qed.

Lemma lor_shiftl a h k : 0 <= k -> 0 <= a < 2 ^ k -> Z.lor a (Z.shiftl h k) = a + h * 2 ^ k.
Proof.
  intros Hk Ha. assert (Hd : Z.land a (Z.shiftl h k) = 0).
  { apply Z.bits_inj'. intros j Hj. rewrite Z.land_spec, Z.bits_0. destruct (Z.lt_ge_cases j k).
    - rewrite Z.shiftl_spec_low by lia. apply andb_false_r.
    - rewrite <- (Z.mod_small a (2 ^ k)) by lia. by rewrite Z.mod_pow2_bits_high by lia. }
  rewrite <- Z.lxor_lor, <- Z.add_nocarry_lxor, Z.shiftl_mul_pow2 by done. lia.
Qed.

Lemma byte_low_bits b : is_byte b -> Z.land b 128 = 128 * (b / 128) /\ Z.land b 127 = b mod 128.
Proof.
  intros Hb.
  assert (H : forallb (fun b => (Z.land b 128 =? 128 * (b / 128)) && (Z.land b 127 =? b mod 128)) (seqZ 0 256) = true)
    by (vm_compute; reflexivity).
  rewrite forallb_forall in H. specialize (H b).
  rewrite andb_true_iff, !Z.eqb_eq in H. apply H, list_elem_of_In, elem_of_seqZ. unfold is_byte in Hb. lia.
Qed.

Lemma read_write_int n rest : 0 <= n < 32768 -> read_int (write_int n ++ rest) = Ok (n, rest).
Proof.
  intros Hn. unfold write_int, read_int. destruct (n <? 128) eqn:H; bool_to_prop; simpl; unfold mbind, res_bind.
  - destruct (byte_low_bits n) as [-> _]; [split; lia|]. by rewrite Z.div_small by lia.
  - pose proof (Z.mod_pos_bound n 128 ltac:(lia)) as Hm. pose proof (Z.div_mod n 128 ltac:(lia)) as Hd.
    destruct (byte_low_bits (128 + n mod 128)) as [-> ->]; [split; lia|].
    replace ((128 + n mod 128) / 128) with 1 by (apply (Z.div_unique _ _ _ (n mod 128)); lia).
    replace ((128 + n mod 128) mod 128) with (n mod 128) by (apply (Z.mod_unique _ _ 1); lia). simpl.
    rewrite lor_shiftl by lia. unfold mret, res_ret. do 2 f_equal. lia.
Qed.

Lemma read_write_bytes l rest :
  Z.of_nat (length l) < 32768 -> read_bytes (write_int (Z.of_nat (length l)) ++ l ++ rest) = Ok (l, rest).
Proof.
  intros Hl. unfold read_bytes. rewrite read_write_int by lia. cbn [mbind res_bind].
  rewrite Nat2Z.id, (proj2 (Nat.leb_le _ _)) by (rewrite length_app; lia).
  by rewrite take_app_length, drop_app_length.
Qed.

Lemma auth_type_roundtrip t : auth_type_from_i32 (auth_type_value t) = Some t.
Proof. by destruct t. Qed.

Lemma read_write_blob pad1 pad2 pad3 skipped user c :
  username c = Some user -> Z.of_nat (length skipped) < 32768 -> Z.of_nat (length (auth_data c)) < 32768 ->
  read_blob user (write_blob pad1 pad2 pad3 skipped c) = Ok c.
Proof.
  intros Hu Hs Hd. unfold read_blob, write_blob. cbn [app read_u8 raise mbind res_bind].
  rewrite read_write_bytes by done. cbn [app read_u8 raise mbind res_bind].
  rewrite read_write_int by (destruct (auth_type c); simpl; lia). cbn [app read_u8 raise mbind res_bind].
  rewrite auth_type_roundtrip. cbn [ok_or raise mbind res_bind].
  rewrite <- (app_nil_r (auth_data c)) at 2. rewrite read_write_bytes by done. cbn [raise mbind res_bind].
  destruct c. simpl in *. by subst.
Qed.

Section inverse.
Context (decrypt_block encrypt_block : list Z -> list Z -> list Z) (key : list Z).
Hypothesis decrypt_encrypt : forall b, length b = BLOCK -> decrypt_block key (encrypt_block key b) = b.
Hypothesis length_encrypt : forall b, length b = BLOCK -> length (encrypt_block key b) = BLOCK.

Lemma length_encrypt_chunks n data :
  (n * BLOCK <= length data)%nat -> length (encrypt_chunks encrypt_block key n data) = length data.
Proof.
  revert data. induction n as [|n IH]; intros data Hn; [done|].
  cbn [encrypt_chunks]. rewrite length_app, length_encrypt, IH, length_drop; rewrite ?length_take, ?length_drop; lia.
Qed.

Lemma decrypt_encrypt_chunks n data :
  (n * BLOCK <= length data)%nat -> decrypt_chunks decrypt_block key n (encrypt_chunks encrypt_block key n data) = data.
Proof.
  revert data. induction n as [|n IH]; intros data Hn; [done|].
  assert (Hb : length (take BLOCK data) = BLOCK) by (rewrite length_take; lia).
  cbn [encrypt_chunks decrypt_chunks].
  rewrite take_app_length', drop_app_length', decrypt_encrypt, IH, take_drop; rewrite ?length_encrypt, ?length_drop; done || lia.
Qed.

Lemma decrypt_encrypt_blob plain :
  (BLOCK <= length plain)%nat -> Z.of_nat (length plain) <= usize_max ->
  decrypt_blob decrypt_block key (encrypt_blob encrypt_block key plain) = Ok plain.
Proof.
  intros Hb Hl. unfold decrypt_blob, encrypt_blob.
  assert (Hc : length (chained plain) = length plain) by (apply length_chain; by rewrite length_replicate).
  assert (Hn : (length (chained plain) / BLOCK * BLOCK <= length (chained plain))%nat).
  { rewrite Nat.mul_comm. apply Nat.Div0.mul_div_le. }
  rewrite length_encrypt_chunks, decrypt_encrypt_chunks by done.
  rewrite decrypt_loop_spec by (rewrite Hc; done). by rewrite unchained_chained.
Qed.
End inverse.

(** A device on the network that encodes credentials in the blob format, with any base64 and
    AES-192 that decode what they encode, is understood: [with_blob] returns exactly those
    credentials. *)
Theorem with_blob_roundtrip (sha1 : list Z -> list Z) (pbkdf2 : list Z -> list Z -> Z -> nat -> list Z)
    (base64_decode base64_encode : list Z -> _) (decrypt_block encrypt_block : list Z -> list Z -> list Z)
    (Hsha : forall l, length (sha1 l) = 20%nat)
    (Hb64 : forall l, base64_decode (base64_encode l) = Some l)
    (Haes : forall k b, length b = BLOCK -> decrypt_block k (encrypt_block k b) = b)
    (Hlen : forall k b, length b = BLOCK -> length (encrypt_block k b) = BLOCK)
    (pad1 pad2 pad3 : Z) (skipped device_id : list Z) (user : string) (c : Credentials)
    (Hu : username c = Some user)
    (Hs : Z.of_nat (length skipped) < 32768) (Hd : Z.of_nat (length (auth_data c)) < 32768)
    (H16 : (BLOCK <= length skipped + length (auth_data c))%nat) :
  with_blob sha1 pbkdf2 base64_decode decrypt_block user
    (base64_encode (encrypt_blob encrypt_block (sha1 (pbkdf2 (sha1 device_id) (bytes user) 256 20%nat) ++ [0; 0; 0; 20])
                                 (write_blob pad1 pad2 pad3 skipped c))) device_id
  = Ok c.
Proof.
  unfold with_blob, blob_key. rewrite Hsha. cbn [Nat.eqb mbind res_bind]. rewrite Hb64. cbn [ok_or raise mbind res_bind].
  assert (Hl : (length skipped + length (auth_data c) <= length (write_blob pad1 pad2 pad3 skipped c) <= length skipped + length (auth_data c) + 9)%nat).
  { unfold write_blob. rewrite !length_app. unfold write_int. repeat case_if; simpl; lia. }
  change (be_split 4 20) with [0; 0; 0; 20].
  rewrite (decrypt_encrypt_blob _ _ _ (Haes _) (Hlen _)) by (unfold usize_max, usize_bits; lia). cbn [mbind res_bind].
  by apply read_write_blob.
Qed.

(** A blob shorter than one block makes the difference [l - 0x10] wrap around: the program panics. *)
Theorem short_blob_panics (decrypt_block : list Z -> list Z -> list Z) (key data : list Z) (Hl : (length data < BLOCK)%nat) :
  decrypt_blob decrypt_block key data = Panic.
Proof.
  unfold decrypt_blob. rewrite Nat.div_small by done. cbn [decrypt_chunks unchain].
  assert (H : forall k, Z.of_nat (length data) < k <= 17 -> at_usize data (usize_sub (usize_sub (Z.of_nat (length data)) 0) k) = Panic).
  { intros k Hk. unfold BLOCK in Hl. rewrite (usize_sub_small _ 0) by (unfold usize_max, usize_bits; lia). unfold at_usize.
    replace (usize_sub _ k) with (2 ^ 32 + Z.of_nat (length data) - k); [by rewrite (proj2 (Z.ltb_ge _ _)) by lia|].
    unfold usize_sub, wrap, usize_bits. apply (Z.mod_unique _ _ (-1)); lia. }
  rewrite (proj2 (Z.ltb_lt _ _)).
  - destruct (decide (length data = 0%nat)) as [H0|H0].
    + by rewrite (H 1) by lia.
    + destruct (at_usize_cases data (usize_sub (usize_sub (Z.of_nat (length data)) 0) 1)) as [->|[x ->]]; [done|].
      cbn [mbind res_bind]. by rewrite (H 17) by (unfold BLOCK in *; lia).
  - unfold usize_sub, wrap, usize_bits, BLOCK in *.
    replace ((Z.of_nat (length data) - 16) mod 2 ^ 32) with (2 ^ 32 + Z.of_nat (length data) - 16); [lia|].
    apply (Z.mod_unique _ _ (-1)); lia.
Qed.

(** ** Examples *)

Definition ex_block (key block : list Z) : list Z := map (Z.lxor 90) block.
Definition ex_credentials : Credentials :=
  mkCredentials (Some "radio") AUTHENTICATION_STORED_SPOTIFY_CREDENTIALS (seqZ 1 200).

Lemma with_blob_roundtrip_witness :
  with_blob (fun _ => replicate 20 7) (fun s _ _ _ => s) Some ex_block "radio"
    (encrypt_blob ex_block (replicate 20 7 ++ [0; 0; 0; 20]) (write_blob 73 80 81 [9; 9; 9] ex_credentials)) [1; 2]
  = Ok ex_credentials.
Proof.
  refine (with_blob_roundtrip (fun _ => replicate 20 7) (fun s _ _ _ => s) Some (fun l => l) ex_block ex_block
            _ _ _ _ 73 80 81 [9; 9; 9] [1; 2] "radio" ex_credentials _ _ _ _); try done.
  - intros k b _. unfold ex_block. rewrite map_map. rewrite <- (map_id b) at 2. apply map_ext. intros a.
    by rewrite <- Z.lxor_assoc, Z.lxor_nilpotent, Z.lxor_0_l.
  - intros k b Hb. unfold ex_block. by rewrite length_map.
  - apply Nat.leb_le. vm_compute. reflexivity.
Defined.

Example ex_with_blob :
  with_blob (fun _ => replicate 20 7) (fun s _ _ _ => s) Some ex_block "radio"
    (encrypt_blob ex_block (replicate 20 7 ++ [0; 0; 0; 20]) (write_blob 73 80 81 [9; 9; 9] ex_credentials)) [1; 2]
  = Ok ex_credentials.
Proof. vm_compute. reflexivity. Qed.
