(* ===== verification/Date.v ===== *)
(** * Dates ([native/librespot/core/src/date.rs]) and signed integers

    A [Date] is a point in time in nanoseconds since 1970. The calendar belongs to the [time] crate:
    the range it represents and the conversion of a calendar date are parameters. *)
From S2P Require Import Prelude Text Errors.

(** ** Signed integers *)

(** Arithmetic of [i64], and casts to it. *)
Definition as_i64 (z : Z) : Z := wrap 64 (z + 2 ^ 63) - 2 ^ 63.
Definition as_u64 (z : Z) : Z := wrap 64 z.
(** [a.saturating_sub(b)] on [i64] *)
Definition i64_saturating_sub (a b : Z) : Z := Z.max (- 2 ^ 63) (Z.min (2 ^ 63 - 1) (a - b)).

(** [i64::from_str] and the like: an optional sign, then at least one digit; out of range is an error. *)
Definition parse_int (w : Z) (s : string) : option Z :=
  match s with
  | String "-" s' =>
      if is_empty s' then None
      else n ← parse_digits w 0 s'; if n <=? 2 ^ (w - 1) then Some (- n) else None
  | _ => parse_uint (w - 1) s
  end.

Lemma as_i64_small z : - 2 ^ 63 <= z < 2 ^ 63 -> as_i64 z = z.
Proof. intros Hz. unfold as_i64. rewrite wrap_small by (unfold fits; lia). lia. Qed.

Lemma parse_int_show w n : 0 < w -> 0 <= n < 2 ^ (w - 1) -> parse_int w (show_Z n) = Some n.
Proof.
  intros Hw Hn. pose proof (show_Z_no_char n "-"%char eq_refl) as Hc.
  assert (Hp : parse_uint (w - 1) (show_Z n) = Some n) by (by apply parse_show).
  unfold parse_int. destruct (show_Z n) as [|c s]; [done|]. simpl in Hc. apply andb_true_iff in Hc as [Hc _].
  destruct (Ascii.eqb_spec c "-"); [by subst|]. destruct c as [[] [] [] [] [] [] [] []]; done.
Qed.

(** ** Dates *)

Abbreviation Date := Z (only parsing).

Definition as_timestamp_ms (d : Date) : Z := as_i64 (Z.quot d 1000000).

(** The fields of the [Date] message of the metadata; month and day can be missing. *)
Record DateMessage := mkDateMessage {
  dm_year : Z; dm_month : option Z; dm_day : option Z; dm_hour : Z; dm_minute : Z
}.

Section calendar.
Context (date_min date_max : Z).
(** [Month::try_from(u8)], [Date::from_calendar_date] and [Time::from_hms] *)
Context (month_from : Z -> option Z) (from_calendar_date : Z -> Z -> Z -> option Z) (from_hms : Z -> Z -> Z -> option Z).

(** [OffsetDateTime::from_unix_timestamp_nanos] *)
Definition from_unix_nanos (ns : Z) : option Date :=
  if (date_min <=? ns) && (ns <=? date_max) then Some ns else None.

Definition from_timestamp_ms (ms : Z) : res Error Date :=
  raise (ok_or ComponentRange (from_unix_nanos (ms * 1000000))).

(** [OffsetDateTime::saturating_sub] *)
Definition date_saturating_sub (d duration : Z) : Date := Z.max date_min (Z.min date_max (d - duration)).

(** [as u8] keeps the low byte of the protocol's integers. *)
Definition date_from_message (msg : DateMessage) : res Error Date :=
  let month := match dm_month msg with Some m => wrap 8 m | None => 1 end in
  let day := match dm_day msg with Some d => wrap 8 d | None => 1 end in
  month ← raise (ok_or ComponentRange (month_from month));
  date ← raise (ok_or ComponentRange (from_calendar_date (dm_year msg) month day));
  time ← raise (ok_or ComponentRange (from_hms (wrap 8 (dm_hour msg)) (wrap 8 (dm_minute msg)) 0));
  mret (date + time).

Lemma timestamp_roundtrip ms d :
  - 2 ^ 63 <= ms < 2 ^ 63 -> from_timestamp_ms ms = Ok d -> as_timestamp_ms d = ms.
Proof.
  intros Hms. unfold from_timestamp_ms, from_unix_nanos. case_if; [|done]. intros [= <-].
  unfold as_timestamp_ms. rewrite Z.quot_mul by lia. by apply as_i64_small.
Qed.
End calendar.
