(* ===== verification/CdnUrl.v ===== *)
(** * CDN addresses ([native/librespot/core/src/cdn_url.rs])

    The addresses an audio file can be fetched from, with the time they expire: each content
    network writes it differently into the query. Parsing a URL belongs to the [url] crate:
    [url_parse] gives the query and its decoded pairs. *)
From S2P Require Import Prelude Text SpotifyId Errors Date.

Record MaybeExpiringUrl := mkUrl { url_string : string; url_expiry : option Date }.

(** Five minutes, in nanoseconds. *)
Definition CDN_URL_EXPIRY_MARGIN : Z := 5 * 60 * 1000000000.

Record CdnUrl := mkCdnUrl { cdn_file_id : FileId; urls : list MaybeExpiringUrl }.

Definition cdn_url_new (file_id : FileId) : CdnUrl := mkCdnUrl file_id [].

(** [StorageResolveResponse] *)
Inductive StorageResult := CDN | STORAGE | RESTRICTED.
Record CdnUrlMessage := mkCdnUrlMessage { msg_result : StorageResult; msg_cdnurl : list string; msg_fileid : list Z }.

(** What the [url] crate tells: [query()] and [query_pairs()]. *)
Record Url := mkUrlParts { query : option string; query_pairs : list (string * string) }.

(** [now < expiry], or no expiry *)
Definition usable (now : Z) (u : MaybeExpiringUrl) : bool :=
  match url_expiry u with Some expiry => now <? expiry | None => true end.

Definition try_get_url (now : Z) (c : CdnUrl) : res Error string :=
  match urls c with
  | [] => Err (into_error Unresolved)
  | _ => match List.find (usable now) (urls c) with
         | Some url => Ok (url_string url)
         | None => Err (into_error Expired)
         end
  end.

Definition try_get_urls (now : Z) (c : CdnUrl) : res Error (list string) :=
  match urls c with
  | [] => Err (into_error Unresolved)
  | _ => match map url_string (List.filter (usable now) (urls c)) with
         | [] => Err (into_error Expired)
         | l => Ok l
         end
  end.

(** [s.split_once(c)] and [&s\[..s.find(c)\]]: what is before the first [c]. *)
Fixpoint before (c : ascii) (s : string) : option string :=
  match s with
  | EmptyString => None
  | String a s => if Ascii.eqb a c then Some EmptyString else String a <$> before c s
  end.

(** [query_pairs().find(|(key, _)| key == name)] *)
Definition find_pair (name : string) (u : Url) : option string :=
  snd <$> List.find (fun p => String.eqb p.1 name) (query_pairs u).

(** The text of the expiry time, by the format of the query. *)
Definition expiry_str (u : Url) : option string :=
  match find_pair "verify" u with
  | Some token => before "-" token
  | None =>
  match find_pair "__token__" u with
  | Some token =>
      match find_from token "exp=" with
      | Some rest => let slice := String.substring 4 (String.length rest - 4) rest in
                     Some (match before "~" slice with Some s => s | None => slice end)
      | None => None
      end
  | None =>
  match find_pair "Expires" u with
  | Some token => before "~" token
  | None =>
  match query u with
  | Some q => head (split "_" q)
  | None => None
  end end end end.

Section parsing.
Context (date_min date_max : Z) (url_parse : string -> option Url).

(** [expiry_parsed * 1_000] is an [i64] product, which wraps around. *)
Definition expiry_of (u : Url) : option Date :=
  s ← expiry_str u;
  expiry_parsed ← parse_int 64 s;
  expiry_at ← res_ok (from_timestamp_ms date_min date_max (as_i64 (expiry_parsed * 1000)));
  Some (date_saturating_sub date_min date_max expiry_at CDN_URL_EXPIRY_MARGIN).

Definition maybe_expiring (is_expiring : bool) (cdn_url : string) : res Error MaybeExpiringUrl :=
  url ← raise (ok_or UrlParseError (url_parse cdn_url));
  mret (mkUrl cdn_url (if is_expiring then expiry_of url else None)).

(** [collect::<Result<Vec<_>, _>>()]: the first error ends it. *)
Fixpoint collect {A B} (f : A -> res Error B) (l : list A) : res Error (list B) :=
  match l with
  | [] => Ok []
  | a :: l => b ← f a; bs ← collect f l; mret (b :: bs)
  end.

Definition urls_try_from (msg : CdnUrlMessage) : res Error (list MaybeExpiringUrl) :=
  match msg_result msg with
  | CDN => collect (maybe_expiring (bool_decide (msg_fileid msg <> []))) (msg_cdnurl msg)
  | _ => Err (into_error Storage)
  end.

(** [response] is what [get_audio_storage] returned. *)
Definition resolve_audio (parse_message : list Z -> option CdnUrlMessage) (response : res Error (list Z)) (c : CdnUrl) :
    res Error CdnUrl :=
  response ← response;
  msg ← raise (ok_or ProtobufError (parse_message response));
  urls ← urls_try_from msg;
  mret (mkCdnUrl (cdn_file_id c) urls).
End parsing.

(** ** Lemmas *)

Lemma before_append c a b : no_char c a = true -> before c (String.append a (String c b)) = Some a.
Proof.
  induction a as [|x a IH]; simpl; [by rewrite Ascii.eqb_refl|].
  intros [Hx Ha]%andb_true_iff. apply negb_true_iff in Hx. by rewrite Hx, IH.
Qed.

Lemma collect_ok {A B} (f : A -> res Error B) l bs :
  collect f l = Ok bs -> Forall2 (fun a b => f a = Ok b) l bs.
Proof.
  revert bs. induction l as [|a l IH]; intros bs; simpl; [intros [= <-]; constructor|].
  destruct (f a) as [b| |] eqn:Hf; [|done..]. simpl. destruct (collect f l) as [bs'| |]; [|done..].
  intros [= <-]. constructor; [done|by apply IH].
Qed.

Lemma try_get_urls_spec now c l :
  try_get_urls now c = Ok l -> l = map url_string (List.filter (usable now) (urls c)) /\ l <> [].
Proof.
  unfold try_get_urls. destruct (urls c); [done|].
  destruct (map url_string (List.filter (usable now) _)); [done|]. by intros [= <-].
Qed.

(** The four formats of the networks; [ts] is in seconds. *)
Definition carries_expiry (u : Url) (ts : Z) : Prop :=
  (exists rest, find_pair "verify" u = Some (String.append (show_Z ts) (String "-" rest))) \/
  (find_pair "verify" u = None /\
   exists rest, find_pair "__token__" u = Some (String.append "exp=" (String.append (show_Z ts) (String "~" rest)))) \/
  (find_pair "verify" u = None /\ find_pair "__token__" u = None /\
   exists rest, find_pair "Expires" u = Some (String.append (show_Z ts) (String "~" rest))) \/
  (find_pair "verify" u = None /\ find_pair "__token__" u = None /\ find_pair "Expires" u = None /\
   exists rest, query u = Some (String.append (show_Z ts) (String "_" rest))).

Lemma carries_expiry_str u ts : carries_expiry u ts -> expiry_str u = Some (show_Z ts).
Proof.
  unfold expiry_str. intros [[rest ->]|[(-> & rest & ->)|[(-> & -> & rest & ->)|(-> & -> & -> & rest & ->)]]].
  - by apply before_append, show_Z_no_char.
  - assert (Hf : forall s, find_from (String.append "exp=" s) "exp=" = Some (String.append "exp=" s)) by (by intros []).
    rewrite Hf. cbn [String.append String.length String.substring]. rewrite !Nat.sub_succ, Nat.sub_0_r, substring_all.
    by rewrite before_append by (by apply show_Z_no_char).
  - by apply before_append, show_Z_no_char.
  - by rewrite split_append by (by apply show_Z_no_char).
Qed.

Lemma expiry_of_timestamp date_min date_max u ts :
  carries_expiry u ts -> 0 <= ts < 2 ^ 53 -> date_min + CDN_URL_EXPIRY_MARGIN <= ts * 1000000000 <= date_max ->
  expiry_of date_min date_max u = Some (ts * 1000000000 - CDN_URL_EXPIRY_MARGIN).
Proof.
  intros Hc Hts Hr. unfold expiry_of. rewrite (carries_expiry_str _ _ Hc). cbn [mbind option_bind].
  rewrite parse_int_show by lia. cbn [mbind option_bind]. rewrite as_i64_small by lia.
  unfold from_timestamp_ms, from_unix_nanos. replace (ts * 1000 * 1000000) with (ts * 1000000000) by lia.
  unfold CDN_URL_EXPIRY_MARGIN in *. rewrite (proj2 (Z.leb_le _ _)), (proj2 (Z.leb_le _ _)) by lia.
  cbn [andb ok_or raise res_ok mbind option_bind]. unfold date_saturating_sub. f_equal. lia.
Qed.

(** ** Theorems *)

(** Every address handed out stays valid for the next five minutes: if the query of the address
    carries its expiry time in one of the formats of the networks, the time is more than the margin
    away. Addresses keep the order of the server, and the first of them is what [try_get_url]
    returns. *)
Theorem urls_handed_out_are_fresh (date_min date_max : Z) (url_parse : string -> option Url) (msg : CdnUrlMessage)
    (file_id : FileId) (us : list MaybeExpiringUrl) (now : Z) (l : list string)
    (Hfrom : urls_try_from date_min date_max url_parse msg = Ok us) (Hexp : msg_fileid msg <> [])
    (Hget : try_get_urls now (mkCdnUrl file_id us) = Ok l) :
  sublist l (msg_cdnurl msg) /\ try_get_url now (mkCdnUrl file_id us) = ok_or (into_error Expired) (head l) /\
  forall address u ts, address ∈ l -> url_parse address = Some u -> carries_expiry u ts -> 0 <= ts < 2 ^ 53 ->
    date_min + CDN_URL_EXPIRY_MARGIN <= ts * 1000000000 <= date_max ->
    now + CDN_URL_EXPIRY_MARGIN < ts * 1000000000.
Proof.
  apply try_get_urls_spec in Hget as [-> Hne]. cbn [urls] in *.
  unfold urls_try_from in Hfrom. destruct (msg_result msg); try done. apply collect_ok in Hfrom.
  rewrite bool_decide_true in Hfrom by done.
  assert (Hstr : Forall2 (fun a b => b = mkUrl a (url_parse a ≫= expiry_of date_min date_max) /\ is_Some (url_parse a)) (msg_cdnurl msg) us).
  { eapply Forall2_impl; [exact Hfrom|]. intros a b Hb. unfold maybe_expiring in Hb. destruct (url_parse a) as [u|]; [|done].
    injection Hb as <-. by split; [|eexists]. }
  assert (Hmap : map url_string us = msg_cdnurl msg).
  { clear -Hstr. induction Hstr as [|a b l us [-> _] _ IH]; [done|]. simpl. by rewrite IH. }
  split_and!.
  - rewrite <- Hmap. clear. induction us as [|x us IH]; [constructor|]. simpl.
    destruct (usable now x); simpl; by constructor.
  - unfold try_get_url. cbn [urls]. destruct us as [|x us]; [done|]. clear -Hne. induction (x :: us) as [|y ys IH]; [done|].
    simpl in *. destruct (usable now y); [done|]. by apply IH.
  - intros address u ts Hin Hu Hc Hts Hr. apply list_elem_of_fmap in Hin as (x & -> & Hin).
    apply list_elem_of_In, filter_In in Hin as [Hx Hus]. apply list_elem_of_In, list_elem_of_lookup in Hx as [i Hi].
    destruct (Forall2_lookup_r _ _ _ _ _ Hstr Hi) as (a & _ & -> & _). cbn [url_string] in Hu. unfold usable in Hus.
    cbn [url_expiry] in Hus. rewrite Hu in Hus. cbn [mbind option_bind] in Hus.
    rewrite (expiry_of_timestamp date_min date_max u ts) in Hus by done. bool_to_prop. lia.
Qed.

(** ** Examples *)

Definition ex_parse (s : string) : option Url :=
  if String.eqb s "cf" then Some (mkUrlParts None [("verify", "1750549951-4R3I2w2q7Of")])
  else if String.eqb s "ak" then Some (mkUrlParts None [("__token__", "exp=1688165560~hmac=4e66")])
  else if String.eqb s "gm" then Some (mkUrlParts None [("Expires", "1688165560~FullPath~hmac=IIZA")])
  else if String.eqb s "fa" then Some (mkUrlParts (Some "1688165560_0GKSyXjL") [("1688165560_0GKSyXjL", "")])
  else Some (mkUrlParts (Some "baz") [("baz", "")]).
Definition ex_msg : CdnUrlMessage := mkCdnUrlMessage CDN ["cf"; "ak"; "gm"; "fa"; "plain"] [0].
Definition ex_min : Z := -377705116800 * 1000000000.
Definition ex_max : Z := 253402300799 * 1000000000.

(** The values of the unit test of the source. *)
Example ex_urls :
  urls_try_from ex_min ex_max ex_parse ex_msg =
  Ok [mkUrl "cf" (Some ((1750549951 - 300) * 1000000000)); mkUrl "ak" (Some ((1688165560 - 300) * 1000000000));
      mkUrl "gm" (Some ((1688165560 - 300) * 1000000000)); mkUrl "fa" (Some ((1688165560 - 300) * 1000000000)); mkUrl "plain" None].
Proof. vm_compute. reflexivity. Qed.

Lemma urls_handed_out_are_fresh_witness :
  1700000000 * 1000000000 + CDN_URL_EXPIRY_MARGIN < 1750549951 * 1000000000.
Proof.
  destruct (urls_handed_out_are_fresh ex_min ex_max ex_parse ex_msg [] _ (1700000000 * 1000000000) ["cf"; "plain"] ex_urls
              ltac:(discriminate) ltac:(vm_compute; reflexivity)) as (_ & _ & H).
  apply (H "cf" (mkUrlParts None [("verify", "1750549951-4R3I2w2q7Of")])).
  - apply list_elem_of_In. left. reflexivity.
  - reflexivity.
  - left. exists "4R3I2w2q7Of". vm_compute. reflexivity.
  - lia.
  - unfold ex_min, ex_max, CDN_URL_EXPIRY_MARGIN. lia.
Defined.
