(* ===== verification/ApResolve.v ===== *)
(** * Access points ([native/librespot/core/src/apresolve.rs])

    The addresses of the three services, asked from a resolver over HTTP and used up one by one.
    The answer of the resolver is an argument ([fetch]). *)
From S2P Require Import Prelude Text Config Errors.

Abbreviation SocketAddress := (string * Z)%type.

Record AccessPoints := mkAccessPoints {
  accesspoint : list SocketAddress; dealer : list SocketAddress; spclient : list SocketAddress
}.
Definition no_access_points : AccessPoints := mkAccessPoints [] [] [].

Record ApResolveData := mkApResolveData { ap_strings : list string; dealer_strings : list string; spclient_strings : list string }.

Definition ap_default : ApResolveData := mkApResolveData [] [] [].
Definition fallback : ApResolveData :=
  mkApResolveData ["ap.spotify.com:443"] ["dealer.spotify.com:443"] ["spclient.wg.spotify.com:443"].

Definition is_any_empty (a : AccessPoints) : bool :=
  match accesspoint a, dealer a, spclient a with
  | _ :: _, _ :: _, _ :: _ => false
  | _, _, _ => true
  end.

Definition port_config (c : SessionConfig) : option Z :=
  match proxy c, ap_port c with
  | None, None => None
  | _, _ => Some (default 443 (ap_port c))
  end.

(** [s.rsplitn(2, c)]: what is before and after the last [c]. *)
Fixpoint rsplit_once (c : ascii) (s : string) : option (string * string) :=
  match s with
  | EmptyString => None
  | String a s =>
      match rsplit_once c s with
      | Some (host, port) => Some (String a host, port)
      | None => if Ascii.eqb a c then Some (EmptyString, s) else None
      end
  end.

(** Without a colon there is no host, and the entry is dropped. *)
Definition process_ap (filter_port : option Z) (ap : string) : option SocketAddress :=
  '(host, port) ← rsplit_once ":" ap;
  port ← parse_uint 16 port;
  match filter_port with
  | Some p => if p =? port then Some (host, port) else None
  | None => Some (host, port)
  end.

Definition process_ap_strings (c : SessionConfig) (data : list string) : list SocketAddress :=
  omap (process_ap (port_config c)) data.

Definition parse_resolve_to_access_points (c : SessionConfig) (r : ApResolveData) : AccessPoints :=
  mkAccessPoints (process_ap_strings c (ap_strings r)) (process_ap_strings c (dealer_strings r))
                 (process_ap_strings c (spclient_strings r)).

(** [fetch] is the result of [try_apresolve]. *)
Definition apresolve (c : SessionConfig) (fetch : res Error ApResolveData) : AccessPoints :=
  let data := parse_resolve_to_access_points c (match fetch with Ok data => data | _ => ap_default end) in
  if is_any_empty data then
    let f := parse_resolve_to_access_points c fallback in
    mkAccessPoints (accesspoint data ++ accesspoint f) (dealer data ++ dealer f) (spclient data ++ spclient f)
  else data.

(** [pop_front] of the endpoint's list, [None] for an unknown endpoint. *)
Definition pop_front (endpoint : string) (a : AccessPoints) : option (option SocketAddress * AccessPoints) :=
  if String.eqb endpoint "accesspoint" then
    Some (head (accesspoint a), mkAccessPoints (tail (accesspoint a)) (dealer a) (spclient a))
  else if String.eqb endpoint "dealer" then
    Some (head (dealer a), mkAccessPoints (accesspoint a) (tail (dealer a)) (spclient a))
  else if String.eqb endpoint "spclient" then
    Some (head (spclient a), mkAccessPoints (accesspoint a) (dealer a) (tail (spclient a)))
  else None.

Definition resolve (c : SessionConfig) (fetch : res Error ApResolveData) (endpoint : string) (a : AccessPoints) :
    res Error SocketAddress * AccessPoints :=
  let a := if is_any_empty a then apresolve c fetch else a in
  match pop_front endpoint a with
  | None => (Err (unimplemented (EMessage "No implementation to resolve access point")), a)
  | Some (Some access_point, a) => (Ok access_point, a)
  | Some (None, a) => (Err (unavailable (EMessage "No access point available for endpoint")), a)
  end.

#[global] Arguments process_ap_strings : simpl never.

(** ** Lemmas *)

Definition endpoint_list (endpoint : string) (a : AccessPoints) : list SocketAddress :=
  if String.eqb endpoint "accesspoint" then accesspoint a
  else if String.eqb endpoint "dealer" then dealer a else spclient a.

Definition known (endpoint : string) : Prop := endpoint = "accesspoint" \/ endpoint = "dealer" \/ endpoint = "spclient".

Lemma pop_front_list endpoint a :
  known endpoint ->
  exists a', pop_front endpoint a = Some (head (endpoint_list endpoint a), a') /\
             endpoint_list endpoint a' = tail (endpoint_list endpoint a).
Proof. intros [-> | [-> | ->]]; by eexists. Qed.

Lemma not_any_empty endpoint a : known endpoint -> is_any_empty a = false -> endpoint_list endpoint a <> [].
Proof. destruct a as [[|x a] [|y d] [|z s]]; by intros [-> | [-> | ->]]. Qed.

Definition port_allowed (c : SessionConfig) (addr : SocketAddress) : Prop :=
  match port_config c with Some p => addr.2 = p | None => True end.

Lemma process_ap_allowed c ap addr : process_ap (port_config c) ap = Some addr -> port_allowed c addr.
Proof.
  unfold process_ap, port_allowed. destruct (rsplit_once ":" ap) as [[host port]|]; [|done]. simpl.
  destruct (parse_uint 16 port) as [p|]; [|done]. simpl. destruct (port_config c) as [q|]; [|done].
  case_if; [|done]. by intros [= <-].
Qed.

Lemma process_ap_strings_allowed c l : Forall (port_allowed c) (process_ap_strings c l).
Proof.
  unfold process_ap_strings. induction l as [|s l IH]; simpl; [constructor|].
  destruct (process_ap (port_config c) s) eqn:Hp; [|done]. constructor; [by eapply process_ap_allowed|done].
Qed.

Lemma apresolve_allowed c fetch endpoint : known endpoint -> Forall (port_allowed c) (endpoint_list endpoint (apresolve c fetch)).
Proof.
  intros [-> | [-> | ->]]; unfold apresolve; case_if; cbn;
    rewrite ?Forall_app; try split; apply process_ap_strings_allowed.
Qed.

Lemma apresolve_nonempty c fetch endpoint :
  known endpoint -> port_config c = None \/ port_config c = Some 443 -> endpoint_list endpoint (apresolve c fetch) <> [].
Proof.
  intros Hk Hp. unfold apresolve. case_if; [|by apply not_any_empty].
  assert (Hf : parse_resolve_to_access_points c fallback =
               mkAccessPoints [("ap.spotify.com", 443)] [("dealer.spotify.com", 443)] [("spclient.wg.spotify.com", 443)]).
  { unfold parse_resolve_to_access_points, process_ap_strings. by destruct Hp as [-> | ->]. }
  rewrite Hf. destruct Hk as [-> | [-> | ->]]; cbn; by intros [_ ?]%app_nil.
Qed.

(** What the resolver keeps: every list only has addresses the configuration allows. *)
Definition ap_inv (c : SessionConfig) (a : AccessPoints) : Prop :=
  forall endpoint, known endpoint -> Forall (port_allowed c) (endpoint_list endpoint a).

(** ** Theorems *)

(** Unless a port other than 443 is configured, an address is found for every service, whatever
    the resolver answers; the addresses are used in the order of preference; and an address on
    another port than the configured one is never returned. *)
Theorem resolve_finds_address (c : SessionConfig) (fetch : res Error ApResolveData) (endpoint : string) (a : AccessPoints)
    (Hk : known endpoint) (Hinv : ap_inv c a) :
  let '(r, a') := resolve c fetch endpoint a in
  ap_inv c a' /\
  (forall addr, r = Ok addr -> port_allowed c addr) /\
  (port_config c = None \/ port_config c = Some 443 -> exists addr, r = Ok addr) /\
  (forall addr l, is_any_empty a = false -> endpoint_list endpoint a = addr :: l -> r = Ok addr /\ endpoint_list endpoint a' = l).
Proof.
  unfold resolve. set (a1 := if is_any_empty a then apresolve c fetch else a).
  assert (Hinv1 : ap_inv c a1).
  { unfold a1. destruct (is_any_empty a); [|done]. intros e He. by apply apresolve_allowed. }
  assert (Hne : port_config c = None \/ port_config c = Some 443 -> endpoint_list endpoint a1 <> []).
  { unfold a1. intros Hp. destruct (is_any_empty a) eqn:He; [by apply apresolve_nonempty|by apply not_any_empty]. }
  assert (Hsame : is_any_empty a = false -> a1 = a) by (unfold a1; by intros ->).
  clearbody a1. destruct (pop_front_list endpoint a1 Hk) as (a' & Hpop & Htail). rewrite Hpop.
  assert (Hinv' : ap_inv c a').
  { intros e He. specialize (Hinv1 e He).
    assert (endpoint_list e a' = endpoint_list e a1 \/ endpoint_list e a' = tail (endpoint_list e a1)) as [-> | ->]; [|done|].
    - destruct Hk as [-> | [-> | ->]]; injection Hpop as <-; destruct He as [-> | [-> | ->]]; cbn; auto.
    - destruct (endpoint_list e a1); [done|]. by inversion Hinv1. }
  specialize (Hinv1 endpoint Hk). destruct (endpoint_list endpoint a1) as [|x l0] eqn:Hl; cbn [head].
  - split_and!; [done|done| |].
    + intros Hp. by destruct (Hne Hp).
    + intros addr l He Ha. rewrite (Hsame He) in Hl. congruence.
  - split_and!; [done| |by eexists|].
    + intros addr [= <-]. by inversion Hinv1.
    + intros addr l He Ha. rewrite (Hsame He) in Hl. rewrite Hl in Ha. injection Ha as -> ->. by rewrite Htail.
Qed.

(** With another port configured the fallback addresses, which are all on port 443, are filtered out
    like the others: when the resolver cannot be reached there is no address for any service. *)
Theorem fallback_filtered (c : SessionConfig) (p : Z) (e : Error) (endpoint : string)
    (Hp : port_config c = Some p) (Hne : p <> 443) (Hk : known endpoint) :
  exists err, resolve c (Err e) endpoint no_access_points = (Err err, no_access_points) /\ kind err = Unavailable.
Proof.
  assert (Ha : apresolve c (Err e) = no_access_points).
  { unfold apresolve, parse_resolve_to_access_points, process_ap_strings. rewrite Hp. cbn [omap list_omap ap_default ap_strings
      dealer_strings spclient_strings is_any_empty accesspoint dealer spclient fallback].
    assert (Hf : forall s h, rsplit_once ":" s = Some (h, "443") -> process_ap (Some p) s = None).
    { intros s h Hs. unfold process_ap. rewrite Hs. cbn [mbind option_bind].
      change (parse_uint 16 "443") with (Some 443). cbn [mbind option_bind]. by rewrite (proj2 (Z.eqb_neq _ _)). }
    by rewrite (Hf "ap.spotify.com:443" _ eq_refl), (Hf "dealer.spotify.com:443" _ eq_refl),
      (Hf "spclient.wg.spotify.com:443" _ eq_refl). }
  unfold resolve. change (is_any_empty no_access_points) with true. rewrite Ha.
  destruct Hk as [-> | [-> | ->]]; cbn; eauto.
Qed.

Definition ex_config (port : option Z) : SessionConfig := mkSessionConfig "" "" None port "" None.

Definition ex_fetch : res Error ApResolveData :=
  Ok (mkApResolveData ["ap-gew1.spotify.com:4070"; "ap-gew1.spotify.com:443"] ["d:443"] ["bad"]).

Example ex_resolve :
  resolve (ex_config None) ex_fetch "accesspoint" no_access_points =
  (Ok ("ap-gew1.spotify.com", 4070),
   mkAccessPoints [("ap-gew1.spotify.com", 443); ("ap.spotify.com", 443)] [("d", 443); ("dealer.spotify.com", 443)]
                  [("spclient.wg.spotify.com", 443)]).
Proof. vm_compute. reflexivity. Qed.

Lemma resolve_finds_address_witness :
  exists addr, (resolve (ex_config None) ex_fetch "accesspoint" no_access_points).1 = Ok addr.
Proof.
  pose proof (resolve_finds_address (ex_config None) ex_fetch "accesspoint" no_access_points
                ltac:(left; reflexivity) ltac:(intros e [-> | [-> | ->]]; constructor)) as H.
  destruct (resolve (ex_config None) ex_fetch "accesspoint" no_access_points) as [r a'].
  exact (proj1 (proj2 (proj2 H)) (or_introl eq_refl)).
Defined.

Lemma fallback_filtered_witness :
  exists err, resolve (ex_config (Some 4070)) (Err (unknown (EMessage ""))) "spclient" no_access_points = (Err err, no_access_points) /\
              kind err = Unavailable.
Proof. apply (fallback_filtered (ex_config (Some 4070)) 4070); [reflexivity|discriminate|right; right; reflexivity]. Defined.
