(* ===== verification/Tokens.v ===== *)
(** * Access tokens ([native/librespot/core/src/token.rs])

    Tokens are cached with the time they were received and given out again until shortly before
    they expire. Times and durations are in nanoseconds. The answer of the key server and the JSON
    decoder are arguments. *)
From S2P Require Import Prelude Text Errors.

Record Token := mkToken {
  access_token : string;
  expires_in : Z;
  token_type : string;
  scopes : list string;
  timestamp : Z
}.

Record TokenData := mkTokenData { td_access_token : string; td_expires_in : Z; td_token_type : string; td_scope : list string }.

Definition SECOND : Z := 1000000000.
Definition EXPIRY_THRESHOLD : Z := 10 * SECOND.

(** [SystemTime + Duration] panics when the seconds leave an [i64]. *)
Definition time_add (t d : Z) : option Z := if t + d <? 2 ^ 63 * SECOND then Some (t + d) else None.

(** [None] is the panic. *)
Definition is_expired (now : Z) (t : Token) : option bool :=
  e ← time_add (timestamp t) (Z.max 0 (expires_in t - EXPIRY_THRESHOLD)); Some (e <? now).

Fixpoint in_scope_loop (scope : string) (l : list string) : bool :=
  match l with [] => false | s :: l => if String.eqb s scope then true else in_scope_loop scope l end.
Definition in_scope (scope : string) (t : Token) : bool := in_scope_loop scope (scopes t).

Fixpoint in_scopes (ss : list string) (t : Token) : bool :=
  match ss with [] => true | s :: ss => if negb (in_scope s t) then false else in_scopes ss t end.

Definition find_token (ss : list string) (tokens : list Token) : option nat := position (in_scopes ss) tokens.

Section provider.
Context (decode_json : string -> option TokenData).

Definition token_from_json (now : Z) (body : string) : res Error Token :=
  data ← raise (ok_or JsonError (decode_json body));
  mret (mkToken (td_access_token data) (td_expires_in data * SECOND) (td_token_type data) (td_scope data) now).

(** What follows a request: [payload] is the answer's payload. *)
Definition request_token (now : Z) (payload : res Error (list (list Z))) (tokens : list Token) : res Error Token * list Token :=
  match (payload ← payload;
         data ← raise (ok_or TokenEmpty (head payload));
         text ← raise (ok_or FromUtf8Error (from_utf8 data));
         token_from_json now text) with
  | Ok token => (Ok token, tokens ++ [token])
  | r => (r, tokens)
  end.

(** The query of the request: the scopes, the client and the device. *)
Definition token_query (ss client_id device_id : string) : string :=
  "hm://keymaster/token/authenticated?scope=" +:+ ss +:+ "&client_id=" +:+ client_id +:+ "&device_id=" +:+ device_id.

(** [get] is the answer of the key server to a query. *)
Definition get_token_with_client_id (now : Z) (get : string -> res Error (list (list Z))) (device_id ss client_id : string)
    (tokens : list Token) : res Error Token * list Token :=
  if is_empty client_id then (Err (invalid_argument (EMessage "Client ID cannot be empty")), tokens)
  else
    let fresh tokens := request_token now (get (token_query ss client_id device_id)) tokens in
    match find_token (split "," ss) tokens with
    | Some index =>
        match tokens !! index with
        | Some cached_token =>
            match is_expired now cached_token with
            | Some true => fresh (delete index tokens)
            | Some false => (Ok cached_token, tokens)
            | None => (Panic, tokens)
            end
        | None => (Panic, tokens)
        end
    | None => fresh tokens
    end.

Definition get_token (now : Z) (get : string -> res Error (list (list Z))) (device_id session_client_id ss : string)
    (tokens : list Token) : res Error Token * list Token :=
  get_token_with_client_id now get device_id ss session_client_id tokens.
End provider.

(** ** Lemmas *)

Lemma in_scope_spec s t : in_scope s t = true <-> s ∈ scopes t.
Proof.
  unfold in_scope. induction (scopes t) as [|x l IH]; simpl; [by rewrite elem_of_nil|].
  rewrite elem_of_cons, <- IH. destruct (String.eqb_spec x s) as [->|Hne]; intuition congruence.
Qed.

Lemma in_scopes_spec ss t : in_scopes ss t = true <-> forall s, s ∈ ss -> s ∈ scopes t.
Proof.
  induction ss as [|s ss IH]; simpl; [by split; [intros _ s []%not_elem_of_nil|]|].
  pose proof (in_scope_spec s t) as Hs. destruct (in_scope s t); simpl.
  - rewrite IH. split.
    + intros H x [->|Hx]%elem_of_cons; [by apply Hs|by apply H].
    + intros H x Hx. apply H. by right.
  - split; [done|]. intros H. apply Hs, H. by left.
Qed.

(** Until when a token is good. *)
Definition good_until (t : Token) : Z := timestamp t + expires_in t.

Lemma not_expired now t : is_expired now t = Some false -> EXPIRY_THRESHOLD <= expires_in t -> now + EXPIRY_THRESHOLD <= good_until t.
Proof.
  unfold is_expired, time_add, good_until. case_if; [|done]. simpl. intros [= Hn] He. bool_to_prop. lia.
Qed.

Lemma find_token_spec ss tokens i :
  find_token ss tokens = Some i -> exists t, tokens !! i = Some t /\ forall s, s ∈ ss -> s ∈ scopes t.
Proof.
  unfold find_token. intros (t & Ht & Hs & _)%position_Some. exists t. split; [done|]. by apply in_scopes_spec.
Qed.

(** ** Theorems *)

(** A token is either one that was cached, covers every requested scope and is good for at least
    another ten seconds (the cache is then left alone and nothing is requested), or the one the server
    just granted, which is cached; an expired token that covers the scopes is dropped. *)
Theorem token_is_good (decode_json : string -> option TokenData) (now : Z) (get : string -> res Error (list (list Z)))
    (device_id ss client_id : string) (tokens tokens' : list Token) (t : Token)
    (Hget : get_token_with_client_id decode_json now get device_id ss client_id tokens = (Ok t, tokens')) :
  (tokens' = tokens /\ t ∈ tokens /\ (forall s, s ∈ split "," ss -> s ∈ scopes t) /\
   (EXPIRY_THRESHOLD <= expires_in t -> now + EXPIRY_THRESHOLD <= good_until t)) \/
  (timestamp t = now /\ exists kept, tokens' = kept ++ [t] /\
   (kept = tokens \/ exists i old, tokens !! i = Some old /\ is_expired now old = Some true /\ kept = delete i tokens) /\
   exists payload data text, get (token_query ss client_id device_id) = Ok (data :: payload) /\ from_utf8 data = Some text /\
     token_from_json decode_json now text = Ok t).
Proof.
  assert (Hfresh : forall kept, request_token decode_json now (get (token_query ss client_id device_id)) kept = (Ok t, tokens') ->
            timestamp t = now /\ tokens' = kept ++ [t] /\
            exists payload data text, get (token_query ss client_id device_id) = Ok (data :: payload) /\ from_utf8 data = Some text /\
              token_from_json decode_json now text = Ok t).
  { intros kept. unfold request_token. destruct (get _) as [[|data payload]| |]; try done. simpl.
    destruct (from_utf8 data) as [text|] eqn:Hu; [|done]. simpl.
    destruct (token_from_json decode_json now text) as [t'| |] eqn:Hj; try done. intros [= <- <-].
    split_and!; [|done|by eexists _, _, _]. unfold token_from_json in Hj. destruct (decode_json text); [by injection Hj as <-|done]. }
  unfold get_token_with_client_id in Hget. destruct (is_empty client_id); [done|].
  destruct (find_token (split "," ss) tokens) as [i|] eqn:Hf.
  - apply find_token_spec in Hf as (c & Hc & Hs). rewrite Hc in Hget. destruct (is_expired now c) as [[]|] eqn:He; [| |done].
    + apply Hfresh in Hget as (Ht & -> & Hp). right. split; [done|]. eexists. split_and!; [done| |done]. right. eauto.
    + injection Hget as <- <-. left. split_and!; [done|by eapply list_elem_of_lookup_2|done|by apply not_expired].
  - apply Hfresh in Hget as (Ht & -> & Hp). right. split; [done|]. eexists. split_and!; [done|by left|done].
Qed.

(** The cache does not remember for which client a token was issued: a request for another client is
    given the cached token. *)
Theorem cached_token_ignores_client (decode_json : string -> option TokenData) (now : Z)
    (get : string -> res Error (list (list Z))) (device_id ss client1 client2 : string)
    (Hc1 : client1 <> "") (Hc2 : client2 <> "") (payload : list (list Z)) (data : list Z) (text : string) (t : Token)
    (Hget : get (token_query ss client1 device_id) = Ok (data :: payload)) (Hu : from_utf8 data = Some text)
    (Hj : token_from_json decode_json now text = Ok t)
    (Hs : forall s, s ∈ split "," ss -> s ∈ scopes t) (He : is_expired now t = Some false) :
  let '(_, tokens) := get_token_with_client_id decode_json now get device_id ss client1 [] in
  (get_token_with_client_id decode_json now get device_id ss client2 tokens).1 = Ok t.
Proof.
  unfold get_token_with_client_id. destruct client1 as [|c1 r1]; [done|]. destruct client2 as [|c2 r2]; [done|]. simpl.
  unfold request_token. rewrite Hget. simpl. rewrite Hu. simpl. rewrite Hj. simpl.
  unfold find_token. simpl. rewrite (proj2 (in_scopes_spec _ _) Hs). simpl. by rewrite He.
Qed.

(** ** Examples *)

Definition ex_token : Token := mkToken "abc" (3600 * SECOND) "Bearer" ["streaming"; "user-read-email"] (1000 * SECOND).
Definition ex_decode (s : string) : option TokenData := Some (mkTokenData s 3600 "Bearer" ["streaming"]).

Lemma token_is_good_witness :
  ex_token ∈ [ex_token] /\ 2000 * SECOND + EXPIRY_THRESHOLD <= good_until ex_token.
Proof.
  destruct (token_is_good ex_decode (2000 * SECOND) (fun _ => Err (into_error NotConnected)) "dev" "streaming" "cid" [ex_token] [ex_token] ex_token)
    as [(_ & Hin & _ & Hg)|(Ht & _)]; [vm_compute; reflexivity| |discriminate Ht].
  split; [exact Hin|]. apply Hg. vm_compute. discriminate.
Defined.

Lemma cached_token_ignores_client_witness :
  (get_token_with_client_id ex_decode 0 (fun _ => Ok [bytes "t"]) "dev" "streaming" "client-b"
     (get_token_with_client_id ex_decode 0 (fun _ => Ok [bytes "t"]) "dev" "streaming" "client-a" []).2).1
  = Ok (mkToken "t" (3600 * SECOND) "Bearer" ["streaming"] 0).
Proof.
  refine (cached_token_ignores_client ex_decode 0 (fun _ => Ok [bytes "t"]) "dev" "streaming" "client-a" "client-b"
    ltac:(discriminate) ltac:(discriminate) [] (bytes "t") "t" _ eq_refl eq_refl eq_refl _ eq_refl).
  intros s Hs. apply list_elem_of_In in Hs. destruct Hs as [<-|[]]. apply list_elem_of_In. left. reflexivity.
Defined.
