(* ===== verification/HttpClient.v ===== *)
(** * The HTTP client and hash cash ([native/librespot/core/src/http_client.rs], [util.rs], [version.rs])

    [send] is the library that performs a request: the answer to the [n]-th one, or the error it
    ends with; [rate_limited] is the rate limiter's answer and [clock] the time (milliseconds since
    1970) when the [n]-th answer is looked at. Header names are lower case, a header whose value is
    not text is [Some None]. *)
From S2P Require Import Prelude Text Errors Auth Date.

Definition RATE_LIMIT_MAX_WAIT : Z := 10 * 1000.

Record HttpRequest := mkHttpRequest { method : string; uri : string; headers : gmap string string; body : list Z }.
Record Response := mkResponse { status : Z; resp_headers : string -> option (option string); resp_body : res HyperError (list Z) }.

(** ** The user agent *)

Definition SPOTIFY_MOBILE_VERSION : string := "8.9.82.620".
Definition SPOTIFY_SEMANTIC_VERSION : string := "1.2.52.442".
Definition FALLBACK_USER_AGENT : string := "Spotify/124200290 Linux/0 (librespot)".

Definition is_mobile (os : string) : bool := String.eqb os "android" || String.eqb os "ios".
Definition spotify_version (os : string) : string := if is_mobile os then SPOTIFY_MOBILE_VERSION else show_Z 124200290.
Definition spotify_semantic_version (os : string) : string := if is_mobile os then SPOTIFY_MOBILE_VERSION else SPOTIFY_SEMANTIC_VERSION.

Definition user_agent (header_ok : string -> bool) (os os_version version_string : string) : string :=
  let '(spotify_platform, os_version) :=
    if String.eqb os "android" then ("Android", os_version)
    else if String.eqb os "ios" then ("iOS", os_version)
    else if String.eqb os "macos" then ("OSX", "0")
    else if String.eqb os "windows" then ("Win32", "0")
    else ("Linux", "0") in
  let s := "Spotify/" +:+ spotify_version os +:+ " " +:+ spotify_platform +:+ "/" +:+ os_version +:+ " (" +:+ version_string +:+ ")" in
  if header_ok s then s else FALLBACK_USER_AGENT.

(** ** Waiting *)

(** [Duration::from_millis(retry_after as u64)], unless it is too long *)
Definition bounded_wait (retry_after : Z) : option Z :=
  let duration := as_u64 retry_after in
  if duration <=? RATE_LIMIT_MAX_WAIT then Some duration else None.

Definition get_retry_after (from_iso8601 : string -> option Date) (now : Z) (h : string -> option (option string)) : option Z :=
  let retry_after_ms :=
    match h "x-ratelimit-next" with
    | Some v => s ← v; target ← from_iso8601 s; Some (i64_saturating_sub (as_timestamp_ms target) now)
    | None =>
    match h "fastly-ratelimit-reset" with
    | Some v => s ← v; target ← parse_int 64 s; Some (i64_saturating_sub target now)
    | None =>
    match h "retry-after" with
    | Some v => s ← v; duration ← parse_int 64 s; Some (as_i64 (duration * 1000))
    | None => None
    end end end in
  retry_after ← retry_after_ms; bounded_wait retry_after.

(** ** Requests *)

(** The last two labels of the host, put together without the dot. *)
Definition rate_domain (host : option string) : string :=
  match host with
  | Some host => let parts := split "." host in String.concat "" (drop (length parts - 2) parts)
  | None => ""
  end.

Section client.
Context (send : nat -> HttpRequest -> Response + bool) (rate_limited : nat -> string -> bool) (host_of : string -> option string)
        (from_iso8601 : string -> option Date) (clock : nat -> Z) (agent : string).

Definition request_fut (n : nat) (req : HttpRequest) : res Error HttpRequest :=
  let req := mkHttpRequest (method req) (uri req) (<["user-agent" := agent]> (headers req)) (body req) in
  if rate_limited n (rate_domain (host_of (uri req))) then Err (resource_exhausted (EMessage "rate limited")) else Ok req.

(** What the [n]-th answer leads to: an outcome, or a wait before the request is sent again. *)
Definition attempt (n : nat) (req : HttpRequest) : res Error Response + Z :=
  match request_fut n req with
  | Ok req =>
      match send n req with
      | inl response =>
          match (if status response =? 429 then get_retry_after from_iso8601 (clock n) (resp_headers response) else None) with
          | Some duration => inr duration
          | None =>
              if (200 <=? status response) && (status response <? 300) then inl (Ok response)
              else inl (Err (into_error (HttpStatusCode (status response))))
          end
      | inr is_connect => inl (Err (error_from_hyper_client is_connect))
      end
  | Err e => inl (Err e)
  | Panic => inl Panic
  end.

(** The loop has no bound of its own: [None] is a request that is still going on after [fuel] rounds.
    The second component is the time spent waiting. *)
Fixpoint request (fuel n : nat) (req : HttpRequest) : option (res Error Response * Z) :=
  match fuel with
  | O => None
  | S fuel =>
      match attempt n req with
      | inl r => Some (r, 0)
      | inr duration => '(r, waited) ← request fuel (S n) req; Some (r, duration + waited)
      end
  end.

Definition request_body (fuel n : nat) (req : HttpRequest) : option (res Error (list Z)) :=
  '(r, _) ← request fuel n req;
  Some (response ← r; raise (resp_body response)).
End client.

(** ** Hash cash *)

(** [i64::trailing_zeros] *)
Fixpoint trailing_zeros_go (n : nat) (z : Z) : Z :=
  match n with
  | O => 0
  | S n => if Z.odd z then 0 else 1 + trailing_zeros_go n (z / 2)
  end.
Definition trailing_zeros (z : Z) : Z := trailing_zeros_go 64 (as_u64 z).

Definition i64_be (z : Z) : list Z := be_split 8 (as_u64 z).

Section hash_cash.
(** [elapsed n] is the whole seconds gone by at the [n]-th round. *)
Context (sha1 : list Z -> list Z) (elapsed : nat -> Z).

Definition HASH_CASH_TIMEOUT : Z := 5.

(** [BigEndian::read_i64(&md\[12..20\])] *)
Definition digest_tail (md : list Z) : res Error Z :=
  tail ← slice md 12 20; Ok (as_i64 (be_combine tail)).

(** [target + counter] and [counter], big-endian *)
Definition cash_suffix (target counter : Z) : list Z := i64_be (target + counter) ++ i64_be counter.

(** [length as u32] *)
Definition solves (prefix suffix : list Z) (len : Z) : res Error bool :=
  tail ← digest_tail (sha1 (prefix ++ suffix));
  Ok (wrap 32 len <=? trailing_zeros tail).

Fixpoint cash_loop (fuel : nat) (prefix : list Z) (len target : Z) (n : nat) : option (res Error (list Z)) :=
  match fuel with
  | O => None
  | S fuel =>
      if HASH_CASH_TIMEOUT <=? elapsed n then Some (Err (deadline_exceeded (EMessage "seconds expired")))
      else
        let suffix := cash_suffix target (as_i64 (Z.of_nat n)) in
        match solves prefix suffix len with
        | Ok true => Some (Ok suffix)
        | Ok false => cash_loop fuel prefix len target (S n)
        | Err e => Some (Err e)
        | Panic => Some Panic
        end
  end.

Definition solve_hash_cash (fuel : nat) (ctx prefix : list Z) (len : Z) : option (res Error (list Z)) :=
  match digest_tail (sha1 ctx) with
  | Ok target => cash_loop fuel prefix len target 0
  | Err e => Some (Err e)
  | Panic => Some Panic
  end.
End hash_cash.

(** [util::get_next_query_separator] *)
Definition get_next_query_separator (url : string) : string := if no_char "?" url then "?" else "&".

(** ** Lemmas *)

Lemma trailing_zeros_spec n z k :
  0 <= z -> 0 <= k <= Z.of_nat n -> (k <= trailing_zeros_go n z) <-> z mod 2 ^ k = 0.
Proof.
  revert z k. induction n as [|n IH]; intros z k Hz Hk.
  - assert (k = 0) as -> by lia. simpl. rewrite Z.mod_1_r. lia.
  - cbn [trailing_zeros_go]. destruct (Z.eq_dec k 0) as [->|Hk0].
    + rewrite Z.mod_1_r. split; [done|]. intros _. destruct (Z.odd z); [lia|].
      assert (0 <= trailing_zeros_go n (z / 2)); [|lia]. apply IH; [apply Z.div_pos; lia|lia|apply Z.mod_1_r].
    + pose proof (Z.div_mod z 2 ltac:(lia)) as Hd. rewrite Zmod_odd in Hd.
      replace (2 ^ k) with (2 * 2 ^ (k - 1)) by (rewrite <- Z.pow_succ_r by lia; f_equal; lia).
      assert (0 < 2 ^ (k - 1)) by (apply Z.pow_pos_nonneg; lia).
      destruct (Z.odd z) eqn:Ho.
      * split; [lia|]. intros Hm. exfalso. apply Z.mod_divide in Hm as [q Hq]; [|lia]. lia.
      * rewrite Z.rem_mul_r by lia. rewrite Zmod_odd, Ho. specialize (IH (z / 2) (k - 1) ltac:(apply Z.div_pos; lia) ltac:(lia)).
        pose proof (Z.mod_pos_bound (z / 2) (2 ^ (k - 1)) ltac:(lia)). lia.
Qed.

Lemma length_cash_suffix target counter : length (cash_suffix target counter) = 16%nat.
Proof. unfold cash_suffix, i64_be. by rewrite length_app, !length_be_split. Qed.

Lemma cash_loop_sound sha1 elapsed fuel prefix len target n suffix :
  cash_loop sha1 elapsed fuel prefix len target n = Some (Ok suffix) ->
  length suffix = 16%nat /\ solves sha1 prefix suffix len = Ok true.
Proof.
  revert n. induction fuel as [|fuel IH]; intros n; cbn [cash_loop]; [done|]. case_if; [done|].
  destruct (solves sha1 prefix (cash_suffix target (as_i64 (Z.of_nat n))) len) as [[]|e|] eqn:Hs; try done; [|by apply IH].
  intros [= <-]. split; [apply length_cash_suffix|done].
Qed.

Lemma solves_returns sha1 prefix suffix len :
  (forall l, length (sha1 l) = 20%nat) -> exists b, solves sha1 prefix suffix len = Ok b.
Proof.
  intros Hl. unfold solves, digest_tail. rewrite slice_ok by (rewrite Hl; lia). by eexists.
Qed.

Lemma cash_loop_ends sha1 elapsed prefix len target N n fuel :
  (forall l, length (sha1 l) = 20%nat) -> HASH_CASH_TIMEOUT <= elapsed N -> (n <= N)%nat -> (N - n < fuel)%nat ->
  exists r, cash_loop sha1 elapsed fuel prefix len target n = Some r /\ r <> Panic.
Proof.
  intros Hl Ht. revert n. induction fuel as [|fuel IH]; intros n Hn Hf; [lia|]. cbn [cash_loop]. case_if; [by eexists|].
  destruct (solves_returns sha1 prefix (cash_suffix target (as_i64 (Z.of_nat n))) len Hl) as [[] ->]; [by eexists|].
  destruct (decide (n = N)) as [->|Hne]; [lia|]. apply IH; lia.
Qed.

(** ** Theorems *)

(** A solution of a hash cash challenge is one: it has 16 bytes, and the tail of the digest of
    prefix and solution is divisible by [2^length], which is what the server checks. The search ends
    once the clock passes five seconds, solved or not. *)
Theorem hash_cash_solved (sha1 : list Z -> list Z) (elapsed : nat -> Z) (ctx prefix : list Z) (len : Z) (N fuel : nat)
    (Hsha : forall l, length (sha1 l) = 20%nat) (Htime : HASH_CASH_TIMEOUT <= elapsed N) (Hf : (N < fuel)%nat) :
  exists r, solve_hash_cash sha1 elapsed fuel ctx prefix len = Some r /\ r <> Panic /\
    forall suffix, r = Ok suffix -> 0 <= len <= 64 ->
      length suffix = 16%nat /\
      exists t, digest_tail (sha1 (prefix ++ suffix)) = Ok t /\ as_u64 t mod 2 ^ len = 0.
Proof.
  unfold solve_hash_cash. unfold digest_tail at 1. rewrite slice_ok by (rewrite Hsha; lia). cbn [mbind res_bind].
  destruct (cash_loop_ends sha1 elapsed prefix len (as_i64 (be_combine (take (20 - 12) (drop 12 (sha1 ctx))))) N 0 fuel Hsha Htime ltac:(lia) ltac:(lia))
    as (r & Hr & Hp). rewrite Hr.
  exists r. split_and!; [done|done|]. intros suffix -> Hlen. apply cash_loop_sound in Hr as [Hl Hs]. split; [done|].
  unfold solves in Hs. destruct (digest_tail (sha1 (prefix ++ suffix))) as [t| |]; try done. cbn [mbind res_bind] in Hs.
  exists t. split; [done|]. injection Hs as Hs. bool_to_prop. rewrite wrap_small in Hs by (unfold fits; lia).
  unfold trailing_zeros in Hs. apply (trailing_zeros_spec 64) in Hs; [done| |done].
  unfold as_u64. apply wrap_fits. lia.
Qed.

(** A request is repeated exactly as long as the service says 429 with an acceptable time to wait,
    each wait lasts at most ten seconds, and the first other answer is the outcome: its response if
    the status is a success, an error of the matching kind otherwise. *)
Theorem request_outcome (send : nat -> HttpRequest -> Response + bool) (rate_limited : nat -> string -> bool)
    (host_of : string -> option string) (from_iso8601 : string -> option Date) (clock : nat -> Z) (agent : string)
    (req : HttpRequest) (N : nat) (waits : list Z) (r : res Error Response)
    (Hlen : length waits = N)
    (Hwaits : forall i d, waits !! i = Some d -> attempt send rate_limited host_of from_iso8601 clock agent i req = inr d)
    (Hlast : attempt send rate_limited host_of from_iso8601 clock agent N req = inl r) :
  (forall fuel, (N < fuel)%nat -> request send rate_limited host_of from_iso8601 clock agent fuel 0 req = Some (r, sum_Z waits)) /\
  0 <= sum_Z waits <= RATE_LIMIT_MAX_WAIT * Z.of_nat N /\
  (forall response, r = Ok response -> 200 <= status response < 300).
Proof.
  assert (Hbound : forall i d, attempt send rate_limited host_of from_iso8601 clock agent i req = inr d -> 0 <= d <= RATE_LIMIT_MAX_WAIT).
  { intros i d. unfold attempt. destruct (request_fut rate_limited host_of agent i req); [|done..].
    destruct (send i a) as [resp|]; [|done]. destruct (status resp =? 429); [|by case_if].
    unfold get_retry_after. set (ms := match resp_headers resp "x-ratelimit-next" with Some v => _ | None => _ end).
    destruct ms as [z|]; [|by case_if]. cbn [mbind option_bind]. unfold bounded_wait. case_if; [|by case_if].
    intros [= <-]. split; [|done]. unfold as_u64. apply wrap_fits. lia. }
  assert (Hall : Forall (fun d => 0 <= d <= RATE_LIMIT_MAX_WAIT) waits).
  { apply Forall_lookup. intros i d Hd. by eapply Hbound, Hwaits. }
  split_and!.
  - intros fuel Hf.
    assert (Hgen : forall k n fuel, (n + k = N)%nat -> (k < fuel)%nat ->
              request send rate_limited host_of from_iso8601 clock agent fuel n req = Some (r, sum_Z (drop n waits))).
    { induction k as [|k IH]; intros n [|f] Hn Hk; try lia; cbn [request].
      - rewrite Nat.add_0_r in Hn. subst n. rewrite Hlast. by rewrite drop_ge by lia.
      - destruct (lookup_lt_is_Some_2 waits n ltac:(lia)) as [d Hd]. rewrite (Hwaits _ _ Hd), (IH (S n)) by lia.
        cbn [mbind option_bind]. by rewrite (drop_S _ _ _ Hd). }
    rewrite (Hgen N 0%nat fuel) by lia. by rewrite drop_0.
  - clear -Hall. unfold sum_Z. induction Hall as [|d l Hd _ IH]; simpl; lia.
  - rewrite <- Hlen. clear -Hall. unfold sum_Z. induction Hall as [|d l Hd _ IH]; [simpl; lia|]. cbn [fold_right length]. lia.
  - intros response ->. unfold attempt in Hlast. destruct (request_fut rate_limited host_of agent N req); [|done..].
    destruct (send N a) as [resp|]; [|done].
    destruct (if status resp =? 429 then _ else _); [done|]. revert Hlast. case_if; [|done]. intros [= <-]. lia.
Qed.

(** A reset time in the past is not an immediate retry: the negative difference becomes an enormous
    unsigned duration and the request is given up. *)
Theorem past_reset_gives_up (from_iso8601 : string -> option Date) (now target : Z) (h : string -> option (option string))
    (Hx : h "x-ratelimit-next" = None) (Hf : h "fastly-ratelimit-reset" = Some (Some (show_Z target)))
    (Ht : 0 <= target < now) (Hnow : now < 2 ^ 62) :
  get_retry_after from_iso8601 now h = None.
Proof.
  unfold get_retry_after. rewrite Hx, Hf. cbn [mbind option_bind]. rewrite parse_int_show by lia. cbn [mbind option_bind].
  unfold bounded_wait, i64_saturating_sub, as_u64, wrap.
  replace (Z.max (- 2 ^ 63) (Z.min (2 ^ 63 - 1) (target - now))) with (target - now) by lia.
  replace ((target - now) mod 2 ^ 64) with (2 ^ 64 + target - now) by (apply (Z.mod_unique _ _ (-1)); lia).
  unfold RATE_LIMIT_MAX_WAIT. by rewrite (proj2 (Z.leb_gt _ _)) by lia.
Qed.

(** ** Examples *)

Definition ex_response (code : Z) (retry : option string) : Response :=
  mkResponse code (fun name => if String.eqb name "retry-after" then Some <$> retry else None) (Ok [1; 2]).
Definition ex_send (n : nat) (_ : HttpRequest) : Response + bool :=
  inl (if (n <? 2)%nat then ex_response 429 (Some "3") else ex_response 200 None).
Definition ex_req : HttpRequest := mkHttpRequest "GET" "https://apresolve.spotify.com/" ∅ [].

Lemma request_outcome_witness :
  request ex_send (fun _ _ => false) (fun _ => Some "apresolve.spotify.com") (fun _ => None) (fun _ => 0) "ua" 5 0 ex_req
  = Some (Ok (ex_response 200 None), 6000).
Proof.
  apply (request_outcome ex_send (fun _ _ => false) (fun _ => Some "apresolve.spotify.com") (fun _ => None) (fun _ => 0) "ua"
           ex_req 2 [3000; 3000] (Ok (ex_response 200 None))).
  - reflexivity.
  - intros [|[|i]] d Hd; simpl in Hd; [injection Hd as <-; vm_compute; reflexivity..|discriminate Hd].
  - reflexivity.
  - lia.
Defined.

Definition ex_sha (l : list Z) : list Z := replicate 12 0 ++ be_split 8 (le_combine (rev l)).

Lemma hash_cash_solved_witness :
  exists r, solve_hash_cash ex_sha (fun n => Z.of_nat n) 10 [] [1] 2 = Some r /\ r <> Panic /\
    forall suffix, r = Ok suffix -> 0 <= 2 <= 64 ->
      length suffix = 16%nat /\ exists t, digest_tail (ex_sha ([1] ++ suffix)) = Ok t /\ as_u64 t mod 2 ^ 2 = 0.
Proof.
  apply (hash_cash_solved ex_sha (fun n => Z.of_nat n) [] [1] 2 5 10).
  - intros l. unfold ex_sha. by rewrite length_app, length_be_split, length_replicate.
  - vm_compute. discriminate.
  - lia.
Defined.

Lemma past_reset_gives_up_witness :
  get_retry_after (fun _ => None) 1700000000000 (fun n => if String.eqb n "fastly-ratelimit-reset" then Some (Some "1700000001") else None) = None.
Proof.
  apply (past_reset_gives_up (fun _ => None) 1700000000000 1700000001
           (fun n => if String.eqb n "fastly-ratelimit-reset" then Some (Some "1700000001") else None)); [reflexivity|vm_compute; reflexivity|lia|lia].
Defined.
