(* ===== verification/DiffieHellman.v ===== *)
(** * Key exchange ([native/librespot/core/src/diffie_hellman.rs])

    The Diffie-Hellman key exchange of the connection to an access point. Big integers are [Z];
    [powm] is square and multiply as written. *)
From S2P Require Import Prelude.
From Stdlib Require Import Zpow_facts.

Definition DH_GENERATOR : Z := be_combine [2].
Definition DH_PRIME : Z := be_combine [
  255; 255; 255; 255; 255; 255; 255; 255; 201; 15; 218; 162; 33; 104; 194; 52; 196; 198; 98; 139; 128; 220; 28; 209;
  41; 2; 78; 8; 138; 103; 204; 116; 2; 11; 190; 166; 59; 19; 155; 34; 81; 74; 8; 121; 142; 52; 4; 221; 239; 149; 25;
  179; 205; 58; 67; 27; 48; 43; 10; 109; 242; 95; 20; 55; 79; 225; 53; 109; 109; 81; 194; 69; 228; 133; 181; 118; 98;
  94; 126; 198; 244; 76; 66; 233; 166; 58; 54; 32; 255; 255; 255; 255; 255; 255; 255; 255].

(** One bit of the exponent per round. *)
Fixpoint powm_loop (fuel : nat) (base exp modulus result : Z) : option Z :=
  if exp =? 0 then Some result
  else match fuel with
       | O => None
       | S fuel =>
           let result := if Z.odd exp then (result * base) mod modulus else result in
           powm_loop fuel ((base * base) mod modulus) (Z.shiftr exp 1) modulus result
       end.

Definition powm (base exp modulus : Z) : option Z := powm_loop (S (Z.to_nat (Z.log2 exp))) base exp modulus 1.

Record DhLocalKeys := mkDhLocalKeys { private_key : Z; public : Z }.

(** [BigUint::to_bytes_be]: no leading zeros, one byte for zero. *)
Definition to_bytes_be (z : Z) : list Z := be_split (S (Z.to_nat (Z.log2 z / 8))) z.

(** [random] is the 95 bytes drawn. *)
Definition dh_random (random : list Z) : option DhLocalKeys :=
  let private_key := le_combine random in
  public ← powm DH_GENERATOR private_key DH_PRIME;
  Some (mkDhLocalKeys private_key public).

Definition public_key (k : DhLocalKeys) : list Z := to_bytes_be (public k).

Definition shared_secret (remote_key : list Z) (k : DhLocalKeys) : option (list Z) :=
  shared ← powm (be_combine remote_key) (private_key k) DH_PRIME;
  Some (to_bytes_be shared).

(** ** Lemmas *)

Lemma powm_loop_spec fuel base exp m result :
  1 < m -> 0 <= exp -> exp < 2 ^ Z.of_nat fuel -> result mod m = result ->
  powm_loop fuel base exp m result = Some ((result * base ^ exp) mod m).
Proof.
  intros Hm. revert base exp result. induction fuel as [|fuel IH]; intros base exp result He Hlt Hr.
  - change (2 ^ Z.of_nat 0) with 1 in Hlt. assert (exp = 0) as -> by lia. simpl. by rewrite Z.mul_1_r, Hr.
  - cbn [powm_loop]. destruct (Z.eqb_spec exp 0) as [->|Hne]; [by rewrite Z.mul_1_r, Hr|].
    rewrite Nat2Z.inj_succ, Z.pow_succ_r in Hlt by lia.
    assert (Hs : Z.shiftr exp 1 = exp / 2) by (rewrite Z.shiftr_div_pow2 by lia; by rewrite Z.pow_1_r).
    rewrite Hs, IH; [|apply Z.div_pos; lia|apply Z.div_lt_upper_bound; lia|
      destruct (Z.odd exp); [by rewrite Zmod_mod|done]].
    f_equal. pose proof (Z.div_mod exp 2 ltac:(lia)) as Hd. rewrite Zmod_odd in Hd.
    assert (Hsq : ((base * base) mod m) ^ (exp / 2) mod m = base ^ (2 * (exp / 2)) mod m).
    { rewrite <- Zpower_mod by lia. f_equal. rewrite Z.pow_mul_r by (apply Z.div_pos || lia; lia). f_equal. lia. }
    rewrite <- Z.mul_mod_idemp_r, Hsq, Z.mul_mod_idemp_r by lia.
    destruct (Z.odd exp).
    + rewrite Z.mul_mod_idemp_l by lia. rewrite Hd at 2. rewrite Z.pow_add_r, Z.pow_1_r by (try apply Z.mul_nonneg_nonneg; try apply Z.div_pos; lia).
      f_equal. lia.
    + rewrite Z.add_0_r in Hd. by rewrite <- Hd.
Qed.

Lemma powm_spec base exp m : 1 < m -> 0 <= exp -> powm base exp m = Some (base ^ exp mod m).
Proof.
  intros Hm He. unfold powm. rewrite powm_loop_spec; [by rewrite Z.mul_1_l|done|done| |by rewrite Z.mod_small].
  destruct (Z.eq_dec exp 0) as [->|Hne]; [done|].
  rewrite Nat2Z.inj_succ, Z2Nat.id by apply Z.log2_nonneg. apply Z.log2_spec. lia.
Qed.

Lemma be_combine_to_bytes z : 0 <= z -> be_combine (to_bytes_be z) = z.
Proof.
  intros Hz. apply be_combine_split. split; [done|]. destruct (Z.eq_dec z 0) as [->|Hne]; [done|].
  pose proof (Z.log2_nonneg z). pose proof (Z.div_pos (Z.log2 z) 8 ltac:(lia) ltac:(lia)).
  rewrite Nat2Z.inj_succ, Z2Nat.id by done. change 256 with (2 ^ 8). rewrite <- Z.pow_mul_r by lia.
  eapply Z.lt_le_trans; [apply Z.log2_spec; lia|]. apply Z.pow_le_mono_r; [lia|].
  pose proof (Z.div_mod (Z.log2 z) 8 ltac:(lia)). pose proof (Z.mod_pos_bound (Z.log2 z) 8 ltac:(lia)). lia.
Qed.

Lemma DH_PRIME_large : 1 < DH_PRIME.
Proof. vm_compute. reflexivity. Qed.

Lemma le_combine_nonneg l : Forall is_byte l -> 0 <= le_combine l.
Proof. intros Hl. pose proof (le_combine_bounds l Hl). lia. Qed.

(** The keys of a party, from the bytes it drew. *)
Lemma dh_random_spec random :
  Forall is_byte random ->
  dh_random random = Some (mkDhLocalKeys (le_combine random) (DH_GENERATOR ^ le_combine random mod DH_PRIME)).
Proof.
  intros Hr. unfold dh_random. rewrite powm_spec by (apply DH_PRIME_large || by apply le_combine_nonneg). done.
Qed.

(** What both parties compute. *)
Definition dh_secret (a b : Z) : list Z := to_bytes_be (DH_GENERATOR ^ (a * b) mod DH_PRIME).

Lemma shared_secret_spec random remote :
  Forall is_byte random -> Forall is_byte remote ->
  shared_secret (to_bytes_be (DH_GENERATOR ^ le_combine remote mod DH_PRIME))
    (mkDhLocalKeys (le_combine random) (DH_GENERATOR ^ le_combine random mod DH_PRIME)) =
  Some (dh_secret (le_combine random) (le_combine remote)).
Proof.
  intros Hr Hs. pose proof DH_PRIME_large. pose proof (le_combine_nonneg _ Hr). pose proof (le_combine_nonneg _ Hs).
  unfold shared_secret. cbn [private_key]. rewrite be_combine_to_bytes by (apply Z.mod_pos_bound; lia).
  rewrite powm_spec by done. cbn [mbind option_bind]. unfold dh_secret. do 2 f_equal.
  rewrite <- Zpower_mod, <- Z.pow_mul_r by lia. do 2 f_equal. lia.
Qed.

(** ** Theorems *)

(** The two ends of the exchange agree: each computes the same secret from its own random bytes and
    the public key of the other. [powm] always ends, and is exponentiation modulo the prime. *)
Theorem dh_agreement (mine theirs : list Z) (Hm : Forall is_byte mine) (Ht : Forall is_byte theirs) :
  exists k1 k2 secret,
    dh_random mine = Some k1 /\ dh_random theirs = Some k2 /\
    shared_secret (public_key k2) k1 = Some secret /\ shared_secret (public_key k1) k2 = Some secret /\
    public k1 = DH_GENERATOR ^ le_combine mine mod DH_PRIME.
Proof.
  eexists _, _, (dh_secret (le_combine mine) (le_combine theirs)).
  split_and!; [by apply dh_random_spec|by apply dh_random_spec|by apply shared_secret_spec| |done].
  unfold public_key. cbn [public]. rewrite shared_secret_spec by done. unfold dh_secret. by rewrite Z.mul_comm.
Qed.

Lemma dh_agreement_witness :
  exists k1 k2 secret,
    dh_random [3; 1] = Some k1 /\ dh_random [5; 9] = Some k2 /\
    shared_secret (public_key k2) k1 = Some secret /\ shared_secret (public_key k1) k2 = Some secret.
Proof.
  destruct (dh_agreement [3; 1] [5; 9]) as (k1 & k2 & s & H1 & H2 & H3 & H4 & _).
  - apply (bool_decide_eq_true_1 (Forall is_byte _)). vm_compute. reflexivity.
  - apply (bool_decide_eq_true_1 (Forall is_byte _)). vm_compute. reflexivity.
  - exists k1, k2, s. repeat split; assumption.
Defined.
