(* ===== verification/Effect.v ===== *)
(** * Stateful code that can fail

    Methods on [&mut self] that return a [Result] and can end the program: [eff S E A] passes the
    state, keeps the changes of a failed call, and has [Panic] for a panic or an exit. [wp X m Q s]
    is the weakest precondition of [m] at [s]: [m] may end the program only when [X] holds, and
    otherwise its outcome and state satisfy [Q]. With [X := False] it shows that the program goes
    on, with [X := True] what holds when it does. *)
From S2P Require Import Prelude.

Definition eff (S E A : Type) : Type := S -> res E A * S.

#[global] Instance eff_ret {S E} : MRet (eff S E) := fun A a s => (Ok a, s).
#[global] Instance eff_bind {S E} : MBind (eff S E) := fun A B f m s =>
  match m s with
  | (Ok a, s) => f a s
  | (Err e, s) => (Err e, s)
  | (Panic, s) => (Panic, s)
  end.

Section effects.
Context {S E : Type}.

Definition gets {A} (f : S -> A) : eff S E A := fun s => (Ok (f s), s).
Definition modify (f : S -> S) : eff S E unit := fun s => (Ok tt, f s).
Definition throw {A} (e : E) : eff S E A := fun s => (Err e, s).
(** [exit(1)] and panics *)
Definition stop {A} : eff S E A := fun s => (Panic, s).
(** A method of a part of the state that returns a value. *)
Definition state {A} (f : S -> A * S) : eff S E A := fun s => let '(a, s) := f s in (Ok a, s).
(** [if let Err(e) = m { error!(..) }] *)
Definition ignore_error {A} (m : eff S E A) : eff S E unit := fun s =>
  match m s with
  | (Panic, s) => (Panic, s)
  | (_, s) => (Ok tt, s)
  end.

(** [let r = m], to be returned or inspected later *)
Definition catch {A} (m : eff S E A) : eff S E (res E A) := fun s =>
  match m s with
  | (Panic, s) => (Panic, s)
  | (r, s) => (Ok r, s)
  end.
Definition of_res {A} (r : res E A) : eff S E A := fun s => (r, s).

Definition wp {A} (X : Prop) (m : eff S E A) (Q : res E A -> S -> Prop) (s : S) : Prop :=
  match m s with
  | (Panic, _) => X
  | (r, s') => Q r s'
  end.

Lemma run_bind {A B} (m : eff S E A) (k : A -> eff S E B) s a s' : m s = (Ok a, s') -> (m ≫= k) s = k a s'.
Proof. intros H. unfold mbind, eff_bind. by rewrite H. Qed.

Lemma run_panic {A B} (m : eff S E A) (k : A -> eff S E B) s : (m s).1 = Panic -> ((m ≫= k) s).1 = Panic.
Proof. unfold mbind, eff_bind. by destruct (m s) as [[]]. Qed.

Lemma run_ext {A B} (m : eff S E A) (k k' : A -> eff S E B) s :
  (forall a s', m s = (Ok a, s') -> k a s' = k' a s') -> (m ≫= k) s = (m ≫= k') s.
Proof. unfold mbind, eff_bind. destruct (m s) as [[a|e|] s']; intros H; [by apply H|done|done]. Qed.

Lemma wp_mono {A} (X : Prop) (m : eff S E A) (Q Q' : res E A -> S -> Prop) s :
  (forall r s', r <> Panic -> Q r s' -> Q' r s') -> wp X m Q s -> wp X m Q' s.
Proof. unfold wp. destruct (m s) as [[a|e|] s']; intros H HQ; [by apply H|by apply H|done]. Qed.

Lemma wp_result {A} (m : eff S E A) (Q : res E A -> S -> Prop) s : wp False m Q s -> Q (m s).1 (m s).2.
Proof. unfold wp. by destruct (m s) as [[a|e|] s']. Qed.

Lemma wp_ret {A} (X : Prop) (a : A) (Q : res E A -> S -> Prop) s : Q (Ok a) s -> wp X (mret a) Q s.
Proof. done. Qed.

Lemma wp_bind {A B} (X : Prop) (m : eff S E A) (k : A -> eff S E B) (Q : res E B -> S -> Prop) s :
  wp X m (fun r s' => match r with Ok a => wp X (k a) Q s' | Err e => Q (Err e) s' | Panic => X end) s ->
  wp X (m ≫= k) Q s.
Proof. unfold wp, mbind, eff_bind. by destruct (m s) as [[a|e|] s']. Qed.

Lemma wp_gets {A} (X : Prop) (f : S -> A) (Q : res E A -> S -> Prop) s : Q (Ok (f s)) s -> wp X (gets f) Q s.
Proof. done. Qed.

Lemma wp_modify (X : Prop) (f : S -> S) (Q : res E unit -> S -> Prop) s : Q (Ok tt) (f s) -> wp X (modify f) Q s.
Proof. done. Qed.

Lemma wp_state {A} (X : Prop) (f : S -> A * S) (Q : res E A -> S -> Prop) s :
  Q (Ok (f s).1) (f s).2 -> wp X (state f) Q s.
Proof. unfold wp, state. by destruct (f s). Qed.

Lemma wp_throw {A} (X : Prop) e (Q : res E A -> S -> Prop) s : Q (Err e) s -> wp X (throw e) Q s.
Proof. done. Qed.

Lemma wp_stop {A} (X : Prop) (Q : res E A -> S -> Prop) s : X -> wp X stop Q s.
Proof. done. Qed.

Lemma wp_ignore_error {A} (X : Prop) (m : eff S E A) (Q : res E unit -> S -> Prop) s :
  wp X m (fun _ s' => Q (Ok tt) s') s -> wp X (ignore_error m) Q s.
Proof. unfold wp, ignore_error. by destruct (m s) as [[a|e|] s']. Qed.

Lemma wp_catch {A} (X : Prop) (m : eff S E A) (Q : res E (res E A) -> S -> Prop) s :
  wp X m (fun r s' => Q (Ok r) s') s -> wp X (catch m) Q s.
Proof. unfold wp, catch. by destruct (m s) as [[a|e|] s']. Qed.

Lemma wp_of_res {A} (X : Prop) (r : res E A) (Q : res E A -> S -> Prop) s : r <> Panic -> Q r s -> wp X (of_res r) Q s.
Proof. unfold wp, of_res. by destruct r. Qed.

(** Code that succeeds and keeps [I]. *)
Definition always (X : Prop) (I : S -> Prop) {A} (m : eff S E A) : Prop :=
  forall s, I s -> wp X m (fun r s' => is_ok r /\ I s') s.

Lemma always_bind (X : Prop) (I : S -> Prop) {A B} (m : eff S E A) (k : A -> eff S E B) :
  always X I m -> (forall a, always X I (k a)) -> always X I (m ≫= k).
Proof.
  intros Hm Hk s HI. apply wp_bind. eapply wp_mono; [|by apply Hm].
  intros [a|e|] s' Hr [Hok HI']; [by apply Hk|done|done].
Qed.

Lemma always_ret (X : Prop) (I : S -> Prop) {A} (a : A) : always X I (mret a).
Proof. by intros s HI. Qed.

Lemma always_gets (X : Prop) (I : S -> Prop) {A} (f : S -> A) : always X I (gets f).
Proof. by intros s HI. Qed.

Lemma always_modify (X : Prop) (I : S -> Prop) (f : S -> S) : (forall s, I s -> I (f s)) -> always X I (modify f).
Proof. intros Hf s HI. apply wp_modify. auto. Qed.

Lemma always_state (X : Prop) (I : S -> Prop) {A} (f : S -> A * S) : (forall s, I s -> I (f s).2) -> always X I (state f).
Proof. intros Hf s HI. apply wp_state. auto. Qed.

End effects.

(** A method of a part [t] of the state, whose errors are converted by [?]. *)
Definition zoom {S T E E' A} (get : S -> T) (set : T -> S -> S) (f : E -> E') (m : eff T E A) : eff S E' A := fun s =>
  match m (get s) with
  | (Ok a, t) => (Ok a, set t s)
  | (Err e, t) => (Err (f e), set t s)
  | (Panic, t) => (Panic, set t s)
  end.

Lemma wp_zoom {S T E E' A} (X : Prop) (get : S -> T) (set : T -> S -> S) (f : E -> E') (m : eff T E A)
    (Q : res E' A -> S -> Prop) s :
  wp X m (fun r t => match r with
                     | Ok a => Q (Ok a) (set t s)
                     | Err e => Q (Err (f e)) (set t s)
                     | Panic => X
                     end) (get s) ->
  wp X (zoom get set f m) Q s.
Proof. unfold wp, zoom. by destruct (m (get s)) as [[a|e|] t]. Qed.

(** Run a program symbolically up to the next call or case distinction. *)
Ltac wp_step :=
  match goal with
  | |- wp _ (_ ≫= _) _ _ => apply wp_bind
  | |- wp _ (mret _) _ _ => apply wp_ret
  | |- wp _ (gets _) _ _ => apply wp_gets
  | |- wp _ (modify _) _ _ => apply wp_modify
  | |- wp _ (state _) _ _ => apply wp_state
  | |- wp _ (throw _) _ _ => apply wp_throw
  | |- wp _ stop _ _ => apply wp_stop
  | |- wp _ (ignore_error _) _ _ => apply wp_ignore_error
  | |- wp _ (catch _) _ _ => apply wp_catch
  end; cbv beta iota.
Ltac wp_run := repeat wp_step.

(** Use a specification of a call. *)
Ltac wp_use H := eapply wp_mono; [|eapply H].

(** Run the first call of a sequence, whose result is known by computation or by [H]. *)
Ltac run_step := erewrite run_bind by reflexivity; cbv beta.
Ltac run_with H := erewrite run_bind by exact H; cbv beta.
