(* ===== verification/Handshake.v ===== *)
(** * The handshake with an access point ([native/librespot/core/src/connection/handshake.rs])

    Both sides exchange Diffie-Hellman keys in clear; the access point signs its own. The keys of
    the packet cipher are derived from the shared secret and everything that was sent so far.

    A connection is the bytes still to be received and the bytes sent. Protocol messages, SHA-1, HMAC
    and the RSA verification belong to other crates and are parameters, as is what is drawn at
    random. *)
From S2P Require Import Prelude Errors Codec DiffieHellman Effect.

Definition SERVER_KEY : list Z := [
  172; 224; 70; 11; 255; 194; 48; 175; 244; 107; 254; 195; 191; 191; 134; 61; 161; 145; 198; 204; 51; 108; 147; 161;
  79; 179; 176; 22; 18; 172; 172; 106; 241; 128; 231; 246; 20; 217; 66; 157; 190; 46; 52; 102; 67; 227; 98; 210; 50;
  122; 26; 13; 146; 59; 174; 221; 20; 2; 177; 129; 85; 5; 97; 4; 213; 44; 150; 164; 76; 30; 204; 2; 74; 212; 178; 12;
  0; 31; 23; 237; 194; 47; 196; 53; 33; 200; 240; 203; 174; 210; 173; 215; 43; 15; 157; 179; 197; 50; 26; 42; 254;
  89; 243; 90; 13; 172; 104; 241; 250; 98; 30; 251; 44; 141; 12; 183; 57; 45; 146; 71; 227; 215; 53; 26; 109; 189;
  36; 194; 174; 37; 91; 136; 255; 171; 115; 41; 138; 11; 204; 205; 12; 88; 103; 49; 137; 232; 189; 52; 128; 120; 74;
  95; 201; 107; 137; 157; 149; 107; 252; 134; 215; 79; 51; 166; 120; 23; 150; 201; 195; 45; 13; 50; 165; 171; 205; 5;
  39; 226; 247; 16; 163; 150; 19; 196; 47; 153; 192; 39; 191; 237; 4; 156; 60; 39; 88; 4; 182; 178; 25; 249; 193; 47;
  2; 233; 72; 99; 236; 161; 182; 66; 160; 157; 72; 37; 248; 179; 157; 208; 232; 106; 249; 72; 77; 161; 194; 186; 134;
  48; 66; 234; 157; 179; 8; 108; 25; 14; 72; 179; 157; 102; 235; 0; 6; 162; 90; 238; 161; 27; 19; 135; 60; 215; 25;
  230; 85; 189].

Definition SPOTIFY_VERSION : Z := 124200290.

Inductive Platform :=
| PLATFORM_WIN32_X86 | PLATFORM_OSX_X86 | PLATFORM_LINUX_X86 | PLATFORM_IPHONE_ARM | PLATFORM_OSX_PPC
| PLATFORM_WINDOWS_CE_ARM | PLATFORM_LINUX_X86_64 | PLATFORM_OSX_X86_64 | PLATFORM_LINUX_SH | PLATFORM_FREEBSD_X86
| PLATFORM_FREEBSD_X86_64 | PLATFORM_LINUX_MIPS | PLATFORM_LINUX_ARM | PLATFORM_LINUX_BLACKFIN | PLATFORM_IPHONE_ARM64
| PLATFORM_WIN32_X86_64.

Definition one_of (s : string) (l : list string) : bool := existsb (String.eqb s) l.

Definition platform_of (os arch : string) : Platform :=
  if one_of os ["freebsd"; "netbsd"; "openbsd"] then
    if one_of arch ["x86_64"] then PLATFORM_FREEBSD_X86_64 else PLATFORM_FREEBSD_X86
  else if one_of os ["ios"] then
    if one_of arch ["aarch64"] then PLATFORM_IPHONE_ARM64 else PLATFORM_IPHONE_ARM
  else if one_of os ["linux"; "android"] then
    if one_of arch ["arm"; "aarch64"] then PLATFORM_LINUX_ARM
    else if one_of arch ["blackfin"] then PLATFORM_LINUX_BLACKFIN
    else if one_of arch ["mips"] then PLATFORM_LINUX_MIPS
    else if one_of arch ["sh"] then PLATFORM_LINUX_SH
    else if one_of arch ["x86_64"] then PLATFORM_LINUX_X86_64
    else PLATFORM_LINUX_X86
  else if one_of os ["macos"] then
    if one_of arch ["ppc"; "ppc64"] then PLATFORM_OSX_PPC
    else if one_of arch ["x86_64"] then PLATFORM_OSX_X86_64
    else PLATFORM_OSX_X86
  else if one_of os ["windows"] then
    if one_of arch ["arm"; "aarch64"] then PLATFORM_WINDOWS_CE_ARM
    else if one_of arch ["x86_64"] then PLATFORM_WIN32_X86_64
    else PLATFORM_WIN32_X86
  else PLATFORM_LINUX_X86.

(** The fields [client_hello] sets; product, product flag and cipher suite are constants. *)
Record ClientHello := mkClientHello {
  ch_platform : Platform; ch_version : Z; ch_gc : list Z; ch_server_keys_known : Z; ch_client_nonce : list Z; ch_padding : list Z
}.

Record conn := mkConn { incoming : list Z; outgoing : list Z; write_error : option IoErrorKind }.

Abbreviation Io := (eff conn IoErrorKind).

Definition write_all (l : list Z) : Io unit := fun c =>
  match write_error c with
  | Some e => (Err e, c)
  | None => (Ok tt, mkConn (incoming c) (outgoing c ++ l) None)
  end.

(** [read_exact] into a buffer of [n] bytes *)
Definition recv_exact (n : Z) : Io (list Z) := fun c =>
  if n <=? Z.of_nat (length (incoming c)) then
    (Ok (take (Z.to_nat n) (incoming c)), mkConn (drop (Z.to_nat n) (incoming c)) (outgoing c) (write_error c))
  else (Err IoUnexpectedEof, mkConn [] (outgoing c) (write_error c)).

(** The longest vector. *)
Definition isize_max : Z := 2 ^ 31 - 1.

(** [acc.resize(offset + size, 0)] panics beyond [isize::MAX]; [&mut acc\[offset..\]] panics when the
    sum has wrapped around. Returns the bytes read and the accumulator. *)
Definition read_into_accumulator (size : Z) (acc : list Z) : Io (list Z * list Z) :=
  let offset := Z.of_nat (length acc) in
  let new_len := usize_add offset size in
  if isize_max <? new_len then stop
  else if new_len <? offset then stop
  else data ← recv_exact (new_len - offset); mret (data, acc ++ data).

(** [Vec::write_u32::<BigEndian>(size.try_into().unwrap())] *)
Definition size_prefix (size : Z) : res IoErrorKind (list Z) := if size <? 2 ^ 32 then Ok (be_split 4 size) else Panic.

Section handshake.
Context `{C : Cipher}.
Context (encode_hello : ClientHello -> list Z) (encode_response : list Z -> list Z)
        (parse_response : list Z -> res IoErrorKind (list Z * list Z))
        (sha1 : list Z -> list Z) (hmac_sha1 : list Z -> list Z -> option (list Z))
        (rsa_verify : list Z -> Z -> list Z -> list Z -> bool).

Definition hello_packet (os arch : string) (nonce gc : list Z) : ClientHello :=
  mkClientHello (platform_of os arch) SPOTIFY_VERSION gc 1 nonce [30].

Definition client_hello (os arch : string) (nonce gc : list Z) : Io (list Z) :=
  let packet := encode_hello (hello_packet os arch nonce gc) in
  size ← of_res (size_prefix (2 + 4 + Z.of_nat (length packet)));
  let buffer := [0; 4] ++ size ++ packet in
  _ ← write_all buffer;
  mret buffer.

Definition client_response (challenge : list Z) : Io unit :=
  let packet := encode_response challenge in
  size ← of_res (size_prefix (4 + Z.of_nat (length packet)));
  write_all (size ++ packet).

(** [size - 4] is a [usize] difference. *)
Definition recv_packet (acc : list Z) : Io ((list Z * list Z) * list Z) :=
  '(header, acc) ← read_into_accumulator 4 acc;
  let size := be_combine header in
  '(data, acc) ← read_into_accumulator (usize_sub size 4) acc;
  message ← of_res (parse_response data);
  mret (message, acc).

(** [for i in 1..6] *)
Fixpoint key_data (secret packets : list Z) (rounds : list Z) : res IoErrorKind (list Z) :=
  match rounds with
  | [] => Ok []
  | i :: rounds =>
      mac ← ok_or IoInvalidData (hmac_sha1 secret (packets ++ [i]));
      rest ← key_data secret packets rounds;
      mret (mac ++ rest)
  end.

Definition compute_keys (secret packets : list Z) : res IoErrorKind (list Z * list Z * list Z) :=
  data ← key_data secret packets [1; 2; 3; 4; 5];
  key ← slice data 0 20;
  mac ← ok_or IoInvalidData (hmac_sha1 key packets);
  send ← slice data 20 52;
  recv ← slice data 52 84;
  mret (mac, send, recv).

(** [random] is drawn for the key exchange, [nonce] for the greeting. An exponentiation that does not
    end would be [stop]. *)
Definition handshake (os arch : string) (random nonce : list Z) : Io ApCodec :=
  local_keys ← (match dh_random random with Some k => mret k | None => stop end);
  let gc := public_key local_keys in
  accumulator ← client_hello os arch nonce gc;
  '((remote_key, remote_signature), accumulator) ← recv_packet accumulator;
  _ ← (if rsa_verify SERVER_KEY 65537 (sha1 remote_key) remote_signature then mret tt else throw IoInvalidData);
  secret ← (match shared_secret remote_key local_keys with Some s => mret s | None => stop end);
  '(challenge, send_key, recv_key) ← of_res (compute_keys secret accumulator);
  let codec := codec_new send_key recv_key in
  _ ← client_response challenge;
  mret codec.
End handshake.

(** ** Lemmas *)

Lemma bind_ok_inv {S E A B} (m : eff S E A) (k : A -> eff S E B) s b s' :
  (m ≫= k) s = (Ok b, s') -> exists a s1, m s = (Ok a, s1) /\ k a s1 = (Ok b, s').
Proof. unfold mbind, eff_bind. destruct (m s) as [[a|e|] s1]; [|done..]. eauto. Qed.

Lemma read_into_accumulator_ok data rest acc c :
  incoming c = data ++ rest -> Z.of_nat (length acc) + Z.of_nat (length data) <= isize_max ->
  read_into_accumulator (Z.of_nat (length data)) acc c =
  (Ok (data, acc ++ data), mkConn rest (outgoing c) (write_error c)).
Proof.
  intros Hin Hlen. unfold isize_max in *. unfold read_into_accumulator.
  rewrite usize_add_small by (unfold usize_max, usize_bits; lia).
  rewrite (proj2 (Z.ltb_ge _ _)) by (unfold isize_max; lia). rewrite (proj2 (Z.ltb_ge _ _)) by lia.
  replace (Z.of_nat (length acc) + Z.of_nat (length data) - Z.of_nat (length acc)) with (Z.of_nat (length data)) by lia.
  assert (Hr : recv_exact (Z.of_nat (length data)) c = (Ok data, mkConn rest (outgoing c) (write_error c))).
  { unfold recv_exact. rewrite Hin, (proj2 (Z.leb_le _ _)) by (rewrite length_app; lia).
    by rewrite Nat2Z.id, take_app_length, drop_app_length. }
  by run_with Hr.
Qed.

(** What a successful step has read and written. *)
Lemma read_into_inv size acc x acc' s s' :
  read_into_accumulator size acc s = (Ok (x, acc'), s') ->
  acc' = acc ++ x /\ incoming s = x ++ incoming s' /\ outgoing s' = outgoing s.
Proof.
  unfold read_into_accumulator. repeat case_if; [done|done|]. intros (y & s1 & Hr & Hy)%bind_ok_inv.
  injection Hy as -> <- <-. revert Hr. unfold recv_exact. case_if; [|done]. intros [= <- <-].
  split_and!; [done| |done]. simpl. by rewrite take_drop.
Qed.

Lemma write_all_inv l c c' :
  write_all l c = (Ok tt, c') -> incoming c' = incoming c /\ outgoing c' = outgoing c ++ l.
Proof. unfold write_all. destruct (write_error c); [done|]. by intros [= <-]. Qed.

Lemma size_prefix_inv n size (c c' : conn) :
  of_res (size_prefix n) c = (Ok size, c') -> size = be_split 4 n /\ c' = c.
Proof. unfold size_prefix, of_res. case_if; [|done]. by intros [= <- <-]. Qed.

Lemma client_hello_inv encode_hello os arch nonce gc hello c c' :
  client_hello encode_hello os arch nonce gc c = (Ok hello, c') ->
  let packet := encode_hello (hello_packet os arch nonce gc) in
  hello = [0; 4] ++ be_split 4 (2 + 4 + Z.of_nat (length packet)) ++ packet /\
  incoming c' = incoming c /\ outgoing c' = outgoing c ++ hello.
Proof.
  unfold client_hello. cbv zeta. intros (size & c1 & [-> ->]%size_prefix_inv & Hok)%bind_ok_inv.
  apply bind_ok_inv in Hok as ([] & c2 & [Hi Ho]%write_all_inv & Hok). injection Hok as <- <-. done.
Qed.

Lemma client_response_inv encode_response challenge c c' :
  client_response encode_response challenge c = (Ok tt, c') ->
  exists response, outgoing c' = outgoing c ++ response.
Proof.
  unfold client_response. cbv zeta. intros (size & c1 & [-> ->]%size_prefix_inv & [_ Ho]%write_all_inv)%bind_ok_inv. eauto.
Qed.

(** The frame of a message of the access point. *)
Definition server_packet (m : list Z) : list Z := be_split 4 (4 + Z.of_nat (length m)) ++ m.

Lemma recv_packet_ok (parse_response : list Z -> res IoErrorKind (list Z * list Z)) m rest acc c :
  incoming c = server_packet m ++ rest -> Z.of_nat (length acc) + 4 + Z.of_nat (length m) <= isize_max ->
  recv_packet parse_response acc c =
  (match parse_response m with Ok msg => Ok (msg, acc ++ server_packet m) | Err e => Err e | Panic => Panic end,
   mkConn rest (outgoing c) (write_error c)).
Proof.
  intros Hin Hlen. unfold recv_packet. unfold isize_max in Hlen.
  assert (H4 : length (be_split 4 (4 + Z.of_nat (length m))) = 4%nat) by apply length_be_split.
  pose proof (read_into_accumulator_ok (be_split 4 (4 + Z.of_nat (length m))) (m ++ rest) acc c) as H1.
  rewrite H4 in H1. change (Z.of_nat 4) with 4 in H1. unfold server_packet in Hin. rewrite <- app_assoc in Hin.
  specialize (H1 Hin ltac:(unfold isize_max; lia)). run_with H1. cbv iota zeta.
  rewrite be_combine_split by lia.
  rewrite usize_sub_small by (unfold usize_max, usize_bits; lia).
  replace (4 + Z.of_nat (length m) - 4) with (Z.of_nat (length m)) by lia.
  pose proof (read_into_accumulator_ok m rest (acc ++ be_split 4 (4 + Z.of_nat (length m))) (mkConn (m ++ rest) (outgoing c) (write_error c)) eq_refl) as H2.
  specialize (H2 ltac:(unfold isize_max; rewrite length_app; lia)). run_with H2. cbv iota zeta.
  rewrite <- app_assoc. fold (server_packet m). unfold mbind, eff_bind, of_res. by destruct (parse_response m).
Qed.

Lemma key_data_ok (hmac_sha1 : list Z -> list Z -> option (list Z)) secret packets rounds :
  (forall k d, exists mac, hmac_sha1 k d = Some mac /\ length mac = 20%nat) ->
  exists data, key_data hmac_sha1 secret packets rounds = Ok data /\ length data = (20 * length rounds)%nat.
Proof.
  intros Hm. induction rounds as [|i rounds IH]; simpl; [by exists []|].
  destruct (Hm secret (packets ++ [i])) as (mac & -> & Hl). destruct IH as (rest & -> & Hr). simpl.
  exists (mac ++ rest). split; [done|]. rewrite length_app. lia.
Qed.

Lemma compute_keys_ok (hmac_sha1 : list Z -> list Z -> option (list Z)) secret packets :
  (forall k d, exists mac, hmac_sha1 k d = Some mac /\ length mac = 20%nat) ->
  exists challenge send recv, compute_keys hmac_sha1 secret packets = Ok (challenge, send, recv) /\
    length challenge = 20%nat /\ length send = 32%nat /\ length recv = 32%nat.
Proof.
  intros Hm. unfold compute_keys. destruct (key_data_ok hmac_sha1 secret packets [1; 2; 3; 4; 5] Hm) as (data & -> & Hl).
  cbn [mbind res_bind]. simpl in Hl.
  assert (Hk : slice (E := IoErrorKind) data 0 20 = Ok (take 20 data)) by (rewrite slice_ok by lia; done). rewrite Hk.
  cbn [mbind res_bind]. destruct (Hm (take 20 data) packets) as (mac & -> & Hml). cbn [ok_or mbind res_bind].
  rewrite !slice_ok by lia. cbn [mbind res_bind]. eexists _, _, _. split; [done|].
  split; [done|]. rewrite !length_take, !length_drop. lia.
Qed.

(** ** Theorems *)

Section theorems.
Context `{C : Cipher} {HC : CipherOk C}.
Context (encode_hello : ClientHello -> list Z) (encode_response : list Z -> list Z)
        (parse_response : list Z -> res IoErrorKind (list Z * list Z))
        (sha1 : list Z -> list Z) (hmac_sha1 : list Z -> list Z -> option (list Z))
        (rsa_verify : list Z -> Z -> list Z -> list Z -> bool).

(** With an access point that follows the protocol the handshake succeeds and both sides hold the
    same keys: the client has sent the greeting with its public key and the challenge, and the packets
    it encodes from then on are exactly those the access point decodes with the keys it derived. *)
Theorem handshake_agrees (os arch : string) (mine theirs nonce m signature rest : list Z) (c : conn) (k2 : DhLocalKeys)
    (Hmine : Forall is_byte mine) (Htheirs : Forall is_byte theirs) (Hk2 : dh_random theirs = Some k2)
    (Hparse : parse_response m = Ok (public_key k2, signature))
    (Hsig : rsa_verify SERVER_KEY 65537 (sha1 (public_key k2)) signature = true)
    (Hhmac : forall k d, exists mac, hmac_sha1 k d = Some mac /\ length mac = 20%nat)
    (Hhello : forall h, Z.of_nat (length (encode_hello h)) <= 65536)
    (Hresp : forall d, Z.of_nat (length (encode_response d)) <= 65536)
    (Hm : Z.of_nat (length m) <= 65536) (Hin : incoming c = server_packet m ++ rest) (Hw : write_error c = None) :
  exists gc hello secret challenge send recv,
    hello = [0; 4] ++ be_split 4 (2 + 4 + Z.of_nat (length (encode_hello (hello_packet os arch nonce gc)))) ++ encode_hello (hello_packet os arch nonce gc) /\
    shared_secret gc k2 = Some secret /\
    compute_keys hmac_sha1 secret (hello ++ server_packet m) = Ok (challenge, send, recv) /\
    handshake encode_hello encode_response parse_response sha1 hmac_sha1 rsa_verify os arch mine nonce c =
      (Ok (codec_new send recv), mkConn rest (outgoing c ++ hello ++ server_packet (encode_response challenge)) None) /\
    forall packets chunks, Forall packet_ok packets -> concat chunks = (encode_all packets [] (codec_new send recv)).1 ->
      exists s, receive chunks [] (codec_new recv send) = (Ok packets, [], s).
Proof.
  pose proof (dh_random_spec _ Hmine) as Hk1. rewrite (dh_random_spec _ Htheirs) in Hk2. injection Hk2 as <-.
  set (k1 := mkDhLocalKeys (le_combine mine) (DH_GENERATOR ^ le_combine mine mod DH_PRIME)) in *.
  set (k2 := mkDhLocalKeys (le_combine theirs) (DH_GENERATOR ^ le_combine theirs mod DH_PRIME)) in *.
  pose proof (shared_secret_spec _ _ Hmine Htheirs) as Hs1. pose proof (shared_secret_spec _ _ Htheirs Hmine) as Hs2.
  fold k1 in Hs1. fold k2 in Hs2. unfold dh_secret in Hs2. rewrite Z.mul_comm in Hs2.
  fold (dh_secret (le_combine mine) (le_combine theirs)) in Hs2.
  set (secret := dh_secret (le_combine mine) (le_combine theirs)) in *.
  set (gc := public_key k1). set (packet := encode_hello (hello_packet os arch nonce gc)).
  set (hello := [0; 4] ++ be_split 4 (2 + 4 + Z.of_nat (length packet)) ++ packet).
  destruct (compute_keys_ok hmac_sha1 secret (hello ++ server_packet m) Hhmac) as (challenge & send & recv & Hkeys & _).
  exists gc, hello, secret, challenge, send, recv. split_and!; [done|exact Hs2|done| |].
  - unfold handshake. rewrite Hk1. run_step. cbn zeta. fold gc.
    pose proof (Hhello (hello_packet os arch nonce gc)) as Hh. fold packet in Hh.
    assert (Hch : client_hello encode_hello os arch nonce gc c = (Ok hello, mkConn (incoming c) (outgoing c ++ hello) None)).
    { unfold client_hello. fold packet. unfold size_prefix. rewrite (proj2 (Z.ltb_lt _ _)) by lia. run_step.
      unfold write_all. unfold mbind, eff_bind. by rewrite Hw. }
    run_with Hch.
    assert (Hrp : recv_packet parse_response hello (mkConn (incoming c) (outgoing c ++ hello) None) =
                  (Ok ((public_key k2, signature), hello ++ server_packet m), mkConn rest (outgoing c ++ hello) None)).
    { rewrite (recv_packet_ok parse_response m rest hello).
      - by rewrite Hparse.
      - done.
      - unfold isize_max, hello. rewrite !length_app, length_be_split. simpl. lia. }
    run_with Hrp. cbv iota zeta. rewrite Hsig. run_step. unfold public_key at 1. cbn [public k2]. rewrite Hs1. run_step.
    rewrite Hkeys. run_step. cbv iota zeta.
    assert (Hcr : client_response encode_response challenge (mkConn rest (outgoing c ++ hello) None) =
                  (Ok tt, mkConn rest (outgoing c ++ hello ++ server_packet (encode_response challenge)) None)).
    { unfold client_response, size_prefix. pose proof (Hresp challenge). rewrite (proj2 (Z.ltb_lt _ _)) by lia. run_step.
      unfold write_all, server_packet. simpl. by rewrite <- app_assoc. }
    by run_with Hcr.
  - intros packets chunks. by apply receive_encoded.
Qed.

(** C33: No session without the signature: when the handshake succeeds, the key of the access point was
    signed by the known server key, and the keys of the connection come from the secret shared with
    this key and from all that was exchanged: the greeting the client sent, with its own public key,
    and the frame in which it received the signed key. *)
Theorem handshake_authenticates (os arch : string) (random nonce : list Z) (c c' : conn) (codec : ApCodec)
    (Hok : handshake encode_hello encode_response parse_response sha1 hmac_sha1 rsa_verify os arch random nonce c = (Ok codec, c')) :
  exists remote_key signature data accumulator keys secret challenge send recv,
    parse_response data = Ok (remote_key, signature) /\
    rsa_verify SERVER_KEY 65537 (sha1 remote_key) signature = true /\
    dh_random random = Some keys /\ shared_secret remote_key keys = Some secret /\
    compute_keys hmac_sha1 secret accumulator = Ok (challenge, send, recv) /\
    (let packet := encode_hello (hello_packet os arch nonce (public_key keys)) in
     let hello := [0; 4] ++ be_split 4 (2 + 4 + Z.of_nat (length packet)) ++ packet in
     exists header rest response, accumulator = hello ++ header ++ data /\
       incoming c = header ++ data ++ rest /\ outgoing c' = outgoing c ++ hello ++ response) /\
    codec = codec_new send recv.
Proof.
  unfold handshake in Hok.
  apply bind_ok_inv in Hok as (keys & c1 & Hk & Hok). destruct (dh_random random) as [keys'|]; [|done]. injection Hk as <- <-.
  apply bind_ok_inv in Hok as (hello & c2 & Hhello & Hok).
  apply bind_ok_inv in Hok as ([[remote_key signature] acc] & c3 & Hrecv & Hok).
  apply bind_ok_inv in Hok as ([] & c4 & Hv & Hok).
  destruct (rsa_verify SERVER_KEY 65537 (sha1 remote_key) signature) eqn:Hsig; [|done].
  apply bind_ok_inv in Hok as (secret & c5 & Hs & Hok). destruct (shared_secret remote_key keys') as [secret'|] eqn:Hss; [|done].
  injection Hs as <- <-. apply bind_ok_inv in Hok as ([[challenge send] recv] & c6 & Hck & Hok). injection Hck as Hck <-.
  apply bind_ok_inv in Hok as ([] & c7 & Hres & Hok). injection Hok as <- <-.
  apply client_response_inv in Hres as [response Hres]. apply client_hello_inv in Hhello as (Hello & Hi2 & Ho2).
  unfold recv_packet in Hrecv. apply bind_ok_inv in Hrecv as ([header acc1] & d1 & Hh & Hrecv).
  apply bind_ok_inv in Hrecv as ([data acc2] & d2 & Hd & Hrecv). apply bind_ok_inv in Hrecv as (msg & d3 & Hp & Hrecv).
  injection Hrecv as -> -> ->. injection Hp as Hp <-.
  apply read_into_inv in Hh as (-> & Hi3 & Ho3). apply read_into_inv in Hd as (-> & Hi4 & Ho4).
  exists remote_key, signature, data, ((hello ++ header) ++ data), keys', secret', challenge, send, recv.
  split_and!; try done. cbv zeta. rewrite <- Hello. exists header, (incoming d2), response. split_and!.
  - by rewrite app_assoc.
  - by rewrite <- Hi2, Hi3, Hi4.
  - injection Hv as <-. by rewrite Hres, Ho4, Ho3, Ho2, <- app_assoc.
Qed.

(** A frame whose size is below four makes [size - 4] wrap around: the client panics. *)
Theorem short_frame_panics (acc header rest : list Z) (c : conn)
    (Hacc : 4 <= Z.of_nat (length acc) <= 65536) (Hh : length header = 4%nat) (Hb : Forall is_byte header)
    (Hs : be_combine header < 4) (Hin : incoming c = header ++ rest) :
  (recv_packet parse_response acc c).1 = Panic.
Proof.
  pose proof (be_combine_bounds header Hb) as Hbound. unfold recv_packet.
  pose proof (read_into_accumulator_ok header rest acc c Hin ltac:(unfold isize_max; lia)) as H1. rewrite Hh in H1.
  change (Z.of_nat 4) with 4 in H1. run_with H1. cbv iota zeta. apply run_panic. unfold read_into_accumulator.
  assert (Hnew : usize_add (Z.of_nat (length (acc ++ header))) (usize_sub (be_combine header) 4) = Z.of_nat (length acc) + be_combine header).
  { unfold usize_add, usize_sub, wrap, usize_bits. rewrite Z.add_mod_idemp_r by lia. rewrite length_app, Hh.
    rewrite Z.mod_small; lia. }
  rewrite Hnew, (proj2 (Z.ltb_ge _ _)) by (unfold isize_max; lia). by rewrite (proj2 (Z.ltb_lt _ _)) by (rewrite length_app; lia).
Qed.
End theorems.

(** ** Examples *)

Definition ex_hello (h : ClientHello) : list Z := take 200 (ch_gc h ++ ch_client_nonce h).
Definition ex_hmac (k d : list Z) : option (list Z) := Some (replicate 20 (Z.of_nat (length d))).
Definition ex_theirs : list Z := [5; 9].
Definition ex_keys : DhLocalKeys := default (mkDhLocalKeys 0 0) (dh_random ex_theirs).
Definition ex_conn : conn := mkConn (server_packet (public_key ex_keys)) [] None.

Lemma ex_hmac_ok k d : exists mac, ex_hmac k d = Some mac /\ length mac = 20%nat.
Proof. eexists. split; [reflexivity|]. apply length_replicate. Qed.

Lemma handshake_agrees_witness :
  exists gc secret challenge send recv c',
    shared_secret gc ex_keys = Some secret /\
    compute_keys ex_hmac secret ([0; 4] ++ be_split 4 (2 + 4 + Z.of_nat (length (ex_hello (hello_packet "linux" "arm" [7] gc)))) ++
                                 ex_hello (hello_packet "linux" "arm" [7] gc) ++ server_packet (public_key ex_keys)) = Ok (challenge, send, recv) /\
    handshake (C := Counter.counter_cipher) ex_hello (take 20) (fun d => Ok (d, [1])) (fun l => l) ex_hmac (fun _ _ _ s => bool_decide (s = [1]))
      "linux" "arm" [3; 1] [7] ex_conn = (Ok (codec_new send recv), c').
Proof.
  destruct (handshake_agrees (C := Counter.counter_cipher) (HC := Counter.counter_ok) ex_hello (take 20) (fun d => Ok (d, [1])) (fun l => l) ex_hmac
              (fun _ _ _ s => bool_decide (s = [1])) "linux" "arm" [3; 1] ex_theirs [7] (public_key ex_keys) [1] [] ex_conn ex_keys)
    as (gc & hello & secret & challenge & send & recv & -> & H1 & H2 & H3 & _).
  - apply (bool_decide_eq_true_1 (Forall is_byte _)). vm_compute. reflexivity.
  - apply (bool_decide_eq_true_1 (Forall is_byte _)). vm_compute. reflexivity.
  - vm_compute. reflexivity.
  - reflexivity.
  - reflexivity.
  - exact ex_hmac_ok.
  - intros h. unfold ex_hello. rewrite length_take. lia.
  - intros d. rewrite length_take. lia.
  - apply Z.leb_le. vm_compute. reflexivity.
  - unfold ex_conn. cbn [incoming]. symmetry. apply app_nil_r.
  - reflexivity.
  - exists gc, secret, challenge, send, recv. eexists. split; [exact H1|]. split; [|exact H3]. rewrite <- !app_assoc in H2. exact H2.
Defined.

Definition ex_run : res IoErrorKind (ApCodec (C := Counter.counter_cipher)) * conn :=
  handshake (C := Counter.counter_cipher) ex_hello (take 20) (fun _ => Ok ([9], [1])) (fun l => l) ex_hmac
    (fun _ _ _ s => bool_decide (s = [1])) "linux" "arm" [3; 1] [7] ex_conn.

Lemma handshake_authenticates_witness :
  exists remote_key signature : list Z, bool_decide (signature = [1]) = true /\ remote_key = [9].
Proof.
  destruct (handshake_authenticates (C := Counter.counter_cipher) ex_hello (take 20) (fun _ => Ok ([9], [1])) (fun l => l) ex_hmac
              (fun _ _ _ s => bool_decide (s = [1])) "linux" "arm" [3; 1] [7] ex_conn ex_run.2
              match ex_run.1 with Ok codec => codec | _ => codec_new [] [] end)
    as (remote_key & signature & data & acc & keys & secret & ch & send & recv & Hp & Hv & _).
  - vm_compute. reflexivity.
  - exists remote_key, signature. split; [exact Hv|]. injection Hp as <- _. reflexivity.
Defined.

Lemma short_frame_panics_witness :
  (recv_packet (fun d => Ok (d, [1])) [0; 4; 0; 0; 0; 6] (mkConn [0; 0; 0; 3; 9] [] None)).1 = Panic.
Proof.
  apply (short_frame_panics (fun d => Ok (d, [1])) [0; 4; 0; 0; 0; 6] [0; 0; 0; 3] [9] (mkConn [0; 0; 0; 3; 9] [] None)).
  - simpl. lia.
  - reflexivity.
  - apply (bool_decide_eq_true_1 (Forall is_byte _)). vm_compute. reflexivity.
  - vm_compute. reflexivity.
  - reflexivity.
Defined.
