(* ===== verification/Discovery.v ===== *)
(** * Discovery on the local network ([native/librespot/discovery/src/server.rs], [lib.rs])

    The server that Spotify clients on the local network talk to: [getInfo] describes the device
    and hands out its public key, [addUser] takes credentials encrypted and signed with the shared
    key. Base64, HMAC, AES, the form decoder and the primitives of [Auth] are parameters; sockets,
    mDNS and the hyper server are not modelled. *)
From S2P Require Import Prelude Text Config Errors Auth DiffieHellman Effect.

Record Alias := mkAlias { alias_name : string; alias_id : Z; alias_is_group : bool }.

Record ServerConfig := mkServerConfig {
  sc_name : string;
  sc_device_type : DeviceType;
  sc_device_id : string;
  sc_is_group : bool;
  sc_client_id : string;
  sc_aliases : list Alias
}.

Inductive DiscoveryEvent := EvCredentials (c : Credentials) | EvServerError | EvZeroconfError.

(** The request handler: the user, the keys, and the events sent while somebody listens. *)
Record RequestHandler := mkRequestHandler {
  rh_config : ServerConfig;
  rh_username : option string;
  rh_keys : DhLocalKeys;
  rh_events : list DiscoveryEvent;
  rh_listening : bool
}.

Definition set_username (u : string) (h : RequestHandler) : RequestHandler :=
  mkRequestHandler (rh_config h) (Some u) (rh_keys h) (rh_events h) (rh_listening h).
Definition add_event (e : DiscoveryEvent) (h : RequestHandler) : RequestHandler :=
  mkRequestHandler (rh_config h) (rh_username h) (rh_keys h) (rh_events h ++ [e]) (rh_listening h).

Abbreviation Serve := (eff RequestHandler Error).

(** JSON values, objects with their fields as written *)
Inductive Json := JNum (n : Z) | JStr (s : string) | JArr (l : list Json) | JObj (l : list (string * Json)).

Record ServerResponse := mkServerResponse { http_status : Z; http_body : option Json }.

Definition handler_new (config : ServerConfig) (random : list Z) : option RequestHandler :=
  keys ← dh_random random; Some (mkRequestHandler config None keys [] true).

Definition active_user (h : RequestHandler) : string := default "" (rh_username h).

Section server.
Context (base64_encode : list Z -> string) (base64_decode : list Z -> option (list Z)) (semver : string).
Context (sha1 : list Z -> list Z) (hmac_sha1 : list Z -> list Z -> list Z) (aes_ctr : list Z -> list Z -> list Z -> list Z).
Context (pbkdf2 : list Z -> list Z -> Z -> nat -> list Z) (decrypt_block : list Z -> list Z -> list Z).

Definition alias_json (a : Alias) : Json :=
  JObj [("name", JStr (alias_name a)); ("id", JStr (show_Z (alias_id a)));
        ("isGroup", JStr (if alias_is_group a then "true" else "false"))].

Definition handle_get_info (h : RequestHandler) : ServerResponse :=
  let config := rh_config h in
  mkServerResponse 200 (Some (JObj [
    ("status", JNum 101); ("statusString", JStr "OK"); ("spotifyError", JNum 0); ("version", JStr "2.9.0");
    ("deviceID", JStr (sc_device_id config)); ("deviceType", JStr (device_to_str (sc_device_type config)));
    ("remoteName", JStr (sc_name config)); ("publicKey", JStr (base64_encode (public_key (rh_keys h))));
    ("brandDisplayName", JStr "librespot"); ("modelDisplayName", JStr "librespot"); ("libraryVersion", JStr semver);
    ("resolverVersion", JStr "1"); ("groupStatus", JStr (if sc_is_group config then "GROUP" else "NONE"));
    ("tokenType", JStr "default"); ("clientID", JStr (sc_client_id config)); ("productID", JNum 0); ("scope", JStr "streaming");
    ("availability", JStr ""); ("supported_drm_media_formats", JArr []); ("supported_capabilities", JNum 1);
    ("accountReq", JStr "PREMIUM"); ("activeUser", JStr (active_user h)); ("aliases", JArr (alias_json <$> sc_aliases config))])).

Definition status_json (status error : Z) (text : string) : ServerResponse :=
  mkServerResponse 200 (Some (JObj [("status", JNum status); ("spotifyError", JNum error); ("statusString", JStr text)])).

Definition param (params : gmap string string) (key : string) : res Error string := raise (ok_or (ParamsError key) (params !! key)).

(** The three parts of the blob. Below 20 bytes [len - 20] wraps around, and below 36 the slice
    ends before it starts: both panic. *)
Definition split_blob (blob : list Z) : res Error (list Z * list Z * list Z) :=
  if (length blob <? 20)%nat then Panic
  else
    iv ← slice blob 0 16;
    encrypted ← slice blob 16 (length blob - 20);
    cksum ← slice blob (length blob - 20) (length blob);
    Ok (iv, encrypted, cksum).

(** The keys derived from the shared one: for the checksum and for the encryption *)
Definition derive_keys (shared_key : list Z) : list Z * list Z :=
  let base_key := take 16 (sha1 shared_key) in
  (hmac_sha1 base_key (bytes "checksum"), hmac_sha1 base_key (bytes "encryption")).

Definition handle_add_user (params : gmap string string) : Serve ServerResponse :=
  username ← of_res (param params "userName");
  encrypted_blob ← of_res (param params "blob");
  client_key ← of_res (param params "clientKey");
  encrypted_blob ← of_res (raise (ok_or DecodeError (base64_decode (bytes encrypted_blob))));
  client_key ← of_res (raise (ok_or DecodeError (base64_decode (bytes client_key))));
  keys ← gets rh_keys;
  shared_key ← (match shared_secret client_key keys with Some k => mret k | None => stop end);
  if (length encrypted_blob <? 16)%nat then throw (into_error (HmacError encrypted_blob))
  else
    '(iv, encrypted, cksum) ← of_res (split_blob encrypted_blob);
    let '(checksum_key, encryption_key) := derive_keys shared_key in
    if negb (bool_decide (hmac_sha1 checksum_key encrypted = cksum)) then mret (status_json 102 1 "ERROR-MAC")
    else
      let decrypted := aes_ctr (take 16 encryption_key) iv encrypted in
      device_id ← gets (fun h => sc_device_id (rh_config h));
      credentials ← of_res (with_blob sha1 pbkdf2 base64_decode decrypt_block username decrypted (bytes device_id));
      listening ← gets rh_listening;
      if negb listening then throw (into_error SendError)
      else
        _ ← modify (add_event (EvCredentials credentials));
        _ ← modify (set_username username);
        mret (status_json 101 0 "OK").

(** [params.extend(..)] with the pairs of the query and of the body: later ones win. *)
Definition extend_params (l : list (string * string)) (params : gmap string string) : gmap string string :=
  fold_left (fun m '(k, v) => <[k := v]> m) l params.

Context (form_parse : list Z -> list (string * string)).

Definition handle (method : string) (query : option (list Z)) (body : res HyperError (list Z)) : Serve ServerResponse :=
  let params := match query with Some q => extend_params (form_parse q) ∅ | None => ∅ end in
  body ← of_res (raise body);
  let params := extend_params (form_parse body) params in
  let action := params !! "action" in
  if String.eqb method "GET" && bool_decide (action = Some "getInfo") then gets handle_get_info
  else if String.eqb method "POST" && bool_decide (action = Some "addUser") then handle_add_user params
  else mret (mkServerResponse 404 None).

(** The service: [.and_then(..)] leaves an error as it is, and [Result::unwrap] panics on it. *)
Definition service (method : string) (query : option (list Z)) (body : res HyperError (list Z)) : Serve ServerResponse := fun h =>
  match handle method query body h with
  | (Err _, h) => (Panic, h)
  | r => r
  end.
End server.

(** ** The builder and the stream of credentials *)

Record Builder := mkBuilder {
  server_config : ServerConfig;
  server_port : Z;
  zeroconf_ip : list string;
  zeroconf_backend : option string
}.

Definition builder_new (device_id client_id : string) : Builder :=
  mkBuilder (mkServerConfig "Librespot" Speaker device_id false client_id []) 0 [] None.

(** The known backends, and whether they are compiled in. *)
Definition find_backend (backends : list (string * bool)) (name : option string) : res Error string :=
  match name with
  | Some name =>
      match find (fun b => String.eqb name b.1) backends with
      | Some (id, true) => Ok id
      | Some (_, false) => Err (unavailable (EMessage "librespot built without support"))
      | None => Err (not_found (EMessage "unknown zeroconf backend"))
      end
  | None =>
      match find (fun b => b.2) backends with
      | Some (id, _) => Ok id
      | None => Err (unavailable (EMessage "librespot built without zeroconf backends"))
      end
  end.

(** [self.zeroconf_backend.unwrap_or(find(None)?)]: the default is looked up in any case. *)
Definition chosen_backend (backends : list (string * bool)) (b : Builder) : res Error string :=
  default_backend ← find_backend backends None;
  Ok (default default_backend (zeroconf_backend b)).

(** What [poll_next] yields for what was received: the stream ends on an error. *)
Definition discovery_next (e : option DiscoveryEvent) : option Credentials :=
  match e with Some (EvCredentials c) => Some c | _ => None end.

(** ** Lemmas *)

Lemma split_blob_parts iv encrypted cksum :
  length iv = 16%nat -> length cksum = 20%nat -> split_blob (iv ++ encrypted ++ cksum) = Ok (iv, encrypted, cksum).
Proof.
  intros Hi Hc. unfold split_blob. rewrite !length_app.
  replace ((length iv + (length encrypted + length cksum) - 20)%nat) with (16 + length encrypted)%nat by lia.
  rewrite (proj2 (Nat.ltb_ge _ _)) by lia.
  rewrite !slice_ok by (rewrite ?length_app; lia). cbn [mbind res_bind]. do 2 f_equal; [f_equal|].
  - by rewrite drop_0, take_app_length' by lia.
  - rewrite drop_app_length' by lia. by rewrite take_app_length' by lia.
  - rewrite (assoc_L (++)), drop_app_length' by (rewrite length_app; lia). by rewrite take_ge by lia.
Qed.

Lemma split_blob_short blob : (length blob < 36)%nat -> split_blob blob = Panic.
Proof.
  intros Hl. unfold split_blob. destruct (Nat.ltb_spec (length blob) 20); [done|].
  rewrite (slice_ok blob 0 16) by lia. cbn [mbind res_bind]. unfold slice. rewrite (decide_False (P := (16 <= length blob - 20 <= length blob)%nat)) by lia. reflexivity.
Qed.

Lemma split_blob_inv blob iv encrypted cksum :
  split_blob blob = Ok (iv, encrypted, cksum) -> blob = iv ++ encrypted ++ cksum /\ length iv = 16%nat.
Proof.
  intros Hs. destruct (Nat.lt_ge_cases (length blob) 36) as [Hl|Hl]; [by rewrite split_blob_short in Hs|].
  revert Hs. unfold split_blob. rewrite (proj2 (Nat.ltb_ge _ _)) by lia. rewrite !slice_ok by lia. cbn [mbind res_bind].
  intros [= <- <- <-]. rewrite drop_0. split; [|rewrite length_take; lia].
  rewrite (take_ge (drop (length blob - 20) blob)) by (rewrite length_drop; lia).
  rewrite <- (take_drop 16 blob) at 1. f_equal. rewrite <- (take_drop (length blob - 20 - 16) (drop 16 blob)) at 1.
  f_equal. rewrite drop_drop. f_equal. lia.
Qed.

Section server_facts.
Context (base64_encode : list Z -> string) (base64_decode : list Z -> option (list Z)) (semver : string).
Context (sha1 : list Z -> list Z) (hmac_sha1 : list Z -> list Z -> list Z) (aes_ctr : list Z -> list Z -> list Z -> list Z).
Context (pbkdf2 : list Z -> list Z -> Z -> nat -> list Z) (decrypt_block : list Z -> list Z -> list Z).
#[local] Abbreviation add_user := (handle_add_user base64_decode sha1 hmac_sha1 aes_ctr pbkdf2 decrypt_block).

(** [addUser] up to the check of the blob *)
Lemma add_user_start params user blob key blob' key' shared h :
  params !! "userName" = Some user -> params !! "blob" = Some blob -> params !! "clientKey" = Some key ->
  base64_decode (bytes blob) = Some blob' -> base64_decode (bytes key) = Some key' -> shared_secret key' (rh_keys h) = Some shared ->
  add_user params h =
  (if (length blob' <? 16)%nat then throw (into_error (HmacError blob'))
   else
     '(iv, encrypted, cksum) ← of_res (split_blob blob');
     let '(checksum_key, encryption_key) := derive_keys sha1 hmac_sha1 shared in
     if negb (bool_decide (hmac_sha1 checksum_key encrypted = cksum)) then mret (status_json 102 1 "ERROR-MAC")
     else
       device_id ← gets (fun h => sc_device_id (rh_config h));
       credentials ← of_res (with_blob sha1 pbkdf2 base64_decode decrypt_block user (aes_ctr (take 16 encryption_key) iv encrypted) (bytes device_id));
       listening ← gets rh_listening;
       if negb listening then throw (into_error SendError)
       else
         _ ← modify (add_event (EvCredentials credentials));
         _ ← modify (set_username user);
         mret (status_json 101 0 "OK")) h.
Proof.
  intros Hu Hb Hk Hb' Hk' Hs. unfold handle_add_user, param. rewrite Hu, Hb, Hk. do 3 (erewrite run_bind by reflexivity).
  rewrite Hb', Hk'. do 3 (erewrite run_bind by reflexivity). rewrite Hs. by erewrite run_bind by reflexivity.
Qed.
End server_facts.

(** ** Theorems *)

(** What a client sends that encrypts [c] for the device: its public key, and the blob of [Auth]
    encrypted and signed with the keys derived from the shared secret. *)
Definition client_params (base64_encode : list Z -> string) (sha1 : list Z -> list Z) (hmac_sha1 : list Z -> list Z -> list Z)
    (aes_ctr : list Z -> list Z -> list Z -> list Z) (shared client_public iv data : list Z) (user : string) : gmap string string :=
  let '(checksum_key, encryption_key) := derive_keys sha1 hmac_sha1 shared in
  let encrypted := aes_ctr (take 16 encryption_key) iv data in
  {[ "userName" := user; "blob" := base64_encode (iv ++ encrypted ++ hmac_sha1 checksum_key encrypted);
     "clientKey" := base64_encode client_public; "action" := "addUser" ]}.

(** C34: Pairing works: a client on the local network that has read the device's public key from
    [getInfo], agrees on a secret with it and sends credentials (within the sizes the record can
    express) encrypted and signed with the derived keys is answered with status 101, the session receives exactly these credentials, and
    the user is remembered. *)
Theorem pairing_delivers_credentials (base64_encode : list Z -> string) (base64_decode : list Z -> option (list Z))
    (sha1 : list Z -> list Z) (hmac_sha1 : list Z -> list Z -> list Z) (aes_ctr : list Z -> list Z -> list Z -> list Z)
    (pbkdf2 : list Z -> list Z -> Z -> nat -> list Z) (decrypt_block encrypt_block : list Z -> list Z -> list Z)
    (Hsha : forall l, length (sha1 l) = 20%nat) (Hhmac : forall k l, length (hmac_sha1 k l) = 20%nat)
    (Hb64 : forall l, base64_decode (bytes (base64_encode l)) = Some l)
    (Hctr : forall k iv l, aes_ctr k iv (aes_ctr k iv l) = l)
    (Haes : forall k b, length b = BLOCK -> decrypt_block k (encrypt_block k b) = b)
    (Hlen : forall k b, length b = BLOCK -> length (encrypt_block k b) = BLOCK)
    (config : ServerConfig) (mine theirs iv skipped : list Z) (pad1 pad2 pad3 : Z) (user : string) (c : Credentials)
    (Hm : Forall is_byte mine) (Ht : Forall is_byte theirs) (Hiv : length iv = 16%nat) (Hu : username c = Some user)
    (Hs : Z.of_nat (length skipped) < 32768) (Hd : Z.of_nat (length (auth_data c)) < 32768)
    (H16 : (BLOCK <= length skipped + length (auth_data c))%nat) :
  exists h k shared,
    handler_new config mine = Some h /\ dh_random theirs = Some k /\ shared_secret (public_key (rh_keys h)) k = Some shared /\
    let data := bytes (base64_encode (encrypt_blob encrypt_block
                  (sha1 (pbkdf2 (sha1 (bytes (sc_device_id config))) (bytes user) 256 20%nat) ++ [0; 0; 0; 20])
                  (write_blob pad1 pad2 pad3 skipped c))) in
    handle_add_user base64_decode sha1 hmac_sha1 aes_ctr pbkdf2 decrypt_block
      (client_params base64_encode sha1 hmac_sha1 aes_ctr shared (public_key k) iv data user) h
    = (Ok (status_json 101 0 "OK"), mkRequestHandler config (Some user) (rh_keys h) [EvCredentials c] true).
Proof.
  set (shared := dh_secret (le_combine mine) (le_combine theirs)).
  assert (Hc : shared_secret (public_key (mkDhLocalKeys (le_combine mine) (DH_GENERATOR ^ le_combine mine mod DH_PRIME)))
                 (mkDhLocalKeys (le_combine theirs) (DH_GENERATOR ^ le_combine theirs mod DH_PRIME)) = Some shared).
  { unfold public_key. cbn [public]. rewrite shared_secret_spec by done. unfold shared, dh_secret. by rewrite Z.mul_comm. }
  assert (Hs' : shared_secret (public_key (mkDhLocalKeys (le_combine theirs) (DH_GENERATOR ^ le_combine theirs mod DH_PRIME)))
                 (mkDhLocalKeys (le_combine mine) (DH_GENERATOR ^ le_combine mine mod DH_PRIME)) = Some shared).
  { unfold public_key. cbn [public]. by rewrite shared_secret_spec. }
  unfold handler_new. rewrite dh_random_spec by done. cbn [mbind option_bind]. eexists _, _, shared. split; [done|]. cbn [rh_keys].
  split; [by apply dh_random_spec|]. split; [done|]. cbv zeta.
  generalize dependent (mkDhLocalKeys (le_combine theirs) (DH_GENERATOR ^ le_combine theirs mod DH_PRIME)).
  generalize dependent (mkDhLocalKeys (le_combine mine) (DH_GENERATOR ^ le_combine mine mod DH_PRIME)).
  clearbody shared. intros k1 k2 _ Hshared.
  pose proof (with_blob_roundtrip sha1 pbkdf2 base64_decode (fun l => bytes (base64_encode l)) decrypt_block encrypt_block
                Hsha Hb64 Haes Hlen pad1 pad2 pad3 skipped (bytes (sc_device_id config)) user c Hu Hs Hd H16) as Hblob. cbv beta in Hblob.
  revert Hblob. generalize (bytes (base64_encode (encrypt_blob encrypt_block
     (sha1 (pbkdf2 (sha1 (bytes (sc_device_id config))) (bytes user) 256 20%nat) ++ [0; 0; 0; 20]) (write_blob pad1 pad2 pad3 skipped c)))).
  intros data Hblob. unfold client_params.
  set (ck := (derive_keys sha1 hmac_sha1 shared).1). set (ek := (derive_keys sha1 hmac_sha1 shared).2).
  change (derive_keys sha1 hmac_sha1 shared) with (ck, ek). set (enc := aes_ctr (take 16 ek) iv data).
  rewrite (add_user_start base64_decode sha1 hmac_sha1 aes_ctr pbkdf2 decrypt_block _ user
             (base64_encode (iv ++ enc ++ hmac_sha1 ck enc)) (base64_encode (public_key k2)) (iv ++ enc ++ hmac_sha1 ck enc) (public_key k2) shared);
    [|reflexivity|reflexivity|reflexivity|by apply Hb64|by apply Hb64|done].
  rewrite (proj2 (Nat.ltb_ge _ _)) by (rewrite length_app; lia). rewrite split_blob_parts by done.
  erewrite run_bind by reflexivity. change (derive_keys sha1 hmac_sha1 shared) with (ck, ek). cbv iota zeta.
  rewrite bool_decide_true by done. cbn [negb]. erewrite run_bind by reflexivity. unfold enc. rewrite Hctr. cbn [rh_config].
  rewrite Hblob. by repeat (erewrite run_bind by reflexivity).
Qed.

(** C35: Only somebody who knows the shared key can hand over credentials: whenever [addUser] passes
    credentials on, the checksum of the encrypted part was the one computed with the key derived
    from the shared secret, and the credentials are those in the decrypted blob. Otherwise nothing
    is passed on and the user stays. *)
Theorem add_user_authenticated (base64_decode : list Z -> option (list Z)) (sha1 : list Z -> list Z)
    (hmac_sha1 : list Z -> list Z -> list Z) (aes_ctr : list Z -> list Z -> list Z -> list Z)
    (pbkdf2 : list Z -> list Z -> Z -> nat -> list Z) (decrypt_block : list Z -> list Z -> list Z)
    (params : gmap string string) (h h' : RequestHandler) (r : res Error ServerResponse)
    (Hrun : handle_add_user base64_decode sha1 hmac_sha1 aes_ctr pbkdf2 decrypt_block params h = (r, h')) :
  h' = h \/
  exists user blob key key' shared iv encrypted c,
    params !! "userName" = Some user /\ params !! "blob" = Some blob /\ params !! "clientKey" = Some key /\
    base64_decode (bytes key) = Some key' /\ shared_secret key' (rh_keys h) = Some shared /\
    let '(checksum_key, encryption_key) := derive_keys sha1 hmac_sha1 shared in
    base64_decode (bytes blob) = Some (iv ++ encrypted ++ hmac_sha1 checksum_key encrypted) /\ length iv = 16%nat /\
    with_blob sha1 pbkdf2 base64_decode decrypt_block user (aes_ctr (take 16 encryption_key) iv encrypted)
      (bytes (sc_device_id (rh_config h))) = Ok c /\
    h' = set_username user (add_event (EvCredentials c) h) /\ r = Ok (status_json 101 0 "OK").
Proof.
  unfold handle_add_user, param in Hrun.
  destruct (params !! "userName") as [user|] eqn:Hu; [|left; by injection Hrun]. erewrite run_bind in Hrun by reflexivity.
  destruct (params !! "blob") as [blob|] eqn:Hb; [|left; by injection Hrun]. erewrite run_bind in Hrun by reflexivity.
  destruct (params !! "clientKey") as [key|] eqn:Hk; [|left; by injection Hrun]. erewrite run_bind in Hrun by reflexivity.
  destruct (base64_decode (bytes blob)) as [blob'|] eqn:Hb'; [|left; by injection Hrun]. erewrite run_bind in Hrun by reflexivity.
  destruct (base64_decode (bytes key)) as [key'|] eqn:Hk'; [|left; by injection Hrun]. do 2 (erewrite run_bind in Hrun by reflexivity).
  destruct (shared_secret key' (rh_keys h)) as [shared|] eqn:Hs; [|left; by injection Hrun]. erewrite run_bind in Hrun by reflexivity.
  destruct (length blob' <? 16)%nat; [left; by injection Hrun|].
  destruct (split_blob blob') as [[[iv enc] cksum]| |] eqn:Hsplit; [|left; by injection Hrun..]. erewrite run_bind in Hrun by reflexivity.
  cbv iota zeta in Hrun. destruct (derive_keys sha1 hmac_sha1 shared) as [ck ek] eqn:Hd.
  destruct (bool_decide_reflect (hmac_sha1 ck enc = cksum)) as [Hmac|]; cbn [negb] in Hrun; [|left; by injection Hrun].
  erewrite run_bind in Hrun by reflexivity.
  destruct (with_blob _ _ _ _ _ _ _) as [c| |] eqn:Hw; [|left; by injection Hrun..]. do 2 (erewrite run_bind in Hrun by reflexivity).
  destruct (rh_listening h); cbn [negb] in Hrun; [|left; by injection Hrun]. do 2 (erewrite run_bind in Hrun by reflexivity).
  injection Hrun as <- <-. right. exists user, blob, key, key', shared, iv, enc, c. rewrite Hd.
  apply split_blob_inv in Hsplit as [-> Hiv]. by rewrite Hmac.
Qed.

(** A blob of at least 16 and fewer than 36 bytes ends the task that serves the connection: only the
    first 16 bytes are checked for, and the checksum takes 20 more. *)
Theorem short_discovery_blob_panics (base64_decode : list Z -> option (list Z)) (sha1 : list Z -> list Z)
    (hmac_sha1 : list Z -> list Z -> list Z) (aes_ctr : list Z -> list Z -> list Z -> list Z)
    (pbkdf2 : list Z -> list Z -> Z -> nat -> list Z) (decrypt_block : list Z -> list Z -> list Z)
    (params : gmap string string) (h : RequestHandler) (user blob key : string) (blob' key' shared : list Z)
    (Hu : params !! "userName" = Some user) (Hb : params !! "blob" = Some blob) (Hk : params !! "clientKey" = Some key)
    (Hb' : base64_decode (bytes blob) = Some blob') (Hk' : base64_decode (bytes key) = Some key')
    (Hs : shared_secret key' (rh_keys h) = Some shared) (Hlen : (16 <= length blob' < 36)%nat) :
  (handle_add_user base64_decode sha1 hmac_sha1 aes_ctr pbkdf2 decrypt_block params h).1 = Panic.
Proof.
  rewrite (add_user_start base64_decode sha1 hmac_sha1 aes_ctr pbkdf2 decrypt_block params user blob key blob' key' shared h) by done.
  rewrite (proj2 (Nat.ltb_ge _ _)) by lia. apply run_panic. unfold of_res. by rewrite split_blob_short by lia.
Qed.

(** A request that is answered with an error by the handler, such as one without a user name, is not
    answered: the service unwraps the error and panics. *)
Theorem bad_request_panics (base64_encode : list Z -> string) (base64_decode : list Z -> option (list Z)) (semver : string)
    (sha1 : list Z -> list Z) (hmac_sha1 : list Z -> list Z -> list Z) (aes_ctr : list Z -> list Z -> list Z -> list Z)
    (pbkdf2 : list Z -> list Z -> Z -> nat -> list Z) (decrypt_block : list Z -> list Z -> list Z)
    (form_parse : list Z -> list (string * string)) (body : list Z) (h : RequestHandler)
    (Hform : form_parse body = [("action", "addUser")]) :
  handle base64_encode base64_decode semver sha1 hmac_sha1 aes_ctr pbkdf2 decrypt_block form_parse "POST" None (Ok body) h
  = (Err (into_error (ParamsError "userName")), h) /\
  (service base64_encode base64_decode semver sha1 hmac_sha1 aes_ctr pbkdf2 decrypt_block form_parse "POST" None (Ok body) h).1 = Panic.
Proof.
  assert (H : handle base64_encode base64_decode semver sha1 hmac_sha1 aes_ctr pbkdf2 decrypt_block form_parse "POST" None (Ok body) h
              = (Err (into_error (ParamsError "userName")), h)).
  { unfold handle. erewrite run_bind by reflexivity. rewrite Hform. reflexivity. }
  split; [done|]. unfold service. by rewrite H.
Qed.

(** ** Examples *)

(** Lists of integers as text of zeros and ones, a keystream of 90s, and digests that keep the data. *)
Fixpoint pos_text (p : positive) : string := match p with xH => "" | xO p => String "0" (pos_text p) | xI p => String "1" (pos_text p) end.
Fixpoint text_pos (l : list Z) : positive := match l with [] => xH | d :: l => if d =? 48 then xO (text_pos l) else xI (text_pos l) end.
Definition ex_encode (l : list Z) : string := pos_text (encode l).
Definition ex_decode (l : list Z) : option (list Z) := decode (text_pos l).
Definition ex_hmac (k l : list Z) : list Z := take 20 (l ++ k ++ replicate 20 0).
Definition ex_sha1 (l : list Z) : list Z := replicate 20 7.

Lemma ex_decode_encode l : ex_decode (bytes (ex_encode l)) = Some l.
Proof.
  unfold ex_decode, ex_encode.
  assert (H : forall p, text_pos (bytes (pos_text p)) = p) by (induction p as [p IH|p IH|];
    [change (xI (text_pos (bytes (pos_text p))) = xI p); by rewrite IH|change (xO (text_pos (bytes (pos_text p))) = xO p); by rewrite IH|done]).
  rewrite H. apply decode_encode.
Qed.

Lemma ex_block_inv k b : ex_block k (ex_block k b) = b.
Proof.
  unfold ex_block. rewrite map_map. rewrite <- (map_id b) at 2. apply map_ext. intros a.
  by rewrite <- Z.lxor_assoc, Z.lxor_nilpotent, Z.lxor_0_l.
Qed.

Definition ex_server : ServerConfig := mkServerConfig "Radio" Speaker "id" false "client" [].

Lemma pairing_delivers_credentials_witness :
  exists h k shared,
    handler_new ex_server [3] = Some h /\ dh_random [5] = Some k /\ shared_secret (public_key (rh_keys h)) k = Some shared /\
    let data := bytes (ex_encode (encrypt_blob ex_block (ex_sha1 (bytes "id") ++ [0; 0; 0; 20]) (write_blob 73 80 81 [9; 9; 9] ex_credentials))) in
    handle_add_user ex_decode ex_sha1 ex_hmac (fun _ _ l => ex_block [] l) (fun s _ _ _ => s) ex_block
      (client_params ex_encode ex_sha1 ex_hmac (fun _ _ l => ex_block [] l) shared (public_key k) (replicate 16 1) data "radio") h
    = (Ok (status_json 101 0 "OK"), mkRequestHandler ex_server (Some "radio") (rh_keys h) [EvCredentials ex_credentials] true).
Proof.
  refine (pairing_delivers_credentials ex_encode ex_decode ex_sha1 ex_hmac (fun _ _ l => ex_block [] l) (fun s _ _ _ => s) ex_block ex_block
            _ _ _ _ _ _ ex_server [3] [5] (replicate 16 1) [9; 9; 9] 73 80 81 "radio" ex_credentials _ _ _ _ _ _ _).
  - reflexivity.
  - intros k l. unfold ex_hmac. rewrite length_take, !length_app, length_replicate. lia.
  - apply ex_decode_encode.
  - intros k iv l. apply ex_block_inv.
  - intros k b _. apply ex_block_inv.
  - intros k b Hb. unfold ex_block. by rewrite length_map.
  - apply (bool_decide_eq_true_1 (Forall is_byte _)). vm_compute. reflexivity.
  - apply (bool_decide_eq_true_1 (Forall is_byte _)). vm_compute. reflexivity.
  - reflexivity.
  - reflexivity.
  - vm_compute. reflexivity.
  - vm_compute. reflexivity.
  - apply Nat.leb_le. vm_compute. reflexivity.
Defined.

Definition ex_handler : RequestHandler := mkRequestHandler ex_server None (mkDhLocalKeys 3 8) [] true.
(** A blob with a checksum that does not fit. *)
Definition ex_params (blob : list Z) : gmap string string :=
  {[ "userName" := "radio"; "blob" := ex_encode blob; "clientKey" := ex_encode [32] ]}.
Definition ex_add_user (blob : list Z) : res Error ServerResponse * RequestHandler :=
  handle_add_user ex_decode ex_sha1 ex_hmac (fun _ _ l => ex_block [] l) (fun s _ _ _ => s) ex_block (ex_params blob) ex_handler.

Lemma add_user_authenticated_witness : (ex_add_user (replicate 40 1)).2 = ex_handler.
Proof.
  destruct (add_user_authenticated ex_decode ex_sha1 ex_hmac (fun _ _ l => ex_block [] l) (fun s _ _ _ => s) ex_block (ex_params (replicate 40 1))
              ex_handler (ex_add_user (replicate 40 1)).2 (ex_add_user (replicate 40 1)).1 (surjective_pairing _))
    as [H|(user & blob & key & key' & shared & iv & enc & c & _ & _ & _ & _ & _ & H)]; [exact H|].
  exfalso. destruct (derive_keys ex_sha1 ex_hmac shared). destruct H as (_ & _ & _ & _ & H). vm_compute in H. discriminate H.
Defined.

Lemma short_discovery_blob_panics_witness : (ex_add_user (replicate 30 1)).1 = Panic.
Proof.
  apply (short_discovery_blob_panics ex_decode ex_sha1 ex_hmac (fun _ _ l => ex_block [] l) (fun s _ _ _ => s) ex_block
           (ex_params (replicate 30 1)) ex_handler "radio" (ex_encode (replicate 30 1)) (ex_encode [32]) (replicate 30 1) [32] [128; 0]);
    [reflexivity|reflexivity|reflexivity|apply ex_decode_encode|apply ex_decode_encode|vm_compute; reflexivity|simpl; lia].
Defined.

Lemma bad_request_panics_witness :
  (service ex_encode ex_decode "0" ex_sha1 ex_hmac (fun _ _ l => ex_block [] l) (fun s _ _ _ => s) ex_block (fun _ => [("action", "addUser")])
     "POST" None (Ok []) ex_handler).1 = Panic.
Proof.
  apply (bad_request_panics ex_encode ex_decode "0" ex_sha1 ex_hmac (fun _ _ l => ex_block [] l) (fun s _ _ _ => s) ex_block
           (fun _ => [("action", "addUser")]) [] ex_handler eq_refl).
Defined.
