(* ===== verification/SpClient.v ===== *)
(** * The service client ([native/librespot/core/src/spclient.rs], [login5.rs])

    Requests to Spotify's web services: the access point they go to, the client token and the
    access token they carry, and when they are repeated. The state is what the components keep
    ([Client]) and the requests made so far; [http] answers the [n]-th of them, [now] is the time at
    that point. Protocol messages are parameters, hash cash is solved by [HttpClient]. *)
From S2P Require Import Prelude Text SpotifyId SpotifyUri Config Errors Auth Date ApResolve Tokens HttpClient Effect.

Inductive RequestStrategy := TryTimes (n : Z) | Infinitely.
Definition default_strategy : RequestStrategy := TryTimes 10.

Record RequestOptions := mkRequestOptions { metrics : bool; salt : bool; opt_base_url : option string }.
Definition default_options : RequestOptions := mkRequestOptions true true None.
Definition NO_METRICS_AND_SALT : RequestOptions := mkRequestOptions false false None.

Record Client := mkClient {
  sp_accesspoint : option SocketAddress;
  strategy : RequestStrategy;
  client_token_cache : option Token;
  auth_token_cache : option Token;
  resolver : AccessPoints;
  requests : list HttpRequest
}.

Definition set_accesspoint (a : option SocketAddress) (s : Client) : Client :=
  mkClient a (strategy s) (client_token_cache s) (auth_token_cache s) (resolver s) (requests s).
Definition set_client_token (t : option Token) (s : Client) : Client :=
  mkClient (sp_accesspoint s) (strategy s) t (auth_token_cache s) (resolver s) (requests s).
Definition set_auth_token (t : option Token) (s : Client) : Client :=
  mkClient (sp_accesspoint s) (strategy s) (client_token_cache s) t (resolver s) (requests s).
Definition set_resolver (a : AccessPoints) (s : Client) : Client :=
  mkClient (sp_accesspoint s) (strategy s) (client_token_cache s) (auth_token_cache s) a (requests s).
Definition add_request (r : HttpRequest) (s : Client) : Client :=
  mkClient (sp_accesspoint s) (strategy s) (client_token_cache s) (auth_token_cache s) (resolver s) (requests s ++ [r]).
Definition set_strategy (x : RequestStrategy) (s : Client) : Client :=
  mkClient (sp_accesspoint s) x (client_token_cache s) (auth_token_cache s) (resolver s) (requests s).

Abbreviation M := (eff Client Error).

(** ** Messages *)

Inductive PlatformData :=
| DesktopWindows (os_version os_build platform_id unknown_value_6 image_file_machine pe_machine : Z) (unknown_value_10 : bool)
| Ios (user_interface_idiom : Z) (target_iphone_simulator : bool) (hw_machine system_version : string)
| Android (android_version : string) (api_version : Z) (device_name model_str vendor : string)
| DesktopMacos (system_version hw_model compiled_cpu_type : string)
| DesktopLinux (system_name system_release system_version hardware : string).

Inductive ClientTokenRequest :=
| ClientDataRequest (client_version client_id device_id : string) (platform : PlatformData)
| ChallengeAnswersRequest (state suffix : string).

Record GrantedToken := mkGrantedToken { granted_token : string; refresh_after_seconds : Z; domains : list string }.
Record ClientTokenResponse := mkClientTokenResponse {
  response_type : Z; challenge_state : string; challenges : list (string * Z); granted : GrantedToken
}.

Inductive Login_method := StoredCredential (username : string) (data : list Z) | LoginPassword (id password : string).
Record LoginRequest := mkLoginRequest {
  login_client_id : string; login_device_id : string; login_method : Login_method; login_context : list Z; solutions : list (list Z)
}.
Inductive Challenge5 := CodeChallenge5 | HashcashChallenge (prefix : list Z) (len : Z) | NoChallenge.
Record LoginOk := mkLoginOk { ok_access_token : string; ok_expires_in : Z; ok_stored_credential : list Z }.
Inductive LoginAnswer := LOk (ok : LoginOk) | LError (e : Z) | LChallenges (l : list Challenge5) | LNone.
Record LoginResponse := mkLoginResponse { login_answer : LoginAnswer; answer_context : list Z }.

(** ** The environment

    The network, the clock and the system, what the session knows, the message formats of other
    crates, and the rounds after which a loop of the model gives up. *)
Record Env := mkEnv {
  e_http : nat -> HttpRequest -> res Error (list Z);
  e_fetch : nat -> res Error ApResolveData;
  e_now : nat -> Z;
  e_config : SessionConfig;
  e_session_client_id : string;
  e_session_username : string;
  e_country : string;
  e_session_auth_data : list Z;
  e_connection_id : string;
  e_os : string;
  e_arch : string;
  e_os_version : string;
  e_kernel_version : string;
  e_uuid : string;
  e_temp_dir : string;
  e_parse_f32_as_i32 : string -> option Z;
  e_uri_ok : string -> bool;
  e_header_ok : string -> bool;
  e_random_u32 : nat -> Z;
  e_encode_client_token : ClientTokenRequest -> option (list Z);
  e_parse_client_token : list Z -> option ClientTokenResponse;
  e_encode_login : LoginRequest -> option (list Z);
  e_parse_login : list Z -> option LoginResponse;
  e_hex_decode : string -> option (list Z);
  e_hex_encode : list Z -> string;
  e_sha1 : list Z -> list Z;
  e_elapsed : nat -> Z;
  e_cash_rounds : nat;
  e_rounds : nat;
  e_token_rounds : nat
}.

Section client.
Context (E : Env).
#[local] Abbreviation http := (e_http E).
#[local] Abbreviation fetch := (e_fetch E).
#[local] Abbreviation now := (e_now E).
#[local] Abbreviation config := (e_config E).
#[local] Abbreviation session_client_id := (e_session_client_id E).
#[local] Abbreviation session_username := (e_session_username E).
#[local] Abbreviation country := (e_country E).
#[local] Abbreviation session_auth_data := (e_session_auth_data E).
#[local] Abbreviation connection_id := (e_connection_id E).
#[local] Abbreviation os := (e_os E).
#[local] Abbreviation arch := (e_arch E).
#[local] Abbreviation os_version := (e_os_version E).
#[local] Abbreviation kernel_version := (e_kernel_version E).
#[local] Abbreviation uuid := (e_uuid E).
#[local] Abbreviation temp_dir := (e_temp_dir E).
#[local] Abbreviation parse_f32_as_i32 := (e_parse_f32_as_i32 E).
#[local] Abbreviation uri_ok := (e_uri_ok E).
#[local] Abbreviation header_ok := (e_header_ok E).
#[local] Abbreviation random_u32 := (e_random_u32 E).
#[local] Abbreviation encode_client_token := (e_encode_client_token E).
#[local] Abbreviation parse_client_token := (e_parse_client_token E).
#[local] Abbreviation encode_login := (e_encode_login E).
#[local] Abbreviation parse_login := (e_parse_login E).
#[local] Abbreviation hex_decode := (e_hex_decode E).
#[local] Abbreviation hex_encode := (e_hex_encode E).
#[local] Abbreviation sha1 := (e_sha1 E).
#[local] Abbreviation elapsed := (e_elapsed E).
#[local] Abbreviation cash_rounds := (e_cash_rounds E).
#[local] Abbreviation rounds := (e_rounds E).
#[local] Abbreviation token_rounds := (e_token_rounds E).

(** [self.session().http_client().request_body(request)] *)
Definition http_request (r : HttpRequest) : M (list Z) := fun s => (http (length (requests s)) r, add_request r s).

Definition time : M Z := gets (fun s => now (length (requests s))).

(** [Request::builder() .. .body()] *)
Definition build_request (r : HttpRequest) : M HttpRequest := of_res (if uri_ok (uri r) then Ok r else Err (into_error InvalidUri)).

(** [HeaderValue::from_str] *)
Definition header_value (s : string) : M string := of_res (if header_ok s then Ok s else Err (into_error InvalidHeaderValue)).

(** ** The access point *)

Definition flush_accesspoint : M unit := modify (set_accesspoint None).

Definition get_accesspoint : M SocketAddress := fun s =>
  match sp_accesspoint s with
  | Some ap => (Ok ap, s)
  | None =>
      match resolve config (fetch (length (requests s))) "spclient" (resolver s) with
      | (Ok ap, a) => (Ok ap, set_accesspoint (Some ap) (set_resolver a s))
      | (r, a) => (r, set_resolver a s)
      end
  end.

Definition base_url : M string :=
  ap ← get_accesspoint; mret ("https://" +:+ ap.1 +:+ ":" +:+ show_Z ap.2).

(** ** The client token *)

Definition client_token_request (message : ClientTokenRequest) : M (list Z) :=
  body ← of_res (raise (ok_or ProtobufError (encode_client_token message)));
  request ← build_request (mkHttpRequest "POST" "https://clienttoken.spotify.com/v1/clienttoken"
                             {[ "accept" := "application/x-protobuf" ]} body);
  http_request request.

Definition platform_data : PlatformData :=
  if String.eqb os "windows" then
    let '(pe, image_file) :=
      if String.eqb arch "arm" then (448, 452)
      else if String.eqb arch "aarch64" then (43620, 452)
      else if String.eqb arch "x86_64" then (34404, 34404)
      else (332, 332) in
    DesktopWindows (default 10 (parse_f32_as_i32 os_version)) (default 21370 (parse_int 32 kernel_version)) 2 9 image_file pe true
  else if String.eqb os "ios" then Ios 0 false "iPhone14,5" os_version
  else if String.eqb os "android" then Android os_version 31 "Pixel" "GF5KQ" "Google"
  else if String.eqb os "macos" then DesktopMacos os_version "iMac21,1" arch
  else DesktopLinux "Linux" kernel_version os_version arch.

Definition client_data_request : ClientTokenRequest :=
  ClientDataRequest (spotify_semantic_version os)
    (if String.eqb os "macos" || String.eqb os "windows" then session_client_id else client_id (default_for_os uuid temp_dir os))
    (device_id config) platform_data.

Definition MAX_TRIES : Z := 3.

(** An answered challenge goes round again without looking at the count, which is a [u8]. *)
Fixpoint client_token_loop (fuel : nat) (count : Z) (response : list Z) : M ClientTokenResponse :=
  match fuel with
  | O => stop
  | S fuel =>
      let count := wrap 8 (count + 1) in
      message ← of_res (raise (ok_or ProtobufError (parse_client_token response)));
      if response_type message =? 1 then mret message
      else if response_type message =? 2 then
        match challenges message with
        | (prefix, len) :: _ =>
            prefix ← of_res (ok_or (failed_precondition (EMessage "Unable to decode hash cash challenge")) (hex_decode prefix));
            answer ← (match solve_hash_cash sha1 elapsed cash_rounds [] prefix len with Some r => catch (of_res r) | None => stop end);
            let again :=
              if count <? MAX_TRIES then
                response ← client_token_request client_data_request; client_token_loop fuel count response
              else throw (failed_precondition (EMessage "Unable to solve any hash cash challenge")) in
            match answer with
            | Ok suffix =>
                r ← catch (client_token_request (ChallengeAnswersRequest (challenge_state message) (hex_encode suffix)));
                match r with
                | Ok token => client_token_loop fuel count token
                | _ => again
                end
            | _ => again
            end
        | [] => throw (failed_precondition (EMessage "No challenges found"))
        end
      else if response_type message =? 0 then throw (unimplemented (EMessage "Unknown client token response type"))
      else throw (failed_precondition (EMessage "No client token response type"))
  end.

(** The cached token unless it has expired; a time that overflows panics. *)
Definition cached (t : option Token) (now : Z) : M (option Token) :=
  match t with
  | Some token => match is_expired now token with
                  | Some true => mret None
                  | Some false => mret (Some token)
                  | None => stop
                  end
  | None => mret None
  end.

(** [i32::try_into::<u64>().unwrap_or(d)] seconds, in nanoseconds *)
Definition seconds_or (d n : Z) : Z := (if 0 <=? n then n else d) * SECOND.

Definition client_token : M string :=
  t ← time;
  token ← gets client_token_cache;
  token ← cached token t;
  _ ← modify (set_client_token token);
  match token with
  | Some token => mret (access_token token)
  | None =>
      response ← client_token_request client_data_request;
      token_response ← client_token_loop token_rounds 0 response;
      let g := granted token_response in
      t ← time;
      _ ← modify (set_client_token (Some (mkToken (granted_token g) (seconds_or 7200 (refresh_after_seconds g)) "client-token" (domains g) t)));
      mret (granted_token g)
  end.

(** ** The access token (login5) *)

Definition MAX_LOGIN_TRIES : Z := 3.

Definition login_request_body (message : LoginRequest) : M (list Z) :=
  token ← client_token;
  body ← of_res (raise (ok_or ProtobufError (encode_login message)));
  token ← header_value token;
  request ← build_request (mkHttpRequest "POST" "https://login5.spotify.com/v3/login"
                             {[ "accept" := "application/x-protobuf"; "client-token" := token ]} body);
  http_request request.

Fixpoint solve_challenges (context : list Z) (l : list Challenge5) (req : LoginRequest) : M LoginRequest :=
  match l with
  | [] => mret req
  | CodeChallenge5 :: _ => throw (into_error CodeChallenge)
  | NoChallenge :: l => solve_challenges context l req
  | HashcashChallenge prefix len :: l =>
      suffix ← (match solve_hash_cash sha1 elapsed cash_rounds context prefix len with Some r => of_res r | None => stop end);
      solve_challenges context l
        (mkLoginRequest (login_client_id req) (login_device_id req) (login_method req) (login_context req) (solutions req ++ [suffix]))
  end.

Definition handle_challenges (req : LoginRequest) (l : list Challenge5) (context : list Z) : M LoginRequest :=
  req ← solve_challenges context l req;
  mret (mkLoginRequest (login_client_id req) (login_device_id req) (login_method req) context (solutions req)).

Fixpoint login5_loop (tries : nat) (req : LoginRequest) (response : list Z) : M LoginOk :=
  message ← of_res (raise (ok_or ProtobufError (parse_login response)));
  match login_answer message with
  | LOk ok => mret ok
  | answer =>
      _ ← (match answer with
           | LError e => if (e =? 4) || (e =? 6) then mret tt else throw (into_error (FaultyRequest e))
           | _ => mret tt
           end);
      req ← (match answer with
             | LChallenges l => handle_challenges req l (answer_context message)
             | _ => mret req
             end);
      match tries with
      | S tries => response ← login_request_body req; login5_loop tries req response
      | O => throw (into_error (RetriesFailed MAX_LOGIN_TRIES))
      end
  end.

Definition login5_request (login : Login_method) : M LoginOk :=
  let client :=
    if String.eqb os "macos" || String.eqb os "windows" then session_client_id
    else match login with
         | StoredCredential _ _ => session_client_id
         | LoginPassword _ _ => client_id (default_for_os uuid temp_dir os)
         end in
  let req := mkLoginRequest client (device_id config) login [] [] in
  response ← login_request_body req;
  login5_loop (Z.to_nat (MAX_LOGIN_TRIES - 1)) req response.

Definition token_from_login (token : string) (expires : Z) (t : Z) : Token :=
  mkToken token (seconds_or 3600 expires) "Bearer" [] t.

Definition login (id password : string) : M (Token * list Z) :=
  if negb (is_mobile os) then throw (into_error OnlyForMobile)
  else ok ← login5_request (LoginPassword id password);
       t ← time;
       mret (token_from_login (ok_access_token ok) (ok_expires_in ok) t, ok_stored_credential ok).

Definition auth_token : M Token :=
  match session_auth_data with
  | [] => throw (into_error NoStoredCredentials)
  | _ =>
      t ← time;
      token ← gets auth_token_cache;
      token ← cached token t;
      _ ← modify (set_auth_token token);
      match token with
      | Some token => mret token
      | None =>
          ok ← login5_request (StoredCredential session_username session_auth_data);
          t ← time;
          let token := token_from_login (ok_access_token ok) (ok_expires_in ok) t in
          _ ← modify (set_auth_token (Some token));
          mret token
      end
  end.
(** ** Requests *)

(** Metrics and salt are added to the address unless they are there. *)
Definition request_url (options : RequestOptions) (url : string) (n : nat) : string :=
  let url := if metrics options && negb (str_contains url "product=0")
             then url +:+ get_next_query_separator url +:+ "product=0&country=" +:+ country else url in
  if salt options && negb (str_contains url "salt=")
  then url +:+ get_next_query_separator url +:+ "salt=" +:+ show_Z (random_u32 n) else url.

(** One round: the request with the tokens of the moment. *)
Definition try_request (meth endpoint : string) (hdrs : gmap string string) (payload : list Z)
    (options : RequestOptions) : M (res Error (list Z)) :=
  url ← (match opt_base_url options with Some base_url => mret base_url | None => base_url end);
  n ← gets (fun s => length (requests s));
  request ← build_request (mkHttpRequest meth (request_url options (url +:+ endpoint) n)
                             {[ "content-length" := show_Z (Z.of_nat (length payload)) ]} payload);
  token ← auth_token;
  authorization ← header_value (token_type token +:+ " " +:+ access_token token);
  let h := <["authorization" := authorization]> (hdrs ∪ headers request) in
  ct ← catch (client_token);
  h ← (match ct with Ok ct => v ← header_value ct; mret (<["client-token" := v]> h) | _ => mret h end);
  catch (http_request (mkHttpRequest (method request) (uri request) h (body request))).

(** [k] bounds the loop: with [TryTimes n], [n] rounds are enough. *)
Fixpoint request_loop (k : nat) (tries : Z) (meth endpoint : string) (hdrs : gmap string string) (payload : list Z)
    (options : RequestOptions) : M (list Z) :=
  match k with
  | O => stop
  | S k =>
      let tries := usize_add tries 1 in
      last_response ← try_request meth endpoint hdrs payload options;
      match last_response with
      | Ok r => mret r
      | Err e =>
          st ← gets strategy;
          if (match st with TryTimes max_tries => max_tries <=? tries | Infinitely => false end) then throw e
          else if retried (kind e) then
            _ ← (if tries mod 3 =? 0 then flush_accesspoint else mret tt);
            request_loop k tries meth endpoint hdrs payload options
          else throw e
      | Panic => stop
      end
  end.

Definition request_with_options (meth endpoint : string) (hdrs : option (gmap string string)) (payload : option (list Z))
    (options : RequestOptions) : M (list Z) :=
  request_loop rounds 0 meth endpoint (default ∅ hdrs) (default [] payload) options.

Definition sp_request (meth endpoint : string) (hdrs : option (gmap string string)) (payload : option (list Z)) : M (list Z) :=
  request_with_options meth endpoint hdrs payload default_options.

(** [message] is the encoded message, or [None] when it cannot be encoded. *)
Definition request_with_protobuf_and_options (meth endpoint : string) (hdrs : option (gmap string string))
    (message : option (list Z)) (options : RequestOptions) : M (list Z) :=
  payload ← of_res (raise (ok_or ProtobufError message));
  request_with_options meth endpoint (Some (<["content-type" := "application/x-protobuf"]> (default ∅ hdrs))) (Some payload) options.

Definition request_with_protobuf (meth endpoint : string) (hdrs : option (gmap string string)) (message : option (list Z)) : M (list Z) :=
  request_with_protobuf_and_options meth endpoint hdrs message default_options.

Definition request_as_json (meth endpoint : string) (hdrs : option (gmap string string)) (payload : option string) : M (list Z) :=
  sp_request meth endpoint (Some (<["accept" := "application/json"]> (default ∅ hdrs))) (bytes <$> payload).

(** ** Endpoints *)

(** The text of an identifier; [to_base62] and [to_uri] have no error, only the indexing in them. *)
Definition text (r : res SpotifyIdError string) : M string := match r with Ok t => mret t | _ => stop end.

Fixpoint texts (l : list SpotifyId) : M (list string) :=
  match l with
  | [] => mret []
  | i :: l => t ← text (to_base62 i); ts ← texts l; mret (t :: ts)
  end.

Definition connect_state_endpoint : string := "/connect-state/v1/devices/" +:+ device_id config.

Definition connection_header : M (gmap string string) :=
  v ← header_value connection_id; mret {[ "x-spotify-connection-id" := v ]}.

Definition put_connect_state_request (state : option (list Z)) : M (list Z) :=
  h ← connection_header; request_with_protobuf "PUT" connect_state_endpoint (Some h) state.

Definition delete_connect_state_request : M (list Z) := sp_request "DELETE" connect_state_endpoint None None.

Definition put_connect_state_inactive (notify : bool) : M (list Z) :=
  h ← connection_header;
  sp_request "PUT" (connect_state_endpoint +:+ "/inactive?notify=" +:+ (if notify then "true" else "false")) (Some h) None.

(** The answer to a request for extended metadata: entries with their extension data. *)
Definition last_data (entries : list (list (option (list Z)))) : res Error (list Z) :=
  extended_metadata ← raise (ok_or (ExpectedEntry "extended_metadata") (last entries));
  data ← raise (ok_or (ExpectedEntry "extension_data") (last extended_metadata));
  raise (ok_or (ExpectedEntry "data") data).

Section metadata.
(** The request for one kind of metadata of one item, and the decoder of the answer. *)
Context (encode_batch : Z -> string -> option (list Z)) (parse_batch : list Z -> option (list (list (option (list Z))))).

Definition get_extended_metadata (request : option (list Z)) : M (list (list (option (list Z)))) :=
  r ← request_with_protobuf "POST" "/extended-metadata/v0/extended-metadata" None request;
  of_res (raise (ok_or ProtobufError (parse_batch r))).

Definition get_metadata (kind : Z) (id : SpotifyUri) : M (list Z) :=
  uri ← text (to_uri id);
  r ← get_extended_metadata (encode_batch kind uri); of_res (last_data r).

(** [ExtensionKind]: ARTIST_V4, ALBUM_V4, TRACK_V4, SHOW_V4, EPISODE_V4 *)
Definition get_artist_metadata (uri : SpotifyUri) : M (list Z) := get_metadata 8 uri.
Definition get_album_metadata (uri : SpotifyUri) : M (list Z) := get_metadata 9 uri.
Definition get_track_metadata (uri : SpotifyUri) : M (list Z) := get_metadata 10 uri.
Definition get_show_metadata (uri : SpotifyUri) : M (list Z) := get_metadata 11 uri.
Definition get_episode_metadata (uri : SpotifyUri) : M (list Z) := get_metadata 12 uri.
End metadata.

Definition get_lyrics (track_id : SpotifyId) : M (list Z) :=
  t ← text (to_base62 track_id); request_as_json "GET" ("/color-lyrics/v2/track/" +:+ t) None None.

Definition get_lyrics_for_image (track_id : SpotifyId) (image_id : FileId) : M (list Z) :=
  t ← text (to_base62 track_id);
  request_as_json "GET" ("/color-lyrics/v2/track/" +:+ t +:+ "/image/spotify:image:" +:+ file_id_to_base16 image_id) None None.

Definition get_playlist (playlist_id : SpotifyId) : M (list Z) :=
  t ← text (to_base62 playlist_id); sp_request "GET" ("/playlist/v2/playlist/" +:+ t) None None.

Definition get_user_profile (user : string) (playlist_limit artist_limit : option Z) : M (list Z) :=
  let endpoint := "/user-profile-view/v3/profile/" +:+ user in
  let endpoint :=
    match playlist_limit, artist_limit with
    | None, None => endpoint
    | _, _ =>
        endpoint +:+ "?" +:+
        (match playlist_limit with
         | Some limit => "playlist_limit=" +:+ show_Z limit +:+ (match artist_limit with Some _ => "&" | None => "" end)
         | None => ""
         end) +:+
        (match artist_limit with Some limit => "artist_limit=" +:+ show_Z limit | None => "" end)
    end in
  request_as_json "GET" endpoint None None.

Definition get_user_followers (user : string) : M (list Z) :=
  request_as_json "GET" ("/user-profile-view/v3/profile/" +:+ user +:+ "/followers") None None.

Definition get_user_following (user : string) : M (list Z) :=
  request_as_json "GET" ("/user-profile-view/v3/profile/" +:+ user +:+ "/following") None None.

Definition get_radio_for_track (track_uri : SpotifyUri) : M (list Z) :=
  uri ← text (to_uri track_uri);
  request_as_json "GET" ("/inspiredby-mix/v2/seed_to_playlist/" +:+ uri +:+ "?response-format=json") None None.

Definition get_apollo_station (scope context_uri : string) (count : option Z) (previous_tracks : list SpotifyId) (autoplay : bool) : M (list Z) :=
  let endpoint := "/radio-apollo/v3/" +:+ scope +:+ "/" +:+ context_uri +:+ "?autoplay=" +:+ (if autoplay then "true" else "false") in
  let endpoint := match count with Some count => endpoint +:+ "&count=" +:+ show_Z count | None => endpoint end in
  previous ← texts previous_tracks;
  let previous_track_str := join "," previous in
  let endpoint := if is_empty previous_track_str then endpoint else endpoint +:+ "&prev_tracks=" +:+ previous_track_str in
  request_as_json "GET" endpoint None None.

(** [s.trim_start_matches(p)]: every repetition of [p] at the start is removed. *)
Fixpoint trim_start_matches (n : nat) (p s : string) : string :=
  match n with
  | O => s
  | S n => match strip_prefix s p with Some s => trim_start_matches n p s | None => s end
  end.

Definition get_next_page (next_page_uri : string) : M (list Z) :=
  request_as_json "GET" (trim_start_matches (String.length next_page_uri) "hm:/" next_page_uri) None None.

Definition get_audio_storage (file_id : FileId) : M (list Z) :=
  sp_request "GET" ("/storage-resolve/files/audio/interactive/" +:+ file_id_to_base16 file_id) None None.

(** [offset + length - 1] is [usize] arithmetic. *)
Definition cdn_request (cdn_url : string) (offset length : Z) : M HttpRequest :=
  range ← header_value ("bytes=" +:+ show_Z offset +:+ "-" +:+ show_Z (usize_sub (usize_add offset length) 1));
  build_request (mkHttpRequest "GET" cdn_url {[ "range" := range ]} []).

Definition get_url (url : string) : M (list Z) :=
  request ← build_request (mkHttpRequest "GET" url ∅ []); http_request request.

(** [template] is the user attribute with the pattern of the address. *)
Definition get_from_template (attribute : string) (template : option string) (pattern id : string) (query : string -> string) : M (list Z) :=
  template ← of_res (raise (ok_or (SpAttribute attribute) template));
  let url := replace_str pattern id template in
  get_url (url +:+ query url).

Definition get_audio_preview (template : option string) (preview_id : FileId) : M (list Z) :=
  get_from_template "audio-preview-url-template" template "{id}" (file_id_to_base16 preview_id)
    (fun url => (if no_char "?" url then "?" else "&") +:+ "cid=" +:+ session_client_id).

Definition get_head_file (template : option string) (file_id : FileId) : M (list Z) :=
  get_from_template "head-files-url" template "{file_id}" (file_id_to_base16 file_id) (fun _ => "").

Definition get_image (template : option string) (image_id : FileId) : M (list Z) :=
  get_from_template "image-url" template "{file_id}" (file_id_to_base16 image_id) (fun _ => "").

(** What follows the answer to a context request: it must be text, not empty, and JSON. *)
Definition parse_context {C} (parse_json : string -> option C) (r : list Z) : res Error C :=
  ctx_json ← raise (ok_or FromUtf8Error (from_utf8 r));
  if is_empty ctx_json then Err (into_error NoData) else raise (ok_or JsonMappingError (parse_json ctx_json)).

Definition get_context {C} (parse_json : string -> option C) (context_uri : string) : M C :=
  r ← request_with_options "GET" ("/context-resolve/v1/" +:+ context_uri) None None NO_METRICS_AND_SALT;
  of_res (parse_context parse_json r).

Definition get_autoplay_context {C} (parse_json : string -> option C) (context_request : option (list Z)) : M C :=
  r ← request_with_protobuf_and_options "POST" "/context-resolve/v1/autoplay" None context_request NO_METRICS_AND_SALT;
  of_res (parse_context parse_json r).

Definition get_rootlist (from : Z) (length : option Z) : M (list Z) :=
  sp_request "GET" ("/playlist/v2/user/" +:+ session_username +:+
    "/rootlist?decorate=revision,attributes,length,owner,capabilities,status_code&from=" +:+ show_Z from +:+
    "&length=" +:+ show_Z (default 120 length)) None None.

(** [transfer_request] is the request as JSON, or [Some None] when it cannot be serialized. *)
Definition transfer (from_device_id to_device_id : string) (transfer_request : option (option string)) : M (list Z) :=
  body ← (match transfer_request with
          | Some json => json ← of_res (raise (ok_or JsonError json)); mret (Some json)
          | None => mret None
          end);
  request_with_options "POST" ("/connect-state/v1/connect/transfer/from/" +:+ from_device_id +:+ "/to/" +:+ to_device_id)
    None (bytes <$> body) NO_METRICS_AND_SALT.
End client.
