(* ===== verification/SpClientSpec.v ===== *)
(** * What the service client promises

    Requests and logins end after a bounded number of rounds, a valid token is not asked for again,
    and the one loop without a bound, that of the client token. *)
From S2P Require Import Prelude Text Config Errors Auth ApResolve Tokens HttpClient Effect SpClient.

(** ** Counting requests *)

(** The requests of [request_with_options] carry the access token; those for tokens do not. *)
Definition is_api (r : HttpRequest) : bool := match headers r !! "authorization" with Some _ => true | None => false end.
Definition is_login (r : HttpRequest) : bool := String.eqb (uri r) "https://login5.spotify.com/v3/login".

(** From [s] to [s'] at most [n] requests that satisfy [p] were made. *)
Definition sends (p : HttpRequest -> bool) (n : nat) (s s' : Client) : Prop :=
  exists l, requests s' = requests s ++ l /\ (length (List.filter p l) <= n)%nat /\ strategy s' = strategy s.

(** [m] makes at most [n] of them, if it returns. *)
Definition runs (p : HttpRequest -> bool) (n : nat) {A} (m : M A) : Prop :=
  forall s, wp True m (fun _ s' => sends p n s s') s.

Section runs.
Context (p : HttpRequest -> bool).

Lemma sends_refl n s s' : requests s' = requests s -> strategy s' = strategy s -> sends p n s s'.
Proof. intros Hr Hs. exists []. rewrite app_nil_r. split_and!; [done|simpl; lia|done]. Qed.

Lemma sends_trans n1 n2 s1 s2 s3 : sends p n1 s1 s2 -> sends p n2 s2 s3 -> sends p (n1 + n2) s1 s3.
Proof.
  intros (l1 & R1 & L1 & S1) (l2 & R2 & L2 & S2). exists (l1 ++ l2).
  rewrite R2, R1, app_assoc, List.filter_app, length_app. split_and!; [done|lia|congruence].
Qed.

Lemma sends_weaken n n' s s' : (n <= n')%nat -> sends p n s s' -> sends p n' s s'.
Proof. intros Hn (l & R & L & S). exists l. split_and!; [done|lia|done]. Qed.

Lemma runs_bind n1 n2 {A B} (m : M A) (k : A -> M B) : runs p n1 m -> (forall a, runs p n2 (k a)) -> runs p (n1 + n2) (m ≫= k).
Proof.
  intros Hm Hk s. wp_step. wp_use Hm. intros [a|e|] s' Hp Hs; [| |done].
  - wp_use (Hk a). intros r s'' _ Hs'. by eapply sends_trans.
  - eapply sends_weaken; [|done]. lia.
Qed.

Lemma runs_bind_0 n {A B} (m : M A) (k : A -> M B) : runs p 0 m -> (forall a, runs p n (k a)) -> runs p n (m ≫= k).
Proof. apply (runs_bind 0). Qed.

Lemma runs_ret n {A} (a : A) : runs p n (mret a).
Proof. intros s. wp_run. by apply sends_refl. Qed.
Lemma runs_gets n {A} (f : Client -> A) : runs p n (gets f).
Proof. intros s. wp_run. by apply sends_refl. Qed.
Lemma runs_throw n {A} e : runs p n (throw (A := A) e).
Proof. intros s. wp_run. by apply sends_refl. Qed.
Lemma runs_stop n {A} : runs p n (stop (A := A)).
Proof. done. Qed.
Lemma runs_modify n f : (forall s, requests (f s) = requests s) -> (forall s, strategy (f s) = strategy s) -> runs p n (modify f).
Proof. intros H1 H2 s. wp_run. by apply sends_refl. Qed.
Lemma runs_of_res n {A} (r : res Error A) : runs p n (of_res r).
Proof. intros s. unfold wp, of_res. destruct r; [by apply sends_refl..|done]. Qed.
Lemma runs_catch n {A} (m : M A) : runs p n m -> runs p n (catch m).
Proof. intros Hm s. wp_step. wp_use Hm. by intros r s' _. Qed.
End runs.

Create HintDb runs.
#[export] Hint Resolve runs_ret runs_gets runs_throw runs_stop runs_of_res : runs.
#[export] Hint Extern 1 (runs _ _ (modify _)) => apply runs_modify; reflexivity : runs.

(** Follow the program: binds, case distinctions, and what is known of the calls. *)
Ltac runs :=
  repeat first
    [ solve [eauto with runs]
    | match goal with
      | |- forall _, _ => intros ?
      | |- runs _ _ (match ?x with _ => _ end) => destruct x
      | |- runs _ _ (_ ≫= _) => apply runs_bind_0
      | |- runs _ _ (catch _) => apply runs_catch
      | |- runs _ _ (let _ := _ in _) => cbv zeta
      end ].

(** ** The calls *)

Section spec.
Context (E : Env) (p : HttpRequest -> bool).

Lemma runs_http_request n r : (if p r then 1 <= n else 0 <= n)%nat -> runs p n (http_request E r).
Proof.
  intros Hn s. unfold wp, http_request.
  assert (Hs : sends p n s (add_request r s)); [|by destruct (e_http E (length (requests s)) r)].
  exists [r]. split_and!; [done| |done]. simpl. destruct (p r); simpl; lia.
Qed.

Lemma runs_build_request n r : runs p n (build_request E r).
Proof. unfold build_request. runs. Qed.
Lemma runs_header_value n v : runs p n (header_value E v).
Proof. unfold header_value. runs. Qed.
Lemma runs_time n : runs p n (time E).
Proof. unfold time. runs. Qed.
Lemma runs_cached n t now : runs p n (cached t now).
Proof. unfold cached. runs. Qed.
Hint Resolve runs_build_request runs_header_value runs_time runs_cached : runs.

Lemma runs_base_url n : runs p n (base_url E).
Proof.
  unfold base_url. apply runs_bind_0; [|runs]. intros s. unfold wp, get_accesspoint.
  destruct (sp_accesspoint s); [by apply sends_refl|].
  destruct (resolve _ _ _ _) as [[]]; [by apply sends_refl..|done].
Qed.

(** A request that is built and sent *)
Lemma runs_send n r : (if p r then 1 <= n else 0 <= n)%nat -> runs p n (r' ← build_request E r; http_request E r').
Proof.
  intros Hn s. wp_step. unfold wp at 1, build_request, of_res. destruct (e_uri_ok E (uri r)); [|by apply sends_refl].
  by apply runs_http_request.
Qed.
End spec.
#[export] Hint Resolve runs_build_request runs_header_value runs_time runs_cached runs_base_url : runs.

(** The requests for a client token are not counted, whichever of the two kinds is. *)
Section tokens.
Context (E : Env) (p : HttpRequest -> bool) (Hp : p = is_api \/ p = is_login).

Lemma runs_client_token_request msg : runs p 0 (client_token_request E msg).
Proof.
  unfold client_token_request. apply runs_bind_0; [auto with runs|]. intros body. apply runs_send.
  destruct Hp as [H | H]; rewrite H; [|simpl; lia]. unfold is_api. cbn [headers]. rewrite lookup_singleton_ne by done. lia.
Qed.
Hint Resolve runs_client_token_request : runs.

Lemma runs_client_token_loop fuel count response : runs p 0 (client_token_loop E fuel count response).
Proof. revert count response. induction fuel as [|fuel IH]; intros count response; cbn [client_token_loop]; runs. Qed.
Hint Resolve runs_client_token_loop : runs.

Lemma runs_client_token : runs p 0 (client_token E).
Proof. unfold client_token. runs. Qed.

Lemma runs_solve_challenges n context l req : runs p n (solve_challenges E context l req).
Proof. revert req. induction l as [|c l IH]; intros req; cbn [solve_challenges]; runs. Qed.
End tokens.
#[export] Hint Resolve runs_client_token runs_solve_challenges : runs.
#[export] Hint Extern 0 (_ = _ \/ _ = _) => (left; reflexivity) + (right; reflexivity) : runs.

Section logins.
Context (E : Env).

Lemma runs_login_request_body req : runs is_login 1 (login_request_body E req) /\ runs is_api 0 (login_request_body E req).
Proof.
  unfold login_request_body.
  split; (apply runs_bind_0; [auto with runs|]; intros token; apply runs_bind_0; [auto with runs|]; intros body;
          apply runs_bind_0; [auto with runs|]; intros v; apply runs_send).
  - simpl. lia.
  - unfold is_api. cbn [headers]. rewrite lookup_insert_ne, lookup_singleton_ne by done. lia.
Qed.

Lemma runs_login5_loop p n tries req response :
  p = is_api \/ p = is_login -> (forall req, runs p n (login_request_body E req)) -> runs p (tries * n) (login5_loop E tries req response).
Proof.
  intros Hp Hn. revert req response. induction tries as [|tries IH]; intros req response; cbn [login5_loop];
    unfold handle_challenges; (apply runs_bind_0; [auto with runs|]); intros message; [runs|].
  assert (Hnext : forall req, runs p (S tries * n) (response ← login_request_body E req; login5_loop E tries req response)).
  { intros r. simpl. apply runs_bind; auto. }
  runs.
Qed.

Lemma runs_login5_request p n login :
  p = is_api \/ p = is_login -> (forall req, runs p n (login_request_body E req)) -> runs p (3 * n) (login5_request E login).
Proof.
  intros Hp Hn. unfold login5_request. apply (runs_bind p n (2 * n)); [by apply Hn|]. intros response. by apply runs_login5_loop.
Qed.

Lemma runs_auth_token : runs is_api 0 (auth_token E).
Proof.
  assert (H : forall login, runs is_api 0 (login5_request E login)).
  { intros login. apply (runs_login5_request is_api 0); [by left|]. intros req. apply runs_login_request_body. }
  unfold auth_token. runs.
Qed.
End logins.
#[export] Hint Resolve runs_auth_token : runs.

(** ** Requests *)

(** The last request made carried the access token, and [b] is the answer to it. *)
Definition answered (E : Env) (b : list Z) (s : Client) : Prop :=
  exists l r, requests s = l ++ [r] /\ is_api r = true /\ e_http E (length l) r = Ok b.

(** What one round of the loop ends with. *)
Definition tried (E : Env) (s : Client) (r : res Error (res Error (list Z))) (s' : Client) : Prop :=
  sends is_api 1 s s' /\ match r with Ok (Ok b) => answered E b s' | Ok Panic => False | _ => True end.

Lemma tried_bind E {A} (m : M A) (k : A -> M (res Error (list Z))) s :
  runs is_api 0 m -> (forall a s, wp True (k a) (tried E s) s) -> wp True (m ≫= k) (tried E s) s.
Proof.
  intros Hm Hk. wp_step. wp_use Hm. intros [a|e|] s1 _ Hs; [| |done].
  - wp_use (Hk a). intros r s2 _ [Hs2 Hr]. split; [|done]. by apply (sends_trans is_api 0 1 s s1).
  - split; [|done]. eapply sends_weaken; [|done]. lia.
Qed.

Lemma tried_send E r s : is_api r = true -> wp True (catch (http_request E r)) (tried E s) s.
Proof.
  intros Hr. wp_step. unfold wp, http_request.
  assert (Hs : sends is_api 1 s (add_request r s)).
  { exists [r]. split_and!; [done| |done]. simpl. rewrite Hr. simpl. lia. }
  destruct (e_http E (length (requests s)) r) as [b|e|] eqn:Hb; [|by split|done].
  split; [done|]. by exists (requests s), r.
Qed.

Section requests.
Context (E : Env) (meth endpoint : string) (hdrs : gmap string string) (payload : list Z) (options : RequestOptions).
#[local] Abbreviation try := (try_request E meth endpoint hdrs payload options).
#[local] Abbreviation loop := (fun k tries => request_loop E k tries meth endpoint hdrs payload options).

Lemma try_request_spec s : wp True try (tried E s) s.
Proof.
  unfold try_request.
  do 3 (apply tried_bind; [runs|]; clear s; intros ? s).
  do 2 (apply tried_bind; [runs|]; clear s; intros ? s). cbv zeta.
  apply tried_bind; [runs|]; clear s; intros ct s.
  assert (Hsend : forall s h, is_Some (h !! "authorization") ->
            wp True (catch (http_request E (mkHttpRequest (method a1) (uri a1) h (body a1)))) (tried E s) s).
  { intros s' h [v Hv]. apply tried_send. unfold is_api. cbn [headers]. by rewrite Hv. }
  assert (Hauth : is_Some (<["authorization":=a3]> (hdrs ∪ headers a1) !! "authorization")).
  { rewrite lookup_insert_eq. by eexists. }
  destruct ct as [v|e|]; [|wp_step; wp_step; by apply Hsend..].
  wp_step. wp_step. unfold wp at 1, header_value, of_res. destruct (e_header_ok E v); [|split; [by apply sends_refl|done]].
  wp_step. apply Hsend. by rewrite lookup_insert_ne by done.
Qed.

(** With [TryTimes n] the bound on the rounds is not what ends the loop. *)
Lemma request_loop_bound n j k tries s :
  strategy s = TryTimes n -> n - tries = Z.of_nat j -> (1 <= j <= k)%nat -> 0 <= tries -> n <= usize_max ->
  loop k tries s = loop j tries s.
Proof.
  revert k tries s. induction j as [|j IH]; intros [|k] tries s Hs Hj Hk Ht Hn; try lia.
  cbn [request_loop]. unfold usize_add. rewrite wrap_small by (unfold fits, usize_max in *; lia).
  apply run_ext. intros r s1 Hr. pose proof (try_request_spec s) as Htry. unfold wp in Htry. rewrite Hr in Htry.
  destruct Htry as [(l & _ & _ & Hs1) _]. rewrite Hs in Hs1. destruct r as [b|e|]; [done| |done].
  apply run_ext. intros st s2 [= <- <-]. rewrite Hs1. case_if; [done|]. case_if; [|done].
  apply run_ext. intros [] s2 Hs2.
  assert (strategy s2 = TryTimes n) by (destruct (_ =? 0); by injection Hs2 as <-).
  apply IH; [done|lia|lia|lia|done].
Qed.

Lemma request_loop_sends n j tries s :
  strategy s = TryTimes n -> n - tries = Z.of_nat j -> (1 <= j)%nat -> 0 <= tries -> n <= usize_max ->
  wp True (loop j tries) (fun r s' => sends is_api j s s' /\ match r with Ok b => answered E b s' | _ => True end) s.
Proof.
  revert tries s. induction j as [|j IH]; intros tries s Hs Hj Hk Ht Hn; try lia.
  cbn [request_loop]. unfold usize_add. rewrite wrap_small by (unfold fits, usize_max in *; lia).
  wp_step. wp_use try_request_spec. intros [[b|e|]|e|] s1 _ [Hs1 Hb]; [| |done| |done].
  - wp_step. split; [|done]. eapply sends_weaken; [|done]. lia.
  - assert (Hw : sends is_api (S j) s s1) by (eapply sends_weaken; [|done]; lia).
    pose proof Hs1 as (l & _ & _ & Hst). rewrite Hs in Hst. wp_step. wp_step. rewrite Hst.
    case_if; [wp_step; by split|]. case_if; [|wp_step; by split].
    wp_step. assert (Hf : runs is_api 0 (if (tries + 1) mod 3 =? 0 then flush_accesspoint else mret tt)) by (unfold flush_accesspoint; runs).
    wp_use Hf. intros [u|e'|] s2 _ Hs2; [|split; [|done]; by apply (sends_weaken is_api 1 (S j)), (sends_trans is_api 1 0 s s1 s2); [lia|..]|done].
    pose proof Hs2 as (l2 & _ & _ & Hst2). rewrite Hst in Hst2.
    wp_use (IH (tries + 1) s2 Hst2 ltac:(lia) ltac:(lia) ltac:(lia) Hn). intros r s3 _ [Hs3 Hr]. split; [|done].
    apply (sends_trans is_api 1 j s s1); [done|]. by apply (sends_trans is_api 0 j s1 s2).
  - split; [|done]. eapply sends_weaken; [|done]. lia.
Qed.
End requests.

(** ** Tokens *)

Definition unexpired (E : Env) (t : Token) : Prop := forall n, is_expired (e_now E n) t = Some false.

(** Both tokens are there and stay valid. *)
Definition has_tokens (E : Env) (s : Client) : Prop :=
  (exists t, auth_token_cache s = Some t /\ unexpired E t) /\ (exists t, client_token_cache s = Some t /\ unexpired E t).

Lemma client_token_cached E s t :
  client_token_cache s = Some t -> is_expired (e_now E (length (requests s))) t = Some false -> client_token E s = (Ok (access_token t), s).
Proof.
  intros Ht He. unfold client_token, time. repeat (erewrite run_bind by reflexivity). rewrite Ht. cbn [cached]. rewrite He.
  repeat (erewrite run_bind by reflexivity). cbv [mret eff_ret modify set_client_token]. rewrite <- Ht. by destruct s.
Qed.

Lemma auth_token_cached E s t :
  auth_token_cache s = Some t -> is_expired (e_now E (length (requests s))) t = Some false -> e_session_auth_data E <> [] ->
  auth_token E s = (Ok t, s).
Proof.
  intros Ht He Hd. unfold auth_token, time. destruct (e_session_auth_data E); [done|].
  repeat (erewrite run_bind by reflexivity). rewrite Ht. cbn [cached]. rewrite He.
  repeat (erewrite run_bind by reflexivity). cbv [mret eff_ret modify set_auth_token]. rewrite <- Ht. by destruct s.
Qed.

Section returns.
Context (E : Env) (Hhttp : forall n r, e_http E n r <> Panic) (Hdata : e_session_auth_data E <> []).
Context (meth endpoint : string) (hdrs : gmap string string) (payload : list Z) (options : RequestOptions).

(** [m] returns, and the tokens are still there. *)
Definition goes_on {A} (m : M A) : Prop := forall s, has_tokens E s -> wp False m (fun _ s' => has_tokens E s') s.

Lemma goes_on_bind {A B} (m : M A) (k : A -> M B) : goes_on m -> (forall a, goes_on (k a)) -> goes_on (m ≫= k).
Proof. intros Hm Hk s Hs. wp_step. wp_use (Hm s Hs). intros [a|e|] s1 Hp Hs1; [by apply Hk|done|done]. Qed.

Lemma goes_on_same {A} (m : M A) : (forall s, has_tokens E s -> (m s).1 <> Panic /\ has_tokens E (m s).2) -> goes_on m.
Proof. intros H s Hs. destruct (H s Hs) as [Hp Ht]. unfold wp. by destruct (m s) as [[]]. Qed.

Lemma goes_on_ret {A} (a : A) : goes_on (mret a).
Proof. by intros s Hs. Qed.

Lemma goes_on_checked {A} (b : bool) (r : A) e : goes_on (of_res (if b then Ok r else Err e)).
Proof. intros s Hs. unfold wp, of_res. by destruct b. Qed.

Lemma goes_on_base_url : goes_on (base_url E).
Proof.
  unfold base_url. apply goes_on_bind; [|intros; apply goes_on_ret]. intros s Hs. unfold wp, get_accesspoint.
  destruct (sp_accesspoint s); [done|]. unfold resolve.
  destruct (pop_front_list "spclient" (if is_any_empty (resolver s) then apresolve (e_config E) (e_fetch E (length (requests s))) else resolver s))
    as (a' & Ha & _); [by right; right|]. cbv zeta. rewrite Ha. destruct (head _); exact Hs.
Qed.

Lemma goes_on_tokens : goes_on (auth_token E) /\ goes_on (catch (client_token E)).
Proof.
  split; apply goes_on_same; intros s Hs; pose proof Hs as [(t & Ht & He) (t' & Ht' & He')].
  - by rewrite (auth_token_cached E s t Ht (He _) Hdata).
  - unfold catch. by rewrite (client_token_cached E s t' Ht' (He' _)).
Qed.

Lemma goes_on_try : goes_on (try_request E meth endpoint hdrs payload options).
Proof.
  unfold try_request.
  apply goes_on_bind; [destruct (opt_base_url options); [apply goes_on_ret|apply goes_on_base_url]|]. intros url.
  apply goes_on_bind; [by intros s Hs|]. intros n.
  apply goes_on_bind; [apply goes_on_checked|]. intros req.
  apply goes_on_bind; [apply goes_on_tokens|]. intros token.
  apply goes_on_bind; [apply goes_on_checked|]. intros v. cbv zeta.
  apply goes_on_bind; [apply goes_on_tokens|]. intros ct.
  apply goes_on_bind; [destruct ct; [apply goes_on_bind; [apply goes_on_checked|intros; apply goes_on_ret]|apply goes_on_ret..]|].
  intros h s Hs. wp_step. unfold wp, http_request.
  pose proof (Hhttp (length (requests s)) (mkHttpRequest (method req) (uri req) h (body req))) as Hp.
  by destruct (e_http E _ _).
Qed.

Lemma goes_on_loop n j tries s :
  strategy s = TryTimes n -> n - tries = Z.of_nat j -> (1 <= j)%nat -> 0 <= tries -> n <= usize_max -> has_tokens E s ->
  wp False (request_loop E j tries meth endpoint hdrs payload options) (fun _ s' => has_tokens E s') s.
Proof.
  revert tries s. induction j as [|j IH]; intros tries s Hs Hj Hk Ht Hn Htok; try lia.
  cbn [request_loop]. unfold usize_add. rewrite wrap_small by (unfold fits, usize_max in *; lia).
  pose proof (try_request_spec E meth endpoint hdrs payload options s) as Htry.
  pose proof (goes_on_try s Htok) as Hgo. wp_step. unfold wp at 1. unfold wp in Htry, Hgo.
  destruct (try_request E meth endpoint hdrs payload options s) as [[r|e|] s1]; [|done|done].
  destruct Htry as [(l & _ & _ & Hst) Hr]. rewrite Hs in Hst.
  destruct r as [b|e|]; [done| |done]. wp_step. wp_step. rewrite Hst. case_if; [done|]. case_if; [|done]. wp_step.
  unfold flush_accesspoint. case_if; (wp_step; apply IH; [done|lia|lia|lia|done|done]).
Qed.
End returns.

(** ** Theorems *)

(** C36: A request with [TryTimes n] ends: the loop makes at most [n] rounds, whatever the bound of
    the model, so at most [n] requests with the access token are sent, and a body that is returned
    is the answer to the last of them. While the tokens are valid it returns, with a body or an
    error. *)
Theorem request_ends (E : Env) (meth endpoint : string) (hdrs : option (gmap string string)) (payload : option (list Z))
    (options : RequestOptions) (n : Z) (s : Client)
    (Hs : strategy s = TryTimes n) (Hn : 1 <= n <= usize_max) (Hrounds : n <= Z.of_nat (e_rounds E)) :
  let '(r, s') := request_with_options E meth endpoint hdrs payload options s in
  (forall k, n <= Z.of_nat k -> request_loop E k 0 meth endpoint (default ∅ hdrs) (default [] payload) options s = (r, s')) /\
  (r <> Panic -> exists l, requests s' = requests s ++ l /\ Z.of_nat (length (List.filter is_api l)) <= n) /\
  (forall b, r = Ok b -> answered E b s') /\
  ((forall i q, e_http E i q <> Panic) -> e_session_auth_data E <> [] -> has_tokens E s -> r <> Panic).
Proof.
  unfold request_with_options. destruct (request_loop E (e_rounds E) 0 _ _ _ _ _ s) as [r s'] eqn:Hr.
  assert (Hk : forall k, n <= Z.of_nat k -> request_loop E k 0 meth endpoint (default ∅ hdrs) (default [] payload) options s
                                       = request_loop E (Z.to_nat n) 0 meth endpoint (default ∅ hdrs) (default [] payload) options s).
  { intros k Hk. apply (request_loop_bound E _ _ _ _ _ n); [done|lia|lia|lia|lia]. }
  rewrite (Hk _ Hrounds) in Hr.
  pose proof (request_loop_sends E meth endpoint (default ∅ hdrs) (default [] payload) options n (Z.to_nat n) 0 s Hs
                ltac:(lia) ltac:(lia) ltac:(lia) ltac:(lia)) as Hw.
  unfold wp in Hw. rewrite Hr in Hw. split_and!.
  - intros k Hle. by rewrite (Hk k Hle).
  - intros Hp. destruct r; [| |done]; destruct Hw as [(l & Hl & Hc & _) _]; exists l; (split; [done|lia]).
  - intros b ->. apply Hw.
  - intros Hhttp Hd Htok ->.
    pose proof (goes_on_loop E Hhttp Hd meth endpoint (default ∅ hdrs) (default [] payload) options n (Z.to_nat n) 0 s Hs
                  ltac:(lia) ltac:(lia) ltac:(lia) ltac:(lia) Htok) as Hgo.
    unfold wp in Hgo. by rewrite Hr in Hgo.
Qed.

(** A login is asked for at most three times: the loop of login5 makes no further request once
    the third answer is neither a success nor a fatal error, whatever the service answers. *)
Theorem login5_ends (E : Env) (login : Login_method) (s : Client) :
  let '(r, s') := login5_request E login s in
  r <> Panic -> exists l, requests s' = requests s ++ l /\ (length (List.filter is_login l) <= 3)%nat.
Proof.
  pose proof (runs_login5_request E is_login 1 login ltac:(by right) (fun req => proj1 (runs_login_request_body E req)) s) as H.
  unfold wp in H. destruct (login5_request E login s) as [r s']. intros Hp.
  destruct r; [| |done]; destruct H as (l & Hl & Hc & _); by exists l.
Qed.

(** A token that has not expired is used as it is: nothing is sent and nothing changes. *)
Theorem valid_tokens_reused (E : Env) (s : Client) (t t' : Token)
    (Ht : auth_token_cache s = Some t) (Ht' : client_token_cache s = Some t') (Hd : e_session_auth_data E <> [])
    (He : is_expired (e_now E (length (requests s))) t = Some false)
    (He' : is_expired (e_now E (length (requests s))) t' = Some false) :
  auth_token E s = (Ok t, s) /\ client_token E s = (Ok (access_token t'), s).
Proof. split; [by apply auth_token_cached|by apply client_token_cached]. Qed.

(** The request for a client token has no bound: as long as the service accepts each solution and
    sends another challenge, the loop goes on, however many rounds it has made. The counter is
    only looked at when a solution is refused. *)
Theorem client_token_unbounded (E : Env) (fuel : nat) (count : Z) (response : list Z) (s : Client)
    (Hhttp : forall i q, exists b, e_http E i q = Ok b) (Huri : forall u, e_uri_ok E u = true)
    (Hencode : forall m, is_Some (e_encode_client_token E m))
    (Hparse : forall b, exists m prefix len rest bytes suffix,
       e_parse_client_token E b = Some m /\ response_type m = 2 /\ challenges m = (prefix, len) :: rest /\
       e_hex_decode E prefix = Some bytes /\
       solve_hash_cash (e_sha1 E) (e_elapsed E) (e_cash_rounds E) [] bytes len = Some (Ok suffix)) :
  (client_token_loop E fuel count response s).1 = Panic.
Proof.
  revert count response s. induction fuel as [|fuel IH]; intros count response s; [done|].
  destruct (Hparse response) as (m & prefix & len & rest & bs & suffix & Hm & Ht & Hc & Hx & Hcash).
  assert (Hreq : forall msg s, exists b s', client_token_request E msg s = (Ok b, s')).
  { intros msg s0. unfold client_token_request. destruct (Hencode msg) as [b Hb]. rewrite Hb.
    erewrite run_bind by reflexivity. unfold build_request. rewrite Huri. erewrite run_bind by reflexivity.
    unfold http_request. match goal with |- context [e_http E ?i ?q] => destruct (Hhttp i q) as [b' ->] end. by do 2 eexists. }
  cbn [client_token_loop]. rewrite Hm. erewrite run_bind by reflexivity. rewrite Ht, Hc. cbn [Z.eqb Pos.eqb].
  rewrite Hx. erewrite run_bind by reflexivity. rewrite Hcash. erewrite run_bind by reflexivity. cbv zeta iota.
  destruct (Hreq (ChallengeAnswersRequest (challenge_state m) (e_hex_encode E suffix)) s) as (b & s' & Hb).
  erewrite run_bind by (unfold catch; rewrite Hb; reflexivity). apply IH.
Qed.

(** ** Examples *)

(** A service that fails the first request and answers the next, and only knows challenges. *)
Definition ex_env (challenge : ClientTokenResponse) : Env :=
  mkEnv (fun n _ => match n with O => Err (unavailable (EMessage "")) | _ => Ok [Z.of_nat n] end) (fun _ => ex_fetch) (fun _ => 1000)
    (ex_config None) "client" "user" "NL" [1] "connection" "linux" "arm" "" "" "" ""
    (fun _ => None) (fun _ => true) (fun _ => true) (fun _ => 7)
    (fun _ => Some []) (fun _ => Some challenge) (fun _ => Some []) (fun _ => Some (mkLoginResponse LNone []))
    (fun _ => Some []) (fun _ => "") ex_sha (fun n => Z.of_nat n) 10 10 10.
Definition ex_challenge : ClientTokenResponse := mkClientTokenResponse 2 "state" [("", 0)] (mkGrantedToken "" 0 []).
Definition ex_token : Token := mkToken "abc" (3600 * SECOND) "Bearer" [] 1000.
Definition ex_client : Client := mkClient None default_strategy (Some ex_token) (Some ex_token) no_access_points [].

Lemma request_ends_witness :
  exists s', request_with_options (ex_env ex_challenge) "GET" "/x" None None default_options ex_client = (Ok [1], s') /\
    answered (ex_env ex_challenge) [1] s'.
Proof.
  pose proof (request_ends (ex_env ex_challenge) "GET" "/x" None None default_options 10 ex_client eq_refl
                ltac:(vm_compute; split; discriminate) ltac:(vm_compute; discriminate)) as H.
  destruct (request_with_options (ex_env ex_challenge) "GET" "/x" None None default_options ex_client) as [r s'] eqn:Hr.
  assert (Hok : r = Ok [1]).
  { transitivity (request_with_options (ex_env ex_challenge) "GET" "/x" None None default_options ex_client).1; [by rewrite Hr|].
    vm_compute. reflexivity. }
  exists s'. split; [by rewrite Hok|]. apply H, Hok.
Defined.

Lemma valid_tokens_reused_witness :
  auth_token (ex_env ex_challenge) ex_client = (Ok ex_token, ex_client) /\
  client_token (ex_env ex_challenge) ex_client = (Ok "abc", ex_client).
Proof.
  apply (valid_tokens_reused (ex_env ex_challenge) ex_client ex_token ex_token); [reflexivity|reflexivity|discriminate|..];
    (vm_compute; reflexivity).
Defined.

(** The same service without the failure. *)
Definition ex_env' : Env :=
  let E := ex_env ex_challenge in
  mkEnv (fun n _ => Ok [Z.of_nat n]) (e_fetch E) (e_now E)
    (ex_config None) "client" "user" "NL" [1] "connection" "linux" "arm" "" "" "" ""
    (fun _ => None) (fun _ => true) (fun _ => true) (fun _ => 7)
    (fun _ => Some []) (fun _ => Some ex_challenge) (fun _ => Some []) (fun _ => Some (mkLoginResponse LNone []))
    (fun _ => Some []) (fun _ => "") ex_sha (fun n => Z.of_nat n) 10 10 10.

Lemma client_token_unbounded_witness : (client_token_loop ex_env' 300 0 [] ex_client).1 = Panic.
Proof.
  apply (client_token_unbounded ex_env' 300 0 [] ex_client).
  - intros i q. by eexists.
  - reflexivity.
  - intros m. by eexists.
  - intros b. exists ex_challenge, "", 0, [], [], (cash_suffix 0 0). split_and!; [reflexivity..|]. vm_compute. reflexivity.
Defined.
