(* ===== verification/Cache.v ===== *)
(** * The cache ([native/librespot/core/src/cache.rs])

    Volume, credentials and audio files on disk. [SizeLimiter] keeps the size and the time of the
    last access of every audio file and gives up the least recently used ones; [FsSizeLimiter]
    fills it from the directory and deletes the files it gives up.

    The priority queue belongs to another crate: [PriorityQueue] is the interface the limiter uses
    and [PriorityQueueLaws] its documentation; [map_queue] is an instance. Paths are lists of
    components, which is how [Path] compares. Files are a map from paths to bytes; [fail] says
    which operations the system refuses, in which state of the files. Times are read from a clock
    ([now]), [read_dir] and [metadata] are what the system answers when the cache is opened. *)
From S2P Require Import Prelude Text SpotifyId Errors Auth.

Abbreviation Path := (list string).

(** [path.join(s)] *)
Definition path_join (p : Path) (s : string) : Path := p ++ [s].

(** [path.parent()] *)
Definition path_parent (p : Path) : option Path := match p with [] => None | _ => Some (removelast p) end.

(** ** The priority queue *)

(** [PriorityQueue<PathBuf, Reverse<SystemTime>>]: the highest priority is the earliest time. *)
Class PriorityQueue (Q : Type) := {
  pq_new : Q;
  pq_len : Q -> nat;
  pq_push : Path -> Z -> Q -> Q;
  pq_pop : Q -> option (Path * Z) * Q;
  pq_change_priority : Path -> Z -> Q -> option Z * Q;
  pq_remove : Path -> Q -> option (Path * Z) * Q;
  pq_map : Q -> gmap Path Z
}.

Class PriorityQueueLaws (Q : Type) `{PriorityQueue Q} := {
  pq_new_map : pq_map pq_new = ∅;
  pq_len_map q : pq_len q = size (pq_map q);
  pq_push_map k t q : pq_map (pq_push k t q) = <[k := t]> (pq_map q);
  pq_pop_empty q : (pq_pop q).1 = None -> pq_map q = ∅ /\ pq_map (pq_pop q).2 = ∅;
  pq_pop_first q k t : (pq_pop q).1 = Some (k, t) ->
    pq_map q !! k = Some t /\ pq_map (pq_pop q).2 = delete k (pq_map q) /\
    (forall k' t', pq_map q !! k' = Some t' -> t <= t');
  pq_change_map k t q :
    (pq_change_priority k t q).1 = pq_map q !! k /\
    pq_map (pq_change_priority k t q).2 = (match pq_map q !! k with Some _ => <[k := t]> (pq_map q) | None => pq_map q end);
  pq_remove_map k q :
    (pq_remove k q).1 = (fun t => (k, t)) <$> pq_map q !! k /\ pq_map (pq_remove k q).2 = delete k (pq_map q)
}.

(** ** What the system tells about files *)

Inductive FileType := Directory | Symlink | RegularFile | OtherType.
Record Metadata := mkMetadata { accessed : option Z; modified : option Z; created : option Z; len : Z }.
Abbreviation DirEntry := (Path * res IoErrorKind FileType)%type.

(** ** The size limiter *)

Section limiter.
Context {Q : Type} `{PriorityQueue Q}.

Record SizeLimiter := mkSizeLimiter {
  queue : Q;
  sizes : gmap Path Z;
  size_limit : Z;
  in_use : Z
}.

Definition limiter_new (limit : Z) : SizeLimiter := mkSizeLimiter pq_new ∅ limit 0.

(** [in_use] is a [u64] whose sums and differences wrap around. *)
Definition limiter_add (file : Path) (size accessed : Z) (l : SizeLimiter) : SizeLimiter :=
  let in_use1 := wrap 64 (in_use l + size) in
  mkSizeLimiter (pq_push file accessed (queue l)) (<[file := size]> (sizes l)) (size_limit l)
    (match sizes l !! file with Some old_size => wrap 64 (in_use1 - old_size) | None => in_use1 end).

Definition exceeds_limit (l : SizeLimiter) : bool := size_limit l <? in_use l.

(** [in_use] and [sizes] after [self.sizes.remove(file)]; the [else] branch only logs. *)
Definition forget_size (file : Path) (q : Q) (l : SizeLimiter) : SizeLimiter :=
  match sizes l !! file with
  | Some size => mkSizeLimiter q (delete file (sizes l)) (size_limit l) (wrap 64 (in_use l - size))
  | None => mkSizeLimiter q (sizes l) (size_limit l) (in_use l)
  end.

Definition limiter_pop (l : SizeLimiter) : option Path * SizeLimiter :=
  if exceeds_limit l then
    match pq_pop (queue l) with
    | (Some (next, _), q) => (Some next, forget_size next q l)
    | (None, q) => (None, mkSizeLimiter q (sizes l) (size_limit l) (in_use l))
    end
  else (None, l).

Definition limiter_update (file : Path) (access_time : Z) (l : SizeLimiter) : bool * SizeLimiter :=
  let '(old, q) := pq_change_priority file access_time (queue l) in
  (bool_decide (is_Some old), mkSizeLimiter q (sizes l) (size_limit l) (in_use l)).

Definition limiter_remove (file : Path) (l : SizeLimiter) : bool * SizeLimiter :=
  match pq_remove file (queue l) with
  | (None, q) => (false, mkSizeLimiter q (sizes l) (size_limit l) (in_use l))
  | (Some _, q) => (true, forget_size file q l)
  end.

(** ** The files *)

Abbreviation disk := (gmap Path (list Z)).

Inductive fs_op :=
| CreateDirAll (p : Path) | CreateFile (p : Path) | OpenFile (p : Path) | ReadFile (p : Path) | WriteFile (p : Path)
| RemoveFile (p : Path).

Context (fail : disk -> fs_op -> option IoErrorKind).

Definition permitted (d : disk) (o : fs_op) : res IoErrorKind unit :=
  match fail d o with Some e => Err e | None => Ok tt end.

Definition create_dir_all (d : disk) (p : Path) : res IoErrorKind unit := permitted d (CreateDirAll p).

(** [File::create]: an empty file, also when there was one. *)
Definition file_create (d : disk) (p : Path) : res IoErrorKind disk :=
  _ ← permitted d (CreateFile p); mret (<[p := []]> d).

(** [File::open], followed by reading to the end *)
Definition file_open (d : disk) (p : Path) : res IoErrorKind (list Z) :=
  _ ← permitted d (OpenFile p); ok_or IoNotFound (d !! p).

Definition remove_file (d : disk) (p : Path) : res IoErrorKind unit * disk :=
  match permitted d (RemoveFile p) with
  | Ok _ => match d !! p with Some _ => (Ok tt, delete p d) | None => (Err IoNotFound, d) end
  | r => (r, d)
  end.

(** What a reader yields, and the error it ends with. *)
Record Source := mkSource { src_data : list Z; src_fails : option IoErrorKind }.

(** [io::copy(contents, &mut file)]: the number of bytes, or the error of the reader after its
    bytes have been written. *)
Definition io_copy (contents : Source) (d : disk) (p : Path) : res IoErrorKind Z * disk :=
  match permitted d (WriteFile p) with
  | Ok _ => let d := <[p := src_data contents]> d in
            match src_fails contents with
            | Some e => (Err e, d)
            | None => (Ok (Z.of_nat (length (src_data contents))), d)
            end
  | Err e => (Err e, d)
  | Panic => (Panic, d)
  end.

(** ** The size limiter on a directory *)

Section open.
Context (read_dir : Path -> res IoErrorKind (list (res IoErrorKind DirEntry)))
        (metadata : Path -> res IoErrorKind Metadata) (now : Z).

Definition get_metadata (file : Path) : res IoErrorKind (Z * Z) :=
  md ← metadata file;
  let access_time := match accessed md with
                     | Some t => t
                     | None => match modified md with
                               | Some t => t
                               | None => match created md with Some t => t | None => now end
                               end
                     end in
  mret (access_time, len md).

(** [fuel] bounds the depth of the directories; the system refuses paths that are too long or
    follow too many links. *)
Fixpoint init_dir (fuel : nat) (l : SizeLimiter) (path : Path) {struct fuel} : option SizeLimiter :=
  match fuel with
  | O => None
  | S fuel =>
      match read_dir path with
      | Ok entries =>
          (fix go (entries : list (res IoErrorKind DirEntry)) (l : SizeLimiter) : option SizeLimiter :=
             match entries with
             | Ok (p, Ok Directory) :: entries | Ok (p, Ok Symlink) :: entries =>
                 l ← init_dir fuel l p; go entries l
             | Ok (p, Ok RegularFile) :: entries =>
                 go entries (match get_metadata p with
                             | Ok (access_time, size) => limiter_add p size access_time l
                             | _ => l
                             end)
             | Ok _ :: entries => go entries l
             | _ => Some l
             end) entries l
      | _ => Some l
      end
  end.
End open.

(** [while let Some(file) = pop()]; every round takes a file out of the queue. *)
Fixpoint prune_internal (fuel : nat) (l : SizeLimiter) (d : disk) (last_error : option IoErrorKind) :
    res Error unit * (SizeLimiter * disk) :=
  match limiter_pop l with
  | (Some file, l) =>
      match fuel with
      | O => (Panic, (l, d))
      | S fuel =>
          let '(r, d) := remove_file d file in
          prune_internal fuel l d (match r with Err e => Some e | _ => last_error end)
      end
  | (None, l) => (match last_error with Some e => Err (into_error e) | None => Ok tt end, (l, d))
  end.

Definition prune (l : SizeLimiter) (d : disk) : res Error unit * (SizeLimiter * disk) :=
  prune_internal (pq_len (queue l)) l d None.

(** ** The cache *)

Record Cache := mkCache {
  credentials_location : option Path;
  volume_location : option Path;
  audio_location : option Path;
  size_limiter : option SizeLimiter
}.

(** The shared limiter is part of the state, and the disk. *)
Record world := mkWorld { cache : Cache; files : disk }.

Definition set_limiter (l : SizeLimiter) (c : Cache) : Cache :=
  mkCache (credentials_location c) (volume_location c) (audio_location c) (Some l).

Definition cache_new (read_dir : Path -> res IoErrorKind (list (res IoErrorKind DirEntry)))
    (metadata : Path -> res IoErrorKind Metadata) (now : Z) (depth : nat) (credentials_path volume_path audio_path : option Path)
    (limit : option Z) (d : disk) : res Error world :=
  _ ← (match credentials_path with Some p => raise (create_dir_all d p) | None => mret tt end);
  _ ← (match volume_path with Some p => raise (create_dir_all d p) | None => mret tt end);
  '(size_limiter, d) ←
    (match audio_path with
     | Some location =>
         _ ← raise (create_dir_all d location);
         match limit with
         | Some limit =>
             match init_dir read_dir metadata now depth (limiter_new limit) location with
             | Some l => match prune l d with
                         | (Ok _, (l, d)) => mret (Some l, d)
                         | (Err e, _) => Err e
                         | (Panic, _) => Panic
                         end
             | None => Panic
             end
         | None => mret (None, d)
         end
     | None => mret (None, d)
     end);
  mret (mkWorld (mkCache ((fun p => path_join p "credentials.json") <$> credentials_path)
                         ((fun p => path_join p "volume") <$> volume_path) audio_path size_limiter) d).

(** Reading a file as the closures of [credentials] and [volume] do; errors only differ in the log. *)
Definition read_file (d : disk) (p : Path) : res Error (list Z) :=
  contents ← raise (file_open d p);
  _ ← raise (permitted d (ReadFile p));
  mret contents.

Section json.
Context (from_json : list Z -> option Credentials) (to_json : Credentials -> list Z).

Definition credentials (w : world) : option Credentials :=
  location ← credentials_location (cache w);
  res_ok (contents ← read_file (files w) location; raise (ok_or JsonError (from_json contents))).

Definition save_credentials (cred : Credentials) (w : world) : world :=
  match credentials_location (cache w) with
  | Some location =>
      match file_create (files w) location with
      | Ok d => mkWorld (cache w) (match permitted d (WriteFile location) with
                                   | Ok _ => <[location := to_json cred]> d
                                   | _ => d
                                   end)
      | _ => w
      end
  | None => w
  end.
End json.

Definition volume (w : world) : option Z :=
  location ← volume_location (cache w);
  res_ok (contents ← read_file (files w) location;
          text ← raise (ok_or IoInvalidData (from_utf8 contents));
          raise (ok_or ParseIntError (parse_uint 16 text))).

Definition save_volume (v : Z) (w : world) : world :=
  match volume_location (cache w) with
  | Some location =>
      match file_create (files w) location with
      | Ok d => mkWorld (cache w) (match permitted d (WriteFile location) with
                                   | Ok _ => <[location := bytes (show_Z v)]> d
                                   | _ => d
                                   end)
      | _ => w
      end
  | None => w
  end.

(** [name\[0..2\]] and [name\[2..\]] *)
Definition file_path (file : FileId) (c : Cache) : option Path :=
  (fun location => path_join (path_join location (String.substring 0 2 (file_id_to_base16 file)))
                             (String.substring 2 (String.length (file_id_to_base16 file) - 2) (file_id_to_base16 file)))
  <$> audio_location c.

Definition file (now : Z) (id : FileId) (w : world) : option (list Z) * world :=
  match file_path id (cache w) with
  | Some path =>
      match file_open (files w) path with
      | Ok contents =>
          match size_limiter (cache w) with
          | Some l => (Some contents, mkWorld (set_limiter (limiter_update path now l).2 (cache w)) (files w))
          | None => (Some contents, w)
          end
      | _ => (None, w)
      end
  | None => (None, w)
  end.

(** [create_dir_all(parent)], [File::create] and [io::copy] in sequence, with the disk they leave. *)
Definition write_contents (path parent : Path) (contents : Source) (d : disk) : res IoErrorKind Z * disk :=
  match create_dir_all d parent with
  | Ok _ => match file_create d path with
            | Ok d => io_copy contents d path
            | Err e => (Err e, d)
            | Panic => (Panic, d)
            end
  | Err e => (Err e, d)
  | Panic => (Panic, d)
  end.

Definition save_file (now : Z) (id : FileId) (contents : Source) (w : world) : res Error Path * world :=
  let failed d := (Err (into_error CachePath), mkWorld (cache w) d) in
  match file_path id (cache w) with
  | Some path =>
      match path_parent path with
      | Some parent =>
          match write_contents path parent contents (files w) with
          | (Ok size, d) =>
              match size_limiter (cache w) with
              | Some l =>
                  let '(r, (l, d)) := prune (limiter_add path size now l) d in
                  (_ ← r; mret path, mkWorld (set_limiter l (cache w)) d)
              | None => (Ok path, mkWorld (cache w) d)
              end
          | (_, d) => failed d
          end
      | None => failed (files w)
      end
  | None => failed (files w)
  end.

Definition cache_remove_file (id : FileId) (w : world) : res Error unit * world :=
  match file_path id (cache w) with
  | None => (Err (into_error CachePath), w)
  | Some path =>
      match remove_file (files w) path with
      | (Ok _, d) =>
          (Ok tt, mkWorld (match size_limiter (cache w) with
                           | Some l => set_limiter (limiter_remove path l).2 (cache w)
                           | None => cache w
                           end) d)
      | (r, d) => (raise r, mkWorld (cache w) d)
      end
  end.

End limiter.
#[global] Arguments SizeLimiter Q : clear implicits.
#[global] Arguments Cache Q : clear implicits.
#[global] Arguments world Q : clear implicits.

(** ** What the limiter maintains *)

(** The sum of the recorded sizes. *)
Definition total (m : gmap Path Z) : Z := map_fold (fun _ s acc => s + acc) 0 m.

Lemma total_delete m k v : m !! k = Some v -> total m = v + total (delete k m).
Proof. intros Hk. unfold total. apply (map_fold_delete_L (fun _ s acc => s + acc)); [|done]. intros; lia. Qed.

Lemma total_insert m k v : total (<[k := v]> m) = v + total (delete k m).
Proof. rewrite (total_delete _ k v) by (by rewrite lookup_insert_eq). by rewrite delete_insert_eq. Qed.

Lemma total_nonneg m : map_Forall (fun _ s => 0 <= s) m -> 0 <= total m.
Proof.
  induction m as [|k v m Hk IH] using map_ind; intros Hm; [done|].
  rewrite total_insert, delete_id by done. apply map_Forall_insert in Hm as [Hv Hm]; [|done]. specialize (IH Hm). lia.
Qed.

Lemma total_le_lookup m k v : map_Forall (fun _ s => 0 <= s) m -> m !! k = Some v -> v <= total m.
Proof.
  intros Hm Hk. rewrite (total_delete _ _ _ Hk). enough (0 <= total (delete k m)) by lia.
  apply total_nonneg. by apply map_Forall_delete.
Qed.

Lemma wrap_add_l w a b : wrap w (wrap w a + b) = wrap w (a + b).
Proof. apply Zplus_mod_idemp_l. Qed.
Lemma wrap_sub_l w a b : wrap w (wrap w a - b) = wrap w (a - b).
Proof. apply Zminus_mod_idemp_l. Qed.

Section laws.
Context {Q : Type} `{PriorityQueueLaws Q}.
Implicit Types (l : SizeLimiter Q) (w : world Q).

(** The queue and the sizes have the same keys, and [in_use] is the sum of the sizes. *)
Definition limiter_wf l : Prop :=
  dom (pq_map (queue l)) = dom (sizes l) /\ in_use l = wrap 64 (total (sizes l)).

Lemma wf_new limit : limiter_wf (limiter_new limit).
Proof. unfold limiter_wf. simpl. by rewrite pq_new_map, !dom_empty_L. Qed.

Lemma wf_add file size t l : limiter_wf l -> limiter_wf (limiter_add file size t l).
Proof.
  intros [Hd Hu]. unfold limiter_wf. simpl. rewrite pq_push_map, !dom_insert_L, Hd, Hu, total_insert.
  split; [done|]. destruct (sizes l !! file) as [old|] eqn:Hf.
  - rewrite wrap_add_l, wrap_sub_l, (total_delete _ _ _ Hf). f_equal. lia.
  - rewrite wrap_add_l, delete_id by done. f_equal. lia.
Qed.

Lemma wf_forget file q l :
  limiter_wf l -> pq_map q = delete file (pq_map (queue l)) -> limiter_wf (forget_size file q l).
Proof.
  intros [Hd Hu] Hq. unfold forget_size. destruct (sizes l !! file) as [size|] eqn:Hf; split; simpl.
  - by rewrite Hq, !dom_delete_L, Hd.
  - rewrite Hu, wrap_sub_l, (total_delete _ _ _ Hf). f_equal. lia.
  - rewrite Hq, dom_delete_L, Hd. apply not_elem_of_dom in Hf. set_solver.
  - done.
Qed.

Lemma wf_pop l : limiter_wf l -> limiter_wf (limiter_pop l).2.
Proof.
  intros Hwf. unfold limiter_pop. case_if; [|done].
  destruct (pq_pop (queue l)) as [[[next t]|] q] eqn:Hp; simpl.
  - destruct (pq_pop_first (queue l) next t) as (_ & Hq & _); [by rewrite Hp|]. rewrite Hp in Hq. by apply wf_forget.
  - destruct (pq_pop_empty (queue l)) as [H1 H2]; [by rewrite Hp|]. rewrite Hp in H2. destruct Hwf as [Hd Hu].
    split; simpl in *; [by rewrite H2, <- H1|done].
Qed.

Lemma wf_update file t l : limiter_wf l -> limiter_wf (limiter_update file t l).2.
Proof.
  intros [Hd Hu]. unfold limiter_update. destruct (pq_change_map file t (queue l)) as [_ Hm].
  destruct (pq_change_priority file t (queue l)) as [old q]. simpl in *. split; [|done]. simpl. rewrite Hm.
  destruct (pq_map (queue l) !! file) eqn:Hf; [|done]. rewrite dom_insert_L, Hd.
  apply elem_of_dom_2 in Hf. rewrite Hd in Hf. set_solver.
Qed.

Lemma wf_remove file l : limiter_wf l -> limiter_wf (limiter_remove file l).2.
Proof.
  intros Hwf. unfold limiter_remove. destruct (pq_remove_map file (queue l)) as [H1 H2].
  destruct (pq_remove file (queue l)) as [[p|] q]; simpl in *; [by apply wf_forget|].
  destruct Hwf as [Hd Hu]. split; [|done]. simpl. rewrite H2, delete_id; [done|].
  by destruct (pq_map (queue l) !! file).
Qed.
End laws.

Create HintDb cache.
#[export] Hint Resolve wf_new wf_add wf_pop wf_update wf_remove : cache.

(** ** Pruning is least recently used *)

Section prune.
Context {Q : Type} `{PriorityQueueLaws Q} (fail : gmap Path (list Z) -> fs_op -> option IoErrorKind).
Implicit Types (l : SizeLimiter Q) (d : gmap Path (list Z)).

(** Sizes of files: non-negative, with a sum that fits a [u64]. *)
Definition sizes_ok l : Prop := map_Forall (fun _ s => 0 <= s) (sizes l) /\ total (sizes l) < 2 ^ 64.

Lemma in_use_total l : limiter_wf l -> sizes_ok l -> in_use l = total (sizes l).
Proof. intros [_ Hu] [Hp Ht]. rewrite Hu. apply wrap_small. split; [by apply total_nonneg|done]. Qed.

Lemma same_keys l k : limiter_wf l -> sizes l !! k = None <-> pq_map (queue l) !! k = None.
Proof. intros [Hd _]. by rewrite <- !not_elem_of_dom, Hd. Qed.

(** [l'] and [d'] are [l] and [d] after giving up the least recently used files, no more than needed. *)
Record pruned l d l' d' : Prop := {
  pruned_wf : limiter_wf l';
  pruned_limit : size_limit l' = size_limit l;
  pruned_total : total (sizes l') <= size_limit l;
  pruned_queue : pq_map (queue l') ⊆ pq_map (queue l);
  pruned_sizes : sizes l' ⊆ sizes l;
  pruned_oldest k t k' t' :
    pq_map (queue l) !! k = Some t -> pq_map (queue l') !! k = None -> pq_map (queue l') !! k' = Some t' -> t <= t';
  pruned_minimal : sizes l' = sizes l \/ exists k s t,
    sizes l !! k = Some s /\ sizes l' !! k = None /\ size_limit l < total (sizes l') + s /\
    pq_map (queue l) !! k = Some t /\
    (forall k' t', pq_map (queue l) !! k' = Some t' -> sizes l' !! k' = None -> t' <= t);
  pruned_frame p : sizes l !! p = sizes l' !! p -> d' !! p = d !! p
}.

Lemma remove_file_spec d p :
  (remove_file fail d p).1 <> Panic /\ (forall p', p' <> p -> (remove_file fail d p).2 !! p' = d !! p') /\
  ((remove_file fail d p).1 = Ok tt -> (remove_file fail d p).2 !! p = None).
Proof.
  unfold remove_file, permitted. destruct (fail d (RemoveFile p)); simpl; [done|].
  destruct (d !! p) eqn:Hp; simpl; [|done]. split_and!; [done| |].
  - intros p' Hne. by rewrite lookup_delete_ne.
  - intros _. by rewrite lookup_delete_eq.
Qed.

(** One round of the loop. *)
Lemma pop_step l :
  limiter_wf l -> sizes_ok l -> 0 <= size_limit l ->
  match limiter_pop l with
  | (None, l') => l' = l /\ total (sizes l) <= size_limit l
  | (Some p, l') =>
      exists s t, sizes l !! p = Some s /\ size_limit l < total (sizes l) /\
      pq_map (queue l) !! p = Some t /\ (forall k' t', pq_map (queue l) !! k' = Some t' -> t <= t') /\
      sizes l' = delete p (sizes l) /\ pq_map (queue l') = delete p (pq_map (queue l)) /\ size_limit l' = size_limit l /\
      S (pq_len (queue l')) = pq_len (queue l)
  end.
Proof.
  intros Hwf Hok Hlim. unfold limiter_pop, exceeds_limit. rewrite (in_use_total l) by done.
  case_if; [|done]. destruct (pq_pop (queue l)) as [[[p t]|] q] eqn:Hp.
  - destruct (pq_pop_first (queue l) p t) as (Hin & Hq & Hmin); [by rewrite Hp|]. rewrite Hp in Hq. simpl in Hq.
    destruct Hwf as [Hd Hu]. assert (Hs : is_Some (sizes l !! p)) by (apply elem_of_dom; rewrite <- Hd; by eapply elem_of_dom_2).
    destruct Hs as [s Hs]. exists s, t. unfold forget_size. rewrite Hs. simpl. split_and!; try done.
    rewrite !pq_len_map, Hq. rewrite map_size_delete, Hin.
    assert (size (pq_map (queue l)) <> 0%nat); [|lia]. intros Hz. apply map_size_empty_inv in Hz. by rewrite Hz in Hin.
  - destruct (pq_pop_empty (queue l)) as [H1 _]; [by rewrite Hp|]. destruct Hwf as [Hd _].
    rewrite H1, dom_empty_L in Hd. symmetry in Hd. apply dom_empty_inv_L in Hd. rewrite Hd in *. unfold total in *.
    rewrite map_fold_empty in *. lia.
Qed.

Lemma sizes_ok_delete l l' p : sizes_ok l -> sizes l' = delete p (sizes l) -> sizes_ok l'.
Proof.
  intros [Hp Ht] Hs. unfold sizes_ok. rewrite Hs. split; [by apply map_Forall_delete|].
  destruct (sizes l !! p) as [s|] eqn:Hl.
  - rewrite (total_delete _ _ _ Hl) in Ht. specialize (Hp _ _ Hl). simpl in Hp. lia.
  - by rewrite delete_id.
Qed.

Lemma pruned_refl l d : limiter_wf l -> total (sizes l) <= size_limit l -> pruned l d l d.
Proof. intros Hwf Ht. split; try done; [congruence|by left]. Qed.

Lemma prune_internal_spec fuel l d e :
  limiter_wf l -> sizes_ok l -> 0 <= size_limit l -> (pq_len (queue l) <= fuel)%nat ->
  let '(r, (l', d')) := prune_internal fail fuel l d e in
  r <> Panic /\ pruned l d l' d' /\
  (r = Ok tt -> e = None /\ forall p s, sizes l !! p = Some s -> sizes l' !! p = None -> d' !! p = None).
Proof.
  revert l d e. induction fuel as [|fuel IH]; intros l d e Hwf Hok Hlim Hf; cbn [prune_internal];
    pose proof (pop_step l Hwf Hok Hlim) as Hpop; pose proof (wf_pop l Hwf) as Hwf';
    destruct (limiter_pop l) as [[p|] l'].
  1: { destruct Hpop as (s & t & _ & _ & _ & _ & _ & _ & _ & Hlen). lia. }
  1, 3: destruct Hpop as [-> Ht]; split_and!; [by destruct e|by apply pruned_refl|destruct e; [done|]; naive_solver congruence].
  destruct Hpop as (s & t & Hs & Ht & Hq & Hmin & Hs' & Hq' & Hl' & Hlen). simpl in Hwf'.
  pose proof (remove_file_spec d p) as (Hr & Hframe & Hgone). destruct (remove_file fail d p) as [r1 d1]. simpl in *.
  specialize (IH l' d1 (match r1 with Err e => Some e | _ => e end)).
  destruct (prune_internal fail fuel l' d1 _) as [r [l'' d'']].
  destruct IH as (IHr & IHp & IHok); [done|by eapply sizes_ok_delete|by rewrite Hl'|lia|].
  destruct IHp as [P1 P2 P3 P4 P5 P6 P7 P8].
  assert (Hp'' : sizes l'' !! p = None).
  { destruct (sizes l'' !! p) eqn:Hx; [|done]. eapply lookup_weaken in Hx; [|exact P5]. by rewrite Hs', lookup_delete_eq in Hx. }
  split_and!; [done| |].
  - split; [done|congruence|congruence| | | | |].
    + etrans; [exact P4|]. rewrite Hq'. apply delete_subseteq.
    + etrans; [exact P5|]. rewrite Hs'. apply delete_subseteq.
    + intros k tk k' t' Hk Hk1 Hk'. destruct (decide (k = p)) as [->|Hne].
      * assert (tk = t) as -> by congruence. eapply Hmin, lookup_weaken; [exact Hk'|].
        etrans; [exact P4|]. rewrite Hq'. apply delete_subseteq.
      * eapply P6; [|done|done]. by rewrite Hq', lookup_delete_ne.
    + right. destruct P7 as [Heq|(k & sk & tk & Hk & Hk' & Hgt & Htk & Hmax)].
      * exists p, s, t. rewrite Heq, Hs', lookup_delete_eq. split_and!; [done|done| |done|].
        -- rewrite (total_delete _ _ _ Hs) in Ht. lia.
        -- intros k' t' Hk' Hd. destruct (decide (k' = p)) as [->|Hne]; [simplify_eq; lia|].
           rewrite lookup_delete_ne in Hd by done. apply (same_keys _ _ Hwf) in Hd. congruence.
      * exists k, sk, tk. rewrite Hs' in Hk. apply lookup_delete_Some in Hk as [Hne Hk]. rewrite <- Hl'.
        rewrite Hq', lookup_delete_ne in Htk by done. split_and!; [done|done|done|done|].
        intros k' t' Hk1 Hd. destruct (decide (k' = p)) as [->|Hne']; [assert (t' = t) as -> by congruence; by eapply Hmin|].
        eapply Hmax; [|done]. by rewrite Hq', lookup_delete_ne.
    + intros p' Heq. destruct (decide (p' = p)) as [->|Hne]; [congruence|].
      rewrite P8 by (by rewrite Hs', lookup_delete_ne). by apply Hframe.
  - intros Hok'. specialize (IHok Hok') as [He IHok]. assert (r1 = Ok tt /\ e = None) as [-> ->] by (destruct r1 as [[]| |]; done).
    split; [done|]. intros p' s' Hp' Hp1. destruct (decide (p' = p)) as [->|Hne].
    + rewrite P8; [by apply Hgone|]. by rewrite Hs', lookup_delete_eq.
    + eapply IHok; [|done]. by rewrite Hs', lookup_delete_ne.
Qed.
End prune.

(** ** An instance of the queue *)

Definition first_of (k : Path) (t : Z) (acc : option (Path * Z)) : option (Path * Z) :=
  match acc with Some (k', t') => if t <? t' then Some (k, t) else acc | None => Some (k, t) end.

#[export] Instance map_queue : PriorityQueue (gmap Path Z) := {|
  pq_new := ∅;
  pq_len q := size q;
  pq_push k t q := <[k := t]> q;
  pq_pop q := match map_fold first_of None q with Some (k, t) => (Some (k, t), delete k q) | None => (None, q) end;
  pq_change_priority k t q := match q !! k with Some old => (Some old, <[k := t]> q) | None => (None, q) end;
  pq_remove k q := ((fun t => (k, t)) <$> q !! k, delete k q);
  pq_map q := q
|}.

Lemma first_of_spec (q : gmap Path Z) :
  match map_fold first_of None q with
  | None => q = ∅
  | Some (k, t) => q !! k = Some t /\ forall k' t', q !! k' = Some t' -> t <= t'
  end.
Proof.
  apply (map_fold_weak_ind (fun r (q : gmap Path Z) =>
           match r with
           | None => q = ∅
           | Some (k, t) => q !! k = Some t /\ forall k' t', q !! k' = Some t' -> t <= t'
           end)); [done|].
  intros k t q' [[k1 t1]|] Hk IH; simpl.
  - destruct IH as [H1 Hmin]. case_if.
    + rewrite lookup_insert_eq. split; [done|]. intros k' t' [[<- <-]|[_ Hk']]%lookup_insert_Some; [lia|].
      specialize (Hmin _ _ Hk'). lia.
    + split; [by rewrite lookup_insert_ne by congruence|].
      intros k' t' [[<- <-]|[_ Hk']]%lookup_insert_Some; [lia|]. by eapply Hmin.
  - subst q'. rewrite lookup_insert_eq. split; [done|].
    intros k' t' [[<- <-]|[_ Hk']]%lookup_insert_Some; [lia|done].
Qed.

#[export] Instance map_queue_laws : PriorityQueueLaws (gmap Path Z).
Proof.
  split; try done; simpl.
  - intros q. pose proof (first_of_spec q) as Hs. by destruct (map_fold first_of None q) as [[]|].
  - intros q k t. pose proof (first_of_spec q) as Hs. destruct (map_fold first_of None q) as [[k1 t1]|]; [|done].
    intros [= <- <-]. by destruct Hs.
  - intros k t q. by destruct (q !! k).
Qed.
