(* ===== verification/CacheSpec.v ===== *)
(** * What the cache promises

    The theorems on [Cache]: the least recently used files are given up and no more than needed,
    a saved file is found again, volume and credentials survive, and files never share a path. *)
From S2P Require Import Prelude Text SpotifyId Errors Auth Cache.

(** ** Paths of audio files *)

Lemma hex_char_inj a b : 0 <= a < 16 -> 0 <= b < 16 -> hex_char a = hex_char b -> a = b.
Proof. intros Ha Hb He. pose proof (hex_char_value a Ha) as H1. rewrite He, hex_char_value in H1 by done. congruence. Qed.

Lemma base16_inj f1 f2 :
  Forall is_byte f1 -> Forall is_byte f2 -> file_id_to_base16 f1 = file_id_to_base16 f2 -> f1 = f2.
Proof.
  intros H1. revert f2. induction H1 as [|a f1 Ha _ IH]; intros f2 [|b f2' Hb Hf2] He; try done.
  cbn [file_id_to_base16 foldr] in He. injection He as Hhi Hlo He. unfold is_byte in *.
  apply hex_char_inj in Hhi; [|split; [apply Z.div_pos|apply Z.div_lt_upper_bound]; lia..].
  apply hex_char_inj in Hlo; [|apply Z.mod_pos_bound; lia..].
  f_equal; [|by apply IH]. rewrite (Z.div_mod a 16), (Z.div_mod b 16) by lia. lia.
Qed.

Lemma file_path_parts {Q} loc b f (c : Cache Q) :
  audio_location c = Some loc -> file_path (b :: f) c = Some (loc ++ [file_id_to_base16 [b]; file_id_to_base16 f]).
Proof.
  intros Hl. unfold file_path, path_join. rewrite Hl. cbn [fmap option_fmap option_map].
  rewrite <- app_assoc. do 3 f_equal. cbn [app].
  change (file_id_to_base16 (b :: f)) with (String (hex_char (b / 16)) (String (hex_char (b mod 16)) (file_id_to_base16 f))).
  cbn [String.length String.substring]. rewrite Nat.sub_succ, Nat.sub_succ, Nat.sub_0_r, substring_all.
  f_equal. by destruct (file_id_to_base16 f).
Qed.

(** ** Text files *)

Lemma digits_utf8 acc s v : value_of acc s = Some v -> from_utf8 (bytes s) = Some s.
Proof.
  unfold from_utf8. intros Hv.
  assert (H : valid_utf8 (bytes s) = true /\ utf8 (bytes s) = s); [|by destruct H as [-> ->]].
  revert acc v Hv. induction s as [|c s IH]; intros acc v Hv; [done|]. simpl in Hv.
  destruct (digit_of c) as [d|] eqn:Hd; [|done]. destruct (IH _ _ Hv) as [H1 H2].
  change (bytes (String c s)) with (char_code c :: bytes s). cbn [valid_utf8 utf8 fold_right].
  rewrite code_char_code. fold (utf8 (bytes s)). rewrite H2. split; [|done].
  unfold digit_of in Hd. destruct ((48 <=? char_code c) && (char_code c <=? 57)) eqn:Hc; [|done].
  unfold between. replace ((0 <=? char_code c) && (char_code c <=? 127)) with true; [done|]. lia.
Qed.

Section spec.
Context {Q : Type} `{PriorityQueueLaws Q}.
Implicit Types (l : SizeLimiter Q) (w : world Q).
Context (fail : gmap Path (list Z) -> fs_op -> option IoErrorKind).

Lemma save_volume_reads v w location :
  volume_location (cache w) = Some location -> fits 16 v ->
  (forall d o, fail d o = None) -> volume fail (save_volume fail v w) = Some v.
Proof.
  intros Hl Hv Hf. unfold volume, save_volume, file_create, permitted. rewrite Hl, Hf.
  cbn [mbind res_bind mret res_ret]. rewrite Hf. cbn [cache files]. rewrite Hl. cbn [mbind option_bind].
  unfold read_file, file_open, permitted. rewrite !Hf. cbn [mbind res_bind raise files].
  rewrite lookup_insert_eq. cbn [ok_or raise mbind res_bind mret res_ret].
  rewrite (digits_utf8 0 _ v) by (apply show_Z_value; destruct Hv; lia). cbn [ok_or raise mbind res_bind].
  by rewrite parse_show.
Qed.

Lemma save_credentials_reads (from_json : list Z -> option Credentials) (to_json : Credentials -> list Z) c w location :
  credentials_location (cache w) = Some location -> (forall c, from_json (to_json c) = Some c) ->
  (forall d o, fail d o = None) -> credentials fail from_json (save_credentials fail to_json c w) = Some c.
Proof.
  intros Hl Hj Hf. unfold credentials, save_credentials, file_create, permitted. rewrite Hl, Hf.
  cbn [mbind res_bind mret res_ret]. rewrite Hf. cbn [cache files]. rewrite Hl. cbn [mbind option_bind].
  unfold read_file, file_open, permitted. rewrite !Hf. cbn [mbind res_bind raise files].
  rewrite lookup_insert_eq. cbn [ok_or raise mbind res_bind mret res_ret]. by rewrite Hj.
Qed.

(** What a successful [save_file] did before pruning. *)
Lemma write_contents_ok path parent contents d size d' :
  write_contents fail path parent contents d = (Ok size, d') ->
  d' = <[path := src_data contents]> d /\ size = Z.of_nat (length (src_data contents)).
Proof.
  unfold write_contents, create_dir_all, file_create, io_copy, permitted.
  destruct (fail d (CreateDirAll parent)); [done|]. destruct (fail d (CreateFile path)); [done|].
  cbn [mbind res_bind mret res_ret]. destruct (fail _ (WriteFile path)); [done|].
  destruct (src_fails contents); [done|]. intros [= <- <-]. by rewrite insert_insert_eq.
Qed.

(** The entry with the latest time is only given up when it exceeds the limit by itself. *)
Lemma newest_kept l d l' d' path size now :
  pruned l d l' d' -> limiter_wf l -> sizes_ok l -> sizes l !! path = Some size -> pq_map (queue l) !! path = Some now ->
  (forall p t, p <> path -> pq_map (queue l) !! p = Some t -> t < now) ->
  sizes l' !! path = Some size <-> size <= size_limit l.
Proof.
  intros [P1 P2 P3 P4 P5 P6 P7 P8] Hwf [Hpos _] Hs Hq Hnew. split.
  - intros Hs'. etrans; [eapply total_le_lookup; [|exact Hs']|exact P3]. intros k x Hk. eapply Hpos, lookup_weaken; [exact Hk|exact P5].
  - intros Hsz. destruct (sizes l' !! path) as [s|] eqn:Hs'; [by eapply lookup_weaken in Hs'; [|exact P5]; congruence|].
    exfalso. assert (Hq' : pq_map (queue l') = ∅).
    { apply map_empty. intros k. destruct (pq_map (queue l') !! k) as [t'|] eqn:Hk; [|done].
      pose proof (lookup_weaken _ _ _ _ Hk P4) as Hk0.
      assert (k <> path) by (intros ->; apply (same_keys _ _ P1) in Hs'; congruence).
      specialize (P6 path now k t' Hq (proj1 (same_keys _ _ P1) Hs') Hk). specialize (Hnew k t' ltac:(done) Hk0). lia. }
    assert (Hse : sizes l' = ∅) by (apply map_empty; intros k; apply (same_keys _ _ P1); by rewrite Hq').
    destruct P7 as [Heq|(k & s & t & Hk & _ & Hgt & Ht & Hmax)]; [congruence|].
    specialize (Hmax path now Hq Hs'). destruct (decide (k = path)) as [->|Hne].
    + rewrite Hse in Hgt. unfold total in Hgt. rewrite map_fold_empty in Hgt. assert (s = size) by congruence. lia.
    + specialize (Hnew _ _ Hne Ht). lia.
Qed.

Lemma add_lookup l path size now :
  sizes (limiter_add path size now l) !! path = Some size /\
  pq_map (queue (limiter_add path size now l)) !! path = Some now /\
  size_limit (limiter_add path size now l) = size_limit l /\
  (forall p t, p <> path -> pq_map (queue (limiter_add path size now l)) !! p = Some t -> pq_map (queue l) !! p = Some t).
Proof.
  unfold limiter_add. simpl. rewrite pq_push_map, !lookup_insert_eq. split_and!; try done.
  intros p t Hne. by rewrite lookup_insert_ne.
Qed.

Lemma add_sizes_ok l path size now :
  sizes_ok l -> 0 <= size -> total (sizes l) + size < 2 ^ 64 -> sizes_ok (limiter_add path size now l).
Proof.
  intros [Hp Ht] Hs Hsum. split; simpl.
  - by apply map_Forall_insert_2.
  - rewrite total_insert. destruct (sizes l !! path) as [old|] eqn:Ho.
    + rewrite (total_delete _ _ _ Ho) in Hsum. specialize (Hp _ _ Ho). simpl in Hp. lia.
    + rewrite delete_id by done. lia.
Qed.
End spec.

(** ** Opening the cache *)

Section open_cache.
Context {Q : Type} `{PriorityQueueLaws Q} (read_dir : Path -> res IoErrorKind (list (res IoErrorKind DirEntry)))
        (metadata : Path -> res IoErrorKind Metadata) (now : Z).
Implicit Types (l : SizeLimiter Q).

(** The loop of [init_dir] over the entries of one directory. *)
Fixpoint init_entries (fuel : nat) (entries : list (res IoErrorKind DirEntry)) l : option (SizeLimiter Q) :=
  match entries with
  | Ok (p, Ok Directory) :: entries | Ok (p, Ok Symlink) :: entries =>
      l ← init_dir read_dir metadata now fuel l p; init_entries fuel entries l
  | Ok (p, Ok RegularFile) :: entries =>
      init_entries fuel entries (match get_metadata metadata now p with
                                 | Ok (access_time, size) => limiter_add p size access_time l
                                 | _ => l
                                 end)
  | Ok _ :: entries => init_entries fuel entries l
  | _ => Some l
  end.

Lemma init_dir_unfold fuel l path :
  init_dir read_dir metadata now (S fuel) l path =
  match read_dir path with Ok entries => init_entries fuel entries l | _ => Some l end.
Proof.
  cbn [init_dir]. destruct (read_dir path) as [entries| |]; try done. revert l.
  induction entries as [|[[p [[]| |]]| |] entries IH]; intros l; simpl; try done;
    (destruct (init_dir read_dir metadata now fuel l p); simpl; [apply IH|done]).
Qed.

(** What every [add] keeps is kept by the scan. *)
Lemma init_dir_keeps (P : SizeLimiter Q -> Prop)
    (Hadd : forall l p t s, get_metadata metadata now p = Ok (t, s) -> P l -> P (limiter_add p s t l)) fuel :
  (forall l path l', init_dir read_dir metadata now fuel l path = Some l' -> P l -> P l') /\
  (forall entries l l', init_entries fuel entries l = Some l' -> P l -> P l').
Proof.
  assert (Hent : forall fuel, (forall l path l', init_dir read_dir metadata now fuel l path = Some l' -> P l -> P l') ->
            forall entries l l', init_entries fuel entries l = Some l' -> P l -> P l').
  { clear fuel. intros fuel IH entries. induction entries as [|[[p [[]| |]]| |] entries IHe]; intros l l' Hi HP; simpl in Hi;
      try (by simplify_eq); try (by eapply IHe);
      try (destruct (init_dir read_dir metadata now fuel l p) eqn:Hd; [|done]; simpl in Hi; by eauto).
    destruct (get_metadata metadata now p) as [[t s]| |] eqn:Hm; eapply IHe; eauto. }
  induction fuel as [|fuel [IH1 IH2]]; split; [done|by apply Hent| |].
  - intros l path l'. rewrite init_dir_unfold. destruct (read_dir path); [apply IH2|by intros [= ->]..].
  - apply Hent. intros l path l'. rewrite init_dir_unfold. destruct (read_dir path); [apply IH2|by intros [= ->]..].
Qed.

(** A regular file below a directory, not behind an entry that could not be read. *)
Inductive listed : Path -> Path -> Prop :=
| listed_here dir pre p post :
    read_dir dir = Ok (pre ++ Ok (p, Ok RegularFile) :: post) -> Forall is_ok pre -> listed dir p
| listed_below dir pre sub ft post p :
    read_dir dir = Ok (pre ++ Ok (sub, Ok ft) :: post) -> Forall is_ok pre -> ft = Directory \/ ft = Symlink ->
    listed sub p -> listed dir p.

Definition tracked (p : Path) (md : Metadata) l : Prop := sizes l !! p = Some (len md).

Lemma tracked_kept p md fuel :
  metadata p = Ok md ->
  (forall l path l', init_dir read_dir metadata now fuel l path = Some l' -> tracked p md l -> tracked p md l') /\
  (forall entries l l', init_entries fuel entries l = Some l' -> tracked p md l -> tracked p md l').
Proof.
  intros Hm. apply (init_dir_keeps (tracked p md)). intros l p' t s Hp Hl. unfold tracked, limiter_add in *. simpl.
  destruct (decide (p' = p)) as [->|Hne]; [|by rewrite lookup_insert_ne].
  unfold get_metadata in Hp. rewrite Hm in Hp. injection Hp as _ <-. by rewrite lookup_insert_eq.
Qed.

(** The entries before one that is reached do not stop the loop. *)
Lemma init_entries_app fuel pre rest l l' :
  Forall is_ok pre -> init_entries fuel (pre ++ rest) l = Some l' -> exists l1, init_entries fuel rest l1 = Some l'.
Proof.
  revert l. induction pre as [|[[p [[]| |]]| |] pre IH]; intros l Hok Hi; simpl in *; try (by eauto);
    apply Forall_cons in Hok as [Hx Hok]; try done; try (by eapply IH);
    (destruct (init_dir read_dir metadata now fuel l p); [|done]; by eapply IH).
Qed.

Lemma init_dir_tracks dir p md fuel l l' :
  listed dir p -> metadata p = Ok md -> init_dir read_dir metadata now fuel l dir = Some l' -> tracked p md l'.
Proof.
  intros Hlisted Hm. revert fuel l l'.
  induction Hlisted as [dir pre p post Hr Hpre|dir pre sub ft post p Hr Hpre Hft Hsub IH]; intros [|fuel] l l' Hi; try done;
    rewrite init_dir_unfold, Hr in Hi; apply init_entries_app in Hi as [l1 Hi]; try done; simpl in Hi.
  - unfold get_metadata in Hi. rewrite Hm in Hi. simpl in Hi.
    eapply (tracked_kept p md fuel Hm); [exact Hi|]. unfold tracked, limiter_add. simpl. by rewrite lookup_insert_eq.
  - assert (Hi' : exists l2, init_dir read_dir metadata now fuel l1 sub = Some l2 /\ init_entries fuel post l2 = Some l').
    { destruct Hft as [-> | ->]; destruct (init_dir read_dir metadata now fuel l1 sub); simpl in Hi; naive_solver. }
    destruct Hi' as (l2 & Hd & Hi'). eapply (tracked_kept p md fuel Hm); [exact Hi'|]. by eapply IH.
Qed.
End open_cache.

(** ** The invariant of the running cache *)

Inductive cache_op :=
| OpSaveFile (now : Z) (f : FileId) (contents : Source) | OpFile (now : Z) (f : FileId) | OpRemoveFile (f : FileId)
| OpSaveVolume (v : Z) | OpSaveCredentials (c : Credentials).

Section running.
Context {Q : Type} `{PriorityQueueLaws Q} (fail : gmap Path (list Z) -> fs_op -> option IoErrorKind)
        (to_json : Credentials -> list Z).

Definition cache_run (w : world Q) (o : cache_op) : world Q :=
  match o with
  | OpSaveFile now f contents => (save_file fail now f contents w).2
  | OpFile now f => (file fail now f w).2
  | OpRemoveFile f => (cache_remove_file fail f w).2
  | OpSaveVolume v => save_volume fail v w
  | OpSaveCredentials c => save_credentials fail to_json c w
  end.

Definition cache_inv (w : world Q) : Prop := forall l, size_limiter (cache w) = Some l -> limiter_wf l.

Lemma prune_internal_wf fuel (l : SizeLimiter Q) d e : limiter_wf l -> limiter_wf (prune_internal fail fuel l d e).2.1.
Proof.
  revert l d e. induction fuel as [|fuel IH]; intros l d e Hwf; cbn [prune_internal];
    pose proof (wf_pop l Hwf) as Hwf'; destruct (limiter_pop l) as [[p|] l']; try done.
  destruct (remove_file fail d p) as [r d1]. by apply IH.
Qed.

Lemma cache_run_inv w o : cache_inv w -> cache_inv (cache_run w o).
Proof.
  intros Hw. destruct o as [now f contents|now f|f|v|c]; simpl.
  - unfold save_file. destruct (file_path f (cache w)) as [p|]; [|done]. destruct (path_parent p); [|done].
    destruct (write_contents fail p l contents (files w)) as [[size|e|] d]; try done.
    destruct (size_limiter (cache w)) as [l0|] eqn:Hl; [|done]. unfold prune.
    pose proof (prune_internal_wf (pq_len (queue (limiter_add p size now l0))) (limiter_add p size now l0) d None (wf_add _ _ _ _ (Hw _ Hl))) as Hp.
    destruct (prune_internal fail _ _ d None) as [r [l' d']]. intros l1 [= <-]. done.
  - unfold file. destruct (file_path f (cache w)) as [p|]; [|done]. destruct (file_open fail (files w) p); try done.
    destruct (size_limiter (cache w)) as [l0|] eqn:Hl; [|done]. intros l1 [= <-]. apply wf_update. by apply Hw.
  - unfold cache_remove_file. destruct (file_path f (cache w)) as [p|]; [|done].
    destruct (remove_file fail (files w) p) as [[]]; try done.
    destruct (size_limiter (cache w)) as [l0|] eqn:Hl; [|by intros l1; simpl; rewrite Hl].
    intros l1 [= <-]. apply wf_remove. by apply Hw.
  - unfold save_volume. destruct (volume_location (cache w)); [|done]. by destruct (file_create fail (files w) l).
  - unfold save_credentials. destruct (credentials_location (cache w)); [|done]. by destruct (file_create fail (files w) l).
Qed.
End running.

(** ** Theorems *)

(** C31: Pruning ends, whatever the file system refuses. Then the recorded files fit the limit, the
    files given up were accessed no later than any file that is kept, giving up one file less would
    have exceeded the limit, no other file was touched, and when no error is returned the files given
    up are gone from the disk. *)
Theorem prune_least_recently_used {Q} `{PriorityQueueLaws Q} (fail : gmap Path (list Z) -> fs_op -> option IoErrorKind)
    (l : SizeLimiter Q) (d : gmap Path (list Z))
    (Hwf : limiter_wf l) (Hok : sizes_ok l) (Hlim : 0 <= size_limit l) :
  exists r l' d', prune fail l d = (r, (l', d')) /\ r <> Panic /\ pruned l d l' d' /\
    (r = Ok tt -> forall p, is_Some (sizes l !! p) -> sizes l' !! p = None -> d' !! p = None).
Proof.
  unfold prune. pose proof (prune_internal_spec fail (pq_len (queue l)) l d None Hwf Hok Hlim ltac:(lia)) as Hp.
  destruct (prune_internal fail _ l d None) as [r [l' d']]. destruct Hp as (Hr & Hp & Hgone).
  exists r, l', d'. split_and!; [done|done|done|]. intros Hr' p [s Hs]. by eapply Hgone.
Qed.

(** C32: A file that was saved is found again, with its contents, exactly when it fits the limit by
    itself, provided the clock is past the accesses recorded so far; and the recorded files fit the
    limit after every save. *)
Theorem save_file_roundtrip {Q} `{PriorityQueueLaws Q} (fail : gmap Path (list Z) -> fs_op -> option IoErrorKind)
    (w w' : world Q) (l : SizeLimiter Q) (file_id : FileId) (path : Path) (contents : Source) (now later : Z)
    (Hl : size_limiter (cache w) = Some l) (Hwf : limiter_wf l) (Hok : sizes_ok l) (Hlim : 0 <= size_limit l)
    (Hsum : total (sizes l) + Z.of_nat (length (src_data contents)) < 2 ^ 64)
    (Hnow : forall p t, pq_map (queue l) !! p = Some t -> t < now)
    (Hopen : forall d p, fail d (OpenFile p) = None)
    (Hsave : save_file fail now file_id contents w = (Ok path, w')) :
  ((file fail later file_id w').1 = Some (src_data contents) <-> Z.of_nat (length (src_data contents)) <= size_limit l) /\
  exists l', size_limiter (cache w') = Some l' /\ limiter_wf l' /\ total (sizes l') <= size_limit l.
Proof.
  unfold save_file in Hsave. destruct (file_path file_id (cache w)) as [path'|] eqn:Hpath; [|done].
  destruct (path_parent path') as [parent|]; [|done].
  destruct (write_contents fail path' parent contents (files w)) as [[size|e|] d1] eqn:Hw; try done.
  apply write_contents_ok in Hw as [-> ->]. rewrite Hl in Hsave.
  set (sz := Z.of_nat (length (src_data contents))) in *. set (l1 := limiter_add path' sz now l) in *.
  destruct (add_lookup l path' sz now) as (Hs1 & Hq1 & Hlim1 & Hold). fold l1 in Hs1, Hq1, Hlim1, Hold.
  assert (Hwf1 : limiter_wf l1) by by apply wf_add. assert (Hok1 : sizes_ok l1) by (apply add_sizes_ok; [done|lia|done]).
  unfold prune in Hsave.
  pose proof (prune_internal_spec fail (pq_len (queue l1)) l1 (<[path' := src_data contents]> (files w)) None Hwf1 Hok1 ltac:(lia) ltac:(lia)) as Hp.
  destruct (prune_internal fail _ l1 _ None) as [r [l' d']]. destruct Hp as (Hr & Hp & Hgone).
  destruct r as [[]|e|]; try done. injection Hsave as <- <-.
  pose proof (newest_kept _ _ _ _ path' sz now Hp Hwf1 Hok1 Hs1 Hq1) as Hkeep. rewrite Hlim1 in Hkeep.
  specialize (Hkeep ltac:(intros p t Hne Ht; by eapply Hnow, Hold)).
  split; [|exists l'; split_and!; [done|by destruct Hp|by rewrite <- Hlim1; destruct Hp]].
  unfold file, file_open, permitted. cbn [cache files].
  change (file_path file_id (set_limiter l' (cache w))) with (file_path file_id (cache w)). rewrite Hpath, Hopen.
  change (size_limiter (set_limiter l' (cache w))) with (Some l').
  cbn [mbind res_bind]. rewrite <- Hkeep. split.
  - intros Hf. destruct (sizes l' !! path') as [s|] eqn:Hs'.
    + eapply lookup_weaken in Hs'; [|by destruct Hp]. congruence.
    + destruct (Hgone eq_refl) as [_ Hg]. specialize (Hg _ _ Hs1 Hs'). cbv zeta in Hf. by rewrite Hg in Hf.
  - intros Hs'. destruct Hp as [_ _ _ _ _ _ _ Hframe]. rewrite (Hframe path') by congruence.
    by rewrite lookup_insert_eq.
Qed.

(** Volume and credentials are read back as they were saved, the credentials with any JSON
    encoding that reads what it writes. *)
Theorem saved_settings_roundtrip {Q} `{PriorityQueueLaws Q} (fail : gmap Path (list Z) -> fs_op -> option IoErrorKind)
    (from_json : list Z -> option Credentials) (to_json : Credentials -> list Z) (w : world Q) (v : Z) (c : Credentials)
    (volume_file credentials_file : Path)
    (Hv : volume_location (cache w) = Some volume_file) (Hc : credentials_location (cache w) = Some credentials_file)
    (Hne : volume_file <> credentials_file) (Hfits : fits 16 v)
    (Hjson : forall c, from_json (to_json c) = Some c) (Hfail : forall d o, fail d o = None) :
  let w' := save_credentials fail to_json c (save_volume fail v w) in
  volume fail w' = Some v /\ credentials fail from_json w' = Some c.
Proof.
  assert (Hc' : credentials_location (cache (save_volume fail v w)) = Some credentials_file).
  { unfold save_volume. rewrite Hv. by destruct (file_create fail (files w) volume_file). }
  intros w'. split; [|by eapply save_credentials_reads].
  rewrite <- (save_volume_reads fail v w volume_file) by done. subst w'.
  unfold volume at 1, save_credentials. rewrite Hc'. unfold file_create, permitted. rewrite Hfail. cbn [mbind res_bind mret res_ret].
  rewrite Hfail. cbn [cache files]. unfold volume.
  destruct (volume_location (cache (save_volume fail v w))) as [p|] eqn:Hp; [|done]. cbn [mbind option_bind].
  assert (p = volume_file) as ->.
  { unfold save_volume in Hp. rewrite Hv in Hp. destruct (file_create fail (files w) volume_file); simpl in Hp; congruence. }
  unfold read_file, file_open, permitted. rewrite !Hfail. cbn [mbind res_bind raise].
  by rewrite !lookup_insert_ne by done.
Qed.

(** Two different audio files never share a path in the cache. *)
Theorem file_path_injective {Q} (c : Cache Q) (f1 f2 : FileId)
    (H1 : Forall is_byte f1) (H2 : Forall is_byte f2) (Hl1 : length f1 = RAW_LEN) (Hl2 : length f2 = RAW_LEN)
    (Hc : is_Some (audio_location c)) (Heq : file_path f1 c = file_path f2 c) : f1 = f2.
Proof.
  destruct Hc as [loc Hloc]. destruct f1 as [|b1 f1]; [done|]. destruct f2 as [|b2 f2]; [done|].
  rewrite !(file_path_parts loc) in Heq by done. injection Heq as Heq. apply app_inv_head in Heq. injection Heq as Hb Hf.
  inversion H1; inversion H2; subst.
  f_equal; [|by apply base16_inj]. enough ([b1] = [b2]) by congruence.
  apply base16_inj; [by apply Forall_singleton..|]. simpl. congruence.
Qed.

(** The limiter's books stay right: from the moment the cache is opened, and after any sequence
    of saves, reads and removals, failed ones included, the queue and the size table name the same
    files and [in_use] is the sum of the sizes (modulo the width of the counter). Every file below
    the audio directory is in the books when pruning starts. *)
Theorem cache_accounting {Q} `{PriorityQueueLaws Q} (fail : gmap Path (list Z) -> fs_op -> option IoErrorKind)
    (to_json : Credentials -> list Z) (read_dir : Path -> res IoErrorKind (list (res IoErrorKind DirEntry)))
    (metadata : Path -> res IoErrorKind Metadata) (now : Z) (depth : nat) (cred vol : option Path) (audio : Path) (limit : Z)
    (d : gmap Path (list Z)) (w : world Q) (ops : list cache_op)
    (Hnew : cache_new fail read_dir metadata now depth cred vol (Some audio) (Some limit) d = Ok w) :
  (exists l0, init_dir read_dir metadata now depth (limiter_new (Q := Q) limit) audio = Some l0 /\ limiter_wf l0 /\
     forall p md, listed read_dir audio p -> metadata p = Ok md -> sizes l0 !! p = Some (len md)) /\
  cache_inv (fold_left (cache_run fail to_json) ops w).
Proof.
  unfold cache_new in Hnew.
  assert (exists l0, init_dir read_dir metadata now depth (limiter_new (Q := Q) limit) audio = Some l0 /\
            exists l1 d1, prune fail l0 d = (Ok tt, (l1, d1)) /\ size_limiter (cache w) = Some l1) as (l0 & Hl0 & l1 & d1 & Hp & Hl1).
  { destruct cred as [pc|]; [destruct (create_dir_all fail d pc); try done; simpl in Hnew|];
    (destruct vol as [pv|]; [destruct (create_dir_all fail d pv); try done; simpl in Hnew|]);
    simpl in Hnew; (destruct (create_dir_all fail d audio); try done; simpl in Hnew);
    (destruct (init_dir read_dir metadata now depth (limiter_new limit) audio) as [l0|]; [|done]; exists l0; split; [done|]);
    (destruct (prune fail l0 d) as [[[]| |] [l1 d1]]; try done; exists l1, d1; split; [done|]; by injection Hnew as <-). }
  assert (Hwf : limiter_wf l0).
  { eapply (proj1 (init_dir_keeps read_dir metadata now limiter_wf ltac:(intros; by apply wf_add) depth)); [exact Hl0|apply wf_new]. }
  split; [exists l0; split_and!; [done|done|intros p md Hp1 Hm; by eapply init_dir_tracks]|].
  assert (Hw : cache_inv w).
  { intros l Hl. pose proof (prune_internal_wf fail (pq_len (queue l0)) l0 d None Hwf) as Hq. unfold prune in Hp. rewrite Hp in Hq.
    simpl in Hq. congruence. }
  clear Hnew Hl1. revert w Hw. induction ops as [|o ops IH]; intros w Hw; simpl; [done|]. by apply IH, cache_run_inv.
Qed.

(** A failed download leaves what it wrote under the path of the file, and the next reader is given
    the truncated file. *)
Theorem partial_file_served {Q} `{PriorityQueueLaws Q} (w : world Q) (f : FileId) (loc : Path) (data : list Z) (e : IoErrorKind)
    (now later : Z) (Hloc : audio_location (cache w) = Some loc) :
  let '(r, w') := save_file (fun _ _ => None) now f (mkSource data (Some e)) w in
  r = Err (into_error CachePath) /\ (file (fun _ _ => None) later f w').1 = Some data.
Proof.
  unfold save_file. destruct (file_path f (cache w)) as [p|] eqn:Hp; [|unfold file_path in Hp; by rewrite Hloc in Hp].
  destruct (path_parent p) as [parent|] eqn:Hpar.
  - cbn. split; [done|]. unfold file. cbn [cache files]. rewrite Hp. unfold file_open. simpl. rewrite lookup_insert_eq. simpl.
    by destruct (size_limiter (cache w)).
  - unfold file_path in Hp. rewrite Hloc in Hp. simpl in Hp. injection Hp as <-. unfold path_join in Hpar.
    by destruct loc.
Qed.

(** ** Examples *)

Definition ex_limiter : SizeLimiter (gmap Path Z) :=
  limiter_add ["a"; "y"] 4 20 (limiter_add ["a"; "x"] 5 10 (limiter_new 10)).
Definition ex_disk : gmap Path (list Z) := {[ ["a"; "x"] := [1; 2; 3; 4; 5]; ["a"; "y"] := [6; 7; 8; 9]; ["other"] := [0] ]}.
Definition ex_cache : world (gmap Path Z) :=
  mkWorld (mkCache (Some ["c"; "credentials.json"]) (Some ["c"; "volume"]) (Some ["a"]) (Some ex_limiter)) ex_disk.
Definition allow (_ : gmap Path (list Z)) (_ : fs_op) : option IoErrorKind := None.
Definition ex_file : FileId := replicate 19 0 ++ [7].

Lemma ex_limiter_wf : limiter_wf ex_limiter.
Proof. apply wf_add, wf_add, wf_new. Qed.

Lemma ex_limiter_ok : sizes_ok ex_limiter.
Proof.
  split; [|by vm_compute]. apply (bool_decide_eq_true_1 (map_Forall (fun _ s => 0 <= s) (sizes ex_limiter))).
  vm_compute. reflexivity.
Qed.

Lemma prune_least_recently_used_witness :
  exists r l' d', prune allow (limiter_add ["a"; "z"] 6 30 ex_limiter) ex_disk = (r, (l', d')) /\ r <> Panic /\
    pruned (limiter_add ["a"; "z"] 6 30 ex_limiter) ex_disk l' d' /\
    (r = Ok tt -> forall p, is_Some (sizes (limiter_add ["a"; "z"] 6 30 ex_limiter) !! p) -> sizes l' !! p = None -> d' !! p = None).
Proof.
  apply prune_least_recently_used.
  - apply wf_add, ex_limiter_wf.
  - apply add_sizes_ok; [apply ex_limiter_ok|lia|vm_compute; reflexivity].
  - vm_compute. discriminate.
Defined.

Lemma save_file_roundtrip_witness :
  (file allow 50 ex_file (save_file allow 30 ex_file (mkSource [1; 2; 3] None) ex_cache).2).1 = Some [1; 2; 3].
Proof.
  assert (Hnow : map_Forall (fun _ t => t < 30) (pq_map (queue ex_limiter)))
    by (refine (bool_decide_eq_true_1 (map_Forall (fun _ t => t < 30) (pq_map (queue ex_limiter))) _); vm_compute; reflexivity).
  destruct (save_file_roundtrip allow ex_cache (save_file allow 30 ex_file (mkSource [1; 2; 3] None) ex_cache).2
              ex_limiter ex_file ["a"; "00"; "00000000000000000000000000000000000007"] (mkSource [1; 2; 3] None) 30 50
              eq_refl ex_limiter_wf ex_limiter_ok ltac:(vm_compute; discriminate) ltac:(vm_compute; reflexivity)
              Hnow (fun _ _ => eq_refl) ltac:(vm_compute; reflexivity)) as [Hfile _].
  apply Hfile. vm_compute. discriminate.
Defined.

(** An encoding that reads what it writes. *)
Definition ex_to_json (c : Credentials) : list Z :=
  [Zpos (encode (username c, auth_type_value (auth_type c), auth_data c))].
Definition ex_from_json (l : list Z) : option Credentials :=
  match l with
  | [Zpos p] => '(u, t, d) ← (decode p : option (option string * Z * list Z)); t ← auth_type_from_i32 t; Some (mkCredentials u t d)
  | _ => None
  end.

Lemma ex_json c : ex_from_json (ex_to_json c) = Some c.
Proof.
  unfold ex_from_json, ex_to_json. rewrite decode_encode. cbn [mbind option_bind]. rewrite auth_type_roundtrip. by destruct c.
Qed.

Lemma saved_settings_roundtrip_witness :
  let w := save_credentials allow ex_to_json (with_password "u" "p") (save_volume allow 32767 ex_cache) in
  volume allow w = Some 32767 /\ credentials allow ex_from_json w = Some (with_password "u" "p").
Proof.
  apply (saved_settings_roundtrip allow ex_from_json ex_to_json ex_cache 32767 (with_password "u" "p") ["c"; "volume"] ["c"; "credentials.json"]);
    try reflexivity; [discriminate|split; [discriminate|reflexivity]|apply ex_json].
Defined.

Lemma file_path_injective_witness : ex_file = replicate 19 0 ++ [7].
Proof.
  apply (file_path_injective (cache ex_cache) ex_file (replicate 19 0 ++ [7])); try reflexivity.
  - apply (bool_decide_eq_true_1 (Forall is_byte _)). vm_compute. reflexivity.
  - apply (bool_decide_eq_true_1 (Forall is_byte _)). vm_compute. reflexivity.
  - exists ["a"]. reflexivity.
Defined.

Lemma cache_accounting_witness :
  exists w, cache_new (Q := gmap Path Z) allow
      (fun p => if decide (p = ["a"]) then Ok [Ok (["a"; "x"], Ok RegularFile); Ok (["a"; "00"], Ok Directory)]
                else if decide (p = ["a"; "00"]) then Ok [Ok (["a"; "00"; "y"], Ok RegularFile)] else Err IoNotFound)
      (fun _ => Ok (mkMetadata None (Some 3) None 5)) 10 3 None None (Some ["a"]) (Some 7) ex_disk = Ok w /\
    cache_inv (fold_left (cache_run allow ex_to_json) [OpFile 11 ex_file; OpSaveFile 12 ex_file (mkSource [1] None); OpRemoveFile ex_file] w).
Proof.
  eexists. split.
  2: { apply (cache_accounting allow ex_to_json
      (fun p => if decide (p = ["a"]) then Ok [Ok (["a"; "x"], Ok RegularFile); Ok (["a"; "00"], Ok Directory)]
                else if decide (p = ["a"; "00"]) then Ok [Ok (["a"; "00"; "y"], Ok RegularFile)] else Err IoNotFound)
      (fun _ => Ok (mkMetadata None (Some 3) None 5)) 10 3 None None ["a"] 7 ex_disk).
      vm_compute. reflexivity. }
  vm_compute. reflexivity.
Defined.

Lemma partial_file_served_witness :
  let '(r, w') := save_file (fun _ _ => None) 30 ex_file (mkSource [1; 2] (Some IoTimedOut)) ex_cache in
  r = Err (into_error CachePath) /\ (file (fun _ _ => None) 40 ex_file w').1 = Some [1; 2].
Proof. apply (partial_file_served ex_cache ex_file ["a"] [1; 2] IoTimedOut 30 40). reflexivity. Defined.
