(* ===== verification/Catalogue.v ===== *)
(** * Catalogue metadata of playable items ([native/librespot/metadata/src])

    What a track or an episode is for the player: its audio files by format ([audio/file.rs]), when
    and where it may be played ([availability.rs], [restriction.rs]) and the item put together from
    them ([audio/item.rs]). Times are nanoseconds since 1970. The decoders of the protocol messages
    and the service that answers the requests are parameters. *)
From S2P Require Import Prelude Text SpotifyId SpotifyUri Config Errors Auth Date.

(** ** Audio files *)

Inductive AudioFileFormat :=
| OGG_VORBIS_96 | OGG_VORBIS_160 | OGG_VORBIS_320 | MP3_256 | MP3_320 | MP3_160 | MP3_96 | MP3_160_ENC
| AAC_24 | AAC_48 | FLAC_FLAC | XHE_AAC_24 | XHE_AAC_16 | XHE_AAC_12 | FLAC_FLAC_24BIT
| AAC_160 | AAC_320 | MP4_128 | OTHER5.

#[export] Instance AudioFileFormat_eq_dec : EqDecision AudioFileFormat.
Proof. solve_decision. Defined.

(** [Format::from_i32] and [From<Format>]: the formats of the protocol, which has no others. *)
Definition format_from_i32 (value : Z) : option AudioFileFormat :=
  match value with
  | 0 => Some OGG_VORBIS_96 | 1 => Some OGG_VORBIS_160 | 2 => Some OGG_VORBIS_320 | 3 => Some MP3_256
  | 4 => Some MP3_320 | 5 => Some MP3_160 | 6 => Some MP3_96 | 7 => Some MP3_160_ENC | 8 => Some AAC_24
  | 9 => Some AAC_48 | 16 => Some FLAC_FLAC | 18 => Some XHE_AAC_24 | 19 => Some XHE_AAC_16
  | 20 => Some XHE_AAC_12 | 22 => Some FLAC_FLAC_24BIT
  | _ => None
  end.

(** [impl TryFrom<i32> for AudioFileFormat]: four more that are sometimes sent *)
Definition format_try_from (value : Z) : res Z AudioFileFormat :=
  match value with
  | 10 => Ok AAC_160 | 11 => Ok AAC_320 | 12 => Ok MP4_128 | 13 => Ok OTHER5
  | _ => ok_or value (format_from_i32 value)
  end.

(** The comments of the enumeration. *)
Definition format_code (f : AudioFileFormat) : Z :=
  match f with
  | OGG_VORBIS_96 => 0 | OGG_VORBIS_160 => 1 | OGG_VORBIS_320 => 2 | MP3_256 => 3 | MP3_320 => 4 | MP3_160 => 5
  | MP3_96 => 6 | MP3_160_ENC => 7 | AAC_24 => 8 | AAC_48 => 9 | FLAC_FLAC => 16 | XHE_AAC_24 => 18
  | XHE_AAC_16 => 19 | XHE_AAC_12 => 20 | FLAC_FLAC_24BIT => 22 | AAC_160 => 10 | AAC_320 => 11 | MP4_128 => 12
  | OTHER5 => 13
  end.

Definition format_of (value : Z) : option AudioFileFormat :=
  match format_try_from value with Ok f => Some f | _ => None end.

Lemma format_of_code f : format_of (format_code f) = Some f.
Proof. by destruct f. Qed.

#[export] Instance AudioFileFormat_countable : Countable AudioFileFormat :=
  inj_countable format_code format_of format_of_code.

Definition AudioFiles := gmap AudioFileFormat FileId.

Definition is_ogg_vorbis (f : AudioFileFormat) : bool :=
  match f with OGG_VORBIS_320 | OGG_VORBIS_160 | OGG_VORBIS_96 => true | _ => false end.

Definition is_mp3 (f : AudioFileFormat) : bool :=
  match f with MP3_320 | MP3_256 | MP3_160 | MP3_96 | MP3_160_ENC => true | _ => false end.

Definition is_flac (f : AudioFileFormat) : bool := match f with FLAC_FLAC => true | _ => false end.

Definition mime_type (f : AudioFileFormat) : option string :=
  if is_ogg_vorbis f then Some "audio/ogg"
  else if is_mp3 f then Some "audio/mpeg"
  else if is_flac f then Some "audio/flac" else None.

(** [file_id] and, unless it is missing, the number of the format *)
Record AudioFileMessage := mkAudioFileMessage { msg_file_id : list Z; msg_format : option Z }.

Definition audio_file (m : AudioFileMessage) : option (AudioFileFormat * FileId) :=
  format ← msg_format m; f ← format_from_i32 format; Some (f, file_id_from_raw (msg_file_id m)).

(** [.collect()] into a map: a later file of the same format replaces an earlier one. *)
Definition audio_files (l : list AudioFileMessage) : AudioFiles :=
  fold_left (fun m '(f, i) => <[f := i]> m) (omap audio_file l) ∅.

(** ** Availability and restrictions *)

Inductive UnavailabilityReason := Blacklisted | Embargo | NoData | NotWhitelisted.

Definition AudioItemAvailability := res UnavailabilityReason unit.

Record Availability := mkAvailability { av_catalogue_strs : list string; start : Z }.

Record Restriction := mkRestriction {
  catalogue_strs : list string;
  countries_allowed : option (list string);
  countries_forbidden : option (list string)
}.

(** [StrChunks]: [&data\[..size\]] panics at the end of the string and inside a character. *)
Definition split_str (size : nat) (data : string) : res Error (string * string) :=
  if (String.length data <? size)%nat then Panic
  else match String.get size data with
       | Some c => if cont (char_code c) then Panic
                   else Ok (String.substring 0 size data, String.substring size (String.length data - size) data)
       | None => Ok (data, "")
       end.

Fixpoint chunks (fuel size : nat) (data : string) : res Error (list string) :=
  match fuel with
  | O => Ok []
  | S fuel =>
      if is_empty data then Ok []
      else '(c, rest) ← split_str size data; l ← chunks fuel size rest; Ok (c :: l)
  end.

Definition parse_country_codes (country_codes : string) : res Error (list string) :=
  chunks (String.length country_codes) 2 country_codes.

(** The fields of [RestrictionMessage] that the player looks at. *)
Record RestrictionMessage := mkRestrictionMessage {
  rm_catalogue_str : list string; rm_countries_allowed : option string; rm_countries_forbidden : option string
}.

Definition optional_codes (codes : option string) : res Error (option (list string)) :=
  match codes with Some c => l ← parse_country_codes c; Ok (Some l) | None => Ok None end.

Definition restriction_from (m : RestrictionMessage) : res Error Restriction :=
  countries_allowed ← optional_codes (rm_countries_allowed m);
  countries_forbidden ← optional_codes (rm_countries_forbidden m);
  Ok (mkRestriction (rm_catalogue_str m) countries_allowed countries_forbidden).

(** ** Items *)

(** What the session knows of the user. *)
Record UserData := mkUserData { country : string; attributes : gmap string string }.

Definition filter_explicit_content (u : UserData) : bool :=
  match attributes u !! "filter-explicit-content" with Some value => String.eqb value "1" | None => false end.

Fixpoint allowed_by (country : string) (l : list Restriction) : AudioItemAvailability :=
  match l with
  | [] => Ok tt
  | r :: l =>
      match countries_allowed r with
      | Some allowed => if existsb (String.eqb country) allowed then Ok tt else Err NotWhitelisted
      | None =>
          match countries_forbidden r with
          | Some forbidden => if existsb (String.eqb country) forbidden then Err Blacklisted else Ok tt
          | None => allowed_by country l
          end
      end
  end.

Definition allowed_for_user (u : UserData) (restrictions : list Restriction) : AudioItemAvailability :=
  let user_catalogue := default "premium" (attributes u !! "catalogue") in
  allowed_by (country u) (List.filter (fun r => existsb (fun c => String.eqb c user_catalogue) (catalogue_strs r)) restrictions).

Definition available (now : Z) (l : list Availability) : AudioItemAvailability :=
  match l with
  | [] => Ok tt
  | _ => if negb (existsb (fun a => start a <=? now) l) then Err Embargo else Ok tt
  end.

Definition available_for_user (now : Z) (u : UserData) (availability : list Availability) (restrictions : list Restriction) :
    AudioItemAvailability :=
  _ ← available now availability;
  _ ← allowed_for_user u restrictions;
  Ok tt.

Record Image := mkImage { image_id : FileId; image_size : Z; image_width : Z; image_height : Z }.
Record CoverImage := mkCoverImage { cover_url : string; cover_size : Z; cover_width : Z; cover_height : Z }.

(** [covers.sort_by_key(|a| Reverse(a.width))], a stable sort *)
Fixpoint insert_cover (c : Image) (l : list Image) : list Image :=
  match l with
  | [] => [c]
  | d :: l => if image_width d <=? image_width c then c :: d :: l else d :: insert_cover c l
  end.
Definition sort_covers (l : list Image) : list Image := fold_right insert_cover [] l.

Definition cover_image (image_url : string) (c : Image) : option CoverImage :=
  let cover_id := file_id_to_base16 (image_id c) in
  if is_empty cover_id then None
  else Some (mkCoverImage (replace_str "{file_id}" cover_id image_url) (image_size c) (image_width c) (image_height c)).

Definition get_covers (covers : list Image) (image_url : string) : list CoverImage := omap (cover_image image_url) (sort_covers covers).

Record ArtistWithRole := mkArtistWithRole { role_id : SpotifyUri; role_name : string; role : Z }.

(** The fields of [Album], [Track] and [Episode] that make up an item. *)
Record AlbumInfo := mkAlbumInfo { album_name : string; album_artists : list string; album_covers : list Image }.

Record TrackInfo := mkTrackInfo {
  track_name : string;
  track_album : AlbumInfo;
  track_number : Z;
  track_disc_number : Z;
  track_duration : Z;
  track_popularity : Z;
  track_is_explicit : bool;
  track_restrictions : list Restriction;
  track_files : AudioFiles;
  track_alternatives : list SpotifyUri;
  earliest_live_timestamp : Z;
  track_availability : list Availability;
  language_of_performance : list string;
  artists_with_role : list ArtistWithRole
}.

Record EpisodeInfo := mkEpisodeInfo {
  episode_name : string;
  episode_duration : Z;
  episode_audio : AudioFiles;
  episode_description : string;
  publish_time : Z;
  episode_covers : list Image;
  episode_language : string;
  episode_is_explicit : bool;
  show_name : string;
  episode_restrictions : list Restriction;
  episode_availability : list Availability
}.

Inductive UniqueFields :=
| UTrack (artists : list ArtistWithRole) (album : string) (album_artists : list string) (popularity number disc_number : Z)
| ULocal (artists album album_artists : option string) (number disc_number : option Z) (path : string)
| UEpisode (description : string) (publish_time : Z) (show_name : string).

Record AudioItem := mkAudioItem {
  track_id : SpotifyUri;
  uri : string;
  files : AudioFiles;
  name : string;
  covers : list CoverImage;
  language : list string;
  duration_ms : Z;
  is_explicit : bool;
  availability : AudioItemAvailability;
  alternatives : option (list SpotifyUri);
  unique_fields : UniqueFields
}.

Section get_file.
(** [Track::get] and [Episode::get], the time, and the user. *)
Context (get_track : SpotifyUri -> res Error TrackInfo) (get_episode : SpotifyUri -> res Error EpisodeInfo) (now : Z) (user : UserData).

Definition text_of (r : res SpotifyIdError string) : res Error string := match r with Ok t => Ok t | _ => Panic end.

(** [value.clamp(0, 100) as u8] and [value.max(0) as u32] *)
Definition clamp_popularity (p : Z) : Z := Z.max 0 (Z.min 100 p).

Definition track_item (item_uri : SpotifyUri) (image_url : string) : res Error AudioItem :=
  track ← get_track item_uri;
  if track_duration track <=? 0 then Err (unavailable (EMetadata (InvalidDuration (track_duration track))))
  else if track_is_explicit track && filter_explicit_content user then Err (unavailable (EMetadata ExplicitContentFiltered))
  else
    uri_string ← text_of (to_uri item_uri);
    let availability :=
      if now <? earliest_live_timestamp track then Err Embargo
      else available_for_user now user (track_availability track) (track_restrictions track) in
    Ok (mkAudioItem item_uri uri_string (track_files track) (track_name track)
          (get_covers (album_covers (track_album track)) image_url) (language_of_performance track)
          (track_duration track) (track_is_explicit track) availability
          (match track_alternatives track with [] => None | l => Some l end)
          (UTrack (artists_with_role track) (album_name (track_album track)) (album_artists (track_album track))
             (clamp_popularity (track_popularity track)) (Z.max 0 (track_number track)) (Z.max 0 (track_disc_number track)))).

Definition episode_item (item_uri : SpotifyUri) (image_url : string) : res Error AudioItem :=
  episode ← get_episode item_uri;
  if episode_duration episode <=? 0 then Err (unavailable (EMetadata (InvalidDuration (episode_duration episode))))
  else if episode_is_explicit episode && filter_explicit_content user then Err (unavailable (EMetadata ExplicitContentFiltered))
  else
    uri_string ← text_of (to_uri item_uri);
    Ok (mkAudioItem item_uri uri_string (episode_audio episode) (episode_name episode)
          (get_covers (episode_covers episode) image_url) [episode_language episode]
          (episode_duration episode) (episode_is_explicit episode)
          (available_for_user now user (episode_availability episode) (episode_restrictions episode))
          None (UEpisode (episode_description episode) (publish_time episode) (show_name episode))).

Definition get_file (item_uri : SpotifyUri) : res Error AudioItem :=
  let image_url := default "https://i.scdn.co/image/{file_id}" (attributes user !! "image-url") in
  match item_uri with
  | Track _ => track_item item_uri image_url
  | Episode _ => episode_item item_uri image_url
  | _ => Err (unavailable (EMetadata NonPlayable))
  end.
End get_file.

(** ** Country codes *)

Lemma length_append s t : String.length (s +:+ t) = (String.length s + String.length t)%nat.
Proof. induction s as [|c s IH]; simpl; [done|]. by rewrite IH. Qed.

(** Two characters of one byte each *)
Definition code_ok (c : string) : bool :=
  match c with String a (String b "") => negb (cont (char_code a)) && negb (cont (char_code b)) | _ => false end.

Definition starts_clean (s : string) : bool := match s with String c _ => negb (cont (char_code c)) | "" => true end.

Lemma split_code c rest :
  code_ok c = true -> starts_clean rest = true -> split_str 2 (c +:+ rest) = Ok (c, rest).
Proof.
  intros Hc Hr. destruct c as [|a [|b [|]]]; try done. unfold split_str. cbn [String.append String.length Nat.ltb Nat.leb String.get].
  destruct rest as [|d rest]; [done|]. simpl in Hr. simpl String.get. cbv iota. rewrite (proj1 (negb_true_iff _) Hr).
  do 2 f_equal; simpl. by rewrite substring_all.
Qed.

Lemma codes_clean codes : forallb code_ok codes = true -> starts_clean (String.concat "" codes) = true.
Proof.
  destruct codes as [|c codes]; [done|]. simpl. intros [Hc _]%andb_true_iff.
  destruct c as [|a [|b [|]]]; try done. apply andb_true_iff in Hc as [Ha _]. by destruct codes.
Qed.

Lemma concat_cons c codes : String.concat "" (c :: codes) = c +:+ String.concat "" codes.
Proof. destruct codes; simpl; [|done]. by rewrite append_nil_r. Qed.

Lemma parse_codes codes : forallb code_ok codes = true -> parse_country_codes (String.concat "" codes) = Ok codes.
Proof.
  unfold parse_country_codes. intros Hok.
  assert (H : forall fuel, (length codes <= fuel)%nat -> chunks fuel 2 (String.concat "" codes) = Ok codes).
  { induction codes as [|c codes IH]; intros fuel Hf; [by destruct fuel|]. destruct fuel as [|fuel]; [simpl in Hf; lia|].
    pose proof Hok as [Hc Hcs]%andb_true_iff. rewrite concat_cons. cbn [chunks].
    replace (is_empty (c +:+ String.concat "" codes)) with false by (by destruct c).
    rewrite split_code by (done || by apply codes_clean). cbn [mbind res_bind]. rewrite IH; [done|done|simpl in Hf; lia]. }
  apply H. clear H. induction codes as [|c codes IH]; [simpl; lia|]. pose proof Hok as [Hc Hcs]%andb_true_iff.
  rewrite concat_cons, length_append. specialize (IH Hcs). destruct c as [|a [|b [|]]]; try done. simpl in *. lia.
Qed.

Lemma substring_rest n s : (n <= String.length s)%nat -> String.length (String.substring n (String.length s - n) s) = (String.length s - n)%nat.
Proof.
  revert n. induction s as [|c s IH]; intros n Hn; [by destruct n|]. destruct n as [|n]; simpl.
  - by rewrite substring_all.
  - apply IH. simpl in Hn. lia.
Qed.

Lemma odd_chunks fuel codes : (String.length codes <= fuel)%nat -> Nat.odd (String.length codes) = true -> chunks fuel 2 codes = Panic.
Proof.
  revert codes. induction fuel as [|fuel IH]; intros codes Hf Hodd; [destruct codes; [done|simpl in Hf; lia]|]. cbn [chunks].
  destruct codes as [|a [|b codes]]; [done|done|]. cbn [is_empty]. unfold split_str. cbn [String.length Nat.ltb Nat.leb].
  simpl String.get. destruct codes as [|d codes]; [done|]. cbn [String.get]. case_if; [done|]. cbn [mbind res_bind].
  set (rest := String.substring 2 _ _).
  assert (Hl : String.length rest = String.length (String d codes)).
  { exact (substring_rest 2 (String a (String b (String d codes))) ltac:(simpl; lia)). }
  rewrite IH; [done| |]; rewrite Hl; [simpl in *; lia|exact Hodd].
Qed.

(** A list of country codes of odd length ends the program: the last chunk is cut past its end. *)
Theorem odd_codes_panic (codes : string) (Hodd : Nat.odd (String.length codes) = true) : parse_country_codes codes = Panic.
Proof. by apply odd_chunks. Qed.

(** ** Rules

    What the restrictions of an item mean: each names the catalogues it is for, and either the
    countries where the item may be played, or those where it may not, or neither. The first one
    for the user's catalogue that names countries decides. *)
Record Rule := mkRule { rule_catalogues : list string; rule_countries : option (bool * list string) }.

Definition rule_message (r : Rule) : RestrictionMessage :=
  mkRestrictionMessage (rule_catalogues r)
    (match rule_countries r with Some (true, codes) => Some (String.concat "" codes) | _ => None end)
    (match rule_countries r with Some (false, codes) => Some (String.concat "" codes) | _ => None end).

Definition rule_ok (r : Rule) : bool := match rule_countries r with Some (_, codes) => forallb code_ok codes | None => true end.

Definition user_catalogue (u : UserData) : string := default "premium" (attributes u !! "catalogue").

Fixpoint may_play (u : UserData) (rules : list Rule) : bool :=
  match rules with
  | [] => true
  | r :: rules =>
      match rule_countries r with
      | Some (white, codes) =>
          if bool_decide (user_catalogue u ∈ rule_catalogues r) then Bool.eqb white (bool_decide (country u ∈ codes))
          else may_play u rules
      | None => may_play u rules
      end
  end.

Definition rule_restriction (r : Rule) : Restriction :=
  mkRestriction (rule_catalogues r)
    (match rule_countries r with Some (true, codes) => Some codes | _ => None end)
    (match rule_countries r with Some (false, codes) => Some codes | _ => None end).

Lemma rule_parsed r : rule_ok r = true -> restriction_from (rule_message r) = Ok (rule_restriction r).
Proof.
  destruct r as [cats [[[] codes]|]]; unfold rule_ok, restriction_from; cbn; intros Hok; [by rewrite parse_codes..|done].
Qed.

Lemma existsb_elem (x : string) l : existsb (String.eqb x) l = bool_decide (x ∈ l).
Proof.
  apply Bool.eq_true_iff_eq. rewrite existsb_exists, bool_decide_eq_true. split.
  - intros (y & Hy & ->%String.eqb_eq). by apply list_elem_of_In.
  - intros Hx. exists x. rewrite String.eqb_refl. split; [by apply list_elem_of_In|done].
Qed.

Lemma allowed_by_rules u rules : is_ok (allowed_for_user u (rule_restriction <$> rules)) = may_play u rules.
Proof.
  unfold allowed_for_user. fold (user_catalogue u). induction rules as [|r rules IH]; [done|].
  cbn [fmap list_fmap List.filter may_play]. cbn [rule_restriction catalogue_strs].
  replace (existsb (fun c => String.eqb c (user_catalogue u)) (rule_catalogues r)) with (bool_decide (user_catalogue u ∈ rule_catalogues r)).
  2:{ rewrite <- existsb_elem. induction (rule_catalogues r) as [|c l IHl]; simpl; [done|]. by rewrite IHl, String.eqb_sym. }
  destruct (bool_decide (user_catalogue u ∈ rule_catalogues r)).
  - cbn [allowed_by countries_allowed countries_forbidden rule_restriction]. destruct (rule_countries r) as [[[] codes]|]; [| |exact IH];
      rewrite existsb_elem; by destruct (bool_decide (country u ∈ codes)).
  - destruct (rule_countries r) as [[]|]; exact IH.
Qed.

Lemma available_spec now l : is_ok (available now l) = true <-> l = [] \/ exists a, a ∈ l /\ start a <= now.
Proof.
  unfold available. destruct l as [|a l]; [split; [by left|done]|]. remember (a :: l) as l' eqn:Hl.
  transitivity (existsb (fun a => start a <=? now) l' = true); [by destruct (existsb _ l')|].
  rewrite existsb_exists. split.
  - intros (b & Hb & Hs%Z.leb_le). right. exists b. split; [by apply list_elem_of_In|done].
  - intros [->|(b & Hb & Hs)]; [done|]. exists b. split; [by apply list_elem_of_In|by apply Z.leb_le].
Qed.

(** ** Theorems *)

(** C30: A track that was found has a length, is not explicit if the user filters such content, and
    may be played exactly when its release date has passed, one of its availability dates has (if
    it has any), and the first restriction for the user's catalogue that names countries lets
    the user's country play it. *)
Theorem track_availability_decided (get_track : SpotifyUri -> res Error TrackInfo) (get_episode : SpotifyUri -> res Error EpisodeInfo)
    (now : Z) (user : UserData) (i : SpotifyId) (track : TrackInfo) (rules : list Rule) (item : AudioItem)
    (Hget : get_track (Track i) = Ok track) (Hok : forallb rule_ok rules = true)
    (Hrules : mapM restriction_from (rule_message <$> rules) = Ok (track_restrictions track))
    (Hitem : get_file get_track get_episode now user (Track i) = Ok item) :
  0 < duration_ms item /\ (is_explicit item = true -> filter_explicit_content user = false) /\
  (is_ok (availability item) = true <->
     earliest_live_timestamp track <= now /\
     (track_availability track = [] \/ exists a, a ∈ track_availability track /\ start a <= now) /\
     may_play user rules = true).
Proof.
  assert (Hr : track_restrictions track = rule_restriction <$> rules).
  { assert (H : mapM restriction_from (rule_message <$> rules) = Ok (rule_restriction <$> rules)); [|congruence].
    clear -Hok. induction rules as [|r rules IH]; [done|]. apply andb_true_iff in Hok as [H1 H2].
    rewrite !fmap_cons. cbn [mapM]. rewrite rule_parsed by done. cbn [mbind res_bind]. by rewrite IH. }
  unfold get_file, track_item in Hitem. rewrite Hget in Hitem. cbn [mbind res_bind] in Hitem.
  destruct (track_duration track <=? 0) eqn:Hd; [done|]. destruct (track_is_explicit track && _) eqn:He; [done|].
  destruct (text_of (to_uri (Track i))) as [t| |]; try done. injection Hitem as <-. cbn [duration_ms is_explicit availability].
  split_and!; [lia| |].
  - intros Hx. rewrite Hx in He. by destruct (filter_explicit_content user).
  - case_if; [split; [done|lia]|]. rewrite Hr. unfold available_for_user.
    rewrite <- available_spec, <- allowed_by_rules. destruct (available now (track_availability track)) as [[]|e|];
      [|naive_solver..]. cbn [mbind res_bind is_ok].
    destruct (allowed_for_user user (rule_restriction <$> rules)) as [[]|e|]; naive_solver lia.
Qed.

(** ** Examples *)

Definition ex_rules : list Rule := [mkRule ["free"] (Some (true, [])); mkRule ["premium"] None; mkRule ["premium"; "free"] (Some (true, ["NL"; "BE"]))].
Definition ex_track : TrackInfo :=
  mkTrackInfo "t" (mkAlbumInfo "a" ["x"] []) 1 1 180000 50 false (rule_restriction <$> ex_rules) {[ OGG_VORBIS_320 := replicate 20 0 ]} []
    0 [mkAvailability [] 100] [] [].
Definition ex_user (country : string) : UserData := mkUserData country ∅.
Definition ex_id : SpotifyId := mkSpotifyId 7.

Lemma track_availability_decided_witness :
  exists item, get_file (fun _ => Ok ex_track) (fun _ => Panic) 200 (ex_user "BE") (Track ex_id) = Ok item /\ is_ok (availability item) = true.
Proof.
  destruct (get_file (fun _ => Ok ex_track) (fun _ => Panic) 200 (ex_user "BE") (Track ex_id)) as [item|e|] eqn:Hi;
    [|exfalso; vm_compute in Hi; discriminate Hi..].
  exists item. split; [reflexivity|].
  apply (track_availability_decided (fun _ => Ok ex_track) (fun _ => Panic) 200 (ex_user "BE") ex_id ex_track ex_rules item
           eq_refl ltac:(vm_compute; reflexivity) ltac:(vm_compute; reflexivity) Hi).
  split; [vm_compute; discriminate|]. split; [|vm_compute; reflexivity].
  right. exists (mkAvailability [] 100). split; [by left|vm_compute; discriminate].
Defined.

Lemma odd_codes_panic_witness : parse_country_codes "NLB" = Panic.
Proof. apply (odd_codes_panic "NLB"). reflexivity. Defined.

(** Outside the listed countries the item is not available. *)
Example ex_elsewhere :
  match get_file (fun _ => Ok ex_track) (fun _ => Panic) 200 (ex_user "US") (Track ex_id) with
  | Ok item => availability item = Err NotWhitelisted
  | _ => False
  end.
Proof. vm_compute. reflexivity. Qed.
