(* ===== verification/TrackLoader.v ===== *)
(** * Loading a track ([PlayerTrackLoader] of [native/librespot/playback/src/player.rs])

    From a URI to what the player plays: the item or an available alternative, the best of its
    files for the configured bit rate, the file from the cache or the network, its key, a decoder
    and the position to start at. The cache is that of [Cache]; the network, the keys and the
    decoders are parameters. [streaming_only] is the feature of the Radio's build. *)
From S2P Require Import Prelude Text SpotifyId SpotifyUri Config Errors Auth Date Cache CacheSpec Catalogue.

Inductive Bitrate := Bitrate96 | Bitrate160 | Bitrate320.

(** [FromStr for Bitrate] *)
Definition bitrate_from_str (s : string) : option Bitrate :=
  if String.eqb s "96" then Some Bitrate96
  else if String.eqb s "160" then Some Bitrate160
  else if String.eqb s "320" then Some Bitrate320 else None.

Definition formats (b : Bitrate) : list AudioFileFormat :=
  match b with
  | Bitrate96 => [OGG_VORBIS_96; MP3_96; OGG_VORBIS_160; MP3_160; MP3_256; OGG_VORBIS_320; MP3_320]
  | Bitrate160 => [OGG_VORBIS_160; MP3_160; OGG_VORBIS_96; MP3_96; MP3_256; OGG_VORBIS_320; MP3_320]
  | Bitrate320 => [OGG_VORBIS_320; MP3_320; MP3_256; OGG_VORBIS_160; MP3_160; OGG_VORBIS_96; MP3_96]
  end.

(** [(kbps * 1024.).ceil()]: every rate is a multiple of one half, so the product is a whole number. *)
Definition stream_data_rate (f : AudioFileFormat) : Z :=
  match f with
  | OGG_VORBIS_96 => 12 * 1024 | OGG_VORBIS_160 => 20 * 1024 | OGG_VORBIS_320 => 40 * 1024
  | MP3_256 => 32 * 1024 | MP3_320 => 40 * 1024 | MP3_160 => 20 * 1024 | MP3_96 => 12 * 1024 | MP3_160_ENC => 20 * 1024
  | AAC_24 => 3 * 1024 | AAC_48 => 6 * 1024 | AAC_160 => 20 * 1024 | AAC_320 => 40 * 1024 | MP4_128 => 16 * 1024
  | OTHER5 => 40 * 1024 | FLAC_FLAC => 112 * 1024 | XHE_AAC_12 => 1536 | XHE_AAC_16 => 2 * 1024
  | XHE_AAC_24 => 3 * 1024 | FLAC_FLAC_24BIT => 3 * 1024
  end.

Fixpoint find_format (l : list AudioFileFormat) (files : AudioFiles) : option (AudioFileFormat * FileId) :=
  match l with
  | [] => None
  | f :: l => match files !! f with Some file_id => Some (f, file_id) | None => find_format l files end
  end.

Definition SPOTIFY_OGG_HEADER_END : Z := 0xa7.

Section loader.
Context {Q : Type} `{!PriorityQueue Q}.
Context {Stream Key Decoder Norm Controller : Type}.

(** An open file: a cached one with its bytes, or one that is being downloaded. *)
Inductive AudioFile := Cached (contents : list Z) | Downloading (s : Stream).

Definition is_cached (f : AudioFile) : bool := match f with Cached _ => true | Downloading _ => false end.

(** The result, [PlayerLoadedTrackData]. *)
Record LoadedTrack := mkLoadedTrack {
  lt_decoder : Decoder;
  lt_normalisation : Norm;
  lt_controller : Controller;
  lt_item : AudioItem;
  lt_bytes_per_second : Z;
  lt_duration_ms : Z;
  lt_position_ms : Z;
  lt_is_explicit : bool
}.

(** What a load makes use of: the catalogue, the answers of the alternatives in the order in which
    they arrive, downloads, controllers of files, audio keys, the normalisation data of an Ogg
    file, the reader at an offset, the two decoders (with the normalisation data the second
    finds), seeking, and the mode of a controller. *)
Record Services := mkServices {
  sv_item : SpotifyUri -> res Error AudioItem;
  sv_alternatives : list SpotifyUri -> list (res Error AudioItem);
  sv_download : FileId -> Z -> res Error Stream;
  sv_controller : AudioFile -> option Controller;
  sv_key : SpotifyId -> FileId -> option Key;
  sv_parse_from_ogg : option Key -> AudioFile -> option Norm;
  sv_subfile : option Key -> AudioFile -> Z -> bool;
  sv_passthrough : option Key -> AudioFile -> Z -> AudioFileFormat -> option Decoder;
  sv_symphonia : option Key -> AudioFile -> Z -> option string -> option (Decoder * option Norm);
  sv_seek : Z -> Decoder -> option Z * Decoder;
  sv_set_stream_mode : Controller -> Controller;
  sv_default_norm : Norm
}.

Context (fail : gmap Path (list Z) -> fs_op -> option IoErrorKind) (streaming_only passthrough : bool) (bitrate : Bitrate) (V : Services) (now : Z).

(** ** The item *)

(** The first of the alternatives, in the order of the answers, that may be played. *)
Fixpoint first_available (l : list (res Error AudioItem)) : option AudioItem :=
  match l with
  | [] => None
  | Ok item :: l => match availability item with Ok _ => Some item | _ => first_available l end
  | _ :: l => first_available l
  end.

Definition find_available_alternative (item : AudioItem) : option AudioItem :=
  match availability item with
  | Ok _ =>
      if negb (bool_decide (files item = ∅)) then Some item
      else match alternatives item with
           | Some l => first_available (sv_alternatives V l)
           | None => None
           end
  | _ => None
  end.

(** ** The file *)

(** [AudioFile::open]: without the cache in the streaming build *)
Definition audio_file_open (file_id : FileId) (bytes_per_second : Z) (w : option (world Q)) :
    res Error AudioFile * option (world Q) :=
  let download := f ← sv_download V file_id bytes_per_second; Ok (Downloading f) in
  if streaming_only then (download, w)
  else match w with
       | Some w => match file fail now file_id w with
                   | (Some contents, w) => (Ok (Cached contents), Some w)
                   | (None, w) => (download, Some w)
                   end
       | None => (download, None)
       end.

(** The decoder of a file with its normalisation data; [None] is a load that is given up. *)
Definition open_decoder (key : option Key) (f : AudioFile) (format : AudioFileFormat) : option (option (Decoder * Norm)) :=
  let '(offset, norm) :=
    if is_ogg_vorbis format
    then (SPOTIFY_OGG_HEADER_END, if streaming_only && passthrough then None else sv_parse_from_ogg V key f)
    else (0, None) in
  let with_norm norm d := (d, default (sv_default_norm V) norm) in
  if streaming_only then
    if passthrough then Some (with_norm norm <$> sv_passthrough V key f offset format) else None
  else if negb (sv_subfile V key f offset) then None
  else if passthrough then Some (with_norm norm <$> sv_passthrough V key f offset format)
  else Some (match sv_symphonia V key f offset (mime_type format) with
             | Some (d, found) => Some (with_norm (match norm with Some n => Some n | None => found end) d)
             | None => None
             end).

(** The position to start at *)
Definition start_position (position duration : Z) : Z :=
  if streaming_only then 0 else if duration <? position then 0 else position.

(** The loop: a cached file that cannot be decoded is removed, and the next round downloads it.
    [Panic] is a loop that is still going on after [fuel] rounds. *)
Fixpoint load_loop (fuel : nat) (id : SpotifyId) (item : AudioItem) (format : AudioFileFormat) (file_id : FileId)
    (position : Z) (w : option (world Q)) : res Error (option LoadedTrack) * option (world Q) :=
  match fuel with
  | O => (Panic, w)
  | S fuel =>
      let bytes_per_second := stream_data_rate format in
      match audio_file_open file_id bytes_per_second w with
      | (Ok f, w) =>
          match sv_controller V f with
          | Some controller =>
              match open_decoder (sv_key V id file_id) f format with
              | Some (Some (decoder, norm)) =>
                  let position := start_position position (duration_ms item) in
                  match sv_seek V position decoder with
                  | (Some new_position, decoder) =>
                      (Ok (Some (mkLoadedTrack decoder norm (sv_set_stream_mode V controller) item bytes_per_second
                                   (duration_ms item) new_position (is_explicit item))), w)
                  | (None, _) => (Ok None, w)
                  end
              | Some None =>
                  if is_cached f then
                    match w with
                    | Some c =>
                        match cache_remove_file fail file_id c with
                        | (Ok _, c) => load_loop fuel id item format file_id position (Some c)
                        | (_, c) => (Ok None, Some c)
                        end
                    | None => (Ok None, w)
                    end
                  else (Ok None, w)
              | None => (Ok None, w)
              end
          | None => (Ok None, w)
          end
      | (_, w) => (Ok None, w)
      end
  end.

Definition load_remote_track (fuel : nat) (track_uri : SpotifyUri) (position : Z) (w : option (world Q)) :
    res Error (option LoadedTrack) * option (world Q) :=
  match id_of_uri track_uri with
  | Ok id =>
      match sv_item V track_uri with
      | Ok audio =>
          match find_available_alternative audio with
          | Some item =>
              match find_format (formats bitrate) (files item) with
              | Some (format, file_id) => load_loop fuel id item format file_id position w
              | None => (Ok None, w)
              end
          | None => (Ok None, w)
          end
      | Err _ => (Ok None, w)
      | Panic => (Panic, w)
      end
  | _ => (Ok None, w)
  end.
(** ** Local files *)

(** What the tags of a local file say. *)
Record LocalFileMetadata := mkLocalFileMetadata {
  lf_name : option string; lf_language : option string; lf_artists : option string; lf_album : option string;
  lf_album_artists : option string; lf_number : option Z; lf_disc_number : option Z
}.

(** The lookup, [File::open] with the decoder on it (its normalisation data and tags), the size of
    the file and the controller of a local file. *)
Record LocalServices := mkLocalServices {
  lv_get : SpotifyUri -> option string;
  lv_open : string -> bool;
  lv_decoder : string -> option (Decoder * option Norm * option LocalFileMetadata);
  lv_size : string -> option Z;
  lv_controller : Z -> Controller
}.

(** [duration.as_millis() as u32] *)
Definition duration_millis (d : Duration) : Z := wrap 32 (as_secs d * 1000 + subsec_nanos d / 1000000).

(** The division by the whole seconds panics for a file shorter than one second. *)
Definition load_local_track (L : LocalServices) (track_uri : SpotifyUri) (position : Z) : res Error (option LoadedTrack) :=
  match track_uri with
  | Local _ _ _ duration =>
      match lv_get L track_uri with
      | Some path =>
          if negb (lv_open L path) then Ok None
          else match lv_decoder L path with
               | Some (decoder, norm, tags) =>
                   let tags := default (mkLocalFileMetadata None None None None None None None) tags in
                   match sv_seek V position decoder with
                   | (Some stream_position, decoder) =>
                       match lv_size L path with
                       | Some file_size =>
                           if as_secs duration =? 0 then Panic
                           else
                             uri ← text_of (to_uri track_uri);
                             Ok (Some (mkLoadedTrack decoder (default (sv_default_norm V) norm) (lv_controller L file_size)
                               (mkAudioItem track_uri uri ∅ (default "" (lf_name tags)) []
                                  (match lf_language tags with Some l => [l] | None => [] end) (duration_millis duration) false (Ok tt) None
                                  (ULocal (lf_artists tags) (lf_album tags) (lf_album_artists tags) (lf_number tags) (lf_disc_number tags) path))
                               (wrap usize_bits (file_size / as_secs duration)) (duration_millis duration) stream_position false))
                       | None => Ok None
                       end
                   | (None, _) => Ok None
                   end
               | None => Ok None
               end
      | None => Ok None
      end
  | _ => Ok None
  end.

Definition load_track (L : LocalServices) (fuel : nat) (track_uri : SpotifyUri) (position : Z) (w : option (world Q)) :
    res Error (option LoadedTrack) * option (world Q) :=
  match track_uri with
  | Track _ | Episode _ => load_remote_track fuel track_uri position w
  | Local _ _ _ _ => (load_local_track L track_uri position, w)
  | _ => (Ok None, w)
  end.
End loader.

(** ** Lemmas *)

Lemma find_format_spec l files f i :
  find_format l files = Some (f, i) <->
  exists before after, l = before ++ f :: after /\ files !! f = Some i /\ Forall (fun g => files !! g = None) before.
Proof.
  induction l as [|g l IH]; cbn [find_format].
  - split; [done|]. intros (before & after & H & _). by destruct before.
  - destruct (files !! g) as [j|] eqn:Hg.
    + split; [intros [= <- <-]; by exists [], l|]. intros (before & after & Hl & Hf & Hb).
      destruct before as [|h before]; simplify_eq/=; [congruence|]. apply Forall_cons in Hb as [Hh _]. congruence.
    + rewrite IH. split; intros (before & after & Hl & Hf & Hb).
      * exists (g :: before), after. by rewrite Hl, Forall_cons.
      * destruct before as [|h before]; simplify_eq/=; try congruence. apply Forall_cons in Hb as [_ Hb]. by exists before, after.
Qed.

Ltac ends_here := left; eexists; split; [|intros k; reflexivity]; done.

Section proofs.
Context {Q : Type} `{!PriorityQueue Q}.
Context {Stream Key Decoder Norm Controller : Type}.
Context (fail : gmap Path (list Z) -> fs_op -> option IoErrorKind) (streaming_only passthrough : bool) (bitrate : Bitrate).
Context (V : Services (Stream := Stream) (Key := Key) (Decoder := Decoder) (Norm := Norm) (Controller := Controller)) (now : Z).
#[local] Abbreviation loop := (load_loop (Q := Q) fail streaming_only passthrough V now).
#[local] Abbreviation remote := (load_remote_track (Q := Q) fail streaming_only passthrough bitrate V now).

(** A file that was removed is not found again. *)
Lemma removed_not_cached i (c c' : world Q) u : cache_remove_file fail i c = (Ok u, c') -> file fail now i c' = (None, c').
Proof.
  unfold cache_remove_file, file. destruct (file_path i (cache c)) as [p|] eqn:Hp; [|done].
  unfold remove_file. destruct (permitted fail (Cache.files c) (RemoveFile p)); [|done..].
  destruct (Cache.files c !! p); [|done]. intros [= _ <-]. cbn [cache Cache.files].
  replace (file_path i _) with (Some p) by (by destruct (size_limiter (cache c))).
  unfold file_open. rewrite lookup_delete_eq. by destruct (permitted _ _ _).
Qed.

(** Where the cache does not have the file, it plays no part. *)
Lemma load_loop_uncached k id item format i position (w : option (world Q)) :
  (forall c, w = Some c -> file fail now i c = (None, c)) ->
  loop (S k) id item format i position w = ((loop 1 id item format i position None).1, w).
Proof.
  intros Hw. cbn [load_loop]. unfold audio_file_open.
  destruct w as [c|]; [rewrite (Hw c eq_refl)|]; destruct streaming_only;
    (destruct (sv_download V i (stream_data_rate format)) as [f| |]; [|done..]); cbn [mbind res_bind is_cached];
    (destruct (sv_controller V (Downloading f)); [|done]);
    (destruct (open_decoder _ _ _ _ _ _) as [[[d n]|]|]; [|done..]);
    by destruct (sv_seek V _ _) as [[]].
Qed.

Lemma download_returns id item format i position : (loop 1 id item format i position None).1 <> Panic.
Proof.
  cbn [load_loop]. unfold audio_file_open.
  destruct streaming_only; (destruct (sv_download V i (stream_data_rate format)) as [f| |]; [|done..]); cbn [mbind res_bind is_cached];
    (destruct (sv_controller V (Downloading f)); [|done]);
    (destruct (open_decoder _ _ _ _ _ _) as [[[d n]|]|]; [|done..]);
    by destruct (sv_seek V _ _) as [[]].
Qed.

(** A round ends the loop, or has removed the file from the cache. *)
Lemma round_cases id item format i position (w : option (world Q)) :
  (exists r, r.1 <> Panic /\ forall k, loop (S k) id item format i position w = r) \/
  (exists c c' u, cache_remove_file fail i c = (Ok u, c') /\
     forall k, loop (S k) id item format i position w = loop k id item format i position (Some c')).
Proof.
  cbn [load_loop]. destruct (audio_file_open _ _ _ _ _ _ _) as [[f| |] w']; [|ends_here..].
  destruct (sv_controller V f) as [ctl|]; [|ends_here].
  destruct (open_decoder _ _ _ _ _ _) as [[[d n]|]|];
    [destruct (sv_seek V _ _) as [[]]; ends_here| |ends_here].
  destruct (is_cached f); [|ends_here]. destruct w' as [c|]; [|ends_here].
  destruct (cache_remove_file fail i c) as [[u| |] c'] eqn:Hr; [|ends_here..].
  right. by exists c, c', u.
Qed.

Lemma load_after_removal k id item format i position (c c' : world Q) u :
  cache_remove_file fail i c = (Ok u, c') ->
  loop (S k) id item format i position (Some c') = ((loop 1 id item format i position None).1, Some c').
Proof. intros Hr. apply load_loop_uncached. intros ? [= <-]. by eapply removed_not_cached. Qed.

(** Two rounds are enough. *)
Lemma load_loop_ends k id item format i position (w : option (world Q)) :
  loop (S (S k)) id item format i position w = loop 2 id item format i position w /\
  (loop 2 id item format i position w).1 <> Panic.
Proof.
  destruct (round_cases id item format i position w) as [(r & Hr & H)|(c & c' & u & Hr & H)]; rewrite !H; [done|].
  rewrite (load_after_removal k _ _ _ _ _ c c' u Hr), (load_after_removal 0 _ _ _ _ _ c c' u Hr). split; [done|]. apply download_returns.
Qed.

(** What was loaded: a file from the cache or the network, its decoder, and where it starts. *)
Definition loaded_from (id : SpotifyId) (i : FileId) (f : AudioFileFormat) (position : Z) (w : option (world Q))
    (t : LoadedTrack (Decoder := Decoder) (Norm := Norm) (Controller := Controller)) : Prop :=
  exists audio decoder,
    (match audio with
     | Downloading s => sv_download V i (stream_data_rate f) = Ok s
     | Cached bytes => streaming_only = false /\ exists c, w = Some c /\ (file fail now i c).1 = Some bytes
     end) /\
    open_decoder streaming_only passthrough V (sv_key V id i) audio f = Some (Some (decoder, lt_normalisation t)) /\
    sv_seek V (start_position streaming_only position (duration_ms (lt_item t))) decoder = (Some (lt_position_ms t), lt_decoder t) /\
    lt_bytes_per_second t = stream_data_rate f /\ lt_duration_ms t = duration_ms (lt_item t) /\ lt_is_explicit t = is_explicit (lt_item t).

Lemma audio_file_open_spec i rate (w w' : option (world Q)) audio :
  audio_file_open fail streaming_only V now i rate w = (Ok audio, w') ->
  match audio with
  | Downloading s => sv_download V i rate = Ok s
  | Cached bytes => streaming_only = false /\ exists c, w = Some c /\ (file fail now i c).1 = Some bytes
  end.
Proof.
  assert (Hd : forall x : option (world Q), (f ← sv_download V i rate; Ok (Downloading f), x) = (Ok audio, w') ->
            match audio with Downloading s => sv_download V i rate = Ok s | Cached _ => False end).
  { intros x. destruct (sv_download V i rate) as [s| |]; cbn [mbind res_bind]; [|done..]. by intros [= <- _]. }
  unfold audio_file_open. destruct streaming_only; [intros H; specialize (Hd w H); by destruct audio|].
  destruct w as [c|]; [|intros H; specialize (Hd None H); by destruct audio].
  destruct (file fail now i c) as [[bytes|] c2] eqn:Hf; [|intros H; specialize (Hd _ H); by destruct audio].
  intros [= <- _]. split; [done|]. exists c. by rewrite Hf.
Qed.

(** The round that ends the loop with a track *)
Lemma round_sound id item f i position (w : option (world Q)) t :
  (loop 1 id item f i position w).1 = Ok (Some t) -> lt_item t = item /\ loaded_from id i f position w t.
Proof.
  cbn [load_loop]. destruct (audio_file_open _ _ _ _ _ _ _) as [[a| |] w'] eqn:Ho; [|done..]. apply audio_file_open_spec in Ho.
  destruct (sv_controller V a) as [ctl|]; [|done].
  destruct (open_decoder _ _ _ _ _ _) as [[[d n]|]|] eqn:Hd; [| |done].
  - destruct (sv_seek V _ _) as [[p|] d'] eqn:Hs; [|done]. intros [= <-]. split; [done|]. by exists a, d.
  - destruct (is_cached a); [|done]. destruct w' as [c'|]; [|done]. by destruct (cache_remove_file fail i c') as [[u| |] c2].
Qed.

Lemma load_loop_sound id item f i position (w : option (world Q)) t :
  (loop 2 id item f i position w).1 = Ok (Some t) -> lt_item t = item /\ loaded_from id i f position w t.
Proof.
  destruct (round_cases id item f i position w) as [(r & Hr & H)|(c & c' & u & Hr & H)].
  - intros Ht. apply round_sound. by rewrite H in Ht |- *.
  - rewrite H, (load_after_removal 0 _ _ _ _ _ c c' u Hr). cbn [fst]. intros Hn.
    apply round_sound in Hn as [Hi (audio & d & Ha & Hrest)]. split; [done|]. exists audio, d. split; [|done].
    destruct audio; [by destruct Ha as (_ & c0 & [=] & _)|done].
Qed.

Lemma available_item item item' :
  find_available_alternative V item = Some item' ->
  is_ok (availability item') = true /\
  (item' = item \/ files item = ∅ /\ exists l, alternatives item = Some l /\ Ok item' ∈ sv_alternatives V l).
Proof.
  unfold find_available_alternative. destruct (availability item) as [[]| |] eqn:Ha; [|done..].
  destruct (bool_decide_reflect (files item = ∅)) as [He|He]; cbn [negb]; [|intros [= <-]; rewrite Ha; split; [done|by left]].
  destruct (alternatives item) as [l|]; [|done]. intros H.
  assert (Hl : forall l', first_available l' = Some item' -> is_ok (availability item') = true /\ Ok item' ∈ l').
  { induction l' as [|[it| |] l' IH]; cbn [first_available]; intros Hf; [done| |by split; [|right]; apply IH..].
    destruct (availability it) as [[]| |] eqn:Hav; [injection Hf as <-; rewrite Hav; split; [done|by left]|by split; [|right]; apply IH..]. }
  destruct (Hl _ H) as [Hok Hin]. split; [done|]. right. split; [done|]. by exists l.
Qed.
End proofs.

(** ** Theorems *)

(** C28: Loading a remote track ends after at most two rounds, whatever is in the cache. A track that
    was loaded is available, is the item itself or, when the item has no files, one of its
    alternatives; the file is in the first format of the configured order that the item has; it was
    read from the cache or downloaded, decoded, and its decoder was sent to the start position: the
    beginning in the streaming build (the one that is shipped, whatever position was requested) and
    when the requested position is past the end, otherwise the requested position. *)
Theorem load_remote_correct {Q : Type} `{!PriorityQueue Q} {Stream Key Decoder Norm Controller : Type}
    (fail : gmap Path (list Z) -> fs_op -> option IoErrorKind) (streaming_only passthrough : bool) (bitrate : Bitrate)
    (V : Services (Stream := Stream) (Key := Key) (Decoder := Decoder) (Norm := Norm) (Controller := Controller)) (now : Z)
    (fuel : nat) (uri : SpotifyUri) (position : Z) (w : option (world Q))
    (Hfuel : (2 <= fuel)%nat) (Hitem : sv_item V uri <> Panic) :
  let '(r, w') := load_remote_track fail streaming_only passthrough bitrate V now fuel uri position w in
  r <> Panic /\
  (forall k, (2 <= k)%nat -> load_remote_track fail streaming_only passthrough bitrate V now k uri position w = (r, w')) /\
  (forall t, r = Ok (Some t) ->
     exists id item f i before after,
       id_of_uri uri = Ok id /\ sv_item V uri = Ok item /\
       is_ok (availability (lt_item t)) = true /\
       (lt_item t = item \/ files item = ∅ /\ exists l, alternatives item = Some l /\ Ok (lt_item t) ∈ sv_alternatives V l) /\
       formats bitrate = before ++ f :: after /\ files (lt_item t) !! f = Some i /\
       Forall (fun g => files (lt_item t) !! g = None) before /\
       loaded_from fail streaming_only passthrough V now id i f position w t).
Proof.
  destruct fuel as [|[|fuel]]; [lia|lia|]. destruct (load_remote_track _ _ _ _ _ _ _ _ _ _) as [r w'] eqn:Hr. revert Hr.
  unfold load_remote_track. destruct (id_of_uri uri) as [id| |]; [|intros [= <- <-]; naive_solver..].
  destruct (sv_item V uri) as [item| |]; [|intros [= <- <-]; naive_solver|done].
  destruct (find_available_alternative V item) as [item'|] eqn:Ha; [|intros [= <- <-]; naive_solver].
  destruct (find_format (formats bitrate) (files item')) as [[f i]|] eqn:Hf; [|intros [= <- <-]; naive_solver].
  destruct (load_loop_ends fail streaming_only passthrough V now fuel id item' f i position w) as [He Hp]. rewrite He. intros Hr.
  rewrite Hr in Hp. split_and!; [done| |].
  - intros [|[|k]] Hk; [lia|lia|]. by rewrite (proj1 (load_loop_ends fail streaming_only passthrough V now k id item' f i position w)).
  - intros t ->. assert (Ht : (load_loop fail streaming_only passthrough V now 2 id item' f i position w).1 = Ok (Some t)) by (by rewrite Hr).
    apply load_loop_sound in Ht as [<- Hl]. apply find_format_spec in Hf as (before & after & Hl1 & Hl2 & Hl3).
    apply available_item in Ha as [Hok Hor]. by exists id, item, f, i, before, after.
Qed.

(** C29: A broken file in the cache does no harm: when a cached file cannot be decoded and can be
    removed, the load ends as it would without a cache, with the file gone from the cache. *)
Theorem broken_cache_entry_harmless {Q : Type} `{!PriorityQueue Q} {Stream Key Decoder Norm Controller : Type}
    (fail : gmap Path (list Z) -> fs_op -> option IoErrorKind) (passthrough : bool)
    (V : Services (Stream := Stream) (Key := Key) (Decoder := Decoder) (Norm := Norm) (Controller := Controller)) (now : Z)
    (fuel : nat) (id : SpotifyId) (item : AudioItem) (f : AudioFileFormat) (i : FileId) (position : Z) (c c1 c2 : world Q) (bytes : list Z)
    (Hcached : file fail now i c = (Some bytes, c1)) (Hctl : is_Some (sv_controller V (Cached bytes)))
    (Hbroken : open_decoder false passthrough V (sv_key V id i) (Cached bytes) f = Some None)
    (Hremoved : cache_remove_file fail i c1 = (Ok tt, c2)) (Hfuel : (2 <= fuel)%nat) :
  load_loop fail false passthrough V now fuel id item f i position (Some c)
  = ((load_loop fail false passthrough V now fuel id item f i position None).1, Some c2) /\
  (file fail now i c2).1 = None.
Proof.
  destruct fuel as [|[|k]]; [lia|lia|]. split; [|by rewrite (removed_not_cached fail now i c1 c2 tt Hremoved)].
  rewrite (load_loop_uncached fail false passthrough V now (S k) id item f i position None) by done. cbn [fst].
  rewrite <- (load_after_removal fail false passthrough V now k id item f i position c1 c2 tt Hremoved).
  generalize (S k). intros m. cbn [load_loop]. unfold audio_file_open. rewrite Hcached. destruct Hctl as [ctl ->]. rewrite Hbroken. cbn [is_cached].
  by rewrite Hremoved.
Qed.

(** A local file shorter than a second ends the program: its size is divided by whole seconds. *)
Theorem short_local_file_panics {Stream Key Decoder Norm Controller : Type}
    (V : Services (Stream := Stream) (Key := Key) (Decoder := Decoder) (Norm := Norm) (Controller := Controller))
    (L : LocalServices (Decoder := Decoder) (Norm := Norm) (Controller := Controller))
    (artist album title path : string) (d : Duration) (position size : Z) (x : Decoder * option Norm * option LocalFileMetadata)
    (Hd : as_secs d = 0) (Hget : lv_get L (Local artist album title d) = Some path) (Hopen : lv_open L path = true)
    (Hdec : lv_decoder L path = Some x) (Hseek : is_Some (sv_seek V position x.1.1).1) (Hsize : lv_size L path = Some size) :
  load_local_track V L (Local artist album title d) position = Panic.
Proof.
  unfold load_local_track. rewrite Hget, Hopen, Hdec. cbn [negb]. destruct x as [[dec norm] tags]. cbn [fst] in Hseek.
  destruct (sv_seek V position dec) as [[p|] dec']; [|by destruct Hseek]. by rewrite Hsize, Hd.
Qed.

(** ** Examples *)

(** Decoders that know a file by its first byte: 1 is audio, anything else is broken. *)
Definition ex_decoder (f : AudioFile (Stream := list Z)) : option (list Z) :=
  match f with Cached (1 :: l) | Downloading (1 :: l) => Some l | _ => None end.
Definition ex_item : AudioItem :=
  mkAudioItem (Track ex_id) "spotify:track:x" {[ MP3_320 := replicate 20 1; OGG_VORBIS_160 := ex_file ]} "t" [] [] 180000 false (Ok tt) None
    (UEpisode "" 0 "").
Definition ex_services : Services (Stream := list Z) (Key := unit) (Decoder := list Z) (Norm := unit) (Controller := unit) :=
  mkServices (fun _ => Ok ex_item) (fun _ => []) (fun _ _ => Ok [1; 5; 6]) (fun _ => Some tt) (fun _ _ => Some tt) (fun _ _ => None)
    (fun _ _ _ => true) (fun _ f _ _ => ex_decoder f) (fun _ f _ _ => (fun d => (d, None)) <$> ex_decoder f)
    (fun p d => (Some p, d)) (fun c => c) tt.
(** The cache with a broken copy of the file. *)
Definition ex_broken : world (gmap Path Z) := (save_file allow 30 ex_file (mkSource [9; 9] None) ex_cache).2.

Lemma load_remote_correct_witness :
  exists t, (load_remote_track allow false false Bitrate160 ex_services 50 2 (Track ex_id) 60000 (Some ex_broken)).1 = Ok (Some t) /\
    lt_item t = ex_item /\ lt_decoder t = [5; 6] /\ lt_position_ms t = 60000.
Proof.
  pose proof (load_remote_correct allow false false Bitrate160 ex_services 50 2 (Track ex_id) 60000 (Some ex_broken)
                (le_n 2) ltac:(discriminate)) as H.
  destruct (load_remote_track allow false false Bitrate160 ex_services 50 2 (Track ex_id) 60000 (Some ex_broken)) as [r w'] eqn:Hr.
  assert (Ht : r = Ok (Some (mkLoadedTrack [5; 6] tt tt ex_item 20480 180000 60000 false))).
  { transitivity (load_remote_track allow false false Bitrate160 ex_services 50 2 (Track ex_id) 60000 (Some ex_broken)).1; [by rewrite Hr|].
    vm_compute. reflexivity. }
  eexists. split; [exact Ht|]. destruct H as (_ & _ & H). destruct (H _ Ht) as (? & item & ? & ? & ? & ? & _ & Hi & _).
  injection Hi as <-. split_and!; reflexivity.
Defined.

Lemma broken_cache_entry_harmless_witness :
  exists c2, load_loop allow false false ex_services 50 2 ex_id ex_item OGG_VORBIS_160 ex_file 0 (Some ex_broken)
    = ((load_loop allow false false ex_services 50 2 ex_id ex_item OGG_VORBIS_160 ex_file 0 None).1, Some c2).
Proof.
  exists (cache_remove_file allow ex_file (file allow 50 ex_file ex_broken).2).2.
  apply (broken_cache_entry_harmless allow false ex_services 50 2 ex_id ex_item OGG_VORBIS_160 ex_file 0 ex_broken
           (file allow 50 ex_file ex_broken).2 (cache_remove_file allow ex_file (file allow 50 ex_file ex_broken).2).2 [9; 9]);
    [vm_compute; reflexivity|by eexists|vm_compute; reflexivity|vm_compute; reflexivity|lia].
Defined.

Lemma short_local_file_panics_witness :
  load_local_track ex_services (mkLocalServices (fun _ => Some "x.mp3") (fun _ => true) (fun _ => Some ([], None, None)) (fun _ => Some 100) (fun _ => tt))
    (Local "" "" "x" (mkDuration 0 500000000)) 0 = Panic.
Proof.
  apply (short_local_file_panics ex_services _ "" "" "x" "x.mp3" (mkDuration 0 500000000) 0 100 ([], None, None)); try reflexivity. by eexists.
Defined.
