(* ===== verification/Connect.v ===== *)
(** * Connecting a session ([native/librespot/core/src/connection/mod.rs], [session.rs])

    Dialling an access point, logging in and the loop over access points of [Session::connect]. The
    network is an oracle: [dial] is the outcome of the [n]-th connection attempt (socket and
    handshake), [exchange] that of sending the login packet and waiting for the answer. Protocol
    messages are parameters. The session's cache is the one of [Cache]. *)
From S2P Require Import Prelude Text Packet Config Errors Auth ApResolve Cache CacheSpec Effect.

(** ** One connection *)

(** [connect]: the socket is opened in the argument of [timeout], so only the handshake is bounded.
    Durations are in nanoseconds; the second component of a result is how long it took. *)
Definition CONNECT_TIMEOUT : Z := 5 * 1000000000.

Definition timed_connect {A} (socket : res IoErrorKind unit * Z) (handshake : res IoErrorKind A * Z) : res IoErrorKind A * Z :=
  match socket with
  | (Ok _, t1) =>
      if CONNECT_TIMEOUT <? handshake.2 then (Err IoTimedOut, t1 + CONNECT_TIMEOUT) else (handshake.1, t1 + handshake.2)
  | (Err e, t1) => (Err e, t1)
  | (Panic, t1) => (Panic, t1)
  end.

(** ** The login packet *)

Inductive CpuFamily :=
| CPU_UNKNOWN | CPU_X86 | CPU_X86_64 | CPU_PPC | CPU_PPC_64 | CPU_ARM | CPU_IA64 | CPU_SH | CPU_MIPS | CPU_BLACKFIN.
Inductive Os := OS_UNKNOWN | OS_WINDOWS | OS_OSX | OS_IPHONE | OS_LINUX | OS_ANDROID | OS_FREEBSD.

Definition cpu_family (arch : string) : CpuFamily :=
  if String.eqb arch "blackfin" then CPU_BLACKFIN
  else if String.eqb arch "arm" || String.eqb arch "aarch64" then CPU_ARM
  else if String.eqb arch "ia64" then CPU_IA64
  else if String.eqb arch "mips" then CPU_MIPS
  else if String.eqb arch "ppc" then CPU_PPC
  else if String.eqb arch "ppc64" then CPU_PPC_64
  else if String.eqb arch "sh" then CPU_SH
  else if String.eqb arch "x86" then CPU_X86
  else if String.eqb arch "x86_64" then CPU_X86_64
  else CPU_UNKNOWN.

Definition os_of (os : string) : Os :=
  if String.eqb os "android" then OS_ANDROID
  else if String.eqb os "freebsd" || String.eqb os "netbsd" || String.eqb os "openbsd" then OS_FREEBSD
  else if String.eqb os "ios" then OS_IPHONE
  else if String.eqb os "linux" then OS_LINUX
  else if String.eqb os "macos" then OS_OSX
  else if String.eqb os "windows" then OS_WINDOWS
  else OS_UNKNOWN.

(** [ClientResponseEncrypted]; [sha], [build] and [semver] are build constants. *)
Record LoginPacket := mkLoginPacket {
  lp_username : option string; lp_typ : AuthenticationType; lp_auth_data : list Z;
  lp_cpu_family : CpuFamily; lp_os : Os; lp_system_information : string; lp_device_id : string; lp_version : string
}.

(** ** The session *)

Section connect.
Context {T : Type} {Q : Type} `{PriorityQueue Q}.
Context (dial : nat -> SocketAddress -> res IoErrorKind T).
Context (exchange : nat -> T -> Z * list Z -> res IoErrorKind (option (res IoErrorKind (Z * list Z)))).
Context (encode_login : LoginPacket -> option (list Z)) (parse_welcome : list Z -> option Credentials)
        (parse_failed : list Z -> option ErrorCode).
Context (os arch sha build semver : string).
Context (fail : gmap Path (list Z) -> fs_op -> option IoErrorKind)
        (from_json : list Z -> option Credentials) (to_json : Credentials -> list Z).
Context (fetch : nat -> res Error ApResolveData).

(** What connecting reads and changes; [dialed] lists the attempts. *)
Record Session := mkSession {
  config : SessionConfig;
  aps : AccessPoints;
  canonical_username : string;
  session_auth_data : list Z;
  session_cache : option (world Q);
  tx_connection : bool;
  dialed : list SocketAddress
}.

Definition set_aps (a : AccessPoints) (s : Session) : Session :=
  mkSession (config s) a (canonical_username s) (session_auth_data s) (session_cache s) (tx_connection s) (dialed s).
Definition add_dialed (ap : SocketAddress) (s : Session) : Session :=
  mkSession (config s) (aps s) (canonical_username s) (session_auth_data s) (session_cache s) (tx_connection s) (dialed s ++ [ap]).
Definition set_user (name : string) (data : list Z) (s : Session) : Session :=
  mkSession (config s) (aps s) name data (session_cache s) (tx_connection s) (dialed s).
Definition set_cache (w : world Q) (s : Session) : Session :=
  mkSession (config s) (aps s) (canonical_username s) (session_auth_data s) (Some w) (tx_connection s) (dialed s).
Definition set_connected (s : Session) : Session :=
  mkSession (config s) (aps s) (canonical_username s) (session_auth_data s) (session_cache s) true (dialed s).

Abbreviation M := (eff Session Error).

Definition dial_ap (ap : SocketAddress) : eff Session IoErrorKind T := fun s =>
  (dial (length (dialed s)) ap, add_dialed ap s).

(** [max_retries - num_retries] retries are left. *)
Fixpoint connect_with_retry (ap : SocketAddress) (retries : nat) : M T := fun s =>
  match dial_ap ap s with
  | (Ok t, s) => (Ok t, s)
  | (Err e, s) =>
      match retries with
      | O => (Err (into_error e), s)
      | S retries => connect_with_retry ap retries s
      end
  | (Panic, s) => (Panic, s)
  end.

Definition login_packet (c : Credentials) (device_id : string) : LoginPacket :=
  mkLoginPacket (username c) (auth_type c) (auth_data c) (cpu_family arch) (os_of os)
    ("librespot-" +:+ sha +:+ "-" +:+ build) device_id ("librespot " +:+ semver).

Definition authenticate (n : nat) (transport : T) (c : Credentials) (device_id : string) : res Error Credentials :=
  data ← raise (ok_or ProtobufError (encode_login (login_packet c device_id)));
  next ← raise (exchange n transport (to_u8 Login, data));
  answer ← raise (ok_or NoTransport next);
  '(cmd, data) ← raise answer;
  match from_u8 cmd with
  | Some APWelcome => raise (ok_or ProtobufError (parse_welcome data))
  | Some AuthFailure =>
      code ← raise (ok_or ProtobufError (parse_failed data));
      Err (into_error (LoginFailed code))
  | _ => Err (into_error (BadPacket cmd))
  end.

Definition MAX_RETRIES : nat := 1.

(** [connect_with_retry] and [authenticate] on the new transport *)
Definition dial_and_login (ap : SocketAddress) (c : Credentials) : M (Credentials * T) :=
  transport ← connect_with_retry ap MAX_RETRIES;
  n ← gets (fun s => length (dialed s));
  device_id ← gets (fun s => Config.device_id (config s));
  reusable ← of_res (authenticate n transport c device_id);
  mret (reusable, transport).

Definition connect_inner (ap : SocketAddress) (c : Credentials) : M (Credentials * T) :=
  '(reusable, transport) ← dial_and_login ap c;
  if bool_decide (auth_type c = AUTHENTICATION_SPOTIFY_TOKEN) then dial_and_login ap reusable
  else mret (reusable, transport).

Definition resolve_ap : M SocketAddress := fun s =>
  let '(r, a) := resolve (config s) (fetch (length (dialed s))) "accesspoint" (aps s) in (r, set_aps a s).

Definition MAX_AP_TRIES : nat := 6.

(** [tries] access points are left; each round uses one up. *)
Fixpoint connect_loop (tries : nat) (c : Credentials) : M (Credentials * T) :=
  match tries with
  | O => stop
  | S tries =>
      ap ← resolve_ap;
      r ← catch (connect_inner ap c);
      match r with
      | Ok ct => mret ct
      | Err e =>
          if (tries =? 0)%nat then throw e
          else match downcast_authentication (error e) with
               | Some (LoginFailed TryAnotherAP) => connect_loop tries c
               | Some (LoginFailed _) => throw e
               | _ => connect_loop tries c
               end
      | Panic => stop
      end
  end.

(** The credentials are written when they differ from the stored ones. *)
Definition store (c : Credentials) (store_credentials : bool) (s : Session) : Session :=
  match session_cache s with
  | Some w =>
      if store_credentials && negb (bool_decide (credentials fail from_json w = Some c))
      then set_cache (save_credentials fail to_json c w) s
      else s
  | None => s
  end.

(** [Session::connect] up to the tasks it spawns; [tx_connection] can be set once. *)
Definition connect (c : Credentials) (store_credentials : bool) : M unit :=
  '(reusable, transport) ← connect_loop MAX_AP_TRIES c;
  _ ← modify (set_user (default "UNKNOWN" (username reusable)) (auth_data reusable));
  _ ← modify (store reusable store_credentials);
  set ← gets tx_connection;
  _ ← (if (set : bool) then throw (into_error NotConnected) else mret tt);
  modify set_connected.

(** ** Lemmas *)

Lemma resolve_no_panic cfg f endpoint a : (resolve cfg f endpoint a).1 <> Panic.
Proof.
  unfold resolve. destruct (pop_front endpoint _) as [[[x|] a']|]; done.
Qed.

(** [m] dials at most [n] times, all of them to [P], and touches nothing but the list of attempts. *)
Definition dials (n : nat) (P : SocketAddress -> Prop) (s s' : Session) : Prop :=
  exists l, dialed s' = dialed s ++ l /\ (length l <= n)%nat /\ Forall P l /\
    config s' = config s /\ canonical_username s' = canonical_username s /\ session_auth_data s' = session_auth_data s /\
    session_cache s' = session_cache s /\ tx_connection s' = tx_connection s.

Lemma dials_refl n P s : dials n P s s.
Proof. exists []. rewrite app_nil_r. split_and!; try done. simpl. lia. Qed.

Lemma dials_trans n1 n2 P s1 s2 s3 : dials n1 P s1 s2 -> dials n2 P s2 s3 -> dials (n1 + n2) P s1 s3.
Proof.
  intros (l1 & D1 & L1 & F1 & H1 & H2 & H3 & H4 & H5) (l2 & D2 & L2 & F2 & K1 & K2 & K3 & K4 & K5).
  exists (l1 ++ l2). rewrite D2, D1, app_assoc, length_app, Forall_app. split_and!; try done; try congruence. lia.
Qed.

Lemma dials_weaken n n' (P P' : SocketAddress -> Prop) s s' :
  (n <= n')%nat -> (forall a, P a -> P' a) -> dials n P s s' -> dials n' P' s s'.
Proof.
  intros Hn HP (l & D & L & F & H'). exists l. split_and!; try tauto; [lia|]. by eapply Forall_impl.
Qed.

Lemma connect_with_retry_dials ap retries s :
  (forall n a, dial n a <> Panic) ->
  wp False (connect_with_retry ap retries) (fun _ s' => dials (S retries) (eq ap) s s' /\ aps s' = aps s) s.
Proof.
  intros Hd. revert s. induction retries as [|retries IH]; intros s; unfold wp; cbn [connect_with_retry]; unfold dial_ap;
    specialize (Hd (length (dialed s)) ap); destruct (dial (length (dialed s)) ap) as [t|e|]; try done.
  1, 2, 3: split; [|done]; exists [ap]; split_and!; try done; first [simpl; lia|by repeat constructor].
  specialize (IH (add_dialed ap s)). unfold wp in IH. destruct (connect_with_retry ap retries (add_dialed ap s)) as [[t|e'|] s']; try done;
    (destruct IH as [IH Ha]; split; [|done]; change (S (S retries)) with (1 + S retries)%nat; eapply dials_trans; [|exact IH];
     exists [ap]; split_and!; try done; by repeat constructor).
Qed.

Context (Hdial : forall n a, dial n a <> Panic) (Hexchange : forall n t d, exchange n t d <> Panic)
        (Hanswer : forall n t d, exchange n t d <> Ok (Some Panic)).

Lemma authenticate_returns n t c d : authenticate n t c d <> Panic.
Proof.
  unfold authenticate. destruct (encode_login _) as [data|]; [|done]. simpl.
  pose proof (Hexchange n t (171, data)). pose proof (Hanswer n t (171, data)).
  destruct (exchange n t (171, data)) as [[[[cmd d2]|e|]|]|e|]; try done. simpl.
  destruct (from_u8 cmd) as [[]|]; try done; simpl; [by destruct (parse_welcome d2)|by destruct (parse_failed d2)].
Qed.

Lemma dial_and_login_dials ap c s :
  wp False (dial_and_login ap c) (fun _ s' => dials 2 (eq ap) s s' /\ aps s' = aps s) s.
Proof.
  unfold dial_and_login. wp_step. wp_use (connect_with_retry_dials ap MAX_RETRIES s Hdial).
  intros [t|e|] s' Hp [Hs Ha]; [|done|done]. wp_run. apply wp_of_res; [apply authenticate_returns|].
  pose proof (authenticate_returns (length (dialed s')) t c (Config.device_id (config s'))) as Hr.
  destruct (authenticate _ _ _ _); done.
Qed.

Lemma connect_inner_dials ap c s :
  wp False (connect_inner ap c) (fun _ s' => dials 4 (eq ap) s s' /\ aps s' = aps s) s.
Proof.
  unfold connect_inner. wp_step. wp_use dial_and_login_dials. intros [[r t]|e|] s' Hp [Hs Ha]; [| |done].
  - case_bool_decide.
    + wp_use dial_and_login_dials. intros r' s'' _ [Hs' Ha']. split; [|congruence].
      change 4%nat with (2 + 2)%nat. by eapply dials_trans.
    + wp_run. split; [|done]. by eapply (dials_weaken 2); [lia| |].
  - split; [|done]. by eapply (dials_weaken 2); [lia| |].
Qed.

Definition granted (c : Credentials) : Prop := exists n t c0 d, authenticate n t c0 d = Ok c.

Lemma dial_and_login_grants ap c s r t s' : dial_and_login ap c s = (Ok (r, t), s') -> granted r.
Proof.
  unfold dial_and_login, mbind, eff_bind. destruct (connect_with_retry ap MAX_RETRIES s) as [[t'|e|] s1]; [|done..].
  unfold gets, of_res. destruct (authenticate (length (dialed s1)) t' c (Config.device_id (config s1))) as [r'|e|] eqn:Ha; [|done..].
  intros [= <- _ _]. unfold granted. eauto.
Qed.

Lemma connect_inner_grants ap c s r t s' : connect_inner ap c s = (Ok (r, t), s') -> granted r.
Proof.
  unfold connect_inner, mbind, eff_bind. destruct (dial_and_login ap c s) as [[[r1 t1]|e|] s1] eqn:Hd; [|done..].
  case_bool_decide; [by apply dial_and_login_grants|]. intros [= <- _ _]. by eapply dial_and_login_grants.
Qed.

(** Every round uses up one access point and at most four attempts on it. *)
Lemma connect_loop_spec tries c s :
  (0 < tries)%nat ->
  wp False (connect_loop tries c)
     (fun r s' => dials (4 * tries) (fun _ => True) s s' /\ (forall ct, r = Ok ct -> granted ct.1)) s.
Proof.
  revert s. induction tries as [|tries IH]; intros s Ht; [lia|]. cbn [connect_loop].
  wp_step. unfold wp at 1, resolve_ap.
  pose proof (resolve_no_panic (config s) (fetch (length (dialed s))) "accesspoint" (aps s)) as Hnp.
  destruct (resolve (config s) (fetch (length (dialed s))) "accesspoint" (aps s)) as [[ap|e|] a]; [| |done].
  2: { split; [|done]. exists []. simpl. rewrite app_nil_r. split_and!; try done. lia. }
  assert (H0 : dials 0 (fun _ => True) s (set_aps a s)) by (exists []; simpl; rewrite app_nil_r; by split_and!).
  wp_step. wp_step. unfold wp at 1. pose proof (connect_inner_dials ap c (set_aps a s)) as Hin. unfold wp in Hin.
  destruct (connect_inner ap c (set_aps a s)) as [[[r t]|e|] s'] eqn:Hi; [| |done]; destruct Hin as [Hin _].
  - wp_run. split; [|intros ct [= <-]; by eapply connect_inner_grants].
    eapply (dials_weaken (0 + 4)); [lia|done|]. eapply dials_trans; [done|]. by eapply dials_weaken; [| |exact Hin].
  - assert (H4 : dials 4 (fun _ => True) s s').
    { change 4%nat with (0 + 4)%nat. eapply dials_trans; [exact H0|]. by eapply dials_weaken; [| |exact Hin]. }
    assert (Hthrow : wp False (throw e) (fun r s' => dials (4 * S tries) (fun _ => True) s s' /\ (forall ct : Credentials * T, r = Ok ct -> granted ct.1)) s').
    { wp_run. split; [|done]. eapply dials_weaken; [|done|exact H4]. lia. }
    destruct (tries =? 0)%nat eqn:Hz; [exact Hthrow|]. apply Nat.eqb_neq in Hz.
    assert (Hnext : wp False (connect_loop tries c) (fun r s' => dials (4 * S tries) (fun _ => True) s s' /\ (forall ct : Credentials * T, r = Ok ct -> granted ct.1)) s').
    { wp_use IH; [|lia]. intros r s'' _ [Hd Hg]. split; [|done]. replace (4 * S tries)%nat with (4 + 4 * tries)%nat by lia. by eapply dials_trans. }
    destruct (downcast_authentication (error e)) as [[[]| |]|]; done.
Qed.

(** Connecting ends: at most six access points are tried, with at most four connections each,
    whatever the network and the resolver do. When it succeeds the session carries the name and the
    data the access point granted, and when they are to be stored the cache returns them. *)
Theorem connect_ends (c : Credentials) (store_credentials : bool) (s : Session) :
  exists r s', connect c store_credentials s = (r, s') /\ r <> Panic /\
    (length (dialed s') <= length (dialed s) + 24)%nat /\
    (r = Ok tt -> tx_connection s = false /\ tx_connection s' = true /\
       exists g, granted g /\ canonical_username s' = default "UNKNOWN" (username g) /\ session_auth_data s' = auth_data g /\
         forall w location, store_credentials = true -> session_cache s = Some w -> credentials_location (cache w) = Some location ->
           (forall c, from_json (to_json c) = Some c) -> (forall d o, fail d o = None) ->
           exists w', session_cache s' = Some w' /\ credentials fail from_json w' = Some g).
Proof.
  assert (Hwp : wp False (connect c store_credentials) (fun r s' =>
    (length (dialed s') <= length (dialed s) + 24)%nat /\
    (r = Ok tt -> tx_connection s = false /\ tx_connection s' = true /\
       exists g, granted g /\ canonical_username s' = default "UNKNOWN" (username g) /\ session_auth_data s' = auth_data g /\
         forall w location, store_credentials = true -> session_cache s = Some w -> credentials_location (cache w) = Some location ->
           (forall c, from_json (to_json c) = Some c) -> (forall d o, fail d o = None) ->
           exists w', session_cache s' = Some w' /\ credentials fail from_json w' = Some g)) s).
  { unfold connect. wp_step. wp_use connect_loop_spec; [|unfold MAX_AP_TRIES; lia].
    intros [[g t]|e|] s1 Hp [(l & D & L & _ & _ & _ & _ & Hc & Htx) Hg]; [| |done].
    2: { split; [|done]. rewrite D, length_app. unfold MAX_AP_TRIES in L. lia. }
    specialize (Hg _ eq_refl). cbn [fst] in Hg. wp_run. cbn [tx_connection set_user store].
    assert (Hlen : (length (dialed s1) <= length (dialed s) + 24)%nat) by (rewrite D, length_app; unfold MAX_AP_TRIES in L; lia).
    assert (Hst : forall s0, dialed (store g store_credentials s0) = dialed s0 /\ tx_connection (store g store_credentials s0) = tx_connection s0 /\
              canonical_username (store g store_credentials s0) = canonical_username s0 /\ session_auth_data (store g store_credentials s0) = session_auth_data s0).
    { intros s0. unfold store. destruct (session_cache s0); [|done]. by destruct (_ && _). }
    destruct (Hst (set_user (default "UNKNOWN" (username g)) (auth_data g) s1)) as (Hs1 & Hs2 & Hs3 & Hs4). rewrite Hs2.
    cbn [tx_connection set_user]. destruct (tx_connection s1) eqn:Hx; wp_run.
    - split; [by rewrite Hs1|done].
    - cbn [set_connected dialed tx_connection canonical_username session_auth_data session_cache]. rewrite Hs1, Hs3, Hs4.
      split; [done|]. intros _. split_and!; [congruence|done|]. exists g. split_and!; [done|done|done|].
      intros w location -> Hw Hloc Hj Hf. unfold store. cbn [set_user session_cache]. rewrite Hc, Hw. cbn [andb].
      case_bool_decide as Hb; cbn [negb].
      + exists w. cbn. by rewrite Hc.
      + cbn [set_cache session_cache]. eexists. split; [done|]. by eapply save_credentials_reads. }
  unfold wp in Hwp. destruct (connect c store_credentials s) as [[[]|e|] s']; [| |done].
  - eexists _, _. split; [done|]. split; [done|]. exact Hwp.
  - eexists _, _. split; [done|]. split; [done|]. exact Hwp.
Qed.

(** A login that the access point refuses is final: the error is returned without trying another
    access point, unless the refusal asks for one. *)
Theorem refused_login_is_final (c : Credentials) (store_credentials : bool) (s s1 s2 : Session) (ap : SocketAddress)
    (e : Error) (code : ErrorCode)
    (Hap : resolve_ap s = (Ok ap, s1)) (Hin : connect_inner ap c s1 = (Err e, s2))
    (Hcode : downcast_authentication (error e) = Some (LoginFailed code)) (Hne : code <> TryAnotherAP) :
  connect c store_credentials s = (Err e, s2).
Proof.
  unfold connect, MAX_AP_TRIES.
  assert (Hl : connect_loop 6 c s = (Err e, s2)).
  { cbn [connect_loop]. run_with Hap. unfold mbind, eff_bind, catch. rewrite Hin. cbn [Nat.eqb]. rewrite Hcode. by destruct code. }
  unfold mbind at 1, eff_bind at 1. by rewrite Hl.
Qed.

End connect.
#[global] Arguments Session Q : clear implicits.

(** The timeout of [connect] does not cover opening the socket: a connection can take any time, and
    still succeed. *)
Theorem socket_not_timed {A} (a : A) (bound : Z) (Hb : 0 <= bound) :
  exists socket handshake, bound < (timed_connect socket handshake).2 /\ (timed_connect socket handshake).1 = Ok a.
Proof.
  exists (Ok tt, bound + 1), (Ok a, 0). unfold timed_connect. cbn [fst snd].
  change (CONNECT_TIMEOUT <? 0) with false. cbn [fst snd]. split; [lia|done].
Qed.

(** ** Examples *)

Definition ex_session : Session (gmap Path Z) :=
  mkSession (ex_config None) no_access_points "" [] (Some ex_cache) false [].
Definition ex_dial (n : nat) (a : SocketAddress) : res IoErrorKind unit := if (n <? 3)%nat then Err IoConnectionRefused else Ok tt.
Definition ex_exchange (n : nat) (t : unit) (p : Z * list Z) : res IoErrorKind (option (res IoErrorKind (Z * list Z))) :=
  Ok (Some (Ok (172, [1; 2; 3]))).
Definition ex_fetch_aps (n : nat) : res Error ApResolveData := Err (into_error IoTimedOut).
Definition ex_granted : Credentials := mkCredentials (Some "radio") AUTHENTICATION_STORED_SPOTIFY_CREDENTIALS [1; 2; 3].
Definition ex_connect : eff (Session (gmap Path Z)) Error unit :=
  connect ex_dial ex_exchange (fun _ => Some []) (fun _ => Some ex_granted) (fun _ => Some BadCredentials) "linux" "arm" "sha" "build" "1"
    allow ex_from_json ex_to_json ex_fetch_aps (with_password "u" "p") true.

(** Two access points are tried, the second one on its second connection. *)
Example ex_connects : (ex_connect ex_session).1 = Ok tt /\ dialed (ex_connect ex_session).2 = replicate 4 ("ap.spotify.com", 443).
Proof. vm_compute. split; reflexivity. Qed.

Lemma connect_ends_witness : exists s', ex_connect ex_session = (Ok tt, s') /\ canonical_username s' = "radio" /\
  exists w', session_cache s' = Some w' /\ credentials allow ex_from_json w' = Some ex_granted.
Proof.
  destruct (connect_ends (Q := gmap Path Z) ex_dial ex_exchange (fun _ => Some []) (fun _ => Some ex_granted) (fun _ => Some BadCredentials)
              "linux" "arm" "sha" "build" "1" allow ex_from_json ex_to_json ex_fetch_aps
              ltac:(intros n a; unfold ex_dial; destruct (n <? 3)%nat; discriminate) ltac:(discriminate) ltac:(discriminate)
              (with_password "u" "p") true ex_session) as (r & s' & He & _ & _ & Hok).
  assert (Hr : r = Ok tt) by (apply (f_equal fst) in He; rewrite <- (proj1 ex_connects); symmetry; exact He).
  destruct (Hok Hr) as (_ & _ & g & (n & t & c0 & d & Hg) & Hu & _ & Hc).
  assert (Heq : ex_granted = g) by (injection Hg as Hg; exact Hg). rewrite <- Heq in *.
  exists s'. split; [rewrite <- Hr; exact He|]. split; [exact Hu|].
  apply (Hc ex_cache ["c"; "credentials.json"]); [reflexivity|reflexivity|reflexivity|exact ex_json|reflexivity].
Defined.

Lemma refused_login_is_final_witness :
  exists e s2, connect (fun _ _ => Ok tt) (fun _ _ _ => Ok (Some (Ok (173, [])))) (fun _ => Some []) (fun _ => None) (fun _ => Some BadCredentials)
      "linux" "arm" "sha" "build" "1" allow ex_from_json ex_to_json ex_fetch_aps (with_password "u" "p") true ex_session = (Err e, s2) /\
    kind e = PermissionDenied /\ dialed s2 = [("ap.spotify.com", 443)].
Proof.
  eexists _, _. split.
  - eapply (refused_login_is_final (fun _ _ => Ok tt) (fun _ _ _ => Ok (Some (Ok (173, [])))) (fun _ => Some []) (fun _ => None) (fun _ => Some BadCredentials)
      "linux" "arm" "sha" "build" "1" allow ex_from_json ex_to_json ex_fetch_aps (with_password "u" "p") true ex_session)
      with (code := BadCredentials); [vm_compute; reflexivity|vm_compute; reflexivity|reflexivity|discriminate].
  - split; vm_compute; reflexivity.
Defined.

Lemma socket_not_timed_witness :
  exists socket handshake, 100 < (timed_connect (A := unit) socket handshake).2 /\ (timed_connect socket handshake).1 = Ok tt.
Proof. apply (socket_not_timed tt 100). discriminate. Defined.
