(* ===== verification/Player.v ===== *)
(** * Player ([native/librespot/playback/src/player.rs], [decoder/mod.rs])

    The player thread: a state machine that loads, plays, pauses and preloads tracks on commands,
    takes packets from a decoder to a sink, and reports to its listeners. Decoders, sinks, track
    loaders and stream controllers are trait objects or futures, the class [Backend]. The sample
    arithmetic (normalisation and volume) is floating point and part of the backend. *)
From S2P Require Import Prelude Packet SpotifyId SpotifyUri Effect.

#[global] Instance SpotifyId_eq_dec : EqDecision SpotifyId.
Proof. solve_decision. Defined.
#[global] Instance Duration_eq_dec : EqDecision Duration.
Proof. solve_decision. Defined.
#[global] Instance SpotifyUri_eq_dec : EqDecision SpotifyUri.
Proof. solve_decision. Defined.

Definition PRELOAD_NEXT_TRACK_BEFORE_END_DURATION_MS : Z := 30000.

Inductive AudioPacket (Sample : Type) := Samples (l : list Sample) | Raw (l : list Z).
Arguments Samples {Sample} l.
Arguments Raw {Sample} l.

Definition packet_is_empty {Sample} (p : AudioPacket Sample) : bool :=
  match p with Samples [] | Raw [] => true | _ => false end.

Record AudioPacketPosition := mkAudioPacketPosition { position_ms : Z; skipped : bool }.

(** What the player is given: types with their operations. A decoder returns packets until the end of
    the track; a sink can fail to start, stop and write; a controller knows whether the rest of the
    file is there. [read_ahead_length] is the read-ahead time in bytes at a bit rate, [get_factor] the
    normalisation factor of a track (as part of an album or not), and [amplify] applies it and the
    volume. [read_clock] is [Instant::now], in nanoseconds. *)
Class Backend := {
  Decoder : Type;
  Sample : Type;
  next_packet : Decoder -> (string + option (AudioPacketPosition * AudioPacket Sample)) * Decoder;
  decoder_seek : Z -> Decoder -> (string + Z) * Decoder;
  Sink : Type;
  sink_start : Sink -> bool * Sink;
  sink_stop : Sink -> bool * Sink;
  sink_write : AudioPacket Sample -> Sink -> bool * Sink;
  Controller : Type;
  range_to_end_available : Controller -> bool;
  fetch_next_and_wait : Z -> Z -> Controller -> bool * Controller;
  read_ahead_length : Z -> Z;
  AudioItem : Type;
  NormalisationData : Type;
  Factor : Type;
  get_factor : bool -> NormalisationData -> Factor;
  Dsp : Type;
  amplify : Factor -> list Sample -> Dsp -> list Sample * Dsp;
  Clock : Type;
  read_clock : Clock -> Z * Clock
}.

Record PlayerLoadedTrackData `{Backend} := mkLoaded {
  decoder : Decoder;
  normalisation_data : NormalisationData;
  stream_loader_controller : Controller;
  audio_item : AudioItem;
  bytes_per_second : Z;
  duration_ms : Z;
  stream_position_ms : Z;
  is_explicit : bool
}.

(** The futures that load tracks: [load_track] starts one; after it was ready it is terminated. *)
Class Loaders `{Backend} := {
  Loader : Type;
  load_track : SpotifyUri -> Z -> Loader;
  is_terminated : Loader -> bool;
  loader_poll : Loader -> poll (option PlayerLoadedTrackData) * Loader
}.

Inductive SinkStatus := Running | Closed | TemporarilyClosed.

#[global] Instance SinkStatus_eq_dec : EqDecision SinkStatus.
Proof. solve_decision. Defined.

Inductive NormalisationType := NAlbum | NTrack | NAuto.

Record PlayerConfig := mkPlayerConfig {
  gapless : bool;
  passthrough : bool;
  normalisation_type : NormalisationType;
  position_update_interval : option Z
}.

Record QueueTrack := mkQueueTrack { qt_uri : string; qt_provider : string }.

Inductive PlayerError := EInternal (what : string) | EDecoder (e : string) | EFetch.

Section player.
Context {B : Backend} {L : Loaders}.

Inductive PlayerEvent :=
| PlayRequestIdChanged (play_request_id : Z)
| EvStopped (play_request_id : Z) (track_id : SpotifyUri)
| EvLoading (play_request_id : Z) (track_id : SpotifyUri) (position_ms : Z)
| Preloading (track_id : SpotifyUri)
| EvPlaying (play_request_id : Z) (track_id : SpotifyUri) (position_ms : Z)
| EvPaused (play_request_id : Z) (track_id : SpotifyUri) (position_ms : Z)
| TimeToPreloadNextTrack (play_request_id : Z) (track_id : SpotifyUri)
| EvEndOfTrack (play_request_id : Z) (track_id : SpotifyUri)
| Unavailable (play_request_id : Z) (track_id : SpotifyUri)
| VolumeChanged (volume : Z)
| PositionCorrection (play_request_id : Z) (track_id : SpotifyUri) (position_ms : Z)
| PositionChanged (play_request_id : Z) (track_id : SpotifyUri) (position_ms : Z)
| Seeked (play_request_id : Z) (track_id : SpotifyUri) (position_ms : Z)
| TrackChanged (audio_item : AudioItem)
| SessionConnected (connection_id user_name : string)
| SessionDisconnected (connection_id user_name : string)
| SessionClientChanged (client_id client_name client_brand_name client_model_name : string)
| ShuffleChanged (shuffle : bool)
| RepeatChanged (context track : bool)
| AutoPlayChanged (auto_play : bool)
| FilterExplicitContentChanged (filter : bool)
| SetQueue (context_uri : string) (current_track : option QueueTrack) (next_tracks prev_tracks : list QueueTrack).

Definition get_play_request_id (e : PlayerEvent) : option Z :=
  match e with
  | EvLoading id _ _ | Unavailable id _ | EvPlaying id _ _ | TimeToPreloadNextTrack id _ | EvEndOfTrack id _
  | EvPaused id _ _ | EvStopped id _ | PositionCorrection id _ _ | Seeked id _ _ => Some id
  | _ => None
  end.

Inductive PlayerCommand :=
| CmdLoad (track_id : SpotifyUri) (play : bool) (position_ms : Z)
| CmdPreload (track_id : SpotifyUri)
| CmdPlay
| CmdPause
| CmdStop
| CmdSeek (position_ms : Z)
| SetSession
| AddEventSender (sender : nat)
| SetSinkEventCallback (callback : option (list SinkStatus))
| EmitVolumeChangedEvent (volume : Z)
| SetAutoNormaliseAsAlbum (setting : bool)
| EmitSessionDisconnectedEvent (connection_id user_name : string)
| EmitSessionConnectedEvent (connection_id user_name : string)
| EmitSessionClientChangedEvent (client_id client_name client_brand_name client_model_name : string)
| EmitFilterExplicitContentChangedEvent (filter : bool)
| EmitShuffleChangedEvent (shuffle : bool)
| EmitRepeatChangedEvent (context track : bool)
| EmitAutoPlayChangedEvent (auto_play : bool)
| EmitSetQueueEvent (context_uri : string) (current_track : option QueueTrack) (next_tracks prev_tracks : list QueueTrack).

(** ** State *)

(** The common fields of the paused and the playing state. *)
Record Active := mkActive {
  a_track_id : SpotifyUri;
  a_request_id : Z;
  a_loaded : PlayerLoadedTrackData;
  a_factor : Factor;
  suggested_to_preload_next_track : bool
}.

Inductive PlayerState :=
| PsStopped
| PsLoading (track_id : SpotifyUri) (play_request_id : Z) (start_playback : bool) (loader : Loader)
| PsPaused (a : Active)
| PsPlaying (a : Active) (reported_nominal_start_time : option Z)
| PsEndOfTrack (track_id : SpotifyUri) (play_request_id : Z) (loaded_track : PlayerLoadedTrackData)
| PsInvalid.

Inductive PlayerPreload :=
| PrNone
| PrLoading (track_id : SpotifyUri) (loader : Loader)
| PrReady (track_id : SpotifyUri) (loaded_track : PlayerLoadedTrackData).

(** Listeners are the numbers of their inboxes, which hold all they were ever sent and exist while the
    listener does. A registered callback is the list of the statuses it was called with. *)
Record PlayerInternal := mkPlayer {
  config : PlayerConfig;
  ps : PlayerState;
  preload : PlayerPreload;
  sink : Sink;
  sink_status : SinkStatus;
  sink_event_callback : option (list SinkStatus);
  event_senders : list nat;
  inboxes : gmap nat (list PlayerEvent);
  dsp : Dsp;
  auto_normalise_as_album : bool;
  play_request_id_generator : Z;
  last_progress_update : Z;
  clock : Clock
}.

Definition set_ps (x : PlayerState) (p : PlayerInternal) : PlayerInternal :=
  mkPlayer (config p) x (preload p) (sink p) (sink_status p) (sink_event_callback p) (event_senders p)
    (inboxes p) (dsp p) (auto_normalise_as_album p) (play_request_id_generator p) (last_progress_update p) (clock p).
Definition set_preload (x : PlayerPreload) (p : PlayerInternal) : PlayerInternal :=
  mkPlayer (config p) (ps p) x (sink p) (sink_status p) (sink_event_callback p) (event_senders p)
    (inboxes p) (dsp p) (auto_normalise_as_album p) (play_request_id_generator p) (last_progress_update p) (clock p).
Definition set_sink (x : Sink) (p : PlayerInternal) : PlayerInternal :=
  mkPlayer (config p) (ps p) (preload p) x (sink_status p) (sink_event_callback p) (event_senders p)
    (inboxes p) (dsp p) (auto_normalise_as_album p) (play_request_id_generator p) (last_progress_update p) (clock p).
Definition set_sink_status (x : SinkStatus) (p : PlayerInternal) : PlayerInternal :=
  mkPlayer (config p) (ps p) (preload p) (sink p) x (sink_event_callback p) (event_senders p)
    (inboxes p) (dsp p) (auto_normalise_as_album p) (play_request_id_generator p) (last_progress_update p) (clock p).
Definition set_callback (x : option (list SinkStatus)) (p : PlayerInternal) : PlayerInternal :=
  mkPlayer (config p) (ps p) (preload p) (sink p) (sink_status p) x (event_senders p)
    (inboxes p) (dsp p) (auto_normalise_as_album p) (play_request_id_generator p) (last_progress_update p) (clock p).
Definition set_senders (x : list nat) (p : PlayerInternal) : PlayerInternal :=
  mkPlayer (config p) (ps p) (preload p) (sink p) (sink_status p) (sink_event_callback p) x
    (inboxes p) (dsp p) (auto_normalise_as_album p) (play_request_id_generator p) (last_progress_update p) (clock p).
Definition set_inboxes (x : gmap nat (list PlayerEvent)) (p : PlayerInternal) : PlayerInternal :=
  mkPlayer (config p) (ps p) (preload p) (sink p) (sink_status p) (sink_event_callback p) (event_senders p)
    x (dsp p) (auto_normalise_as_album p) (play_request_id_generator p) (last_progress_update p) (clock p).
Definition set_dsp (x : Dsp) (p : PlayerInternal) : PlayerInternal :=
  mkPlayer (config p) (ps p) (preload p) (sink p) (sink_status p) (sink_event_callback p) (event_senders p)
    (inboxes p) x (auto_normalise_as_album p) (play_request_id_generator p) (last_progress_update p) (clock p).
Definition set_as_album (x : bool) (p : PlayerInternal) : PlayerInternal :=
  mkPlayer (config p) (ps p) (preload p) (sink p) (sink_status p) (sink_event_callback p) (event_senders p)
    (inboxes p) (dsp p) x (play_request_id_generator p) (last_progress_update p) (clock p).
Definition set_generator (x : Z) (p : PlayerInternal) : PlayerInternal :=
  mkPlayer (config p) (ps p) (preload p) (sink p) (sink_status p) (sink_event_callback p) (event_senders p)
    (inboxes p) (dsp p) (auto_normalise_as_album p) x (last_progress_update p) (clock p).
Definition set_progress (x : Z) (p : PlayerInternal) : PlayerInternal :=
  mkPlayer (config p) (ps p) (preload p) (sink p) (sink_status p) (sink_event_callback p) (event_senders p)
    (inboxes p) (dsp p) (auto_normalise_as_album p) (play_request_id_generator p) x (clock p).
Definition set_clock (x : Clock) (p : PlayerInternal) : PlayerInternal :=
  mkPlayer (config p) (ps p) (preload p) (sink p) (sink_status p) (sink_event_callback p) (event_senders p)
    (inboxes p) (dsp p) (auto_normalise_as_album p) (play_request_id_generator p) (last_progress_update p) x.

Definition player_new (cfg : PlayerConfig) (s : Sink) (d : Dsp) (c : Clock) : PlayerInternal :=
  let '(now, c) := read_clock c in
  mkPlayer cfg PsStopped PrNone s Closed None [] ∅ d false 0 now c.

Definition P := eff PlayerInternal PlayerError.

(** ** Time *)

Definition now : P Z := state (fun p => let '(t, c) := read_clock (clock p) in (t, set_clock c p)).

(** [Instant::checked_sub] of a number of milliseconds; seconds are an [i64]. *)
Definition instant_checked_sub (t ms : Z) : option Z :=
  let t' := t - ms * 1000000 in if - (2 ^ 63) * 1000000000 <=? t' then Some t' else None.

(** ** Player state *)

Definition is_playing : P bool :=
  p ← gets ps;
  match p with
  | PsStopped | PsEndOfTrack _ _ _ | PsPaused _ | PsLoading _ _ _ _ => mret false
  | PsPlaying _ _ => mret true
  | PsInvalid => stop
  end.

Definition playing_to_end_of_track : P unit :=
  p ← gets ps;
  _ ← modify (set_ps PsInvalid);
  match p with
  | PsPlaying a _ => modify (set_ps (PsEndOfTrack (a_track_id a) (a_request_id a) (a_loaded a)))
  | _ => stop
  end.

Definition paused_to_playing : P unit :=
  p ← gets ps;
  _ ← modify (set_ps PsInvalid);
  match p with
  | PsPaused a =>
      t ← now;
      modify (set_ps (PsPlaying a (instant_checked_sub t (stream_position_ms (a_loaded a)))))
  | _ => stop
  end.

Definition playing_to_paused : P unit :=
  p ← gets ps;
  _ ← modify (set_ps PsInvalid);
  match p with
  | PsPlaying a _ => modify (set_ps (PsPaused a))
  | _ => stop
  end.

(** Writing through the references into the state: [f] on the fields of the paused or playing state. *)
Definition update_active (f : Active -> Active) (s : PlayerState) : PlayerState :=
  match s with
  | PsPaused a => PsPaused (f a)
  | PsPlaying a t => PsPlaying (f a) t
  | s => s
  end.

Definition set_loaded (l : PlayerLoadedTrackData) (a : Active) : Active :=
  mkActive (a_track_id a) (a_request_id a) l (a_factor a) (suggested_to_preload_next_track a).
Definition set_suggested (a : Active) : Active :=
  mkActive (a_track_id a) (a_request_id a) (a_loaded a) (a_factor a) true.
Definition set_decoder (d : Decoder) (l : PlayerLoadedTrackData) : PlayerLoadedTrackData :=
  mkLoaded _ d (normalisation_data l) (stream_loader_controller l) (audio_item l) (bytes_per_second l) (duration_ms l)
    (stream_position_ms l) (is_explicit l).
Definition set_position (pos : Z) (l : PlayerLoadedTrackData) : PlayerLoadedTrackData :=
  mkLoaded _ (decoder l) (normalisation_data l) (stream_loader_controller l) (audio_item l) (bytes_per_second l) (duration_ms l)
    pos (is_explicit l).
Definition set_controller (c : Controller) (l : PlayerLoadedTrackData) : PlayerLoadedTrackData :=
  mkLoaded _ (decoder l) (normalisation_data l) c (audio_item l) (bytes_per_second l) (duration_ms l)
    (stream_position_ms l) (is_explicit l).

Definition update_loaded (f : PlayerLoadedTrackData -> PlayerLoadedTrackData) : P unit :=
  modify (fun p => set_ps (update_active (fun a => set_loaded (f (a_loaded a)) a) (ps p)) p).

(** ** Events *)

Definition send_event (e : PlayerEvent) : P unit :=
  modify (fun p =>
    let p := set_inboxes (foldr (fun h m => alter (fun q => q ++ [e]) h m) (inboxes p) (event_senders p)) p in
    set_senders (filter (fun h => is_Some (inboxes p !! h)) (event_senders p)) p).

(** ** The sink *)

Definition callback (s : SinkStatus) : P unit :=
  modify (fun p => set_callback (fmap (fun l => l ++ [s]) (sink_event_callback p)) p).

Definition on_sink (f : Sink -> bool * Sink) : P bool :=
  state (fun p => let '(ok, s) := f (sink p) in (ok, set_sink s p)).

Definition ensure_sink_stopped (temporarily : bool) : P unit :=
  status ← gets sink_status;
  match status with
  | Running =>
      ok ← on_sink sink_stop;
      if (ok : bool) then
        let status := if temporarily then TemporarilyClosed else Closed in
        _ ← modify (set_sink_status status);
        callback status
      else stop
  | TemporarilyClosed =>
      if negb temporarily then
        _ ← modify (set_sink_status Closed);
        callback Closed
      else mret tt
  | Closed => mret tt
  end.

Definition handle_pause : P unit :=
  p ← gets ps;
  match p with
  | PsPaused _ => ensure_sink_stopped false
  | PsPlaying a _ =>
      _ ← playing_to_paused;
      _ ← ensure_sink_stopped false;
      send_event (EvPaused (a_request_id a) (a_track_id a) (stream_position_ms (a_loaded a)))
  | PsLoading t id _ loader => modify (set_ps (PsLoading t id false loader))
  | _ => mret tt
  end.

Definition ensure_sink_running : P unit :=
  status ← gets sink_status;
  if decide (status = Running) then mret tt
  else
    _ ← callback Running;
    ok ← on_sink sink_start;
    if (ok : bool) then modify (set_sink_status Running) else handle_pause.

Definition handle_player_stop : P unit :=
  p ← gets ps;
  let stopping (id : Z) (t : SpotifyUri) : P unit :=
    _ ← ensure_sink_stopped false;
    _ ← send_event (EvStopped id t);
    modify (set_ps PsStopped) in
  match p with
  | PsPlaying a _ | PsPaused a => stopping (a_request_id a) (a_track_id a)
  | PsEndOfTrack t id _ | PsLoading t id _ _ => stopping id t
  | PsStopped => mret tt
  | PsInvalid => stop
  end.

Definition handle_play : P unit :=
  p ← gets ps;
  match p with
  | PsPaused a =>
      _ ← paused_to_playing;
      _ ← send_event (EvPlaying (a_request_id a) (a_track_id a) (stream_position_ms (a_loaded a)));
      ensure_sink_running
  | PsLoading t id _ loader => modify (set_ps (PsLoading t id true loader))
  | _ => mret tt
  end.

(** ** Packets *)

Definition handle_packet (packet : option (AudioPacketPosition * AudioPacket Sample)) (normalisation_factor : Factor) : P unit :=
  match packet with
  | Some (_, packet) =>
      if packet_is_empty packet then mret tt
      else
        packet ← match packet with
                 | Samples data =>
                     data ← state (fun p => let '(data, d) := amplify normalisation_factor data (dsp p) in (data, set_dsp d p));
                     mret (Samples data)
                 | Raw d => mret (Raw d)
                 end;
        ok ← on_sink (sink_write packet);
        if (ok : bool) then mret tt else handle_pause
  | None =>
      _ ← playing_to_end_of_track;
      p ← gets ps;
      match p with
      | PsEndOfTrack t id _ => send_event (EvEndOfTrack id t)
      | _ => stop
      end
  end.

Definition normalise_as_album (p : PlayerInternal) : bool :=
  match normalisation_type (config p) with NAlbum => true | NTrack => false | NAuto => auto_normalise_as_album p end.

Definition start_playback (track_id : SpotifyUri) (play_request_id : Z) (loaded_track : PlayerLoadedTrackData)
    (start_playback : bool) : P unit :=
  _ ← send_event (TrackChanged (audio_item loaded_track));
  let position := stream_position_ms loaded_track in
  as_album ← gets normalise_as_album;
  let a := mkActive track_id play_request_id loaded_track (get_factor as_album (normalisation_data loaded_track)) false in
  if start_playback then
    _ ← ensure_sink_running;
    _ ← send_event (EvPlaying play_request_id track_id position);
    t ← now;
    modify (set_ps (PsPlaying a (instant_checked_sub t position)))
  else
    _ ← ensure_sink_stopped false;
    _ ← modify (set_ps (PsPaused a));
    send_event (EvPaused play_request_id track_id position).

(** ** Commands *)

(** [loaded_track.stream_position_ms = loaded_track.decoder.seek(position_ms)?] on data the player
    holds outside its state. *)
Definition seek_loaded (pos : Z) (l : PlayerLoadedTrackData) : P PlayerLoadedTrackData :=
  match decoder_seek pos (decoder l) with
  | (inr new, d) => mret (set_position new (set_decoder d l))
  | (inl e, _) => throw (EDecoder e)
  end.

Definition seek_if_moved (pos : Z) (l : PlayerLoadedTrackData) : P PlayerLoadedTrackData :=
  if pos =? stream_position_ms l then mret l else seek_loaded pos l.

(** [self.state.decoder().seek(..)]: the decoder in the paused or playing state moves also when the
    seek fails. *)
Definition seek_current (pos : Z) : P (option (string + Z)) :=
  p ← gets ps;
  match p with
  | PsPaused a | PsPlaying a _ =>
      let '(r, d) := decoder_seek pos (decoder (a_loaded a)) in
      _ ← update_loaded (set_decoder d);
      mret (Some r)
  | PsInvalid => stop
  | _ => mret None
  end.

Definition current_track (s : PlayerState) : option SpotifyUri :=
  match s with
  | PsPlaying a _ | PsPaused a => Some (a_track_id a)
  | _ => None
  end.

Definition next_request_id : P Z :=
  state (fun p => let '(id, g) := seq_get 64 (play_request_id_generator p) in (id, set_generator g p)).

(** Repeating the track that ended. *)
Definition load_repeated (track_id : SpotifyUri) (id : Z) (play : bool) (pos : Z) (l : PlayerLoadedTrackData) : P unit :=
  _ ← modify (set_ps PsInvalid);
  l ← seek_if_moved pos l;
  _ ← modify (set_preload PrNone);
  _ ← start_playback track_id id l play;
  p ← gets ps;
  match p with
  | PsInvalid => throw (EInternal "repeating the same track: start_playback() did not transition to valid player state")
  | _ => mret tt
  end.

(** Loading the track that plays or is paused. *)
Definition load_current (track_id : SpotifyUri) (id : Z) (play : bool) (pos : Z) (a : Active) : P unit :=
  _ ← (if pos =? stream_position_ms (a_loaded a) then mret tt
       else r ← seek_current pos;
            match r with
            | Some (inr new) => update_loaded (set_position new)
            | Some (inl e) => throw (EDecoder e)
            | None => mret tt
            end);
  p ← gets ps;
  _ ← modify (set_ps PsInvalid);
  match p with
  | PsPlaying a _ | PsPaused a =>
      _ ← modify (set_preload PrNone);
      _ ← start_playback track_id id (a_loaded a) play;
      p ← gets ps;
      match p with
      | PsInvalid => throw (EInternal "already playing this track: start_playback() did not transition to valid player state")
      | _ => mret tt
      end
  | _ => throw (EInternal "already playing this track: invalid state")
  end.

(** Loading the track whose preload is complete. *)
Definition load_preloaded (track_id : SpotifyUri) (id : Z) (play : bool) (pos : Z) (l : PlayerLoadedTrackData) : P unit :=
  _ ← modify (set_preload PrNone);
  l ← seek_if_moved pos l;
  start_playback track_id id l play.

(** Loading from the network, with the loader of a pending preload of the track from its start. *)
Definition load_anew (track_id : SpotifyUri) (id : Z) (play : bool) (pos : Z) : P unit :=
  _ ← send_event (EvLoading id track_id pos);
  pre ← gets preload;
  let loader :=
    match pre with
    | PrLoading t loader => if bool_decide (track_id = t) && (pos =? 0) then Some loader else None
    | _ => None
    end in
  _ ← modify (set_preload PrNone);
  modify (set_ps (PsLoading track_id id play (default (load_track track_id pos) loader))).

Definition handle_command_load (track_id : SpotifyUri) (play_request_id_option : option Z) (play : bool)
    (pos : Z) : P unit :=
  generated ← next_request_id;
  let id := default generated play_request_id_option in
  _ ← send_event (PlayRequestIdChanged id);
  gap ← gets (fun p => gapless (config p));
  _ ← (if negb gap then ensure_sink_stopped play else mret tt);
  p ← gets ps;
  pre ← gets preload;
  let elsewhere :=
    match pre with
    | PrReady t l => if decide (track_id = t) then load_preloaded t id play pos l else load_anew track_id id play pos
    | _ => load_anew track_id id play pos
    end in
  match p with
  | PsInvalid => throw (EInternal "handle_command_load called from invalid state")
  | PsEndOfTrack t _ l => if decide (t = track_id) then load_repeated track_id id play pos l else elsewhere
  | PsPlaying a _ | PsPaused a =>
      if decide (a_track_id a = track_id) then load_current track_id id play pos a else elsewhere
  | _ => elsewhere
  end.

Definition handle_command_preload (track_id : SpotifyUri) : P unit :=
  pre ← gets preload;
  wanted ← match pre with
           | PrLoading t _ | PrReady t _ =>
               if decide (t = track_id) then mret false
               else (_ ← modify (set_preload PrNone); mret true)
           | PrNone => mret true
           end;
  p ← gets ps;
  let preload_track :=
    match p with
    | PsPlaying a _ | PsPaused a => wanted && negb (bool_decide (a_track_id a = track_id))
    | PsEndOfTrack t _ _ => wanted && negb (bool_decide (t = track_id))
    | _ => wanted
    end in
  if (preload_track : bool) then modify (set_preload (PrLoading track_id (load_track track_id 0))) else mret tt.

Definition preload_data_before_playback : P unit :=
  p ← gets ps;
  match p with
  | PsPlaying a _ =>
      let len := read_ahead_length (bytes_per_second (a_loaded a)) in
      let '(ok, c) := fetch_next_and_wait len len (stream_loader_controller (a_loaded a)) in
      _ ← update_loaded (set_controller c);
      if (ok : bool) then mret tt else throw EFetch
  | _ => mret tt
  end.

Definition handle_command_seek (pos : Z) : P unit :=
  p ← gets ps;
  match p with
  | PsLoading t id start _ => handle_command_load t (Some id) start pos
  | _ =>
      r ← seek_current pos;
      _ ← match r with
          | Some (inr new) =>
              p ← gets ps;
              match p with
              | PsPlaying a _ | PsPaused a =>
                  _ ← update_loaded (set_position new);
                  send_event (Seeked (a_request_id a) (a_track_id a) new)
              | _ => mret tt
              end
          | _ => mret tt
          end;
      _ ← preload_data_before_playback;
      p ← gets ps;
      match p with
      | PsPlaying a _ => t ← now; modify (set_ps (PsPlaying a (instant_checked_sub t pos)))
      | _ => mret tt
      end
  end.

Definition handle_command (cmd : PlayerCommand) : P unit :=
  match cmd with
  | CmdLoad track_id play pos => handle_command_load track_id None play pos
  | CmdPreload track_id => handle_command_preload track_id
  | CmdSeek pos => handle_command_seek pos
  | CmdPlay => handle_play
  | CmdPause => handle_pause
  | CmdStop => handle_player_stop
  | SetSession => mret tt
  | AddEventSender sender => modify (fun p => set_senders (event_senders p ++ [sender]) p)
  | SetSinkEventCallback cb => modify (set_callback cb)
  | EmitVolumeChangedEvent volume => send_event (VolumeChanged volume)
  | EmitRepeatChangedEvent context track => send_event (RepeatChanged context track)
  | EmitShuffleChangedEvent shuffle => send_event (ShuffleChanged shuffle)
  | EmitAutoPlayChangedEvent auto_play => send_event (AutoPlayChanged auto_play)
  | EmitSessionClientChangedEvent i n b m => send_event (SessionClientChanged i n b m)
  | EmitSessionConnectedEvent c u => send_event (SessionConnected c u)
  | EmitSessionDisconnectedEvent c u => send_event (SessionDisconnected c u)
  | SetAutoNormaliseAsAlbum setting => modify (set_as_album setting)
  | EmitSetQueueEvent uri current next prev => send_event (SetQueue uri current next prev)
  | EmitFilterExplicitContentChangedEvent filter =>
      _ ← send_event (FilterExplicitContentChanged filter);
      if filter then
        p ← gets ps;
        match p with
        | PsPlaying a _ | PsPaused a =>
            if is_explicit (a_loaded a) then send_event (EvEndOfTrack (a_request_id a) (a_track_id a)) else mret tt
        | _ => mret tt
        end
      else mret tt
  end.

(** ** One round of the loop of [poll] *)

(** The loader of the track to play. *)
Definition poll_loading : P unit :=
  p ← gets ps;
  match p with
  | PsLoading t id start loader =>
      if is_terminated loader then mret tt
      else
        let '(r, loader) := loader_poll loader in
        _ ← modify (set_ps (PsLoading t id start loader));
        match r with
        | Ready (Some loaded) =>
            _ ← start_playback t id loaded start;
            p ← gets ps;
            match p with PsLoading _ _ _ _ => stop | _ => mret tt end
        | Ready None => send_event (Unavailable id t)
        | Pending => mret tt
        end
  | _ => mret tt
  end.

Definition poll_preload : P unit :=
  pre ← gets preload;
  match pre with
  | PrLoading t loader =>
      let '(r, loader) := loader_poll loader in
      _ ← modify (set_preload (PrLoading t loader));
      match r with
      | Ready (Some loaded) =>
          _ ← send_event (Preloading t);
          modify (set_preload (PrReady t loaded))
      | Ready None =>
          _ ← modify (set_preload PrNone);
          p ← gets ps;
          match p with
          | PsPlaying a _ | PsPaused a => send_event (Unavailable (a_request_id a) t)
          | _ => mret tt
          end
      | Pending => mret tt
      end
  | _ => mret tt
  end.

(** Whether listeners must hear about the position: the packet was reached by skipping a second or
    more, or playback lags a second or more behind what was reported. *)
Definition notify_about_position (reported : option Z) (t expected new : Z) (skip : bool) : bool :=
  match reported with
  | None => true
  | Some start =>
      (skip && (1000 <=? new - expected)) ||
      ((start <=? t) && (new * 1000000 <=? t - start) && (1000000000 <=? t - start - new * 1000000))
  end.

(** Reporting the position of a packet of samples, in a playing state [a]. *)
Definition report_position (a : Active) (reported : option Z) (expected new : Z) (skip : bool) : P unit :=
  t ← now;
  _ ← (if notify_about_position reported t expected new skip then
         _ ← modify (fun p =>
               match ps p with PsPlaying a _ => set_ps (PsPlaying a (instant_checked_sub t new)) p | _ => p end);
         send_event (PositionCorrection (a_request_id a) (a_track_id a) new)
       else mret tt);
  interval ← gets (fun p => position_update_interval (config p));
  match interval with
  | Some i =>
      last ← gets last_progress_update;
      if i <? Z.max 0 (t - last) then
        _ ← modify (set_progress t);
        send_event (PositionChanged (a_request_id a) (a_track_id a) new)
      else mret tt
  | None => mret tt
  end.

(** The next packet of the decoder, to the sink. *)
Definition play_packet : P unit :=
  _ ← ensure_sink_running;
  raw ← gets (fun p => passthrough (config p));
  p ← gets ps;
  match p with
  | PsPlaying a reported =>
      let '(r, d) := next_packet (decoder (a_loaded a)) in
      _ ← update_loaded (set_decoder d);
      match r with
      | inr result =>
          _ ← match result with
              | Some (pos, packet) =>
                  let new := position_ms pos in
                  let expected := stream_position_ms (a_loaded a) in
                  _ ← update_loaded (set_position new);
                  if (raw : bool) then mret tt
                  else match packet with
                       | Samples _ => report_position a reported expected new (skipped pos)
                       | Raw _ => send_event (EvEndOfTrack (a_request_id a) (a_track_id a))
                       end
              | None => mret tt
              end;
          handle_packet result (a_factor a)
      | inl _ => send_event (EvEndOfTrack (a_request_id a) (a_track_id a))
      end
  | _ => stop
  end.

Definition suggest_preload : P unit :=
  p ← gets ps;
  match p with
  | PsPlaying a _ | PsPaused a =>
      let l := a_loaded a in
      if negb (suggested_to_preload_next_track a) &&
         (duration_ms l - stream_position_ms l <? PRELOAD_NEXT_TRACK_BEFORE_END_DURATION_MS) &&
         range_to_end_available (stream_loader_controller l) then
        _ ← modify (fun p => set_ps (update_active set_suggested (ps p)) p);
        send_event (TimeToPreloadNextTrack (a_request_id a) (a_track_id a))
      else mret tt
  | _ => mret tt
  end.

(** A round with the command received, if any; the result says whether [poll] returns [Pending]. *)
Definition round (cmd : option PlayerCommand) : P bool :=
  _ ← match cmd with Some cmd => ignore_error (handle_command cmd) | None => mret tt end;
  _ ← poll_loading;
  _ ← poll_preload;
  playing ← is_playing;
  _ ← (if (playing : bool) then play_packet else mret tt);
  _ ← suggest_preload;
  playing ← is_playing;
  mret (negb playing && match cmd with None => true | Some _ => false end).

End player.
