(* ===== verification/PlayerSpec.v ===== *)
(** * What the player promises ([native/librespot/playback/src/player.rs])

    Listeners learn the player's state from its events, and the speakers are released while nothing
    plays: [Good] is preserved by every round of the player's loop. [X] in the proofs stands for the
    failures of sinks and decoders that make the player end the program. *)
From S2P Require Import Prelude Packet SpotifyUri Effect Player.

Section spec.
Context {B : Backend} {L : Loaders}.

(** ** The state as listeners see it *)

Inductive View :=
| VStopped
| VLoading (play_request_id : Z) (track_id : SpotifyUri)
| VPaused (play_request_id : Z) (track_id : SpotifyUri)
| VPlaying (play_request_id : Z) (track_id : SpotifyUri).

Definition state_view (s : PlayerState) : option View :=
  match s with
  | PsStopped => Some VStopped
  | PsLoading t id _ _ => Some (VLoading id t)
  | PsPaused a => Some (VPaused (a_request_id a) (a_track_id a))
  | PsPlaying a _ => Some (VPlaying (a_request_id a) (a_track_id a))
  | PsEndOfTrack t id _ => Some (VPlaying id t)
  | PsInvalid => None
  end.

Definition event_view (e : PlayerEvent) : option View :=
  match e with
  | EvStopped _ _ => Some VStopped
  | EvLoading id t _ => Some (VLoading id t)
  | EvPaused id t _ => Some (VPaused id t)
  | EvPlaying id t _ => Some (VPlaying id t)
  | _ => None
  end.

Definition last_view (q : list PlayerEvent) : option View :=
  foldl (fun v e => match event_view e with Some v' => Some v' | None => v end) None q.

(** Every registered listener knows nothing yet or believes [v]. *)
Definition informed (p : PlayerInternal) (v : View) : Prop :=
  forall h q, h ∈ event_senders p -> inboxes p !! h = Some q -> last_view q = None \/ last_view q = Some v.

Definition quiet (s : PlayerState) : bool :=
  match s with PsStopped | PsPaused _ => true | _ => false end.

Definition Good (X : Prop) (p : PlayerInternal) : Prop :=
  (ps p = PsInvalid -> X) /\
  (forall v, state_view (ps p) = Some v -> informed p v) /\
  (quiet (ps p) -> sink_status p <> Running).

(** ** Lemmas on events *)

Lemma last_view_snoc q e :
  last_view (q ++ [e]) = match event_view e with Some v => Some v | None => last_view q end.
Proof. unfold last_view. by rewrite foldl_app. Qed.

Lemma foldr_alter_lookup (e : PlayerEvent) (m : gmap nat (list PlayerEvent)) hs h q :
  foldr (fun h m => alter (fun q => q ++ [e]) h m) m hs !! h = Some q ->
  exists q0 n, m !! h = Some q0 /\ q = q0 ++ replicate n e /\ (h ∈ hs -> n <> 0%nat).
Proof.
  revert q. induction hs as [|h' hs IH]; intros q Hq; simpl in Hq.
  { exists q, 0%nat. rewrite app_nil_r. split_and!; [done|done|]. intros H. by apply not_elem_of_nil in H. }
  destruct (decide (h' = h)) as [->|Hne].
  - rewrite lookup_alter_eq in Hq. apply fmap_Some in Hq as (q1 & Hq1 & ->).
    apply IH in Hq1 as (q0 & n & Hm & -> & Hn).
    exists q0, (S n). split_and!; [done| |done].
    by rewrite replicate_S_end, app_assoc.
  - rewrite lookup_alter_ne in Hq by done. apply IH in Hq as (q0 & n & Hm & -> & Hn).
    exists q0, n. split_and!; [done|done|]. intros [->|]%elem_of_cons; [done|auto].
Qed.

Lemma last_view_replicate q e n :
  last_view (q ++ replicate n e) =
  match n, event_view e with S _, Some v => Some v | _, _ => last_view q end.
Proof.
  revert q. induction n as [|n IH]; intros q; simpl; [by rewrite app_nil_r|].
  rewrite (cons_middle e q), (assoc_L (++)), IH, last_view_snoc. by destruct n, (event_view e).
Qed.

(** What [send_event] leaves alone, and what listeners know afterwards. *)
Lemma send_event_spec X e (Q : res PlayerError unit -> PlayerInternal -> Prop) p :
  (forall p', ps p' = ps p -> sink_status p' = sink_status p -> preload p' = preload p -> config p' = config p ->
     sink p' = sink p -> dsp p' = dsp p ->
     (forall v, informed p v -> event_view e = None -> informed p' v) ->
     (forall v, event_view e = Some v -> informed p' v) -> Q (Ok tt) p') ->
  wp X (send_event e) Q p.
Proof.
  intros HQ. apply wp_modify, HQ; [done..| |].
  - intros v Hv He h q Hh Hq. simpl in *.
    apply list_elem_of_filter in Hh as [_ Hh]. apply foldr_alter_lookup in Hq as (q0 & n & Hq0 & -> & _).
    rewrite last_view_replicate, He. specialize (Hv h q0 Hh Hq0). by destruct n.
  - intros v He h q Hh Hq. simpl in *.
    apply list_elem_of_filter in Hh as [_ Hh]. apply foldr_alter_lookup in Hq as (q0 & n & Hq0 & -> & Hn).
    rewrite last_view_replicate, He. destruct n; [by destruct Hn|auto].
Qed.

(** ** Every operation keeps [Good] *)

Section good.
Variable X : Prop.
Hypothesis Hstop : forall s, (sink_stop s).1 = false -> X.
Hypothesis Hstart : forall s, (sink_start s).1 = false -> X.
Hypothesis Hseek : forall pos d e, (decoder_seek pos d).1 = inl e -> X.

Definition keeps {A} (m : P A) : Prop := forall p, Good X p -> wp X m (fun _ p' => Good X p') p.

(** [Good] looks at four parts of the player. *)
Lemma good_ext p p' :
  ps p' = ps p -> sink_status p' = sink_status p -> event_senders p' = event_senders p -> inboxes p' = inboxes p ->
  Good X p -> Good X p'.
Proof. unfold Good, informed. by intros -> -> -> ->. Qed.

(** [Good] survives a change of the state that listeners do not see. *)
Lemma good_set_ps p s :
  Good X p -> state_view s = state_view (ps p) -> quiet s = quiet (ps p) -> (s = PsInvalid -> ps p = PsInvalid) ->
  Good X (set_ps s p).
Proof.
  intros (H1 & H2 & H3) Hv Hq Hi. split_and!; simpl; [auto| |by rewrite Hq].
  intros v. rewrite Hv. apply H2.
Qed.

Lemma good_event e p : event_view e = None -> Good X p -> wp X (send_event e) (fun _ p' => Good X p') p.
Proof.
  intros He (H1 & H2 & H3). apply send_event_spec. intros p' Hps Hss _ _ _ _ Hold _.
  split_and!; rewrite Hps; [done| |by rewrite Hss]. intros v Hv. apply Hold; [by apply H2|done].
Qed.

Lemma ensure_sink_stopped_spec b (Q : res PlayerError unit -> PlayerInternal -> Prop) p :
  (forall p', ps p' = ps p -> event_senders p' = event_senders p -> inboxes p' = inboxes p -> preload p' = preload p ->
     config p' = config p -> sink_status p' <> Running -> Q (Ok tt) p') ->
  wp X (ensure_sink_stopped b) Q p.
Proof using Hstop.
  intros HQ. unfold ensure_sink_stopped. wp_run. destruct (sink_status p) eqn:Hs.
  - wp_run. unfold on_sink. wp_run. specialize (Hstop (sink p)). destruct (sink_stop (sink p)) as [[] s]; simpl in *.
    + destruct b; wp_run; by apply HQ.
    + wp_run. auto.
  - wp_run. apply HQ; by try rewrite Hs.
  - destruct b; simpl; wp_run; apply HQ; simpl; by try rewrite Hs.
Qed.

Lemma handle_pause_spec p :
  wp X handle_pause (fun r p' => r = Ok tt /\ preload p' = preload p /\ (Good X p -> Good X p')) p.
Proof using Hstop.
  unfold handle_pause. wp_run. destruct (ps p) as [|t id st ld|a|a r|t id l|] eqn:Hs; try by wp_run.
  - wp_run. split_and!; [done..|]. intros HG. by apply good_set_ps; rewrite ?Hs.
  - apply ensure_sink_stopped_spec. intros p' E1 E2 E3 E4 _ E5. split_and!; [done..|].
    intros (H1 & H2 & H3). split_and!; rewrite E1; auto. intros v Hv h q. rewrite E2, E3. by apply H2.
  - unfold playing_to_paused. wp_run. simpl. rewrite Hs. wp_run.
    apply ensure_sink_stopped_spec. intros p' E1 E2 E3 E4 _ E5.
    apply send_event_spec. intros p'' F1 F2 F3 _ _ _ _ F4. simpl in *.
    split_and!; [done|by rewrite F3|]. intros _. unfold Good. rewrite F1, F2, E1. simpl.
    split_and!; [done| |done]. intros v [= <-]. by apply F4.
Qed.

Lemma ensure_sink_running_spec p :
  wp X ensure_sink_running (fun r p' => r = Ok tt /\ preload p' = preload p /\
    (Good X p -> ~ quiet (ps p) -> Good X p')) p.
Proof using Hstop.
  unfold ensure_sink_running. wp_run. case_decide; [by wp_run|]. wp_run. unfold callback, on_sink. wp_run. simpl.
  destruct (sink_start (sink p)) as [[] s]; simpl.
  - wp_run. split_and!; [done..|]. intros (H1 & H2 & H3) Hq. by split_and!.
  - wp_use handle_pause_spec. simpl. intros r p' _ (-> & Hp & HG). split_and!; [done|done|].
    intros H0 _. apply HG. by eapply good_ext; [..|exact H0].
Qed.

Lemma start_playback_spec t id l b p :
  wp X (start_playback t id l b)
    (fun r p' => r = Ok tt /\ Good X p' /\ match ps p' with PsPlaying _ _ | PsPaused _ => True | _ => False end) p.
Proof using Hstop.
  unfold start_playback. wp_run. apply send_event_spec. intros p1 _ _ _ _ _ _ _ _. wp_run. destruct b; wp_run.
  - wp_use ensure_sink_running_spec. intros r p2 _ (-> & _ & _). wp_run.
    apply send_event_spec. intros p3 _ _ _ _ _ _ _ H. wp_run. unfold now. wp_run.
    destruct (read_clock (clock p3)) as [c ck]; simpl. split_and!; [done| |done]. split_and!; simpl; [done| |done].
    intros v [= <-]. by apply H.
  - apply ensure_sink_stopped_spec. intros p2 _ _ _ _ _ Hq. wp_run.
    apply send_event_spec. intros p3 E1 E2 _ _ _ _ _ H. simpl in *.
    split_and!; [done| |by rewrite E1]. unfold Good. rewrite E1, E2. split_and!; [done| |done].
    intros v [= <-]. by apply H.
Qed.

Lemma good_update_loaded f p : Good X p -> Good X (set_ps (update_active (fun a => set_loaded (f (a_loaded a)) a) (ps p)) p).
Proof. intros HG. by apply good_set_ps; [done|destruct (ps p)..]. Qed.

Lemma keeps_update_loaded f : keeps (update_loaded f).
Proof. intros p HG. apply wp_modify, good_update_loaded, HG. Qed.

Lemma player_keeps_bind {A C} (m : P A) (k : A -> P C) : keeps m -> (forall a, keeps (k a)) -> keeps (m ≫= k).
Proof.
  intros Hm Hk p HG. wp_step. wp_use Hm; [|done]. intros [a|e|] p' Hr HG'; [by apply Hk|done|done].
Qed.

Lemma player_keeps_ret {A} (a : A) : keeps (mret a).
Proof. by intros p HG. Qed.

Lemma player_keeps_gets {A} (f : PlayerInternal -> A) : keeps (gets f).
Proof. by intros p HG. Qed.

Lemma keeps_event e : event_view e = None -> keeps (send_event e).
Proof. intros He p HG. by apply good_event. Qed.

Lemma keeps_handle_pause : keeps handle_pause.
Proof using Hstop. intros p HG. wp_use handle_pause_spec. intros r p' _ (_ & _ & H). auto. Qed.

Lemma keeps_handle_player_stop : keeps handle_player_stop.
Proof using Hstop.
  intros p HG. unfold handle_player_stop. wp_run.
  assert (Hst : forall id t, wp X (_ ← ensure_sink_stopped false; _ ← send_event (EvStopped id t); modify (set_ps PsStopped))
            (fun _ p' => Good X p') p).
  { intros id t. wp_run. apply ensure_sink_stopped_spec. intros p1 _ _ _ _ _ Hq. wp_run.
    apply send_event_spec. intros p2 _ E _ _ _ _ _ H. wp_run. split_and!; simpl; [done| |by rewrite E].
    intros v [= <-]. by apply H. }
  destruct (ps p) eqn:Hs; try apply Hst; wp_run; [done|]. by apply HG.
Qed.

Lemma keeps_handle_play : keeps handle_play.
Proof using Hstop.
  intros p HG. unfold handle_play. wp_run. destruct (ps p) as [|t id st ld|a|a r|t id l|] eqn:Hs; try by wp_run.
  - wp_run. by apply good_set_ps; rewrite ?Hs.
  - unfold paused_to_playing, now. wp_run. simpl. rewrite Hs. wp_run. simpl.
    destruct (read_clock (clock p)) as [c ck]; simpl.
    apply send_event_spec. intros p1 E1 _ _ _ _ _ _ H. simpl in *.
    wp_use ensure_sink_running_spec. intros r p2 _ (_ & _ & HG2). apply HG2; rewrite ?E1; [|by intros []].
    unfold Good. rewrite E1. split_and!; [done| |done]. intros v [= <-]. by apply H.
Qed.

Lemma seek_if_moved_spec pos l p :
  wp X (seek_if_moved pos l) (fun r p' => p' = p /\ (is_ok r \/ X)) p.
Proof using Hseek.
  unfold seek_if_moved. destruct (pos =? _); [wp_run; by split; [|left]|]. unfold seek_loaded.
  pose proof (Hseek pos (decoder l)) as HS. destruct (decoder_seek pos (decoder l)) as [[e|n] d]; wp_run.
  - split; [done|]. right. by apply (HS e).
  - split; [done|]. by left.
Qed.

Lemma keeps_load_repeated t id b pos l p : wp X (load_repeated t id b pos l) (fun _ p' => Good X p') p.
Proof using Hstop Hseek.
  unfold load_repeated. wp_run. wp_use seek_if_moved_spec. intros [l'|e|] p1 ? (-> & H); [| |done].
  - wp_run. wp_use start_playback_spec. intros r p2 _ (-> & HG & Hs). wp_run. by destruct (ps p2).
  - destruct H as [H|H]; [done|]. split_and!; simpl; [done..|]. done.
Qed.

Lemma active_update_loaded f s :
  is_Some (current_track s) -> is_Some (current_track (update_active (fun a => set_loaded (f (a_loaded a)) a) s)).
Proof. by destruct s. Qed.

Lemma seek_current_spec pos p :
  Good X p -> wp X (seek_current pos)
    (fun r p' => Good X p' /\ (is_Some (current_track (ps p)) -> is_Some (current_track (ps p')))) p.
Proof.
  intros HG. unfold seek_current. wp_run.
  assert (HU : forall d, Good X (set_ps (update_active (fun a => set_loaded (set_decoder d (a_loaded a)) a) (ps p)) p)).
  { intros d. by apply good_update_loaded. }
  destruct (ps p) eqn:Hs; try (wp_run; split; [done|by rewrite Hs]).
  - destruct (decoder_seek _ _) as [r d]. unfold update_loaded. wp_run. simpl. rewrite Hs. split; [apply HU|done].
  - destruct (decoder_seek _ _) as [r d]. unfold update_loaded. wp_run. simpl. rewrite Hs. split; [apply HU|done].
  - wp_run. by apply HG.
Qed.

Lemma load_current_spec t id b pos a p :
  Good X p -> is_Some (current_track (ps p)) -> wp X (load_current t id b pos a) (fun _ p' => Good X p') p.
Proof using Hstop.
  intros HG Ha. unfold load_current. wp_step.
  set (m := if pos =? _ then _ else _).
  assert (Hm : wp X m (fun _ p' => Good X p' /\ is_Some (current_track (ps p'))) p).
  { unfold m. destruct (pos =? _); [by wp_run|]. wp_run. wp_use seek_current_spec; [|done].
    intros [[[e|n]|]|e|] p1 ? [HG1 Ha1]; try done; wp_run; auto.
    split; [by apply good_update_loaded|by apply active_update_loaded, Ha1]. }
  wp_use Hm. intros [?|?|] p1 ? [HG1 [u Ha1]]; try done. wp_run.
  assert (Hst : forall l p2, wp X (_ ← start_playback t id l b; p ← gets ps;
      match p with PsInvalid => throw (EInternal "already playing this track: start_playback() did not transition to valid player state")
                 | _ => mret tt end) (fun _ p' => Good X p') p2).
  { intros l p2. wp_run. wp_use start_playback_spec. intros r p3 _ (-> & HG3 & Hs). wp_run. by destruct (ps p3). }
  destruct (ps p1); try done; apply wp_bind, wp_modify, Hst.
Qed.

Lemma load_preloaded_spec t id b pos l : keeps (load_preloaded t id b pos l).
Proof using Hstop Hseek.
  intros p HG. unfold load_preloaded. wp_run. wp_use seek_if_moved_spec. intros [l'|e|] p1 ? (-> & _); try done.
  wp_use start_playback_spec. by intros r p2 _ (_ & ? & _).
Qed.

Lemma load_anew_spec t id b pos p : wp X (load_anew t id b pos) (fun _ p' => Good X p') p.
Proof.
  unfold load_anew. wp_run. apply send_event_spec. intros p1 _ _ _ _ _ _ _ H. wp_run. simpl.
  split_and!; simpl; [done| |done]. intros v [= <-]. by apply H.
Qed.

Lemma keeps_handle_command_load t ido b pos : keeps (handle_command_load t ido b pos).
Proof using Hstop Hseek.
  intros p HG. unfold handle_command_load, next_request_id. wp_run. simpl.
  wp_use good_event; [|done|by eapply good_ext; [..|exact HG]]. intros [?|?|] p1 ? HG1; try done. wp_run.
  set (m := if negb _ then _ else _).
  assert (Hm : wp X m (fun r p' => Good X p') p1).
  { unfold m. destruct (negb _); [|by wp_run]. apply ensure_sink_stopped_spec. intros p' E1 E2 E3 E4 _ E5.
    destruct HG1 as (H1 & H2 & H3). split_and!; rewrite E1; auto. intros v Hv h q. rewrite E2, E3. by apply H2. }
  wp_use Hm. intros [?|?|] p2 ? HG2; try done. clear Hm m. wp_run.
  set (elsewhere := match preload p2 with PrReady _ _ => _ | _ => _ end).
  assert (He : wp X elsewhere (fun _ p' => Good X p') p2).
  { unfold elsewhere. destruct (preload p2); [apply load_anew_spec..|].
    destruct (decide _); [by apply load_preloaded_spec|apply load_anew_spec]. }
  clearbody elsewhere. destruct (ps p2) eqn:Hs; try done; try (destruct (decide _); [|done]).
  - apply load_current_spec; [done|by rewrite Hs].
  - apply load_current_spec; [done|by rewrite Hs].
  - apply keeps_load_repeated.
Qed.

Lemma keeps_handle_command_preload t : keeps (handle_command_preload t).
Proof.
  unfold handle_command_preload. apply player_keeps_bind; [apply player_keeps_gets|]. intros pre. apply player_keeps_bind.
  { intros p HG. destruct pre; [by wp_run|..]; (destruct (decide _); wp_run; [done|]); by eapply good_ext; [..|exact HG]. }
  intros w. apply player_keeps_bind; [apply player_keeps_gets|]. intros s p HG.
  case_match; wp_run; [|done]. by eapply good_ext; [..|exact HG].
Qed.

Lemma keeps_preload_data : keeps preload_data_before_playback.
Proof.
  intros p HG. unfold preload_data_before_playback. wp_run. destruct (ps p) eqn:Hs; try by wp_run.
  destruct (fetch_next_and_wait _ _ _) as [ok c]. wp_run. wp_use keeps_update_loaded; [|done].
  intros [?|?|] p1 ? ?; try done. by destruct ok; wp_run.
Qed.

Lemma keeps_handle_command_seek pos : keeps (handle_command_seek pos).
Proof using Hstop Hseek.
  unfold handle_command_seek. apply player_keeps_bind; [apply player_keeps_gets|]. intros s.
  assert (Hr : keeps (r ← seek_current pos;
      _ ← match r with
          | Some (inr new) =>
              p ← gets ps;
              match p with
              | PsPlaying a _ | PsPaused a =>
                  _ ← update_loaded (set_position new);
                  send_event (Seeked (a_request_id a) (a_track_id a) new)
              | _ => mret tt
              end
          | _ => mret tt
          end;
      _ ← preload_data_before_playback;
      p ← gets ps;
      match p with
      | PsPlaying a _ => t ← now; modify (set_ps (PsPlaying a (instant_checked_sub t pos)))
      | _ => mret tt
      end)).
  { apply player_keeps_bind. { intros p HG. wp_use seek_current_spec; [|done]. by intros ? ? ? []. }
    intros r. apply player_keeps_bind.
    { destruct r as [[e|n]|]; try apply player_keeps_ret. apply player_keeps_bind; [apply player_keeps_gets|].
      intros []; try apply player_keeps_ret; (apply player_keeps_bind; [apply keeps_update_loaded|]); intros _; by apply keeps_event. }
    intros _. apply player_keeps_bind; [apply keeps_preload_data|]. intros _ p HG. wp_run.
    destruct (ps p) eqn:Hs; try by wp_run. unfold now. wp_run. destruct (read_clock _); simpl.
    apply good_set_ps; simpl; by rewrite ?Hs. }
  destruct s; try apply Hr. apply keeps_handle_command_load.
Qed.

(** A sender that is being registered belongs to a channel nothing was sent to. *)
Definition fresh_sender (cmd : option PlayerCommand) (p : PlayerInternal) : Prop :=
  match cmd with Some (AddEventSender h) => default [] (inboxes p !! h) = [] | _ => True end.

Lemma handle_command_good cmd p :
  fresh_sender (Some cmd) p -> Good X p -> wp X (handle_command cmd) (fun _ p' => Good X p') p.
Proof using Hstop Hseek.
  intros Hf HG. destruct cmd; simpl; try by apply keeps_event.
  - by apply keeps_handle_command_load.
  - by apply keeps_handle_command_preload.
  - by apply keeps_handle_play.
  - by apply keeps_handle_pause.
  - by apply keeps_handle_player_stop.
  - by apply keeps_handle_command_seek.
  - by wp_run.
  - wp_run. destruct HG as (H1 & H2 & H3). split_and!; simpl; [done| |done].
    intros v Hv h q [Hh| ->%list_elem_of_singleton]%elem_of_app Hq; [by apply (H2 v Hv h q)|].
    simpl in *. rewrite Hq in Hf. simpl in Hf. subst q. by left.
  - wp_run. by eapply good_ext; [..|exact HG].
  - wp_run. by eapply good_ext; [..|exact HG].
  - revert p Hf HG. intros p _. revert p. apply player_keeps_bind; [by apply keeps_event|]. intros _.
    destruct filter; [|apply player_keeps_ret]. apply player_keeps_bind; [apply player_keeps_gets|].
    intros []; try apply player_keeps_ret; destruct (is_explicit _); try apply player_keeps_ret; by apply keeps_event.
Qed.

Definition safe {A} (m : P A) : Prop := always X (Good X) m.

Lemma safe_event e : event_view e = None -> safe (send_event e).
Proof.
  intros He p HG. pose proof (good_event e p He HG) as H. unfold wp in *.
  unfold send_event, modify in *. by split.
Qed.

Lemma safe_update_loaded f : safe (update_loaded f).
Proof. intros p HG. apply wp_modify. split; [done|]. by apply good_update_loaded. Qed.

Lemma safe_handle_pause : safe handle_pause.
Proof using Hstop. intros p HG. wp_use handle_pause_spec. intros r p' _ (-> & _ & H). auto. Qed.

Lemma safe_poll_loading : safe poll_loading.
Proof using Hstop.
  intros p HG. unfold poll_loading. wp_run. destruct (ps p) eqn:Hs; try by wp_run.
  destruct (is_terminated loader); [by wp_run|]. destruct (loader_poll loader) as [r ld]. wp_run.
  assert (HG' : Good X (set_ps (PsLoading track_id play_request_id start_playback ld) p)).
  { by apply good_set_ps; rewrite ?Hs. }
  destruct r as [|[l|]]; [by wp_run| |by apply safe_event].
  wp_run. wp_use start_playback_spec. intros r p1 _ (-> & HG1 & Hp). wp_run. by destruct (ps p1).
Qed.

Lemma safe_poll_preload : safe poll_preload.
Proof.
  intros p HG. unfold poll_preload. wp_run. destruct (preload p) eqn:Hs; try by wp_run.
  destruct (loader_poll loader) as [r ld]. wp_run.
  assert (HG' : forall x, Good X (set_preload x p)) by (intros x; by eapply good_ext; [..|exact HG]).
  destruct r as [|[l|]]; [by wp_run|..]; wp_run.
  - wp_use safe_event; [|done|done]. by intros [?|?|] p1 _ [? HG1].
  - assert (HG'' : Good X (set_preload PrNone (set_preload (PrLoading track_id ld) p))) by (by eapply good_ext; [..|exact HG]).
    simpl. destruct (ps p) eqn:Hps; try (by wp_run); by apply safe_event.
Qed.

Lemma safe_report_position a rep e n sk : safe (report_position a rep e n sk).
Proof.
  unfold report_position. apply always_bind.
  { intros p HG. unfold now. wp_run. split; [done|]. destruct (read_clock _). by eapply good_ext; [..|exact HG]. }
  intros t. apply always_bind.
  { destruct (notify_about_position _ _ _ _ _); [|apply always_ret]. apply always_bind; [|intros _; by apply safe_event].
    intros p HG. wp_run. split; [done|]. destruct (ps p) eqn:Hs; try done. by apply good_set_ps; rewrite ?Hs. }
  intros _. apply always_bind; [apply always_gets|]. intros [i|]; [|apply always_ret].
  apply always_bind; [apply always_gets|]. intros last. destruct (i <? _); [|apply always_ret].
  apply always_bind; [|intros _; by apply safe_event].
  intros p HG. wp_run. split; [done|]. by eapply good_ext; [..|exact HG].
Qed.

Lemma safe_handle_packet pkt f : safe (handle_packet (Some pkt) f).
Proof using Hstop.
  destruct pkt as [pos pkt]. simpl. destruct (packet_is_empty pkt); [apply always_ret|].
  apply always_bind.
  { destruct pkt; [|apply always_ret]. intros p HG. wp_run. split; [done|].
    destruct (amplify _ _ _). by eapply good_ext; [..|exact HG]. }
  intros q. apply always_bind; [|intros []; [apply always_ret|apply safe_handle_pause]].
  intros p HG. unfold on_sink. wp_run. split; [done|]. destruct (sink_write _ _). by eapply good_ext; [..|exact HG].
Qed.

Lemma ensure_sink_running_playing p a t :
  Good X p -> ps p = PsPlaying a t ->
  wp X ensure_sink_running (fun r p' => is_ok r /\ Good X p' /\ (ps p' = PsPlaying a t \/ X)) p.
Proof using Hstop Hstart.
  intros HG Hs. unfold ensure_sink_running. wp_run. case_decide; [wp_run; auto|].
  unfold callback, on_sink. wp_run. simpl. pose proof (Hstart (sink p)) as HX.
  destruct (sink_start (sink p)) as [[] s]; simpl.
  - wp_run. destruct HG as (H1 & H2 & H3). split_and!; [done| |by left].
    split_and!; [done|done|simpl; by rewrite Hs].
  - wp_use handle_pause_spec. simpl. intros r p' _ (-> & Hp & HG'). split_and!; [done| |right; by apply HX].
    apply HG'. by eapply good_ext; [..|exact HG].
Qed.

Lemma safe_end_of_track a t f p :
  ps p = PsPlaying a t -> Good X p -> wp X (handle_packet None f) (fun r p' => is_ok r /\ Good X p') p.
Proof.
  intros Hs HG. simpl. unfold playing_to_end_of_track. wp_run. simpl. rewrite Hs. wp_run. simpl.
  wp_use safe_event; [|done|]; [done|].
  destruct HG as (H1 & H2 & H3). split_and!; simpl; [done| |done].
  intros v [= <-]. apply H2. by rewrite Hs.
Qed.

Lemma play_packet_spec p a t : Good X p -> ps p = PsPlaying a t -> wp X play_packet (fun r p' => is_ok r /\ Good X p') p.
Proof using Hstop Hstart.
  intros HG Hs. unfold play_packet. wp_run. wp_use ensure_sink_running_playing; [|done..].
  intros [?|?|] p1 _ (? & HG1 & Hs1); try done. wp_run.
  assert (Hstopped : (forall a t, ps p1 <> PsPlaying a t) -> X).
  { intros Hn. destruct Hs1 as [Hs1|HX]; [by destruct (Hn a t)|done]. }
  clear Hs1. destruct (ps p1) eqn:Hs1; try (wp_run; by apply Hstopped). clear Hstopped.
  destruct (next_packet _) as [r d]. apply wp_bind, wp_modify. simpl.
  pose proof (good_update_loaded (set_decoder d) p1 HG1) as HG2. rewrite Hs1 in HG2 |- *. simpl in HG2 |- *.
  destruct r as [e|[[pos pkt]|]]; [by apply safe_event| |by eapply safe_end_of_track].
  revert HG2. apply (always_bind _ _ _ (fun _ => handle_packet _ _)); [|intros _; apply safe_handle_packet].
  apply always_bind; [apply safe_update_loaded|]. intros _. destruct (passthrough _); [apply always_ret|].
  destruct pkt; [apply safe_report_position|by apply safe_event].
Qed.

Lemma safe_suggest_preload : safe suggest_preload.
Proof.
  unfold suggest_preload. intros p HG. wp_run.
  assert (Hm : forall a, wp X (_ ← modify (fun p => set_ps (update_active set_suggested (ps p)) p);
      send_event (TimeToPreloadNextTrack (a_request_id a) (a_track_id a))) (fun r p' => is_ok r /\ Good X p') p).
  { intros a. wp_run. apply safe_event; [done|]. by apply good_set_ps; [done|destruct (ps p)..]. }
  destruct (ps p); try (by wp_run); destruct (_ && _); [apply Hm|by wp_run|apply Hm|by wp_run].
Qed.

Lemma is_playing_spec p :
  Good X p -> wp X is_playing (fun r p' => p' = p /\ match r with
    | Ok true => exists a t, ps p = PsPlaying a t | Ok false => True | _ => False end) p.
Proof. intros HG. unfold is_playing. wp_run. destruct (ps p) eqn:Hs; wp_run; eauto. by apply HG. Qed.

Lemma round_good cmd p :
  fresh_sender cmd p -> Good X p -> wp X (round cmd) (fun r p' => is_ok r /\ Good X p') p.
Proof using Hstop Hstart Hseek.
  intros Hf HG. unfold round. wp_step.
  set (m := match cmd with Some _ => _ | None => _ end).
  assert (Hm : wp X m (fun r p' => is_ok r /\ Good X p') p).
  { unfold m. destruct cmd; [|by wp_run]. wp_run. wp_use handle_command_good; [|done..]. by intros r p' _ ?. }
  wp_use Hm. intros [[]|?|] p1 _ [? HG1]; try done. revert p1 HG1.
  apply always_bind; [apply safe_poll_loading|]. intros _. apply always_bind; [apply safe_poll_preload|]. intros _ p2 HG2.
  wp_run. wp_use is_playing_spec; [|done]. intros [pl|?|] p3 _ [-> Hpl]; try done. wp_step.
  assert (Hpp : wp X (if pl then play_packet else mret tt) (fun r p' => is_ok r /\ Good X p') p2).
  { destruct pl; [|by wp_run]. destruct Hpl as (a & t & Hs). by eapply play_packet_spec. }
  wp_use Hpp. intros [?|?|] p4 _ [? HG4]; try done. revert p4 HG4. apply always_bind; [apply safe_suggest_preload|].
  intros _ p5 HG5. wp_run. wp_use is_playing_spec; [|done]. intros [?|?|] p6 _ [-> ?]; try done.
Qed.

End good.

(** ** Runs of the player *)

(** A round of the loop, a new event channel, and a listener that goes away. *)
Inductive step : PlayerInternal -> PlayerInternal -> Prop :=
| step_round cmd p b p' : fresh_sender cmd p -> round cmd p = (Ok b, p') -> step p p'
| step_channel h p : inboxes p !! h = None -> h ∉ event_senders p -> step p (set_inboxes (<[h := []]> (inboxes p)) p)
| step_drop h p : step p (set_inboxes (delete h (inboxes p)) p).

Definition reachable (p : PlayerInternal) : Prop :=
  exists cfg s d c, rtc step (player_new cfg s d c) p.

(** The sink starts and stops, and decoders seek. *)
Definition reliable : Prop :=
  (forall s, (sink_start s).1 = true) /\ (forall s, (sink_stop s).1 = true) /\
  (forall pos d, exists new, (decoder_seek pos d).1 = inr new).

Lemma new_good X cfg s d c : Good X (player_new cfg s d c).
Proof.
  unfold player_new. destruct (read_clock c) as [t c']. split_and!; simpl; [done| |done].
  intros v _ h q Hh. by apply not_elem_of_nil in Hh.
Qed.

Lemma step_good (X : Prop) p p' :
  (~ X -> reliable) -> X \/ ~ X -> step p p' -> Good X p -> Good X p'.
Proof.
  intros HX Hdec Hst HG. destruct Hst as [cmd p b p' Hf Hr|h p Hn Hs|h p].
  - assert (H : wp X (round cmd) (fun r p' => is_ok r /\ Good X p') p).
    { destruct Hdec as [HX'|HX']; [by apply round_good|]. destruct (HX HX') as (H1 & H2 & H3).
      apply round_good; [| | |done|done].
      - intros s. by rewrite H2.
      - intros s. by rewrite H1.
      - intros pos d e. by destruct (H3 pos d) as [n ->]. }
    unfold wp in H. rewrite Hr in H. by apply H.
  - destruct HG as (H1 & H2 & H3). split_and!; simpl; [done| |done]. intros v Hv h' q Hh' Hq. simpl in *.
    rewrite lookup_insert_ne in Hq by (by intros <-). by apply (H2 v Hv h' q).
  - destruct HG as (H1 & H2 & H3). split_and!; simpl; [done| |done]. intros v Hv h' q Hh' Hq. simpl in *.
    apply lookup_delete_Some in Hq as [_ Hq]. by apply (H2 v Hv h' q).
Qed.

Lemma reachable_good (X : Prop) p : (~ X -> reliable) -> X \/ ~ X -> reachable p -> Good X p.
Proof.
  intros HX Hdec (cfg & s & d & c & Hr). assert (HG := new_good X cfg s d c).
  revert HG. induction Hr as [|p q r Hpq Hqr IH]; [done|]. intros HG. apply IH. by eapply step_good.
Qed.

Lemma reachable_good_any p : reachable p -> Good True p.
Proof. apply reachable_good; [intros H; by destruct H|by left]. Qed.

(** C14: While sinks start and stop and decoders seek, the player never ends the program and its state is
    never [Invalid]: from every reachable state a round with any command completes. *)
Theorem player_never_exits p cmd :
  reliable -> reachable p -> fresh_sender cmd p ->
  ps p <> PsInvalid /\ exists b p', round cmd p = (Ok b, p').
Proof.
  intros HR Hp Hf. assert (HG : Good False p) by (apply reachable_good; auto).
  split; [by destruct HG as (HI & _); intros Hs; apply HI|]. destruct HR as (H1 & H2 & H3).
  assert (H : wp False (round cmd) (fun r p' => is_ok r /\ Good False p') p).
  { apply round_good; [| | |done|done].
    - intros s. by rewrite H2.
    - intros s. by rewrite H1.
    - intros pos d e. by destruct (H3 pos d) as [n ->]. }
  unfold wp in H. destruct (round cmd p) as [[b|e|] p']; [eauto|by destruct H|done].
Qed.

(** C15: What listeners were told is the state of the player, whatever fails: in every reachable state
    the last of the events Loading, Playing, Paused and Stopped that a listener received names the
    state, the track and the play request of the player (a track that ended counts as playing). *)
Theorem listeners_know_state p v h q :
  reachable p -> state_view (ps p) = Some v -> h ∈ event_senders p -> inboxes p !! h = Some q ->
  last_view q = None \/ last_view q = Some v.
Proof.
  intros Hp Hv Hh Hq. assert (HG : Good True p) by (by apply reachable_good_any). destruct HG as (_ & H & _).
  by apply (H v Hv h q).
Qed.

(** The sink is released while the player is paused or stopped. *)
Theorem quiet_player_releases_sink p :
  reachable p -> quiet (ps p) -> sink_status p <> Running.
Proof. intros Hp Hq. assert (HG : Good True p) by (by apply reachable_good_any). by apply HG. Qed.

End spec.
