(* ===== verification/Playback.v ===== *)
(** * Playing, preloading and repeating tracks ([native/librespot/playback/src/player.rs])

    A track that plays goes to the sink packet by packet and ends; a preloaded track starts at once;
    the failures that end the program. *)
From S2P Require Import Prelude Packet SpotifyUri Effect Player PlayerSpec.

Section playback.
Context {B : Backend} {L : Loaders}.

(** ** A whole track *)

(** What a decoder returns up to the end of its track, and the decoder then. *)
Inductive decodes : Decoder -> list (AudioPacketPosition * AudioPacket Sample) -> Decoder -> Prop :=
| decodes_end d d' : next_packet d = (inr None, d') -> decodes d [] d'
| decodes_more d d1 d' x l : next_packet d = (inr (Some x), d1) -> decodes d1 l d' -> decodes d (x :: l) d'.

(** The sink after it was given the packets: empty ones are left out and samples are amplified. *)
Fixpoint rendered (f : Factor) (l : list (AudioPacketPosition * AudioPacket Sample)) (ds : Dsp) (s : Sink) : Dsp * Sink :=
  match l with
  | [] => (ds, s)
  | (_, p) :: l =>
      if packet_is_empty p then rendered f l ds s
      else match p with
           | Samples data => let '(data, ds) := amplify f data ds in rendered f l ds (sink_write (Samples data) s).2
           | Raw data => rendered f l ds (sink_write (Raw data) s).2
           end
  end.

(** The loop with no command, [n] times. *)
Fixpoint rounds (n : nat) : P unit :=
  match n with
  | O => mret tt
  | S n => _ ← round None; rounds n
  end.

(** The player plays a track, with a decoder and a sink. *)
Definition Plays (t : SpotifyUri) (id : Z) (f : Factor) (d : Decoder) (ds : Dsp) (s : Sink) (p : PlayerInternal) : Prop :=
  (exists a r, ps p = PsPlaying a r /\ a_track_id a = t /\ a_request_id a = id /\ a_factor a = f /\
     decoder (a_loaded a) = d) /\
  dsp p = ds /\ sink p = s /\ sink_status p = Running.

Definition Ended (t : SpotifyUri) (id : Z) (d : Decoder) (ds : Dsp) (s : Sink) (p : PlayerInternal) : Prop :=
  (exists l, ps p = PsEndOfTrack t id l /\ decoder l = d) /\ dsp p = ds /\ sink p = s.

Lemma plays_ext t id f d ds s p p' :
  ps p' = ps p -> dsp p' = dsp p -> sink p' = sink p -> sink_status p' = sink_status p ->
  Plays t id f d ds s p -> Plays t id f d ds s p'.
Proof. unfold Plays. by intros -> -> -> ->. Qed.

Lemma ended_ext t id d ds s p p' :
  ps p' = ps p -> dsp p' = dsp p -> sink p' = sink p -> Ended t id d ds s p -> Ended t id d ds s p'.
Proof. unfold Ended. by intros -> -> ->. Qed.

Lemma send_event_any e p X (I : PlayerInternal -> Prop) :
  (forall p', ps p' = ps p -> dsp p' = dsp p -> sink p' = sink p -> sink_status p' = sink_status p -> I p') ->
  wp X (send_event e) (fun r p' => is_ok r /\ I p') p.
Proof. intros HI. apply send_event_spec. intros. split; [done|]. by apply HI. Qed.

Section keeping.
Variables (t : SpotifyUri) (id : Z) (f : Factor) (d : Decoder) (ds : Dsp) (s : Sink).

Lemma plays_event e : always False (Plays t id f d ds s) (send_event e).
Proof. intros p HI. apply send_event_any. intros. by eapply plays_ext. Qed.

Lemma plays_now : always False (Plays t id f d ds s) now.
Proof. apply always_state. intros p HI. by destruct (read_clock _). Qed.

Lemma plays_modify_ps (g : PlayerState -> PlayerState) p :
  (forall a r, exists a' r', g (PsPlaying a r) = PsPlaying a' r' /\ a_track_id a' = a_track_id a /\
     a_request_id a' = a_request_id a /\ a_factor a' = a_factor a /\ decoder (a_loaded a') = decoder (a_loaded a)) ->
  Plays t id f d ds s p -> Plays t id f d ds s (set_ps (g (ps p)) p).
Proof.
  intros Hg ((a & r & Hs & <- & <- & <- & <-) & H). split; [|done]. simpl. rewrite Hs.
  destruct (Hg a r) as (a' & r' & ? & ? & ? & ? & ?). by exists a', r'.
Qed.

Lemma plays_poll_loading : always False (Plays t id f d ds s) poll_loading.
Proof. intros p HI. assert (H := HI). destruct H as ((a & r & Hs & _) & _). unfold poll_loading. wp_run. rewrite Hs. by wp_run. Qed.

Lemma plays_poll_preload : always False (Plays t id f d ds s) poll_preload.
Proof.
  apply always_bind; [apply always_gets|]. intros [|u ld|]; try apply always_ret.
  destruct (loader_poll ld) as [r ld']. apply always_bind; [by apply always_modify|]. intros _.
  destruct r as [|[l|]]; [apply always_ret| |].
  - apply always_bind; [apply plays_event|]. intros _. by apply always_modify.
  - apply always_bind; [by apply always_modify|]. intros _. apply always_bind; [apply always_gets|].
    intros []; try apply always_ret; apply plays_event.
Qed.

Lemma plays_report_position a rep e n sk : always False (Plays t id f d ds s) (report_position a rep e n sk).
Proof.
  apply always_bind; [apply plays_now|]. intros tm. apply always_bind.
  { destruct (notify_about_position _ _ _ _ _); [|apply always_ret]. apply always_bind; [|intros _; apply plays_event].
    apply always_modify. intros p HI. assert (H := HI). destruct H as ((a' & r & Hs & _) & _). rewrite Hs.
    pose proof (plays_modify_ps (fun s => match s with PsPlaying a _ => PsPlaying a (instant_checked_sub tm n) | s => s end) p) as H.
    rewrite Hs in H. apply H; [|done]. intros b r'. by exists b, (instant_checked_sub tm n). }
  intros _. apply always_bind; [apply always_gets|]. intros [i|]; [|apply always_ret].
  apply always_bind; [apply always_gets|]. intros last. destruct (i <? _); [|apply always_ret].
  apply always_bind; [by apply always_modify|]. intros _. apply plays_event.
Qed.

Lemma plays_update_loaded g :
  (forall l, decoder (g l) = decoder l) -> always False (Plays t id f d ds s) (update_loaded g).
Proof.
  intros Hg. apply always_modify. intros p HI.
  apply (plays_modify_ps (update_active (fun a => set_loaded (g (a_loaded a)) a))); [|done].
  intros a r. exists (set_loaded (g (a_loaded a)) a), r. split_and!; [done..|]. apply Hg.
Qed.

Lemma plays_suggest_preload : always False (Plays t id f d ds s) suggest_preload.
Proof.
  apply always_bind; [apply always_gets|]. intros s0.
  assert (Hm : forall a, always False (Plays t id f d ds s)
    (_ ← modify (fun p => set_ps (update_active set_suggested (ps p)) p);
     send_event (TimeToPreloadNextTrack (a_request_id a) (a_track_id a)))).
  { intros a. apply always_bind; [|intros _; apply plays_event]. apply always_modify. intros p HI.
    apply (plays_modify_ps (update_active set_suggested)); [|done]. intros b r. by exists (set_suggested b), r. }
  destruct s0; simpl; try apply always_ret; case_match; try apply always_ret; apply Hm.
Qed.

Lemma ended_suggest_preload : always False (Ended t id d ds s) suggest_preload.
Proof.
  intros p HI. assert (H := HI). destruct H as ((l & Hs & _) & _).
  unfold suggest_preload. wp_run. rewrite Hs. by wp_run.
Qed.

End keeping.

(** Sinks that accept what they are given. *)
Section track.
Context (Good : Sink -> Prop).
Context (Hwrite : forall x s, Good s -> (sink_write x s).1 = true /\ Good (sink_write x s).2).

Lemma handle_packet_plays t id f d ds s x :
  Good s -> forall p, Plays t id f d ds s p ->
  wp False (handle_packet (Some x) f) (fun r p' => is_ok r /\
    Plays t id f d (rendered f [x] ds s).1 (rendered f [x] ds s).2 p') p.
Proof using Hwrite.
  intros HG p (Hp & <- & <- & Hrun). destruct x as [pos x]. simpl. destruct (packet_is_empty x); [by wp_run|].
  destruct x as [data|data]; unfold on_sink; wp_run; simpl.
  - destruct (amplify f data (dsp p)) as [data' ds']; simpl. destruct (Hwrite (Samples data') (sink p) HG) as [Hok _].
    destruct (sink_write _ _) as [ok s']; simpl in *. subst ok. by wp_run.
  - destruct (Hwrite (Raw data) (sink p) HG) as [Hok _].
    destruct (sink_write _ _) as [ok s']; simpl in *. subst ok. by wp_run.
Qed.

Lemma rendered_cons f x l ds s :
  rendered f (x :: l) ds s = rendered f l (rendered f [x] ds s).1 (rendered f [x] ds s).2.
Proof.
  destruct x as [pos x]. simpl. destruct (packet_is_empty x); [done|]. destruct x; [|done].
  by destruct (amplify _ _ _).
Qed.

Lemma rendered_good f x ds s : Good s -> Good (rendered f [x] ds s).2.
Proof using Hwrite.
  intros HG. destruct x as [pos x]. simpl. destruct (packet_is_empty x); [done|]. destruct x as [data|data]; simpl.
  - destruct (amplify _ _ _). by apply Hwrite.
  - by apply Hwrite.
Qed.

Lemma ensure_sink_running_plays t id f d ds s : always False (Plays t id f d ds s) ensure_sink_running.
Proof.
  intros p HI. unfold ensure_sink_running. wp_run. destruct HI as (? & ? & ? & Hr). rewrite Hr. by wp_run.
Qed.

Lemma update_decoder_plays t id f d d' ds s p :
  Plays t id f d ds s p -> wp False (update_loaded (set_decoder d')) (fun r p' => is_ok r /\ Plays t id f d' ds s p') p.
Proof.
  intros ((a & r & Hs & <- & <- & <- & _) & H). unfold update_loaded. wp_run. split; [done|]. split; [|done].
  simpl. rewrite Hs. simpl. by eexists _, _.
Qed.

Lemma play_packet_more t id f d d' ds s x p :
  Good s -> next_packet d = (inr (Some x), d') -> Plays t id f d ds s p ->
  wp False play_packet (fun r p' => is_ok r /\ Plays t id f d' (rendered f [x] ds s).1 (rendered f [x] ds s).2 p') p.
Proof using Hwrite.
  intros HG Hn HI. unfold play_packet. wp_step. wp_use ensure_sink_running_plays; [|done].
  intros [[]|?|] p1 _ [? HI1]; try done. wp_run. assert (HP := HI1). destruct HP as ((a & r & Hs & _ & _ & <- & <-) & _).
  rewrite Hs, Hn. wp_step. wp_use update_decoder_plays; [|done]. intros [[]|?|] p2 _ [? HI2]; try done. destruct x as [pos x].
  wp_step. eapply wp_mono; [|apply (always_bind False (Plays t id (a_factor a) d' ds s))]; [| | |done].
  - intros [[]|?|] p3 _ [? HI3]; try done. by apply handle_packet_plays.
  - by apply plays_update_loaded.
  - intros _. destruct (passthrough _); [apply always_ret|]. destruct x; [apply plays_report_position|apply plays_event].
Qed.

Lemma play_packet_end t id f d d' ds s p :
  next_packet d = (inr None, d') -> Plays t id f d ds s p ->
  wp False play_packet (fun r p' => is_ok r /\ Ended t id d' ds s p') p.
Proof.
  intros Hn HI. unfold play_packet. wp_step. wp_use ensure_sink_running_plays; [|done].
  intros [[]|?|] p1 _ [? HI1]; try done. wp_run. assert (HP := HI1). destruct HP as ((a & r & Hs & _ & _ & <- & <-) & _).
  rewrite Hs, Hn. wp_step. wp_use update_decoder_plays; [|done].
  intros [[]|?|] p2 _ [? ((a2 & r2 & Hs2 & <- & <- & _ & <-) & <- & <- & _)]; try done. wp_run.
  unfold handle_packet, playing_to_end_of_track. wp_run. simpl. rewrite Hs2. wp_run. simpl.
  apply send_event_any. intros p3 E1 E2 E3 _. split_and!; [|done..]. rewrite E1. by eexists.
Qed.

Lemma is_playing_plays t id f d ds s p :
  Plays t id f d ds s p -> wp False is_playing (fun r p' => r = Ok true /\ p' = p) p.
Proof. intros ((a & r & Hs & _) & _). unfold is_playing. wp_run. rewrite Hs. by wp_run. Qed.

(** A round in which one packet is played, or none is left. *)
Lemma round_playing t id f d ds s (Post : PlayerInternal -> Prop) p :
  Plays t id f d ds s p ->
  (forall p1, Plays t id f d ds s p1 -> wp False play_packet (fun r p' => is_ok r /\ Post p') p1) ->
  always False Post suggest_preload -> (forall p, Post p -> ps p <> PsInvalid) ->
  wp False (round None) (fun r p' => is_ok r /\ Post p') p.
Proof.
  intros HI Hplay Hsug HPost. unfold round. wp_run. wp_use plays_poll_loading; [|done].
  intros [[]|?|] p1 _ [? HI1]; try done. wp_run. wp_use plays_poll_preload; [|done].
  intros [[]|?|] p2 _ [? HI2]; try done. wp_run. wp_use is_playing_plays; [|done].
  intros r p3 _ [-> ->]. wp_run. wp_use Hplay; [|done]. intros [[]|?|] p4 _ [? HI4]; try done.
  wp_run. wp_use Hsug; [|done]. intros [[]|?|] p5 _ [? HI5]; try done. wp_run.
  unfold is_playing. wp_run. specialize (HPost p5 HI5). by destruct (ps p5) eqn:Hs; wp_run.
Qed.

Lemma rounds_play_track t id f l : forall d d' ds s p,
  Good s -> decodes d l d' -> Plays t id f d ds s p ->
  wp False (rounds (S (length l)))
    (fun r p' => is_ok r /\ Ended t id d' (rendered f l ds s).1 (rendered f l ds s).2 p') p.
Proof using Hwrite.
  induction l as [|x l IH]; intros d d' ds s p HG Hd HI; inversion Hd as [? ? Hn|? d1 ? ? ? Hn Hd']; subst.
  - simpl. wp_step. wp_use (round_playing t id f d ds s (Ended t id d' ds s)); [|done|..].
    + intros [b|?|] p1 _ [? HI1]; done.
    + intros p1 HI1. by eapply play_packet_end.
    + apply ended_suggest_preload.
    + intros p1 ((l & -> & _) & _). done.
  - change (rounds (S (length (x :: l)))) with (_ ← round None; rounds (S (length l))). wp_step.
    wp_use (round_playing t id f d ds s (Plays t id f d1 (rendered f [x] ds s).1 (rendered f [x] ds s).2)); [|done|..].
    + intros [b|?|] p1 _ [? HI1]; try done. rewrite rendered_cons. eapply IH; [by apply rendered_good|done..].
    + intros p1 HI1. by eapply play_packet_more.
    + apply plays_suggest_preload.
    + intros p1 ((a & r & -> & _) & _). done.
Qed.

End track.

(** C16: A track is played to its end: with a running sink that accepts packets and no command, a player
    in the playing state gives the sink exactly the decoder's non-empty packets in order, samples
    amplified, and one round later it is at the end of the track, with the track and play request kept. *)
Theorem track_plays_to_end p a r l d' :
  ps p = PsPlaying a r -> sink_status p = Running -> (forall x s, (sink_write x s).1 = true) ->
  decodes (decoder (a_loaded a)) l d' ->
  exists p' loaded,
    rounds (S (length l)) p = (Ok tt, p') /\
    ps p' = PsEndOfTrack (a_track_id a) (a_request_id a) loaded /\ decoder loaded = d' /\
    (dsp p', sink p') = rendered (a_factor a) l (dsp p) (sink p).
Proof.
  intros Hs Hr Hw Hd.
  assert (H : wp False (rounds (S (length l))) (fun r p' => is_ok r /\ Ended (a_track_id a) (a_request_id a) d'
      (rendered (a_factor a) l (dsp p) (sink p)).1 (rendered (a_factor a) l (dsp p) (sink p)).2 p') p).
  { eapply (rounds_play_track (fun _ => True)); [by intros; split|done|done|]. split_and!; [|done..]. by exists a, r. }
  unfold wp in H. destruct (rounds _ p) as [[[]|?|] p']; [|by destruct H|done].
  destruct H as (_ & (loaded & Hps & Hdec) & Hds & Hsk). exists p', loaded.
  split_and!; [done..|]. rewrite Hds, Hsk. by destruct (rendered _ _ _ _).
Qed.

(** ** Preloaded tracks *)

Lemma start_playback_exact t id l b p :
  (forall s, (sink_stop s).1 = true) ->
  wp False (start_playback t id l b) (fun r p' => r = Ok tt /\ preload p' = preload p /\
    exists a, a_track_id a = t /\ a_loaded a = l /\ a_request_id a = id /\
      (if b then exists rt, ps p' = PsPlaying a rt else ps p' = PsPaused a)) p.
Proof.
  intros Hstop. assert (HX : forall s, (sink_stop s).1 = false -> False) by (intros s; by rewrite Hstop).
  unfold start_playback. wp_run. apply send_event_spec. intros p1 _ _ E1 _ _ _ _ _. wp_run. destruct b; wp_run.
  - wp_use ensure_sink_running_spec; [|done]. intros r p2 _ (-> & E2 & _). wp_run.
    apply send_event_spec. intros p3 _ _ E3 _ _ _ _ _. wp_run. unfold now. wp_run.
    destruct (read_clock (clock p3)) as [c ck]; simpl. split_and!; [done|by rewrite E3, E2|].
    refine (ex_intro _ (mkActive _ _ _ _ _) _). simpl. split_and!; [done..|by eexists].
  - apply ensure_sink_stopped_spec; [done|]. intros p2 _ _ _ E2 _ _. wp_run.
    apply send_event_spec. intros p3 E3 _ E4 _ _ _ _ _. simpl in *. split_and!; [done|by rewrite E4, E2|].
    rewrite E3. refine (ex_intro _ (mkActive _ _ _ _ _) _). simpl. by split_and!.
Qed.

(** A preloaded track starts at once: loading the track whose preload is complete, at the position
    the preload is at, while another track plays, is paused, ended or loads or there is none, makes the
    player play (or hold) exactly the preloaded data, with no new loader, and uses up the preload. *)
Theorem preloaded_track_starts p t l play :
  (forall s, (sink_stop s).1 = true) ->
  preload p = PrReady t l -> ps p <> PsInvalid ->
  match ps p with PsEndOfTrack u _ _ => u <> t | s => current_track s <> Some t end ->
  exists p' a, handle_command_load t None play (stream_position_ms l) p = (Ok tt, p') /\
    a_track_id a = t /\ a_loaded a = l /\ a_request_id a = play_request_id_generator p /\ preload p' = PrNone /\
    (if play then exists r, ps p' = PsPlaying a r else ps p' = PsPaused a).
Proof.
  intros Hstop Hpre Hinv Hother.
  assert (H : wp False (handle_command_load t None play (stream_position_ms l)) (fun r p' => r = Ok tt /\ preload p' = PrNone /\
    exists a, a_track_id a = t /\ a_loaded a = l /\ a_request_id a = play_request_id_generator p /\
      (if play then exists rt, ps p' = PsPlaying a rt else ps p' = PsPaused a)) p).
  { unfold handle_command_load, next_request_id. wp_run. simpl. apply send_event_spec. simpl.
    intros p1 E1 _ E2 _ _ _ _ _. wp_run. set (m := if negb _ then _ else _).
    assert (Hm : wp False m (fun r p' => r = Ok tt /\ ps p' = ps p /\ preload p' = preload p) p1).
    { unfold m. destruct (negb _); [|by wp_run]. apply ensure_sink_stopped_spec; [intros s; by rewrite Hstop|].
      intros p2 F1 _ _ F2 _ _. by rewrite F1, F2. }
    wp_use Hm. intros r p2 _ (-> & E3 & E4). clear Hm m. wp_run. rewrite E3, E4, Hpre.
    set (elsewhere := if decide (t = t) then _ else _).
    assert (He : elsewhere = load_preloaded t (play_request_id_generator p) play (stream_position_ms l) l).
    { unfold elsewhere. by destruct (decide (t = t)). }
    assert (Hl : wp False elsewhere (fun r p' => r = Ok tt /\ preload p' = PrNone /\
      exists a, a_track_id a = t /\ a_loaded a = l /\ a_request_id a = play_request_id_generator p /\
        (if play then exists rt, ps p' = PsPlaying a rt else ps p' = PsPaused a)) p2).
    { rewrite He. unfold load_preloaded. wp_run. unfold seek_if_moved. rewrite Z.eqb_refl. wp_run.
      wp_use start_playback_exact; [|done]. by intros r p3 _ (-> & ? & ?). }
    clearbody elsewhere. destruct (ps p); simpl in *; try done; (destruct (decide _); [by subst|done]). }
  unfold wp in H. destruct (handle_command_load _ _ _ _ p) as [[[]|?|] p']; [|by destruct H|done].
  destruct H as (_ & Hn & a & Ht & Hl & Hi & Hb). by exists p', a.
Qed.

(** ** Failures that end the program *)

Lemma wp_panic {S E A} (m : eff S E A) s : wp True m (fun _ _ => False) s -> (m s).1 = Panic.
Proof. unfold wp. by destruct (m s) as [[?|?|] ?]. Qed.

Lemma any_event e p (Q : PlayerInternal -> Prop) :
  (forall p', ps p' = ps p -> Q p') -> wp True (send_event e) (fun r p' => is_ok r /\ Q p') p.
Proof. intros HQ. apply send_event_spec. intros. split; [done|]. by apply HQ. Qed.

Lemma invalid_poll_preload : always True (fun p => ps p = PsInvalid) poll_preload.
Proof.
  assert (Hev : forall e, always True (fun p => ps p = PsInvalid) (send_event e)).
  { intros e p Hp. apply any_event. intros p' ->. done. }
  apply always_bind; [apply always_gets|]. intros [|u ld|]; try apply always_ret.
  destruct (loader_poll ld) as [r ld']. apply always_bind; [by apply always_modify|]. intros _.
  destruct r as [|[l|]]; [apply always_ret| |].
  - apply always_bind; [apply Hev|]. intros _. by apply always_modify.
  - apply always_bind; [by apply always_modify|]. intros _. apply always_bind; [apply always_gets|].
    intros []; try apply always_ret; apply Hev.
Qed.

(** Repeating a track ends the program when its decoder cannot seek: the load takes the data out of
    the end-of-track state, the seek error returns early and leaves the state [Invalid], and the same
    round of the loop exits. *)
Theorem failed_repeat_exits p t id l play pos e :
  ps p = PsEndOfTrack t id l -> pos <> stream_position_ms l -> (decoder_seek pos (decoder l)).1 = inl e ->
  (round (Some (CmdLoad t play pos)) p).1 = Panic.
Proof.
  intros Hs Hpos Hseek. apply wp_panic. unfold round. wp_run. simpl. unfold handle_command_load, next_request_id.
  wp_run. simpl. apply send_event_spec. simpl. intros p1 E1 _ _ _ _ _ _ _. wp_run.
  set (m := if negb _ then _ else _).
  assert (Hm : wp True m (fun r p' => r = Ok tt /\ ps p' = ps p) p1).
  { unfold m. destruct (negb _); [|by wp_run]. apply ensure_sink_stopped_spec; [done|]. intros p2 F1 _ _ _ _ _.
    by rewrite F1. }
  wp_use Hm. intros r p2 _ (-> & E2). clear Hm m. wp_run. rewrite E2, Hs. destruct (decide (t = t)); [|done].
  unfold load_repeated. wp_run. unfold seek_if_moved. rewrite (proj2 (Z.eqb_neq _ _) Hpos). unfold seek_loaded.
  destruct (decoder_seek pos (decoder l)) as [res d]. simpl in Hseek. subst res. wp_run.
  unfold poll_loading. wp_run. simpl. wp_run. wp_use invalid_poll_preload; [|done].
  intros [[]|?|] p3 _ [? E3]; try done. unfold is_playing. wp_run. rewrite E3. by wp_run.
Qed.

(** A sink that fails to start while the player plays ends the program: the failure pauses the
    player and the loop, which expects the playing state, exits. *)
Theorem failed_start_exits p a r :
  ps p = PsPlaying a r -> sink_status p <> Running -> (sink_start (sink p)).1 = false -> preload p = PrNone ->
  (round None p).1 = Panic.
Proof.
  intros Hs Hr Hst Hpre. apply wp_panic. unfold round. wp_run. unfold poll_loading. wp_run. rewrite Hs. wp_run.
  unfold poll_preload. wp_run. rewrite Hpre. wp_run. unfold is_playing at 1. wp_run. rewrite Hs. wp_run.
  unfold play_packet, ensure_sink_running. wp_run. destruct (decide _); [done|]. unfold callback, on_sink. wp_run. simpl.
  destruct (sink_start (sink p)) as [ok s]. simpl in Hst. subst ok. simpl. unfold handle_pause. wp_run. simpl. rewrite Hs. wp_run.
  unfold playing_to_paused. wp_run. simpl. rewrite Hs. wp_run. apply ensure_sink_stopped_spec; [done|]. intros p1 E1 _ _ _ _ _.
  wp_run. apply send_event_spec. intros p2 E2 _ _ _ _ _ _ _. wp_run. rewrite E2, E1. by wp_run.
Qed.

End playback.

(** ** Examples *)

(** Decoders of lists of samples, a sink that keeps what was written. *)
Definition toy (start_ok seek_ok : bool) : Backend := {|
  Decoder := list Z;
  Sample := Z;
  next_packet d := match d with [] => (inr None, []) | x :: d => (inr (Some (mkAudioPacketPosition (x * 1000) false, Samples [x])), d) end;
  decoder_seek pos d := (if seek_ok then inr pos else inl "no seek"%string, d);
  Sink := list (AudioPacket Z);
  sink_start s := (start_ok, s);
  sink_stop s := (true, s);
  sink_write x s := (true, s ++ [x]);
  Controller := unit;
  range_to_end_available _ := true;
  fetch_next_and_wait _ _ c := (true, c);
  read_ahead_length b := b * 5;
  AudioItem := unit;
  NormalisationData := unit;
  Factor := Z;
  get_factor album _ := if album then 2 else 1;
  Dsp := unit;
  amplify f l d := (map (Z.mul f) l, d);
  Clock := Z;
  read_clock c := (c, c + 1)
|}.

Definition toy_loaded a b : PlayerLoadedTrackData (H := toy a b) := mkLoaded (toy a b) [1; 2; 3] tt tt tt 40000 3000 0 false.

Definition toy_loaders a b : Loaders (H := toy a b) := {|
  Loader := option (option (PlayerLoadedTrackData (H := toy a b)));
  load_track _ _ := Some (Some (toy_loaded a b));
  is_terminated l := match l with None => true | Some _ => false end;
  loader_poll l := match l with Some r => (Ready r, None) | None => (Pending, None) end
|}.

Definition toy_start (a b : bool) : PlayerInternal (B := toy a b) (L := toy_loaders a b) :=
  player_new (B := toy a b) (L := toy_loaders a b) (mkPlayerConfig true false NAuto None) [] tt 0.

Definition toy_track : SpotifyUri := Track (SpotifyId.mkSpotifyId 7).
Definition toy_other : SpotifyUri := Track (SpotifyId.mkSpotifyId 8).

(** A player with a listener, and the player after the first round of playing a track. *)
Definition toy_channel a b := set_inboxes (<[0%nat := []]> (inboxes (toy_start a b))) (toy_start a b).
Definition toy_listener a b := (round (Some (AddEventSender 0)) (toy_channel a b)).2.
Definition toy_playing a b := (round (Some (CmdLoad toy_track true 0)) (toy_listener a b)).2.

Lemma step_completed {B : Backend} {L : Loaders} cmd p :
  fresh_sender cmd p -> is_ok (round cmd p).1 = true -> step p (round cmd p).2.
Proof. intros Hf Hok. destruct (round cmd p) as [[b|?|] p'] eqn:Hr; [by eapply step_round|done..]. Qed.

Lemma toy_listener_reachable : reachable (toy_listener true true).
Proof.
  exists (mkPlayerConfig true false NAuto None), [], tt, 0.
  apply (rtc_l _ _ (toy_channel true true)); [by apply step_channel; [|apply not_elem_of_nil]|].
  apply rtc_once, step_completed; by vm_compute.
Qed.

Lemma toy_reachable : reachable (toy_playing true true).
Proof.
  destruct toy_listener_reachable as (cfg & s & d & c & Hr). exists cfg, s, d, c.
  eapply rtc_r; [exact Hr|]. apply step_completed; by vm_compute.
Qed.

Lemma player_never_exits_witness :
  exists b p', round (Some (CmdSeek 2000)) (toy_playing true true) = (Ok b, p').
Proof.
  apply (player_never_exits (toy_playing true true) (Some (CmdSeek 2000))).
  - by split_and!; [..|intros pos d; exists pos].
  - apply toy_reachable.
  - exact I.
Defined.

Lemma listeners_know_state_witness :
  let q := default [] (inboxes (toy_playing true true) !! 0%nat) in
  last_view q = None \/ last_view q = Some (VPlaying 0 toy_track).
Proof.
  apply (listeners_know_state (toy_playing true true) (VPlaying 0 toy_track) 0%nat);
    [apply toy_reachable|by vm_compute|apply (bool_decide_unpack _); by vm_compute|by vm_compute].
Defined.

Lemma quiet_player_releases_sink_witness : sink_status (toy_listener true true) <> Running.
Proof.
  apply quiet_player_releases_sink; [apply toy_listener_reachable|by vm_compute].
Defined.

Definition toy_active a b : Active (B := toy a b) :=
  mkActive toy_track 0 (set_position 1000 (set_decoder (B := toy a b) [2; 3] (toy_loaded a b))) 1 true.

Lemma track_plays_to_end_witness :
  exists p' loaded, rounds 3 (toy_playing true true) = (Ok tt, p') /\
    ps p' = PsEndOfTrack toy_track 0 loaded /\
    decoder loaded = [] /\
    (dsp p', sink p') =
      rendered (B := toy true true) 1 [(mkAudioPacketPosition 2000 false, Samples [2]); (mkAudioPacketPosition 3000 false, Samples [3])]
        tt (sink (toy_playing true true)).
Proof.
  apply (track_plays_to_end (toy_playing true true) (toy_active true true) (Some 1)
    [(mkAudioPacketPosition 2000 false, Samples [2]); (mkAudioPacketPosition 3000 false, Samples [3])] []);
    [by vm_compute|by vm_compute|reflexivity|].
  by repeat econstructor.
Defined.

Lemma preloaded_track_starts_witness :
  let p := set_preload (PrReady toy_other (toy_loaded true true)) (toy_playing true true) in
  exists p' a, handle_command_load toy_other None false 0 p = (Ok tt, p') /\
    a_track_id a = toy_other /\ a_loaded a = toy_loaded true true /\ a_request_id a = play_request_id_generator p /\
    preload p' = PrNone /\ ps p' = PsPaused a.
Proof.
  apply (preloaded_track_starts (set_preload (PrReady toy_other (toy_loaded true true)) (toy_playing true true))
    toy_other (toy_loaded true true) false); [reflexivity|reflexivity|by vm_compute|by vm_compute].
Defined.

Definition toy_ended : PlayerInternal := (rounds 3 (toy_playing true false)).2.

Lemma failed_repeat_exits_witness : (round (Some (CmdLoad toy_track true 0)) toy_ended).1 = Panic.
Proof.
  apply (failed_repeat_exits toy_ended toy_track 0
    (set_position 3000 (set_decoder (B := toy true false) [] (toy_loaded true false))) true 0 "no seek");
    [by vm_compute|discriminate|reflexivity].
Defined.

Lemma failed_start_exits_witness :
  (round None (set_ps (PsPlaying (toy_active false true) None) (toy_listener false true))).1 = Panic.
Proof.
  apply (failed_start_exits _ (toy_active false true) None); [reflexivity|by vm_compute|reflexivity|by vm_compute].
Defined.
