(* ===== verification/Events.v ===== *)
(** * Player events for other programs ([native/librespot/src/player_event_handler.rs])

    The handler turns every event of the player into environment variables and runs a program
    with them, one after the other. On the Radio this program is the hook of [Helpers], whose
    files the applet and the bridge read. [describe] is the item behind the player's abstract one. *)
From S2P Require Import Prelude Text OggPage Bridge Helpers SpotifyId SpotifyUri Packet Errors Effect Player PlayerSpec Playback Catalogue.

Definition lines (l : list string) : string := join (str1 newline) l.
Definition show_bool (b : bool) : string := if b then "true" else "false".
(** [i64::to_string] *)
Definition show_signed (z : Z) : string := if z <? 0 then "-" +:+ show_Z (- z) else show_Z z.
(** [OffsetDateTime::unix_timestamp]: whole seconds, rounded down *)
Definition unix_timestamp (d : Z) : Z := d / 1000000000.

Abbreviation env_vars := (gmap string string).

Definition queue_track (t : QueueTrack) : string := qt_uri t +:+ str1 "009" +:+ qt_provider t.

Section handler.
Context {B : Backend} (describe : Player.AudioItem -> Catalogue.AudioItem).

Definition unique_env (u : UniqueFields) : env_vars :=
  match u with
  | UTrack artists album album_artists popularity number disc_number =>
      {[ "ITEM_TYPE" := "Track"; "ARTISTS" := lines (role_name <$> artists); "ALBUM_ARTISTS" := lines album_artists;
         "ALBUM" := album; "POPULARITY" := show_Z popularity; "NUMBER" := show_Z number; "DISC_NUMBER" := show_Z disc_number ]}
  | ULocal artists album album_artists number disc_number path =>
      {[ "ITEM_TYPE" := "Track"; "ARTISTS" := default "" artists; "ALBUM_ARTISTS" := default "" album_artists;
         "ALBUM" := default "" album; "NUMBER" := default "" (show_Z <$> number);
         "DISC_NUMBER" := default "" (show_Z <$> disc_number); "LOCAL_FILE_PATH" := path ]}
  | UEpisode description publish_time show_name =>
      {[ "ITEM_TYPE" := "Episode"; "DESCRIPTION" := description; "PUBLISH_TIME" := show_signed (unix_timestamp publish_time);
         "SHOW_NAME" := show_name ]}
  end.

(** An event about a track *)
Definition track_env (event : string) (track_id : SpotifyUri) : res Error env_vars :=
  id ← text_of (to_id track_id); Ok {[ "PLAYER_EVENT" := event; "TRACK_ID" := id ]}.

Definition position_env (event : string) (track_id : SpotifyUri) (position_ms : Z) : res Error env_vars :=
  env ← track_env event track_id; Ok (<["POSITION_MS" := show_Z position_ms]> env).

Definition event_env (e : PlayerEvent) : res Error env_vars :=
  match e with
  | PlayRequestIdChanged id => Ok {[ "PLAYER_EVENT" := "play_request_id_changed"; "PLAY_REQUEST_ID" := show_Z id ]}
  | TrackChanged audio_item =>
      let item := describe audio_item in
      env ← track_env "track_changed" (track_id item);
      Ok (unique_env (unique_fields item) ∪
          (<["URI" := uri item]> (<["NAME" := name item]> (<["COVERS" := lines (cover_url <$> covers item)]>
           (<["LANGUAGE" := lines (language item)]> (<["DURATION_MS" := show_Z (duration_ms item)]>
           (<["IS_EXPLICIT" := show_bool (is_explicit item)]> env)))))))
  | EvStopped _ t => track_env "stopped" t
  | EvPlaying _ t position => position_env "playing" t position
  | EvPaused _ t position => position_env "paused" t position
  | EvLoading _ t _ => track_env "loading" t
  | Preloading t => track_env "preloading" t
  | TimeToPreloadNextTrack _ t => track_env "preload_next" t
  | EvEndOfTrack _ t => track_env "end_of_track" t
  | Unavailable _ t => track_env "unavailable" t
  | VolumeChanged volume => Ok {[ "PLAYER_EVENT" := "volume_changed"; "VOLUME" := show_Z volume ]}
  | Seeked _ t position => position_env "seeked" t position
  | PositionCorrection _ t position => position_env "position_correction" t position
  | SessionConnected c u => Ok {[ "PLAYER_EVENT" := "session_connected"; "CONNECTION_ID" := c; "USER_NAME" := u ]}
  | SessionDisconnected c u => Ok {[ "PLAYER_EVENT" := "session_disconnected"; "CONNECTION_ID" := c; "USER_NAME" := u ]}
  | SessionClientChanged i n b m =>
      Ok {[ "PLAYER_EVENT" := "session_client_changed"; "CLIENT_ID" := i; "CLIENT_NAME" := n; "CLIENT_BRAND_NAME" := b;
            "CLIENT_MODEL_NAME" := m ]}
  | ShuffleChanged s => Ok {[ "PLAYER_EVENT" := "shuffle_changed"; "SHUFFLE" := show_bool s ]}
  | RepeatChanged c t => Ok {[ "PLAYER_EVENT" := "repeat_changed"; "REPEAT" := show_bool c; "REPEAT_TRACK" := show_bool t ]}
  | AutoPlayChanged a => Ok {[ "PLAYER_EVENT" := "auto_play_changed"; "AUTO_PLAY" := show_bool a ]}
  | FilterExplicitContentChanged f => Ok {[ "PLAYER_EVENT" := "filter_explicit_content_changed"; "FILTER" := show_bool f ]}
  | SetQueue context_uri current_track next_tracks prev_tracks =>
      let env := {[ "PLAYER_EVENT" := "set_queue"; "CONTEXT_URI" := context_uri ]} in
      let env := match current_track with Some t => <["CURRENT_TRACK" := queue_track t]> env | None => env end in
      Ok (<["PREV_TRACKS" := lines (queue_track <$> prev_tracks)]> (<["NEXT_TRACKS" := lines (queue_track <$> next_tracks)]> env))
  | PositionChanged _ _ _ => Ok ∅
  end.

(** [onevent.split_whitespace()] *)
Fixpoint take_word (s : string) : string * string :=
  match strip_any whitespace s with
  | Some _ => ("", s)
  | None => match s with
            | EmptyString => ("", "")
            | String c s => let '(w, rest) := take_word s in (String c w, rest)
            end
  end.

Fixpoint words (fuel : nat) (s : string) : list string :=
  match fuel with
  | O => []
  | S fuel => let s := trim_start s in
              if is_empty s then [] else let '(w, rest) := take_word s in w :: words fuel rest
  end.

(** The program: given its words and environment it changes the files; [started] says whether it
    could be started. A variable that is not set is inherited. *)
Context (started : list string -> env_vars -> bool) (program : list string -> (string -> string) -> Helpers.files -> Helpers.files)
        (inherited : string -> string).

Definition var_of (env : env_vars) (k : string) : string := match env !! k with Some v => v | None => inherited k end.

Definition run_program (env : env_vars) (onevent : string) (m : Helpers.files) : res Error Helpers.files :=
  match words (String.length onevent) onevent with
  | [] => Panic
  | v => Ok (if started v env then program v (var_of env) m else m)
  end.

Definition handle_event (onevent : string) (e : PlayerEvent) (m : Helpers.files) : res Error Helpers.files :=
  env ← event_env e;
  if bool_decide (env = ∅) then Ok m else run_program env onevent m.

(** The thread: the events in order, each program awaited *)
Fixpoint handle_events (onevent : string) (l : list PlayerEvent) (m : Helpers.files) : res Error Helpers.files :=
  match l with
  | [] => Ok m
  | e :: l => m ← handle_event onevent e m; handle_events onevent l m
  end.

Definition run_program_on_sink_events (s : SinkStatus) (onevent : string) (m : Helpers.files) : res Error Helpers.files :=
  run_program {[ "PLAYER_EVENT" := "sink";
                 "SINK_STATUS" := match s with Running => "running" | TemporarilyClosed => "temporarily_closed" | Closed => "closed" end ]}
    onevent m.
End handler.

(** ** The hook on the Radio *)

Definition hook (v : list string) (var : string -> string) (m : Helpers.files) : Helpers.files :=
  match Metadata.main no_fail var v m with Ok m => m | _ => m end.

(** What an event leaves in the files of the hook: the state, the volume, the track that is being
    loaded, and the document on the current track. A podcast has no artists and no album, whose
    variables are then inherited. *)
Section contents.
Context {B : Backend} (describe : Player.AudioItem -> Catalogue.AudioItem) (inherited : string -> string).

Definition state_text (e : PlayerEvent) : option string :=
  match e with
  | EvPaused _ _ _ => Some "paused"
  | EvStopped _ _ | EvEndOfTrack _ _ | Unavailable _ _ => Some "stopped"
  | EvPlaying _ _ _ | EvLoading _ _ _ => Some "playing"
  | _ => None
  end.

Definition volume_text (e : PlayerEvent) : option string := match e with VolumeChanged v => Some (show_Z v) | _ => None end.

Definition id_text (t : SpotifyUri) : option string := match to_id t with Ok s => Some s | _ => None end.

Definition loading_text (e : PlayerEvent) : option string := match e with EvLoading _ t _ => id_text t | _ => None end.

Definition item_artists (u : UniqueFields) : string :=
  match u with
  | UTrack artists _ _ _ _ _ => lines (role_name <$> artists)
  | ULocal artists _ _ _ _ _ => default "" artists
  | UEpisode _ _ _ => inherited "ARTISTS"
  end.
Definition item_album (u : UniqueFields) : string :=
  match u with
  | UTrack _ album _ _ _ _ => album
  | ULocal _ album _ _ _ _ => default "" album
  | UEpisode _ _ _ => inherited "ALBUM"
  end.

Definition document_text (e : PlayerEvent) : option string :=
  match e with
  | TrackChanged a =>
      let item := describe a in
      id ← id_text (track_id item);
      Some (Metadata.metadata_json "playing" id (name item) (replace_char newline ", " (item_artists (unique_fields item)))
              (item_album (unique_fields item)) (show_Z (duration_ms item))
              (Metadata.first_line_of (lines (cover_url <$> covers item))))
  | _ => None
  end.
End contents.

(** ** Lemmas *)

Lemma path_ne path a b : a <> b -> path +:+ a <> path +:+ b.
Proof. intros Hne E. apply Hne. revert E. induction path as [|c p IH]; simpl; [done|]. intros [= E]. auto. Qed.

Lemma path_ne_nil path a : a <> "" -> path +:+ a <> path.
Proof. intros Hne E. apply (path_ne path a "" Hne). by rewrite append_nil_r. Qed.

Lemma path_ne_tmp path a b : a <> ".loading.tmp" -> b = ".tmp" -> path +:+ a <> (path +:+ ".loading") +:+ b.
Proof. intros Ha ->. rewrite <- append_assoc. by apply path_ne. Qed.

(** The new contents, or the old ones where there are none *)
Definition over (new old : option string) : option string := match new with Some c => Some c | None => old end.

(** [m'] differs from [m] at the four files as [s], [v], [l] and [d] say. *)
Definition updated (path : string) (m m' : Helpers.files) (s v l d : option string) : Prop :=
  m' !! (path +:+ ".state") = over s (m !! (path +:+ ".state")) /\ m' !! (path +:+ ".volume") = over v (m !! (path +:+ ".volume")) /\
  m' !! (path +:+ ".loading") = over l (m !! (path +:+ ".loading")) /\ m' !! path = over d (m !! path).

Ltac paths := repeat first
  [ rewrite lookup_insert_eq
  | rewrite lookup_insert_ne by first [apply path_ne; discriminate | apply path_ne_nil; discriminate | apply not_eq_sym, path_ne_nil; discriminate]
  | rewrite lookup_delete_ne by first [apply path_ne; discriminate | apply path_ne_nil; discriminate
      | apply not_eq_sym, path_ne_tmp; [discriminate|reflexivity]
      | rewrite <- append_assoc; apply path_ne_nil; discriminate] ].

Section hook.
Context (exe path : string) (var : string -> string) (m : Helpers.files).

Lemma hook_volume : var "PLAYER_EVENT" = "volume_changed" -> updated path m (hook [exe; path] var m) None (Some (var "VOLUME")) None None.
Proof. intros H. unfold hook, Metadata.main. simpl. rewrite H. simpl. split_and!; by paths. Qed.

Lemma hook_loading :
  var "PLAYER_EVENT" = "loading" -> updated path m (hook [exe; path] var m) (Some "playing") None (Some (var "TRACK_ID")) None.
Proof.
  intros H. unfold hook, Metadata.main. simpl. rewrite H. simpl. unfold fs_rename, fs_write. simpl. rewrite lookup_insert_eq. simpl.
  rewrite delete_insert_eq. split_and!; by paths.
Qed.

Lemma hook_state state :
  var "PLAYER_EVENT" <> "volume_changed" -> var "PLAYER_EVENT" <> "loading" -> var "PLAYER_EVENT" <> "track_changed" ->
  Metadata.state_of_event (var "PLAYER_EVENT") = Some state ->
  updated path m (hook [exe; path] var m) (Some state) None None None.
Proof.
  intros H1 H2 H3 Hs. unfold hook, Metadata.main. simpl. rewrite !bool_decide_false by done. simpl. rewrite Hs. simpl.
  split_and!; by paths.
Qed.

Lemma hook_other :
  var "PLAYER_EVENT" <> "volume_changed" -> var "PLAYER_EVENT" <> "loading" ->
  Metadata.state_of_event (var "PLAYER_EVENT") = None -> updated path m (hook [exe; path] var m) None None None None.
Proof.
  intros H1 H2 Hs. unfold hook, Metadata.main. simpl.
  rewrite (bool_decide_false (var "PLAYER_EVENT" = "volume_changed")), (bool_decide_false (var "PLAYER_EVENT" = "loading")) by done.
  simpl. rewrite Hs. simpl.
  split_and!; done.
Qed.

Lemma hook_track_changed :
  var "PLAYER_EVENT" = "track_changed" ->
  updated path m (hook [exe; path] var m) None None None
    (Some (Metadata.metadata_json "playing" (var "TRACK_ID") (var "NAME") (replace_char newline ", " (var "ARTISTS")) (var "ALBUM")
             (var "DURATION_MS") (Metadata.first_line_of (var "COVERS")))).
Proof.
  intros H. unfold hook, Metadata.main. simpl. rewrite H. simpl. unfold fs_rename, fs_write. simpl. rewrite lookup_insert_eq. simpl.
  rewrite delete_insert_eq. split_and!; by paths.
Qed.
End hook.

Section follow.
Context {B : Backend} (describe : Player.AudioItem -> Catalogue.AudioItem) (inherited : string -> string) (onevent exe path : string).
Context (Hwords : words (String.length onevent) onevent = [exe; path]).
#[local] Abbreviation handle := (handle_event describe (fun _ _ => true) hook inherited onevent).

Lemma run_hook env (m m' : Helpers.files) :
  run_program (fun _ _ => true) hook inherited env onevent m = Ok m' -> m' = hook [exe; path] (var_of inherited env) m.
Proof. unfold run_program. rewrite Hwords. by intros [= <-]. Qed.

Lemma run_event env ev (m m' : Helpers.files) :
  env !! "PLAYER_EVENT" = Some ev ->
  (if bool_decide (env = ∅) then Ok m else run_program (fun _ _ => true) hook inherited env onevent m) = Ok m' ->
  m' = hook [exe; path] (var_of inherited env) m /\ var_of inherited env "PLAYER_EVENT" = ev.
Proof.
  intros Hev. rewrite bool_decide_false by (intros ->; by rewrite lookup_empty in Hev).
  intros H%run_hook. split; [done|]. unfold var_of. by rewrite Hev.
Qed.

(** The variables the hook reads of a new track *)
Lemma track_changed_vars i (item : Catalogue.AudioItem) :
  let env := unique_env (unique_fields item) ∪
    (<["URI" := uri item]> (<["NAME" := name item]> (<["COVERS" := lines (cover_url <$> covers item)]>
     (<["LANGUAGE" := lines (language item)]> (<["DURATION_MS" := show_Z (duration_ms item)]>
     (<["IS_EXPLICIT" := show_bool (is_explicit item)]> {[ "PLAYER_EVENT" := "track_changed"; "TRACK_ID" := i ]})))))) in
  env !! "PLAYER_EVENT" = Some "track_changed" /\ var_of inherited env "TRACK_ID" = i /\ var_of inherited env "NAME" = name item /\
  var_of inherited env "DURATION_MS" = show_Z (duration_ms item) /\ var_of inherited env "COVERS" = lines (cover_url <$> covers item) /\
  var_of inherited env "ARTISTS" = item_artists inherited (unique_fields item) /\
  var_of inherited env "ALBUM" = item_album inherited (unique_fields item).
Proof.
  destruct item as [t u fs n cs l d x a alt uf]. cbn [uri name covers language duration_ms is_explicit unique_fields]. unfold var_of.
  generalize (show_Z d), (show_bool x), (lines l), (lines (cover_url <$> cs)). intros.
  destruct uf; cbn [unique_env item_artists item_album]; rewrite !lookup_union; split_and!; vm_compute; reflexivity.
Qed.

(** What the files say after one event *)
Lemma handle_event_files e m m' :
  handle e m = Ok m' -> updated path m m' (state_text e) (volume_text e) (loading_text e) (document_text describe inherited e).
Proof.
  unfold handle_event. destruct e; cbn [event_env state_text volume_text loading_text document_text mbind res_bind];
    unfold position_env, track_env, id_text, text_of;
    try match goal with |- context [to_id ?t] => destruct (to_id t) as [i| |]; [|done..] end; cbn [mbind res_bind option_bind].
  all: first
    [ let H := fresh in intros H; eapply run_event in H as [-> Hv];
        [|first [apply lookup_insert_eq | rewrite lookup_insert_ne by discriminate; apply lookup_insert_eq]];
      first [ apply hook_other; rewrite Hv; [discriminate|discriminate|reflexivity]
            | apply hook_state; rewrite Hv; [discriminate|discriminate|discriminate|reflexivity]
            | exact (hook_loading exe path _ m Hv)
            | exact (hook_volume exe path _ m Hv) ]
    | idtac ].
  - rewrite bool_decide_true by done. intros [= <-]. by split_and!.
  - destruct (track_changed_vars i (describe audio_item)) as (Hev & H1 & H2 & H3 & H4 & H5 & H6).
    intros [-> Hv]%(run_event _ _ _ _ Hev).
    pose proof (hook_track_changed exe path _ m Hv) as H. by rewrite H1, H2, H3, H4, H5, H6 in H.
  - destruct current_track; intros H; (eapply run_event in H as [-> Hv];
      [|do 2 (rewrite lookup_insert_ne by discriminate);
        first [apply lookup_insert_eq | rewrite lookup_insert_ne by discriminate; apply lookup_insert_eq]]);
      apply hook_other; rewrite Hv; done.
Qed.
End follow.

Lemma omap_cons {A C} (f : A -> option C) x l : omap f (x :: l) = match f x with Some y => y :: omap f l | None => omap f l end.
Proof. done. Qed.

Lemma handle_events_files {B : Backend} (describe : Player.AudioItem -> Catalogue.AudioItem) (inherited : string -> string)
    (onevent exe path : string) (events : list PlayerEvent) (m m' : Helpers.files) :
  words (String.length onevent) onevent = [exe; path] ->
  handle_events describe (fun _ _ => true) hook inherited onevent events m = Ok m' ->
  updated path m m' (last (omap state_text events)) (last (omap volume_text events)) (last (omap loading_text events))
    (last (omap (document_text describe inherited) events)).
Proof.
  intros Hwords. revert m. induction events as [|e events IH]; intros m Hrun; cbn [handle_events] in Hrun; [by simplify_eq|].
  destruct (handle_event _ _ _ _ _ e m) as [m1| |] eqn:He; [|done..]. cbn [mbind res_bind] in Hrun.
  apply (handle_event_files _ _ _ _ _ Hwords) in He as (S1 & V1 & L1 & D1). destruct (IH _ Hrun) as (S2 & V2 & L2 & D2).
  assert (Hover : forall (f : PlayerEvent -> option string) old mid new,
            mid = over (f e) old -> new = over (last (omap f events)) mid -> new = over (last (omap f (e :: events))) old).
  { intros f old mid new -> ->. rewrite omap_cons. destruct (f e); [|done]. rewrite last_cons. by destruct (last (omap f events)). }
  split_and!; eapply Hover; done.
Qed.

(** What the events say of the state *)
Section views.
Context {B : Backend}.

Definition view_text (v : View) : string :=
  match v with VStopped => "stopped" | VPaused _ _ => "paused" | VLoading _ _ | VPlaying _ _ => "playing" end.

Definition ends_track (e : PlayerEvent) : bool := match e with EvEndOfTrack _ _ | Unavailable _ _ => true | _ => false end.

(** The events after the last of those that name the state of the player *)
Definition since_state (q : list PlayerEvent) : list PlayerEvent :=
  foldl (fun l e => match event_view e with Some _ => [] | None => l ++ [e] end) [] q.

Lemma last_state_text q :
  last (omap state_text q) =
  if existsb ends_track (since_state q) then Some "stopped" else view_text <$> last_view q.
Proof.
  induction q as [|e q IH] using rev_ind; [done|].
  rewrite omap_app, last_view_snoc. unfold since_state. rewrite foldl_app. fold (since_state q). simpl.
  destruct e; simpl; rewrite ?last_snoc, ?app_nil_r, ?existsb_app, ?IH; simpl; rewrite ?orb_true_r, ?orb_false_r; done.
Qed.
End views.

(** ** Theorems *)

(** The files the applet and the bridge read follow the events of the player: once the handler
    has run the hook for each of them, the state, the volume, the loading marker and the document
    on the track are those of the last event that says something of them, and are as before where
    none does. *)
Theorem files_follow_events {B : Backend} (describe : Player.AudioItem -> Catalogue.AudioItem) (inherited : string -> string)
    (onevent exe path : string) (events : list PlayerEvent) (m m' : Helpers.files)
    (Hwords : words (String.length onevent) onevent = [exe; path])
    (Hrun : handle_events describe (fun _ _ => true) hook inherited onevent events m = Ok m') :
  updated path m m' (last (omap state_text events)) (last (omap volume_text events)) (last (omap loading_text events))
    (last (omap (document_text describe inherited) events)).
Proof. by apply (handle_events_files describe inherited onevent exe). Qed.

(** C20: The state shown on the Radio is the state of the player, with one exception. In every reachable
    state of the player, once the hook has handled all events a listener was sent, the state file says
    "stopped" if the listener was sent the end of a track or a track that cannot be played since the
    last of the events Loading, Playing, Paused and Stopped (whatever the player does meanwhile); else
    it says what the player does, if there was such an event; else it is as before. *)
Theorem display_follows_player {B : Backend} {L : Loaders} (describe : Player.AudioItem -> Catalogue.AudioItem)
    (inherited : string -> string) (onevent exe path : string) (p : PlayerInternal) (h : nat) (q : list PlayerEvent)
    (m m' : Helpers.files)
    (Hwords : words (String.length onevent) onevent = [exe; path])
    (Hp : reachable p) (Hvalid : ps p <> PsInvalid) (Hh : h ∈ event_senders p) (Hq : inboxes p !! h = Some q)
    (Hrun : handle_events describe (fun _ _ => true) hook inherited onevent q m = Ok m') :
  m' !! (path +:+ ".state") =
  if existsb ends_track (since_state q) then Some "stopped"
  else match last_view q with
       | Some _ => Some (match ps p with PsStopped => "stopped" | PsPaused _ => "paused" | _ => "playing" end)
       | None => m !! (path +:+ ".state")
       end.
Proof.
  apply (handle_events_files describe inherited onevent exe path) in Hrun as [-> _]; [|done].
  rewrite last_state_text. destruct (existsb _ _); [done|]. destruct (last_view q) as [v'|] eqn:Hl; [|done].
  assert (Hv : exists v, state_view (ps p) = Some v) by (destruct (ps p); by eauto). destruct Hv as [v Hv].
  assert (HG : Good True p) by (by apply reachable_good_any). destruct HG as (_ & HG & _).
  destruct (HG v Hv h q Hh Hq) as [H|H]; [congruence|]. assert (v' = v) as -> by congruence.
  simpl. by destruct (ps p); simplify_eq/=.
Qed.

(** ** Examples *)

(** What the first listener of the toy player was sent, and its track *)
Definition toy_item : Catalogue.AudioItem :=
  mkAudioItem toy_track "spotify:track:7" ∅ "Song" [mkCoverImage "https://i/1" 0 640 640] [] 3000 false (Ok tt) None
    (UTrack [mkArtistWithRole toy_track "A" 1; mkArtistWithRole toy_track "B" 1] "Album" ["A"] 50 1 1).
Definition toy_events : list (PlayerEvent (B := toy true true)) := default [] (inboxes (toy_playing true true) !! 0%nat).
Definition toy_files : Helpers.files :=
  match handle_events (B := toy true true) (fun _ => toy_item) (fun _ _ => true) hook (fun _ => "") "spotify-metadata /tmp/now" toy_events ∅ with
  | Ok m => m
  | _ => ∅
  end.

Lemma files_follow_events_witness :
  toy_files !! "/tmp/now.state" = Some "playing" /\ toy_files !! "/tmp/now.loading" = Some "0000000000000000000007".
Proof.
  pose proof (files_follow_events (B := toy true true) (fun _ => toy_item) (fun _ => "") "spotify-metadata /tmp/now" "spotify-metadata" "/tmp/now"
                toy_events ∅ toy_files ltac:(vm_compute; reflexivity) ltac:(vm_compute; reflexivity)) as (Hs & _ & Hl & _).
  split; [etransitivity; [exact Hs|vm_compute; reflexivity]|etransitivity; [exact Hl|vm_compute; reflexivity]].
Defined.

Lemma display_follows_player_witness : toy_files !! "/tmp/now.state" = Some "playing".
Proof.
  etransitivity.
  - apply (display_follows_player (B := toy true true) (L := toy_loaders true true) (fun _ => toy_item) (fun _ => "")
             "spotify-metadata /tmp/now" "spotify-metadata" "/tmp/now" (toy_playing true true) 0%nat toy_events ∅ toy_files).
    + vm_compute. reflexivity.
    + apply toy_reachable.
    + vm_compute. discriminate.
    + apply (bool_decide_unpack _). by vm_compute.
    + vm_compute. reflexivity.
    + vm_compute. reflexivity.
  - vm_compute. reflexivity.
Defined.

(** A track plays on while the one to come next cannot be loaded, and the Radio shows "stopped". *)
Definition half_loaders : Loaders (H := toy true true) := {|
  Loader := option (option (PlayerLoadedTrackData (H := toy true true)));
  load_track t _ := Some (if bool_decide (t = toy_track) then Some (toy_loaded true true) else None);
  is_terminated l := match l with None => true | Some _ => false end;
  loader_poll l := match l with Some r => (Ready r, None) | None => (Pending, None) end
|}.

Example failed_preload_shows_stopped :
  let p0 := player_new (L := half_loaders) (mkPlayerConfig true false NAuto None) [] tt 0 in
  let p1 := (round (L := half_loaders) (Some (AddEventSender 0)) (set_inboxes (<[0%nat := []]> (inboxes p0)) p0)).2 in
  let p2 := (round (L := half_loaders) (Some (CmdLoad toy_track true 0)) p1).2 in
  let p3 := (round (L := half_loaders) (Some (CmdPreload toy_other)) p2).2 in
  let q := default [] (inboxes p3 !! 0%nat) in
  state_view (ps p3) = Some (VPlaying 0 toy_track) /\
  (fun m : Helpers.files => m !! "/tmp/now.state") <$>
    res_ok (handle_events (fun _ => toy_item) (fun _ _ => true) hook (fun _ => "") "spotify-metadata /tmp/now" q ∅)
    = Some (Some "stopped").
Proof. split; vm_compute; reflexivity. Qed.

(** The artists of the document are separated by commas. *)
Example ex_document :
  match toy_files !! "/tmp/now" with
  | Some d => Metadata.read_object 7 d =
      Some ([("playback_state", "playing"); ("track_id", "0000000000000000000007"); ("title", "Song"); ("artist", "A, B");
             ("album", "Album"); ("duration_ms", "3000"); ("artwork_url", "https://i/1")], str1 newline)
  | None => False
  end.
Proof. vm_compute. reflexivity. Qed.
