(* ===== verification/Passthrough.v ===== *)
(** * Passthrough decoder ([native/librespot/playback/src/decoder/passthrough_decoder.rs])

    The decoder of the deployed build: Ogg packets are read from the track and written, with a serial
    number of its own and the headers repeated after a seek, to a new Ogg stream that goes to the sink
    undecoded. The packet reader and writer are of the [ogg] crate, a parameter of the model.
    [streaming_only] is the Cargo feature of that name. *)
From S2P Require Import Prelude Packet SpotifyUri Effect Player PlayerSpec Playback.

Inductive OggReadError := NoCapturePatternFound | OtherReadError (e : string).

Inductive PacketWriteEndInfo := NormalPacket | EndPage | EndStream.

(** [ogg::Packet] *)
Record OggPacket := mkOggPacket {
  pck_data : list Z;
  absgp_page : Z;
  last_in_stream : bool;
  last_in_page : bool
}.

Definition show_read_error (e : OggReadError) : string :=
  match e with NoCapturePatternFound => "No Ogg capture pattern found" | OtherReadError e => e end.

(** The packet reader and writer. [ms_to_pcm] and [pcm_to_ms] are the conversions between milliseconds
    and samples in floating point. *)
Class OggCrate := {
  PacketReader : Type;
  read_packet : PacketReader -> (OggReadError + option OggPacket) * PacketReader;
  read_packet_expected : PacketReader -> (OggReadError + OggPacket) * PacketReader;
  delete_unread_packets : PacketReader -> PacketReader;
  seek_absgp : Z -> PacketReader -> (OggReadError + bool) * PacketReader;
  PacketWriter : Type;
  packet_writer_new : PacketWriter;
  write_packet : list Z -> Z -> PacketWriteEndInfo -> Z -> PacketWriter -> (string + unit) * PacketWriter;
  written : PacketWriter -> list Z;
  take_written : PacketWriter -> PacketWriter;
  ms_to_pcm : Z -> Z;
  pcm_to_ms : Z -> Z
}.

Inductive DecoderError := PassthroughError (e : string).

Section passthrough.
Context {Ogg : OggCrate} (streaming_only : bool).

Record PassthroughDecoder := mkPassthrough {
  rdr : PacketReader;
  wtr : PacketWriter;
  eos : bool;
  bos : bool;
  ofsgp_page : Z;
  stream_serial : Z;
  ident : list Z;
  comment : list Z;
  setup : list Z
}.

Definition D := eff PassthroughDecoder DecoderError.

Definition set_rdr (r : PacketReader) (d : PassthroughDecoder) : PassthroughDecoder :=
  mkPassthrough r (wtr d) (eos d) (bos d) (ofsgp_page d) (stream_serial d) (ident d) (comment d) (setup d).
Definition set_wtr (w : PacketWriter) (d : PassthroughDecoder) : PassthroughDecoder :=
  mkPassthrough (rdr d) w (eos d) (bos d) (ofsgp_page d) (stream_serial d) (ident d) (comment d) (setup d).
Definition set_eos (b : bool) (d : PassthroughDecoder) : PassthroughDecoder :=
  mkPassthrough (rdr d) (wtr d) b (bos d) (ofsgp_page d) (stream_serial d) (ident d) (comment d) (setup d).
Definition set_bos (b : bool) (d : PassthroughDecoder) : PassthroughDecoder :=
  mkPassthrough (rdr d) (wtr d) (eos d) b (ofsgp_page d) (stream_serial d) (ident d) (comment d) (setup d).
Definition set_ofsgp (z : Z) (d : PassthroughDecoder) : PassthroughDecoder :=
  mkPassthrough (rdr d) (wtr d) (eos d) (bos d) z (stream_serial d) (ident d) (comment d) (setup d).
Definition set_serial (z : Z) (d : PassthroughDecoder) : PassthroughDecoder :=
  mkPassthrough (rdr d) (wtr d) (eos d) (bos d) (ofsgp_page d) z (ident d) (comment d) (setup d).

(** A header packet of the given type; an empty packet is indexed out of range. *)
Definition get_header (code : Z) (r : PacketReader) : res DecoderError (list Z * PacketReader) :=
  match read_packet_expected r with
  | (inl e, _) => Err (PassthroughError (show_read_error e))
  | (inr pck, r) =>
      match pck_data pck with
      | [] => Panic
      | ty :: _ => if ty =? code then Ok (pck_data pck, r) else Err (PassthroughError "Invalid Data")
      end
  end.

Definition passthrough_new (r : PacketReader) (is_ogg_vorbis : bool) (millis : Z) : res DecoderError PassthroughDecoder :=
  if negb is_ogg_vorbis then Err (PassthroughError "Passthrough decoder is not implemented for format")
  else
    '(id, r) ← get_header 1 r;
    '(co, r) ← get_header 3 r;
    '(se, r) ← get_header 5 r;
    Ok (mkPassthrough (delete_unread_packets r) packet_writer_new false false 0 (wrap 32 millis) id co se).

(** [self.wtr.write_packet(..).map_err(..)?] *)
Definition put (data : list Z) (info : PacketWriteEndInfo) (absgp : Z) : D unit :=
  fun d => match write_packet data (stream_serial d) info absgp (wtr d) with
           | (inr _, w) => (Ok tt, set_wtr w d)
           | (inl e, w) => (Err (PassthroughError e), set_wtr w d)
           end.

Definition next_ogg_packet : D (OggReadError + option OggPacket) :=
  state (fun d => let '(r, rd) := read_packet (rdr d) in (r, set_rdr rd d)).

Definition passthrough_seek (position_ms : Z) : D Z :=
  started ← gets bos;
  if streaming_only then
    if (position_ms =? 0) && negb started then mret 0
    else throw (PassthroughError "seek is unsupported in streaming-only mode")
  else
    ended ← gets eos;
    _ ← (if (started : bool) && negb ended then
           r ← next_ogg_packet;
           match r with
           | inr (Some pck) =>
               ofs ← gets ofsgp_page;
               put (pck_data pck) EndStream (wrap 64 (absgp_page pck - ofs))
           | _ => mret tt
           end
         else mret tt);
    _ ← modify (set_eos false);
    _ ← modify (set_bos false);
    _ ← modify (set_ofsgp 0);
    _ ← modify (fun d => set_serial (wrap 32 (stream_serial d + 1)) d);
    r ← state (fun d => let '(r, rd) := seek_absgp (ms_to_pcm position_ms) (rdr d) in (r, set_rdr rd d));
    match r with
    | inl e => throw (PassthroughError (show_read_error e))
    | inr _ =>
        r ← next_ogg_packet;
        match r with
        | inl e => throw (PassthroughError (show_read_error e))
        | inr None => throw (PassthroughError "Packet is None")
        | inr (Some pck) =>
            _ ← modify (set_ofsgp (absgp_page pck));
            mret (pcm_to_ms (absgp_page pck))
        end
    end.

Definition write_headers : D unit :=
  started ← gets bos;
  if (started : bool) then mret tt
  else
    i ← gets ident; _ ← put i EndPage 0;
    c ← gets comment; _ ← put c NormalPacket 0;
    s ← gets setup; _ ← put s EndPage 0;
    modify (set_bos true).

(** The loop of [next_packet]: a packet of the track per round, until a page is complete. *)
Fixpoint packet_loop {Sample} (fuel : nat) : D (option (AudioPacketPosition * AudioPacket Sample)) :=
  match fuel with
  | O => stop
  | S fuel =>
      r ← next_ogg_packet;
      match r with
      | inr None | inl NoCapturePatternFound => mret None
      | inl e => throw (PassthroughError (show_read_error e))
      | inr (Some pck) =>
          ofs ← gets ofsgp_page;
          let gp := absgp_page pck in
          if (gp =? 0) || (gp =? ofs) then packet_loop fuel
          else
            inf ← (if last_in_stream pck then _ ← modify (set_eos true); mret EndStream
                   else if last_in_page pck then mret EndPage else mret NormalPacket);
            _ ← put (pck_data pck) inf (wrap 64 (gp - ofs));
            data ← gets (fun d => written (wtr d));
            match data with
            | [] => packet_loop fuel
            | _ =>
                _ ← modify (fun d => set_wtr (take_written (wtr d)) d);
                mret (Some (mkAudioPacketPosition (pcm_to_ms gp) false, Raw data))
            end
      end
  end.

Definition passthrough_next_packet {Sample} (fuel : nat) : D (option (AudioPacketPosition * AudioPacket Sample)) :=
  _ ← write_headers; packet_loop fuel.

End passthrough.

(** ** What the decoder outputs *)

(** A writer over a buffer cannot fail and appends: [emit] is what a packet adds to the buffer, in a
    state that holds the unfinished page and that emptying the buffer leaves alone. *)
Class LawfulWriter `{OggCrate} := {
  Core : Type;
  core : PacketWriter -> Core;
  emit : Core -> Z -> list Z * PacketWriteEndInfo * Z -> list Z * Core;
  write_law data serial info gp w : exists w',
    write_packet data serial info gp w = (inr tt, w') /\
    written w' = written w ++ (emit (core w) serial (data, info, gp)).1 /\
    core w' = (emit (core w) serial (data, info, gp)).2;
  take_law w : written (take_written w) = [] /\ core (take_written w) = core w;
  writer_new_law : written packet_writer_new = []
}.

(** What a reader still has, and the reader at the end. *)
Inductive supplies `{OggCrate} : PacketReader -> list OggPacket -> PacketReader -> Prop :=
| supplies_end r r' x : read_packet r = (x, r') -> x = inr None \/ x = inl NoCapturePatternFound -> supplies r [] r'
| supplies_more r r1 r' p l : read_packet r = (inr (Some p), r1) -> supplies r1 l r' -> supplies r (p :: l) r'.

Definition end_info (p : OggPacket) : PacketWriteEndInfo :=
  if last_in_stream p then EndStream else if last_in_page p then EndPage else NormalPacket.

(** The packets of the track that are audio, with positions relative to [ofs]. *)
Definition audio_packets (ofs : Z) (l : list OggPacket) : list (list Z * PacketWriteEndInfo * Z) :=
  (fun p => (pck_data p, end_info p, wrap 64 (absgp_page p - ofs))) <$>
    List.filter (fun p => negb ((absgp_page p =? 0) || (absgp_page p =? ofs))) l.

Fixpoint emit_all `{LawfulWriter} (c : Core) (serial : Z) (ops : list (list Z * PacketWriteEndInfo * Z)) : list Z * Core :=
  match ops with
  | [] => ([], c)
  | op :: ops => let '(b, c) := emit c serial op in let '(more, c) := emit_all c serial ops in (b ++ more, c)
  end.

Section output.
Context `{LawfulWriter} {Sample : Type}.

(** Calling [next_packet] until it returns [None]. *)
Fixpoint drain (rounds fuel : nat) : D (list (AudioPacketPosition * AudioPacket Sample)) :=
  match rounds with
  | O => stop
  | S rounds =>
      x ← passthrough_next_packet fuel;
      match x with
      | None => mret []
      | Some p => l ← drain rounds fuel; mret (p :: l)
      end
  end.

Definition raw_bytes (p : AudioPacketPosition * AudioPacket Sample) : list Z :=
  match p.2 with Raw l => l | Samples _ => [] end.

Lemma emit_all_app c serial l1 l2 :
  emit_all c serial (l1 ++ l2) =
  ((emit_all c serial l1).1 ++ (emit_all (emit_all c serial l1).2 serial l2).1,
   (emit_all (emit_all c serial l1).2 serial l2).2).
Proof.
  revert c. induction l1 as [|op l1 IH]; intros c; simpl; [by destruct (emit_all _ _ _)|].
  destruct (emit c serial op) as [b c1]. rewrite IH. destruct (emit_all c1 serial l1) as [b1 c2]; simpl.
  by destruct (emit_all c2 serial l2); rewrite (assoc_L (++)).
Qed.

Lemma put_spec X data info gp d (Q : res DecoderError unit -> PassthroughDecoder -> Prop) :
  (forall w, written w = written (wtr d) ++ (emit (core (wtr d)) (stream_serial d) (data, info, gp)).1 ->
     core w = (emit (core (wtr d)) (stream_serial d) (data, info, gp)).2 -> Q (Ok tt) (set_wtr w d)) ->
  wp X (put data info gp) Q d.
Proof.
  intros HQ. unfold wp, put. destruct (write_law data (stream_serial d) info gp (wtr d)) as (w & -> & Hw & Hc). by apply HQ.
Qed.

(** What a call leaves alone once the headers are out. *)
Definition stays (d d' : PassthroughDecoder) : Prop :=
  bos d' = bos d /\ ofsgp_page d' = ofsgp_page d /\ stream_serial d' = stream_serial d.

Definition out (d : PassthroughDecoder) (l : list OggPacket) : list Z * Core :=
  emit_all (core (wtr d)) (stream_serial d) (audio_packets (ofsgp_page d) l).

Lemma out_cons_skip d p l :
  (absgp_page p =? 0) || (absgp_page p =? ofsgp_page d) = true -> out d (p :: l) = out d l.
Proof. intros Hp. unfold out, audio_packets. simpl. by rewrite Hp. Qed.

Lemma audio_cons d p l :
  (absgp_page p =? 0) || (absgp_page p =? ofsgp_page d) = false ->
  audio_packets (ofsgp_page d) (p :: l) =
    (pck_data p, end_info p, wrap 64 (absgp_page p - ofsgp_page d)) :: audio_packets (ofsgp_page d) l.
Proof. intros Hp. unfold audio_packets. simpl. by rewrite Hp. Qed.

(** The outcome of the loop over the packets [l]: the end of the track, or data up to a packet. *)
Definition loop_post (l : list OggPacket) (r' : PacketReader) (d : PassthroughDecoder)
    (r : res DecoderError (option (AudioPacketPosition * AudioPacket Sample))) (d' : PassthroughDecoder) : Prop :=
  stays d d' /\
  match r with
  | Ok None => written (wtr d') = written (wtr d) ++ (out d l).1 /\ core (wtr d') = (out d l).2 /\ rdr d' = r' /\
      (audio_packets (ofsgp_page d) l = [] \/ written (wtr d') = [])
  | Ok (Some p) => exists l1 l2, l = l1 ++ l2 /\ l1 <> [] /\ supplies (rdr d') l2 r' /\
      p.2 = Raw (written (wtr d) ++ (out d l1).1) /\ written (wtr d') = [] /\ core (wtr d') = (out d l1).2
  | _ => False
  end.

(** A packet that produced no data, then the rest. *)
Lemma loop_post_step p l r' d d1 r d' :
  stays d d1 ->
  (forall l', written (wtr d1) ++ (out d1 l').1 = written (wtr d) ++ (out d (p :: l')).1 /\
     (out d1 l').2 = (out d (p :: l')).2) ->
  audio_packets (ofsgp_page d) [p] = [] \/ written (wtr d1) = [] ->
  loop_post l r' d1 r d' -> loop_post (p :: l) r' d r d'.
Proof.
  intros (S1 & S2 & S3) Ho He ((T1 & T2 & T3) & Hr). split; [by split_and!; congruence|].
  destruct r as [[q|]|e|]; [| |done..].
  - destruct Hr as (l1 & l2 & -> & Hl1 & Hsup & Hq & Hw & Hc). exists (p :: l1), l2.
    destruct (Ho l1) as [E1 E2]. split_and!; [done|done|done|by rewrite Hq, E1|done|by rewrite Hc].
  - destruct Hr as (Hw & Hc & Hrd & Hend). destruct (Ho l) as [E1 E2].
    split_and!; [by rewrite Hw|by rewrite Hc|done|].
    destruct Hend as [Hn|Hn]; [|by right]. rewrite S2 in Hn.
    destruct He as [He|He]; [left|right].
    + change (p :: l) with ([p] ++ l). unfold audio_packets in *. rewrite List.filter_app, fmap_app. by rewrite He, Hn.
    + rewrite Hw, He. unfold out. by rewrite S2, Hn.
Qed.

Lemma packet_loop_spec fuel l : forall r' d,
  supplies (rdr d) l r' -> (length l < fuel)%nat -> wp False (packet_loop fuel) (loop_post l r' d) d.
Proof.
  revert fuel. induction l as [|p l IH]; intros [|fuel] r' d Hs Hf; simpl in Hf; [lia| |lia|]; simpl;
    inversion Hs as [? ? x Hr Hx|? r1 ? ? ? Hr Hs1]; subst; unfold next_ogg_packet; wp_run; rewrite Hr; simpl.
  - assert (Hp : loop_post [] r' d (Ok None) (set_rdr r' d)).
    { unfold loop_post, stays, out. simpl. rewrite app_nil_r. split_and!; auto. }
    destruct Hx as [-> | ->]; by wp_run.
  - wp_run. simpl. destruct ((absgp_page p =? 0) || (absgp_page p =? ofsgp_page d)) eqn:Hskip.
    + wp_use IH; [|done|lia]. intros r d' _. apply loop_post_step; [done| |].
      * intros l'. by rewrite (out_cons_skip d p l' Hskip).
      * left. unfold audio_packets. simpl. by rewrite Hskip.
    + assert (Hgo : forall d0, stays d d0 -> rdr d0 = r1 -> wtr d0 = wtr d ->
        wp False (_ ← put (pck_data p) (end_info p) (wrap 64 (absgp_page p - ofsgp_page d));
            data ← gets (fun d => written (wtr d));
            match data with
            | [] => packet_loop fuel
            | _ => _ ← modify (fun d => set_wtr (take_written (wtr d)) d);
                   mret (Some (mkAudioPacketPosition (pcm_to_ms (absgp_page p)) false, Raw data))
            end) (loop_post (p :: l) r' d) d0).
      { intros d0 (S1 & S2 & S3) Hrd Hw0. wp_run. apply put_spec. rewrite Hw0, S3. intros w Hw Hc. wp_run. simpl.
        assert (Hout : forall l', out d (p :: l') =
          ((emit (core (wtr d)) (stream_serial d) (pck_data p, end_info p, wrap 64 (absgp_page p - ofsgp_page d))).1 ++
             (out (set_wtr w d0) l').1, (out (set_wtr w d0) l').2)).
        { intros l'. unfold out. rewrite audio_cons by done. simpl. rewrite Hc, S2, S3.
          destruct (emit _ _ _) as [b c1]. simpl. by destruct (emit_all _ _ _). }
        destruct (written w) as [|b bs] eqn:Hb.
        - wp_use IH; [|by rewrite <- Hrd in Hs1|lia]. intros r d' _. apply loop_post_step; [done| |by right].
          intros l'. rewrite Hout. simpl. by rewrite (assoc_L (++)), <- Hw, Hb.
        - wp_run. destruct (take_law w) as [Ht1 Ht2]. split; [done|]. exists [p], l. simpl. rewrite Hout. simpl.
          rewrite Hrd. split_and!; [done|done|done| |done|by rewrite Ht2]. unfold out. simpl. by rewrite app_nil_r, <- Hw. }
      unfold end_info in Hgo. destruct (last_in_stream p); [do 3 wp_step|destruct (last_in_page p); wp_step]; by apply Hgo.
Qed.

Lemma next_packet_started fuel l r' d :
  bos d = true -> supplies (rdr d) l r' -> (length l < fuel)%nat ->
  wp False (passthrough_next_packet fuel) (loop_post l r' d) d.
Proof.
  intros Hb Hs Hf. unfold passthrough_next_packet, write_headers. wp_run. rewrite Hb. wp_run. by apply packet_loop_spec.
Qed.

(** What draining a decoder amounts to. *)
Definition drained (d : PassthroughDecoder) (l : list OggPacket)
    (r : res DecoderError (list (AudioPacketPosition * AudioPacket Sample))) (d' : PassthroughDecoder) : Prop :=
  exists outs, r = Ok outs /\
    concat (raw_bytes <$> outs) ++ written (wtr d') = written (wtr d) ++ (out d l).1 /\
    (audio_packets (ofsgp_page d) l = [] \/ written (wtr d') = []).

(** One call of [next_packet] that ran the loop, then the rest. *)
Lemma drain_step rounds fuel l r' d d0 :
  stays d d0 -> wtr d0 = wtr d -> (length l < S rounds)%nat ->
  (forall l2 d', (length l2 < length l)%nat -> supplies (rdr d') l2 r' -> stays d d' ->
     wp False (drain rounds fuel) (drained d' l2) d') ->
  wp False (packet_loop fuel) (loop_post l r' d) d0 ->
  wp False (packet_loop fuel) (fun r d1 => match r with
    | Ok x => wp False (match x with None => mret [] | Some p => l ← drain rounds fuel; mret (p :: l) end) (drained d l) d1
    | _ => False end) d0.
Proof.
  intros Hst Hw0 Hl IH Hloop. wp_use Hloop. intros [[q|]|e|] d' _ [Hst' Hr]; [| |done..].
  - destruct Hr as (l1 & l2 & -> & Hl1 & Hs2 & Hq & Hw & Hc). wp_run. wp_use (IH l2); [| |done|done].
    2: { rewrite length_app. destruct l1; [done|]. simpl. lia. }
    intros r d2 _ (outs & -> & Ho & He). wp_run. exists (q :: outs). split; [done|].
    destruct Hst' as (S1 & S2 & S3).
    assert (Hout : (out d (l1 ++ l2)).1 = (out d l1).1 ++ (out d' l2).1).
    { unfold out. rewrite S2, S3, Hc. unfold audio_packets. rewrite List.filter_app, fmap_app. by rewrite emit_all_app. }
    assert (Hraw : raw_bytes q = written (wtr d) ++ (out d l1).1) by (unfold raw_bytes; by rewrite Hq).
    rewrite fmap_cons, concat_cons, Hraw, Hout, <- !(assoc_L (++)). rewrite Ho, Hw. split; [done|]. right.
    destruct He as [He|He]; [|done]. unfold out in Ho. rewrite He, Hw in Ho. by apply app_eq_nil in Ho as [_ ?].
  - destruct Hr as (Hw & Hc & Hrd & He). wp_run. exists []. split_and!; [done|by rewrite Hw|done].
Qed.

Lemma drain_started rounds fuel : forall l r' d,
  bos d = true -> supplies (rdr d) l r' -> (length l < rounds)%nat -> (length l < fuel)%nat ->
  wp False (drain rounds fuel) (drained d l) d.
Proof.
  induction rounds as [|rounds IH]; intros l r' d Hb Hs Hr Hf; [lia|]. simpl.
  unfold passthrough_next_packet, write_headers. wp_run. rewrite Hb. wp_step.
  wp_use (drain_step rounds fuel l r' d d); [|done|done|done| |by apply packet_loop_spec]; [by intros [?|?|] ? _|].
  intros l2 d' Hl2 Hs2 (Hb2 & _). apply (IH l2 r' d'); [by rewrite Hb2|done|lia|lia].
Qed.

Definition headers (d : PassthroughDecoder) : list (list Z * PacketWriteEndInfo * Z) :=
  [(ident d, EndPage, 0); (comment d, NormalPacket, 0); (setup d, EndPage, 0)].

Lemma write_headers_spec d (Q : res DecoderError unit -> PassthroughDecoder -> Prop) :
  bos d = false ->
  (forall w, written w = written (wtr d) ++ (emit_all (core (wtr d)) (stream_serial d) (headers d)).1 ->
     core w = (emit_all (core (wtr d)) (stream_serial d) (headers d)).2 -> Q (Ok tt) (set_bos true (set_wtr w d))) ->
  wp False write_headers Q d.
Proof.
  intros Hb HQ. unfold write_headers. wp_run. rewrite Hb. wp_run. apply put_spec. intros w1 E1 F1. wp_run.
  apply put_spec. simpl. intros w2 E2 F2. wp_run. apply put_spec. simpl. intros w3 E3 F3. wp_run.
  apply (HQ w3); simpl; rewrite ?E3, ?E2, ?E1, ?F3, ?F2, ?F1;
    destruct (emit (core (wtr d)) _ _) as [b1 c1]; simpl; destruct (emit c1 _ _) as [b2 c2]; simpl;
    destruct (emit c2 _ _) as [b3 c3]; simpl; [|done].
  by rewrite app_nil_r, <- !(assoc_L (++)).
Qed.

(** Draining a decoder that has not started. *)
Lemma drain_outputs (d : PassthroughDecoder) (l : list OggPacket) (r' : PacketReader) (rounds fuel : nat) :
  bos d = false -> written (wtr d) = [] -> supplies (rdr d) l r' -> (length l < rounds)%nat -> (length l < fuel)%nat ->
  wp False (drain rounds fuel) (fun r d' => exists outs, r = Ok outs /\
    concat (raw_bytes <$> outs) ++ written (wtr d') =
      (emit_all (core (wtr d)) (stream_serial d) (headers d ++ audio_packets (ofsgp_page d) l)).1 /\
    (audio_packets (ofsgp_page d) l = [] \/ written (wtr d') = [])) d.
Proof.
  intros Hb Hw Hs Hr Hf. destruct rounds as [|rounds]; [lia|]. cbn [drain]. unfold passthrough_next_packet. wp_run.
  apply write_headers_spec; [done|]. intros w E F. set (d1 := set_bos true (set_wtr w d)).
  wp_use (drain_step rounds fuel l r' d1 d1); [|done|done|done| |by apply packet_loop_spec].
  - intros [x|?|] d2 _; [|done..]. intros Hx. wp_use Hx. intros r d3 _ (outs & -> & Ho & He). exists outs. split_and!; [done| |done].
    rewrite Ho, emit_all_app. unfold out, d1. cbn [fst snd wtr set_bos set_wtr stream_serial ofsgp_page]. by rewrite E, Hw, F.
  - intros l2 d' Hl2 Hs2 (Hb2 & _). apply (drain_started rounds fuel l2 r' d'); [by rewrite Hb2|done|lia|lia].
Qed.

(** The passthrough decoder outputs the track: a decoder that has not started, drained packet by
    packet, gives the bytes of one Ogg stream made of the three headers and then every audio packet of
    the track in order, with its serial number and with positions relative to the offset; nothing is
    left in the writer when there is audio. *)
Theorem passthrough_output (d : PassthroughDecoder) (l : list OggPacket) (r' : PacketReader) (rounds fuel : nat) :
  bos d = false -> written (wtr d) = [] -> supplies (rdr d) l r' -> (length l < rounds)%nat -> (length l < fuel)%nat ->
  exists outs d', drain rounds fuel d = (Ok outs, d') /\
    concat (raw_bytes <$> outs) ++ written (wtr d') =
      (emit_all (core (wtr d)) (stream_serial d) (headers d ++ audio_packets (ofsgp_page d) l)).1 /\
    (audio_packets (ofsgp_page d) l = [] \/ written (wtr d') = []).
Proof.
  intros Hb Hw Hs Hr Hf. pose proof (drain_outputs d l r' rounds fuel Hb Hw Hs Hr Hf) as HD.
  unfold wp in HD. destruct (drain rounds fuel d) as [[outs|e|] d'].
  - destruct HD as (outs' & [= <-] & Ho & He). by exists outs, d'.
  - by destruct HD as (? & ? & _).
  - done.
Qed.

End output.

(** ** The decoder in the player *)

(** A backend whose decoder is this one; running out of fuel, which [passthrough_output] excludes, is an
    error. *)
Definition with_passthrough (Ogg : OggCrate) (streaming_only : bool) (fuel : nat) (B : Backend) : Backend := {|
  Decoder := PassthroughDecoder;
  Sample := Sample;
  next_packet d := match passthrough_next_packet fuel d with
                   | (Ok x, d) => (inr x, d)
                   | (Err (PassthroughError e), d) => (inl e, d)
                   | (Panic, d) => (inl "out of fuel"%string, d)
                   end;
  decoder_seek pos d := match passthrough_seek streaming_only pos d with
                        | (Ok x, d) => (inr x, d)
                        | (Err (PassthroughError e), d) => (inl e, d)
                        | (Panic, d) => (inl "panic"%string, d)
                        end;
  Sink := Sink; sink_start := sink_start; sink_stop := sink_stop; sink_write := sink_write;
  Controller := Controller; range_to_end_available := range_to_end_available;
  fetch_next_and_wait := fetch_next_and_wait; read_ahead_length := read_ahead_length;
  AudioItem := AudioItem; NormalisationData := NormalisationData; Factor := Factor; get_factor := get_factor;
  Dsp := Dsp; amplify := amplify; Clock := Clock; read_clock := read_clock
|}.

(** Once a packet was asked for, the deployed build cannot seek, not even to the start. *)
Lemma streaming_seek_fails {Ogg : OggCrate} pos d :
  bos d = true -> passthrough_seek true pos d = (Err (PassthroughError "seek is unsupported in streaming-only mode"), d).
Proof. intros Hb. unfold passthrough_seek, mbind, eff_bind, gets. by rewrite Hb, andb_false_r. Qed.

Lemma put_any {Ogg : OggCrate} data info gp d (Q : res DecoderError unit -> PassthroughDecoder -> Prop) :
  (forall r w, Q r (set_wtr w d)) -> wp True (put data info gp) Q d.
Proof. intros HQ. unfold wp, put. destruct (write_packet _ _ _ _ _) as [[e|[]] w]; apply HQ. Qed.

Lemma packet_loop_bos {Ogg : OggCrate} {Sample} fuel : forall d,
  bos d = true -> wp True (packet_loop (Sample := Sample) fuel) (fun _ d' => bos d' = true) d.
Proof.
  induction fuel as [|fuel IH]; intros d Hb; simpl; [by wp_run|]. unfold next_ogg_packet. wp_run.
  destruct (read_packet (rdr d)) as [[[|e]|[pck|]] rd]; simpl; wp_run; [done..| |done]. simpl.
  destruct (_ || _); [by apply IH|].
  assert (Hgo : forall d0 inf gp, bos d0 = true -> wp True (_ ← put (pck_data pck) inf gp;
      data ← gets (fun d => written (wtr d));
      match data with
      | [] => packet_loop fuel
      | _ => _ ← modify (fun d => set_wtr (take_written (wtr d)) d);
             mret (Some (mkAudioPacketPosition (pcm_to_ms (absgp_page pck)) false, Raw (Sample := Sample) data))
      end) (fun _ d' => bos d' = true) d0).
  { intros d0 inf gp Hb0. wp_run. apply put_any. intros [[]|e|] w; [|done..]. wp_run. simpl.
    destruct (written w); [by apply IH|by wp_run]. }
  destruct (last_in_stream pck); [do 3 wp_step|destruct (last_in_page pck); wp_step]; by apply Hgo.
Qed.

Lemma next_packet_sets_bos {Ogg : OggCrate} {Sample} fuel d x d' :
  passthrough_next_packet (Sample := Sample) fuel d = (Ok x, d') -> bos d' = true.
Proof.
  intros E.
  assert (H : wp True (passthrough_next_packet (Sample := Sample) fuel) (fun r d' => is_ok r -> bos d' = true) d).
  { unfold passthrough_next_packet, write_headers. wp_run. destruct (bos d) eqn:Hb; wp_run.
    { wp_use (packet_loop_bos (Sample := Sample)); [|done]. auto. }
    apply put_any. intros [[]|e|] w1; [|done..]. wp_run. apply put_any. intros [[]|e|] w2; [|done..]. wp_run.
    apply put_any. intros [[]|e|] w3; [|done..]. wp_run. wp_use (packet_loop_bos (Sample := Sample)); [|done]. auto. }
  unfold wp in H. rewrite E in H. by apply H.
Qed.

(** In the deployed build, repeating a track ends the program: after its decoder has been asked for a
    packet, loading the track that ended from its start (or any position it is not at) exits. *)
Theorem streaming_repeat_exits (Ogg : OggCrate) (fuel : nat) (B : Backend) (L : Loaders (H := with_passthrough Ogg true fuel B))
    (p : PlayerInternal (L := L)) (t : SpotifyUri) (id : Z) (l : PlayerLoadedTrackData (H := with_passthrough Ogg true fuel B))
    (d : PassthroughDecoder)
    (x : option (AudioPacketPosition * AudioPacket Sample)) (play : bool) (pos : Z) :
  ps p = PsEndOfTrack t id l -> passthrough_next_packet fuel d = (Ok x, decoder l) -> pos <> stream_position_ms l ->
  (round (Some (CmdLoad t play pos)) p).1 = Panic.
Proof.
  intros Hs Hd Hpos. apply next_packet_sets_bos in Hd. eapply failed_repeat_exits; [done|done|].
  simpl. by rewrite (streaming_seek_fails pos (decoder l) Hd).
Qed.

(** ** Examples *)

Definition info_byte (i : PacketWriteEndInfo) : Z := match i with NormalPacket => 0 | EndPage => 1 | EndStream => 2 end.

(** Pages are written when they are complete. *)
Definition toy_ogg : OggCrate := {|
  PacketReader := list OggPacket;
  read_packet r := match r with [] => (inr None, []) | p :: r => (inr (Some p), r) end;
  read_packet_expected r := match r with [] => (inl (OtherReadError "end"), []) | p :: r => (inr p, r) end;
  delete_unread_packets r := r;
  seek_absgp _ r := (inr true, r);
  PacketWriter := list Z * list Z;
  packet_writer_new := ([], []);
  write_packet data serial info gp w :=
    let page := w.2 ++ [gp] ++ data in
    (inr tt, match info with NormalPacket => (w.1, page) | _ => (w.1 ++ [serial; info_byte info] ++ page, []) end);
  written w := w.1;
  take_written w := ([], w.2);
  ms_to_pcm ms := ms * 44;
  pcm_to_ms pcm := pcm / 44
|}.

Definition toy_emit (c : list Z) (serial : Z) (op : list Z * PacketWriteEndInfo * Z) : list Z * list Z :=
  let '(data, info, gp) := op in
  let page := c ++ [gp] ++ data in
  match info with NormalPacket => ([], page) | _ => ([serial; info_byte info] ++ page, []) end.

Program Definition toy_writer : LawfulWriter (H := toy_ogg) := {|
  Core := list Z;
  core w := w.2;
  emit := toy_emit
|}.
Next Obligation. intros data serial [] gp w; eexists; simpl; (split; [reflexivity|]); simpl; by rewrite ?app_nil_r. Qed.
Next Obligation. done. Qed.
Next Obligation. done. Qed.

Definition toy_packets : list OggPacket :=
  [mkOggPacket [10] 0 false true; mkOggPacket [11] 44 false false; mkOggPacket [12] 44 false true; mkOggPacket [13] 88 true true].

Definition toy_decoder : PassthroughDecoder (Ogg := toy_ogg) :=
  mkPassthrough (Ogg := toy_ogg) toy_packets ([], []) false false 0 7 [1] [3] [5].

Lemma passthrough_output_witness :
  exists outs d', drain (H := toy_ogg) (Sample := Z) 9 9 toy_decoder = (Ok outs, d') /\
    concat (raw_bytes <$> outs) ++ (written (OggCrate := toy_ogg) (wtr d')) =
      [7; 1; 0; 1; 7; 1; 0; 3; 0; 5; 7; 1; 44; 11; 44; 12; 7; 2; 88; 13].
Proof.
  destruct (passthrough_output (H0 := toy_writer) (Sample := Z) toy_decoder toy_packets [] 9 9) as (outs & d' & E & Ho & _);
    [done|done| |simpl; lia|simpl; lia|].
  { repeat (eapply supplies_more; [reflexivity|]). eapply supplies_end; [reflexivity|by left]. }
  exists outs, d'. by split.
Defined.

Definition toy_player : Backend := with_passthrough toy_ogg true 9 (toy true true).

Definition no_loaders : Loaders (H := toy_player) := {|
  Loader := unit; load_track _ _ := tt; is_terminated _ := false; loader_poll l := (Pending, l)
|}.

(** The decoder at the end of its track, in a player that has reached it. *)
Definition toy_drained : PassthroughDecoder (Ogg := toy_ogg) :=
  (passthrough_next_packet (Ogg := toy_ogg) (Sample := Z) 9
    (mkPassthrough (Ogg := toy_ogg) [] ([], []) true true 0 7 [1] [3] [5])).2.
Definition toy_data : PlayerLoadedTrackData (H := toy_player) := mkLoaded toy_player toy_drained tt tt tt 40000 3000 2000 false.
Definition toy_at_end : PlayerInternal (B := toy_player) (L := no_loaders) :=
  set_ps (PsEndOfTrack toy_track 4 toy_data)
    (player_new (B := toy_player) (L := no_loaders) (mkPlayerConfig true true NAuto None) [] tt 0).

Lemma streaming_repeat_exits_witness : (round (Some (CmdLoad toy_track true 0)) toy_at_end).1 = Panic.
Proof.
  apply (streaming_repeat_exits toy_ogg 9 (toy true true) no_loaders toy_at_end toy_track 4 toy_data
    (mkPassthrough (Ogg := toy_ogg) [] ([], []) true true 0 7 [1] [3] [5]) None true 0);
    [reflexivity|reflexivity|discriminate].
Defined.
