(* ===== verification/AudioFetch.v ===== *)
(** * Audio file download ([native/librespot/audio/src/fetch/mod.rs] and [receive.rs])

    The random-access download: the loop of [audio_file_fetch] serves fetch commands and the data that
    the [receive_data] tasks send it, readers wait for the bytes they need, and all of them share the
    sets of the requested and the downloaded bytes. The tasks are interleaved by [step]; the content
    server, the disk and the floating-point estimate of how much to prefetch are parameters. *)
From S2P Require Import Prelude RangeSet Effect Streaming Readers.

(** ** Data *)

Inductive AudioFileError := EChannel | EHeader | ENoData | EOutput | EStatusCode (code : Z) | EWaitTimeout
| EBrokenPipe | EDisk | ERequest | EDataLoss | EBody.

Record AudioFetchParams := mkParams {
  minimum_download_size : Z;
  minimum_throughput : Z;
  initial_ping_time_estimate : Z;
  maximum_assumed_ping_time : Z
}.

(** Durations are in milliseconds, response times in nanoseconds. *)
Definition default_params : AudioFetchParams := mkParams (64 * 1024) (8 * 1024) 500 1500.

Record AudioFileShared := mkShared {
  file_size : Z;
  bytes_per_second : Z;
  requested : RangeSet;
  downloaded : RangeSet;
  download_streaming : bool;
  download_slots : Z;
  ping_time_ms : Z;
  read_position : Z;
  throughput : Z
}.

Record Response := mkResponse { code : Z; body : option (list Z) }.

Inductive ReceivedData :=
| Throughput (t : Z)
| ResponseTime (ns : Z)
| Data (offset : Z) (data : list Z).

Inductive StreamLoaderCommand := Fetch (range : Range) | Close.

(** A [receive_data] task: its request, what it has received, and its local variables. *)
Record Receiver := mkReceiver {
  rq_offset : Z;
  rq_length : Z;
  initial_response : option Response;
  at_offset : Z;
  actual_length : Z;
  permit : bool;
  measure_ping_time : bool;
  measure_throughput : bool
}.

Definition receiver_new (offset length : Z) (initial : option Response) : Receiver :=
  mkReceiver offset length initial offset 0 false true true.

(** The loop's own state, the temporary file, the channels and the tasks. [output] and [complete_tx]
    say whether the loop still has the file and the channel, [completed] that the file was sent on it.
    [running] is false once the loop has ended and its ends of the channels are dropped. *)
Record AudioFileFetch := mkFetch {
  shared : AudioFileShared;
  output : bool;
  complete_tx : bool;
  completed : bool;
  disk : list Z;
  network_response_times : list Z;
  params : AudioFetchParams;
  file_data : list ReceivedData;
  commands : list StreamLoaderCommand;
  receivers : list Receiver;
  running : bool
}.

Definition set_shared (s : AudioFileShared) (f : AudioFileFetch) : AudioFileFetch :=
  mkFetch s (output f) (complete_tx f) (completed f) (disk f) (network_response_times f) (params f) (file_data f) (commands f) (receivers f) (running f).
Definition set_disk (d : list Z) (f : AudioFileFetch) : AudioFileFetch :=
  mkFetch (shared f) (output f) (complete_tx f) (completed f) d (network_response_times f) (params f) (file_data f) (commands f) (receivers f) (running f).
Definition set_handles (o : bool) (tx : bool) (c : bool) (f : AudioFileFetch) : AudioFileFetch :=
  mkFetch (shared f) o tx c (disk f) (network_response_times f) (params f) (file_data f) (commands f) (receivers f) (running f).
Definition set_times (t : list Z) (f : AudioFileFetch) : AudioFileFetch :=
  mkFetch (shared f) (output f) (complete_tx f) (completed f) (disk f) t (params f) (file_data f) (commands f) (receivers f) (running f).
Definition set_file_data (q : list ReceivedData) (f : AudioFileFetch) : AudioFileFetch :=
  mkFetch (shared f) (output f) (complete_tx f) (completed f) (disk f) (network_response_times f) (params f) q (commands f) (receivers f) (running f).
Definition set_commands (q : list StreamLoaderCommand) (f : AudioFileFetch) : AudioFileFetch :=
  mkFetch (shared f) (output f) (complete_tx f) (completed f) (disk f) (network_response_times f) (params f) (file_data f) q (receivers f) (running f).
Definition set_receivers (r : list Receiver) (f : AudioFileFetch) : AudioFileFetch :=
  mkFetch (shared f) (output f) (complete_tx f) (completed f) (disk f) (network_response_times f) (params f) (file_data f) (commands f) r (running f).
Definition end_loop (f : AudioFileFetch) : AudioFileFetch :=
  mkFetch (shared f) (output f) (complete_tx f) (completed f) (disk f) (network_response_times f) (params f) (file_data f) (commands f) (receivers f) false.

Definition set_status (req down : RangeSet) (s : AudioFileShared) : AudioFileShared :=
  mkShared (file_size s) (bytes_per_second s) req down (download_streaming s) (download_slots s) (ping_time_ms s) (read_position s) (throughput s).
Definition set_download_streaming (b : bool) (s : AudioFileShared) : AudioFileShared :=
  mkShared (file_size s) (bytes_per_second s) (requested s) (downloaded s) b (download_slots s) (ping_time_ms s) (read_position s) (throughput s).
Definition set_slots (n : Z) (s : AudioFileShared) : AudioFileShared :=
  mkShared (file_size s) (bytes_per_second s) (requested s) (downloaded s) (download_streaming s) n (ping_time_ms s) (read_position s) (throughput s).
Definition set_ping_time (ns : Z) (s : AudioFileShared) : AudioFileShared :=
  mkShared (file_size s) (bytes_per_second s) (requested s) (downloaded s) (download_streaming s) (download_slots s)
    (wrap usize_bits (ns / 1000000)) (read_position s) (throughput s).
Definition set_read_position (p : Z) (s : AudioFileShared) : AudioFileShared :=
  mkShared (file_size s) (bytes_per_second s) (requested s) (downloaded s) (download_streaming s) (download_slots s)
    (ping_time_ms s) (wrap usize_bits p) (throughput s).
Definition set_throughput (t : Z) (s : AudioFileShared) : AudioFileShared :=
  mkShared (file_size s) (bytes_per_second s) (requested s) (downloaded s) (download_streaming s) (download_slots s)
    (ping_time_ms s) (read_position s) t.

Definition ping_time (p : AudioFetchParams) (s : AudioFileShared) : Z :=
  if 0 <? ping_time_ms s then ping_time_ms s else initial_ping_time_estimate p.

Definition PARTIAL_CONTENT : Z := 206.

(** ** The loop's operations *)

Section fetch.
(** [stream_from_cdn] can make a request; writing to the temporary file succeeds; the channel of the
    complete file has a receiver; [desired_pending ping bps throughput] is how many bytes should be
    pending. *)
Context (stream_from_cdn : Z -> Z -> bool) (disk_write : Z -> list Z -> bool) (complete_rx : bool)
  (desired_pending : Z -> Z -> Z -> Z).

Definition F := eff AudioFileFetch AudioFileError.

Definition update_shared (g : AudioFileShared -> AudioFileShared) : F unit := modify (fun f => set_shared (g (shared f)) f).

(** The loop over the ranges to request: each is marked as requested and gets a task. *)
Fixpoint request_ranges (ranges : RangeSet) : F unit :=
  match ranges with
  | [] => mret tt
  | range :: ranges =>
      if stream_from_cdn (range_start range) (range_length range) then
        _ ← update_shared (fun s => set_status (add_range (requested s) range) (downloaded s) s);
        _ ← modify (fun f => set_receivers (receivers f ++ [receiver_new (range_start range) (range_length range) None]) f);
        request_ranges ranges
      else throw ERequest
  end.

(** What [download_range] asks for: at least the minimum size, in streaming mode a second of data, and
    not past the end of the file. *)
Definition download_length (p : AudioFetchParams) (s : AudioFileShared) (offset length : Z) : Z :=
  let length := if length <? minimum_download_size p then minimum_download_size p else length in
  let length := if download_streaming s then Z.max length (throughput s) else length in
  if file_size s <? usize_add offset length then usize_sub (file_size s) offset else length.

Definition download_range (offset length : Z) : F unit :=
  f ← gets id;
  let s := shared f in
  let ranges := add_range rs_new (range_new offset (download_length (params f) s offset length)) in
  let ranges := subtract_range_set ranges (downloaded s) in
  let ranges := subtract_range_set ranges (requested s) in
  request_ranges ranges.

Definition pre_fetch_more_data (bytes : Z) : F unit :=
  s ← gets shared;
  let missing := add_range rs_new (range_new 0 (file_size s)) in
  let missing := subtract_range_set missing (downloaded s) in
  let missing := subtract_range_set missing (requested s) in
  let tail := add_range rs_new (range_new (read_position s) (usize_sub (file_size s) (read_position s))) in
  let tail := intersection tail missing in
  match tail, missing with
  | range :: _, _ => download_range (range_start range) (Z.min (range_length range) bytes)
  | [], range :: _ => download_range (range_start range) (Z.min (range_length range) bytes)
  | [], [] => mret tt
  end.

Inductive ControlFlow := Break | Continue.

Definition finish : F unit :=
  f ← gets id;
  _ ← modify (set_handles false false (completed f));
  if output f && complete_tx f then
    if complete_rx then modify (set_handles false false true) else throw EChannel
  else mret tt.

(** [seek] and [write_all] on the temporary file. *)
Definition write_at (offset : Z) (data content : list Z) : list Z :=
  let o := Z.to_nat offset in
  take o (content ++ replicate (o - length content) 0) ++ data ++ drop (o + length data) content.

Definition median (times : list Z) : F Z :=
  match times with
  | [a] => mret a
  | [a; b] => mret ((a + b) / 2)
  | [a; b; c] => mret (Z.max (Z.min a b) (Z.min (Z.max a b) c))
  | _ => stop
  end.

Definition handle_file_data (data : ReceivedData) : F ControlFlow :=
  match data with
  | Throughput t =>
      f ← gets id;
      let t := if t <? minimum_throughput (params f) then minimum_throughput (params f) else t in
      let old := throughput (shared f) in
      let avg := if 0 <? old then usize_add old t / 2 else t in
      _ ← update_shared (set_throughput avg);
      mret Continue
  | ResponseTime ns =>
      f ← gets id;
      let ns := Z.min ns (maximum_assumed_ping_time (params f) * 1000000) in
      let times := drop (length (network_response_times f) - 2) (network_response_times f) ++ [ns] in
      _ ← modify (set_times times);
      ping ← median times;
      _ ← update_shared (set_ping_time ping);
      mret Continue
  | Data offset data =>
      out ← gets output;
      if negb out then throw EOutput
      else if negb (disk_write offset data) then throw EDisk
      else
        _ ← modify (fun f => set_disk (write_at offset data (disk f)) f);
        _ ← update_shared (fun s => set_status (requested s)
              (add_range (downloaded s) (range_new offset (Z.of_nat (length data)))) s);
        s ← gets shared;
        if file_size s <=? contained_length_from_value (downloaded s) 0 then
          _ ← finish; mret Break
        else mret Continue
  end.

Definition handle_stream_loader_command (cmd : StreamLoaderCommand) : F ControlFlow :=
  match cmd with
  | Fetch request => _ ← download_range (range_start request) (range_length request); mret Continue
  | Close => mret Break
  end.

(** The end of a round: fetch more in streaming mode when too little is pending. *)
Definition keep_prefetching : F unit :=
  f ← gets id;
  let s := shared f in
  if download_streaming s && (0 <? download_slots s) then
    let pending := rs_len (minus (requested s) (downloaded s)) in
    let desired := desired_pending (ping_time (params f) s) (bytes_per_second s) (throughput s) in
    if pending <? desired then pre_fetch_more_data (usize_sub desired pending) else mret tt
  else mret tt.

(** What [select!] picks: a command, received data, or a closed channel. *)
Inductive Input := InCommand (cmd : StreamLoaderCommand) | InData (data : ReceivedData) | InClosed.

(** A round of the loop; the result says whether it goes on. *)
Definition fetch_round (inp : Input) : F bool :=
  flow ← match inp with
         | InCommand cmd => handle_stream_loader_command cmd
         | InData data => handle_file_data data
         | InClosed => mret Break
         end;
  match flow with
  | Break => mret false
  | Continue => _ ← keep_prefetching; mret true
  end.

(** The start of the loop, with the request that was already made. *)
Definition fetch_start (size bps : Z) (offset length : Z) (response : Response) (p : AudioFetchParams) : AudioFileFetch :=
  mkFetch
    (mkShared size bps (add_range rs_new (range_new offset (usize_add offset length))) rs_new false 1 0 0 0)
    true true false (replicate (Z.to_nat size) 0) [] p [] [] [receiver_new offset length (Some response)] true.

(** ** The receiving tasks *)

Definition send_data (d : ReceivedData) (f : AudioFileFetch) : AudioFileFetch := set_file_data (file_data f ++ [d]) f.

(** The rest of [receive_data] after its loop; [elapsed] are the milliseconds since the request. *)
Definition receive_finish (elapsed : Z) (r : Receiver) (f : AudioFileFetch) : AudioFileFetch :=
  let f := if measure_throughput r && (0 <? actual_length r) && (0 <? elapsed)
           then send_data (Throughput (wrap usize_bits (1000 * actual_length r / elapsed))) f else f in
  let remaining := usize_sub (rq_length r) (actual_length r) in
  let s := shared f in
  let s := if 0 <? remaining
           then set_status (subtract_range (requested s) (range_new (at_offset r) remaining)) (downloaded s) s else s in
  set_shared (set_slots (download_slots s + 1) s) f.

(** A response in the loop of [receive_data]: the task goes on, or its loop is over. *)
Definition receive_response (elapsed_ns : Z) (resp : Response) (r : Receiver) (f : AudioFileFetch)
    : option Receiver * Receiver * AudioFileFetch :=
  let '(mp, mt) := match initial_response r with Some _ => (false, false) | None => (measure_ping_time r, measure_throughput r) end in
  let '(mp, f) := if mp && (0 <? elapsed_ns / 1000000) then (false, send_data (ResponseTime elapsed_ns) f) else (mp, f) in
  let r := mkReceiver (rq_offset r) (rq_length r) None (at_offset r) (actual_length r) (permit r) mp mt in
  if negb (code resp =? PARTIAL_CONTENT) then (None, r, f)
  else match body resp with
       | None => (None, r, f)
       | Some data =>
           let n := Z.of_nat (length data) in
           let r' := mkReceiver (rq_offset r) (rq_length r) None (usize_add (at_offset r) n) (usize_add (actual_length r) n) (permit r) mp mt in
           (Some r', r', send_data (Data (at_offset r) data) f)
       end.

(** ** Readers and the controller *)

(** [read_ahead bps] is the read-ahead time in bytes. *)
Context (read_ahead : Z -> Z).

(** The first half of [AudioFileStreaming::read] at a position: nothing to read, or the length, after
    what is missing was asked for. *)
Definition read_request (position : Z) (len : Z) : F (option Z) :=
  f ← gets id;
  let s := shared f in
  let offset := wrap usize_bits position in
  if file_size s <=? offset then mret None
  else
    let length := Z.min len (usize_sub (file_size s) offset) in
    if length =? 0 then mret None
    else
      let to_request :=
        if download_streaming s
        then Z.min (usize_add length (read_ahead (bytes_per_second s))) (usize_sub (file_size s) offset)
        else length in
      let ranges := add_range rs_new (range_new offset to_request) in
      let ranges := subtract_range_set ranges (downloaded s) in
      let ranges := subtract_range_set ranges (requested s) in
      match ranges with
      | [] => mret (Some length)
      | _ =>
          if running f then
            _ ← modify (fun f => set_commands (commands f ++ map Fetch ranges) f);
            mret (Some length)
          else throw EBrokenPipe
      end.

(** The second half, after waiting: the bytes read, with the new position; without the first byte the
    wait has timed out. *)
Definition read_return (position length : Z) : F (list Z * Z) :=
  f ← gets id;
  let offset := wrap usize_bits position in
  if negb (contains (downloaded (shared f)) offset) then throw EWaitTimeout
  else
    let available := contained_length_from_value (downloaded (shared f)) offset in
    let bytes := take (Z.to_nat (Z.min length available)) (drop (Z.to_nat offset) (disk f)) in
    let position := offset + Z.of_nat (List.length bytes) in
    _ ← update_shared (set_read_position position);
    mret (bytes, position).

(** [Seek for AudioFileStreaming]: the new position. *)
Definition streaming_seek (position : Z) (pos : SeekFrom) : F Z :=
  f ← gets id;
  let s := shared f in
  let requested_pos := match pos with
                       | Start p => p
                       | End_ p => file_size s - p - 1
                       | Current p => position + p
                       end in
  if requested_pos =? position then mret position
  else
    let available := contains (downloaded s) (wrap usize_bits requested_pos) in
    let was_streaming := negb available && download_streaming s in
    _ ← (if was_streaming then update_shared (set_download_streaming false) else mret tt);
    match file_seek pos (mkIoFile (disk f) position) with
    | (Ok p, _) =>
        _ ← update_shared (set_read_position p);
        _ ← (if was_streaming then update_shared (set_download_streaming true) else mret tt);
        mret p
    | _ => throw EDisk
    end.

(** [StreamLoaderController] of a file that is being downloaded. *)
Definition range_available (range : Range) (s : AudioFileShared) : bool :=
  range_length range <=? contained_length_from_value (downloaded s) (range_start range).

Definition fetch_range_to_end_available (s : AudioFileShared) : bool :=
  range_available (range_new (read_position s) (usize_sub (file_size s) (read_position s))) s.

(** [let _ = channel.send(..)] *)
Definition fetch (range : Range) : F unit :=
  modify (fun f => if running f then set_commands (commands f ++ [Fetch range]) f else f).

(** The range of [fetch_blocking] within the file. *)
Definition clamp_range (s : AudioFileShared) (range : Range) : Range :=
  if file_size s <=? range_start range then mkRange (range_start range) 0
  else if file_size s <? range_end range then mkRange (range_start range) (usize_sub (file_size s) (range_start range))
  else range.

(** A round of the loop of [fetch_blocking] after a wake-up: done, or asked again when the range is
    neither there nor requested. *)
Definition fetch_blocking_check (range : Range) : F bool :=
  s ← gets shared;
  if range_length range <=? contained_length_from_value (downloaded s) (range_start range) then mret true
  else
    _ ← (if contained_length_from_value (rs_union (downloaded s) (requested s)) (range_start range) <? range_length range
         then fetch range else mret tt);
    mret false.

(** [fetch_next_and_wait] up to the wait. *)
Definition fetch_next (request_length wait_length : Z) : F Range :=
  s ← gets shared;
  _ ← fetch (range_new (read_position s) request_length);
  let range := clamp_range s (range_new (read_position s) wait_length) in
  _ ← fetch range;
  mret range.

End fetch.
