(* ===== verification/AudioFetchSpec.v ===== *)
(** * What the download promises ([native/librespot/audio/src/fetch/mod.rs] and [receive.rs])

    All interleavings of the loop, the receiving tasks and the readers, over a server that answers with
    bytes of the file or fails: [Inv] holds in every reachable state. Downloaded bytes are those of the
    file, and what is marked as requested is downloaded, received, or still being received. *)
From S2P Require Import Prelude RangeSet Effect Streaming Readers AudioFetch.

Section spec.
Context (stream_from_cdn : Z -> Z -> bool) (disk_write : Z -> list Z -> bool) (complete_rx : bool)
  (desired_pending : Z -> Z -> Z -> Z).
(** The file, and a bound on sizes and rates that leaves room in a [usize]. *)
Context (file : list Z) (bound : Z).
Abbreviation size := (Z.of_nat (length file)).
Context (Hbound : size <= bound) (Hroom : size + bound <= usize_max).

Abbreviation round_ := (fetch_round stream_from_cdn disk_write complete_rx desired_pending).

(** An answer to a task: an error, or a part of what it still waits for. *)
Definition honest (r : Receiver) (resp : Response) : Prop :=
  forall data, code resp = AudioFetch.PARTIAL_CONTENT -> body resp = Some data ->
    exists n, 0 <= n <= rq_length r - actual_length r /\
      data = take (Z.to_nat n) (drop (Z.to_nat (at_offset r)) file) /\ Z.of_nat (length data) = n.

Definition small_command (cmd : StreamLoaderCommand) : Prop :=
  match cmd with Fetch r => 0 <= range_start r <= size /\ 0 <= range_length r <= bound | Close => True end.

(** The rate that a task measures is below the bound. *)
Definition rate_ok (ms : Z) (r : Receiver) : Prop := 0 < ms -> 1000 * actual_length r / ms <= bound.

(** ** Steps *)

(** The loop after a round: it goes on only when the round says so. *)
Definition after_round (r : res AudioFileError bool * AudioFileFetch) : AudioFileFetch :=
  match r with (Ok true, f) => f | (_, f) => end_loop f end.

(** A task gets the download slot. *)
Definition granted (l1 : list Receiver) (r : Receiver) (l2 : list Receiver) (f : AudioFileFetch) : AudioFileFetch :=
  set_receivers (l1 ++ mkReceiver (rq_offset r) (rq_length r) (initial_response r) (at_offset r) (actual_length r)
      true (measure_ping_time r) (measure_throughput r) :: l2)
    (set_shared (set_slots (download_slots (shared f) - 1) (shared f)) f).

(** A task gets an answer and goes on or ends. *)
Definition responded (l1 : list Receiver) (r : Receiver) (l2 : list Receiver) (ns : Z) (resp : Response)
    (f : AudioFileFetch) : AudioFileFetch :=
  let '(next, r', f') := receive_response ns resp r f in
  match next with
  | Some r' => set_receivers (l1 ++ r' :: l2) f'
  | None => set_receivers (l1 ++ l2) (receive_finish (ns / 1000000) r' f')
  end.

Inductive step : AudioFileFetch -> AudioFileFetch -> Prop :=
| step_command f cmd cmds : running f = true -> commands f = cmd :: cmds ->
    step f (after_round (round_ (InCommand cmd) (set_commands cmds f)))
| step_data f d q : running f = true -> file_data f = d :: q ->
    step f (after_round (round_ (InData d) (set_file_data q f)))
| step_closed f : running f = true -> step f (after_round (round_ InClosed f))
| step_permit f l1 r l2 : receivers f = l1 ++ r :: l2 -> permit r = false -> 0 < download_slots (shared f) ->
    step f (granted l1 r l2 f)
| step_response f l1 r l2 ns resp : receivers f = l1 ++ r :: l2 -> permit r = true -> running f = true ->
    (match initial_response r with Some resp0 => resp = resp0 | None => honest r resp end) ->
    rate_ok (ns / 1000000) r ->
    step f (responded l1 r l2 ns resp f)
| step_end f l1 r l2 ms : receivers f = l1 ++ r :: l2 -> permit r = true -> running f = true -> initial_response r = None ->
    rate_ok ms r ->
    step f (set_receivers (l1 ++ l2) (receive_finish ms r f))
| step_abandon f l1 r l2 : receivers f = l1 ++ r :: l2 -> permit r = true -> running f = false ->
    step f (set_receivers (l1 ++ l2) (set_shared (set_slots (download_slots (shared f) + 1) (shared f)) f))
| step_send f cmd : running f = true -> small_command cmd -> step f (set_commands (commands f ++ [cmd]) f)
| step_mode f b : step f (set_shared (set_download_streaming b (shared f)) f)
| step_position f p : 0 <= p <= size -> step f (set_shared (set_read_position p (shared f)) f).

(** ** The invariant *)

(** Bytes a task still waits for, and bytes in a message. *)
Definition awaited (x : Z) (r : Receiver) : Prop := at_offset r <= x < rq_offset r + rq_length r.
Definition received (x : Z) (d : ReceivedData) : Prop :=
  match d with Data off data => off <= x < off + Z.of_nat (length data) | _ => False end.

Definition receiver_good (r : Receiver) : Prop :=
  0 <= rq_offset r /\ 0 <= actual_length r <= rq_length r /\ rq_offset r + rq_length r <= size /\
  at_offset r = rq_offset r + actual_length r /\
  match initial_response r with Some resp => honest r resp | None => True end.

Definition data_good (d : ReceivedData) : Prop :=
  match d with
  | Throughput t => 0 <= t <= bound
  | ResponseTime _ => True
  | Data off data => 0 <= off /\ off + Z.of_nat (length data) <= size /\
      data = take (length data) (drop (Z.to_nat off) file)
  end.

Definition ranges_good (s : RangeSet) : Prop := wf s /\ forall x, mem x s -> 0 <= x < size.

Definition shared_good (s : AudioFileShared) : Prop :=
  file_size s = size /\ ranges_good (requested s) /\ ranges_good (downloaded s) /\
  0 <= read_position s <= size /\ 0 <= throughput s <= bound.

Definition params_good (p : AudioFetchParams) : Prop :=
  0 <= minimum_download_size p <= bound /\ 0 <= minimum_throughput p <= bound.

Definition disk_good (f : AudioFileFetch) : Prop :=
  length (disk f) = length file /\
  forall x, mem x (downloaded (shared f)) -> disk f !! Z.to_nat x = file !! Z.to_nat x.

(** Nothing that is marked as requested is forgotten while the loop runs. *)
Definition accounted (f : AudioFileFetch) : Prop :=
  forall x, mem x (requested (shared f)) ->
    mem x (downloaded (shared f)) \/ Exists (received x) (file_data f) \/ Exists (awaited x) (receivers f).

Definition Core (f : AudioFileFetch) : Prop :=
  shared_good (shared f) /\ params_good (params f) /\ disk_good f /\ Forall receiver_good (receivers f) /\
  Forall data_good (file_data f) /\ Forall small_command (commands f) /\
  (completed f = true -> forall x, 0 <= x < size -> mem x (downloaded (shared f))) /\
  (length (network_response_times f) <= 3)%nat.

Definition Inv (f : AudioFileFetch) : Prop := Core f /\ (running f = true -> accounted f).

(** ** The start *)

Lemma ranges_good_nil : ranges_good [].
Proof. split; [done|]. intros x Hx. by apply mem_nil in Hx. Qed.

Lemma ranges_good_add s r :
  ranges_good s -> 0 <= range_start r -> 0 <= range_length r -> range_start r + range_length r <= size ->
  ranges_good (add_range s r) /\ (forall x, mem x (add_range s r) <-> mem x s \/ in_range x r).
Proof using Hroom Hbound.
  intros [Hw Hs] H1 H2 H3. assert (range_fits r) by (unfold range_fits; lia).
  destruct (add_range_from 0 s r) as [Hw' Hm]; [done|done|done|]. split; [split; [done|]|done].
  intros x [Hx|Hx]%Hm; [by apply Hs|]. unfold in_range in Hx. lia.
Qed.

Lemma ranges_good_subtract s r :
  ranges_good s -> range_fits r ->
  ranges_good (subtract_range s r) /\ (forall x, mem x (subtract_range s r) <-> mem x s /\ ~ in_range x r).
Proof.
  intros [Hw Hs] Hr. destruct (subtract_range_from 0 s r) as [Hw' Hm]; [done|done|]. split; [split; [done|]|done].
  intros x [Hx _]%Hm. by apply Hs.
Qed.

Lemma ranges_good_subtract_set s other :
  ranges_good s -> ranges_good other ->
  ranges_good (subtract_range_set s other) /\ (forall x, mem x (subtract_range_set s other) <-> mem x s /\ ~ mem x other).
Proof.
  intros [Hw Hs] [Hw' _]. destruct (subtract_range_set_spec other s) as [Hw2 Hm]; [by apply wf_Forall_fits|done|].
  split; [split; [done|]|done]. intros x [Hx _]%Hm. by apply Hs.
Qed.

Lemma ranges_good_fits s r : ranges_good s -> r ∈ s -> 0 <= range_start r /\ 0 < range_length r /\ range_start r + range_length r <= size.
Proof.
  intros [Hw Hs] Hr. destruct (wf_elem_ok _ _ _ Hw Hr) as [(H1 & H2 & H3) H4].
  assert (Hm : mem (range_start r + range_length r - 1) s).
  { apply Exists_exists. exists r. split; [done|]. unfold in_range. lia. }
  apply Hs in Hm. lia.
Qed.

(** ** The loop *)

Lemma inv_request f r :
  Inv f -> 0 <= range_start r -> 0 < range_length r -> range_start r + range_length r <= size ->
  Inv (set_receivers (receivers f ++ [receiver_new (range_start r) (range_length r) None])
    (set_shared (set_status (add_range (requested (shared f)) r) (downloaded (shared f)) (shared f)) f)).
Proof using Hbound Hroom.
  intros [((S1 & S2 & S3 & S4 & S5) & HP & HD & HR & HQ & HC & HF & HT) HA] H1 H2 H3.
  destruct (ranges_good_add (requested (shared f)) r) as [Hg Hm]; [done|done|lia|done|].
  split; [split_and!; try done|].
  - apply Forall_app; split; [done|]. apply Forall_singleton. unfold receiver_good; simpl. split_and!; lia || done.
  - simpl. intros Hrun x [Hx|Hx]%Hm; simpl.
    + destruct (HA Hrun x Hx) as [?|[?|?]]; [by left|by right; left|]. right; right. apply Exists_app. by left.
    + right; right. apply Exists_app. right. apply Exists_cons. left. unfold awaited; simpl. unfold in_range in Hx. lia.
Qed.

Lemma request_ranges_inv ranges : forall f,
  Inv f -> Forall (fun r => 0 <= range_start r /\ 0 < range_length r /\ range_start r + range_length r <= size) ranges ->
  wp False (request_ranges stream_from_cdn ranges) (fun _ f' => Inv f') f.
Proof using Hbound Hroom.
  induction ranges as [|r ranges IH]; intros f HI Hr; simpl; [by wp_run|].
  apply Forall_cons in Hr as [(H1 & H2 & H3) Hr]. destruct (stream_from_cdn _ _); [|by wp_run].
  unfold update_shared. wp_run. apply IH; [|done]. exact (inv_request f r HI H1 H2 H3).
Qed.

Lemma good_ranges_Forall s : ranges_good s ->
  Forall (fun r => 0 <= range_start r /\ 0 < range_length r /\ range_start r + range_length r <= size) s.
Proof. intros Hs. apply Forall_forall. intros r Hr. by apply (ranges_good_fits s). Qed.

Lemma download_length_spec p s offset length :
  params_good p -> shared_good s -> 0 <= offset <= size -> 0 <= length <= bound ->
  0 <= download_length p s offset length /\ offset + download_length p s offset length <= size.
Proof using Hroom.
  intros (P1 & _) (S1 & _ & _ & _ & S5) Ho Hl. unfold download_length. rewrite S1.
  set (l1 := if length <? _ then _ else _). assert (0 <= l1 <= bound) as Hl1 by (unfold l1; case_match; lia).
  set (l2 := if download_streaming s then _ else _). assert (0 <= l2 <= bound) as Hl2 by (unfold l2; case_match; lia).
  rewrite usize_add_small by lia. destruct (size <? offset + l2) eqn:E.
  - rewrite usize_sub_small by lia. lia.
  - apply Z.ltb_ge in E. lia.
Qed.

Lemma download_range_inv offset length f :
  Inv f -> 0 <= offset <= size -> 0 <= length <= bound ->
  wp False (download_range stream_from_cdn offset length) (fun _ f' => Inv f') f.
Proof using Hbound Hroom.
  intros HI Ho Hl. unfold download_range. wp_run. simpl. assert (HI' := HI).
  destruct HI' as [(HS & HP & _) _]. destruct (download_length_spec (params f) (shared f) offset length HP HS Ho Hl) as [L1 L2].
  destruct HS as (S1 & S2 & S3 & _). apply request_ranges_inv; [done|]. apply good_ranges_Forall.
  apply ranges_good_subtract_set; [|done]. apply ranges_good_subtract_set; [|done].
  apply ranges_good_add; [apply ranges_good_nil|simpl; lia..].
Qed.

Lemma ranges_good_intersection s other : ranges_good s -> ranges_good other -> ranges_good (intersection s other).
Proof.
  intros [Hw Hs] [Hw' _]. destruct (intersection_loop_spec (length s + length other) 0 0 s other rs_new) as [Hi Hm]; [done..|].
  split; [done|]. intros x Hx. apply Hm in Hx as [Hx|[Hx _]]; [by apply mem_nil in Hx|by apply Hs].
Qed.

Lemma usize_nonneg a b : 0 <= usize_sub a b.
Proof. apply (wrap_fits usize_bits). done. Qed.

Lemma pre_fetch_inv bytes f :
  Inv f -> 0 <= bytes -> wp False (pre_fetch_more_data stream_from_cdn bytes) (fun _ f' => Inv f') f.
Proof using Hbound Hroom.
  intros HI Hb. unfold pre_fetch_more_data. wp_run. assert (HI' := HI).
  destruct HI' as [((S1 & S2 & S3 & S4 & S5) & _) _].
  set (missing := subtract_range_set _ (requested _)). set (tail := intersection _ _).
  assert (Hm : ranges_good missing).
  { apply ranges_good_subtract_set; [|done]. apply ranges_good_subtract_set; [|done].
    apply ranges_good_add; [apply ranges_good_nil|simpl; lia..]. }
  assert (Ht : ranges_good tail).
  { apply ranges_good_intersection; [|done]. rewrite S1, usize_sub_small by lia.
    apply ranges_good_add; [apply ranges_good_nil|simpl; lia..]. }
  assert (Hd : forall s r, ranges_good s -> r ∈ s ->
    wp False (download_range stream_from_cdn (range_start r) (Z.min (range_length r) bytes)) (fun _ f' => Inv f') f).
  { intros s r Hs Hr. destruct (ranges_good_fits s r Hs Hr) as (? & ? & ?). apply download_range_inv; [done|lia|lia]. }
  clearbody missing tail. destruct tail as [|r tail].
  - destruct missing as [|r missing]; [by wp_run|]. apply (Hd (r :: missing)); [done|apply list_elem_of_here].
  - apply (Hd (r :: tail)); [done|apply list_elem_of_here].
Qed.

Lemma keep_prefetching_inv f :
  Inv f -> wp False (keep_prefetching stream_from_cdn desired_pending) (fun _ f' => Inv f') f.
Proof using Hbound Hroom.
  intros HI. unfold keep_prefetching. wp_run. simpl. destruct (_ && _); [|by wp_run].
  case_match; [|by wp_run]. apply pre_fetch_inv; [done|]. apply usize_nonneg.
Qed.

Lemma handle_command_inv cmd f :
  Inv f -> small_command cmd -> wp False (handle_stream_loader_command stream_from_cdn cmd) (fun _ f' => Inv f') f.
Proof using Hbound Hroom.
  intros HI Hc. destruct cmd as [r|]; simpl; [|by wp_run]. wp_run. simpl in Hc.
  wp_use download_range_inv; [|done|lia|lia]. intros [?|?|] f' ? HI'; [by wp_run|done|done].
Qed.

(** ** Received data *)

Lemma write_at_lookup off data content x :
  0 <= off -> off + Z.of_nat (length data) <= Z.of_nat (length content) -> 0 <= x ->
  write_at off data content !! Z.to_nat x =
    if decide (off <= x < off + Z.of_nat (length data)) then data !! Z.to_nat (x - off) else content !! Z.to_nat x.
Proof.
  intros H1 H2 H3. unfold write_at. rewrite take_app_le by lia.
  assert (length (take (Z.to_nat off) content) = Z.to_nat off) as Hl by (rewrite length_take; lia).
  destruct (decide (x < off)).
  { rewrite lookup_app_l by lia. rewrite lookup_take_lt by lia. by destruct (decide _); [lia|]. }
  rewrite lookup_app_r by lia. rewrite Hl.
  destruct (decide (x < off + Z.of_nat (length data))).
  - rewrite lookup_app_l by lia. destruct (decide _); [|lia]. f_equal. lia.
  - rewrite lookup_app_r by lia. destruct (decide _); [lia|]. rewrite lookup_drop. f_equal. lia.
Qed.

Lemma write_at_length off data content :
  0 <= off -> off + Z.of_nat (length data) <= Z.of_nat (length content) ->
  length (write_at off data content) = length content.
Proof. intros H1 H2. unfold write_at. rewrite !length_app, length_take, length_app, length_replicate, length_drop. lia. Qed.

(** Changing what the tasks share, the download aside. *)
Lemma core_shared s f : Core f -> shared_good s -> downloaded s = downloaded (shared f) -> Core (set_shared s f).
Proof.
  intros (HS & HP & (HD1 & HD2) & HR & HQ & HC & HF & HT) Hs Hd. split_and!; try done.
  - split; simpl; [done|]. by rewrite Hd.
  - simpl. by rewrite Hd.
Qed.

(** The state after a part [data] of the file arrived. *)
Definition stored (off : Z) (data : list Z) (f : AudioFileFetch) : AudioFileFetch :=
  let s := shared f in
  set_shared (set_status (requested s) (add_range (downloaded s) (range_new off (Z.of_nat (length data)))) s)
    (set_disk (write_at off data (disk f)) f).

Lemma stored_core off data f :
  Core f -> data_good (Data off data) ->
  Core (stored off data f) /\
  (forall x, mem x (downloaded (shared (stored off data f))) <->
     mem x (downloaded (shared f)) \/ received x (Data off data)).
Proof using Hbound Hroom.
  intros ((S1 & S2 & S3 & S4 & S5) & HP & (HD1 & HD2) & HR & HQ & HC & HF & HT) (G1 & G2 & G3).
  destruct (ranges_good_add (downloaded (shared f)) (range_new off (Z.of_nat (length data)))) as [Hg Hm];
    [done|simpl; lia..|].
  assert (Hm' : forall x, mem x (downloaded (shared (stored off data f))) <->
     mem x (downloaded (shared f)) \/ received x (Data off data)) by done.
  split; [|done]. split; [split_and!; simpl; done || lia|]. split; [done|]. split; [split|split_and!; try done].
  - simpl. rewrite write_at_length; lia.
  - intros x Hx. pose proof (proj2 Hg x Hx) as Hx0. simpl. rewrite write_at_lookup by lia.
    destruct (decide _) as [Hin|Hout].
    + rewrite G3, lookup_take_lt, lookup_drop by lia. f_equal. lia.
    + apply Hm' in Hx as [Hx|Hx]; [by apply HD2|]. simpl in Hx. lia.
  - simpl. intros Hc x Hx. apply Hm. left. by apply HF.
Qed.

Lemma full_downloaded f :
  Core f -> (size <= contained_length_from_value (downloaded (shared f)) 0) ->
  forall x, 0 <= x < size -> mem x (downloaded (shared f)).
Proof.
  intros ((_ & _ & [Hw _] & _) & _) Hl x Hx. apply (contained_length_maximal _ 0 Hw). lia.
Qed.

Definition data_post (f0 : AudioFileFetch) (r : res AudioFileError ControlFlow) (f' : AudioFileFetch) : Prop :=
  match r with Ok Continue => Inv f' /\ running f' = running f0 | _ => Core f' end.

(** Everything but the message being handled is accounted for. *)
Definition accounted_but (d : ReceivedData) (f : AudioFileFetch) : Prop :=
  forall x, mem x (requested (shared f)) ->
    received x d \/ mem x (downloaded (shared f)) \/ Exists (received x) (file_data f) \/ Exists (awaited x) (receivers f).

Lemma handle_part off data f :
  Core f -> data_good (Data off data) -> accounted_but (Data off data) f ->
  wp False (handle_file_data disk_write complete_rx (Data off data)) (data_post f) f.
Proof using Hbound Hroom.
  intros HC Hd HA. unfold handle_file_data. wp_run. destruct (output f); simpl; [|by wp_run].
  destruct (disk_write off data); simpl; [|by wp_run]. unfold update_shared. wp_run.
  destruct (stored_core off data f HC Hd) as [HS Hm].
  change (set_shared _ (set_disk _ f)) with (stored off data f).
  assert (Hsz : file_size (shared (stored off data f)) = size) by apply HS.
  rewrite Hsz. destruct (Z.leb_spec size (contained_length_from_value (downloaded (shared (stored off data f))) 0)) as [Hfull|_].
  - pose proof (full_downloaded _ HS Hfull) as Hall. unfold finish. wp_run. simpl.
    destruct HS as (H1 & H2 & H3 & H4 & H5 & H6 & H7 & H8).
    destruct (output f && complete_tx f); [destruct complete_rx|]; wp_run; by split_and!.
  - wp_run. split; [|done]. split; [done|]. intros _ x Hx. destruct (HA x Hx) as [?|[?|?]].
    + left. apply Hm. by right.
    + left. apply Hm. by left.
    + by right.
Qed.

Lemma average_bound old t :
  0 <= old <= bound -> 0 <= t <= bound -> 0 <= usize_add old t / 2 <= bound.
Proof using Hroom.
  intros Ho Ht. unfold usize_add, wrap. change usize_bits with 32. pose proof (Z.mod_pos_bound (old + t) (2 ^ 32)) as Hb.
  assert (Hu : usize_max = 2 ^ 32 - 1) by done.
  destruct (decide (old + t < 2 ^ 32)).
  - rewrite Z.mod_small by lia. split; [apply Z.div_pos; lia|]. apply Z.div_le_upper_bound; lia.
  - split; [apply Z.div_pos; lia|]. apply Z.div_le_upper_bound; lia.
Qed.

Lemma handle_measure d f :
  Inv f -> data_good d -> (forall off data, d <> Data off data) ->
  wp False (handle_file_data disk_write complete_rx d) (data_post f) f.
Proof using Hroom.
  intros HI Hd Hn. assert (H := HI). destruct H as [HK HA]. assert (HK' := HK).
  destruct HK' as ((S1 & S2 & S3 & S4 & S5) & (P1 & P2) & HD & HR & HQ & HC & HF & HT).
  destruct d as [t|ns|off data]; [| |by destruct (Hn off data)]; simpl in Hd |- *; unfold update_shared; wp_run; simpl.
  - split; [|done]. split; [|done]. apply core_shared; [done| |done].
    set (t' := if t <? _ then _ else _). assert (Ht : 0 <= t' <= bound) by (unfold t'; case_match; lia). clearbody t'.
    split; [done|]. split; [done|]. split; [done|]. split; [done|]. simpl.
    destruct (0 <? throughput (shared f)); [by apply average_bound|done].
  - set (times := network_response_times f) in *.
    assert (Hmed : forall Q (f0 : AudioFileFetch), (forall z, Q (Ok z) f0) ->
      wp False (median (drop (length times - 2) times ++ [Z.min ns (maximum_assumed_ping_time (params f) * 1000000)])) Q f0).
    { intros Q f0 HQ0. destruct times as [|a [|b [|c [|]]]]; simpl in HT |- *; try lia; by wp_run. }
    apply Hmed. intros z. wp_run. split; [|done]. split; [|done]. split_and!; try done. simpl.
    rewrite length_app, length_drop. simpl. lia.
Qed.

Lemma fetch_round_good inp f :
  Core f ->
  match inp with
  | InCommand cmd => small_command cmd /\ (running f = true -> accounted f)
  | InData d => data_good d /\ accounted_but d f
  | InClosed => True
  end -> Inv (after_round (round_ inp f)).
Proof using Hbound Hroom.
  intros HC Hin.
  assert (H : wp False (round_ inp) (fun r f' => match r with Ok true => Inv f' | _ => Core f' end) f).
  { unfold fetch_round. wp_step. destruct inp as [cmd|d|].
    - destruct Hin as [Hs HA]. wp_use handle_command_inv; [|by split|done].
      intros [[]|?|] f' ? HI'; [by wp_run; apply HI'| |by apply HI'|done].
      wp_run. wp_use keep_prefetching_inv; [|done]. intros [?|?|] f2 ? HI2; [by wp_run|by apply HI2|done].
    - destruct Hin as [Hd HA].
      assert (Hh : wp False (handle_file_data disk_write complete_rx d) (data_post f) f).
      { destruct d; [|..|by apply handle_part]; apply handle_measure; try done; split; try done;
          intros _ x Hx; destruct (HA x Hx) as [?|?]; done. }
      wp_use Hh. intros [[]|?|] f' ? HI'; [by wp_run| |done..].
      wp_run. wp_use keep_prefetching_inv; [|by apply HI']. intros [?|?|] f2 ? HI2; [by wp_run|by apply HI2|done].
    - by wp_run. }
  unfold wp in H. unfold after_round. destruct (round_ inp f) as [[[]|e|] f']; [done|by split..|done].
Qed.

(** ** The receiving tasks *)

Lemma core_receivers rs f : Core f -> Forall receiver_good rs -> Core (set_receivers rs f).
Proof. intros (HS & HP & HD & HR & HQ & HC & HF & HT) Hr. by split_and!. Qed.

Lemma core_send d f : Core f -> data_good d -> Core (send_data d f).
Proof.
  intros (HS & HP & HD & HR & HQ & HC & HF & HT) Hd. split_and!; try done. simpl. apply Forall_app. by split; [|apply Forall_singleton].
Qed.

Lemma accounted_send d f : accounted f -> accounted (send_data d f).
Proof.
  intros HA x Hx. destruct (HA x Hx) as [?|[?|?]]; [by left| |by right; right]. right; left. apply Exists_app. by left.
Qed.

(** A task ends: what it still waits for is no longer marked as requested. *)
Lemma finish_good ms r f l1 l2 :
  Core f -> accounted (set_receivers (l1 ++ r :: l2) f) -> Forall receiver_good (l1 ++ r :: l2) -> rate_ok ms r ->
  Inv (set_receivers (l1 ++ l2) (receive_finish ms r f)).
Proof using Hbound Hroom.
  intros HC HA HR Hrate. apply Forall_app in HR as [HR1 HR2]. apply Forall_cons in HR2 as [(R1 & R2 & R3 & R4 & R5) HR2].
  unfold receive_finish. set (f1 := if _ && _ && _ then _ else f).
  assert (Hf1 : Core f1 /\ accounted (set_receivers (l1 ++ r :: l2) f1)).
  { unfold f1. destruct (measure_throughput r && (0 <? actual_length r) && (0 <? ms)) eqn:E; [|done].
    rewrite !andb_true_iff, !Z.ltb_lt in E. destruct E as [[_ E1] E2].
    assert (0 <= 1000 * actual_length r / ms) by (apply Z.div_pos; lia).
    split; [apply core_send; [done|]; simpl; rewrite wrap_small by (specialize (Hrate E2); unfold fits; change (2 ^ usize_bits) with (usize_max + 1); lia);
      specialize (Hrate E2); lia|].
    by apply (accounted_send _ (set_receivers (l1 ++ r :: l2) f)). }
  clearbody f1. destruct Hf1 as [HC1 HA1]. rewrite usize_sub_small by lia.
  set (s1 := if 0 <? _ then _ else shared f1).
  assert (Hs1 : shared_good s1 /\ downloaded s1 = downloaded (shared f1) /\
    forall x, mem x (requested s1) -> mem x (requested (shared f1)) /\ ~ awaited x r).
  { assert (HS := proj1 HC1). destruct HS as (S1 & S2 & S3 & S4 & S5).
    unfold s1. destruct (Z.ltb_spec 0 (rq_length r - actual_length r)).
    - destruct (ranges_good_subtract (requested (shared f1)) (range_new (at_offset r) (rq_length r - actual_length r)))
        as [Hg Hm]; [done|unfold range_fits; simpl; lia|].
      split_and!; try done; try (simpl; lia). intros x [Hx Hn]%Hm. split; [done|]. intros Ha. apply Hn.
      unfold awaited in Ha. unfold in_range. simpl. lia.
    - split; [done|]. split; [done|]. intros x Hx. split; [done|]. unfold awaited. lia. }
  clearbody s1. destruct Hs1 as (Hg & Hd & Hreq). split.
  - apply core_receivers; [|by apply Forall_app]. by apply core_shared.
  - intros _ x Hx. simpl in Hx |- *. apply Hreq in Hx as [Hx Hn]. destruct (HA1 x Hx) as [?|[?|Hr]]; simpl.
    + left. by rewrite Hd.
    + by right; left.
    + right; right. simpl in Hr. apply Exists_app in Hr as [Hr|[Hr|Hr]%Exists_cons]; [apply Exists_app; by left|done|apply Exists_app; by right].
Qed.

(** A response: the task goes on, with its data sent, or ends. *)
Lemma response_good ns resp r f l1 l2 :
  Inv f -> running f = true -> receivers f = l1 ++ r :: l2 -> honest r resp -> rate_ok (ns / 1000000) r ->
  Inv (responded l1 r l2 ns resp f).
Proof using Hbound Hroom.
  intros [HC HA] Hrun Hl Hh Hrate. specialize (HA Hrun). unfold responded, receive_response.
  destruct (match initial_response r with Some _ => _ | None => _ end) as [mp mt].
  set (pf := if mp && _ then _ else (mp, f)).
  assert (Hpf : Core pf.2 /\ accounted pf.2 /\ receivers pf.2 = l1 ++ r :: l2).
  { unfold pf. destruct (mp && _); [|done]. split_and!; [by apply core_send|by apply accounted_send|done]. }
  destruct pf as [mp' f1]. simpl in Hpf. destruct Hpf as (HC1 & HA1 & Hl1). clear HC HA Hl.
  assert (HR : Forall receiver_good (l1 ++ r :: l2)) by (rewrite <- Hl1; apply HC1).
  set (r1 := mkReceiver _ _ _ _ _ _ _ _).
  assert (HR1 : Forall receiver_good (l1 ++ r1 :: l2)).
  { apply Forall_app in HR as [? HR]. apply Forall_cons in HR as [(R1 & R2 & R3 & R4 & R5) HR].
    apply Forall_app; split; [done|]. apply Forall_cons; split; [|done]. by split_and!; simpl; try lia. }
  assert (Hend : Inv (set_receivers (l1 ++ l2) (receive_finish (ns / 1000000) r1 f1))).
  { apply finish_good; [done| |done|done]. intros x Hx. destruct (HA1 x Hx) as [?|[?|Hr]]; [by left|by right; left|].
    right; right. rewrite Hl1 in Hr. simpl. by rewrite Exists_app, Exists_cons in Hr |- *. }
  destruct (Z.eqb_spec (code resp) AudioFetch.PARTIAL_CONTENT) as [Hcode|]; simpl; [|done].
  destruct (body resp) as [data|] eqn:Hbody; [|done].
  destruct (Hh data Hcode Hbody) as (n & Hn & Hdata & Hlen).
  apply Forall_app in HR as [HRa HR]. apply Forall_cons in HR as [(R1 & R2 & R3 & R4 & R5) HRb].
  simpl. rewrite Hlen, !usize_add_small by lia. split.
  - apply core_receivers; [apply core_send; [done|]|].
    + simpl. split_and!; [lia|lia|]. assert (length data = Z.to_nat n) as -> by lia. done.
    + apply Forall_app; split; [done|]. apply Forall_cons; split; [|done]. by split_and!; simpl; try lia.
  - intros _ x Hx. simpl in Hx |- *. destruct (HA1 x Hx) as [?|[?|Hr]]; [by left|right; left; apply Exists_app; by left|].
    rewrite Hl1, Exists_app, Exists_cons in Hr. destruct Hr as [Hr|[Hr|Hr]]; [right; right; apply Exists_app; by left| |].
    + unfold awaited in Hr. destruct (decide (x < at_offset r + n)).
      * right; left. apply Exists_app; right. apply Exists_cons; left. simpl. lia.
      * right; right. apply Exists_app; right. apply Exists_cons; left. unfold awaited; simpl. lia.
    + right; right. apply Exists_app; right. apply Exists_cons; by right.
Qed.

(** ** Every reachable state *)

Lemma fetch_step_inv f f' : step f f' -> Inv f -> Inv f'.
Proof using Hbound Hroom.
  intros Hst HI. assert (HK := HI). destruct HK as [HC HA]. destruct Hst as
    [f cmd cmds Hrun Hc|f d q Hrun Hq|f Hrun|f l1 r l2 Hl Hp Hs|f l1 r l2 ns resp Hl Hp Hrun Hh Hrate
    |f l1 r l2 ms Hl Hp Hrun Hi Hrate|f l1 r l2 Hl Hp Hrun|f cmd Hrun Hs|f b|f p Hp].
  - destruct HC as (HS & HP & HD & HR & HQ & HCs & HF & HT). rewrite Hc in HCs. apply Forall_cons in HCs as [Hcmd Hcmds].
    apply fetch_round_good; [by split_and!|done].
  - destruct HC as (HS & HP & HD & HR & HQ & HCs & HF & HT). rewrite Hq in HQ. apply Forall_cons in HQ as [Hd Hq'].
    apply fetch_round_good; [by split_and!|]. split; [done|]. intros x Hx. destruct (HA Hrun x Hx) as [?|[Hr|?]]; simpl; [auto| |auto].
    rewrite Hq in Hr. apply Exists_cons in Hr as [?|?]; auto.
  - by apply fetch_round_good.
  - assert (HR : Forall receiver_good (receivers f)) by apply HC. rewrite Hl in HR.
    apply Forall_app in HR as [HR1 HR2]. apply Forall_cons in HR2 as [HR HR2]. split.
    + apply core_receivers; [by apply core_shared; [|apply HC|]|]. apply Forall_app; split; [done|]. by apply Forall_cons.
    + intros Hrun x Hx. destruct (HA Hrun x Hx) as [?|[?|Hr]]; [by left|by right; left|]. right; right. simpl.
      rewrite Hl in Hr. by rewrite Exists_app, Exists_cons in Hr |- *.
  - apply response_good; try done. destruct (initial_response r) as [resp0|] eqn:Hi; [|done]. subst resp0.
    assert (HR : Forall receiver_good (receivers f)) by apply HC. rewrite Hl in HR.
    apply Forall_app in HR as [_ HR]. apply Forall_cons in HR as [(_ & _ & _ & _ & HR) _]. by rewrite Hi in HR.
  - apply finish_good; [done| | |done]; [|rewrite <- Hl; apply HC]. intros x Hx. rewrite <- Hl. by apply HA.
  - assert (HR : Forall receiver_good (receivers f)) by apply HC. rewrite Hl in HR.
    apply Forall_app in HR as [HR1 HR2]. apply Forall_cons in HR2 as [_ HR2]. split; [|simpl; by rewrite Hrun].
    apply core_receivers; [by apply core_shared; [|apply HC|]|by apply Forall_app].
  - split; [|done]. destruct HC as (HS & HP & HD & HR & HQ & HCs & HF & HT). split_and!; try done. simpl.
    apply Forall_app. by split; [|apply Forall_singleton].
  - split; [|done]. by apply core_shared; [|apply HC|].
  - split; [|done]. apply core_shared; [done| |done]. destruct HC as ((S1 & S2 & S3 & S4 & S5) & _).
    split; [done|]. split; [done|]. split; [done|]. split; [|done]. simpl.
    rewrite wrap_small; [done|]. unfold fits. change (2 ^ usize_bits) with (usize_max + 1). lia.
Qed.

(** The first request is made before the loop starts: the answer has told the size of the file. *)
Definition started (f : AudioFileFetch) : Prop :=
  exists bps length response p, f = fetch_start size bps 0 length response p /\
    0 <= length <= size /\ params_good p /\ honest (receiver_new 0 length (Some response)) response.

Definition reachable (f : AudioFileFetch) : Prop := exists f0, started f0 /\ rtc step f0 f.

Lemma start_inv f : started f -> Inv f.
Proof using Hbound Hroom.
  intros (bps & len & resp & p & -> & Hlen & Hp & Hh).
  destruct (ranges_good_add rs_new (range_new 0 len)) as [Hg Hm]; [apply ranges_good_nil|simpl; lia..|].
  assert (He : usize_add 0 len = len) by (apply usize_add_small; lia).
  split.
  - unfold fetch_start. rewrite He. split; [split; [done|]; split; [done|]; split; [apply ranges_good_nil|]; simpl; lia|].
    split; [done|]. split; [|split; [|split_and!; try done; simpl; lia]].
    + split; simpl; [rewrite length_replicate; lia|]. intros x Hx. by apply mem_nil in Hx.
    + apply Forall_singleton. by split_and!; simpl; try lia.
  - intros _ x Hx. unfold fetch_start in Hx. simpl in Hx. rewrite He in Hx. right; right. apply Exists_cons; left.
    apply Hm in Hx as [Hx|Hx]; [by apply mem_nil in Hx|]. unfold awaited; simpl. unfold in_range in Hx. simpl in Hx. lia.
Qed.

Lemma fetch_reachable_inv f : reachable f -> Inv f.
Proof using Hbound Hroom.
  intros (f0 & H0 & Hr). apply start_inv in H0. induction Hr as [|f f1 f2 Hs Hr IH]; [done|]. apply IH. by eapply fetch_step_inv.
Qed.

(** Reading what is downloaded. *)
Lemma read_return_spec f position len :
  Core f -> 0 <= position -> mem position (downloaded (shared f)) -> 0 < len ->
  exists bytes f', read_return position len f = (Ok (bytes, position + Z.of_nat (length bytes)), f') /\
    bytes = take (length bytes) (drop (Z.to_nat position) file) /\ (0 < length bytes <= Z.to_nat len)%nat.
Proof using Hbound Hroom.
  intros HC Hp Hm Hl. assert (HC' := HC). destruct HC' as ((S1 & _ & [Hw Hs] & _) & _ & (HD1 & HD2) & _).
  pose proof (Hs _ Hm) as Hps. pose proof (contained_length_maximal _ position Hw) as (Hn0 & Hn & Hn1).
  set (n := contained_length_from_value (downloaded (shared f)) position) in *.
  assert (Hpos : wrap usize_bits position = position).
  { apply wrap_small. unfold fits. change (2 ^ usize_bits) with (usize_max + 1). lia. }
  assert (Hn' : 0 < n). { destruct (decide (n = 0)) as [E|]; [|lia]. rewrite E, Z.add_0_r in Hn1. done. }
  assert (Hmax : position + n <= size). { assert (Hlast : mem (position + n - 1) (downloaded (shared f))) by (apply Hn; lia). apply Hs in Hlast. lia. }
  set (bytes := take (Z.to_nat (Z.min len n)) (drop (Z.to_nat position) (disk f))).
  assert (Hlen : length bytes = Z.to_nat (Z.min len n)).
  { unfold bytes. rewrite length_take, length_drop, HD1. lia. }
  assert (Hcont : contains (downloaded (shared f)) position = true) by (by apply (contains_from_spec 0)).
  exists bytes. eexists. split_and!; [|..|lia].
  - unfold read_return, mbind, eff_bind, gets, update_shared, modify, mret, eff_ret. simpl. rewrite Hpos, Hcont. simpl. by fold bytes.
  - rewrite Hlen. unfold bytes. apply list_eq. intros i. destruct (decide (i < Z.to_nat (Z.min len n))%nat).
    + rewrite !lookup_take_lt, !lookup_drop by lia. replace (Z.to_nat position + i)%nat with (Z.to_nat (position + Z.of_nat i)) by lia.
      apply HD2, Hn. lia.
    + by rewrite !lookup_take_ge by lia.
  - lia.
Qed.

(** C18: Readers get the bytes of the file: in every reachable state, whatever the schedule and whichever
    requests fail, a read at a position that was waited for returns at least a byte, the bytes of the
    file at that position, and moves on by their number; and the file handed on as complete is the file. *)
Theorem download_delivers_file f position len :
  reachable f -> 0 <= position -> contains (downloaded (shared f)) position = true -> 0 < len ->
  (exists bytes f', read_return position len f = (Ok (bytes, position + Z.of_nat (length bytes)), f') /\
    bytes = take (length bytes) (drop (Z.to_nat position) file) /\ (0 < length bytes <= Z.to_nat len)%nat) /\
  (completed f = true -> disk f = file).
Proof using Hbound Hroom.
  intros Hr Hp Hc Hl. apply fetch_reachable_inv in Hr as [HC _]. assert (HC' := HC).
  destruct HC' as ((_ & _ & [Hw _] & _) & _ & (HD1 & HD2) & _ & _ & _ & HF & _). split.
  - apply read_return_spec; [done|done| |done]. by apply (contains_from_spec 0).
  - intros Hd. specialize (HF Hd). apply list_eq. intros i. destruct (decide (i < length file)%nat).
    + specialize (HD2 (Z.of_nat i)). rewrite Nat2Z.id in HD2. apply HD2, HF. lia.
    + rewrite !lookup_ge_None_2; [done|lia|lia].
Qed.

(** ** Readers wait only for what is on its way *)

Lemma send_commands cmds : forall f, running f = true -> Forall small_command cmds ->
  rtc step f (set_commands (commands f ++ cmds) f).
Proof.
  induction cmds as [|c cmds IH]; intros f Hrun Hc.
  - rewrite app_nil_r. destruct f. apply rtc_refl.
  - apply Forall_cons in Hc as [Hc Hcs]. eapply rtc_l; [by apply step_send|].
    specialize (IH (set_commands (commands f ++ [c]) f) Hrun Hcs). simpl in IH.
    by rewrite <- (assoc_L (++)) in IH.
Qed.

(** The ranges that a request leaves: what is neither downloaded nor requested. *)
Lemma missing_spec s offset len :
  shared_good s -> 0 <= offset -> 0 <= len -> offset + len <= size ->
  let ranges := subtract_range_set (subtract_range_set (add_range rs_new (range_new offset len)) (downloaded s)) (requested s) in
  ranges_good ranges /\
  forall x, mem x ranges <-> offset <= x < offset + len /\ ~ mem x (downloaded s) /\ ~ mem x (requested s).
Proof using Hbound Hroom.
  intros (S1 & S2 & S3 & _) H1 H2 H3.
  destruct (ranges_good_add rs_new (range_new offset len)) as [G1 M1]; [apply ranges_good_nil|simpl; lia..|].
  destruct (ranges_good_subtract_set _ _ G1 S3) as [G2 M2]. destruct (ranges_good_subtract_set _ _ G2 S2) as [G3 M3].
  split; [done|]. intros x. rewrite M3, M2, M1, mem_nil. unfold in_range. simpl.
  split; [intros [[[[]|?] ?] ?]; auto|intros (? & ? & ?); auto].
Qed.

Lemma mem_or_not x s : ranges_good s -> mem x s \/ ~ mem x s.
Proof.
  intros [Hw _]. destruct (contains s x) eqn:E; [left|right]; [by apply (contains_from_spec 0)|].
  intros Hm. apply (contains_from_spec 0) in Hm; [|done]. by rewrite E in Hm.
Qed.

(** C19: A reader never waits for a byte that nobody fetches: after the first half of a read the byte at
    the reader's position is downloaded, received, awaited by a task, or in a command the loop has yet
    to handle. *)
Theorem reader_waits_for_fetch (read_ahead : Z -> Z) f position len :
  reachable f -> running f = true -> 0 <= position < size -> 0 < len ->
  0 <= read_ahead (bytes_per_second (shared f)) <= bound ->
  exists length f', read_request read_ahead position len f = (Ok (Some length), f') /\ 0 < length <= len /\ rtc step f f' /\
    (mem position (downloaded (shared f')) \/ Exists (received position) (file_data f') \/
     Exists (awaited position) (receivers f') \/ exists r, Fetch r ∈ commands f' /\ in_range position r).
Proof using Hbound Hroom.
  intros Hr Hrun Hpos Hlen Hra. apply fetch_reachable_inv in Hr as [HC HA]. assert (HC' := HC). destruct HC' as [HS _].
  assert (HS' := HS). destruct HS' as (S1 & S2 & S3 & _).
  assert (Hw : wrap usize_bits position = position).
  { apply wrap_small. unfold fits. change (2 ^ usize_bits) with (usize_max + 1). lia. }
  set (n := Z.min len (size - position)).
  set (m := if download_streaming (shared f) then Z.min (usize_add n (read_ahead (bytes_per_second (shared f)))) (size - position) else n).
  assert (Hm : n <= m /\ position + m <= size).
  { unfold m. destruct (download_streaming _); [|lia]. rewrite usize_add_small by lia. lia. }
  destruct (missing_spec (shared f) position m HS) as [G M]; [lia..|].
  set (ranges := subtract_range_set _ (requested (shared f))) in G, M.
  assert (Hcov : mem position (downloaded (shared f)) \/ mem position (requested (shared f)) \/ mem position ranges).
  { destruct (mem_or_not position _ S3); [by left|]. destruct (mem_or_not position _ S2); [by right; left|].
    right; right. apply M. lia || (split_and!; [lia|lia|done|done]). }
  assert (Hsmall : Forall small_command (map Fetch ranges)).
  { apply Forall_forall. intros c. rewrite list_elem_of_fmap. intros (r & -> & Hin).
    destruct (ranges_good_fits _ _ G Hin) as (? & ? & ?). simpl. lia. }
  assert (Hread : read_request read_ahead position len f = (Ok (Some n), match ranges with [] => f | _ => set_commands (commands f ++ map Fetch ranges) f end)).
  { unfold read_request, mbind, eff_bind, gets, modify, mret, eff_ret. cbn [id]. rewrite Hw, S1.
    rewrite (proj2 (Z.leb_gt _ _)) by lia. rewrite usize_sub_small by lia. fold n.
    rewrite (proj2 (Z.eqb_neq n 0)) by lia. fold m. fold ranges. rewrite Hrun. by destruct ranges. }
  assert (Hreq : mem position (requested (shared f)) -> mem position (downloaded (shared f)) \/
     Exists (received position) (file_data f) \/ Exists (awaited position) (receivers f)) by (apply HA; done).
  clearbody ranges. eexists n, _. split; [exact Hread|]. split; [lia|].
  destruct ranges as [|r ranges].
  - split; [apply rtc_refl|]. destruct Hcov as [?|[Hq|Hq]]; [by left| |by apply mem_nil in Hq]. destruct (Hreq Hq) as [?|[?|?]]; auto.
  - split; [by apply send_commands|]. destruct Hcov as [?|[Hq|Hq]]; [by left|destruct (Hreq Hq) as [?|[?|?]]; auto|].
    right; right; right. apply Exists_exists in Hq as (r' & Hin & Hr'). exists r'. split; [|done]. simpl.
    apply elem_of_app; right. change (Fetch r :: map Fetch ranges) with (Fetch <$> (r :: ranges)). by apply list_elem_of_fmap_2.
Qed.

End spec.

(** ** Defects *)

Definition ex_bytes : list Z := [79; 103; 103; 83; 0; 2; 0; 0].
Definition ex_resp : Response := mkResponse 206 (Some ex_bytes).
Definition ex_start : AudioFileFetch := fetch_start 8 40000 0 8 ex_resp default_params.

(** The position asked for by an end-relative seek is computed with the wrong sign and one too low, so
    that a seek to the end is taken for the current position at the last byte, and does nothing. *)
Lemma seek_to_end_ignored :
  (streaming_seek 7 (End_ 0) ex_start).1 = Ok 7 /\ (streaming_seek 6 (End_ 0) ex_start).1 = Ok 8.
Proof. by vm_compute. Qed.

(** An answer that is longer than its request underflows the number of missing bytes, and the set of
    requested bytes loses its normal form: its ranges overlap. *)
Lemma overlong_answer_breaks_set :
  let r := mkReceiver 0 10 None 12 12 true false false in
  let f := set_shared (set_status [mkRange 0 110] [] (shared ex_start)) ex_start in
  requested (shared (receive_finish 5 r f)) = [mkRange 0 12; mkRange 10 100].
Proof. by vm_compute. Qed.

(** ** Examples *)

Abbreviation ex_step := (step (fun _ _ => true) (fun _ _ => true) true (fun _ _ _ => 0) ex_bytes 65536).
Abbreviation ex_reachable_ := (reachable (fun _ _ => true) (fun _ _ => true) true (fun _ _ _ => 0) ex_bytes 65536).

Definition ex_granted : AudioFileFetch := granted [] (receiver_new 0 8 (Some ex_resp)) [] ex_start.
Definition ex_active : Receiver := mkReceiver 0 8 (Some ex_resp) 0 0 true true true.
Definition ex_responded : AudioFileFetch := responded [] ex_active [] 20000000 ex_resp ex_granted.
Definition ex_stored : AudioFileFetch :=
  after_round (fetch_round (fun _ _ => true) (fun _ _ => true) true (fun _ _ _ => 0) (InData (Data 0 ex_bytes)) (set_file_data [] ex_responded)).

Lemma ex_started : started ex_bytes 65536 ex_start.
Proof.
  exists 40000, 8, ex_resp, default_params. split; [done|]. split; [vm_compute; split; discriminate|].
  split; [vm_compute; by split_and!|]. intros data _ [= <-]. exists 8. by split_and!.
Qed.

Lemma ex_reaches : ex_reachable_ ex_start /\ ex_reachable_ ex_stored.
Proof.
  split; exists ex_start; (split; [apply ex_started|]); [apply rtc_refl|].
  apply (rtc_l _ _ ex_granted); [by apply step_permit|].
  apply (rtc_l _ _ ex_responded); [by apply step_response|].
  apply rtc_once. by apply step_data.
Qed.

Lemma download_delivers_file_witness :
  (exists bytes f', read_return 3 4 ex_stored = (Ok (bytes, 3 + Z.of_nat (length bytes)), f') /\
    bytes = take (length bytes) (drop (Z.to_nat 3) ex_bytes) /\ (0 < length bytes <= Z.to_nat 4)%nat) /\
  (completed ex_stored = true -> disk ex_stored = ex_bytes).
Proof.
  apply (download_delivers_file (fun _ _ => true) (fun _ _ => true) true (fun _ _ _ => 0) ex_bytes 65536);
    [by vm_compute|by vm_compute|apply ex_reaches|lia|by vm_compute|lia].
Defined.

Lemma reader_waits_for_fetch_witness :
  exists length f', read_request (fun b => b) 3 4 ex_start = (Ok (Some length), f') /\ 0 < length <= 4 /\ rtc ex_step ex_start f' /\
    (mem 3 (downloaded (shared f')) \/ Exists (received 3) (file_data f') \/
     Exists (awaited 3) (receivers f') \/ exists r, Fetch r ∈ commands f' /\ in_range 3 r).
Proof.
  apply (reader_waits_for_fetch (fun _ _ => true) (fun _ _ => true) true (fun _ _ _ => 0) ex_bytes 65536);
    [by vm_compute|by vm_compute|apply ex_reaches|reflexivity|by vm_compute|lia|by vm_compute].
Defined.
