(* ===== verification/ConnectState.v ===== *)
(** * The connect state: data ([native/librespot/connect/src/state.rs], [state/provider.rs],
      [state/metadata.rs], [state/restrictions.rs], [state/options.rs], [model.rs])

    [ConnectState] is the device's view of what is played: the request that is sent to the server
    (with the player state inside), the contexts the tracks come from and some bookkeeping. This
    file holds the data, the accessors, and the operations that touch single fields; the track
    lists, contexts, commands and transfers are in [ConnectContext], [ConnectTracks] and
    [ConnectHandle].

    The [device], [device_info] and [player_state] message fields of the request are set by
    [ConnectState::new] and never cleared, so that the [expect]s on them cannot fail: they are
    plain fields here. A read through an absent message field sees the default message, as in
    the protobuf library. Log output is left out. *)
From S2P Require Import Prelude Text ShuffleVec SpotifyId SpotifyUri Protocol Config.

(** ** Constants and errors *)

Definition SPOTIFY_MAX_PREV_TRACKS_SIZE : nat := 10.
Definition SPOTIFY_MAX_NEXT_TRACKS_SIZE : nat := 80.

Inductive ContextType := CDefault | CAutoplay.

#[export] Instance ContextType_eq_dec : EqDecision ContextType.
Proof. solve_decision. Defined.

Inductive StateError :=
| CouldNotResolveTrackFromTransfer
| NoContext (ty : ContextType)
| CanNotFindTrackInContext (at_ : option Z) (len : nat)
| CurrentlyDisallowed (action reason : string)
| ContextHasNoTracks
| UnsupportedLocalPlayback
| InvalidTrackUri (uri : option string).

(** The kinds of [crate::Error] a state error turns into. *)
Inductive ErrorKind := FailedPrecondition | Unavailable.

Definition error_kind (e : StateError) : ErrorKind :=
  match e with
  | CouldNotResolveTrackFromTransfer | NoContext _ | CanNotFindTrackInContext _ _ | ContextHasNoTracks
  | InvalidTrackUri _ => FailedPrecondition
  | CurrentlyDisallowed _ _ | UnsupportedLocalPlayback => Unavailable
  end.

(** The errors that reach [crate::Error] in this component. *)
Inductive CError := EState (e : StateError) | EUri (e : SpotifyUri.Error) | EId (e : SpotifyIdError).

(** ** Requests and play status ([model.rs]) *)

Inductive PlayContext := PcUri (uri : string) | PcTracks (tracks : list string).

Record Options := mkOptions { op_shuffle : bool; op_repeat : bool; op_repeat_track : bool }.

(** [impl From<ContextPlayerOptionOverrides> for Options]; the message has the fields of
    [ContextPlayerOptions]. *)
Definition options_of_overrides (value : ContextPlayerOptions) : Options :=
  mkOptions (default false (cpo_shuffling_context value)) (default false (cpo_repeating_context value))
    (default false (cpo_repeating_track value)).

Inductive LoadContextOptions := LcOptions (o : Options) | LcAutoplay.

Inductive PlayingTrack := PtIndex (i : Z) | PtUri (uri : string) | PtUid (uid : string).

Record LoadRequestOptions := mkLoadRequestOptions {
  start_playing : bool;
  seek_to : Z;
  context_options : option LoadContextOptions;
  playing_track : option PlayingTrack
}.

Record LoadRequest := mkLoadRequest { lr_context : PlayContext; lr_options : LoadRequestOptions }.

Definition from_context_uri (context_uri : string) (options : LoadRequestOptions) : LoadRequest :=
  mkLoadRequest (PcUri context_uri) options.

Definition from_tracks (tracks : list string) (options : LoadRequestOptions) : LoadRequest :=
  mkLoadRequest (PcTracks tracks) options.

Record SkipTo := mkSkipTo { track_uid : option string; track_uri : option string; track_index : option Z }.

(** [impl TryFrom<SkipTo> for PlayingTrack] *)
Definition playing_track_of_skip (value : SkipTo) : option PlayingTrack :=
  match track_uri value with
  | Some uri => Some (PtUri uri)
  | None =>
      match track_uid value with
      | Some uid => Some (PtUid uid)
      | None => PtIndex <$> track_index value
      end
  end.

Inductive SpircPlayStatus :=
| Stopped
| LoadingPlay (position_ms : Z)
| LoadingPause (position_ms : Z)
| Playing (nominal_start_time : Z) (preloading_of_next_track_triggered : bool)
| Paused (position_ms : Z) (preloading_of_next_track_triggered : bool).

(** ** State *)

Record ConnectConfig := mkConnectConfig { cfg_name : string; cfg_device_type : DeviceType;
  cfg_is_group : bool; cfg_initial_volume : Z; cfg_disable_volume : bool; cfg_volume_steps : Z;
  cfg_emit_set_queue_events : bool }.

Definition ConnectConfig_default : ConnectConfig :=
  mkConnectConfig "librespot" Speaker false (65535 / 2) false 64 false.

Record Capabilities := mkCapabilities { cap_volume_steps : Z; cap_disable_volume : bool;
  cap_gaia_eq_connect_id : bool; cap_can_be_player : bool; cap_needs_full_player_state : bool;
  cap_is_observable : bool; cap_is_controllable : bool; cap_hidden : bool; cap_supports_gzip_pushes
  : bool; cap_supports_logout : bool; cap_supported_types : list string; cap_supports_playlist_v2 :
  bool; cap_supports_transfer_command : bool; cap_supports_command_request : bool;
  cap_supports_set_options_command : bool; cap_is_voice_enabled : bool; cap_restrict_to_local :
  bool; cap_connect_disabled : bool; cap_supports_rename : bool; cap_supports_external_episodes :
  bool; cap_supports_set_backend_metadata : bool; cap_supports_dj : bool; cap_supports_rooms : bool;
  cap_supported_audio_quality : string; cap_command_acks : bool }.

Record DeviceInfo := mkDeviceInfo { di_can_play : bool; di_volume : Z; di_name : string;
  di_device_id : string; di_device_type : ProtoDeviceType; di_device_software_version : string;
  di_spirc_version : string; di_client_id : string; di_is_group : bool; di_capabilities :
  Capabilities }.

Definition set_di_volume (v : Z) (r : DeviceInfo) : DeviceInfo := mkDeviceInfo (di_can_play r) v
  (di_name r) (di_device_id r) (di_device_type r) (di_device_software_version r) (di_spirc_version
  r) (di_client_id r) (di_is_group r) (di_capabilities r).

Inductive PutStateReason := NEW_DEVICE | PLAYER_STATE_CHANGED | VOLUME_CHANGED | OTHER_REASON (n : Z).

Record PutStateRequest := mkPutStateRequest { rq_device_info : DeviceInfo; rq_player_state :
  PlayerState; rq_is_active : bool; rq_put_state_reason : PutStateReason; rq_last_command_message_id
  : Z; rq_last_command_sent_by_device_id : string; rq_started_playing_at : Z;
  rq_client_side_timestamp : Z }.

Definition set_rq_device_info (v : DeviceInfo) (r : PutStateRequest) : PutStateRequest :=
  mkPutStateRequest v (rq_player_state r) (rq_is_active r) (rq_put_state_reason r)
  (rq_last_command_message_id r) (rq_last_command_sent_by_device_id r) (rq_started_playing_at r)
  (rq_client_side_timestamp r).

Definition set_rq_player_state (v : PlayerState) (r : PutStateRequest) : PutStateRequest :=
  mkPutStateRequest (rq_device_info r) v (rq_is_active r) (rq_put_state_reason r)
  (rq_last_command_message_id r) (rq_last_command_sent_by_device_id r) (rq_started_playing_at r)
  (rq_client_side_timestamp r).

Definition set_rq_is_active (v : bool) (r : PutStateRequest) : PutStateRequest := mkPutStateRequest
  (rq_device_info r) (rq_player_state r) v (rq_put_state_reason r) (rq_last_command_message_id r)
  (rq_last_command_sent_by_device_id r) (rq_started_playing_at r) (rq_client_side_timestamp r).

Definition set_rq_put_state_reason (v : PutStateReason) (r : PutStateRequest) : PutStateRequest :=
  mkPutStateRequest (rq_device_info r) (rq_player_state r) (rq_is_active r) v
  (rq_last_command_message_id r) (rq_last_command_sent_by_device_id r) (rq_started_playing_at r)
  (rq_client_side_timestamp r).

Definition set_rq_last_command_message_id (v : Z) (r : PutStateRequest) : PutStateRequest :=
  mkPutStateRequest (rq_device_info r) (rq_player_state r) (rq_is_active r) (rq_put_state_reason r)
  v (rq_last_command_sent_by_device_id r) (rq_started_playing_at r) (rq_client_side_timestamp r).

Definition set_rq_last_command_sent_by_device_id (v : string) (r : PutStateRequest) :
  PutStateRequest := mkPutStateRequest (rq_device_info r) (rq_player_state r) (rq_is_active r)
  (rq_put_state_reason r) (rq_last_command_message_id r) v (rq_started_playing_at r)
  (rq_client_side_timestamp r).

Definition set_rq_started_playing_at (v : Z) (r : PutStateRequest) : PutStateRequest :=
  mkPutStateRequest (rq_device_info r) (rq_player_state r) (rq_is_active r) (rq_put_state_reason r)
  (rq_last_command_message_id r) (rq_last_command_sent_by_device_id r) v (rq_client_side_timestamp
  r).

Definition set_rq_client_side_timestamp (v : Z) (r : PutStateRequest) : PutStateRequest :=
  mkPutStateRequest (rq_device_info r) (rq_player_state r) (rq_is_active r) (rq_put_state_reason r)
  (rq_last_command_message_id r) (rq_last_command_sent_by_device_id r) (rq_started_playing_at r) v.

Record StateContext := mkStateContext { sc_tracks : ShuffleVec ProvidedTrack; sc_metadata : gmap
  string string; sc_restrictions : option Restrictions; sc_index : ContextIndex }.

Definition set_sc_tracks (v : ShuffleVec ProvidedTrack) (r : StateContext) : StateContext :=
  mkStateContext v (sc_metadata r) (sc_restrictions r) (sc_index r).

Definition set_sc_metadata (v : gmap string string) (r : StateContext) : StateContext :=
  mkStateContext (sc_tracks r) v (sc_restrictions r) (sc_index r).

Definition set_sc_index (v : ContextIndex) (r : StateContext) : StateContext := mkStateContext
  (sc_tracks r) (sc_metadata r) (sc_restrictions r) v.

Record ShuffleState := mkShuffleState { ss_seed : Z; ss_initial_track : string }.

(** [active_since] is in milliseconds from the epoch. *)

Record ConnectState := mkConnectState { cs_request : PutStateRequest; cs_unavailable_uri : list
  string; cs_active_since : option Z; cs_queue_count : Z; cs_active_context : ContextType;
  cs_fill_up_context : ContextType; cs_context : option StateContext; cs_transfer_shuffle : option
  ShuffleState; cs_autoplay_context : option StateContext; cs_volume_step_size : Z }.

Definition set_cs_request (v : PutStateRequest) (r : ConnectState) : ConnectState := mkConnectState
  v (cs_unavailable_uri r) (cs_active_since r) (cs_queue_count r) (cs_active_context r)
  (cs_fill_up_context r) (cs_context r) (cs_transfer_shuffle r) (cs_autoplay_context r)
  (cs_volume_step_size r).

Definition set_cs_unavailable_uri (v : list string) (r : ConnectState) : ConnectState :=
  mkConnectState (cs_request r) v (cs_active_since r) (cs_queue_count r) (cs_active_context r)
  (cs_fill_up_context r) (cs_context r) (cs_transfer_shuffle r) (cs_autoplay_context r)
  (cs_volume_step_size r).

Definition set_cs_active_since (v : option Z) (r : ConnectState) : ConnectState := mkConnectState
  (cs_request r) (cs_unavailable_uri r) v (cs_queue_count r) (cs_active_context r)
  (cs_fill_up_context r) (cs_context r) (cs_transfer_shuffle r) (cs_autoplay_context r)
  (cs_volume_step_size r).

Definition set_cs_queue_count (v : Z) (r : ConnectState) : ConnectState := mkConnectState
  (cs_request r) (cs_unavailable_uri r) (cs_active_since r) v (cs_active_context r)
  (cs_fill_up_context r) (cs_context r) (cs_transfer_shuffle r) (cs_autoplay_context r)
  (cs_volume_step_size r).

Definition set_cs_active_context (v : ContextType) (r : ConnectState) : ConnectState :=
  mkConnectState (cs_request r) (cs_unavailable_uri r) (cs_active_since r) (cs_queue_count r) v
  (cs_fill_up_context r) (cs_context r) (cs_transfer_shuffle r) (cs_autoplay_context r)
  (cs_volume_step_size r).

Definition set_cs_fill_up_context (v : ContextType) (r : ConnectState) : ConnectState :=
  mkConnectState (cs_request r) (cs_unavailable_uri r) (cs_active_since r) (cs_queue_count r)
  (cs_active_context r) v (cs_context r) (cs_transfer_shuffle r) (cs_autoplay_context r)
  (cs_volume_step_size r).

Definition set_cs_context (v : option StateContext) (r : ConnectState) : ConnectState :=
  mkConnectState (cs_request r) (cs_unavailable_uri r) (cs_active_since r) (cs_queue_count r)
  (cs_active_context r) (cs_fill_up_context r) v (cs_transfer_shuffle r) (cs_autoplay_context r)
  (cs_volume_step_size r).

Definition set_cs_transfer_shuffle (v : option ShuffleState) (r : ConnectState) : ConnectState :=
  mkConnectState (cs_request r) (cs_unavailable_uri r) (cs_active_since r) (cs_queue_count r)
  (cs_active_context r) (cs_fill_up_context r) (cs_context r) v (cs_autoplay_context r)
  (cs_volume_step_size r).

Definition set_cs_autoplay_context (v : option StateContext) (r : ConnectState) : ConnectState :=
  mkConnectState (cs_request r) (cs_unavailable_uri r) (cs_active_since r) (cs_queue_count r)
  (cs_active_context r) (cs_fill_up_context r) (cs_context r) (cs_transfer_shuffle r) v
  (cs_volume_step_size r).

Definition player (s : ConnectState) : PlayerState := rq_player_state (cs_request s).
Definition device_info (s : ConnectState) : DeviceInfo := rq_device_info (cs_request s).

(** [f(self.player_mut())] *)
Definition player_mut (f : PlayerState -> PlayerState) (s : ConnectState) : ConnectState :=
  set_cs_request (set_rq_player_state (f (player s)) (cs_request s)) s.

Definition request_mut (f : PutStateRequest -> PutStateRequest) (s : ConnectState) : ConnectState :=
  set_cs_request (f (cs_request s)) s.

(** ** Providers *)

Inductive Provider := PContext | PQueue | PAutoplay | PUnavailable.

Definition PROVIDER_CONTEXT : string := "context".
Definition PROVIDER_QUEUE : string := "queue".
Definition PROVIDER_AUTOPLAY : string := "autoplay".
Definition PROVIDER_UNAVAILABLE : string := "unavailable".

Definition provider_to_string (p : Provider) : string :=
  match p with
  | PContext => PROVIDER_CONTEXT
  | PQueue => PROVIDER_QUEUE
  | PAutoplay => PROVIDER_AUTOPLAY
  | PUnavailable => PROVIDER_UNAVAILABLE
  end.

Definition is_autoplay (t : ProvidedTrack) : bool := String.eqb (pt_provider t) PROVIDER_AUTOPLAY.
Definition is_context (t : ProvidedTrack) : bool := String.eqb (pt_provider t) PROVIDER_CONTEXT.
Definition is_queue (t : ProvidedTrack) : bool := String.eqb (pt_provider t) PROVIDER_QUEUE.
Definition is_unavailable (t : ProvidedTrack) : bool := String.eqb (pt_provider t) PROVIDER_UNAVAILABLE.
Definition set_provider (p : Provider) (t : ProvidedTrack) : ProvidedTrack :=
  set_pt_provider (provider_to_string p) t.

(** A read through an absent track sees the default one. *)
Definition track_or_default (o : option ProvidedTrack) : ProvidedTrack := default ProvidedTrack_default o.

(** ** Metadata *)

Definition CONTEXT_URI : string := "context_uri".
Definition ENTITY_URI : string := "entity_uri".
Definition IS_QUEUED : string := "is_queued".
Definition IS_AUTOPLAY : string := "autoplay.is_autoplay".
Definition HIDDEN : string := "hidden".
Definition ITERATION : string := "iteration".
Definition CUSTOM_CONTEXT_INDEX : string := "context_index".
Definition CUSTOM_SHUFFLE_SEED : string := "shuffle_seed".
Definition CUSTOM_INITIAL_TRACK : string := "initial_track".

(** The [Metadata] trait: what carries a string map. *)
Class Metadata (A : Type) := {
  metadata : A -> gmap string string;
  metadata_mut : (gmap string string -> gmap string string) -> A -> A
}.

#[export] Instance context_track_metadata : Metadata ContextTrack := {|
  metadata := ct_metadata;
  metadata_mut := fun f t => mkContextTrack (ct_uri t) (ct_uid t) (ct_gid t) (f (ct_metadata t))
|}.
#[export] Instance provided_track_metadata : Metadata ProvidedTrack := {|
  metadata := pt_metadata;
  metadata_mut := fun f t => set_pt_metadata (f (pt_metadata t)) t
|}.
#[export] Instance context_metadata : Metadata Context := {|
  metadata := ctx_metadata;
  metadata_mut := fun f c => mkContext (ctx_uri c) (ctx_url c) (f (ctx_metadata c)) (ctx_restrictions c) (ctx_pages c)
|}.
#[export] Instance state_context_metadata : Metadata StateContext := {|
  metadata := sc_metadata;
  metadata_mut := fun f c => set_sc_metadata (f (sc_metadata c)) c
|}.

Section Metadata.
Context `{Metadata A}.

Definition get_bool (entry : string) (a : A) : bool :=
  match metadata a !! entry with Some v => String.eqb v "true" | None => false end.
Definition get_usize (entry : string) (a : A) : option Z := v ← metadata a !! entry; parse_uint usize_bits v.
Definition get (entry : string) (a : A) : option string := metadata a !! entry.

(** The setter and the remover of the macro [metadata_entry]. *)
Definition set_entry (entry value : string) (a : A) : A := metadata_mut (fun m => <[entry := value]> m) a.
Definition remove_entry (entry : string) (a : A) : A := metadata_mut (fun m => delete entry m) a.

Definition bool_to_string (b : bool) : string := if b then "true" else "false".

Definition is_from_queue : A -> bool := get_bool IS_QUEUED.
Definition set_from_queue (b : bool) : A -> A := set_entry IS_QUEUED (bool_to_string b).
Definition is_from_autoplay : A -> bool := get_bool IS_AUTOPLAY.
Definition set_from_autoplay (b : bool) : A -> A := set_entry IS_AUTOPLAY (bool_to_string b).
Definition set_hidden (b : bool) : A -> A := set_entry HIDDEN (bool_to_string b).
Definition get_context_index : A -> option Z := get_usize CUSTOM_CONTEXT_INDEX.
Definition set_context_index (i : Z) : A -> A := set_entry CUSTOM_CONTEXT_INDEX (show_Z i).
Definition set_context_uri (u : string) : A -> A := set_entry CONTEXT_URI u.
Definition set_entity_uri (u : string) : A -> A := set_entry ENTITY_URI u.
Definition set_iteration (i : Z) : A -> A := set_entry ITERATION (show_Z i).
Definition get_shuffle_seed : A -> option string := get CUSTOM_SHUFFLE_SEED.
Definition set_shuffle_seed (seed : Z) : A -> A := set_entry CUSTOM_SHUFFLE_SEED (show_Z seed).
Definition remove_shuffle_seed : A -> A := remove_entry CUSTOM_SHUFFLE_SEED.
Definition get_initial_track : A -> option string := get CUSTOM_INITIAL_TRACK.
Definition set_initial_track (u : string) : A -> A := set_entry CUSTOM_INITIAL_TRACK u.
Definition remove_initial_track : A -> A := remove_entry CUSTOM_INITIAL_TRACK.
End Metadata.

(** ** Accessors and single-field operations ([state.rs]) *)

Definition prev_tracks (s : ConnectState) : list ProvidedTrack := ps_prev_tracks (player s).
Definition next_tracks (s : ConnectState) : list ProvidedTrack := ps_next_tracks (player s).
Definition current_track (s : ConnectState) : option ProvidedTrack := ps_track (player s).
Definition context_uri (s : ConnectState) : string := ps_context_uri (player s).

Definition is_active (s : ConnectState) : bool := rq_is_active (cs_request s).
Definition is_playing (s : ConnectState) : bool := ps_is_playing (player s) && negb (ps_is_paused (player s)).
Definition is_pause (s : ConnectState) : bool :=
  ps_is_playing (player s) && ps_is_paused (player s) && ps_is_buffering (player s).

Definition set_volume (volume : Z) : ConnectState -> ConnectState :=
  request_mut (fun r => set_rq_device_info (set_di_volume volume (rq_device_info r)) r).

(** [command] gives the message id and the sender of the request. *)
Definition set_last_command (message_id : Z) (sent_by_device_id : string) : ConnectState -> ConnectState :=
  request_mut (fun r =>
    set_rq_last_command_sent_by_device_id sent_by_device_id (set_rq_last_command_message_id message_id r)).

(** A start before the epoch, or one whose milliseconds exceed 64 bits, is not recorded. *)
Definition set_now (now : Z) (s : ConnectState) : ConnectState :=
  let s := request_mut (set_rq_client_side_timestamp now) s in
  match cs_active_since s with
  | Some active_since =>
      if (0 <=? active_since) && (active_since <? 2 ^ 64)
      then request_mut (set_rq_started_playing_at active_since) s
      else s
  | None => s
  end.

(** [now] is the system time. *)
Definition set_active (now : Z) (value : bool) (s : ConnectState) : ConnectState :=
  if value then
    if rq_is_active (cs_request s) then s
    else set_cs_active_since (Some now) (request_mut (set_rq_is_active true) s)
  else set_cs_active_since None (request_mut (set_rq_is_active false) s).

Definition set_origin (origin : PlayerPlayOrigin) : ConnectState -> ConnectState :=
  player_mut (set_ps_play_origin (Some origin)).
Definition set_session_id (session_id : string) : ConnectState -> ConnectState :=
  player_mut (set_ps_session_id session_id).

(** The player state with only the session identifier kept. *)
Definition fresh_player (session_id : string) : PlayerState :=
  mkPlayerState 0 EmptyString EmptyString None (Some PlayerPlayOrigin_default) None None f64_one 0 0 false false
    false true (Some PlayerContextPlayerOptions_default) None (Some PlayerSuppressions_default) [] [] ∅
    session_id EmptyString.

Definition reset (s : ConnectState) : ConnectState :=
  let s := set_cs_queue_count 0 (set_active 0 false s) in
  player_mut (fun p => fresh_player (ps_session_id p)) s.

(** What [ConnectState::new] reads of the session and of the build. *)
Record SessionInfo := mkSessionInfo {
  si_device_id : string; si_client_id : string; si_session_id : string; si_semver : string; si_spirc : string }.

Definition capabilities (cfg : ConnectConfig) : Capabilities :=
  mkCapabilities (cfg_volume_steps cfg) (cfg_disable_volume cfg)
    true true true true true false true false
    ["audio/episode"; "audio/track"; "audio/local"]
    true true true true
    false false false false false false false false
    "VERY_HIGH" true.

Definition new (cfg : ConnectConfig) (session : SessionInfo) : ConnectState :=
  let volume_step_size := if cfg_volume_steps cfg =? 0 then 1024 else 65535 / cfg_volume_steps cfg in
  let info := mkDeviceInfo true (cfg_initial_volume cfg) (cfg_name cfg) (si_device_id session)
    (proto_device_type (cfg_device_type cfg)) (si_semver session) (si_spirc session) (si_client_id session)
    (cfg_is_group cfg) (capabilities cfg) in
  let request := mkPutStateRequest info (set_ps_session_id (si_session_id session) PlayerState_default)
    false PLAYER_STATE_CHANGED 0 EmptyString 0 0 in
  reset (mkConnectState request [] None 0 CDefault CDefault None None None volume_step_size).

(** [update_current_index(f)] *)
Definition update_current_index (f : ContextIndex -> ContextIndex) : ConnectState -> ConnectState :=
  player_mut (fun p => set_ps_index (Some (f (default ContextIndex_default (ps_index p)))) p).

Definition update_position (position_ms timestamp : Z) : ConnectState -> ConnectState :=
  player_mut (fun p => set_ps_timestamp timestamp (set_ps_position_as_of_timestamp position_ms p)).

Definition update_duration (duration : Z) : ConnectState -> ConnectState := player_mut (set_ps_duration duration).

(** A wrapped [i64]. *)
Definition i64 (z : Z) : Z := wrap 64 (z + 2 ^ 63) - 2 ^ 63.

Definition update_position_in_relation (timestamp : Z) : ConnectState -> ConnectState :=
  player_mut (fun p =>
    let diff := i64 (timestamp - ps_timestamp p) in
    set_ps_timestamp timestamp (set_ps_position_as_of_timestamp (i64 (ps_position_as_of_timestamp p + diff)) p)).

(** The hash of the queue: [DefaultHasher] does not specify its algorithm. *)
Class QueueHash := queue_hash : list string -> Z.

Definition update_queue_revision `{!QueueHash} (s : ConnectState) : ConnectState :=
  player_mut (set_ps_queue_revision (show_Z (queue_hash (pt_uri <$> next_tracks s)))) s.

Definition mark_as_unavailable_for_match (uri : string) (track : ProvidedTrack) : ProvidedTrack :=
  if String.eqb (pt_uri track) uri then set_provider PUnavailable track else track.

(** ** Restrictions *)

Definition clear_restrictions : ConnectState -> ConnectState :=
  player_mut (fun p => set_ps_restrictions (Some PlayerRestrictions_default)
    (set_ps_context_restrictions (Some PlayerRestrictions_default) p)).

Definition playback_restrictions (playing paused : bool) (r : PlayerRestrictions) : PlayerRestrictions :=
  let r := if playing
    then set_pr_disallow_resuming_reasons ["not_paused"] (set_pr_disallow_pausing_reasons [] r) else r in
  if paused
  then set_pr_disallow_pausing_reasons ["not_playing"] (set_pr_disallow_resuming_reasons [] r) else r.

Definition track_restrictions (no_prev autoplay : bool) (r : PlayerRestrictions) : PlayerRestrictions :=
  let prev := if no_prev then ["no previous tracks"] else [] in
  let toggle := if autoplay then ["autoplay"] else [] in
  let r := set_pr_disallow_skipping_prev_reasons prev (set_pr_disallow_peeking_prev_reasons prev r) in
  set_pr_disallow_toggling_repeat_track_reasons toggle
    (set_pr_disallow_toggling_repeat_context_reasons toggle (set_pr_disallow_toggling_shuffle_reasons toggle r)).

Definition is_nil {A} (l : list A) : bool := match l with [] => true | _ => false end.

Definition update_restrictions (s : ConnectState) : ConnectState :=
  let p := player s in
  let r := playback_restrictions (is_playing s) (is_pause s) <$> ps_restrictions p in
  let r := default PlayerRestrictions_default r in
  let r := track_restrictions (is_nil (prev_tracks s)) (is_autoplay (track_or_default (ps_track p))) r in
  player_mut (set_ps_restrictions (Some r)) s.

Definition set_status (status : SpircPlayStatus) (s : ConnectState) : ConnectState :=
  let paused := match status with LoadingPause _ | Paused _ _ | Stopped => true | _ => false end in
  let loading := match status with LoadingPause _ | LoadingPlay _ => true | _ => false end in
  let playing := match status with LoadingPlay _ | Playing _ _ => true | _ => false end in
  update_restrictions (player_mut (fun p =>
    set_ps_is_playing (paused || playing) (set_ps_is_buffering (paused || loading)
      (set_ps_playback_speed (if paused then f64_zero else f64_one) (set_ps_is_paused paused p)))) s).

(** ** Options *)

Definition options_mut (f : PlayerContextPlayerOptions -> PlayerContextPlayerOptions) : ConnectState -> ConnectState :=
  player_mut (fun p => set_ps_options (Some (f (default PlayerContextPlayerOptions_default (ps_options p)))) p).

Definition set_repeat_context (b : bool) : ConnectState -> ConnectState := options_mut (set_po_repeating_context b).
Definition set_repeat_track (b : bool) : ConnectState -> ConnectState := options_mut (set_po_repeating_track b).
Definition set_shuffle (b : bool) : ConnectState -> ConnectState := options_mut (set_po_shuffling_context b).
Definition reset_options (s : ConnectState) : ConnectState :=
  set_repeat_context false (set_repeat_track false (set_shuffle false s)).

Definition options (s : ConnectState) : PlayerContextPlayerOptions :=
  default PlayerContextPlayerOptions_default (ps_options (player s)).
Definition shuffling_context (s : ConnectState) : bool := po_shuffling_context (options s).
Definition repeat_context (s : ConnectState) : bool := po_repeating_context (options s).
Definition repeat_track (s : ConnectState) : bool := po_repeating_track (options s).

(** ** Sending the state

    [put] is the request to the server, with the time limit applied by the code. *)

Section Send.
Context {R : Type} (put : PutStateRequest -> R).

Definition send_state (s : ConnectState) : R := put (cs_request s).

Definition send_with_reason (reason : PutStateReason) (s : ConnectState) : R * ConnectState :=
  let prev_reason := rq_put_state_reason (cs_request s) in
  let s := request_mut (set_rq_put_state_reason reason) s in
  let res := send_state s in
  (res, request_mut (set_rq_put_state_reason prev_reason) s).

Definition notify_new_device_appeared : ConnectState -> R * ConnectState := send_with_reason NEW_DEVICE.
Definition notify_volume_changed : ConnectState -> R * ConnectState := send_with_reason VOLUME_CHANGED.
End Send.

(** ** Fallible operations

    An operation on [&mut self] that returns a [Result]: on an error the changes made so far stay. *)

Definition M (A : Type) : Type := ConnectState -> res CError A * ConnectState.

#[export] Instance M_ret : MRet M := fun A a s => (Ok a, s).
#[export] Instance M_bind : MBind M := fun A B f m s =>
  match m s with
  | (Ok a, s) => f a s
  | (Err e, s) => (Err e, s)
  | (Panic, s) => (Panic, s)
  end.

Definition gets {A} (f : ConnectState -> A) : M A := fun s => (Ok (f s), s).
Definition modify (f : ConnectState -> ConnectState) : M unit := fun s => (Ok tt, f s).
Definition throw {A} (e : CError) : M A := fun s => (Err e, s).
Definition panic {A} : M A := fun s => (Panic, s).
Definition run {A} (f : ConnectState -> res CError A * ConnectState) : M A := f.
(** [?] on a result computed from the state. *)
Definition attempt {A} (f : ConnectState -> res CError A) : M A := fun s => (f s, s).

(** [keeps I m]: [m] does not panic, and keeps [I] whether it succeeds or fails. *)
Definition keeps {A} (I : ConnectState -> Prop) (m : M A) : Prop :=
  forall s, I s -> (m s).1 <> Panic /\ I (m s).2.

(** ** Lemmas *)

Lemma bind_ok {A B} (m : M A) (k : A -> M B) s a s' : m s = (Ok a, s') -> (m ≫= k) s = k a s'.
Proof. intros H. unfold mbind, M_bind. by rewrite H. Qed.

Lemma bind_err {A B} (m : M A) (k : A -> M B) s e s' : m s = (Err e, s') -> (m ≫= k) s = (Err e, s').
Proof. intros H. unfold mbind, M_bind. by rewrite H. Qed.

Lemma bind_modify {B} f (k : unit -> M B) s : (modify f ≫= k) s = k tt (f s).
Proof. done. Qed.

Lemma bind_gets {A B} (f : ConnectState -> A) (k : A -> M B) s : (gets f ≫= k) s = k (f s) s.
Proof. done. Qed.

Lemma attempt_ok {A} (f : ConnectState -> res CError A) s a : f s = Ok a -> attempt f s = (Ok a, s).
Proof. intros H. unfold attempt. by rewrite H. Qed.

Lemma keeps_ret {A} I (a : A) : keeps I (mret a).
Proof. intros s Hs. by split. Qed.

Lemma keeps_gets {A} I (f : ConnectState -> A) : keeps I (gets f).
Proof. intros s Hs. by split. Qed.

Lemma keeps_throw {A} I e : keeps I (throw (A := A) e).
Proof. intros s Hs. by split. Qed.

Lemma keeps_modify (I : ConnectState -> Prop) f : (forall s, I s -> I (f s)) -> keeps I (modify f).
Proof. intros H s Hs. split; [done|by apply H]. Qed.

Lemma keeps_attempt {A} (I : ConnectState -> Prop) (f : ConnectState -> res CError A) :
  (forall s, I s -> f s <> Panic) -> keeps I (attempt f).
Proof. intros H s Hs. split; [by apply H|done]. Qed.

Lemma keeps_bind {A B} I (m : M A) (f : A -> M B) : keeps I m -> (forall a, keeps I (f a)) -> keeps I (m ≫= f).
Proof.
  intros Hm Hf s Hs. destruct (Hm s Hs) as [Hp Hi]. unfold mbind, M_bind.
  destruct (m s) as [[a|e|] s']; simpl in *; [by apply Hf|done|done].
Qed.

Create HintDb keeps.
#[export] Hint Resolve keeps_ret keeps_gets keeps_throw : keeps.

(** One step of a proof that an operation keeps an invariant. *)
Ltac keeps_step :=
  match goal with
  | |- keeps _ (mbind _ _) => apply keeps_bind; [|intros ?]
  | |- keeps _ (if ?b then _ else _) => destruct b eqn:?
  | |- keeps _ (match ?x with _ => _ end) => destruct x eqn:?
  | |- keeps _ _ => solve [eauto with keeps]
  end.

(** ** Properties *)

(** Other devices perceive exactly one of playing and paused after a status change: paused
    for the statuses [Stopped], [Paused] and [LoadingPause], playing for the others; the playback speed is
    zero exactly when paused; the pause and resume restrictions allow exactly the other command
    once restrictions are present. *)
Theorem set_status_perceived (st : SpircPlayStatus) (s : ConnectState) :
  let s' := set_status st s in
  let paused := match st with LoadingPause _ | Paused _ _ | Stopped => true | _ => false end in
  is_pause s' = paused /\ is_playing s' = negb paused /\
  ps_playback_speed (player s') = (if paused then f64_zero else f64_one) /\
  (forall r, ps_restrictions (player s) = Some r ->
     exists r', ps_restrictions (player s') = Some r' /\
       pr_disallow_pausing_reasons r' = (if paused then ["not_playing"] else []) /\
       pr_disallow_resuming_reasons r' = (if paused then [] else ["not_paused"])).
Proof.
  cbv zeta. split_and!; [by destruct st..|]. intros r Hr. unfold set_status, update_restrictions.
  set (s1 := player_mut _ s).
  assert (ps_restrictions (player s1) = Some r) as -> by exact Hr.
  eexists. split; [reflexivity|]. by destruct st.
Qed.

(** Sending the state with a reason sends the state with only that reason changed, and leaves
    the state as it was. *)
Theorem send_with_reason_restores {R : Type} (put : PutStateRequest -> R) (reason : PutStateReason) (s : ConnectState) :
  send_with_reason put reason s = (put (set_rq_put_state_reason reason (cs_request s)), s).
Proof. by destruct s as [[] ? ? ? ? ? ? ? ? ?]. Qed.

(** The volume step of a new device covers the volume range: it is the 16-bit maximum divided
    by the number of steps, with a default when the number of steps is zero, so that no more
    than [volume_steps] adjustments (plus the remainder of the division) span the range. *)
Theorem volume_step_covers (cfg : ConnectConfig) (session : SessionInfo)
  (H : 0 <= cfg_volume_steps cfg < 2 ^ 16) :
  let step := cs_volume_step_size (new cfg session) in
  fits 16 step /\ (cfg_volume_steps cfg = 0 -> step = 1024) /\
  (cfg_volume_steps cfg <> 0 -> 0 < step /\ step * cfg_volume_steps cfg <= 65535 < (step + 1) * cfg_volume_steps cfg).
Proof.
  simpl. case_if; unfold fits; [lia|].
  pose proof (Z.div_mod 65535 (cfg_volume_steps cfg) ltac:(lia)).
  pose proof (Z.mod_pos_bound 65535 (cfg_volume_steps cfg) ltac:(lia)).
  assert (0 < 65535 / cfg_volume_steps cfg) by (apply Z.div_str_pos; lia).
  assert (65535 / cfg_volume_steps cfg <= 65535) by (apply Z.div_le_upper_bound; lia). nia.
Qed.

(** ** Witnesses *)

Lemma volume_step_covers_witness :
  cs_volume_step_size (new ConnectConfig_default (mkSessionInfo "d" "c" "s" "0.8.0" "3.2.6")) = 1023 /\
  1023 * 64 <= 65535 < 1024 * 64.
Proof.
  split; [reflexivity|].
  destruct (volume_step_covers ConnectConfig_default (mkSessionInfo "d" "c" "s" "0.8.0" "3.2.6")) as (_ & _ & H);
    [vm_compute; split; congruence|].
  destruct H as [_ H]; [by vm_compute|]. exact H.
Defined.
