(* ===== verification/ConnectContext.v ===== *)
(** * The connect state: contexts ([native/librespot/connect/src/state/context.rs])

    The contexts that tracks are played from: converting protocol tracks and pages, replacing,
    extending, merging and resetting a context. The random identifiers that the code draws for
    tracks without one are an argument ([uuid], by the number of the draw). *)
From S2P Require Import Prelude Text ShuffleVec SpotifyId SpotifyUri Protocol Config ConnectState.

Definition LOCAL_FILES_IDENTIFIER : string := "spotify:local-files".
Definition SEARCH_IDENTIFIER : string := "spotify:search".

Inductive ResetContext := Completely | DefaultIndex | WhenDifferent (uri : string).

(** ** Reading contexts *)

(** [skip_while] *)
Fixpoint skip_while {A} (f : A -> bool) (l : list A) : list A :=
  match l with [] => [] | x :: l' => if f x then skip_while f l' else l end.

Definition page_url_to_uri (page_url : string) : string :=
  let parts :=
    match strip_prefix page_url "hm://" with
    | Some rest => split "/" rest
    | None => split "/" page_url
    end in
  join ":" (take 3 (skip_while (fun s => negb (String.eqb s "spotify")) parts)).

Definition find_index_in_context (ctx : StateContext) (f : ProvidedTrack -> bool) : res CError nat :=
  ok_or (EState (CanNotFindTrackInContext None (length (vec (sc_tracks ctx))))) (position f (vec (sc_tracks ctx))).

Definition context_of (s : ConnectState) (ty : ContextType) : option StateContext :=
  match ty with CDefault => cs_context s | CAutoplay => cs_autoplay_context s end.

Definition get_context (ty : ContextType) (s : ConnectState) : res CError StateContext :=
  ok_or (EState (NoContext ty)) (context_of s ty).

(** [f(self.get_context_mut(ty)?)] *)
Definition context_mut (ty : ContextType) (f : StateContext -> StateContext) (s : ConnectState) : ConnectState :=
  match ty with
  | CDefault => set_cs_context (f <$> cs_context s) s
  | CAutoplay => set_cs_autoplay_context (f <$> cs_autoplay_context s) s
  end.

Definition get_context_mut (ty : ContextType) (f : StateContext -> StateContext) : M unit :=
  attempt (get_context ty) ≫= fun _ => modify (context_mut ty f).

Definition different_context_uri (uri : string) (s : ConnectState) : bool :=
  negb (String.eqb (context_uri s) uri) || starts_with uri SEARCH_IDENTIFIER.

Definition valid_resolve_uri (uri : string) : option string :=
  if is_empty uri || starts_with uri SEARCH_IDENTIFIER then None else Some uri.

Definition find_valid_uri (context_uri : option string) (first_page : option ContextPage) : option string :=
  match (uri ← context_uri; valid_resolve_uri uri) with
  | Some uri => Some uri
  | None => p ← first_page; t ← head (pg_tracks p); ct_uri t
  end.

Definition is_skip_track (track : ProvidedTrack) (iteration : option Z) (s : ConnectState) : bool :=
  match context_of s (cs_active_context s) with
  | None => false
  | Some ctx =>
      match get_initial_track ctx with
      | Some uri =>
          if String.eqb uri (pt_uri track)
          then match iteration with Some i => i =? 0 | None => true end
          else false
      | None => false
      end
  end.

(** ** Updating contexts *)

Definition set_index_track (i : Z) (c : StateContext) : StateContext :=
  set_sc_index (set_ci_track i (sc_index c)) c.

(** [new_index as u32] *)
Definition update_context_index (ty : ContextType) (new_index : Z) : M unit :=
  get_context_mut ty (set_index_track (wrap 32 new_index)).

Definition set_active_context (new_context : ContextType) (s : ConnectState) : ConnectState :=
  let s := set_cs_active_context new_context s in
  let s := player_mut (fun p =>
    set_ps_restrictions (Some PlayerRestrictions_default)
      (set_ps_context_restrictions (Some PlayerRestrictions_default) (set_ps_context_metadata ∅ p))) s in
  match context_of s new_context with
  | None => s
  | Some ctx =>
      player_mut (fun p =>
        let p := match sc_restrictions ctx with
                 | Some r => set_ps_restrictions (Some (player_restrictions r)) p
                 | None => p
                 end in
        set_ps_context_metadata (extend_map (ps_context_metadata p) (sc_metadata ctx)) p) s
  end.

(** [unshuffle] has no error of its own. *)
Definition no_error {A} (r : res unit A) : res CError A :=
  match r with Ok a => Ok a | Err _ => Panic | Panic => Panic end.

(** The shuffled order and its metadata are dropped from the default context. *)
Definition unshuffle_context (c : StateContext) : res CError StateContext :=
  v ← no_error (unshuffle (sc_tracks c));
  Ok (set_sc_tracks v (remove_initial_track (remove_shuffle_seed c))).

Definition unshuffle_default : M unit :=
  fun s =>
    match cs_context s with
    | None => (Ok tt, s)
    | Some c =>
        match unshuffle_context c with
        | Ok c => (Ok tt, set_cs_context (Some c) s)
        | Err e => (Err e, s)
        | Panic => (Panic, s)
        end
    end.

Definition rewind (c : StateContext) : StateContext := set_sc_index (mkContextIndex 0 0) c.

Definition reset_context (reset_as : ResetContext) : M unit :=
  reset_as ← gets (fun s =>
    match reset_as with
    | WhenDifferent uri => if different_context_uri uri s then Completely else reset_as
    | _ => reset_as
    end);
  unshuffle_default ;;
  (match reset_as with
   | WhenDifferent _ => mret tt
   | Completely => modify (fun s =>
       player_mut (fun p => set_ps_context_url EmptyString (set_ps_context_uri EmptyString p))
         (set_cs_autoplay_context None (set_cs_context None s)))
   | DefaultIndex => modify (fun s => context_mut CAutoplay rewind (context_mut CDefault rewind s))
   end) ;;
  modify (fun s => update_restrictions (set_active_context CDefault (set_cs_fill_up_context CDefault s))).

Definition clear_prev_track : ConnectState -> ConnectState := player_mut (set_ps_prev_tracks []).

(** Tracks are popped until the first track that is not queued is gone. *)
Definition clear_next_tracks (s : ConnectState) : ConnectState :=
  match position (fun t => negb (is_queue t)) (next_tracks s) with
  | Some non_queued_track => player_mut (fun p => set_ps_next_tracks (take non_queued_track (ps_next_tracks p)) p) s
  | None => s
  end.

(** ** Converting tracks and pages *)

Definition uri_error {A} (r : res SpotifyUri.Error A) : res CError A :=
  match r with Ok a => Ok a | Err e => Err (EUri e) | Panic => Panic end.
Definition id_error {A} (r : res SpotifyIdError A) : res CError A :=
  match r with Ok a => Ok a | Err e => Err (EId e) | Panic => Panic end.

(** [Some(gid) if !gid.is_empty()], the last arms of the match. *)
Definition track_of_gid (gid : option (list Z)) : res CError SpotifyUri :=
  match gid with
  | Some (b :: gid) => i ← id_error (from_raw (b :: gid)); Ok (Track i)
  | _ => Err (EState (InvalidTrackUri None))
  end.

Definition context_track_id (t : ContextTrack) : res CError SpotifyUri :=
  match ct_uri t with
  | Some uri =>
      if negb (no_char "?" uri) then Err (EState (InvalidTrackUri (Some uri)))
      else if negb (is_empty uri) then uri_error (from_uri uri)
      else track_of_gid (ct_gid t)
  | None => track_of_gid (ct_gid t)
  end.

Definition context_to_provided_track (s : ConnectState) (uuid : string) (ctx_track : ContextTrack)
    (context_uri : option string) (context_index : option Z) (page_metadata : option (gmap string string))
    (provider : option Provider) : res CError ProvidedTrack :=
  i ← context_track_id ctx_track;
  u ← id_error (to_uri i);
  let uri := replace_str "unknown" "track" u in
  let provider :=
    if existsb (String.eqb uri) (cs_unavailable_uri s) then PUnavailable else default PContext provider in
  let uid := match ct_uid ctx_track with
             | Some uid => if is_empty uid then uuid else uid
             | None => uuid
             end in
  let metadata := extend_map (default ∅ page_metadata) (ct_metadata ctx_track) in
  let track := mkProvidedTrack uri uid metadata (provider_to_string provider) in
  let track := match context_uri with
               | Some u => set_context_uri u (set_entity_uri u track)
               | None => track
               end in
  let track := match context_index with Some i => set_context_index i track | None => track end in
  let track := match provider with PAutoplay => set_from_autoplay true track | _ => track end in
  Ok track.

(** The tracks of a page that can be converted, numbered from [i]. *)
Fixpoint convert_tracks (s : ConnectState) (uuid : nat -> string) (context_uri : string)
    (context_length : option Z) (page_metadata : gmap string string) (provider : option Provider)
    (i : nat) (tracks : list ContextTrack) : res CError (list ProvidedTrack) :=
  match tracks with
  | [] => Ok []
  | t :: tracks =>
      let rest := convert_tracks s uuid context_uri context_length page_metadata provider (S i) tracks in
      match context_to_provided_track s (uuid i) t (Some context_uri)
              ((fun l => usize_add l (Z.of_nat i)) <$> context_length) (Some page_metadata) provider with
      | Ok t => rest ← rest; Ok (t :: rest)
      | Err _ => rest
      | Panic => Panic
      end
  end.

Definition state_context_from_page (s : ConnectState) (uuid : nat -> string) (page : ContextPage)
    (metadata : gmap string string) (restrictions : option Restrictions) (new_context_uri : option string)
    (context_length : option Z) (provider : option Provider) : res CError StateContext :=
  let uri := default (context_uri s) new_context_uri in
  tracks ← convert_tracks s uuid uri context_length (pg_metadata page) provider 0 (pg_tracks page);
  Ok (mkStateContext (sv_from tracks) metadata restrictions ContextIndex_default).

(** [for t in tracks { ctx.tracks.push(t) }] *)
Definition push_tracks (ts : list ProvidedTrack) (c : StateContext) : StateContext :=
  set_sc_tracks (foldl sv_push (sc_tracks c) ts) c.

Definition fill_context_from_page (uuid : nat -> string) (page : ContextPage) : M unit :=
  context ← attempt (fun s =>
    let ctx_len := (fun c => Z.of_nat (length (vec (sc_tracks c)))) <$> cs_context s in
    state_context_from_page s uuid page ∅ None None ctx_len None);
  get_context_mut CDefault (push_tracks (vec (sc_tracks context))).

(** ** Merging *)

Definition merge_track (new_track : ContextTrack) (t : ProvidedTrack) : ProvidedTrack :=
  let t := set_pt_metadata (extend_map (pt_metadata t) (ct_metadata new_track)) t in
  match ct_uid new_track with Some uid => set_pt_uid uid t | None => t end.

(** Replace the element at [i] through [DerefMut]. *)
Definition sv_update {T} (i : nat) (f : T -> T) (v : ShuffleVec T) : ShuffleVec T :=
  mkShuffleVec (alter f i (vec v)) (indices v) (original_first_position v).

Fixpoint merge_tracks (new_tracks : list ContextTrack) (c : StateContext) : StateContext :=
  match new_tracks with
  | [] => c
  | t :: new_tracks =>
      let c :=
        match ct_uri t with
        | Some uri =>
            if is_empty uri then c
            else match position (fun p => String.eqb (pt_uri p) uri) (vec (sc_tracks c)) with
                 | Some i => set_sc_tracks (sv_update i (merge_track t) (sc_tracks c)) c
                 | None => c
                 end
        | None => c
        end in
      merge_tracks new_tracks c
  end.

Definition merge_context (new_page : option ContextPage) (s : ConnectState) : option unit * ConnectState :=
  match cs_context s, new_page with
  | Some _, Some page => (Some tt, context_mut CDefault (merge_tracks (pg_tracks page)) s)
  | _, _ => (None, s)
  end.

(** ** Replacing a context *)

(** The last previous track that is in [ctx]. *)
Fixpoint first_some {A B} (f : A -> option B) (l : list A) : option B :=
  match l with [] => None | x :: l => match f x with Some b => Some b | None => first_some f l end end.

Definition find_first_prev_track_index (ctx : StateContext) (s : ConnectState) : option nat :=
  first_some (fun prev => res_ok (find_index_in_context ctx (fun t => String.eqb (pt_uri prev) (pt_uri t))))
    (reverse (prev_tracks s)).

(** [inl] is [Ok], the position after the one found; [inr] is [Err], the fallback. *)
Definition find_last_index_in_new_context (new_context : StateContext) (s : ConnectState) : option (Z + Z) :=
  ctx ← cs_context s;
  let current := track_or_default (current_track s) in
  let is_queued_item := is_queue current || is_from_queue current in
  let new_index : option Z :=
    if Z.of_nat SPOTIFY_MAX_NEXT_TRACKS_SIZE <=? ci_track (sc_index ctx)
    then Some (ci_track (sc_index ctx) - Z.of_nat SPOTIFY_MAX_NEXT_TRACKS_SIZE)
    else if is_queued_item then Z.of_nat <$> find_first_prev_track_index new_context s
    else Z.of_nat <$> res_ok (find_index_in_context new_context (fun c => String.eqb (pt_uri current) (pt_uri c))) in
  Some (match new_index with
        | Some i => inl (wrap 32 (wrap 32 i + 1))
        | None => inr (ci_track (default ContextIndex_default (ps_index (player s))))
        end).

(** The first page with tracks, and the other pages in order. *)
Fixpoint split_pages (pages : list ContextPage) : option ContextPage * list ContextPage :=
  match pages with
  | [] => (None, [])
  | p :: pages =>
      if negb (is_nil (pg_tracks p)) then (Some p, pages)
      else let '(first, rest) := split_pages pages in (first, p :: rest)
  end.

(** The arm of [update_context] for the default context. *)
Definition update_default (uuid : nat -> string) (context : Context) (page : ContextPage) : M unit :=
  new_context ← attempt (fun s =>
    state_context_from_page s uuid page (ctx_metadata context) (ctx_restrictions context) (ctx_uri context)
      (Some 0) None);
  found ← gets (fun s =>
    if negb (starts_with (context_uri s) SEARCH_IDENTIFIER) &&
       match ctx_uri context with Some uri => String.eqb uri (context_uri s) | None => false end
    then find_last_index_in_new_context new_context s
    else None);
  new_context ← (match found with
    | Some new_index =>
        let i := match new_index with inl i => i | inr i => i end in
        modify (fun s =>
          let s := match new_index with inl _ => s | inr _ => player_mut (set_ps_index None) s end in
          clear_next_tracks (context_mut CAutoplay (set_index_track 0) s)) ;;
        mret (set_index_track i new_context)
    | None => mret new_context
    end);
  modify (fun s =>
    let s := set_cs_context (Some new_context) s in
    let url := match ctx_url context with
               | Some url => if str_contains url SEARCH_IDENTIFIER then EmptyString else url
               | None => EmptyString
               end in
    player_mut (fun p => set_ps_context_uri (default EmptyString (ctx_uri context)) (set_ps_context_url url p)) s).

(** The remaining pages: tracks are appended, an address is returned to be resolved later. *)
Fixpoint load_pages (uuid : nat -> nat -> string) (n : nat) (pages : list ContextPage) : M (list string) :=
  match pages with
  | [] => mret []
  | page :: pages =>
      here ← (if negb (is_nil (pg_tracks page)) then
                ((fun s => match fill_context_from_page (uuid n) page s with
                          | (Panic, s) => (Panic, s)
                          | (_, s) => (Ok None, s)
                          end) : M (option string))
              else match pg_page_url page with
                   | Some url => mret (if is_empty url then None else Some (page_url_to_uri url))
                   | None => mret None
                   end);
      rest ← load_pages uuid (S n) pages;
      mret (match here with Some u => u :: rest | None => rest end)
  end.

Definition update_context (uuid : nat -> nat -> string) (context : Context) (ty : ContextType)
    : M (option (list string)) :=
  if forallb (fun p => is_nil (pg_tracks p)) (ctx_pages context) then throw (EState ContextHasNoTracks)
  else if (match ctx_uri context with Some uri => starts_with uri LOCAL_FILES_IDENTIFIER | None => false end)
  then throw (EState UnsupportedLocalPlayback)
  else
    let '(first_page, next_contexts) := split_pages (ctx_pages context) in
    match first_page with
    | None => throw (EState ContextHasNoTracks)
    | Some page =>
        (match ty with
         | CDefault => update_default (uuid O) context page
         | CAutoplay =>
             c ← attempt (fun s =>
               state_context_from_page s (uuid O) page (ctx_metadata context) (ctx_restrictions context)
                 (ctx_uri context) None (Some PAutoplay));
             modify (set_cs_autoplay_context (Some c))
         end) ;;
        if is_nil next_contexts then mret (None : option (list string))
        else l ← load_pages uuid 1 next_contexts; mret (Some l)
    end.

(** ** Invariant *)

Definition context_wf (o : option StateContext) : Prop :=
  match o with Some c => sv_wf (sc_tracks c) | None => True end.

(** Bounds of the track lists. The code's own limits apply to what it adds itself; the lists of a
    set-queue command are stored as they come, so the bounds in force are those of a run. *)
Class Limits := mkLimits {
  max_prev : nat;
  max_next : nat;
  max_prev_ok : (SPOTIFY_MAX_PREV_TRACKS_SIZE <= max_prev)%nat;
  max_next_ok : (SPOTIFY_MAX_NEXT_TRACKS_SIZE <= max_next)%nat
}.

(** The bounds the code imposes, raised to [p] and [n]. *)
Definition limits_of (p n : nat) : Limits :=
  mkLimits (Nat.max SPOTIFY_MAX_PREV_TRACKS_SIZE p) (Nat.max SPOTIFY_MAX_NEXT_TRACKS_SIZE n)
    (Nat.le_max_l _ _) (Nat.le_max_l _ _).

(** The track lists are within the bounds, and the contexts can be unshuffled. *)
Record Inv {L : Limits} (s : ConnectState) : Prop := mkInv {
  inv_prev : (length (prev_tracks s) <= max_prev)%nat;
  inv_next : (length (next_tracks s) <= max_next)%nat;
  inv_context : context_wf (cs_context s);
  inv_autoplay : context_wf (cs_autoplay_context s)
}.

(** The identifiers of protocol tracks are bytes. *)
Definition track_ok (t : ContextTrack) : Prop := match ct_gid t with Some g => Forall is_byte g | None => True end.
Definition page_ok (p : ContextPage) : Prop := Forall track_ok (pg_tracks p).
Definition context_ok (c : Context) : Prop := Forall page_ok (ctx_pages c).

(** ** Lemmas *)

Lemma inv_ext {L : Limits} s s' :
  prev_tracks s' = prev_tracks s -> next_tracks s' = next_tracks s -> cs_context s' = cs_context s ->
  cs_autoplay_context s' = cs_autoplay_context s -> Inv s -> Inv s'.
Proof. intros E1 E2 E3 E4 []. constructor; by rewrite ?E1, ?E2, ?E3, ?E4. Qed.

(** Operations that change none of the four fields. *)
Ltac inv_same :=
  intros;
  match goal with
  | H : Inv ?s |- Inv ?s' => exact (inv_ext s s' eq_refl eq_refl eq_refl eq_refl H)
  end.

Lemma inv_update_restrictions {L : Limits} s : Inv s -> Inv (update_restrictions s).
Proof. inv_same. Qed.
Lemma inv_update_current_index {L : Limits} f s : Inv s -> Inv (update_current_index f s).
Proof. inv_same. Qed.
Lemma inv_update_queue_revision {L : Limits} `{!QueueHash} s : Inv s -> Inv (update_queue_revision s).
Proof. inv_same. Qed.
Lemma inv_set_fill_up {L : Limits} ty s : Inv s -> Inv (set_cs_fill_up_context ty s).
Proof. inv_same. Qed.

Lemma set_active_context_fields ty s :
  prev_tracks (set_active_context ty s) = prev_tracks s /\ next_tracks (set_active_context ty s) = next_tracks s /\
  cs_context (set_active_context ty s) = cs_context s /\
  cs_autoplay_context (set_active_context ty s) = cs_autoplay_context s.
Proof. unfold set_active_context. destruct (context_of _ ty) as [[? ? [r|] ?]|]; done. Qed.

Lemma inv_set_active_context {L : Limits} ty s : Inv s -> Inv (set_active_context ty s).
Proof. destruct (set_active_context_fields ty s) as (?&?&?&?). by apply inv_ext. Qed.

Lemma context_wf_fmap f o :
  (forall c, sv_wf (sc_tracks c) -> sv_wf (sc_tracks (f c))) -> context_wf o -> context_wf (f <$> o).
Proof. destruct o; simpl; auto. Qed.

Lemma inv_context_mut {L : Limits} ty f s :
  (forall c, sv_wf (sc_tracks c) -> sv_wf (sc_tracks (f c))) -> Inv s -> Inv (context_mut ty f s).
Proof. intros Hf []. destruct ty; constructor; try done; by apply context_wf_fmap. Qed.

Lemma inv_set_context {L : Limits} c s : sv_wf (sc_tracks c) -> Inv s -> Inv (set_cs_context (Some c) s).
Proof. intros Hc []. by constructor. Qed.

Lemma inv_clear_prev_track {L : Limits} s : Inv s -> Inv (clear_prev_track s).
Proof. intros []. constructor; [simpl; lia|done..]. Qed.

Lemma inv_clear_next_tracks {L : Limits} s : Inv s -> Inv (clear_next_tracks s).
Proof.
  intros []. unfold clear_next_tracks. destruct (position _ _); constructor; try done.
  unfold next_tracks in *. simpl. rewrite length_take. lia.
Qed.

#[export] Hint Resolve inv_update_restrictions inv_update_current_index inv_update_queue_revision inv_set_fill_up
  inv_set_active_context inv_clear_prev_track inv_clear_next_tracks : keeps.
#[export] Hint Extern 1 (keeps Inv (modify _)) => apply keeps_modify; intros ? ?; eauto with keeps : keeps.
#[export] Hint Extern 2 (Inv _) => inv_same : keeps.

Lemma get_context_ok ty s c : context_of s ty = Some c -> get_context ty s = Ok c.
Proof. intros H. unfold get_context. by rewrite H. Qed.

Lemma get_context_mut_ok ty f s c :
  context_of s ty = Some c -> get_context_mut ty f s = (Ok tt, context_mut ty f s).
Proof. intros H. unfold get_context_mut. by erewrite bind_ok by (by apply attempt_ok, get_context_ok). Qed.

Lemma get_context_not_panic ty s : get_context ty s <> Panic.
Proof. unfold get_context. by destruct (context_of s ty). Qed.

Lemma keeps_get_context (I : ConnectState -> Prop) (ty : ConnectState -> ContextType) :
  keeps I (attempt (fun s => get_context (ty s) s)).
Proof. apply keeps_attempt. intros s _. apply get_context_not_panic. Qed.

Lemma keeps_find (I : ConnectState -> Prop) ctx f : keeps I (attempt (fun _ => find_index_in_context ctx f)).
Proof. apply keeps_attempt. intros s _. unfold find_index_in_context. by destruct (position _ _). Qed.

Lemma keeps_get_context_mut {L : Limits} ty f :
  (forall c, sv_wf (sc_tracks c) -> sv_wf (sc_tracks (f c))) -> keeps Inv (get_context_mut ty f).
Proof.
  intros Hf. unfold get_context_mut. apply keeps_bind.
  - apply (keeps_get_context _ (fun _ => ty)).
  - intros _. apply keeps_modify. intros s. by apply inv_context_mut.
Qed.

Lemma keeps_update_context_index {L : Limits} ty i : keeps Inv (update_context_index ty i).
Proof. by apply keeps_get_context_mut. Qed.

#[export] Hint Resolve keeps_get_context keeps_find keeps_update_context_index : keeps.

Lemma keeps_unshuffle_default {L : Limits} : keeps Inv unshuffle_default.
Proof.
  intros s Hs. unfold unshuffle_default. destruct (cs_context s) as [c|] eqn:E; [|done].
  destruct (sv_wf_unshuffle (sc_tracks c)) as (v & Hv & Hw).
  { pose proof (inv_context s Hs) as H. by rewrite E in H. }
  unfold unshuffle_context. rewrite Hv. simpl. split; [done|]. by apply inv_set_context.
Qed.

#[export] Hint Resolve keeps_unshuffle_default : keeps.

Lemma keeps_reset_context {L : Limits} r : keeps Inv (reset_context r).
Proof.
  unfold reset_context. apply keeps_bind; [eauto with keeps|]. intros r'.
  apply keeps_bind; [eauto with keeps|]. intros _. apply keeps_bind; [|eauto with keeps].
  destruct r'; [apply keeps_modify..|apply keeps_ret].
  - intros s []. constructor; done.
  - intros s Hs. by apply inv_context_mut, inv_context_mut.
Qed.

#[export] Hint Resolve keeps_reset_context : keeps.

(** *** Converting and replacing contexts does not panic *)

Lemma track_of_gid_parsed g : match g with Some g => Forall is_byte g | None => True end -> safe parsed (track_of_gid g).
Proof.
  destruct g as [[|b g]|]; simpl; [done| |done]. intros Hg. unfold from_raw.
  destruct (Nat.eqb_spec (length (b :: g)) SIZE) as [Hl|]; [|done]. cbn [id_error mbind res_bind safe parsed].
  unfold id_ok, fits. cbn [SpotifyId.id]. pose proof (be_combine_bounds (b :: g) Hg) as Hb. rewrite Hl in Hb. exact Hb.
Qed.

Lemma context_track_id_parsed t : track_ok t -> safe parsed (context_track_id t).
Proof.
  intros Ht. unfold context_track_id. destruct (ct_uri t) as [uri|]; [|by apply track_of_gid_parsed].
  destruct (negb (no_char _ uri)); [done|]. destruct (negb (is_empty uri)); [|by apply track_of_gid_parsed].
  destruct (from_uri uri) as [u| |] eqn:E; simpl; [by eapply from_uri_parsed|done|by eapply from_uri_not_panic].
Qed.

Lemma context_to_provided_track_safe s uuid t uri i m p :
  track_ok t -> context_to_provided_track s uuid t uri i m p <> Panic.
Proof.
  intros Ht%context_track_id_parsed. unfold context_to_provided_track.
  destruct (context_track_id t) as [u| |]; simpl in *; [|done|done].
  destruct (from_to_uri u Ht) as (str & -> & _). done.
Qed.

Lemma convert_tracks_safe s uuid uri l m p i ts :
  Forall track_ok ts -> convert_tracks s uuid uri l m p i ts <> Panic.
Proof.
  intros H. revert i; induction H as [|t ts Ht Hts IH]; intros i; simpl; [done|].
  pose proof (context_to_provided_track_safe s (uuid i) t (Some uri)
    ((fun l => usize_add l (Z.of_nat i)) <$> l) (Some m) p Ht) as Hp.
  destruct (context_to_provided_track _ _ _ _ _ _ _); [|done|done].
  specialize (IH (S i)). by destruct (convert_tracks _ _ _ _ _ _ _ _).
Qed.

(** A fresh context is not shuffled. *)
Lemma state_context_from_page_safe s uuid page m r uri l p :
  page_ok page ->
  safe (fun c => exists ts, sc_tracks c = sv_from ts) (state_context_from_page s uuid page m r uri l p).
Proof.
  intros Hp. unfold state_context_from_page.
  pose proof (convert_tracks_safe s uuid (default (context_uri s) uri) l (pg_metadata page) p 0 _ Hp) as H.
  destruct (convert_tracks _ _ _ _ _ _ _ _); simpl; [by eexists|done|done].
Qed.

Lemma fresh_wf (c : StateContext) : (exists ts, sc_tracks c = sv_from ts) -> sv_wf (sc_tracks c).
Proof. by intros [ts ->]. Qed.

Lemma foldl_push_wf (ts : list ProvidedTrack) v : sv_wf v -> sv_wf (foldl sv_push v ts).
Proof. revert v; induction ts as [|t ts IH]; intros v Hv; simpl; [done|]. by apply IH, sv_wf_push. Qed.

(** A computed value, used under what is known of it. *)
Lemma keeps_attempt_bind {A B} I P (f : ConnectState -> res CError A) (k : A -> M B) :
  (forall s, safe P (f s)) -> (forall a, P a -> keeps I (k a)) -> keeps I (attempt f ≫= k).
Proof.
  intros Hf Hk s Hs. unfold mbind, M_bind, attempt. specialize (Hf s).
  destruct (f s) as [a|e|]; simpl in *; [by apply Hk|done|done].
Qed.

Lemma keeps_fill_context_from_page {L : Limits} uuid page : page_ok page -> keeps Inv (fill_context_from_page uuid page).
Proof.
  intros Hp. unfold fill_context_from_page. eapply keeps_attempt_bind.
  - intros s. by apply state_context_from_page_safe.
  - intros c _. apply keeps_get_context_mut. intros c' Hc'. by apply foldl_push_wf.
Qed.

Lemma keeps_load_pages {L : Limits} uuid n pages : Forall page_ok pages -> keeps Inv (load_pages uuid n pages).
Proof.
  intros H. revert n; induction H as [|p ps Hp Hps IH]; intros n; simpl; [apply keeps_ret|].
  apply keeps_bind; [|intros here; apply keeps_bind; [apply IH|intros; apply keeps_ret]].
  destruct (negb _).
  - intros s Hs. destruct (keeps_fill_context_from_page (uuid n) p Hp s Hs) as [Hn Hi].
    destruct (fill_context_from_page _ _ _) as [[]]; done.
  - destruct (pg_page_url p); apply keeps_ret.
Qed.

Lemma split_pages_ok pages : Forall page_ok pages ->
  (forall p, (split_pages pages).1 = Some p -> page_ok p) /\ Forall page_ok (split_pages pages).2.
Proof.
  induction 1 as [|p ps Hp Hps [IH1 IH2]]; simpl; [by split|]. destruct (negb _); simpl.
  - split; [by intros ? [= <-]|done].
  - destruct (split_pages ps); simpl in *. split; [done|by constructor].
Qed.

Lemma keeps_update_default {L : Limits} uuid context page : page_ok page -> keeps Inv (update_default uuid context page).
Proof.
  intros Hp. unfold update_default. eapply keeps_attempt_bind.
  { intros s. by apply state_context_from_page_safe. }
  intros c [ts Hc]. apply keeps_bind; [apply keeps_gets|]. intros found.
  set (m := match found with Some _ => _ | None => _ end).
  set (k := fun _ => _). intros s Hs.
  assert (exists c' s', m s = (Ok c', s') /\ sc_tracks c' = sc_tracks c /\ Inv s') as (c' & s' & Hm & Hc' & Hs').
  { unfold m. destruct found as [i|]; [|by eexists _, _].
    eexists _, _. split; [reflexivity|]. split; [done|].
    apply inv_clear_next_tracks, inv_context_mut; [done|]. destruct i; [done|inv_same]. }
  unfold mbind, M_bind. rewrite Hm. split; [done|]. unfold k. simpl.
  assert (Inv (set_cs_context (Some c') s')) as Hi by (apply inv_set_context; [by rewrite Hc', Hc|done]).
  revert Hi. generalize (set_cs_context (Some c') s'). inv_same.
Qed.

Lemma keeps_update_context {L : Limits} uuid context ty : context_ok context -> keeps Inv (update_context uuid context ty).
Proof.
  intros Hc. unfold update_context. destruct (forallb _ _); [apply keeps_throw|].
  destruct (match ctx_uri context with Some _ => _ | None => _ end); [apply keeps_throw|].
  pose proof (split_pages_ok _ Hc) as [Hfirst Hrest]. destruct (split_pages _) as [[page|] rest]; [|apply keeps_throw].
  simpl in *. specialize (Hfirst page eq_refl). apply keeps_bind.
  - destruct ty; [by apply keeps_update_default|]. eapply keeps_attempt_bind.
    + intros s. by apply state_context_from_page_safe.
    + intros c Hw%fresh_wf. apply keeps_modify. intros s []. by constructor.
  - intros _. destruct (is_nil rest); [apply keeps_ret|].
    apply keeps_bind; [by apply keeps_load_pages|intros; apply keeps_ret].
Qed.

Lemma sv_wf_update {T} i f (v : ShuffleVec T) : sv_wf v -> sv_wf (sv_update i f v).
Proof. destruct v as [l [ind|] ofp]; unfold sv_wf; simpl; [|done]. by rewrite length_alter. Qed.

Lemma merge_tracks_wf ts c : sv_wf (sc_tracks c) -> sv_wf (sc_tracks (merge_tracks ts c)).
Proof.
  revert c; induction ts as [|t ts IH]; intros c Hc; simpl; [done|]. apply IH.
  destruct (ct_uri t) as [uri|]; [|done]. destruct (is_empty uri); [done|]. destruct (position _ _); [|done].
  by apply sv_wf_update.
Qed.

Lemma inv_merge_context {L : Limits} page s : Inv s -> Inv (merge_context page s).2.
Proof.
  intros Hs. unfold merge_context. destruct (cs_context s); [|done]. destruct page; [|done].
  apply inv_context_mut; [|done]. intros c0. apply merge_tracks_wf.
Qed.
