(* ===== verification/ConnectTracks.v ===== *)
(** * The connect state: track lists ([native/librespot/connect/src/state/tracks.rs] and
      [reset_playback_to_position] of [state.rs])

    The lists of previous and next tracks around the current one: skipping in both directions,
    the queue, filling up the next tracks from a context, unavailable tracks.

    Vec indices are [nat]: an index that was in range can be incremented without overflow. The
    fill-up loop has fuel; running out of fuel is modelled as a panic, so that the theorems that
    exclude panics also prove that the loop ends ([fill_fuel] is enough). *)
From S2P Require Import Prelude Text ShuffleVec SpotifyId SpotifyUri Protocol Config ConnectState ConnectContext.

Definition IDENTIFIER_DELIMITER : string := "delimiter".

Definition new_delimiter (iteration : Z) : ProvidedTrack :=
  let delimiter := mkProvidedTrack (String.append "spotify:" IDENTIFIER_DELIMITER)
    (String.append IDENTIFIER_DELIMITER (show_Z iteration)) ∅ (provider_to_string PContext) in
  set_iteration iteration (set_hidden true delimiter).

Definition is_delimiter (t : ProvidedTrack) : bool := starts_with (pt_uid t) IDENTIFIER_DELIMITER.

Definition prev_tracks_mut (f : list ProvidedTrack -> list ProvidedTrack) : ConnectState -> ConnectState :=
  player_mut (fun p => set_ps_prev_tracks (f (ps_prev_tracks p)) p).
Definition next_tracks_mut (f : list ProvidedTrack -> list ProvidedTrack) : ConnectState -> ConnectState :=
  player_mut (fun p => set_ps_next_tracks (f (ps_next_tracks p)) p).

Definition push_prev_list (prev : ProvidedTrack) (l : list ProvidedTrack) : list ProvidedTrack :=
  (if (SPOTIFY_MAX_PREV_TRACKS_SIZE <=? length l)%nat then tail l else l) ++ [prev].

Definition push_prev (prev : ProvidedTrack) : ConnectState -> ConnectState := prev_tracks_mut (push_prev_list prev).

Definition get_next_track (s : ConnectState) : option ProvidedTrack * ConnectState :=
  match next_tracks s with
  | [] => (None, s)
  | t :: _ => (Some t, next_tracks_mut tail s)
  end.

Definition set_track (track : ProvidedTrack) : ConnectState -> ConnectState := player_mut (set_ps_track (Some track)).

(** [self.player_mut().track.take()] *)
Definition take_track : M (option ProvidedTrack) := fun s => (Ok (current_track s), player_mut (set_ps_track None) s).

Definition set_current_track (index : Z) : M unit :=
  context ← attempt (fun s => get_context (cs_active_context s) s);
  new_track ← attempt (fun _ =>
    ok_or (EState (CanNotFindTrackInContext (Some index) (length (vec (sc_tracks context)))))
      (vec (sc_tracks context) !! Z.to_nat index));
  modify (fun s => update_current_index (set_ci_track (wrap 32 index)) (set_track new_track s)).

(** [rng_track] is the number drawn below the number of tracks; an empty range panics. *)
Definition set_current_track_random (rng_track : nat -> Z) : M unit :=
  context ← attempt (fun s => get_context (cs_active_context s) s);
  let max_tracks := length (vec (sc_tracks context)) in
  if (max_tracks =? 0)%nat then panic else set_current_track (rng_track max_tracks).

(** Vec::pop until the length is at most [n]. *)
Definition truncate (n : nat) (l : list ProvidedTrack) : list ProvidedTrack := take n l.

(** ** Filling up the next tracks *)

Section Fill.
Context `{!QueueHash}.

(** One round of the loop: stop, skip an entry, or push a track, with the new index and
    iteration and the state after a transition to the autoplay context. *)
Inductive fill_step :=
| FillBreak
| FillSkip (new_index : nat)
| FillPush (track : ProvidedTrack) (new_index : nat) (iteration : Z) (s : ConnectState).

Definition fill_round (new_index : nat) (iteration : Z) (s : ConnectState) : res CError fill_step :=
  ctx ← get_context (cs_fill_up_context s) s;
  match vec (sc_tracks ctx) !! new_index with
  | None =>
      if repeat_context s then Ok (FillPush (new_delimiter iteration) 0 (wrap 32 (iteration + 1)) s)
      else
        match cs_autoplay_context s with
        | None => Ok FillBreak
        | Some autoplay =>
            if negb (bool_decide (cs_fill_up_context s = CAutoplay)) then
              let s := context_mut (cs_fill_up_context s) (set_index_track (wrap 32 (Z.of_nat new_index))) s in
              let s := set_cs_fill_up_context CAutoplay s in
              Ok (FillPush (new_delimiter iteration) (Z.to_nat (ci_track (sc_index autoplay))) iteration s)
            else
              match vec (sc_tracks autoplay) !! new_index with
              | None => Ok FillBreak
              | Some ct => Ok (FillPush ct (S new_index) iteration s)
              end
        end
  | Some ct =>
      if is_unavailable ct || is_skip_track ct (Some iteration) s then Ok (FillSkip (S new_index))
      else Ok (FillPush ct (S new_index) iteration s)
  end.

Fixpoint fill_loop (fuel : nat) (new_index : nat) (iteration : Z) (s : ConnectState)
    : res CError nat * ConnectState :=
  match fuel with
  | O => (Panic, s)
  | S fuel =>
      if (length (next_tracks s) <? SPOTIFY_MAX_NEXT_TRACKS_SIZE)%nat then
        match fill_round new_index iteration s with
        | Ok FillBreak => (Ok new_index, s)
        | Ok (FillSkip i) => fill_loop fuel i iteration s
        | Ok (FillPush t i iteration s) => fill_loop fuel i iteration (next_tracks_mut (fun l => l ++ [t]) s)
        | Err e => (Err e, s)
        | Panic => (Panic, s)
        end
      else (Ok new_index, s)
  end.

Definition context_len (o : option StateContext) : nat :=
  match o with Some c => length (vec (sc_tracks c)) | None => 0 end.

(** Between two pushes the index passes each track of a context at most once. *)
Definition fill_bound (s : ConnectState) : nat :=
  S (Nat.max (context_len (cs_context s)) (context_len (cs_autoplay_context s))).
Definition fill_fuel (s : ConnectState) : nat := S ((SPOTIFY_MAX_NEXT_TRACKS_SIZE + 1) * fill_bound s).

Definition fill_up_next_tracks : M unit :=
  ctx ← attempt (fun s => get_context (cs_fill_up_context s) s);
  let new_index := Z.to_nat (ci_track (sc_index ctx)) in
  let iteration := ci_page (sc_index ctx) in
  new_index ← run (fun s => fill_loop (fill_fuel s) new_index iteration s);
  fill_up_context ← gets cs_fill_up_context;
  update_context_index fill_up_context (Z.of_nat new_index) ;;
  modify update_queue_revision.

(** ** Skipping *)

(** The loop of [next_track]: delimiters move to the previous tracks, unavailable tracks are
    dropped. Each round removes a next track, so their number bounds the rounds. *)
Fixpoint advance (fuel : nat) (s : ConnectState) : option ProvidedTrack * ConnectState :=
  match fuel with
  | O => (None, s)
  | S fuel =>
      match get_next_track s with
      | (Some next, s) =>
          if is_delimiter next then advance fuel (push_prev next s)
          else if is_unavailable next then advance fuel s
          else (Some next, s)
      | (None, s) => (None, s)
      end
  end.

Definition from_context (t : ProvidedTrack) : bool := is_context t || is_autoplay t.

Definition next_track : M (option Z) :=
  modify (fun s => if repeat_track s then set_repeat_track false s else s) ;;
  old_track ← take_track;
  modify (fun s => match old_track with
                   | Some t => if from_context t then push_prev t s else s
                   | None => s
                   end) ;;
  new_track ← run (fun s => let '(t, s) := advance (S (length (next_tracks s))) s in (Ok t, s));
  match new_track with
  | None => mret None
  | Some new_track =>
      fill_up_next_tracks ;;
      (if is_queue new_track then modify (player_mut (set_ps_index None))
       else if is_autoplay new_track
       then modify (fun s => player_mut (set_ps_index None) (set_active_context CAutoplay s))
       else match get_context_index new_track with
            | Some new_index => modify (update_current_index (set_ci_track (wrap 32 new_index)))
            | None => modify (player_mut (set_ps_index None))
            end) ;;
      modify (fun s => update_restrictions (set_track new_track s)) ;;
      gets (fun s => Some (ci_track (default ContextIndex_default (ps_index (player s)))))
  end.

(** The next tracks after the old track and a delimiter went back in front. *)
Definition put_back (old : option ProvidedTrack) (delimiter : option ProvidedTrack) (l : list ProvidedTrack)
    : list ProvidedTrack :=
  let l := match old with Some t => if from_context t then t :: l else l | None => l end in
  let l := match delimiter with
           | Some d => d :: (if (SPOTIFY_MAX_NEXT_TRACKS_SIZE <=? length l)%nat then take (length l - 1) l else l)
           | None => l
           end in
  truncate SPOTIFY_MAX_NEXT_TRACKS_SIZE l.

(** [last], and [pop] for the rest. *)
Definition pop (l : list ProvidedTrack) : list ProvidedTrack := take (length l - 1) l.

Definition prev_track : M (option (option ProvidedTrack)) :=
  old_track ← take_track;
  delimiter ← gets (fun s => match last (prev_tracks s) with
                             | Some prev => if is_delimiter prev then Some prev else None
                             | None => None
                             end);
  modify (fun s => match delimiter with Some _ => prev_tracks_mut pop s | None => s end) ;;
  modify (next_tracks_mut (put_back old_track delimiter)) ;;
  new_track ← gets (fun s => last (prev_tracks s));
  modify (prev_tracks_mut pop) ;;
  match new_track with
  | None => mret None
  | Some new_track =>
      modify (fun s => if bool_decide (cs_active_context s = CAutoplay) && is_context new_track
                       then set_active_context CDefault s else s) ;;
      fill_up_next_tracks ;;
      modify (set_track new_track) ;;
      modify (fun s =>
        if ci_track (default ContextIndex_default (ps_index (player s))) =? 0 then s
        else update_current_index (fun i => set_ci_track (ci_track i - 1) i) s) ;;
      modify update_restrictions ;;
      gets (fun s => Some (current_track s))
  end.

(** ** Queue *)

Definition queue_uid (n : Z) : string := String.append "q" (show_Z n).

Definition add_to_queue (track : ProvidedTrack) (rev_update : bool) (s : ConnectState) : ConnectState :=
  let track := set_pt_uid (queue_uid (cs_queue_count s)) track in
  let s := set_cs_queue_count (wrap 64 (cs_queue_count s + 1)) s in
  let track := set_provider PQueue track in
  let track := if is_from_queue track then track else set_from_queue true track in
  let s := next_tracks_mut (fun l =>
    let l := match position (fun t => negb (is_queue t)) l with
             | Some i => take i l ++ track :: drop i l
             | None => l ++ [track]
             end in
    truncate SPOTIFY_MAX_NEXT_TRACKS_SIZE l) s in
  let s := if rev_update then update_queue_revision s else s in
  update_restrictions s.

(** Tracks flagged as queued get the provider and the next identifiers. *)
Fixpoint number_queued (count : Z) (tracks : list ProvidedTrack) : list ProvidedTrack * Z :=
  match tracks with
  | [] => ([], count)
  | t :: tracks =>
      let '(t, count) :=
        if is_from_queue t
        then (set_pt_uid (queue_uid count) (set_provider PQueue t), wrap 64 (count + 1))
        else (t, count) in
      let '(tracks, count) := number_queued count tracks in
      (t :: tracks, count)
  end.

Definition set_next_tracks (tracks : list ProvidedTrack) (s : ConnectState) : ConnectState :=
  let '(tracks, count) := number_queued (cs_queue_count s) tracks in
  let s := set_cs_queue_count count s in
  let current := pt_uri (track_or_default (current_track s)) in
  let tracks := (fun t => if is_empty (pt_uri t) then set_pt_uri current t else t) <$> tracks in
  player_mut (set_ps_next_tracks tracks) s.

Definition set_prev_tracks (tracks : list ProvidedTrack) : ConnectState -> ConnectState :=
  player_mut (set_ps_prev_tracks tracks).

(** [retain] *)
Definition clear_queue : M unit :=
  modify (next_tracks_mut (List.filter (fun t => negb (is_queue t)))) ;;
  fill_up_next_tracks ;;
  modify update_queue_revision.

Definition preview_next_track (s : ConnectState) : option SpotifyUri :=
  next ← (if repeat_track s then Some (pt_uri (track_or_default (current_track s)))
          else pt_uri <$> head (next_tracks s));
  res_ok (from_uri next).

Definition has_next_tracks (min : option nat) (s : ConnectState) : bool :=
  match min with
  | Some min => (min <=? length (next_tracks s))%nat
  | None => negb (is_nil (next_tracks s))
  end.

Definition recent_track_uris (s : ConnectState) : list string :=
  (pt_uri <$> prev_tracks s) ++ [pt_uri (track_or_default (current_track s))].

(** ** Unavailable tracks *)

(** [while let Some(pos) = tracks.position(..) { tracks.remove(pos) }]: each round removes one. *)
Fixpoint remove_uri_loop (fuel : nat) (uri : string) (l : list ProvidedTrack) : list ProvidedTrack :=
  match fuel with
  | O => l
  | S fuel =>
      match position (fun t => String.eqb (pt_uri t) uri) l with
      | Some pos => remove_uri_loop fuel uri (delete pos l)
      | None => l
      end
  end.

Definition mark_list (uri : string) (l : list ProvidedTrack) : list ProvidedTrack :=
  mark_as_unavailable_for_match uri <$> remove_uri_loop (S (length l)) uri l.

Definition mark_unavailable (id : SpotifyUri) : M unit :=
  uri ← attempt (fun _ => id_error (to_uri id));
  modify (fun s => prev_tracks_mut (mark_list uri) (next_tracks_mut (mark_list uri) s)) ;;
  modify (fun s => set_cs_unavailable_uri (cs_unavailable_uri s ++ [uri]) s) ;;
  fill_up_next_tracks ;;
  modify update_queue_revision.

(** ** Jumping to a position *)

(** [.rev().skip(before).take(10).rev()] *)
Definition window_before (tracks : list ProvidedTrack) (before : Z) : list ProvidedTrack :=
  reverse (take SPOTIFY_MAX_PREV_TRACKS_SIZE (drop (Z.to_nat before) (reverse tracks))).

Definition reset_playback_to_position (new_index : option Z) : M unit :=
  let new_index := default 0 new_index in
  modify (update_current_index (set_ci_track (wrap 32 new_index))) ;;
  active ← gets cs_active_context;
  update_context_index active (usize_add new_index 1) ;;
  modify (fun s => set_cs_fill_up_context (cs_active_context s) s) ;;
  keep ← gets (fun s => let t := track_or_default (current_track s) in is_queue t || is_skip_track t None s);
  (if negb keep then set_current_track new_index else mret tt) ;;
  modify clear_prev_track ;;
  (if 0 <? new_index then
     context ← attempt (fun s => get_context (cs_active_context s) s);
     let tracks := vec (sc_tracks context) in
     let before_new_track := usize_sub (Z.of_nat (length tracks)) new_index in
     modify (player_mut (set_ps_prev_tracks (window_before tracks before_new_track)))
   else mret tt) ;;
  modify clear_next_tracks ;;
  fill_up_next_tracks ;;
  modify update_restrictions.
End Fill.

(** ** Specification of the fill-up *)

(** The state [s'] is [s] with the tracks [added] appended to the next tracks; only the positions
    in the contexts and the fill-up context may differ beside that. *)
Record fills (s s' : ConnectState) (added : list ProvidedTrack) : Prop := mkFills {
  fl_next : next_tracks s' = next_tracks s ++ added;
  fl_prev : prev_tracks s' = prev_tracks s;
  fl_track : current_track s' = current_track s;
  fl_index : ps_index (player s') = ps_index (player s);
  fl_options : ps_options (player s') = ps_options (player s);
  fl_context : sc_tracks <$> cs_context s' = sc_tracks <$> cs_context s;
  fl_autoplay : sc_tracks <$> cs_autoplay_context s' = sc_tracks <$> cs_autoplay_context s;
  fl_active : cs_active_context s' = cs_active_context s;
  fl_metadata : sc_metadata <$> cs_context s' = sc_metadata <$> cs_context s;
  fl_count : cs_queue_count s' = cs_queue_count s
}.

(** A track the fill-up may add: a delimiter or an available track of one of the contexts. *)
Definition fill_source (s : ConnectState) (t : ProvidedTrack) : Prop :=
  is_unavailable t = false /\
  ((exists iteration, t = new_delimiter iteration) \/
   (exists ty c, context_of s ty = Some c /\ t ∈ vec (sc_tracks c))).

Definition fillable (s : ConnectState) : Prop := is_Some (context_of s (cs_fill_up_context s)).

(** Nothing is left to add at index [i]. *)
Definition exhausted (s : ConnectState) (i : nat) : Prop :=
  repeat_context s = false /\
  (cs_fill_up_context s = CAutoplay \/ cs_autoplay_context s = None) /\
  exists c, context_of s (cs_fill_up_context s) = Some c /\ (length (vec (sc_tracks c)) <= i)%nat.

(** The measure of the loop. *)
Definition fill_measure (i : nat) (s : ConnectState) : nat :=
  (SPOTIFY_MAX_NEXT_TRACKS_SIZE - length (next_tracks s)) * fill_bound s + (fill_bound s - 1 - i).

(** A context that is played straight through: nothing is shuffled, skipped, repeated or continued. *)
Definition plain_context (s : ConnectState) (c : StateContext) : Prop :=
  cs_context s = Some c /\ cs_autoplay_context s = None /\ cs_fill_up_context s = CDefault /\
  cs_active_context s = CDefault /\ repeat_context s = false /\ get_initial_track c = None /\
  Forall (fun t => is_unavailable t = false) (vec (sc_tracks c)).

(** ** Lemmas *)

Lemma fills_refl s : fills s s [].
Proof. constructor; try done. by rewrite app_nil_r. Qed.

Lemma fills_trans s1 s2 s3 a b : fills s1 s2 a -> fills s2 s3 b -> fills s1 s3 (a ++ b).
Proof. intros [] []. constructor; try congruence. rewrite fl_next1, fl_next0. by rewrite app_assoc. Qed.

Lemma fills_push s t : fills s (next_tracks_mut (fun l => l ++ [t]) s) [t].
Proof. by constructor. Qed.

Lemma context_len_tracks o o' : sc_tracks <$> o = sc_tracks <$> o' -> context_len o = context_len o'.
Proof. destruct o, o'; simpl; congruence. Qed.

Lemma fills_bound s s' a : fills s s' a -> fill_bound s' = fill_bound s.
Proof.
  intros []. unfold fill_bound. by rewrite (context_len_tracks _ _ fl_context0), (context_len_tracks _ _ fl_autoplay0).
Qed.

Lemma fills_repeat s s' a : fills s s' a -> repeat_context s' = repeat_context s.
Proof. intros []. unfold repeat_context, options. by rewrite fl_options0. Qed.

Lemma context_wf_tracks o o' : sc_tracks <$> o = sc_tracks <$> o' -> context_wf o -> context_wf o'.
Proof. destruct o, o'; simpl; try done. by intros [= ->]. Qed.

Lemma fills_source s s' a t : fills s s' a -> fill_source s' t -> fill_source s t.
Proof.
  intros [] [Hu [Hd|(ty & c & Hc & Ht)]]; (split; [done|]); [by left|right]. destruct ty; simpl in Hc.
  - rewrite Hc in fl_context0. simpl in fl_context0. symmetry in fl_context0.
    apply fmap_Some in fl_context0 as (c' & Hc' & E). exists CDefault, c'. by rewrite <- E.
  - rewrite Hc in fl_autoplay0. simpl in fl_autoplay0. symmetry in fl_autoplay0.
    apply fmap_Some in fl_autoplay0 as (c' & Hc' & E). exists CAutoplay, c'. by rewrite <- E.
Qed.

Lemma new_delimiter_available iteration : is_unavailable (new_delimiter iteration) = false.
Proof. done. Qed.

(** What one round of the loop does. *)
Lemma fill_round_spec i iteration s :
  fillable s ->
  exists r, fill_round i iteration s = Ok r /\
    match r with
    | FillBreak => exhausted s i
    | FillSkip j => j = S i /\ (i < fill_bound s - 1)%nat
    | FillPush t j _ s' => fills s s' [] /\ fillable s' /\ fill_source s t
    end.
Proof.
  intros [c Hc]. unfold fill_round, get_context. rewrite Hc. cbn [ok_or mbind res_bind].
  destruct (vec (sc_tracks c) !! i) as [ct|] eqn:E.
  - assert (i < fill_bound s - 1)%nat as Hi.
    { apply lookup_lt_Some in E. unfold fill_bound. destruct (cs_fill_up_context s); simpl in Hc; rewrite Hc; simpl; lia. }
    destruct (is_unavailable ct) eqn:Hu; simpl; [by eexists|].
    destruct (is_skip_track ct (Some iteration) s); simpl; [by eexists|].
    eexists. split; [done|]. split_and!; [apply fills_refl|by exists c|]. split; [done|]. right.
    exists (cs_fill_up_context s), c. split; [done|]. by eapply list_elem_of_lookup_2.
  - apply lookup_ge_None in E. destruct (repeat_context s) eqn:Hr.
    { eexists. split; [done|]. split_and!; [apply fills_refl|by exists c|]. split; [done|]. by left; eexists. }
    destruct (cs_autoplay_context s) as [a|] eqn:Ha.
    + destruct (cs_fill_up_context s) eqn:Hf; simpl in Hc |- *.
      * eexists. split; [done|]. split_and!; [|by exists a|split; [done|left; by eexists]].
        constructor; try done; [by rewrite app_nil_r| |]; simpl; by rewrite Hc.
      * assert (a = c) as -> by congruence. rewrite (proj2 (lookup_ge_None _ _) E). eexists. split; [done|].
        split; [done|]. split; [by left|]. exists c. rewrite Hf. done.
    + eexists. split; [done|]. split; [done|]. split; [by right|]. by exists c.
Qed.

(** The loop ends within its fuel, appends tracks of the contexts, stops at the limit or at the end
    of the contexts, and does not exceed the limit. *)
Lemma fill_loop_spec fuel i iteration s :
  fillable s -> (fill_measure i s < fuel)%nat ->
  exists j s' added, fill_loop fuel i iteration s = (Ok j, s') /\ fills s s' added /\ fillable s' /\
    Forall (fill_source s) added /\
    ((SPOTIFY_MAX_NEXT_TRACKS_SIZE <= length (next_tracks s'))%nat \/ exhausted s' j) /\
    (length (next_tracks s') <= Nat.max SPOTIFY_MAX_NEXT_TRACKS_SIZE (length (next_tracks s)))%nat.
Proof.
  revert i iteration s; induction fuel as [|fuel IH]; intros i iteration s Hf Hm; [lia|]. cbn [fill_loop].
  destruct (Nat.ltb_spec (length (next_tracks s)) SPOTIFY_MAX_NEXT_TRACKS_SIZE) as [Hlt|Hge].
  2: { exists i, s, []. split_and!; [done|apply fills_refl|done|constructor|by left|lia]. }
  destruct (fill_round_spec i iteration s Hf) as ([|j|t j it s1] & -> & Hr).
  - exists i, s, []. split_and!; [done|apply fills_refl|done|constructor|by right|lia].
  - destruct Hr as [-> Hi]. apply IH; [done|]. unfold fill_measure in *. lia.
  - destruct Hr as (Hfl & Hf1 & Hsrc).
    pose proof (fills_trans _ _ _ _ _ Hfl (fills_push s1 t)) as Hfl2. simpl in Hfl2.
    set (s2 := next_tracks_mut _ s1) in *.
    assert (length (next_tracks s2) = S (length (next_tracks s))) as Hl2.
    { rewrite (fl_next _ _ _ Hfl2), length_app. simpl. lia. }
    destruct (IH j it s2) as (k & s' & added & E & Hfl3 & Hf3 & Hs3 & Hend & Hlen).
    + exact Hf1.
    + unfold fill_measure in *. rewrite (fills_bound _ _ _ Hfl2), Hl2.
      assert (1 <= fill_bound s)%nat by (unfold fill_bound; lia). nia.
    + exists k, s', (t :: added). split_and!; [done|by apply (fills_trans _ _ _ [t] added Hfl2)|done| |done|lia].
      constructor; [done|]. eapply Forall_impl; [exact Hs3|]. intros t' Ht'. by eapply fills_source.
Qed.

Section FillUp.
Context `{!QueueHash}.

Lemma fill_fuel_enough i s : (fill_measure i s < fill_fuel s)%nat.
Proof. unfold fill_measure, fill_fuel. assert (1 <= fill_bound s)%nat by (unfold fill_bound; lia). nia. Qed.

(** Storing the position and the revision does not touch what [fills] relates. *)
Lemma fills_position s s' added ty i :
  fills s s' added -> fills s (update_queue_revision (context_mut ty (set_index_track i) s')) added.
Proof. intros []. destruct ty; constructor; try done; simpl; rewrite <- option_fmap_compose; done. Qed.

Lemma fill_up_spec s :
  fillable s ->
  exists s' added, fill_up_next_tracks s = (Ok tt, s') /\ fills s s' added /\ Forall (fill_source s) added /\
    fillable s' /\
    ((SPOTIFY_MAX_NEXT_TRACKS_SIZE <= length (next_tracks s'))%nat \/
     exists c, context_of s' (cs_fill_up_context s') = Some c /\ repeat_context s' = false /\
       (cs_fill_up_context s' = CAutoplay \/ cs_autoplay_context s' = None) /\
       exists i, ci_track (sc_index c) = wrap 32 (Z.of_nat i) /\ (length (vec (sc_tracks c)) <= i)%nat) /\
    (length (next_tracks s') <= Nat.max SPOTIFY_MAX_NEXT_TRACKS_SIZE (length (next_tracks s)))%nat.
Proof.
  intros Hf. pose proof Hf as [c Hc]. unfold fill_up_next_tracks.
  erewrite bind_ok by (by apply attempt_ok, get_context_ok).
  destruct (fill_loop_spec _ (Z.to_nat (ci_track (sc_index c))) (ci_page (sc_index c)) s Hf (fill_fuel_enough _ s))
    as (j & s1 & added & E & Hfl & [c1 Hc1] & Hsrc & Hend & Hlen).
  erewrite bind_ok by exact E. rewrite bind_gets. unfold update_context_index.
  erewrite bind_ok by (by eapply get_context_mut_ok). eexists _, added. split; [reflexivity|].
  remember (cs_fill_up_context s1) as ty eqn:Hty1.
  pose proof (fills_position _ _ _ ty (wrap 32 (Z.of_nat j)) Hfl) as Hfl'.
  set (c2 := set_index_track (wrap 32 (Z.of_nat j)) c1).
  assert (forall s2, s2 = update_queue_revision (context_mut ty (set_index_track (wrap 32 (Z.of_nat j))) s1) ->
    cs_fill_up_context s2 = ty /\ context_of s2 ty = Some c2 /\ next_tracks s2 = next_tracks s1 /\
    repeat_context s2 = repeat_context s1 /\ (cs_autoplay_context s1 = None -> cs_autoplay_context s2 = None))
    as Hs2.
  { intros s2 ->. destruct ty; simpl in Hc1 |- *; rewrite ?Hc1; by split_and!. }
  destruct (Hs2 _ eq_refl) as (Hty & Hc2 & Hn2 & Hr2 & Ha2). clear Hs2. revert Hty Hc2 Hn2 Hr2 Ha2 Hfl'.
  generalize (update_queue_revision (context_mut ty (set_index_track (wrap 32 (Z.of_nat j))) s1)).
  intros s2 Hty Hc2 Hn2 Hr2 Ha2 Hfl'. unfold fillable. rewrite Hty, Hc2, Hn2, Hr2.
  split_and!; [done|done|done| |done].
  destruct Hend as [Hend|(Hr & Ha & c' & Hc' & Hl)]; [by left|right]. rewrite <- Hty1 in Ha, Hc'.
  exists c2. split; [done|]. rewrite Hc1 in Hc'. injection Hc' as <-. split_and!; [done|naive_solver|by exists j].
Qed.

Lemma fill_up_error s :
  ~ fillable s -> fill_up_next_tracks s = (Err (EState (NoContext (cs_fill_up_context s))), s).
Proof.
  intros Hf. unfold fill_up_next_tracks. apply bind_err. unfold attempt, get_context.
  destruct (context_of s (cs_fill_up_context s)) as [c|] eqn:E; [|done]. by destruct Hf; exists c.
Qed.

Lemma fills_inv {L : Limits} s s' added :
  fills s s' added -> (length (next_tracks s') <= max_next)%nat -> Inv s -> Inv s'.
Proof.
  intros [] Hl []. constructor; [by rewrite fl_prev0|done|..].
  - by eapply context_wf_tracks.
  - by eapply context_wf_tracks.
Qed.

Lemma keeps_fill_up {L : Limits} : keeps Inv fill_up_next_tracks.
Proof.
  intros s Hs. destruct (decide (context_of s (cs_fill_up_context s) = None)) as [Hn|Hn].
  - rewrite fill_up_error; [done|]. intros [c Hc]. congruence.
  - destruct (fill_up_spec s) as (s' & added & -> & Hfl & _ & _ & _ & Hlen).
    { unfold fillable. by apply not_eq_None_Some. }
    split; [done|]. eapply fills_inv; [done| |done]. pose proof (inv_next s Hs). pose proof max_next_ok. simpl. lia.
Qed.
End FillUp.

#[export] Hint Resolve keeps_fill_up : keeps.

Lemma inv_prev_tracks_mut {L : Limits} f s :
  (forall l, (length l <= max_prev)%nat -> (length (f l) <= max_prev)%nat) ->
  Inv s -> Inv (prev_tracks_mut f s).
Proof. intros Hf []. constructor; try done. by apply Hf. Qed.

Lemma inv_next_tracks_mut {L : Limits} f s :
  (forall l, (length l <= max_next)%nat -> (length (f l) <= max_next)%nat) ->
  Inv s -> Inv (next_tracks_mut f s).
Proof. intros Hf []. constructor; try done. by apply Hf. Qed.

Lemma inv_push_prev {L : Limits} t s : Inv s -> Inv (push_prev t s).
Proof.
  apply inv_prev_tracks_mut. intros l Hl. pose proof max_prev_ok as Hm.
  unfold push_prev_list, SPOTIFY_MAX_PREV_TRACKS_SIZE in *. rewrite length_app.
  cbn [length]. destruct (Nat.leb_spec 10 (length l)); [|lia]. destruct l; cbn [length tail] in *; lia.
Qed.

Lemma inv_pop_prev {L : Limits} s : Inv s -> Inv (prev_tracks_mut pop s).
Proof. apply inv_prev_tracks_mut. intros l Hl. unfold pop. rewrite length_take. lia. Qed.

Lemma inv_get_next_track {L : Limits} s : Inv s -> Inv (get_next_track s).2.
Proof.
  intros Hs. unfold get_next_track. destruct (next_tracks s); [done|]. apply inv_next_tracks_mut; [|done].
  intros [|u r] Hr; simpl in *; lia.
Qed.

Lemma inv_advance {L : Limits} fuel s : Inv s -> Inv (advance fuel s).2.
Proof.
  revert s; induction fuel as [|fuel IH]; intros s Hs; simpl; [done|].
  pose proof (inv_get_next_track s Hs) as Hg. destruct (get_next_track s) as [[t|] s1]; simpl in *; [|done].
  destruct (is_delimiter t); [by apply IH, inv_push_prev|]. destruct (is_unavailable t); [by apply IH|done].
Qed.

Lemma inv_set_track {L : Limits} t s : Inv s -> Inv (set_track t s).
Proof. inv_same. Qed.

Lemma keeps_take_track {L : Limits} : keeps Inv take_track.
Proof. intros s Hs. split; [done|]. unfold take_track. simpl. revert Hs. inv_same. Qed.

Lemma keeps_set_current_track {L : Limits} i : keeps Inv (set_current_track i).
Proof.
  unfold set_current_track. apply keeps_bind; [eauto with keeps|]. intros c.
  apply keeps_bind; [|eauto with keeps]. apply keeps_attempt. intros s _. by destruct (_ !! _).
Qed.

#[export] Hint Resolve inv_set_track inv_push_prev inv_pop_prev keeps_take_track keeps_set_current_track : keeps.

(** Conditional updates. *)
Ltac keeps_modify_cases :=
  apply keeps_modify; intros ? ?;
  repeat match goal with
  | |- Inv (if ?b then _ else _) => destruct b
  | |- Inv (match ?o with _ => _ end) => destruct o
  end; eauto with keeps.

Section Keeps.
Context `{!QueueHash}.

Lemma keeps_next_track {L : Limits} : keeps Inv next_track.
Proof.
  unfold next_track. apply keeps_bind; [keeps_modify_cases|intros _].
  apply keeps_bind; [eauto with keeps|intros old]. apply keeps_bind; [keeps_modify_cases|intros _].
  apply keeps_bind.
  { intros s Hs. unfold run. pose proof (inv_advance (S (length (next_tracks s))) s Hs) as Hadv.
    by destruct (advance _ s). }
  intros [t|]; [|apply keeps_ret]. apply keeps_bind; [eauto with keeps|intros _].
  apply keeps_bind; [|intros _; apply keeps_bind; eauto with keeps].
  destruct (is_queue t); [eauto with keeps|]. destruct (is_autoplay t).
  - apply keeps_modify. intros s Hs. assert (Inv (set_active_context CAutoplay s)) by eauto with keeps. inv_same.
  - destruct (get_context_index t); eauto with keeps.
Qed.

Lemma put_back_length old d l : (length (put_back old d l) <= SPOTIFY_MAX_NEXT_TRACKS_SIZE)%nat.
Proof. unfold put_back, truncate. rewrite length_take. lia. Qed.

Lemma keeps_prev_track {L : Limits} : keeps Inv prev_track.
Proof.
  unfold prev_track. apply keeps_bind; [eauto with keeps|intros old]. apply keeps_bind; [eauto with keeps|intros d].
  apply keeps_bind; [keeps_modify_cases|intros _]. apply keeps_bind.
  { apply keeps_modify. intros s. apply inv_next_tracks_mut. intros l _. pose proof max_next_ok. etrans; [apply put_back_length|done]. }
  intros _. apply keeps_bind; [eauto with keeps|intros [t|]]; (apply keeps_bind; [eauto with keeps|intros _]);
    [|apply keeps_ret].
  apply keeps_bind; [keeps_modify_cases|intros _]. apply keeps_bind; [eauto with keeps|intros _].
  apply keeps_bind; [eauto with keeps|intros _]. apply keeps_bind; [keeps_modify_cases|intros _].
  apply keeps_bind; eauto with keeps.
Qed.

Lemma inv_add_to_queue {L : Limits} t b s : Inv s -> Inv (add_to_queue t b s).
Proof.
  intros Hs. unfold add_to_queue. apply inv_update_restrictions.
  assert (forall s, Inv s -> Inv (if b then update_queue_revision s else s)) as Hrev
    by (intros; destruct b; eauto with keeps).
  apply Hrev, inv_next_tracks_mut; [|inv_same]. intros l _. pose proof max_next_ok. unfold truncate.
  rewrite length_take. lia.
Qed.

Lemma keeps_clear_queue {L : Limits} : keeps Inv clear_queue.
Proof.
  unfold clear_queue. apply keeps_bind.
  - apply keeps_modify. intros s. apply inv_next_tracks_mut. intros l Hl.
    pose proof (filter_length_le (fun t => negb (is_queue t)) l). lia.
  - intros _. apply keeps_bind; eauto with keeps.
Qed.

Lemma remove_uri_loop_length fuel uri l : (length (remove_uri_loop fuel uri l) <= length l)%nat.
Proof.
  revert l; induction fuel as [|fuel IH]; intros l; simpl; [done|]. destruct (position _ l) as [k|] eqn:E; [|done].
  apply position_lt in E. specialize (IH (delete k l)). rewrite length_delete in IH by (by apply lookup_lt_is_Some_2).
  lia.
Qed.

Lemma mark_list_length uri l : (length (mark_list uri l) <= length l)%nat.
Proof. unfold mark_list. rewrite length_fmap. apply remove_uri_loop_length. Qed.

Lemma keeps_mark_unavailable {L : Limits} u : parsed u -> keeps Inv (mark_unavailable u).
Proof.
  intros Hu. destruct (from_to_uri u Hu) as (uri & Huri & _). unfold mark_unavailable.
  apply keeps_bind; [apply keeps_attempt; intros s _; by rewrite Huri|]. intros uri'.
  apply keeps_bind.
  { apply keeps_modify. intros s Hs.
    apply inv_prev_tracks_mut; [|apply inv_next_tracks_mut; [|done]]; intros l Hl;
      pose proof (mark_list_length uri' l); lia. }
  intros _. apply keeps_bind; [eauto with keeps|intros _]. apply keeps_bind; [eauto with keeps|]. eauto with keeps.
Qed.

Lemma window_before_length l n : (length (window_before l n) <= SPOTIFY_MAX_PREV_TRACKS_SIZE)%nat.
Proof. unfold window_before. rewrite length_reverse, length_take. lia. Qed.

Lemma keeps_reset_playback {L : Limits} i : keeps Inv (reset_playback_to_position i).
Proof.
  unfold reset_playback_to_position. apply keeps_bind; [eauto with keeps|intros _].
  apply keeps_bind; [eauto with keeps|intros ty]. apply keeps_bind; [eauto with keeps|intros _].
  apply keeps_bind; [eauto with keeps|intros _]. apply keeps_bind; [eauto with keeps|intros keep].
  apply keeps_bind; [destruct (negb keep); eauto with keeps|intros _].
  apply keeps_bind; [eauto with keeps|intros _]. apply keeps_bind.
  { destruct (_ <? _); [|eauto with keeps]. apply keeps_bind; [eauto with keeps|intros c].
    apply keeps_modify. intros s []. constructor; try done. pose proof max_prev_ok.
    etrans; [apply window_before_length|done]. }
  intros _. apply keeps_bind; [eauto with keeps|intros _]. apply keeps_bind; eauto with keeps.
Qed.
End Keeps.

#[export] Hint Resolve keeps_next_track keeps_prev_track inv_add_to_queue keeps_clear_queue keeps_reset_playback : keeps.
