(* ===== verification/ConnectHandle.v ===== *)
(** * The connect state: commands and transfers ([native/librespot/connect/src/state/options.rs],
      [state/handle.rs], [state/transfer.rs] and [became_inactive] of [state.rs])

    Shuffling and repeating, the queue command, and taking over playback from another device.
    The seed of a new shuffle and the random track identifiers are arguments. *)
From S2P Require Import Prelude Text ShuffleVec SpotifyId SpotifyUri Protocol Config ConnectState ConnectContext ConnectTracks.

Section Handle.
Context `{!QueueHash} `{!Rng}.

(** ** Shuffling *)

Definition validate_shuffle_allowed (s : ConnectState) : res CError unit :=
  match pr_disallow_toggling_shuffle_reasons
          (default PlayerRestrictions_default (ps_restrictions (player s))) with
  | reason :: _ => Err (EState (CurrentlyDisallowed "shuffle" reason))
  | [] => Ok tt
  end.

Definition shuffle_context (seed : Z) (initial_track : string) (c : StateContext) : res CError StateContext :=
  v ← no_error (shuffle_with_seed (sc_tracks c) seed (fun t => String.eqb (pt_uri t) initial_track));
  Ok (set_shuffle_seed seed (set_initial_track initial_track (set_sc_tracks v c))).

Definition shuffle (seed : Z) (initial_track : string) : M unit :=
  modify (fun s => clear_next_tracks (clear_prev_track s)) ;;
  reset_context DefaultIndex ;;
  ctx ← attempt (get_context CDefault);
  ctx ← attempt (fun _ => shuffle_context seed initial_track ctx);
  modify (context_mut CDefault (fun _ => ctx)) ;;
  fill_up_next_tracks.

Definition shuffle_restore (st : ShuffleState) : M unit :=
  attempt validate_shuffle_allowed ;;
  shuffle (ss_seed st) (ss_initial_track st).

Definition shuffle_new (new_seed : Z) : M unit :=
  attempt validate_shuffle_allowed ;;
  current_track ← gets (fun s => pt_uri (track_or_default (current_track s)));
  shuffle new_seed current_track.

(** ** Commands *)

Definition uri_is (uri : string) (t : ProvidedTrack) : bool := String.eqb (pt_uri t) uri.

Definition handle_shuffle (new_seed : Z) (value : bool) : M unit :=
  modify (set_shuffle value) ;;
  if value then shuffle_new new_seed
  else
    reset_context DefaultIndex ;;
    current ← gets current_track;
    match current with
    | None => mret tt
    | Some t =>
        match get_context_index t with
        | Some current_index => reset_playback_to_position (Some current_index)
        | None =>
            ctx ← attempt (get_context CDefault);
            current_index ← attempt (fun _ => find_index_in_context ctx (uri_is (pt_uri t)));
            reset_playback_to_position (Some (Z.of_nat current_index))
        end
    end.

(** The tracks of the command. *)
Definition handle_set_queue (next prev : list ProvidedTrack) (s : ConnectState) : ConnectState :=
  update_queue_revision (set_prev_tracks prev (set_next_tracks next s)).

Definition handle_set_repeat_context (repeat : bool) : M unit :=
  modify (set_repeat_context repeat) ;;
  modify (fun s => if repeat && bool_decide (cs_fill_up_context s = CAutoplay)
                   then set_cs_fill_up_context CDefault s else s) ;;
  ctx ← attempt (get_context CDefault);
  uri ← gets (fun s => pt_uri (track_or_default (current_track s)));
  current ← attempt (fun _ => find_index_in_context ctx (uri_is uri));
  reset_playback_to_position (Some (Z.of_nat current)).

(** [put_inactive] is the request to the server. *)
Definition became_inactive {R} (put_inactive : R) : M R :=
  modify reset ;;
  reset_context Completely ;;
  mret put_inactive.

(** ** Transfers *)

Definition is_playing_queue (t : TransferState) : bool :=
  default false (tq_is_playing_queue (default TransferQueue_default (t_queue t))).

Definition transfer_session (t : TransferState) : TransferSession :=
  default TransferSession_default (t_current_session t).

Definition current_track_from_transfer (uuid : string) (transfer : TransferState) (s : ConnectState)
    : res CError ProvidedTrack :=
  track ← ok_or (EState CouldNotResolveTrackFromTransfer)
    (if is_playing_queue transfer
     then head (tq_tracks (default TransferQueue_default (t_queue transfer)))
     else tp_current_track (default TransferPlayback_default (t_playback transfer)));
  context_to_provided_track s uuid track
    (ctx_uri (default Context_default (ts_context (transfer_session transfer)))) None None
    (if is_playing_queue transfer then Some PQueue else None).

Definition UNKNOWN_URI : string := "spotify:unknown".

(** [u64::from_str] of the seed in the context metadata. *)
Definition transfer_seed (session : TransferSession) : option ShuffleState :=
  let ctx := default Context_default (ts_context session) in
  seed ← get_shuffle_seed ctx;
  seed ← parse_uint 64 seed;
  initial_track ← get_initial_track ctx;
  Some (mkShuffleState seed initial_track).

Definition apply_session (session : TransferSession) (p : PlayerState) : PlayerState :=
  let p := set_ps_play_origin (player_origin <$> ts_play_origin session) p in
  let p := set_ps_suppressions (player_suppressions <$> ts_suppressions session) p in
  match ts_context session with
  | Some ctx =>
      let p := set_ps_restrictions (player_restrictions <$> ctx_restrictions ctx) p in
      set_ps_context_metadata (extend_map (ps_context_metadata p) (ctx_metadata ctx)) p
  | None => p
  end.

Definition apply_playback (pb : TransferPlayback) (p : PlayerState) : PlayerState :=
  let paused := default false (tp_is_paused pb) in
  let p := set_ps_is_playing (negb paused) (set_ps_is_paused paused p) in
  set_ps_playback_speed
    (match tp_playback_speed pb with
     | Some speed => if SFeqb speed f64_zero then f64_one else speed
     | None => f64_one
     end) p.

(** What the code takes out of the transferred message on the way. *)
Definition taken_transfer (t : TransferState) : TransferState :=
  mkTransferState None (t_playback t)
    ((fun se => mkTransferSession None None (ts_current_uid se) None (ts_shuffle_seed se)) <$> t_current_session t)
    (t_queue t).

Definition handle_initial_transfer (transfer : TransferState) (ctx_uri : option string) (s : ConnectState)
    : TransferState * ConnectState :=
  let current_context_metadata := sc_metadata <$> cs_context s in
  let uri := default UNKNOWN_URI ctx_uri in
  let s := player_mut (fun p =>
    let p := set_ps_is_buffering false p in
    let p := match t_options transfer with
             | Some o => set_ps_options (Some (player_options o)) p
             | None => p
             end in
    let p := apply_playback (default TransferPlayback_default (t_playback transfer)) p in
    let p := match t_current_session transfer with Some se => apply_session se p | None => p end in
    let p := set_ps_context_uri uri (set_ps_context_url (String.append "context://" uri) p) in
    match current_context_metadata with
    | Some m => set_ps_context_metadata (extend_map (ps_context_metadata p) m) p
    | None => p
    end) s in
  let s := set_cs_transfer_shuffle (se ← t_current_session transfer; transfer_seed se) s in
  (taken_transfer transfer, update_queue_revision (clear_next_tracks (clear_prev_track s))).

(** The queued tracks of the transfer; the first is the current one when the queue is played. *)
Fixpoint queue_transferred (uuid : nat -> string) (playing_queue : bool) (i : nat) (tracks : list ContextTrack)
    : M unit :=
  match tracks with
  | [] => mret tt
  | t :: tracks =>
      (if playing_queue && (i =? 0)%nat then mret tt
       else run (fun s =>
         match context_to_provided_track s (uuid i) t (Some (context_uri s)) None None (Some PQueue) with
         | Ok queued_track => (Ok tt, add_to_queue queued_track false s)
         | Err _ => (Ok tt, s)
         | Panic => (Panic, s)
         end)) ;;
      queue_transferred uuid playing_queue (S i) tracks
  end.

(** The index of the transferred track in the active context. *)
Definition transfer_index (current_uid : option string) (track : ProvidedTrack) (ctx : StateContext) : option nat :=
  let by_track := res_ok (find_index_in_context ctx (fun c =>
    String.eqb (pt_uri c) (pt_uri track) || String.eqb (pt_uid c) (pt_uid track))) in
  match current_uid with
  | Some uid =>
      if is_queue track
      then (fun i => if (0 <? i)%nat then (i - 1)%nat else i) <$>
             res_ok (find_index_in_context ctx (fun c => String.eqb (pt_uid c) uid))
      else by_track
  | None => by_track
  end.

Definition finish_transfer (uuid : nat -> string) (new_seed : Z) (transfer : TransferState) : M unit :=
  track ← attempt (fun s =>
    match current_track s with
    | None => current_track_from_transfer (uuid O) transfer s
    | Some track => Ok track
    end);
  ty ← gets (fun s =>
    if is_from_autoplay (track_or_default (current_track s)) then CAutoplay else CDefault);
  modify (fun s => set_cs_fill_up_context ty (set_active_context ty s)) ;;
  ctx ← attempt (fun s => get_context (cs_active_context s) s);
  let current_index := transfer_index (ts_current_uid (transfer_session transfer)) track ctx in
  modify (fun s => match current_track s with None => set_track track s | Some _ => s end) ;;
  modify (fun s => match current_index with
                   | Some i => update_current_index (set_ci_track (wrap 32 (Z.of_nat i))) s
                   | None => s
                   end) ;;
  queue_transferred (fun i => uuid (S i)) (is_playing_queue transfer) 0
    (tq_tracks (default TransferQueue_default (t_queue transfer))) ;;
  shuffling ← gets shuffling_context;
  (if Bool.eqb shuffling true then
     set_current_track (Z.of_nat (default O current_index)) ;;
     modify (set_shuffle true) ;;
     st ← gets cs_transfer_shuffle;
     modify (set_cs_transfer_shuffle None) ;;
     match st with None => shuffle_new new_seed | Some st => shuffle_restore st end
   else reset_playback_to_position (Z.of_nat <$> current_index)) ;;
  modify update_restrictions.
End Handle.

(** ** Commands as steps *)

(** Every operation by which the controller and the context resolver change the connect state, with
    the values drawn at random, read from the clock or from messages. *)
Inductive command :=
| CmdNext
| CmdPrev
| CmdAddToQueue (track : ProvidedTrack) (rev_update : bool)
| CmdClearQueue
| CmdMarkUnavailable (id : SpotifyUri)
| CmdShuffle (seed : Z) (value : bool)
| CmdRepeatContext (repeat : bool)
| CmdRepeatTrack (repeat : bool)
| CmdResetPlayback (new_index : option Z)
| CmdSetCurrentTrack (index : Z)
| CmdUpdateContext (uuid : nat -> nat -> string) (context : Context) (ty : ContextType)
| CmdFillContext (uuid : nat -> string) (page : ContextPage)
| CmdMergeContext (page : option ContextPage)
| CmdResetContext (reset_as : ResetContext)
| CmdSetStatus (status : SpircPlayStatus)
| CmdTransfer (transfer : TransferState) (ctx_uri : option string)
| CmdFinishTransfer (uuid : nat -> string) (seed : Z) (transfer : TransferState)
| CmdInactive
| CmdSetQueue (next prev : list ProvidedTrack)
| CmdSetCurrentTrackRandom (rng_track : nat -> Z)
| CmdShuffleNew (seed : Z)
| CmdFillUp
| CmdClearNextTracks
| CmdSetTrack (track : ProvidedTrack)
| CmdSetActiveContext (ty : ContextType)
| CmdActiveContext (ty : ContextType)
| CmdSetShuffle (value : bool)
| CmdSetRepeatContext (repeat : bool)
| CmdResetOptions
| CmdClearRestrictions
| CmdUpdateRestrictions
| CmdUpdateQueueRevision
| CmdSetActive (now : Z) (value : bool)
| CmdSetVolume (volume : Z)
| CmdSetLastCommand (message_id : Z) (sent_by_device_id : string)
| CmdSetNow (now : Z)
| CmdSetOrigin (origin : PlayerPlayOrigin)
| CmdSetSessionId (session_id : string)
| CmdUpdatePosition (position_ms timestamp : Z)
| CmdUpdatePositionInRelation (timestamp : Z)
| CmdUpdateDuration (duration : Z).

Definition ignore {A} (m : M A) : M unit := m ≫= fun _ => mret tt.

Definition step `{!QueueHash} `{!Rng} (c : command) : M unit :=
  match c with
  | CmdNext => ignore next_track
  | CmdPrev => ignore prev_track
  | CmdAddToQueue track rev_update => modify (add_to_queue track rev_update)
  | CmdClearQueue => clear_queue
  | CmdMarkUnavailable id => mark_unavailable id
  | CmdShuffle seed value => handle_shuffle seed value
  | CmdRepeatContext repeat => handle_set_repeat_context repeat
  | CmdRepeatTrack repeat => modify (set_repeat_track repeat)
  | CmdResetPlayback new_index => reset_playback_to_position new_index
  | CmdSetCurrentTrack index => set_current_track index
  | CmdUpdateContext uuid context ty => ignore (update_context uuid context ty)
  | CmdFillContext uuid page => fill_context_from_page uuid page
  | CmdMergeContext page => modify (fun s => (merge_context page s).2)
  | CmdResetContext reset_as => reset_context reset_as
  | CmdSetStatus status => modify (set_status status)
  | CmdTransfer transfer ctx_uri => modify (fun s => (handle_initial_transfer transfer ctx_uri s).2)
  | CmdFinishTransfer uuid seed transfer => finish_transfer uuid seed transfer
  | CmdInactive => ignore (became_inactive tt)
  | CmdSetQueue next prev => modify (handle_set_queue next prev)
  | CmdSetCurrentTrackRandom rng_track => set_current_track_random rng_track
  | CmdShuffleNew seed => shuffle_new seed
  | CmdFillUp => fill_up_next_tracks
  | CmdClearNextTracks => modify clear_next_tracks
  | CmdSetTrack track => modify (set_track track)
  | CmdSetActiveContext ty => modify (set_active_context ty)
  | CmdActiveContext ty => modify (set_cs_active_context ty)
  | CmdSetShuffle value => modify (set_shuffle value)
  | CmdSetRepeatContext repeat => modify (set_repeat_context repeat)
  | CmdResetOptions => modify reset_options
  | CmdClearRestrictions => modify clear_restrictions
  | CmdUpdateRestrictions => modify update_restrictions
  | CmdUpdateQueueRevision => modify update_queue_revision
  | CmdSetActive now value => modify (set_active now value)
  | CmdSetVolume volume => modify (set_volume volume)
  | CmdSetLastCommand message_id device => modify (set_last_command message_id device)
  | CmdSetNow now => modify (set_now now)
  | CmdSetOrigin origin => modify (set_origin origin)
  | CmdSetSessionId session_id => modify (set_session_id session_id)
  | CmdUpdatePosition position_ms timestamp => modify (update_position position_ms timestamp)
  | CmdUpdatePositionInRelation timestamp => modify (update_position_in_relation timestamp)
  | CmdUpdateDuration duration => modify (update_duration duration)
  end.

(** Messages carry bytes where the protocol says so, and identifiers of 128 bits. *)
Definition transfer_ok (t : TransferState) : Prop :=
  Forall track_ok (tq_tracks (default TransferQueue_default (t_queue t))) /\
  match tp_current_track (default TransferPlayback_default (t_playback t)) with
  | Some t => track_ok t
  | None => True
  end.

Definition command_ok (c : command) : Prop :=
  match c with
  | CmdMarkUnavailable id => parsed id
  | CmdUpdateContext _ context _ => context_ok context
  | CmdFillContext _ page => page_ok page
  | CmdFinishTransfer _ _ transfer => transfer_ok transfer
  | _ => True
  end.

(** The lists a set-queue command stores are within the bounds. *)
Definition stores_within (prev next : nat) (c : command) : Prop :=
  match c with
  | CmdSetQueue n p => (length n <= next)%nat /\ (length p <= prev)%nat
  | _ => True
  end.

(** The one command that panics: drawing a track of a context without tracks. *)
Definition empty_draw (c : command) (s : ConnectState) : Prop :=
  match c with
  | CmdSetCurrentTrackRandom _ =>
      exists context, context_of s (cs_active_context s) = Some context /\ vec (sc_tracks context) = []
  | _ => False
  end.

(** ** Lemmas *)

Section Keeps.
Context `{!QueueHash} {R : Rng} {ROk : RngOk}.

Lemma keeps_validate {L : Limits} : keeps Inv (attempt validate_shuffle_allowed).
Proof. apply keeps_attempt. intros s _. unfold validate_shuffle_allowed. by destruct (pr_disallow_toggling_shuffle_reasons _). Qed.

Lemma shuffle_context_safe seed t c :
  sv_wf (sc_tracks c) -> safe (fun c => sv_wf (sc_tracks c)) (shuffle_context seed t c).
Proof.
  intros Hc. unfold shuffle_context.
  destruct (sv_wf_shuffle (sc_tracks c) seed (fun u => String.eqb (pt_uri u) t) Hc) as (v & -> & Hv). done.
Qed.

Lemma keeps_shuffle {L : Limits} seed t : keeps Inv (shuffle seed t).
Proof.
  unfold shuffle. apply keeps_bind; [eauto with keeps|intros _]. apply keeps_bind; [eauto with keeps|intros _].
  intros s Hs. destruct (cs_context s) as [c|] eqn:E.
  - erewrite bind_ok by (by apply attempt_ok, get_context_ok).
    pose proof (shuffle_context_safe seed t c) as Hc.
    assert (sv_wf (sc_tracks c)) as Hw by (pose proof (inv_context s Hs) as Hw; by rewrite E in Hw).
    specialize (Hc Hw). destruct (shuffle_context seed t c) as [c'|e|] eqn:E'; simpl in Hc; [|..|done].
    + erewrite bind_ok by (by apply attempt_ok). rewrite bind_modify. apply keeps_fill_up.
      by apply inv_context_mut.
    + rewrite (bind_err _ _ s e s); done.
  - rewrite (bind_err _ _ s (EState (NoContext CDefault)) s); [done|]. unfold attempt, get_context. simpl. by rewrite E.
Qed.

Hint Resolve keeps_validate keeps_shuffle : keeps.

Lemma keeps_shuffle_new {L : Limits} seed : keeps Inv (shuffle_new seed).
Proof. unfold shuffle_new. repeat keeps_step. Qed.
Lemma keeps_shuffle_restore {L : Limits} st : keeps Inv (shuffle_restore st).
Proof. unfold shuffle_restore. repeat keeps_step. Qed.

Hint Resolve keeps_shuffle_new keeps_shuffle_restore : keeps.
Hint Extern 1 (keeps Inv (attempt (get_context ?ty))) => apply (keeps_get_context _ (fun _ => ty)) : keeps.

Lemma keeps_handle_shuffle {L : Limits} seed b : keeps Inv (handle_shuffle seed b).
Proof. unfold handle_shuffle. repeat keeps_step. Qed.

Lemma keeps_handle_set_repeat_context {L : Limits} b : keeps Inv (handle_set_repeat_context b).
Proof.
  unfold handle_set_repeat_context. apply keeps_bind; [eauto with keeps|intros _].
  apply keeps_bind; [keeps_modify_cases|intros _]. repeat keeps_step.
Qed.

Lemma inv_reset {L : Limits} s : Inv s -> Inv (reset s).
Proof. intros []. constructor; try done; simpl; lia. Qed.

Lemma keeps_became_inactive {L : Limits} {A} (a : A) : keeps Inv (became_inactive a).
Proof. unfold became_inactive. apply keeps_bind; [apply keeps_modify, inv_reset|intros _]. repeat keeps_step. Qed.

Lemma inv_handle_initial_transfer {L : Limits} t u s : Inv s -> Inv (handle_initial_transfer t u s).2.
Proof.
  intros Hs. unfold handle_initial_transfer. cbn [snd].
  apply inv_update_queue_revision, inv_clear_next_tracks.
  match goal with |- Inv (clear_prev_track (set_cs_transfer_shuffle ?o ?s')) =>
    assert (Inv s') as Hs' end.
  { apply (inv_ext s); try done; unfold prev_tracks, next_tracks, player_mut, player; simpl.
    all: destruct (cs_context s), (t_options t), (t_current_session t) as [[? [?|] ? ? ?]|]; done. }
  apply inv_clear_prev_track. clear Hs. inv_same.
Qed.

Lemma keeps_queue_transferred {L : Limits} uuid b i ts : Forall track_ok ts -> keeps Inv (queue_transferred uuid b i ts).
Proof.
  intros Hts. revert i; induction Hts as [|t ts Ht Hts IH]; intros i; simpl; [apply keeps_ret|].
  apply keeps_bind; [|intros _; apply IH]. destruct (_ && _); [apply keeps_ret|].
  intros s Hs. unfold run.
  pose proof (context_to_provided_track_safe s (uuid i) t (Some (context_uri s)) None None (Some PQueue) Ht) as Hp.
  destruct (context_to_provided_track _ _ _ _ _ _ _); [|done|done]. split; [done|]. by apply inv_add_to_queue.
Qed.

Lemma current_track_from_transfer_safe uuid t s :
  transfer_ok t -> current_track_from_transfer uuid t s <> Panic.
Proof.
  intros [Hq Hc]. unfold current_track_from_transfer.
  match goal with |- context [ok_or _ ?o] => assert (forall x, o = Some x -> track_ok x) as Ho; [|destruct o as [x|]] end.
  - intros x. destruct (is_playing_queue t).
    + intros Hx%head_Some_elem_of. by rewrite Forall_forall in Hq; apply Hq.
    + intros Hx. by rewrite Hx in Hc.
  - simpl. apply context_to_provided_track_safe. by apply Ho.
  - done.
Qed.

Lemma keeps_finish_transfer {L : Limits} uuid seed t : transfer_ok t -> keeps Inv (finish_transfer uuid seed t).
Proof.
  intros Ht. unfold finish_transfer. apply keeps_bind.
  { apply keeps_attempt. intros s _. destruct (current_track s); [done|]. by apply current_track_from_transfer_safe. }
  intros track. apply keeps_bind; [eauto with keeps|intros ty]. apply keeps_bind; [eauto with keeps|intros _].
  apply keeps_bind; [eauto with keeps|intros ctx]. cbv zeta.
  apply keeps_bind; [keeps_modify_cases|intros _]. apply keeps_bind; [keeps_modify_cases|intros _].
  apply keeps_bind; [by apply keeps_queue_transferred, Ht|intros _]. apply keeps_bind; [eauto with keeps|intros b].
  repeat keeps_step.
Qed.

Lemma keeps_ignore {L : Limits} {A} (m : M A) : keeps Inv m -> keeps Inv (ignore m).
Proof. intros Hm. apply keeps_bind; [done|intros; apply keeps_ret]. Qed.

Lemma inv_set_status {L : Limits} st s : Inv s -> Inv (set_status st s).
Proof. intros Hs. unfold set_status. apply inv_update_restrictions. revert Hs. apply inv_ext; by destruct st. Qed.

Lemma inv_set_now {L : Limits} now s : Inv s -> Inv (set_now now s).
Proof.
  intros Hs. unfold set_now. destruct (cs_active_since _); [destruct (_ && _)|]; revert Hs; by apply inv_ext.
Qed.

Lemma inv_set_active {L : Limits} now value s : Inv s -> Inv (set_active now value s).
Proof. intros Hs. unfold set_active. destruct value; [destruct (rq_is_active _)|]; revert Hs; by apply inv_ext. Qed.

Lemma number_queued_length n ts : length (number_queued n ts).1 = length ts.
Proof.
  revert n; induction ts as [|t ts IH]; intros n; simpl; [done|]. destruct (is_from_queue t);
    match goal with |- context [number_queued ?n ts] => specialize (IH n); destruct (number_queued n ts) end;
    simpl in *; by rewrite IH.
Qed.

(** The lists of a set-queue command are stored at their length. *)
Lemma set_queue_lengths next prev s :
  length (next_tracks (handle_set_queue next prev s)) = length next /\
  length (prev_tracks (handle_set_queue next prev s)) = length prev.
Proof.
  unfold handle_set_queue, set_next_tracks. pose proof (number_queued_length (cs_queue_count s) next) as Hl.
  destruct (number_queued _ next) as [l n]. simpl in Hl. split; [|done].
  change (length ((fun t => if is_empty (pt_uri t) then set_pt_uri (pt_uri (track_or_default (current_track s))) t else t)
    <$> l) = length next). by rewrite length_fmap.
Qed.

Lemma inv_set_queue {L : Limits} next prev s :
  (length next <= max_next)%nat -> (length prev <= max_prev)%nat -> Inv s -> Inv (handle_set_queue next prev s).
Proof.
  intros Hn Hp []. destruct (set_queue_lengths next prev s) as [En Ep]. constructor; rewrite ?En, ?Ep; try done;
    unfold handle_set_queue, set_next_tracks; by destruct (number_queued _ next).
Qed.

(** The draw of a random track ends in a track, an error or, without tracks, a panic. *)
Lemma set_current_track_random_spec {L : Limits} rng_track s :
  Inv s -> Inv (set_current_track_random rng_track s).2 /\
  ((set_current_track_random rng_track s).1 = Panic <-> empty_draw (CmdSetCurrentTrackRandom rng_track) s).
Proof.
  intros Hs. unfold set_current_track_random, mbind, M_bind, attempt, get_context, empty_draw.
  destruct (context_of s (cs_active_context s)) as [ctx|] eqn:E; simpl.
  2: { split; [done|]. split; [done|by intros (? & ? & _)]. }
  destruct (Nat.eqb_spec (length (vec (sc_tracks ctx))) 0) as [H0|H0].
  { split; [done|]. split; [|done]. intros _. exists ctx. by apply length_zero_iff_nil in H0. }
  destruct (keeps_set_current_track (rng_track (length (vec (sc_tracks ctx)))) s Hs) as [Hp Hi]. split; [done|].
  split; [done|]. intros (c & [= <-] & Hv). by rewrite Hv in H0.
Qed.

Lemma keeps_command {L : Limits} c :
  command_ok c -> stores_within max_prev max_next c ->
  (forall rng_track, c <> CmdSetCurrentTrackRandom rng_track) -> keeps Inv (step c).
Proof.
  destruct c; simpl; intros Hc Hb Hr; try (apply keeps_ignore); eauto with keeps.
  - by apply keeps_mark_unavailable.
  - apply keeps_handle_shuffle.
  - apply keeps_handle_set_repeat_context.
  - by apply keeps_update_context.
  - by apply keeps_fill_context_from_page.
  - apply keeps_modify. intros s. apply inv_merge_context.
  - apply keeps_modify. intros s. apply inv_handle_initial_transfer.
  - by apply keeps_finish_transfer.
  - apply keeps_became_inactive.
  - apply keeps_modify. intros s. destruct Hb. by apply inv_set_queue.
  - by destruct (Hr rng_track).
  - apply keeps_modify. intros s. apply inv_set_active.
  - apply keeps_modify. intros s. apply inv_set_now.
Qed.

Lemma inv_new {L : Limits} cfg session : Inv (new cfg session).
Proof. constructor; try done; simpl; lia. Qed.
End Keeps.
