(* ===== verification/ConnectSpec.v ===== *)
(** * The connect state: properties

    What the operations of [ConnectState], [ConnectContext], [ConnectTracks] and [ConnectHandle]
    promise together. *)
From S2P Require Import Prelude Text ShuffleVec SpotifyId SpotifyUri Protocol Config ConnectState ConnectContext ConnectTracks ConnectHandle.

(** ** Definitions used by the statements *)

(** The queued tracks at the front. *)
Fixpoint queued_prefix (l : list ProvidedTrack) : list ProvidedTrack :=
  match l with [] => [] | t :: l => if is_queue t then t :: queued_prefix l else [] end.

(** The last [n] elements. *)
Definition lastn {A} (n : nat) (l : list A) : list A := drop (length l - n) l.

(** The tracks of the default context. *)
Definition Tracks (v : ShuffleVec ProvidedTrack) (s : ConnectState) : Prop := sc_tracks <$> cs_context s = Some v.

(** The default context holds the tracks [base], in this order or in a shuffled one that can be undone. *)
Definition Orig (base : list ProvidedTrack) (s : ConnectState) : Prop := exists v, Tracks v s /\ shuffle_of base v.

(** The commands of a listener, which do not replace the context. *)
Definition playback_command (c : command) : bool :=
  match c with
  | CmdNext | CmdPrev | CmdAddToQueue _ _ | CmdClearQueue | CmdShuffle _ _ | CmdRepeatContext _ | CmdRepeatTrack _
  | CmdResetPlayback _ | CmdSetCurrentTrack _ | CmdSetStatus _ => true
  | _ => false
  end.

(** Commands executed one after the other; a failed one leaves what it changed. *)
Fixpoint run_commands {Q : QueueHash} {R : Rng} (cs : list command) (s : ConnectState) : ConnectState :=
  match cs with [] => s | c :: cs => run_commands cs (step c s).2 end.

(** The longest lists of previous and of next tracks that a set-queue command stores. *)
Definition longest_stored (cs : list command) : nat * nat :=
  foldr (fun c m =>
    match c with
    | CmdSetQueue next prev => (Nat.max (length prev) m.1, Nat.max (length next) m.2)
    | _ => m
    end) (0%nat, 0%nat) cs.

Definition other_uri (uri : string) (t : ProvidedTrack) : bool := negb (String.eqb (pt_uri t) uri).

(** A context of [n] tracks, the [i]-th marked with its index. *)
Definition ex_track (i : nat) : ProvidedTrack :=
  set_context_index (Z.of_nat i)
    (mkProvidedTrack (String.append "spotify:track:" (show_Z (Z.of_nat i)))
       (String.append "uid" (show_Z (Z.of_nat i))) ∅ PROVIDER_CONTEXT).

Definition ex_context (n : nat) : StateContext :=
  mkStateContext (sv_from (ex_track <$> seq 0 n)) ∅ None ContextIndex_default.

Definition ex_session : SessionInfo := mkSessionInfo "device" "client" "session" "0.8.0" "3.2.6".

Definition ex_state (n : nat) : ConnectState :=
  set_cs_context (Some (ex_context n)) (new ConnectConfig_default ex_session).

(** A hash to run the model with. *)
#[export] Instance ex_hash : QueueHash := fun uris => Z.of_nat (length uris).

Definition ex_at (i : nat) : ConnectState := (reset_playback_to_position (Some (Z.of_nat i)) (ex_state 20)).2.

(** A protocol track by its address. *)
Definition ex_protocol_track (uri : string) : ContextTrack := mkContextTrack (Some uri) None None ∅.
Definition ex_page (uris : list string) : ContextPage := page_of_uris uris.
Definition ex_protocol_context (pages : list ContextPage) : Context :=
  mkContext (Some "spotify:playlist:x") None ∅ None pages.
Definition ex_uuid (page i : nat) : string := String.append "u" (show_Z (Z.of_nat (100 * page + i))).

Definition uri1 : string := "spotify:track:5sWHDYs0csV6RS48xBl0tH".
Definition uri2 : string := "spotify:track:4GNcXTGWmnZ3ySrqvol3o4".

Definition ex_repeating : ConnectState :=
  set_repeat_context true
    (set_cs_context (Some (mkStateContext (sv_from [mkProvidedTrack uri1 "u1" ∅ PROVIDER_CONTEXT]) ∅ None ContextIndex_default))
       (new ConnectConfig_default ex_session)).

(** ** Lemmas *)

Lemma next_tracks_mut_nil s : next_tracks_mut (fun l => l ++ []) s = s.
Proof.
  destruct s as [[? [] ? ? ? ? ? ?] ? ? ? ? ? ? ? ? ?]. unfold next_tracks_mut, player_mut. simpl. by rewrite app_nil_r.
Qed.

Lemma next_tracks_mut_app s a b :
  next_tracks_mut (fun l => l ++ b) (next_tracks_mut (fun l => l ++ a) s) = next_tracks_mut (fun l => l ++ (a ++ b)) s.
Proof. unfold next_tracks_mut, player_mut. simpl. by rewrite app_assoc. Qed.

Lemma plain_push s c t : plain_context s c -> plain_context (next_tracks_mut (fun l => l ++ [t]) s) c.
Proof. done. Qed.

Lemma plain_round i iteration s c :
  plain_context s c ->
  fill_round i iteration s =
    Ok (match vec (sc_tracks c) !! i with Some t => FillPush t (S i) iteration s | None => FillBreak end).
Proof.
  intros (Hc & Ha & Hf & Hact & Hr & Hinit & Hav). unfold fill_round. rewrite Hf.
  rewrite (get_context_ok CDefault s c Hc). cbn [mbind res_bind]. rewrite Hr, Ha.
  destruct (vec (sc_tracks c) !! i) as [t|] eqn:E; [|done].
  rewrite (Forall_lookup_1 _ _ _ _ Hav E). unfold is_skip_track. rewrite Hact. simpl. by rewrite Hc, Hinit.
Qed.

(** On a plain context the loop takes the tracks from the index on. *)
Lemma fill_loop_plain fuel i iteration s c :
  plain_context s c -> (fill_measure i s < fuel)%nat ->
  let added := take (SPOTIFY_MAX_NEXT_TRACKS_SIZE - length (next_tracks s)) (drop i (vec (sc_tracks c))) in
  fill_loop fuel i iteration s = (Ok (i + length added)%nat, next_tracks_mut (fun l => l ++ added) s).
Proof.
  revert i iteration s; induction fuel as [|fuel IH]; intros i iteration s Hp Hm; [lia|]. cbv zeta. cbn [fill_loop].
  destruct (Nat.ltb_spec (length (next_tracks s)) SPOTIFY_MAX_NEXT_TRACKS_SIZE) as [Hlt|Hge].
  2: { replace (SPOTIFY_MAX_NEXT_TRACKS_SIZE - length (next_tracks s))%nat with 0%nat by lia.
       rewrite take_0. cbn [length]. by rewrite Nat.add_0_r, next_tracks_mut_nil. }
  rewrite (plain_round i iteration s c Hp). destruct (vec (sc_tracks c) !! i) as [t|] eqn:E.
  - rewrite IH; [|by apply plain_push|].
    + rewrite (drop_S _ t i E). set (n := length (next_tracks s)) in *.
      replace (length (next_tracks (next_tracks_mut (fun l => l ++ [t]) s))) with (S n).
      2: { unfold n, next_tracks. simpl. rewrite length_app. simpl. lia. }
      replace (SPOTIFY_MAX_NEXT_TRACKS_SIZE - n)%nat with (S (SPOTIFY_MAX_NEXT_TRACKS_SIZE - S n)) by lia.
      rewrite next_tracks_mut_app. cbn [take length]. f_equal. f_equal. lia.
    + unfold fill_measure, fill_bound in *. change (cs_context (next_tracks_mut _ s)) with (cs_context s).
      change (cs_autoplay_context (next_tracks_mut _ s)) with (cs_autoplay_context s).
      unfold next_tracks in *. simpl in *. rewrite length_app. simpl. nia.
  - apply lookup_ge_None in E. rewrite drop_ge, take_nil by done. cbn [length].
    by rewrite Nat.add_0_r, next_tracks_mut_nil.
Qed.

Lemma fill_up_plain_spec {Q : QueueHash} s c :
  plain_context s c ->
  let i := Z.to_nat (ci_track (sc_index c)) in
  let added := take (SPOTIFY_MAX_NEXT_TRACKS_SIZE - length (next_tracks s)) (drop i (vec (sc_tracks c))) in
  fill_up_next_tracks s =
    (Ok tt, update_queue_revision (context_mut CDefault (set_index_track (wrap 32 (Z.of_nat (i + length added))))
              (next_tracks_mut (fun l => l ++ added) s))).
Proof.
  intros Hp. pose proof Hp as (Hc & _ & Hf & _). cbv zeta. unfold fill_up_next_tracks.
  erewrite bind_ok by (apply attempt_ok; rewrite Hf; by apply get_context_ok).
  pose proof (fill_loop_plain (fill_fuel s) (Z.to_nat (ci_track (sc_index c))) (ci_page (sc_index c)) s c Hp
    (fill_fuel_enough _ s)) as Hl.
  erewrite bind_ok by exact Hl. rewrite bind_gets. unfold update_context_index.
  change (cs_fill_up_context (next_tracks_mut _ s)) with (cs_fill_up_context s). rewrite Hf.
  erewrite bind_ok; [reflexivity|]. by eapply (get_context_mut_ok CDefault).
Qed.

Lemma queued_prefix_all l : Forall (fun t => negb (is_queue t) = false) l -> queued_prefix l = l.
Proof. induction 1 as [|t l Ht _ IH]; simpl; [done|]. apply negb_false_iff in Ht. by rewrite Ht, IH. Qed.

Lemma queued_prefix_take l k :
  position (fun t => negb (is_queue t)) l = Some k -> take k l = queued_prefix l.
Proof.
  revert k; induction l as [|t l IH]; intros k; simpl; [done|]. destruct (is_queue t); simpl; [|by intros [= <-]].
  intros (j & Hj & ->)%fmap_Some. simpl. by rewrite (IH j Hj).
Qed.

Lemma clear_next_tracks_spec s :
  clear_next_tracks s = player_mut (set_ps_next_tracks (queued_prefix (next_tracks s))) s.
Proof.
  unfold clear_next_tracks. destruct (position _ _) as [k|] eqn:E.
  - apply queued_prefix_take in E. unfold player_mut. f_equal. f_equal. by rewrite <- E.
  - apply position_None in E. rewrite (queued_prefix_all _ E).
    by destruct s as [[? [] ? ? ? ? ? ?] ? ? ? ? ? ? ? ? ?].
Qed.

Lemma drop_reverse_take {A} (l : list A) i :
  (i <= length l)%nat -> drop (length l - i) (reverse l) = reverse (take i l).
Proof.
  intros Hi. rewrite <- (take_drop i l) at 2. rewrite reverse_app.
  replace (length l - i)%nat with (length (reverse (drop i l))) by (rewrite length_reverse, length_drop; lia).
  by rewrite drop_app_length.
Qed.

Lemma take_reverse_lastn {A} n (l : list A) : reverse (take n (reverse l)) = lastn n l.
Proof.
  unfold lastn. destruct (decide (n <= length l)%nat) as [Hn|Hn].
  - rewrite <- (take_drop (length l - n) l) at 1. rewrite reverse_app.
    replace n with (length (reverse (drop (length l - n) l))) at 1 by (rewrite length_reverse, length_drop; lia).
    by rewrite take_app_length, reverse_involutive.
  - rewrite take_ge by (rewrite length_reverse; lia). rewrite reverse_involutive.
    replace (length l - n)%nat with 0%nat by lia. done.
Qed.

Lemma window_before_spec l i :
  (i <= length l)%nat -> Z.of_nat (length l) < 2 ^ 32 ->
  window_before l (usize_sub (Z.of_nat (length l)) (Z.of_nat i)) = lastn SPOTIFY_MAX_PREV_TRACKS_SIZE (take i l).
Proof.
  intros Hi Hl. unfold window_before. rewrite usize_sub_small by (unfold usize_max, usize_bits; lia).
  replace (Z.to_nat _) with (length l - i)%nat by lia. by rewrite drop_reverse_take, take_reverse_lastn.
Qed.

Lemma set_current_track_ok s c i t :
  context_of s (cs_active_context s) = Some c -> vec (sc_tracks c) !! Z.to_nat i = Some t ->
  set_current_track i s = (Ok tt, update_current_index (set_ci_track (wrap 32 i)) (set_track t s)).
Proof.
  intros Hc Ht. unfold set_current_track. erewrite bind_ok by (by apply attempt_ok, get_context_ok).
  erewrite bind_ok; [reflexivity|]. unfold attempt. by rewrite Ht.
Qed.

(** Jumping to a position of a plain context, up to the fill-up. *)
Lemma reset_prepares {Q : QueueHash} s c i t :
  plain_context s c -> vec (sc_tracks c) !! i = Some t ->
  Z.of_nat (length (vec (sc_tracks c))) < 2 ^ 32 - 1 ->
  is_queue (track_or_default (current_track s)) = false ->
  exists s4 c1,
    reset_playback_to_position (Some (Z.of_nat i)) s = (fill_up_next_tracks ≫= fun _ => modify update_restrictions) s4 /\
    plain_context s4 c1 /\ vec (sc_tracks c1) = vec (sc_tracks c) /\ Z.to_nat (ci_track (sc_index c1)) = S i /\
    current_track s4 = Some t /\
    prev_tracks s4 = lastn SPOTIFY_MAX_PREV_TRACKS_SIZE (take i (vec (sc_tracks c))) /\
    next_tracks s4 = queued_prefix (next_tracks s) /\ ci_track <$> ps_index (player s4) = Some (Z.of_nat i).
Proof.
  intros (Hc & Ha & Hf & Hact & Hr & Hinit & Hav) Ht Hlen Hq. pose proof (lookup_lt_Some _ _ _ Ht) as Hi.
  destruct s as [rq un since qc act fu ctx tsh auto vs]. simpl in Hc, Ha, Hf, Hact. subst.
  unfold reset_playback_to_position. cbn [default]. set (z := Z.of_nat i).
  rewrite bind_modify, bind_gets. erewrite bind_ok by (unfold update_context_index; by eapply get_context_mut_ok).
  rewrite bind_modify, bind_gets.
  match goal with |- context [is_skip_track ?u None ?st] =>
    replace (is_queue u || is_skip_track u None st) with false end.
  2: { symmetry. apply orb_false_iff. split; [exact Hq|]. unfold is_skip_track.
       revert Hinit. unfold get_initial_track, get. simpl. by intros ->. }
  cbn [negb]. erewrite bind_ok by (eapply set_current_track_ok; [reflexivity|]; simpl; unfold z; by rewrite Nat2Z.id).
  rewrite bind_modify.
  match goal with |- context [(_ ≫= _) (clear_prev_track ?st)] => remember st as s2 eqn:Hs2 end.
  set (prev := lastn SPOTIFY_MAX_PREV_TRACKS_SIZE (take i (vec (sc_tracks c)))).
  erewrite (bind_ok _ _ _ tt (player_mut (set_ps_prev_tracks prev) s2)).
  2: { destruct (0 <? Datatypes.id z) eqn:Ez.
       - erewrite bind_ok by (apply attempt_ok, get_context_ok; subst s2; reflexivity).
         unfold prev. rewrite <- window_before_spec by lia. reflexivity.
       - assert (i = 0%nat) as -> by (apply Z.ltb_ge in Ez; unfold z, Datatypes.id in Ez; lia). done. }
  rewrite bind_modify, clear_next_tracks_spec. eexists _, _. split; [reflexivity|]. subst s2.
  assert (wrap 32 (usize_add z 1) = Z.of_nat (S i)) as Hw.
  { unfold z. rewrite usize_add_small by (unfold usize_max, usize_bits; lia). rewrite wrap_small; unfold fits; lia. }
  split; [split_and!; try done|]. split_and!; try done.
  - simpl. unfold z, Datatypes.id in *. rewrite Hw. lia.
  - simpl. unfold Datatypes.id. rewrite wrap_small; [done|]. unfold fits, z. lia.
Qed.

Lemma context_provider t : is_context t = true -> is_queue t = false /\ is_autoplay t = false /\ is_unavailable t = false.
Proof. unfold is_context, is_queue, is_autoplay, is_unavailable. intros ->%String.eqb_eq. done. Qed.

(** Skipping forward to a track of the context. *)
Lemma next_track_context {Q : QueueHash} s t n rest :
  current_track s = Some t -> from_context t = true -> next_tracks s = n :: rest ->
  is_delimiter n = false -> is_context n = true -> fillable s ->
  exists s' added k, next_track s = (Ok (Some k), s') /\ next_tracks s' = rest ++ added /\
    prev_tracks s' = push_prev_list t (prev_tracks s) /\ current_track s' = Some n /\ fillable s' /\
    (length (next_tracks s') <= Nat.max SPOTIFY_MAX_NEXT_TRACKS_SIZE (length rest))%nat.
Proof.
  intros Ht Hct Hn Hd Hc Hf. destruct (context_provider n Hc) as (Hq & Ha & Hu). unfold next_track.
  rewrite bind_modify. set (s0 := if repeat_track s then _ else s).
  assert (current_track s0 = Some t /\ next_tracks s0 = n :: rest /\ prev_tracks s0 = prev_tracks s /\ fillable s0)
    as (Ht0 & Hn0 & Hp0 & Hf0) by (unfold s0; by destruct (repeat_track s)).
  clearbody s0. erewrite bind_ok by reflexivity. rewrite bind_modify, Ht0, Hct.
  set (s1 := push_prev t _).
  assert (advance (S (length (next_tracks s1))) s1 = (Some n, next_tracks_mut tail s1)) as Hadv.
  { cbn [advance]. unfold get_next_track. change (next_tracks s1) with (next_tracks s0). by rewrite Hn0, Hd, Hu. }
  erewrite bind_ok; [|unfold run; rewrite Hadv; reflexivity].
  set (s2 := next_tracks_mut tail s1).
  assert (fillable s2) as Hf2 by exact Hf0.
  destruct (fill_up_spec s2 Hf2) as (s3 & added & E & Hfl & _ & Hf3 & _ & Hl3).
  pose proof (fl_next _ _ _ Hfl) as Hn3. pose proof (fl_prev _ _ _ Hfl) as Hp3.
  assert (next_tracks s2 = rest) as Hn2 by (change (next_tracks s2) with (tail (next_tracks s0)); by rewrite Hn0).
  erewrite bind_ok by exact E. rewrite Hq, Ha. rewrite Hn2 in *.
  destruct (get_context_index n); rewrite bind_modify, bind_modify; unfold gets;
    (eexists _, added, _; split; [reflexivity|]; split_and!; [exact Hn3| |done|exact Hf3|exact Hl3];
     change (prev_tracks s3 = push_prev_list t (prev_tracks s)); rewrite Hp3, <- Hp0; done).
Qed.

Lemma pop_app l t : pop (l ++ [t]) = l.
Proof.
  unfold pop. rewrite length_app. simpl. replace (length l + 1 - 1)%nat with (length l) by lia. apply take_app_length.
Qed.

(** Skipping back to the last of the previous tracks. *)
Lemma prev_track_context {Q : QueueHash} s t n prev :
  current_track s = Some n -> from_context n = true -> prev_tracks s = prev ++ [t] -> is_delimiter t = false ->
  fillable s ->
  exists s' added, prev_track s = (Ok (Some (Some t)), s') /\
    next_tracks s' = take SPOTIFY_MAX_NEXT_TRACKS_SIZE (n :: next_tracks s) ++ added /\
    prev_tracks s' = prev /\ current_track s' = Some t.
Proof.
  intros Hc Hn Hp Hd Hf. unfold prev_track. erewrite bind_ok by reflexivity. rewrite bind_gets.
  change (prev_tracks (player_mut (set_ps_track None) s)) with (prev_tracks s). rewrite Hp, last_snoc, Hd, Hc.
  rewrite bind_modify, bind_modify, bind_gets. set (s1 := next_tracks_mut _ _).
  assert (prev_tracks s1 = prev ++ [t]) as Hp1 by exact Hp. rewrite Hp1, last_snoc, bind_modify.
  assert (next_tracks s1 = take SPOTIFY_MAX_NEXT_TRACKS_SIZE (n :: next_tracks s)) as Hn1.
  { change (next_tracks s1) with (put_back (Some n) None (next_tracks s)). unfold put_back. by rewrite Hn. }
  set (s2 := prev_tracks_mut pop s1).
  assert (prev_tracks s2 = prev) as Hp2.
  { change (prev_tracks s2) with (pop (prev_tracks s1)). by rewrite Hp1, pop_app. }
  assert (fillable s2 /\ next_tracks s2 = next_tracks s1) as [Hf2 Hn2] by (by split). clearbody s2.
  rewrite bind_modify.
  set (s3 := if bool_decide (cs_active_context s2 = CAutoplay) && is_context t then set_active_context CDefault s2 else s2).
  assert (prev_tracks s3 = prev /\ next_tracks s3 = next_tracks s1 /\ fillable s3) as (Hp3 & Hn3 & Hf3).
  { unfold s3. destruct (_ && _); [|done]. unfold fillable.
    destruct (set_active_context_fields CDefault s2) as (-> & -> & E1 & E2). split_and!; [done|done|].
    unfold context_of. rewrite E1, E2.
    replace (cs_fill_up_context (set_active_context CDefault s2)) with (cs_fill_up_context s2); [done|].
    unfold set_active_context. by destruct (context_of _ _) as [[? ? [?|] ?]|]. }
  clearbody s3. destruct (fill_up_spec s3 Hf3) as (s4 & added & E & Hfl & _).
  erewrite bind_ok by exact E. rewrite bind_modify, bind_modify, bind_modify.
  pose proof (fl_next _ _ _ Hfl) as Hn4. pose proof (fl_prev _ _ _ Hfl) as Hp4. rewrite Hn3, Hn1 in Hn4. rewrite Hp3 in Hp4.
  unfold gets. destruct (_ =? 0); (eexists _, added; split; [reflexivity|]; split_and!; [exact Hn4|exact Hp4|done]).
Qed.

(** *** The tracks of the default context *)

Lemma tracks_ext v s s' : sc_tracks <$> cs_context s' = sc_tracks <$> cs_context s -> Tracks v s -> Tracks v s'.
Proof. unfold Tracks. by intros ->. Qed.

Ltac tracks_same :=
  intros; match goal with H : Tracks _ ?s |- Tracks _ ?s' => exact (tracks_ext _ s s' eq_refl H) end.

Create HintDb tracks.
#[export] Hint Resolve keeps_ret keeps_gets keeps_throw keeps_get_context keeps_find : tracks.
#[export] Hint Extern 1 (keeps (Tracks _) (modify _)) => apply keeps_modify; intros ? ?; eauto with tracks : tracks.
#[export] Hint Extern 2 (Tracks _ _) => tracks_same : tracks.

Ltac tracks_modify_cases :=
  apply keeps_modify; intros ? ?;
  repeat match goal with
  | |- Tracks _ (if ?b then _ else _) => destruct b
  | |- Tracks _ (match ?o with _ => _ end) => destruct o
  end; eauto with tracks.

Ltac tracks_step :=
  match goal with
  | |- keeps _ (mbind _ _) => apply keeps_bind; [|intros ?]
  | |- keeps _ (if ?b then _ else _) => destruct b eqn:?
  | |- keeps _ (match ?x with _ => _ end) => destruct x eqn:?
  | |- keeps _ (modify _) => tracks_modify_cases
  | |- keeps _ _ => solve [eauto with tracks]
  end.

Section Tracks.
Context {Q : QueueHash} (v : ShuffleVec ProvidedTrack).

Lemma tracks_context_mut ty f s :
  (forall c, sc_tracks (f c) = sc_tracks c) -> Tracks v s -> Tracks v (context_mut ty f s).
Proof.
  intros Hf. apply tracks_ext. destruct ty; [|done]. simpl. destruct (cs_context s); simpl; [by rewrite Hf|done].
Qed.

Lemma tracks_set_active ty s : Tracks v s -> Tracks v (set_active_context ty s).
Proof. apply tracks_ext. by destruct (set_active_context_fields ty s) as (_ & _ & -> & _). Qed.

Lemma tracks_set_active_index ty s : Tracks v s -> Tracks v (player_mut (set_ps_index None) (set_active_context ty s)).
Proof. intros Hs%(tracks_set_active ty). tracks_same. Qed.

Lemma tracks_clear_next s : Tracks v s -> Tracks v (clear_next_tracks s).
Proof. rewrite clear_next_tracks_spec. tracks_same. Qed.

Lemma keeps_tracks_index ty i : keeps (Tracks v) (update_context_index ty i).
Proof.
  unfold update_context_index, get_context_mut. apply keeps_bind; [apply (keeps_get_context _ (fun _ => ty))|].
  intros _. apply keeps_modify. intros s. by apply tracks_context_mut.
Qed.

Lemma keeps_tracks_fill : keeps (Tracks v) fill_up_next_tracks.
Proof.
  intros s Hs. destruct (decide (context_of s (cs_fill_up_context s) = None)) as [Hn|Hn].
  - rewrite fill_up_error; [done|]. intros [c Hc]. congruence.
  - destruct (fill_up_spec s) as (s' & added & -> & Hfl & _); [unfold fillable; by apply not_eq_None_Some|].
    split; [done|]. simpl. eapply tracks_ext; [|done]. by apply (fl_context _ _ _ Hfl).
Qed.

Lemma keeps_tracks_set_current i : keeps (Tracks v) (set_current_track i).
Proof.
  unfold set_current_track. apply keeps_bind; [apply keeps_get_context|intros c].
  apply keeps_bind; [apply keeps_attempt; intros s _; by destruct (_ !! _)|intros t].
  apply keeps_modify. tracks_same.
Qed.

Lemma keeps_tracks_take : keeps (Tracks v) take_track.
Proof. intros s Hs. split; [done|]. unfold take_track. simpl. revert Hs. tracks_same. Qed.

Lemma tracks_advance fuel s : Tracks v s -> Tracks v (advance fuel s).2.
Proof.
  revert s; induction fuel as [|fuel IH]; intros s Hs; simpl; [done|]. unfold get_next_track.
  destruct (next_tracks s); [done|]. destruct (is_delimiter _); [apply IH; tracks_same|].
  destruct (is_unavailable _); [apply IH; tracks_same|]. simpl. tracks_same.
Qed.

Hint Resolve tracks_set_active tracks_set_active_index tracks_clear_next keeps_tracks_index keeps_tracks_fill
  keeps_tracks_set_current keeps_tracks_take : tracks.

Lemma keeps_tracks_next : keeps (Tracks v) next_track.
Proof.
  unfold next_track. apply keeps_bind; [tracks_step|intros _]. apply keeps_bind; [tracks_step|intros old].
  apply keeps_bind; [tracks_step|intros _]. apply keeps_bind; [|intros; repeat tracks_step].
  intros s Hs. unfold run. pose proof (tracks_advance (S (length (next_tracks s))) s Hs) as Ha. by destruct (advance _ s).
Qed.

Lemma keeps_tracks_prev : keeps (Tracks v) prev_track.
Proof. unfold prev_track. repeat tracks_step. Qed.

Lemma keeps_tracks_reset_playback i : keeps (Tracks v) (reset_playback_to_position i).
Proof. unfold reset_playback_to_position. repeat tracks_step. Qed.

Lemma keeps_tracks_clear_queue : keeps (Tracks v) clear_queue.
Proof. unfold clear_queue. repeat tracks_step. Qed.

Lemma tracks_add_to_queue t b s : Tracks v s -> Tracks v (add_to_queue t b s).
Proof. unfold add_to_queue. destruct b; tracks_same. Qed.

Hint Resolve keeps_tracks_reset_playback : tracks.
Hint Extern 1 (keeps _ (attempt (get_context ?ty))) => apply (keeps_get_context _ (fun _ => ty)) : tracks.

Lemma keeps_tracks_repeat b : keeps (Tracks v) (handle_set_repeat_context b).
Proof. unfold handle_set_repeat_context. repeat tracks_step. Qed.

(** What turning shuffle off does after the order is restored. *)
Lemma keeps_tracks_shuffle_off :
  keeps (Tracks v) (
    current ← gets current_track;
    match current with
    | None => mret tt
    | Some t =>
        match get_context_index t with
        | Some current_index => reset_playback_to_position (Some current_index)
        | None =>
            ctx ← attempt (get_context CDefault);
            current_index ← attempt (fun _ => find_index_in_context ctx (uri_is (pt_uri t)));
            reset_playback_to_position (Some (Z.of_nat current_index))
        end
    end).
Proof. repeat tracks_step. Qed.
End Tracks.

(** *** The original order of the context *)

Section Orig.
Context {Q : QueueHash} {R : Rng} {ROk : RngOk} (base : list ProvidedTrack).

Lemma keeps_orig {A} (m : M A) : (forall v, keeps (Tracks v) m) -> keeps (Orig base) m.
Proof. intros Hm s (v & Hv & Ho). destruct (Hm v s Hv) as [Hp Ht]. split; [done|]. by exists v. Qed.

Lemma orig_unshuffle s :
  Orig base s ->
  exists c', unshuffle_default s = (Ok tt, set_cs_context (Some c') s) /\ vec (sc_tracks c') = base /\
    shuffle_of base (sc_tracks c').
Proof.
  intros (v & Hv & Ho). unfold Tracks in Hv. unfold unshuffle_default.
  destruct (cs_context s) as [c|]; simpl in Hv; [|done].
  injection Hv as <-. destruct Ho as (ofp & Hu & Ho). unfold unshuffle_context. rewrite Hu. simpl.
  eexists. split; [reflexivity|]. simpl. split; [done|]. by exists ofp.
Qed.

(** Resetting the index restores the order. *)
Lemma orig_reset_index s :
  Orig base s ->
  exists s' v, reset_context DefaultIndex s = (Ok tt, s') /\ Tracks v s' /\ vec v = base /\ shuffle_of base v.
Proof.
  intros Hs. destruct (orig_unshuffle s Hs) as (c' & E & Hv & Ho). unfold reset_context.
  rewrite bind_gets. erewrite bind_ok by exact E. rewrite bind_modify. eexists _, _. split; [reflexivity|].
  split; [|by split]. cbn [modify]. unfold Tracks.
  match goal with |- sc_tracks <$> cs_context (update_restrictions (set_active_context _ ?s1)) = _ =>
    change (sc_tracks <$> cs_context (set_active_context CDefault s1) = Some (sc_tracks c'));
    destruct (set_active_context_fields CDefault s1) as (_ & _ & -> & _) end.
  done.
Qed.

Lemma keeps_orig_shuffle seed t : keeps (Orig base) (shuffle seed t).
Proof.
  unfold shuffle. apply keeps_bind.
  { apply keeps_orig. intros v. apply keeps_modify. intros s Hs. apply tracks_clear_next. tracks_same. }
  intros _ s Hs. destruct (orig_reset_index s Hs) as (s1 & v & E & Hv & _ & Ho).
  erewrite bind_ok by exact E. unfold Tracks in Hv. destruct (cs_context s1) as [c|] eqn:Ec; simpl in Hv; [|done].
  injection Hv as <-. erewrite bind_ok by (by apply attempt_ok, get_context_ok).
  destruct (shuffle_of_shuffle base (sc_tracks c) (seed_from_u64 seed) (fun u => String.eqb (pt_uri u) t) Ho)
    as (v' & Hsh & Ho' & _).
  erewrite bind_ok by (apply attempt_ok; unfold shuffle_context, shuffle_with_seed; rewrite Hsh; reflexivity).
  rewrite bind_modify. apply (keeps_orig _ keeps_tracks_fill). exists v'. split; [|done].
  unfold Tracks. simpl. by rewrite Ec.
Qed.

Lemma keeps_orig_shuffle_command seed b : keeps (Orig base) (handle_shuffle seed b).
Proof.
  unfold handle_shuffle. apply keeps_bind.
  { apply keeps_orig. intros v. apply keeps_modify. tracks_same. }
  intros _. destruct b.
  - unfold shuffle_new. apply keeps_bind.
    { apply keeps_attempt. intros s _. unfold validate_shuffle_allowed.
      by destruct (pr_disallow_toggling_shuffle_reasons _). }
    intros _. apply keeps_bind; [apply keeps_gets|]. intros t. apply keeps_orig_shuffle.
  - intros s Hs. destruct (orig_reset_index s Hs) as (s1 & v & E & Hv & _ & Ho). erewrite bind_ok by exact E.
    apply (keeps_orig _ keeps_tracks_shuffle_off). by exists v.
Qed.

Lemma keeps_orig_command c : playback_command c = true -> keeps (Orig base) (step c).
Proof.
  assert (forall A (m : M A), keeps (Orig base) m -> keeps (Orig base) (ignore m)) as Hig.
  { intros A m Hm. apply keeps_bind; [done|intros; apply keeps_ret]. }
  destruct c; simpl; intros Hc; try discriminate Hc.
  all: first [apply keeps_orig_shuffle_command|try apply Hig; apply keeps_orig; intros v].
  - apply keeps_tracks_next.
  - apply keeps_tracks_prev.
  - apply keeps_modify. intros s. apply tracks_add_to_queue.
  - apply keeps_tracks_clear_queue.
  - apply keeps_tracks_repeat.
  - apply keeps_modify. tracks_same.
  - apply keeps_tracks_reset_playback.
  - apply keeps_tracks_set_current.
  - apply keeps_modify. tracks_same.
Qed.
End Orig.

(** *** The queue and unavailable tracks *)

Lemma queue_insert_spec t l :
  match position (fun t => negb (is_queue t)) l with
  | Some i => take i l ++ t :: drop i l
  | None => l ++ [t]
  end = queued_prefix l ++ t :: drop (length (queued_prefix l)) l.
Proof.
  destruct (position _ l) as [i|] eqn:E.
  - pose proof (position_lt _ _ _ E). apply queued_prefix_take in E. rewrite <- E, length_take. by rewrite Nat.min_l by lia.
  - apply position_None in E. by rewrite (queued_prefix_all _ E), drop_all.
Qed.

Lemma filter_delete (uri : string) l k :
  position (fun t => String.eqb (pt_uri t) uri) l = Some k ->
  List.filter (other_uri uri) (delete k l) = List.filter (other_uri uri) l.
Proof.
  revert k; induction l as [|t l IH]; intros k; simpl; [done|]. unfold other_uri at 2.
  destruct (String.eqb (pt_uri t) uri) eqn:E; simpl; [by intros [= <-]|].
  intros (j & Hj & ->)%fmap_Some. simpl. rewrite (IH j Hj). unfold other_uri at 1. by rewrite E.
Qed.

Lemma remove_uri_loop_spec fuel uri l :
  (length l < fuel)%nat -> remove_uri_loop fuel uri l = List.filter (other_uri uri) l.
Proof.
  revert l; induction fuel as [|fuel IH]; intros l Hl; [lia|]. cbn [remove_uri_loop].
  destruct (position _ l) as [k|] eqn:E.
  - pose proof (position_lt _ _ _ E) as Hk. rewrite IH; [by apply filter_delete|].
    rewrite length_delete by (by apply lookup_lt_is_Some_2). lia.
  - apply position_None in E. clear Hl. induction E as [|t l Ht _ IHl]; simpl; [done|]. unfold other_uri at 1.
    rewrite Ht. simpl. by rewrite <- IHl.
Qed.

(** Nothing is left to mark once the tracks are removed. *)
Lemma mark_list_spec uri l : mark_list uri l = List.filter (other_uri uri) l.
Proof.
  unfold mark_list. rewrite remove_uri_loop_spec by lia. induction l as [|t l IH]; simpl; [done|].
  destruct (other_uri uri t) eqn:E; simpl; [|exact IH]. f_equal; [|exact IH]. unfold mark_as_unavailable_for_match.
  unfold other_uri in E. apply negb_true_iff in E. by rewrite E.
Qed.

(** *** Merging *)

Lemma alter_fmap_same {A B} (f : A -> A) (g : A -> B) (i : nat) (l : list A) : (forall x, g (f x) = g x) -> g <$> alter f i l = g <$> l.
Proof. intros Hg. revert i; induction l as [|x l IH]; intros [|i]; simpl; [done..|by rewrite Hg|]. f_equal. apply IH. Qed.

Lemma merge_tracks_same {B} (g : ProvidedTrack -> B) ts c :
  (forall t x, g (merge_track t x) = g x) -> g <$> vec (sc_tracks (merge_tracks ts c)) = g <$> vec (sc_tracks c).
Proof.
  intros Hg. revert c; induction ts as [|t ts IH]; intros c; simpl; [done|]. rewrite IH.
  destruct (ct_uri t) as [uri|]; [|done]. destruct (is_empty uri); [done|]. destruct (position _ _); [|done].
  by apply alter_fmap_same.
Qed.

(** *** Runs of commands *)

Lemma step_safe {Q : QueueHash} {R : Rng} {ROk : RngOk} {L : Limits} c s :
  command_ok c -> stores_within max_prev max_next c -> Inv s ->
  Inv (step c s).2 /\ ((step c s).1 = Panic <-> empty_draw c s).
Proof.
  intros Hc Hb Hs.
  assert ((forall rng, c <> CmdSetCurrentTrackRandom rng) \/ exists rng, c = CmdSetCurrentTrackRandom rng)
    as [Hr|[rng ->]] by (destruct c; first [by (right; eexists)|by (left; intros ? ?; discriminate)]).
  - destruct (keeps_command c Hc Hb Hr s Hs) as [Hp Hi]. split; [done|]. split; [done|].
    intros He. destruct c; try done. by destruct (Hr rng_track).
  - by apply set_current_track_random_spec.
Qed.

Lemma run_commands_inv {Q : QueueHash} {R : Rng} {ROk : RngOk} {L : Limits} cs s :
  Forall command_ok cs -> Forall (stores_within max_prev max_next) cs -> Inv s -> Inv (run_commands cs s).
Proof.
  intros Hc. revert s. induction Hc as [|c cs Hc Hcs IH]; intros s Hb Hs; simpl; [done|].
  apply Forall_cons in Hb as [Hb Hbs]. apply IH; [done|]. by apply step_safe.
Qed.

Lemma stores_within_mono p n p' n' c :
  (p <= p')%nat -> (n <= n')%nat -> stores_within p n c -> stores_within p' n' c.
Proof. destruct c; simpl; lia || done. Qed.

Lemma stores_within_limits p n c :
  stores_within p n c -> stores_within (@max_prev (limits_of p n)) (@max_next (limits_of p n)) c.
Proof. apply stores_within_mono; apply Nat.le_max_r. Qed.

Lemma longest_stored_within cs :
  Forall (stores_within (longest_stored cs).1 (longest_stored cs).2) cs.
Proof.
  induction cs as [|c cs IH]; [constructor|].
  assert (((longest_stored cs).1 <= (longest_stored (c :: cs)).1)%nat /\
    ((longest_stored cs).2 <= (longest_stored (c :: cs)).2)%nat) as [H1 H2] by (destruct c; simpl; lia).
  constructor.
  - destruct c; try done. simpl. lia.
  - eapply Forall_impl; [exact IH|]. intros c'. by apply stores_within_mono.
Qed.

(** ** Properties *)

(** C6: from the initial state, whatever sequence of operations the controller and the resolver
    execute and whatever they draw at random, the next one ends, and it panics exactly when it draws
    a random track of a context without tracks; and the lists of previous and next tracks never
    exceed the 10 and 80 entries the server accepts, unless a set-queue command stored a longer
    one: then they never exceed the longest one stored. *)
Theorem connect_commands_safe {Q : QueueHash} {R : Rng} {ROk : RngOk} (cfg : ConnectConfig) (session : SessionInfo)
    (cs : list command) (c : command) (Hcs : Forall command_ok (cs ++ [c])) :
  let s := run_commands cs (new cfg session) in
  let '(prev, next) := longest_stored (cs ++ [c]) in
  ((step c s).1 = Panic <-> empty_draw c s) /\
  (length (prev_tracks (step c s).2) <= Nat.max SPOTIFY_MAX_PREV_TRACKS_SIZE prev)%nat /\
  (length (next_tracks (step c s).2) <= Nat.max SPOTIFY_MAX_NEXT_TRACKS_SIZE next)%nat.
Proof.
  pose proof (longest_stored_within (cs ++ [c])) as Hb. cbv zeta.
  destruct (longest_stored (cs ++ [c])) as [prev next]. simpl in Hb.
  pose (L := limits_of prev next). apply Forall_app in Hcs as [Hcs Hc]. apply Forall_app in Hb as [Hbs Hb].
  rewrite Forall_singleton in Hc, Hb. pose proof (step_safe (L := L) c) as Hstep.
  destruct (Hstep _ Hc (stores_within_limits prev next c Hb) (run_commands_inv (L := L) cs _ Hcs
    (Forall_impl _ _ _ Hbs (stores_within_limits prev next)) (inv_new cfg session))) as ([Hp Hn _ _] & He).
  by split_and!.
Qed.

(** C8: filling up the next tracks ends and succeeds whenever the fill-up context is present; it only
    appends, it appends only delimiters and available tracks of the contexts, it leaves the
    previous and the current track alone, and it stops at the limit of 80 tracks or when the
    contexts have no more tracks and are not repeated. *)
Theorem fill_up_complete {Q : QueueHash} (s : ConnectState) (Hf : fillable s) :
  exists s' added, fill_up_next_tracks s = (Ok tt, s') /\ next_tracks s' = next_tracks s ++ added /\
    prev_tracks s' = prev_tracks s /\ current_track s' = current_track s /\ Forall (fill_source s) added /\
    ((SPOTIFY_MAX_NEXT_TRACKS_SIZE <= length (next_tracks s'))%nat \/
     exists c i, context_of s' (cs_fill_up_context s') = Some c /\ repeat_context s' = false /\
       (cs_fill_up_context s' = CAutoplay \/ cs_autoplay_context s' = None) /\
       ci_track (sc_index c) = wrap 32 (Z.of_nat i) /\ (length (vec (sc_tracks c)) <= i)%nat).
Proof.
  destruct (fill_up_spec s Hf) as (s' & added & E & [] & Hsrc & _ & Hend & _). exists s', added.
  split_and!; try done. destruct Hend as [?|(c & Hc & Hr & Ha & i & Hi & Hl)]; [by left|right]. by exists c, i.
Qed.

(** On a context played straight through, the next tracks are extended by exactly the
    tracks from the context's position on, up to 80, and the position advances past them. *)
Theorem fill_up_plain {Q : QueueHash} (s : ConnectState) (c : StateContext) (i : nat)
    (Hp : plain_context s c) (Hi : ci_track (sc_index c) = Z.of_nat i)
    (Hlen : Z.of_nat (i + length (vec (sc_tracks c))) < 2 ^ 32) :
  exists s' c', fill_up_next_tracks s = (Ok tt, s') /\ cs_context s' = Some c' /\
    let added := take (SPOTIFY_MAX_NEXT_TRACKS_SIZE - length (next_tracks s)) (drop i (vec (sc_tracks c))) in
    next_tracks s' = next_tracks s ++ added /\ ci_track (sc_index c') = Z.of_nat i + Z.of_nat (length added).
Proof.
  pose proof (fill_up_plain_spec s c Hp) as Hf. cbv zeta in Hf. rewrite Hi, Nat2Z.id in Hf.
  destruct Hp as (Hc & _). eexists _, _. split; [exact Hf|]. split; [simpl; by rewrite Hc|]. split; [done|].
  cbn [set_index_track sc_index set_sc_index set_ci_track ci_track]. rewrite wrap_small; [lia|].
  unfold fits. rewrite length_take, length_drop. lia.
Qed.

(** Jumping to a position of a plain context sets up the player around it: the track at the
    position becomes current, the previous tracks are the (at most 10) tracks before it, the queued
    tracks stay in front, followed by the tracks after the position, up to 80 in all. *)
Theorem reset_playback_plain {Q : QueueHash} (s : ConnectState) (c : StateContext) (i : nat) (t : ProvidedTrack)
    (Hp : plain_context s c) (Ht : vec (sc_tracks c) !! i = Some t)
    (Hlen : Z.of_nat (length (vec (sc_tracks c))) < 2 ^ 32 - 1)
    (Hq : is_queue (track_or_default (current_track s)) = false) :
  exists s', reset_playback_to_position (Some (Z.of_nat i)) s = (Ok tt, s') /\
    current_track s' = Some t /\
    prev_tracks s' = lastn SPOTIFY_MAX_PREV_TRACKS_SIZE (take i (vec (sc_tracks c))) /\
    next_tracks s' = queued_prefix (next_tracks s) ++
      take (SPOTIFY_MAX_NEXT_TRACKS_SIZE - length (queued_prefix (next_tracks s))) (drop (S i) (vec (sc_tracks c))) /\
    ci_track <$> ps_index (player s') = Some (Z.of_nat i).
Proof.
  destruct (reset_prepares s c i t Hp Ht Hlen Hq) as (s4 & c1 & E & Hp4 & Hv & Hi & Ht4 & Hpr & Hn & Hx).
  rewrite E. erewrite bind_ok by (apply fill_up_plain_spec, Hp4).
  eexists. split; [reflexivity|]. rewrite Hi, Hv, Hn. split_and!; [exact Ht4|exact Hpr| |exact Hx].
  unfold next_tracks in Hn |- *. simpl. by rewrite Hn.
Qed.

(** Skipping forward and back again returns to where one was: the current track and the
    previous tracks are as before, and the next tracks start with those there were. *)
Theorem next_prev_roundtrip {Q : QueueHash} (s : ConnectState) (t n : ProvidedTrack) (rest : list ProvidedTrack)
    (Ht : current_track s = Some t) (Hct : from_context t = true) (Hdt : is_delimiter t = false)
    (Hn : next_tracks s = n :: rest) (Hdn : is_delimiter n = false) (Hcn : is_context n = true) (Hf : fillable s)
    (Hpl : (length (prev_tracks s) < SPOTIFY_MAX_PREV_TRACKS_SIZE)%nat)
    (Hnl : (length (next_tracks s) <= SPOTIFY_MAX_NEXT_TRACKS_SIZE)%nat) :
  exists s1 k s2 extra,
    next_track s = (Ok (Some k), s1) /\ current_track s1 = Some n /\ prev_tracks s1 = prev_tracks s ++ [t] /\
    prev_track s1 = (Ok (Some (Some t)), s2) /\ current_track s2 = Some t /\ prev_tracks s2 = prev_tracks s /\
    next_tracks s2 = next_tracks s ++ extra.
Proof.
  destruct (next_track_context s t n rest Ht Hct Hn Hdn Hcn Hf) as (s1 & added & k & E1 & Hn1 & Hp1 & Hc1 & Hf1 & _).
  assert (prev_tracks s1 = prev_tracks s ++ [t]) as Hp1'.
  { rewrite Hp1. unfold push_prev_list. by rewrite (proj2 (Nat.leb_gt _ _) Hpl). }
  assert (from_context n = true) as Hfn by (unfold from_context; by rewrite Hcn).
  destruct (prev_track_context s1 t n (prev_tracks s) Hc1 Hfn Hp1' Hdt Hf1) as (s2 & added2 & E2 & Hn2 & Hp2 & Hc2).
  exists s1, k, s2. rewrite Hn1, app_comm_cons, <- Hn, take_app_ge, <- app_assoc in Hn2 by done. eauto 10.
Qed.

(** C7: turning shuffle off restores the original order of the context exactly, whatever the
    listener did before (shuffling any number of times, skipping, queueing, repeating, jumping)
    and whether or not the command itself succeeds. *)
Theorem shuffle_off_restores {Q : QueueHash} {R : Rng} {ROk : RngOk} (base : list ProvidedTrack) (s : ConnectState)
    (c : StateContext) (cs : list command) (seed : Z)
    (Hc : cs_context s = Some c) (Hb : sc_tracks c = sv_from base)
    (Hcs : Forall (fun c => playback_command c = true) cs) :
  exists c', cs_context (step (CmdShuffle seed false) (run_commands cs s)).2 = Some c' /\ vec (sc_tracks c') = base.
Proof.
  assert (Orig base s) as Ho.
  { exists (sv_from base). unfold Tracks. rewrite Hc. simpl. rewrite Hb. split; [done|apply shuffle_of_from]. }
  assert (Orig base (run_commands cs s)) as Hr.
  { clear Hc Hb. revert s Ho. induction Hcs as [|c1 cs H1 _ IH]; intros s Ho; simpl; [done|].
    apply IH. by apply keeps_orig_command. }
  assert (Orig base (set_shuffle false (run_commands cs s))) as (v0 & Hv0 & Ho0) by
    (destruct Hr as (v & Hv & Hov); exists v; split; [exact Hv|done]).
  destruct (orig_reset_index base (set_shuffle false (run_commands cs s))) as (s1 & v & E & Hv & Hvec & _);
    [by exists v0|].
  simpl. unfold handle_shuffle. rewrite bind_modify. erewrite bind_ok by exact E.
  destruct (keeps_tracks_shuffle_off v s1 Hv) as [_ Ht]. unfold Tracks in Ht.
  destruct (cs_context _) as [c'|] in Ht |- *; simpl in Ht; [|done]. injection Ht as <-. by exists c'.
Qed.

(** A queued track goes behind the tracks queued before it and in front of all others, so the
    queue plays in the order it was filled; it gets the next queue identifier, and the list is cut
    at 80 tracks. *)
Theorem add_to_queue_order {Q : QueueHash} (t : ProvidedTrack) (rev_update : bool) (s : ConnectState) :
  exists t', next_tracks (add_to_queue t rev_update s) =
      take SPOTIFY_MAX_NEXT_TRACKS_SIZE
        (queued_prefix (next_tracks s) ++ t' :: drop (length (queued_prefix (next_tracks s))) (next_tracks s)) /\
    pt_uri t' = pt_uri t /\ is_queue t' = true /\ is_from_queue t' = true /\
    pt_uid t' = queue_uid (cs_queue_count s) /\
    cs_queue_count (add_to_queue t rev_update s) = wrap 64 (cs_queue_count s + 1).
Proof.
  unfold add_to_queue. cbv zeta. set (t1 := set_provider PQueue _). set (t' := if is_from_queue t1 then t1 else _).
  exists t'. split; [|split_and!].
  - rewrite <- queue_insert_spec. by destruct rev_update.
  - unfold t'. by destruct (is_from_queue t1).
  - unfold t'. by destruct (is_from_queue t1).
  - unfold t'. destruct (is_from_queue t1) eqn:E; [done|]. unfold is_from_queue, get_bool, set_from_queue, set_entry.
    simpl. by rewrite lookup_insert_eq.
  - unfold t'. by destruct (is_from_queue t1).
  - by destruct rev_update.
Qed.

(** Marking a track unavailable removes it from the previous and from the queued-up next
    tracks, keeping the order of the others, remembers it, and refills the next tracks. *)
Theorem mark_unavailable_removes {Q : QueueHash} (s : ConnectState) (id : SpotifyUri)
    (Hid : parsed id) (Hf : fillable s) :
  exists uri s' added, to_uri id = Ok uri /\ mark_unavailable id s = (Ok tt, s') /\
    prev_tracks s' = List.filter (other_uri uri) (prev_tracks s) /\
    next_tracks s' = List.filter (other_uri uri) (next_tracks s) ++ added.
Proof.
  destruct (from_to_uri id Hid) as (uri & Huri & _). exists uri. unfold mark_unavailable.
  erewrite bind_ok by (apply attempt_ok; by rewrite Huri). rewrite bind_modify, bind_modify.
  set (s1 := set_cs_unavailable_uri _ _). assert (fillable s1) as Hf1 by exact Hf.
  destruct (fill_up_spec s1 Hf1) as (s2 & added & E & Hfl & _).
  erewrite bind_ok by exact E. eexists _, added. split; [done|]. split; [reflexivity|].
  rewrite <- !mark_list_spec. split; [exact (fl_prev _ _ _ Hfl)|exact (fl_next _ _ _ Hfl)].
Qed.

(** Merging a page into the context keeps its tracks: their number, order, addresses and
    providers; only metadata and identifiers change. *)
Theorem merge_context_keeps_tracks (page : ContextPage) (s : ConnectState) (c : StateContext)
    (Hc : cs_context s = Some c) :
  exists c', cs_context (merge_context (Some page) s).2 = Some c' /\ (merge_context (Some page) s).1 = Some tt /\
    pt_uri <$> vec (sc_tracks c') = pt_uri <$> vec (sc_tracks c) /\
    pt_provider <$> vec (sc_tracks c') = pt_provider <$> vec (sc_tracks c).
Proof.
  unfold merge_context. rewrite Hc. simpl. rewrite Hc. eexists. split; [reflexivity|]. split; [done|].
  split; apply merge_tracks_same; intros t x; unfold merge_track; by destruct (ct_uid t).
Qed.

(** ** Behaviour worth knowing *)

(** Drawing a random track of a context without tracks panics. *)
Lemma empty_draw_panics :
  (step (CmdSetCurrentTrackRandom (fun _ => 0)) (ex_state 0)).1 = Panic /\
  (step (CmdSetCurrentTrackRandom (fun _ => 0)) (ex_state 1)).1 = Ok tt.
Proof. by vm_compute. Qed.

(** The limits are not applied to the lists of a set-queue command. *)
Lemma set_queue_ignores_limits :
  length (next_tracks (handle_set_queue (replicate 200 (ex_track 0)) (replicate 50 (ex_track 1)) (ex_state 1))) = 200%nat /\
  length (prev_tracks (handle_set_queue (replicate 200 (ex_track 0)) (replicate 50 (ex_track 1)) (ex_state 1))) = 50%nat.
Proof. by vm_compute. Qed.

(** A track marked unavailable is removed from the lists, but the refill takes it from the context
    again: the context's own tracks are never marked. *)
Lemma unavailable_track_returns :
  let id := Track ex_id in
  let s' := (mark_unavailable id ex_repeating).2 in
  to_uri id = Ok uri1 /\ cs_unavailable_uri s' = [uri1] /\
  existsb (fun t => String.eqb (pt_uri t) uri1) (next_tracks s') = true.
Proof. by vm_compute. Qed.

(** The further pages of an autoplay context are appended to the default context. *)
Lemma autoplay_pages_extend_default :
  let s := (step (CmdUpdateContext ex_uuid (ex_protocol_context [ex_page [uri1]; ex_page [uri2]]) CAutoplay) (ex_state 3)).2 in
  (fun c => length (vec (sc_tracks c))) <$> cs_autoplay_context s = Some 1%nat /\
  (fun c => length (vec (sc_tracks c))) <$> cs_context s = Some 4%nat.
Proof. by vm_compute. Qed.

(** Every occurrence of [unknown] in the address of a track is rewritten, also inside the
    description of a local file. *)
Lemma local_uri_rewritten :
  pt_uri <$> res_ok (context_to_provided_track (ex_state 1) "u"
    (ex_protocol_track "spotify:local:unknown artist:album:song:60") None None None None)
  = Some "spotify:local:track artist:album:song:60".
Proof. by vm_compute. Qed.

(** An empty identifier of a merged track replaces the one there was. *)
Lemma merge_takes_empty_uid :
  pt_uid <$> vec (sc_tracks (merge_tracks [mkContextTrack (Some "spotify:track:0") (Some EmptyString) None ∅] (ex_context 2)))
  = [EmptyString; "uid1"].
Proof. by vm_compute. Qed.

(** ** Witnesses *)

(** A queue of 100 tracks is kept at that length by the next command. *)
Lemma connect_commands_safe_witness :
  let update := CmdUpdateContext ex_uuid (ex_protocol_context [ex_page [uri1; uri2]]) CDefault in
  let cs := [update; CmdSetQueue (replicate 100 (ex_track 0)) []] in
  let s := run_commands cs (new ConnectConfig_default ex_session) in
  (step CmdNext s).1 <> Panic /\
  (length (prev_tracks (step CmdNext s).2) <= 10)%nat /\ (length (next_tracks (step CmdNext s).2) <= 100)%nat.
Proof.
  cbv zeta.
  pose proof (connect_commands_safe (ROk := lcg_ok) ConnectConfig_default ex_session
    [CmdUpdateContext ex_uuid (ex_protocol_context [ex_page [uri1; uri2]]) CDefault;
     CmdSetQueue (replicate 100 (ex_track 0)) []] CmdNext ltac:(repeat constructor)) as H.
  cbv zeta in H. cbn [longest_stored foldr app fst snd] in H. rewrite length_replicate in H.
  destruct H as (Hp & H1 & H2). split; [|split; [exact H1|exact H2]]. intros H. by apply Hp in H.
Defined.

Lemma fill_up_complete_witness :
  exists s' added, fill_up_next_tracks (ex_state 3) = (Ok tt, s') /\ next_tracks s' = next_tracks (ex_state 3) ++ added /\
    added = ex_track <$> seq 0 3.
Proof.
  destruct (fill_up_complete (ex_state 3)) as (s' & added & E & Hn & _); [by eexists|].
  exists s', added. split_and!; [done|done|]. vm_compute in E. injection E as <-. vm_compute in Hn |- *. by rewrite <- Hn.
Defined.

Lemma fill_up_plain_witness :
  exists s' c', fill_up_next_tracks (ex_state 100) = (Ok tt, s') /\ cs_context s' = Some c' /\
    next_tracks s' = ex_track <$> seq 0 80 /\ ci_track (sc_index c') = 80.
Proof.
  destruct (fill_up_plain (ex_state 100) (ex_context 100) 0) as (s' & c' & E & Hc & Hn & Hi); [|done|by vm_compute|].
  - split_and!; try done. apply Forall_fmap, Forall_forall. done.
  - exists s', c'. split_and!; [done|done| |]; [rewrite Hn|rewrite Hi]; by vm_compute.
Defined.

Lemma reset_playback_plain_witness :
  exists s', reset_playback_to_position (Some 12) (ex_state 20) = (Ok tt, s') /\
    current_track s' = Some (ex_track 12) /\ prev_tracks s' = ex_track <$> seq 2 10 /\
    next_tracks s' = ex_track <$> seq 13 7.
Proof.
  destruct (reset_playback_plain (ex_state 20) (ex_context 20) 12 (ex_track 12)) as (s' & E & Hc & Hp & Hn & _);
    [|done|by vm_compute|done|].
  - split_and!; try done. apply Forall_fmap, Forall_forall. done.
  - exists s'. split_and!; [exact E|done|rewrite Hp; by vm_compute|rewrite Hn; by vm_compute].
Defined.

Lemma next_prev_roundtrip_witness :
  exists s1 k s2 extra,
    next_track (ex_at 3) = (Ok (Some k), s1) /\ current_track s1 = Some (ex_track 4) /\
    prev_track s1 = (Ok (Some (Some (ex_track 3))), s2) /\ next_tracks s2 = next_tracks (ex_at 3) ++ extra.
Proof.
  destruct (next_prev_roundtrip (ex_at 3) (ex_track 3) (ex_track 4) (ex_track <$> seq 5 15))
    as (s1 & k & s2 & extra & E1 & H1 & _ & E2 & _ & _ & H2).
  1-6: vm_compute; reflexivity.
  - by eexists.
  - vm_compute. lia.
  - vm_compute. lia.
  - by exists s1, k, s2, extra.
Defined.

Lemma shuffle_off_restores_witness :
  exists c', cs_context (step (CmdShuffle 1 false)
      (run_commands [CmdResetPlayback (Some 2); CmdShuffle 7 true; CmdNext] (ex_state 6))).2 = Some c' /\
    vec (sc_tracks c') = ex_track <$> seq 0 6.
Proof.
  apply (shuffle_off_restores (ROk := lcg_ok) (ex_track <$> seq 0 6) (ex_state 6) (ex_context 6));
    [reflexivity|reflexivity|by repeat constructor].
Defined.

Lemma mark_unavailable_removes_witness :
  exists uri s' added, to_uri (Track ex_id) = Ok uri /\ mark_unavailable (Track ex_id) ex_repeating = (Ok tt, s') /\
    prev_tracks s' = [] /\ next_tracks s' = [] ++ added.
Proof. apply (mark_unavailable_removes ex_repeating (Track ex_id)); [split; by vm_compute|by eexists]. Defined.

Lemma merge_context_keeps_tracks_witness :
  exists c', cs_context (merge_context (Some (ex_page ["spotify:track:1"])) (ex_state 3)).2 = Some c' /\
    pt_uri <$> vec (sc_tracks c') = pt_uri <$> (ex_track <$> seq 0 3).
Proof.
  destruct (merge_context_keeps_tracks (ex_page ["spotify:track:1"]) (ex_state 3) (ex_context 3)) as (c' & Hc & _ & Hu & _);
    [reflexivity|]. by exists c'.
Defined.
