(* ===== verification/ContextResolver.v ===== *)
(** * Resolving contexts ([native/librespot/connect/src/context_resolver.rs])

    The connect controller fetches the tracks of a context (an album, a playlist, an autoplay
    station) one page at a time. The resolver keeps the pages to fetch in a queue, remembers what
    could not be fetched, applies what was fetched to the connect state and says when the last
    page of a kind arrived.

    The answers of the server are arguments. [now] is the monotonic clock in nanoseconds. The map
    of unavailable contexts is an association list; [probed k r] says whether a lookup of [r]
    compares [r] with the key [k], which it does when their hashes agree. *)
From S2P Require Import Prelude Text ShuffleVec SpotifyId SpotifyUri Protocol Config ConnectState ConnectContext ConnectTracks ConnectHandle Effect.

(** ** What is to be resolved *)

Inductive Resolve := RUri (uri : string) | RContext (context : Context).

Inductive ContextAction := Append | Replace.

Record ResolveContext := mkResolveContext {
  resolve : Resolve;
  fallback : option string;
  update : ContextType;
  action : ContextAction
}.

#[export] Instance RestrictionReasons_eq_dec : EqDecision RestrictionReasons.
Proof. solve_decision. Defined.
#[export] Instance ModeRestrictions_eq_dec : EqDecision ModeRestrictions.
Proof. solve_decision. Defined.
#[export] Instance Restrictions_eq_dec : EqDecision Restrictions.
Proof. solve_decision. Defined.
#[export] Instance ContextTrack_eq_dec : EqDecision ContextTrack.
Proof. solve_decision. Defined.
#[export] Instance ContextPage_eq_dec : EqDecision ContextPage.
Proof. solve_decision. Defined.
#[export] Instance Context_eq_dec : EqDecision Context.
Proof. solve_decision. Defined.
#[export] Instance Resolve_eq_dec : EqDecision Resolve.
Proof. solve_decision. Defined.
#[export] Instance ContextAction_eq_dec : EqDecision ContextAction.
Proof. solve_decision. Defined.
#[export] Instance ResolveContext_eq_dec : EqDecision ResolveContext.
Proof. solve_decision. Defined.

Definition append_context (uri : string) : ResolveContext := mkResolveContext (RUri uri) None CDefault Append.

Definition resolve_from_uri (uri fallback : string) (update : ContextType) (action : ContextAction) : ResolveContext :=
  mkResolveContext (RUri uri) (if is_empty fallback then None else Some fallback) update action.

Definition resolve_from_context (context : Context) (update : ContextType) (action : ContextAction) : ResolveContext :=
  mkResolveContext (RContext context) None update action.

Definition resolve_uri (r : ResolveContext) : option string :=
  match (match resolve r with
         | RUri uri => valid_resolve_uri uri
         | RContext ctx => find_valid_uri (ctx_uri ctx) (head (ctx_pages ctx))
         end) with
  | Some uri => Some uri
  | None => fallback r
  end.

(** [ResolveContext::context_uri] *)
Definition resolve_context_uri (r : ResolveContext) : string :=
  match resolve r with
  | RUri uri => uri
  | RContext ctx => default EmptyString (ctx_uri ctx)
  end.

Inductive ContextResolverError := NoNext | UnexpectedPagesSize (n : nat) | NotAllowedContext (uri : string).

(** ** The resolver *)

Record ContextResolver := mkContextResolver {
  queue : list ResolveContext;
  unavailable_contexts : list (ResolveContext * Z)
}.

Definition RETRY_UNAVAILABLE : Z := 3600 * 1000000000.

Definition resolver_new : ContextResolver := mkContextResolver [] [].

(** Hashing in [HashMap]. *)
Class Probing := probed : ResolveContext -> ResolveContext -> bool.

(** The derived hash of a request by URI is a function of its fields, so a lookup finds it. *)
Class ProbingOk `{Probing} := probed_uri : forall r uri, resolve r = RUri uri -> probed r r = true.

Section Resolver.
Context `{Probing}.

Definition is_key (r : ResolveContext) (e : ResolveContext * Z) : bool := probed e.1 r && bool_decide (e.1 = r).

Definition unavailable_get (r : ResolveContext) (m : list (ResolveContext * Z)) : option Z :=
  i ← position (is_key r) m; snd <$> m !! i.

Definition unavailable_remove (r : ResolveContext) (m : list (ResolveContext * Z)) : list (ResolveContext * Z) :=
  match position (is_key r) m with Some i => delete i m | None => m end.

Definition unavailable_insert (r : ResolveContext) (t : Z) (m : list (ResolveContext * Z)) : list (ResolveContext * Z) :=
  match position (is_key r) m with Some i => <[i := (r, t)]> m | None => m ++ [(r, t)] end.

(** [ContextResolver::add]; [Instant::elapsed] saturates at zero. *)
Definition resolver_add (now : Z) (r : ResolveContext) (c : ContextResolver) : ContextResolver :=
  let last_try := (fun t => Z.max 0 (now - t)) <$> unavailable_get r (unavailable_contexts c) in
  let '(last_try, m) :=
    match last_try with
    | Some t => if RETRY_UNAVAILABLE <? t then (None, unavailable_remove r (unavailable_contexts c))
                else (last_try, unavailable_contexts c)
    | None => (None, unavailable_contexts c)
    end in
  match last_try with
  | Some _ => mkContextResolver (queue c) m
  | None =>
      if bool_decide (r ∈ queue c) then mkContextResolver (queue c) m
      else mkContextResolver (queue c ++ [r]) m
  end.

Definition add_list (now : Z) (rs : list ResolveContext) (c : ContextResolver) : ContextResolver :=
  foldl (fun c r => resolver_add now r c) c rs.

(** The loop of [find_next], from position [idx] on. *)
Fixpoint find_next_from (idx : nat) (q : list ResolveContext) : option (ResolveContext * string * nat) :=
  match q with
  | [] => None
  | next :: q =>
      match resolve_uri next with
      | None => find_next_from (S idx) q
      | Some uri => Some (next, uri, idx)
      end
  end.

Definition find_next (c : ContextResolver) : option (ResolveContext * string * nat) := find_next_from 0 (queue c).

Definition has_next (c : ContextResolver) : bool := match find_next c with Some _ => true | None => false end.

Definition remove_used_and_invalid (c : ContextResolver) : ContextResolver :=
  let q := match find_next c with Some (_, _, remove) => drop remove (queue c) | None => queue c end in
  mkContextResolver (tail q) (unavailable_contexts c).

Definition resolver_clear (c : ContextResolver) : ContextResolver := mkContextResolver [] (unavailable_contexts c).

Definition mark_next_unavailable (now : Z) (c : ContextResolver) : ContextResolver :=
  match find_next c with
  | Some (next, _, _) => mkContextResolver (queue c) (unavailable_insert next now (unavailable_contexts c))
  | None => c
  end.
End Resolver.

(** ** Fetching *)

Inductive Fetch := FetchContext (uri : string) | FetchAutoplay (context_uri : string) (recent_track_uri : list string).

(** What [get_next_context] asks the server for. *)
Definition next_fetch (recent_track_uri : list string) (c : ContextResolver) : res ContextResolverError Fetch :=
  match find_next c with
  | None => Err NoNext
  | Some (next, uri, _) =>
      match update next with
      | CDefault => Ok (FetchContext uri)
      | CAutoplay =>
          if str_contains uri "spotify:show:" || str_contains uri "spotify:episode:" then Err (NotAllowedContext uri)
          else Ok (FetchAutoplay uri recent_track_uri)
      end
  end.

(** What it makes of the answer. *)
Definition fetched (c : ContextResolver) (ctx : Context) : Context :=
  match find_next c with
  | Some (next, _, _) =>
      match update next with
      | CDefault =>
          let uri := resolve_context_uri next in
          mkContext (Some uri) (Some (String.append "context://" uri)) (ctx_metadata ctx) (ctx_restrictions ctx)
            (ctx_pages ctx)
      | CAutoplay => ctx
      end
  | None => ctx
  end.

(** ** Applying *)

Inductive RError := RState (e : CError) | RResolver (e : ContextResolverError).

(** Code on the connect state. *)
Definition op {A} (m : M A) : eff ConnectState RError A := zoom (fun s => s) (fun s _ => s) RState m.

Section Apply.
Context `{!QueueHash} `{!Rng}.

Definition apply_next_context (uuid : nat -> nat -> string) (context : Context) (c : ContextResolver)
    : eff ConnectState RError (option (list ResolveContext)) :=
  match find_next c with
  | None => throw (RResolver NoNext)
  | Some (next, _, _) =>
      remaining ← (match action next, ctx_pages context with
        | Append, [page] => op (fill_context_from_page (uuid O) page) ≫= fun _ => mret None
        | Replace, _ =>
            remaining ← catch (op (update_context uuid context (update next)));
            (match resolve next with
             | RContext ctx => modify (fun s => (merge_context (last (ctx_pages ctx)) s).2)
             | RUri _ => mret tt
             end) ;;
            of_res remaining
        | Append, pages => throw (RResolver (UnexpectedPagesSize (length pages)))
        end : eff ConnectState RError (option (list string)));
      mret ((fun uris : list string => append_context <$> uris) <$> remaining)
  end.

(** How the last page of a kind ends the setup. *)
Definition finish_setup (uuid : nat -> string) (new_seed : Z) (next : ResolveContext) (transfer : option TransferState)
    : eff ConnectState RError unit :=
  s ← gets (fun s => s);
  let active_ctx := get_context (cs_active_context s) s in
  match transfer with
  | Some t => op (finish_transfer uuid new_seed t)
  | None =>
      if shuffling_context s && bool_decide (update next = CDefault) then op (shuffle_new new_seed)
      else
        match active_ctx with
        | Ok ctx =>
            if ci_track (sc_index ctx) =? 0
            then
              let uri := pt_uri (track_or_default (current_track s)) in
              let idx := res_ok (find_index_in_context ctx (uri_is uri)) in
              op (reset_playback_to_position (Z.of_nat <$> idx))
            else op fill_up_next_tracks
        | _ => op fill_up_next_tracks
        end
  end.

(** [try_finish] takes the transfer state when it finishes the setup. *)
Definition try_finish (uuid : nat -> string) (new_seed : Z) (transfer : option TransferState) (c : ContextResolver)
    : eff ConnectState RError (bool * option TransferState) :=
  match find_next c with
  | None => mret (false, transfer)
  | Some (next, _, _) =>
      if negb (length (List.filter (fun r => bool_decide (update r = update next)) (queue c)) =? 1)%nat
      then mret (false, transfer)
      else
        active ← gets cs_active_context;
        match update next, active with
        | CDefault, CAutoplay => mret (false, transfer)
        | _, _ =>
            ignore_error (finish_setup uuid new_seed next transfer) ;;
            modify (fun s => update_queue_revision (update_restrictions s)) ;;
            mret (true, None)
        end
  end.
End Apply.

(** ** Invariants *)

(** The pages of a request carry identifiers of bytes. *)
Definition resolve_ok (r : ResolveContext) : Prop := match resolve r with RContext ctx => context_ok ctx | RUri _ => True end.

Record resolver_wf (c : ContextResolver) : Prop := mkResolverWf {
  wf_nodup : NoDup (queue c);
  wf_ok : Forall resolve_ok (queue c)
}.

(** ** Lemmas *)

Lemma keeps_wp {L : Limits} {A} (m : M A) (Q : res CError A -> ConnectState -> Prop) s :
  keeps Inv m -> Inv s -> (forall r s', r <> Panic -> Inv s' -> Q r s') ->
  wp (S := ConnectState) (E := CError) False m Q s.
Proof.
  intros Hm Hs HQ. destruct (Hm s Hs) as [Hp HI]. unfold wp. destruct (m s) as [[a|e|] s']; simpl in *; auto.
Qed.

Lemma wp_op {L : Limits} {A} (m : M A) (Q : res RError A -> ConnectState -> Prop) s :
  keeps Inv m -> Inv s -> (forall r s', r <> Panic -> Inv s' -> Q r s') -> wp False (op m) Q s.
Proof.
  intros Hm Hs HQ. apply wp_zoom. apply keeps_wp; [done..|]. intros [a|e|] s' Hr HI; [by apply HQ..|done].
Qed.

Section Probe.
Context `{Probing}.

Lemma find_next_from_spec i q r uri n :
  find_next_from i q = Some (r, uri, n) ->
  (i <= n)%nat /\ q !! (n - i)%nat = Some r /\ resolve_uri r = Some uri /\
  Forall (fun r => resolve_uri r = None) (take (n - i) q).
Proof.
  revert i; induction q as [|x q IH]; intros i; simpl; [done|].
  destruct (resolve_uri x) as [u|] eqn:E; intros Hn.
  - simplify_eq. replace (n - n)%nat with O by lia. by repeat constructor.
  - apply IH in Hn as (Hi & Hl & Hu & Hf). replace (n - i)%nat with (S (n - S i)) by lia.
    split_and!; [lia|done|done|by constructor].
Qed.

Lemma find_next_from_None i q : find_next_from i q = None <-> Forall (fun r => resolve_uri r = None) q.
Proof.
  revert i; induction q as [|x q IH]; intros i; simpl; [by split; constructor|].
  destruct (resolve_uri x) eqn:E; rewrite Forall_cons, ?IH; [|tauto].
  split; [done|]. intros [? _]. congruence.
Qed.

Lemma find_next_elem c r uri n : find_next c = Some (r, uri, n) -> r ∈ queue c.
Proof. intros (_ & Hl & _)%find_next_from_spec. by eapply list_elem_of_lookup_2. Qed.

Lemma tail_drop {A} (n : nat) (l : list A) : tail (drop n l) = drop (S n) l.
Proof. revert l; induction n as [|n IH]; intros [|x l]; simpl; done. Qed.

(** After the first request that can be resolved nothing that stood before it is left. *)
Lemma removed_queue c : queue (remove_used_and_invalid c) =
  match find_next c with Some (_, _, n) => drop (S n) (queue c) | None => tail (queue c) end.
Proof.
  unfold remove_used_and_invalid. destruct (find_next c) as [[[r u] n]|]; simpl; [|done].
  by rewrite tail_drop.
Qed.

Lemma removed_wf c : resolver_wf c -> resolver_wf (remove_used_and_invalid c).
Proof.
  intros [Hn Ho]. assert (exists n, queue (remove_used_and_invalid c) = drop n (queue c)) as [n Hq].
  { rewrite removed_queue. destruct (find_next c) as [[[r u] n]|]; eauto. exists 1%nat. by destruct (queue c). }
  constructor; rewrite Hq; [by apply (sublist_NoDup _ (queue c)), sublist_drop|by apply Forall_drop].
Qed.

Lemma add_queue now r c :
  queue (resolver_add now r c) = queue c \/ ((r ∉ queue c) /\ queue (resolver_add now r c) = (queue c ++ [r])).
Proof.
  unfold resolver_add. destruct (_ <$> _) as [t|]; [destruct (_ <? _); [|by left]|].
  all: destruct (bool_decide (r ∈ queue c)) eqn:E; simpl; [by left|right; by apply bool_decide_eq_false in E].
Qed.

Lemma add_wf now r c : resolve_ok r -> resolver_wf c -> resolver_wf (resolver_add now r c).
Proof.
  intros Hr [Hn Ho]. destruct (add_queue now r c) as [Hq|[Hr' Hq]]; constructor; rewrite Hq; try done.
  - apply NoDup_app. split_and!; [done|set_solver|apply NoDup_singleton].
  - apply Forall_app. split; [done|by constructor].
Qed.

Lemma add_list_wf now rs c : Forall resolve_ok rs -> resolver_wf c -> resolver_wf (add_list now rs c).
Proof.
  intros Hrs. revert c; induction Hrs as [|r rs Hr Hrs IH]; intros c Hc; simpl; [done|]. by apply IH, add_wf.
Qed.

Lemma marked_wf now c : resolver_wf c -> resolver_wf (mark_next_unavailable now c).
Proof. intros [? ?]. unfold mark_next_unavailable. by destruct (find_next c) as [[[r u] n]|]. Qed.

Lemma cleared_wf c : resolver_wf (resolver_clear c).
Proof. constructor; constructor. Qed.

Lemma is_key_self r t : probed r r = true -> is_key r (r, t) = true.
Proof. intros Hr. unfold is_key. simpl. rewrite Hr. by apply bool_decide_eq_true. Qed.

Lemma position_app_r {A} (f : A -> bool) l x : position f l = None -> f x = true -> position f (l ++ [x]) = Some (length l).
Proof.
  induction l as [|y l IH]; simpl; intros Hl Hx; [by rewrite Hx|]. destruct (f y); [done|].
  destruct (position f l); [done|]. by rewrite IH.
Qed.

Lemma position_insert {A} (f : A -> bool) l i x : position f l = Some i -> f x = true -> position f (<[i := x]> l) = Some i.
Proof.
  revert i; induction l as [|y l IH]; intros i; simpl; [done|]. destruct (f y) eqn:E; intros Hi Hx.
  - simplify_eq. simpl. by rewrite Hx.
  - destruct (position f l) as [j|] eqn:Ej; [|done]. simplify_eq/=. rewrite E, IH; done.
Qed.

Lemma unavailable_get_insert r t m : probed r r = true -> unavailable_get r (unavailable_insert r t m) = Some t.
Proof.
  intros Hr. unfold unavailable_get, unavailable_insert. destruct (position (is_key r) m) as [i|] eqn:E.
  - rewrite (position_insert _ _ _ _ E) by (by apply is_key_self). simpl.
    rewrite list_lookup_insert_eq by (by apply position_lt in E). done.
  - rewrite (position_app_r _ _ _ E) by (by apply is_key_self). simpl. by rewrite list_lookup_middle.
Qed.
End Probe.

Section Effects.
Context `{!QueueHash} {R : Rng} {ROk : RngOk}.


(** Applying an answer keeps the invariant of the connect state; what is left to fetch is asked for by URI. *)
Lemma wp_apply {L : Limits} uuid ctx c s :
  context_ok ctx -> Inv s ->
  wp False (apply_next_context uuid ctx c)
    (fun r s' => Inv s' /\ forall rs, r = Ok (Some rs) -> Forall resolve_ok rs) s.
Proof.
  intros Hctx Hs. unfold apply_next_context. destruct (find_next c) as [[[next u] n]|]; [|by wp_step].
  apply wp_bind. assert (forall r s', Inv s' -> r <> Panic ->
    match r with
    | Ok remaining => wp (E := RError) False (mret ((fun uris : list string => append_context <$> uris) <$> remaining)) (fun r s' =>
        Inv s' /\ forall rs, r = Ok (Some rs) -> Forall resolve_ok rs) s'
    | Err e => Inv s' /\ forall rs, Err (E := RError) e = Ok (Some rs) -> Forall resolve_ok rs
    | Panic => False
    end) as Hk.
  { intros [remaining|e|] s' HI Hp; [|done|done]. wp_step. split; [done|]. intros rs Hrs. simplify_eq.
    destruct remaining; simplify_eq/=. apply Forall_fmap, Forall_true. done. }
  destruct (action next).
  - destruct (ctx_pages ctx) as [|page [|]] eqn:E; [by wp_step|apply wp_bind|by wp_step].
    apply wp_op; [|done|].
    + apply keeps_fill_context_from_page. unfold context_ok in Hctx. rewrite E in Hctx. by inversion Hctx.
    + intros [a|e|] s' Hp HI; [wp_step; by apply (Hk (Ok None))|by apply (Hk (Err e))|done].
  - apply wp_bind, wp_catch. apply wp_op; [by apply keeps_update_context|done|]. intros r s' Hp HI. apply wp_bind.
    destruct (resolve next); wp_step; (apply wp_of_res; [done|]); apply Hk; try done. by apply inv_merge_context.
Qed.

Lemma keeps_finish {L : Limits} uuid seed next transfer s :
  match transfer with Some t => transfer_ok t | None => True end -> Inv s ->
  wp False (finish_setup uuid seed next transfer) (fun _ s' => Inv s') s.
Proof.
  intros Ht Hs. unfold finish_setup. do 2 wp_step. destruct transfer as [t|].
  - apply wp_op; [by apply keeps_finish_transfer|done|done].
  - destruct (_ && _); [apply wp_op; [apply keeps_shuffle_new|done|done]|].
    assert (wp False (op fill_up_next_tracks) (fun _ s' => Inv s') s) by (apply wp_op; [apply keeps_fill_up|done..]).
    destruct (get_context _ s) as [ctx|e|]; [|done|done]. destruct (_ =? 0); [|done].
    apply wp_op; [apply keeps_reset_playback|done|done].
Qed.

Lemma wp_try_finish {L : Limits} uuid seed transfer c s :
  match transfer with Some t => transfer_ok t | None => True end -> Inv s ->
  wp False (try_finish uuid seed transfer c)
    (fun r s' => Inv s' /\ (r = Ok (false, transfer) /\ s' = s \/ r = Ok (true, None))) s.
Proof.
  intros Ht Hs. unfold try_finish. destruct (find_next c) as [[[next u] n]|]; [|wp_step; auto].
  destruct (negb _); [wp_step; auto|]. do 2 wp_step.
  assert (wp (E := RError) False (ignore_error (finish_setup uuid seed next transfer) ;;
            modify (fun s => update_queue_revision (update_restrictions s)) ;; mret (true, None))
    (fun r s' => Inv s' /\ (r = Ok (false, transfer) /\ s' = s \/ r = Ok (true, None))) s) as Hf.
  { do 2 wp_step. wp_use keeps_finish; [|done..]. intros r s' _ HI. cbv beta. wp_run.
    split; [by apply inv_update_queue_revision, inv_update_restrictions|auto]. }
  destruct (update next), (cs_active_context s); try done. wp_step. auto.
Qed.
End Effects.

(** ** Properties *)

(** What could not be fetched is not asked for again within an hour, and is afterwards: a request
    by URI at the head of the queue whose fetch failed at time [t] leaves the queue; adding it again
    at [now] changes nothing while at most 3600 seconds have passed, and queues it once more have. *)
Theorem unavailable_waits `{ProbingOk} (c : ContextResolver) (r : ResolveContext) (u uri : string) (n : nat) (t now : Z)
  (Hwf : resolver_wf c) (Hnext : find_next c = Some (r, u, n)) (Huri : resolve r = RUri uri) :
  let c' := remove_used_and_invalid (mark_next_unavailable t c) in
  (r ∉ queue c') /\
  (now - t <= RETRY_UNAVAILABLE -> resolver_add now r c' = c') /\
  (RETRY_UNAVAILABLE < now - t -> r ∈ queue (resolver_add now r c')).
Proof.
  cbv zeta. assert (find_next (mark_next_unavailable t c) = Some (r, u, n)) as Hf.
  { unfold mark_next_unavailable. by rewrite Hnext. }
  assert (r ∉ queue (remove_used_and_invalid (mark_next_unavailable t c))) as Hr.
  { rewrite removed_queue, Hf. unfold mark_next_unavailable. rewrite Hnext. simpl.
    apply find_next_from_spec in Hnext as (_ & Hl & _). rewrite Nat.sub_0_r in Hl.
    intros Hin. apply list_elem_of_lookup in Hin as [j Hj]. rewrite lookup_drop in Hj.
    pose proof (NoDup_lookup _ _ _ _ (wf_nodup c Hwf) Hl Hj). lia. }
  split; [done|]. unfold resolver_add.
  replace (unavailable_get r _) with (Some t).
  2:{ unfold remove_used_and_invalid. rewrite Hf. unfold mark_next_unavailable. rewrite Hnext. simpl.
      by rewrite unavailable_get_insert by (by eapply probed_uri). }
  simpl. split; intros Ht.
  - unfold RETRY_UNAVAILABLE in *. rewrite (proj2 (Z.ltb_ge _ _)) by lia. done.
  - unfold RETRY_UNAVAILABLE in *. rewrite (proj2 (Z.ltb_lt _ _)) by lia. rewrite bool_decide_false by done. simpl. set_solver.
Qed.

(** One round of the controller in which the fetch fails ([handle_next_context] with an error). *)
Definition failed_round `{Probing} (now : Z) (c : ContextResolver) : ContextResolver :=
  remove_used_and_invalid (mark_next_unavailable now c).

(** Resolving ends even when nothing can be fetched: every failed round shortens the queue, so that
    after as many rounds as there are requests nothing is left to do. *)
Theorem failed_rounds_end `{Probing} (times : list Z) (c : ContextResolver)
  (Hlen : (length (queue c) <= length times)%nat) :
  queue (foldl (fun c now => failed_round now c) c times) = [].
Proof.
  revert c Hlen; induction times as [|t times IH]; intros c Hlen; simpl in *.
  - destruct (queue c); [done|simpl in Hlen; lia].
  - apply IH. unfold failed_round. rewrite removed_queue.
    replace (queue (mark_next_unavailable t c)) with (queue c)
      by (unfold mark_next_unavailable; by destruct (find_next c) as [[[? ?] ?]|]).
    destruct (find_next _) as [[[? ?] n]|]; [rewrite length_drop; lia|]. destruct (queue c); simpl in *; lia.
Qed.

(** ** Witnesses *)

Definition ex_probing : Probing := fun _ _ => true.
Definition ex_resolver : ContextResolver := mkContextResolver [append_context "spotify:album:a"; append_context "b"] [].

Lemma unavailable_waits_witness :
  resolver_add (H := ex_probing) 5 (append_context "spotify:album:a")
    (remove_used_and_invalid (mark_next_unavailable (H := ex_probing) 3 ex_resolver)) =
  remove_used_and_invalid (mark_next_unavailable (H := ex_probing) 3 ex_resolver).
Proof.
  destruct (@unavailable_waits ex_probing (fun _ _ _ => eq_refl) ex_resolver (append_context "spotify:album:a")
    "spotify:album:a" "spotify:album:a" 0 3 5) as (_ & Hw & _).
  - constructor; [apply (bool_decide_unpack _); by vm_compute|repeat constructor].
  - by vm_compute.
  - done.
  - apply Hw. vm_compute. congruence.
Defined.

Lemma failed_rounds_end_witness :
  queue (foldl (fun c now => failed_round (H := ex_probing) now c) ex_resolver [1; 2]) = [].
Proof. apply (@failed_rounds_end ex_probing). vm_compute. lia. Defined.
