(* ===== verification/Spirc.v ===== *)
(** * The connect controller ([native/librespot/connect/src/spirc.rs])

    [SpircTask] is the program's centre: it receives the requests of other devices, the commands of
    the user and the events of the player, changes the connect state, tells the player what to do
    and reports the state to the server. This file holds its state, every handler and the event
    loop; the properties are in [SpircSkip] and [SpircSpec].

    Handlers run in [T], which passes the state, keeps the changes of a failed handler and has
    [Panic] when a handler does not return: the program exits, panics, or a loop is still running
    when its fuel is used up. Everything the task does to the rest of the world is appended to
    [trace], in order. The answers of the server, the clocks and the random numbers are given by
    [Env] as functions of [ticks], the number of such reads so far. The player gets its commands
    through a channel ([ToPlayer]); its commands and events are those of [Player]. Waiting for an
    answer is not a state of its own, because the task handles nothing else meanwhile. Log output
    is left out. *)
From S2P Require Import Prelude Text ShuffleVec SpotifyId SpotifyUri Session Player Protocol Config ConnectState ConnectContext ConnectTracks ConnectHandle ContextResolver Effect.

(** ** Data *)

Inductive SpircError :=
| SpNoData
| SpNoUri (what : string)
| SpInvalidUri (uri : string)
| FailedDealerSetup
| UnknownEndpoint
| EConnect (e : CError)
| EResolver (e : ContextResolverError)
| EService
| EUtf8
| ETryFromInt
| EReply.

(** What the controller reads of the server's view of all devices; the transferred state may be
    absent, or fail to parse. *)
Record Cluster := mkCluster { cl_active_device_id : string; cl_session_id : string;
  cl_transfer_data : option (option TransferState) }.

(** What the session knows: [sp_data] holds the attributes, the time difference and whether the
    session has ended. *)
Record SpSession := mkSpSession { sp_connection_id : string; sp_username : string; sp_client_id : string;
  sp_client_name : string; sp_client_brand_name : string; sp_client_model_name : string; sp_device_id : string;
  sp_session_id : string; sp_autoplay_override : option bool; sp_has_cache : bool; sp_data : SessionData }.

Definition set_sp_connection_id (v : string) (s : SpSession) : SpSession := mkSpSession v (sp_username s)
  (sp_client_id s) (sp_client_name s) (sp_client_brand_name s) (sp_client_model_name s) (sp_device_id s)
  (sp_session_id s) (sp_autoplay_override s) (sp_has_cache s) (sp_data s).
Definition set_sp_session_id (v : string) (s : SpSession) : SpSession := mkSpSession (sp_connection_id s)
  (sp_username s) (sp_client_id s) (sp_client_name s) (sp_client_brand_name s) (sp_client_model_name s)
  (sp_device_id s) v (sp_autoplay_override s) (sp_has_cache s) (sp_data s).
Definition set_sp_attributes (v : gmap string string) (s : SpSession) : SpSession := mkSpSession (sp_connection_id s)
  (sp_username s) (sp_client_id s) (sp_client_name s) (sp_client_brand_name s) (sp_client_model_name s)
  (sp_device_id s) (sp_session_id s) (sp_autoplay_override s) (sp_has_cache s)
  (mkSessionData (time_delta (sp_data s)) (invalid (sp_data s)) (country (sp_data s)) v).

Definition get_user_attribute (key : string) (s : SpSession) : option string := attributes (sp_data s) !! key.

(** [matches!(value, "1")] *)
Definition is_one (value : option string) : bool := match value with Some v => String.eqb v "1" | None => false end.

Definition filter_explicit_content (s : SpSession) : bool := is_one (get_user_attribute "filter-explicit-content" s).

(** [Session::autoplay] *)
Definition session_autoplay (s : SpSession) : bool :=
  match sp_autoplay_override s with
  | Some override => override
  | None => is_one (get_user_attribute "autoplay" s)
  end.

(** *** Requests of other devices ([core/src/dealer/protocol/request.rs]) *)

Record PlayOptions := mkPlayOptions { skip_to : option SkipTo; player_options_override : option ContextPlayerOptions;
  play_seek_to : option Z }.

Inductive Command :=
| CTransfer (data : option TransferState)
| CPlay (context : Context) (play_origin : PlayerPlayOrigin) (options : PlayOptions)
| CPause
| CSeekTo (value position : Z)
| CSetShufflingContext (value : bool)
| CSetRepeatingTrack (value : bool)
| CSetRepeatingContext (value : bool)
| CAddToQueue (track : ProvidedTrack)
| CSetQueue (next_tracks prev_tracks : list ProvidedTrack)
| CSetOptions (shuffling_context repeating_context repeating_track : option bool)
| CUpdateContext (context : Context)
| CSkipNext (track : option ProvidedTrack)
| CSkipPrev
| CResume
| CUnknown.

Record Request := mkRequest { message_id : Z; sent_by_device_id : string; request_command : Command }.

(** *** Commands of the user *)

Inductive SpircCommand :=
| SpPlay
| SpPlayPause
| SpPause
| SpPrev
| SpNext
| SpVolumeUp
| SpVolumeDown
| SpShutdown
| SpShuffle (b : bool)
| SpRepeat (b : bool)
| SpRepeatTrack (b : bool)
| SpDisconnect (pause : bool)
| SpSetPosition (position_ms : Z)
| SpSetVolume (volume : Z)
| SpActivate
| SpTransfer
| SpLoad (request : LoadRequest)
| SpAddToQueue (uri : SpotifyUri)
| SpClearQueue.

(** [Spirc::add_to_queue]: what the handle lets through. *)
Definition spirc_add_to_queue (uri : SpotifyUri) : option SpircCommand :=
  match uri with
  | Track _ | Episode _ | Album _ | Playlist _ _ => Some (SpAddToQueue uri)
  | _ => None
  end.

Definition CONTEXT_FETCH_THRESHOLD : nat := 2.

(** *** Effects *)

Inductive Action :=
| ToPlayer (c : PlayerCommand)
| PutState (r : PutStateRequest)
| PutInactive
| DeleteState
| TransferHere (device_id : string)
| Fetched (f : Fetch)
| SaveVolume (volume : Z)
| ReplySent (success : bool)
| DealerStart
| DealerClose.

(** The rest of the world. [system_time] is in nanoseconds from the epoch, [instant] is the monotonic
    clock in nanoseconds. [random_below t n] is drawn from the numbers below [n]. A server request that
    fails has the answer [None] or [false]; the answer to a state update may fail to parse. *)
Class Env {B : Backend} := {
  Mixer : Type;
  mixer_volume : Mixer -> Z;
  mixer_set_volume : Z -> Mixer -> Mixer;
  item_duration_ms : AudioItem -> Z;
  system_time : nat -> Z;
  instant : nat -> Z;
  random_seed : nat -> Z;
  random_below : nat -> nat -> Z;
  random_uid : nat -> nat -> nat -> string;
  put_state : nat -> PutStateRequest -> option (option Cluster);
  put_inactive : nat -> bool;
  transfer_here : nat -> bool;
  answer : nat -> Fetch -> option Context;
  reply_received : nat -> bool;
  dealer_start : nat -> bool
}.

(** The rounds a loop without a bound of its own is followed. *)
Class Fuel := fuel : nat.

Section Spirc.
Context {B : Backend} {E : Env} `{!Probing} `{!QueueHash} `{!Rng}.

Record SpircTask := mkSpircTask {
  connect_state : ConnectState;
  connect_established : bool;
  play_request_id : option Z;
  play_status : SpircPlayStatus;
  resolver : ContextResolver;
  emit_set_queue_events : bool;
  commands_open : bool;
  closing : bool;
  transfer_state : option TransferState;
  update_volume : bool;
  update_state : bool;
  mixer : Mixer;
  session : SpSession;
  trace : list Action;
  ticks : nat
}.

Definition set_connect_state (v : ConnectState) (s : SpircTask) : SpircTask := mkSpircTask v
  (connect_established s) (play_request_id s) (play_status s) (resolver s) (emit_set_queue_events s)
  (commands_open s) (closing s) (transfer_state s) (update_volume s) (update_state s) (mixer s) (session s)
  (trace s) (ticks s).
Definition set_connect_established (v : bool) (s : SpircTask) : SpircTask := mkSpircTask (connect_state s) v
  (play_request_id s) (play_status s) (resolver s) (emit_set_queue_events s) (commands_open s) (closing s)
  (transfer_state s) (update_volume s) (update_state s) (mixer s) (session s) (trace s) (ticks s).
Definition set_play_request_id (v : option Z) (s : SpircTask) : SpircTask := mkSpircTask (connect_state s)
  (connect_established s) v (play_status s) (resolver s) (emit_set_queue_events s) (commands_open s) (closing
  s) (transfer_state s) (update_volume s) (update_state s) (mixer s) (session s) (trace s) (ticks s).
Definition set_play_status (v : SpircPlayStatus) (s : SpircTask) : SpircTask := mkSpircTask (connect_state s)
  (connect_established s) (play_request_id s) v (resolver s) (emit_set_queue_events s) (commands_open s)
  (closing s) (transfer_state s) (update_volume s) (update_state s) (mixer s) (session s) (trace s) (ticks s).
Definition set_resolver (v : ContextResolver) (s : SpircTask) : SpircTask := mkSpircTask (connect_state s)
  (connect_established s) (play_request_id s) (play_status s) v (emit_set_queue_events s) (commands_open s)
  (closing s) (transfer_state s) (update_volume s) (update_state s) (mixer s) (session s) (trace s) (ticks s).
Definition set_emit_set_queue_events (v : bool) (s : SpircTask) : SpircTask := mkSpircTask (connect_state s)
  (connect_established s) (play_request_id s) (play_status s) (resolver s) v (commands_open s) (closing s)
  (transfer_state s) (update_volume s) (update_state s) (mixer s) (session s) (trace s) (ticks s).
Definition set_commands_open (v : bool) (s : SpircTask) : SpircTask := mkSpircTask (connect_state s)
  (connect_established s) (play_request_id s) (play_status s) (resolver s) (emit_set_queue_events s) v
  (closing s) (transfer_state s) (update_volume s) (update_state s) (mixer s) (session s) (trace s) (ticks s).
Definition set_closing (v : bool) (s : SpircTask) : SpircTask := mkSpircTask (connect_state s)
  (connect_established s) (play_request_id s) (play_status s) (resolver s) (emit_set_queue_events s)
  (commands_open s) v (transfer_state s) (update_volume s) (update_state s) (mixer s) (session s) (trace s)
  (ticks s).
Definition set_transfer_state (v : option TransferState) (s : SpircTask) : SpircTask := mkSpircTask
  (connect_state s) (connect_established s) (play_request_id s) (play_status s) (resolver s)
  (emit_set_queue_events s) (commands_open s) (closing s) v (update_volume s) (update_state s) (mixer s)
  (session s) (trace s) (ticks s).
Definition set_update_volume (v : bool) (s : SpircTask) : SpircTask := mkSpircTask (connect_state s)
  (connect_established s) (play_request_id s) (play_status s) (resolver s) (emit_set_queue_events s)
  (commands_open s) (closing s) (transfer_state s) v (update_state s) (mixer s) (session s) (trace s) (ticks
  s).
Definition set_update_state (v : bool) (s : SpircTask) : SpircTask := mkSpircTask (connect_state s)
  (connect_established s) (play_request_id s) (play_status s) (resolver s) (emit_set_queue_events s)
  (commands_open s) (closing s) (transfer_state s) (update_volume s) v (mixer s) (session s) (trace s) (ticks
  s).
Definition set_mixer (v : Mixer) (s : SpircTask) : SpircTask := mkSpircTask (connect_state s)
  (connect_established s) (play_request_id s) (play_status s) (resolver s) (emit_set_queue_events s)
  (commands_open s) (closing s) (transfer_state s) (update_volume s) (update_state s) v (session s) (trace s)
  (ticks s).
Definition set_session (v : SpSession) (s : SpircTask) : SpircTask := mkSpircTask (connect_state s)
  (connect_established s) (play_request_id s) (play_status s) (resolver s) (emit_set_queue_events s)
  (commands_open s) (closing s) (transfer_state s) (update_volume s) (update_state s) (mixer s) v (trace s)
  (ticks s).
Definition set_trace (v : list Action) (s : SpircTask) : SpircTask := mkSpircTask (connect_state s)
  (connect_established s) (play_request_id s) (play_status s) (resolver s) (emit_set_queue_events s)
  (commands_open s) (closing s) (transfer_state s) (update_volume s) (update_state s) (mixer s) (session s) v
  (ticks s).
Definition set_ticks (v : nat) (s : SpircTask) : SpircTask := mkSpircTask (connect_state s)
  (connect_established s) (play_request_id s) (play_status s) (resolver s) (emit_set_queue_events s)
  (commands_open s) (closing s) (transfer_state s) (update_volume s) (update_state s) (mixer s) (session s)
  (trace s) v.

Abbreviation T := (eff SpircTask SpircError).

(** ** Access to the parts *)

(** A method of the connect state. *)
Definition conn {A} (m : M A) : T A := zoom connect_state set_connect_state EConnect m.
Definition cmod (f : ConnectState -> ConnectState) : T unit := modify (fun s => set_connect_state (f (connect_state s)) s).
Definition cget {A} (f : ConnectState -> A) : T A := gets (fun s => f (connect_state s)).

Definition emit (a : Action) : T unit := modify (fun s => set_trace (trace s ++ [a]) s).
Definition tell (c : PlayerCommand) : T unit := emit (ToPlayer c).
Definition tick : T nat := state (fun s => (ticks s, set_ticks (S (ticks s)) s)).

Definition now_ms : T Z :=
  t ← tick;
  delta ← gets (fun s => time_delta (sp_data (session s)));
  mret (i64 (i64 (Z.abs (system_time t) / 1000000) + i64 (1000 * delta))).

Definition add_resolve (r : ResolveContext) : T unit :=
  t ← tick;
  modify (fun s => set_resolver (resolver_add (instant t) r (resolver s)) s).

Definition set_play_status_to (st : SpircPlayStatus) : T unit := modify (set_play_status st).

Definition current_uri (s : ConnectState) : string := pt_uri (track_or_default (current_track s)).

(** ** Reporting the state *)

Definition send_put (put : T (option (option Cluster))) : T (option Cluster) :=
  r ← put;
  match r with Some c => mret c | None => throw EService end.

Definition put_request (r : PutStateRequest) : T (option (option Cluster)) :=
  t ← tick; emit (PutState r) ;; mret (put_state t r).

Definition notify : T unit :=
  st ← gets play_status;
  cmod (set_status st) ;;
  playing ← cget is_playing;
  (if playing : bool then now ← now_ms; cmod (update_position_in_relation now) else mret tt) ;;
  now ← now_ms;
  cmod (set_now (wrap 64 now)) ;;
  c ← gets connect_state;
  send_put (send_state put_request c) ≫= fun _ => mret tt.

Definition update_position_now (position_ms : Z) : T unit :=
  now ← now_ms; cmod (update_position position_ms now).

(** ** Volume *)

Definition set_task_volume (volume : Z) : T unit :=
  old_volume ← cget (fun c => di_volume (device_info c));
  current ← gets (fun s => mixer_volume (mixer s));
  if negb (old_volume =? volume) || negb (current =? volume) then
    modify (set_update_volume true) ;;
    cmod (set_volume volume) ;;
    modify (fun s => set_mixer (mixer_set_volume volume (mixer s)) s) ;;
    cached ← gets (fun s => sp_has_cache (session s));
    (if cached : bool then emit (SaveVolume volume) else mret tt) ;;
    active ← cget is_active;
    (if active : bool then tell (EmitVolumeChangedEvent volume) else mret tt)
  else mret tt.

Definition handle_volume_up : T unit :=
  v ← cget (fun c => Z.min (2 ^ 16 - 1) (wrap 16 (di_volume (device_info c)) + cs_volume_step_size c));
  set_task_volume v.

Definition handle_volume_down : T unit :=
  v ← cget (fun c => Z.max 0 (wrap 16 (di_volume (device_info c)) - cs_volume_step_size c));
  set_task_volume v.

(** ** Playback *)

Definition queue_track (t : ProvidedTrack) : QueueTrack := mkQueueTrack (pt_uri t) (pt_provider t).

Definition emit_set_queue_event : T unit :=
  enabled ← gets emit_set_queue_events;
  if negb enabled then mret tt
  else
    c ← gets connect_state;
    tell (EmitSetQueueEvent (context_uri c) (queue_track <$> current_track c) (queue_track <$> next_tracks c)
      (queue_track <$> prev_tracks c)).

Definition handle_stop : T unit :=
  tell CmdStop ;;
  update_position_now 0 ;;
  cmod clear_next_tracks ;;
  ignore_error (conn (reset_playback_to_position None)).

Definition load_track (start_playing : bool) (position_ms : Z) : T unit :=
  track ← cget current_track;
  match track with
  | None => handle_stop
  | Some track =>
      id ← of_res (match from_uri (pt_uri track) with
                   | Ok id => Ok id
                   | Err e => Err (EConnect (EUri e))
                   | Panic => Panic
                   end);
      tell (CmdLoad id start_playing position_ms) ;;
      update_position_now position_ms ;;
      set_play_status_to (if start_playing then LoadingPlay position_ms else LoadingPause position_ms) ;;
      st ← gets play_status;
      cmod (set_status st)
  end.

Definition handle_play : T unit :=
  st ← gets play_status;
  match st with
  | Paused position_ms preloading =>
      tell CmdPlay ;;
      update_position_now position_ms ;;
      now ← now_ms;
      set_play_status_to (Playing (i64 (now - position_ms)) preloading) ;;
      v ← gets (fun s => mixer_volume (mixer s));
      set_task_volume v
  | LoadingPause position_ms =>
      tell CmdPlay ;;
      set_play_status_to (LoadingPlay position_ms) ;;
      v ← gets (fun s => mixer_volume (mixer s));
      set_task_volume v
  | _ => mret tt
  end.

Definition handle_pause : T unit :=
  st ← gets play_status;
  match st with
  | Playing nominal_start_time preloading =>
      tell CmdPause ;;
      now ← now_ms;
      let position_ms := wrap 32 (i64 (now - nominal_start_time)) in
      update_position_now position_ms ;;
      set_play_status_to (Paused position_ms preloading)
  | LoadingPlay position_ms =>
      tell CmdPause ;;
      set_play_status_to (LoadingPause position_ms)
  | _ => mret tt
  end.

Definition handle_play_pause : T unit :=
  st ← gets play_status;
  match st with
  | Paused _ _ | LoadingPause _ => handle_play
  | Playing _ _ | LoadingPlay _ => handle_pause
  | Stopped => mret tt
  end.

Definition seek_status (now position_ms : Z) (st : SpircPlayStatus) : SpircPlayStatus :=
  match st with
  | Stopped => Stopped
  | LoadingPause _ => LoadingPause position_ms
  | LoadingPlay _ => LoadingPlay position_ms
  | Paused _ preloading => Paused position_ms preloading
  | Playing _ preloading => Playing (i64 (now - position_ms)) preloading
  end.

Definition handle_seek (position_ms : Z) : T unit :=
  duration ← cget (fun c => ps_duration (player c));
  if duration <? position_ms then mret tt
  else
    update_position_now position_ms ;;
    tell (CmdSeek position_ms) ;;
    now ← now_ms;
    modify (fun s => set_play_status (seek_status now position_ms (play_status s)) s).

Definition position : T Z :=
  st ← gets play_status;
  match st with
  | Stopped => mret 0
  | LoadingPlay position_ms | LoadingPause position_ms | Paused position_ms _ => mret position_ms
  | Playing nominal_start_time _ => now ← now_ms; mret (wrap 32 (i64 (now - nominal_start_time)))
  end.

Definition handle_shuffle (value : bool) : T unit :=
  tell (EmitShuffleChangedEvent value) ;;
  t ← tick;
  conn (ConnectHandle.handle_shuffle (random_seed t) value).

Definition handle_repeat_context (repeat : bool) : T unit :=
  track ← cget repeat_track;
  tell (EmitRepeatChangedEvent repeat track) ;;
  conn (handle_set_repeat_context repeat).

Definition handle_repeat_track (repeat : bool) : T unit :=
  context ← cget repeat_context;
  tell (EmitRepeatChangedEvent context repeat) ;;
  cmod (set_repeat_track repeat).

(** ** Autoplay and preloading *)

Definition add_autoplay_resolving_when_required : T unit :=
  autoplay ← gets (fun s => session_autoplay (session s));
  c ← gets connect_state;
  if negb (negb (has_next_tracks (Some CONTEXT_FETCH_THRESHOLD) c) && autoplay && negb (is_empty (context_uri c)))
  then mret tt
  else
    let has_tracks :=
      match get_context CAutoplay c with Ok c => negb (is_nil (vec (sc_tracks c))) | _ => false end in
    add_resolve (resolve_from_uri (context_uri c) (current_uri c) CAutoplay (if has_tracks then Append else Replace)).

Definition trigger_preload (st : SpircPlayStatus) : SpircPlayStatus :=
  match st with
  | Paused position_ms _ => Paused position_ms true
  | Playing nominal_start_time _ => Playing nominal_start_time true
  | st => st
  end.

Definition handle_preload_next_track : T unit :=
  modify (fun s => set_play_status (trigger_preload (play_status s)) s) ;;
  next ← cget preview_next_track;
  match next with
  | Some track_id => tell (CmdPreload track_id)
  | None => mret tt
  end.

Definition handle_unavailable (track_id : SpotifyUri) : T unit :=
  conn (mark_unavailable track_id) ;;
  handle_preload_next_track.

(** ** Skipping *)

(** The loop of [handle_next]: it ends when the track asked for is reached. *)
Fixpoint next_loop (fuel : nat) (track_uri : option string) : T bool :=
  match fuel with
  | O => stop
  | S fuel =>
      index ← conn next_track;
      current ← cget current_uri;
      if match track_uri with Some uri => negb (String.eqb current uri) | None => false end
      then next_loop fuel track_uri
      else mret (match index with Some _ => true | None => false end)
  end.

Definition handle_next `{!Fuel} (track_uri : option string) : T unit :=
  continue_playing ← cget is_playing;
  current ← cget current_uri;
  has_next_track ←
    (if match track_uri with Some uri => String.eqb current uri | None => false end then mret true
     else next_loop fuel track_uri);
  if has_next_track : bool then
    add_autoplay_resolving_when_required ;;
    load_track continue_playing 0
  else handle_stop.

Definition handle_prev : T unit :=
  position ← position;
  if position <? 3000 then
    repeat ← cget repeat_context;
    prev ← conn prev_track;
    match prev with
    | None =>
        if repeat : bool then conn (reset_playback_to_position None)
        else conn (reset_playback_to_position None) ;; handle_stop
    | Some _ => playing ← cget is_playing; load_track playing 0
    end
  else handle_seek 0.

(** ** The device becomes active or inactive *)

Definition handle_activate : T unit :=
  t ← tick;
  cmod (set_active (system_time t / 1000000) true) ;;
  se ← gets session;
  tell (EmitSessionConnectedEvent (sp_connection_id se) (sp_username se)) ;;
  tell (EmitSessionClientChangedEvent (sp_client_id se) (sp_client_name se) (sp_client_brand_name se)
    (sp_client_model_name se)) ;;
  c ← gets connect_state;
  tell (EmitVolumeChangedEvent (wrap 16 (di_volume (device_info c)))) ;;
  tell (EmitAutoPlayChangedEvent (session_autoplay se)) ;;
  tell (EmitFilterExplicitContentChangedEvent (filter_explicit_content se)) ;;
  tell (EmitShuffleChangedEvent (shuffling_context c)) ;;
  tell (EmitRepeatChangedEvent (repeat_context c) (repeat_track c)).

(** [self.connect_state.became_inactive(&self.session).await?] *)
Definition become_inactive : T unit :=
  conn (became_inactive tt) ;;
  t ← tick;
  emit PutInactive ;;
  if put_inactive t then mret tt else throw EService.

Definition handle_disconnect : T unit :=
  modify (fun s => set_resolver (resolver_clear (resolver s)) s) ;;
  set_play_status_to Stopped ;;
  now ← now_ms;
  cmod (update_position_in_relation now) ;;
  notify ;;
  become_inactive ;;
  se ← gets session;
  tell (EmitSessionDisconnectedEvent (sp_connection_id se) (sp_username se)).

(** ** Resolving contexts *)

Definition resolver_error (e : RError) : SpircError :=
  match e with RState e => EConnect e | RResolver e => EResolver e end.

(** The fetched context becomes part of the state; further pages are queued, and an error is logged. *)
Definition apply_context (ctx : Context) : T unit :=
  t ← tick;
  res ← gets resolver;
  applied ← catch (zoom connect_state set_connect_state resolver_error (apply_next_context (random_uid t) ctx res));
  match applied with
  | Ok (Some remaining) => modify (fun s => set_resolver (add_list (instant t) remaining (resolver s)) s)
  | _ => mret tt
  end.

(** [try_finish], and what follows when it did finish the setup. *)
Definition finish_context : T bool :=
  t ← tick;
  transfer ← gets transfer_state;
  res ← gets resolver;
  finished ← zoom connect_state set_connect_state resolver_error
               (try_finish (random_uid t O) (random_seed t) transfer res);
  modify (set_transfer_state finished.2) ;;
  (if finished.1 : bool then add_autoplay_resolving_when_required ;; emit_set_queue_event else mret tt) ;;
  mret finished.1.

Definition handle_next_context (next_context : option Context) : T bool :=
  match next_context with
  | None =>
      t ← tick;
      modify (fun s => set_resolver (remove_used_and_invalid (mark_next_unavailable (instant t) (resolver s))) s) ;;
      mret false
  | Some ctx =>
      apply_context ctx ;;
      update_state ← finish_context;
      modify (fun s => set_resolver (remove_used_and_invalid (resolver s)) s) ;;
      mret update_state
  end.

(** [get_next_context(..).await]; its error is only logged. *)
Definition get_next_context (recent_track_uri : list string) : T (option Context) :=
  res ← gets resolver;
  match next_fetch recent_track_uri res with
  | Ok f =>
      t ← tick;
      emit (Fetched f) ;;
      mret (fetched res <$> answer t f)
  | _ => mret None
  end.

Definition WEB_API_URI : string := "spotify:web-api".

Definition load_context_from_tracks (page : ContextPage) : T unit :=
  t ← tick;
  conn (update_context (random_uid t)
    (mkContext (Some WEB_API_URI) (Some (String.append "context://" WEB_API_URI)) ∅ None [page]) CDefault) ≫= fun _ =>
  emit_set_queue_event.

Definition load_context_from_uri (context_uri : string) (page : option ContextPage) (autoplay : bool) : T unit :=
  active ← cget is_active;
  (if active : bool then mret tt else handle_activate) ;;
  let update_context := if autoplay then CAutoplay else CDefault in
  cmod (set_active_context update_context) ;;
  fallback ←
    (match page with
     | Some page =>
         match find_valid_uri (Some context_uri) (Some page) with
         | Some ctx_uri => mret ctx_uri
         | None => throw (SpInvalidUri context_uri)
         end
     | None => mret context_uri
     end);
  current ← cget ConnectState.context_uri;
  if String.eqb current context_uri && String.eqb fallback context_uri then mret tt
  else
    modify (fun s => set_resolver (resolver_clear (resolver s)) s) ;;
    add_resolve (resolve_from_uri context_uri fallback update_context Replace) ;;
    context ← get_next_context [];
    handle_next_context context ≫= fun _ => mret tt.

(** ** Loading *)

(** The position of the track to play; a track that is not found is played from the fallback. *)
Definition load_index (playing : option PlayingTrack) (fallback_index : option Z) : T (option Z) :=
  let find f :=
    ctx ← conn (attempt (get_context CDefault));
    mret (Some (match find_index_in_context ctx f with
                | Ok i => Z.of_nat i
                | _ => default 0 fallback_index
                end)) in
  match playing with
  | None => mret None
  | Some (PtIndex i) => mret (Some i)
  | Some (PtUri uri) => find (fun t => String.eqb (pt_uri t) uri)
  | Some (PtUid uid) => find (fun t => String.eqb (pt_uid t) uid)
  end.

Definition handle_load (cmd : LoadRequest) (page : option ContextPage) (fallback_index : option Z) : T unit :=
  conn (reset_context (match lr_context cmd with PcUri uri => WhenDifferent uri | PcTracks _ => Completely end)) ;;
  cmod reset_options ;;
  let options := lr_options cmd in
  let autoplay := match context_options options with Some LcAutoplay => true | _ => false end in
  (match lr_context cmd with
   | PcUri uri => load_context_from_uri uri page autoplay
   | PcTracks tracks => load_context_from_tracks (page_of_uris tracks)
   end) ;;
  cmod (set_active_context CDefault) ;;
  cmod (fun c => (merge_context page c).2) ;;
  cmod (fun c => clear_restrictions (clear_next_tracks c)) ;;
  index ← load_index (playing_track options) fallback_index;
  (match context_options options with
   | Some (LcOptions o) =>
       cmod (fun c => set_repeat_track (op_repeat_track o) (set_repeat_context (op_repeat o) (set_shuffle (op_shuffle o) c)))
   | _ => mret tt
   end) ;;
  (if match context_options options with Some (LcOptions o) => op_shuffle o | _ => false end then
     (match index with
      | Some index => conn (set_current_track index)
      | None => t ← tick; conn (set_current_track_random (random_below t))
      end) ;;
     waiting ← gets (fun s => has_next (resolver s));
     if waiting : bool then cmod update_queue_revision
     else
       t ← tick;
       conn (shuffle_new (random_seed t)) ;;
       add_autoplay_resolving_when_required
   else
     conn (set_current_track (default 0 index)) ;;
     conn (reset_playback_to_position index) ;;
     add_autoplay_resolving_when_required) ;;
  track ← cget current_track;
  match track with
  | Some _ => load_track (start_playing options) (seek_to options)
  | None => handle_stop
  end.

Definition queue_uris (uris : list string) : ConnectState -> ConnectState :=
  fun c => foldl (fun c uri => add_to_queue (mkProvidedTrack uri EmptyString ∅ EmptyString) true c) c uris.

(** The URIs of all tracks of the pages. *)
Definition page_uris (pages : list ContextPage) : list string :=
  omap (fun t => ct_uri t) (concat (pg_tracks <$> pages)).

Definition handle_add_to_queue (uri : SpotifyUri) : T unit :=
  let queued uris := cmod (queue_uris uris) ;; emit_set_queue_event in
  let printed := match to_uri uri with Ok u => Ok u | Err e => Err (EConnect (EId e)) | Panic => Panic end in
  match uri with
  | Track _ | Episode _ => u ← of_res printed; queued [u]
  | Album _ | Playlist _ _ =>
      u ← of_res printed;
      t ← tick;
      emit (Fetched (FetchContext u)) ;;
      match answer t (FetchContext u) with
      | Some context => queued (page_uris (ctx_pages context))
      | None => mret tt
      end
  | _ => mret tt
  end.

(** ** Taking over playback *)

(** The position to continue at: playback went on since the position was recorded. *)
Definition transfer_position (timestamp : Z) (pb : TransferPlayback) : Z :=
  match tp_position_as_of_timestamp pb with
  | Some position =>
      if default false (tp_is_paused pb) then position
      else if 0 <? position then i64 (position + i64 (timestamp - default 0 (tp_timestamp pb)))
      else 0
  | None => 0
  end.

Definition handle_transfer (transfer : TransferState) : T unit :=
  let context := default Context_default (ts_context (transfer_session transfer)) in
  ctx_uri ←
    (match ctx_uri context with
     | None => throw (SpNoUri "transfer context")
     | Some uri => mret (if String.eqb uri "-" || is_empty uri then None else Some uri)
     end);
  conn (reset_context (match ctx_uri with Some uri => WhenDifferent uri | None => Completely end)) ;;
  t ← tick;
  found ← catch (conn (attempt (current_track_from_transfer (random_uid t O O) transfer)));
  (match found with Ok track => cmod (set_track track) | _ => mret tt end) ;;
  autoplay ← cget (fun c => is_autoplay (track_or_default (current_track c)));
  let ctx_uri := if autoplay : bool then replace_str "station:" EmptyString <$> ctx_uri else ctx_uri in
  fallback ← cget current_uri;
  let load_from_context_uri := match ctx_uri with Some _ => true | None => false end in
  ctx_uri ←
    (match ctx_uri with
     | Some uri => add_resolve (resolve_from_uri uri fallback CDefault Replace) ;; mret (Some uri)
     | None =>
         let all_tracks := concat (pg_tracks <$> ctx_pages context) in
         if negb (is_nil all_tracks) then load_context_from_tracks (page_of_tracks all_tracks) ;; mret None
         else mret (Some fallback)
     end);
  handle_activate ;;
  timestamp ← now_ms;
  transfer ← state (fun s =>
    let '(t, c) := handle_initial_transfer transfer ctx_uri (connect_state s) in (t, set_connect_state c s));
  cmod (set_cs_active_context (if autoplay then CAutoplay else CDefault)) ;;
  let playback := default TransferPlayback_default (t_playback transfer) in
  let position := transfer_position timestamp playback in
  let is_playing := negb (default false (tp_is_paused playback)) in
  now_autoplay ← cget (fun c => is_autoplay (track_or_default (current_track c)));
  (if now_autoplay || autoplay then
     match ctx_uri with
     | Some ctx_uri => add_resolve (resolve_from_uri ctx_uri fallback CAutoplay Replace)
     | None => mret tt
     end
   else mret tt) ;;
  (if load_from_context_uri then modify (set_transfer_state (Some transfer))
   else
     c ← gets connect_state;
     match get_context CDefault c with
     | Ok ctx =>
         idx ← conn (attempt (fun c => find_index_in_context ctx (fun pt => String.eqb (pt_uri pt) (current_uri c))));
         conn (reset_playback_to_position (Some (Z.of_nat idx)))
     | _ => modify (set_transfer_state (Some transfer))
     end) ;;
  if (0 <=? position) && (position <? 2 ^ 32) then load_track is_playing position else throw ETryFromInt.

(** ** Requests of other devices *)

Section Skip.
Context `{!Fuel}.

Definition handle_play_request (context : Context) (play_origin : PlayerPlayOrigin) (options : PlayOptions) : T unit :=
  active ← cget is_active;
  (if active : bool then mret tt else handle_activate) ;;
  play_context ←
    (match ctx_uri context with
     | Some s => mret (PcUri s)
     | None =>
         if negb (is_nil (ctx_pages context)) then mret (PcTracks (page_uris (ctx_pages context)))
         else throw (SpNoUri "context")
     end);
  let context_options := (fun o => LcOptions (options_of_overrides o)) <$> player_options_override options in
  let fallback_index := skip ← skip_to options; track_index skip in
  handle_load
    (mkLoadRequest play_context
      (mkLoadRequestOptions true (default 0 (play_seek_to options)) context_options
        (skip ← skip_to options; playing_track_of_skip skip)))
    (last (ctx_pages context)) fallback_index ;;
  cmod (set_origin play_origin).

Definition when_some {A} (o : option A) (f : A -> T unit) : T unit := match o with Some a => f a | None => mret tt end.

(** The commands after which the state is reported later. *)
Definition handle_state_command (command : Command) : T unit :=
  match command with
  | CPlay context play_origin options => handle_play_request context play_origin options
  | CPause => handle_pause
  | CSeekTo value _ => handle_seek value
  | CSetShufflingContext value => handle_shuffle value
  | CSetRepeatingContext value => handle_repeat_context value
  | CSetRepeatingTrack value => handle_repeat_track value
  | CAddToQueue track => cmod (add_to_queue track true) ;; emit_set_queue_event
  | CSetQueue next prev => cmod (handle_set_queue next prev) ;; emit_set_queue_event
  | CSetOptions shuffling repeating_context repeating_track =>
      when_some repeating_context handle_repeat_context ;;
      when_some repeating_track handle_repeat_track ;;
      when_some shuffling handle_shuffle
  | CSkipNext track => handle_next (pt_uri <$> track)
  | CSkipPrev => handle_prev
  | CResume =>
      st ← gets play_status;
      match st with Stopped => load_track true 0 | _ => handle_play end
  | CTransfer _ | CUpdateContext _ | CUnknown => mret tt
  end.

Definition handle_request (command : Command) : T unit :=
  match command with
  | CTransfer None => throw SpNoData
  | CUnknown => throw UnknownEndpoint
  | CUpdateContext context =>
      current ← cget context_uri;
      if match ctx_uri context with Some uri => negb (String.eqb uri current) | None => false end then mret tt
      else add_resolve (resolve_from_context context CDefault Replace)
  | CTransfer (Some data) => handle_transfer data ;; notify
  | command => handle_state_command command ;; modify (set_update_state true)
  end.

Definition handle_connect_state_request (request : Request) : T unit :=
  cmod (set_last_command (message_id request) (sent_by_device_id request)) ;;
  r ← catch (handle_request (request_command request));
  t ← tick;
  emit (ReplySent (is_ok r)) ;;
  if reply_received t then mret tt else throw EReply.

(** ** Commands of the user *)

Definition handle_active_command (cmd : SpircCommand) : T unit :=
  match cmd with
  | SpPlay => handle_play
  | SpPlayPause => handle_play_pause
  | SpPause => handle_pause
  | SpPrev => handle_prev
  | SpNext => handle_next None
  | SpVolumeUp => handle_volume_up
  | SpVolumeDown => handle_volume_down
  | SpShuffle shuffle => handle_shuffle shuffle
  | SpRepeat repeat => handle_repeat_context repeat
  | SpRepeatTrack repeat => handle_repeat_track repeat
  | SpSetPosition position => handle_seek position
  | SpSetVolume volume => set_task_volume volume
  | SpLoad command => handle_load command None None
  | SpAddToQueue uri => handle_add_to_queue uri
  | SpClearQueue => conn clear_queue ;; emit_set_queue_event
  | SpShutdown | SpTransfer | SpActivate | SpDisconnect _ => mret tt
  end.

Definition handle_command (cmd : SpircCommand) : T unit :=
  active ← cget is_active;
  match cmd, (active : bool) with
  | SpShutdown, _ =>
      handle_pause ;;
      handle_disconnect ;;
      modify (fun s => set_commands_open false (set_closing true s)) ;;
      notify
  | SpTransfer, false =>
      t ← tick;
      device_id ← gets (fun s => sp_device_id (session s));
      emit (TransferHere device_id) ;;
      if transfer_here t then mret tt else throw EService
  | SpActivate, false => handle_activate ;; notify
  | SpTransfer, true | SpActivate, true => notify
  | _, false => notify
  | SpDisconnect pause, true =>
      (if pause : bool then handle_pause else mret tt) ;;
      handle_disconnect
  | cmd, true => handle_active_command cmd ;; notify
  end.

(** ** Events of the player *)

(** A playing or corrected position; [false] when the report is to be ignored. *)
Definition player_position (position_ms : Z) : T bool :=
  now ← now_ms;
  let new_nominal_start_time := i64 (now - position_ms) in
  st ← gets play_status;
  match st with
  | Playing nominal_start_time preloading =>
      if 100 <? Z.abs (i64 (nominal_start_time - new_nominal_start_time)) then
        set_play_status_to (Playing new_nominal_start_time preloading) ;;
        update_position_now position_ms ;;
        mret true
      else mret false
  | LoadingPlay _ | LoadingPause _ =>
      update_position_now position_ms ;;
      set_play_status_to (Playing new_nominal_start_time false) ;;
      mret true
  | _ => mret false
  end.

(** The events of the current track; [false] is an early return. *)
Definition handle_track_event (event : PlayerEvent) : T bool :=
  match event with
  | EvEndOfTrack _ _ =>
      repeat ← cget repeat_track;
      uri ← cget current_uri;
      handle_next (if repeat : bool then Some uri else None) ;;
      mret true
  | EvLoading _ _ _ =>
      st ← gets play_status;
      update_position_now (match st with LoadingPlay position_ms | LoadingPause position_ms => position_ms | _ => 0 end) ;;
      mret true
  | Seeked _ _ position_ms => update_position_now position_ms ;; mret true
  | EvPlaying _ _ position_ms | PositionCorrection _ _ position_ms => player_position position_ms
  | EvPaused _ _ position_ms =>
      st ← gets play_status;
      match st with
      | Stopped => mret false
      | _ => update_position_now position_ms ;; set_play_status_to (Paused position_ms false) ;; mret true
      end
  | EvStopped _ _ =>
      st ← gets play_status;
      match st with
      | Stopped => mret false
      | _ => set_play_status_to Stopped ;; mret true
      end
  | TimeToPreloadNextTrack _ _ => handle_preload_next_track ;; mret false
  | Player.Unavailable _ track_id =>
      handle_unavailable track_id ;;
      current ← cget current_uri;
      uri ← of_res (match to_uri track_id with Ok u => Ok u | Err e => Err (EConnect (EId e)) | Panic => Panic end);
      (if String.eqb current uri then handle_next None else mret tt) ;;
      mret true
  | _ => mret false
  end.

Definition handle_player_event (event : PlayerEvent) : T unit :=
  match event with
  | TrackChanged audio_item => cmod (update_duration (item_duration_ms audio_item)) ;; modify (set_update_state true)
  | PlayRequestIdChanged id => modify (set_play_request_id (Some id))
  | _ =>
      current ← gets play_request_id;
      if match get_play_request_id event, current with
         | Some event_id, Some current_id => event_id =? current_id
         | _, _ => false
         end
      then
        report ← handle_track_event event;
        if report : bool then modify (set_update_state true) else mret tt
      else mret tt
  end.

(** ** Messages of the server *)

Definition handle_connection_id_update (connection_id : string) : T unit :=
  modify (fun s => set_session (set_sp_connection_id connection_id (session s)) s) ;;
  c ← gets connect_state;
  let '(put, c) := notify_new_device_appeared put_request c in
  modify (set_connect_state c) ;;
  r ← put;
  match r with
  | Some (Some cluster) =>
      modify (set_connect_established true) ;;
      session_id ← gets (fun s => sp_session_id (session s));
      if negb (is_empty (cl_active_device_id cluster)) ||
         negb (String.eqb (cl_session_id cluster) session_id || is_empty (cl_session_id cluster)) then mret tt
      else
        match cl_transfer_data cluster with
        | Some (Some transfer) => handle_transfer transfer
        | _ => mret tt
        end
  | _ => throw FailedDealerSetup
  end.

(** [set_user_attribute] and [set_user_attributes] end the program for other than premium accounts. *)
Definition set_user_attributes (attrs : gmap string string) : T unit :=
  if check_catalogue attrs
  then modify (fun s => set_session (set_sp_attributes (attrs ∪ attributes (sp_data (session s))) (session s)) s)
  else stop.

Definition handle_user_attributes_update (pairs : gmap string string) : T unit := set_user_attributes pairs.

Definition mutated (old_value : string) : string :=
  if String.eqb old_value "0" then "1" else if String.eqb old_value "1" then "0" else old_value.

Definition mutate_attribute (key : string) : T unit :=
  se ← gets session;
  if String.eqb key "autoplay" && match sp_autoplay_override se with Some _ => true | None => false end then mret tt
  else
    match get_user_attribute key se with
    | None => mret tt
    | Some old_value =>
        let new_value := mutated old_value in
        set_user_attributes {[key := new_value]} ;;
        (if String.eqb key "filter-explicit-content" && String.eqb new_value "1"
         then tell (EmitFilterExplicitContentChangedEvent (String.eqb new_value "1"))
         else mret tt) ;;
        (if String.eqb key "autoplay" && negb (String.eqb old_value new_value)
         then tell (EmitAutoPlayChangedEvent (String.eqb new_value "1")) ;; add_autoplay_resolving_when_required
         else mret tt)
    end.

Fixpoint handle_user_attributes_mutation (fields : list string) : T unit :=
  match fields with
  | [] => mret tt
  | key :: fields => mutate_attribute key ;; handle_user_attributes_mutation fields
  end.

Definition handle_cluster_update (cluster : option Cluster) : T unit :=
  active ← cget is_active;
  match cluster with
  | Some cluster =>
      device_id ← gets (fun s => sp_device_id (session s));
      if active && negb (String.eqb (cl_active_device_id cluster) device_id) then handle_disconnect ;; handle_stop
      else if active : bool then modify (set_update_state true)
      else mret tt
  | None => if active : bool then become_inactive else mret tt
  end.

Definition handle_playlist_modification (uri : option (list Z)) : T unit :=
  match uri with
  | None => throw (SpNoUri "playlist modification")
  | Some uri =>
      match from_utf8 uri with
      | None => throw EUtf8
      | Some uri =>
          c ← gets connect_state;
          if negb (String.eqb (context_uri c) uri) then mret tt
          else add_resolve (resolve_from_uri uri (current_uri c) CDefault Replace)
      end
  end.

(** [None] when the update could not be parsed or carries no session. *)
Definition handle_session_update (update : option (option string * string)) : T unit :=
  match update with
  | None => mret tt
  | Some (active_device, session_id) =>
      se ← gets session;
      if match active_device with Some device => String.eqb device (sp_device_id se) | None => false end then
        if String.eqb (sp_session_id se) session_id then mret tt
        else
          modify (fun s => set_session (set_sp_session_id session_id (session s)) s) ;;
          cmod (set_session_id session_id)
      else mret tt
  end.

(** ** The event loop *)

(** What the [select] can choose. A message that fails to parse is [None]. *)
Inductive Event :=
| OnConnectionId (id : option string)
| OnCluster (update : option (option Cluster))
| OnRequest (request : Request)
| OnVolume (volume : option Z)
| OnLogout
| OnPlaylist (uri : option (option (list Z)))
| OnAttributesUpdate (pairs : option (gmap string string))
| OnAttributesMutation (fields : option (list string))
| OnSessionUpdate (update : option (option (option string * string)))
| OnCommand (cmd : option SpircCommand)
| OnPlayerEvent (event : option PlayerEvent)
| OnStateTimer
| OnVolumeTimer
| OnContext
| OnStreamEnd.

(** The conditions of the branches. *)
Definition enabled (e : Event) (s : SpircTask) : bool :=
  match e with
  | OnCommand _ => connect_established s
  | OnStateTimer => update_state s
  | OnVolumeTimer => update_volume s
  | OnContext => negb (update_state s) && negb (update_volume s) && has_next (resolver s)
  | _ => true
  end.

Definition recent_uris (c : ConnectState) : list string :=
  List.filter (fun t => negb (starts_with t "spotify:local")) (recent_track_uris c).

(** [false] breaks the loop. *)
Definition handle_event (e : Event) : T bool :=
  match e with
  | OnConnectionId (Some id) => r ← catch (handle_connection_id_update id); mret (is_ok r)
  | OnCluster (Some update) => ignore_error (handle_cluster_update update) ;; mret true
  | OnRequest request => ignore_error (handle_connect_state_request request) ;; mret true
  | OnVolume (Some volume) =>
      (if (0 <=? volume) && (volume <? 2 ^ 16) then set_task_volume volume else mret tt) ;; mret true
  | OnPlaylist (Some uri) => ignore_error (handle_playlist_modification uri) ;; mret true
  | OnAttributesUpdate (Some pairs) => handle_user_attributes_update pairs ;; mret true
  | OnAttributesMutation (Some fields) => handle_user_attributes_mutation fields ;; mret true
  | OnSessionUpdate (Some update) => handle_session_update update ;; mret true
  | OnCommand (Some cmd) => ignore_error (handle_command cmd) ;; mret true
  | OnPlayerEvent (Some event) => ignore_error (handle_player_event event) ;; mret true
  | OnStateTimer => modify (set_update_state false) ;; ignore_error notify ;; mret true
  | OnVolumeTimer =>
      modify (set_update_volume false) ;;
      c ← gets connect_state;
      let '(put, c) := notify_volume_changed put_request c in
      modify (set_connect_state c) ;;
      put ≫= fun _ =>
      ignore_error notify ;;
      mret true
  | OnContext =>
      recent ← cget recent_uris;
      next_context ← get_next_context recent;
      update ← handle_next_context next_context;
      (if update : bool then ignore_error notify else mret tt) ;;
      mret true
  | OnStreamEnd => mret false
  | _ => mret true
  end.

(** One pass of the loop, for an event that the [select] may choose. *)
Definition iterate (e : Event) : T bool :=
  s ← gets (fun s => s);
  if negb (enabled e s) then mret true
  else handle_event e.

Definition running (s : SpircTask) : bool := negb (invalid (sp_data (session s))) && negb (closing s).

(** The loop on the events that come in. *)
Fixpoint event_loop (events : list Event) : T unit :=
  match events with
  | [] => mret tt
  | e :: events =>
      s ← gets (fun s => s);
      if running s then
        continue ← iterate e;
        if continue : bool then event_loop events else mret tt
      else mret tt
  end.

(** What [run] does after the loop. *)
Definition finish : T unit :=
  s ← gets (fun s => s);
  (if negb (closing s) && is_active (connect_state s) then ignore_error handle_disconnect else mret tt) ;;
  emit DeleteState ;;
  emit DealerClose.

Definition run (events : list Event) : T unit :=
  t ← tick;
  emit DealerStart ;;
  if dealer_start t then event_loop events ;; finish else mret tt.
End Skip.

(** ** The start *)

Definition spirc_task_new (cfg : ConnectConfig) (info : SessionInfo) (se : SpSession) (m : Mixer) : SpircTask :=
  mkSpircTask (ConnectState.new cfg info) false None Stopped resolver_new (cfg_emit_set_queue_events cfg) true false
    None false false m se [] 0.

(** The end of [Spirc::new]: the mixer gets the initial volume, which is not reported. *)
Definition start : T unit :=
  initial_volume ← cget (fun c => di_volume (device_info c));
  cmod (set_volume 0) ;;
  if (0 <=? initial_volume) && (initial_volume <? 2 ^ 16)
  then set_task_volume initial_volume ;; modify (set_update_volume false)
  else mret tt.
End Spirc.
