(* ===== verification/SpircSkip.v ===== *)
(** * The connect controller: skipping to a track

    [handle_next] of the controller moves on through the next tracks until the track it was asked
    for is the current one. This file shows where that ends: at the first playable occurrence of
    the track among the next tracks, within as many rounds as there are tracks before it; and that
    it never ends when the track is in none of the lists the next tracks come from. *)
From S2P Require Import Prelude Text ShuffleVec SpotifyId SpotifyUri Session Player Protocol Config ConnectState ConnectContext ConnectTracks ConnectHandle ConnectSpec ContextResolver Playback Effect Spirc.

(** What [next_track] stops at. *)
Definition playable (t : ProvidedTrack) : bool := negb (is_delimiter t) && negb (is_unavailable t).

(** The tracks of the two contexts. *)
Definition sources (s : ConnectState) : option (ShuffleVec ProvidedTrack) * option (ShuffleVec ProvidedTrack) :=
  (sc_tracks <$> cs_context s, sc_tracks <$> cs_autoplay_context s).

(** Nothing the next tracks are taken from holds the track [uri]. *)
Record absent (uri : string) (s : ConnectState) : Prop := mkAbsent {
  ab_next : Forall (fun t => pt_uri t <> uri) (next_tracks s);
  ab_sources : forall ty c, context_of s ty = Some c -> Forall (fun t => pt_uri t <> uri) (vec (sc_tracks c));
  ab_fill : fillable s
}.

(** [uri] names a track, not the marker between two rounds of a context. *)
Definition names_track (uri : string) : Prop := uri <> EmptyString /\ uri <> "spotify:delimiter".

(** ** Moving on *)

Lemma advance_spec fuel s :
  (length (next_tracks s) < fuel)%nat ->
  exists pre post o s', advance fuel s = (o, s') /\ next_tracks s = pre ++ option_list o ++ post /\
    Forall (fun t => playable t = false) pre /\ next_tracks s' = post /\ (o = None -> post = []) /\
    (forall t, o = Some t -> playable t = true) /\
    sources s' = sources s /\ cs_fill_up_context s' = cs_fill_up_context s /\ current_track s' = current_track s.
Proof.
  revert s; induction fuel as [|fuel IH]; intros s Hl; [lia|]. simpl. unfold get_next_track.
  destruct (next_tracks s) as [|t l] eqn:E; [by exists [], [], None, s|].
  assert (next_tracks (next_tracks_mut tail s) = l) as Hl' by (change (tail (next_tracks s) = l); by rewrite E).
  destruct (is_delimiter t) eqn:Hd; [|destruct (is_unavailable t) eqn:Hu].
  - destruct (IH (push_prev t (next_tracks_mut tail s))) as (pre & post & o & s' & -> & Hn & Hp & Hr).
    { change (length (next_tracks (next_tracks_mut tail s)) < fuel)%nat. rewrite Hl'. simpl in Hl. lia. }
    exists (t :: pre), post, o, s'. split; [done|]. change (next_tracks (push_prev t _)) with (next_tracks (next_tracks_mut tail s)) in Hn.
    rewrite Hl' in Hn. split; [by rewrite Hn|]. split; [|done]. constructor; [|done]. unfold playable. by rewrite Hd.
  - destruct (IH (next_tracks_mut tail s)) as (pre & post & o & s' & -> & Hn & Hp & Hr).
    { rewrite Hl'. simpl in Hl. lia. }
    exists (t :: pre), post, o, s'. split; [done|]. rewrite Hl' in Hn. split; [by rewrite Hn|].
    split; [|done]. constructor; [|done]. unfold playable. by rewrite Hu, andb_false_r.
  - exists [], l, (Some t), (next_tracks_mut tail s). split_and!; try done. intros ? [= <-]. unfold playable. by rewrite Hd, Hu.
Qed.

Lemma fills_sources s s' added : fills s s' added -> sources s' = sources s.
Proof. intros []. unfold sources. congruence. Qed.

Lemma sources_context s s' ty c :
  sources s' = sources s -> context_of s' ty = Some c -> exists c', context_of s ty = Some c' /\ sc_tracks c = sc_tracks c'.
Proof.
  unfold sources. intros [= H1 H2] Hc.
  destruct ty; simpl in *; [rewrite Hc in H1; destruct (cs_context s) as [c'|]|
    rewrite Hc in H2; destruct (cs_autoplay_context s) as [c'|]]; simplify_eq/=; eauto.
Qed.

Lemma fillable_sources s s' :
  sources s' = sources s -> cs_fill_up_context s' = cs_fill_up_context s -> fillable s -> fillable s'.
Proof.
  unfold fillable. intros H Hf [c Hc]. rewrite Hf. destruct (sources_context s' s _ c (eq_sym H) Hc) as (c' & ? & _). by exists c'.
Qed.

Section Next.
Context `{!QueueHash}.

Lemma next_track_spec s :
  fillable s ->
  exists s', fillable s' /\ sources s' = sources s /\
    ((exists pre t post added k, next_tracks s = pre ++ t :: post /\ Forall (fun t => playable t = false) pre /\
        playable t = true /\ next_track s = (Ok (Some k), s') /\ current_track s' = Some t /\
        next_tracks s' = post ++ added /\ Forall (fill_source s) added) \/
     (Forall (fun t => playable t = false) (next_tracks s) /\ next_track s = (Ok None, s') /\ current_track s' = None /\
        next_tracks s' = [])).
Proof.
  intros Hf. unfold next_track. rewrite bind_modify. set (s0 := if repeat_track s then _ else s).
  assert (next_tracks s0 = next_tracks s /\ sources s0 = sources s /\ cs_fill_up_context s0 = cs_fill_up_context s)
    as (Hn0 & Hs0 & Hfu0) by (unfold s0; by destruct (repeat_track s)).
  clearbody s0. erewrite bind_ok by reflexivity. rewrite bind_modify.
  set (s1 := match current_track s0 with Some t => _ | None => _ end).
  assert (next_tracks s1 = next_tracks s /\ sources s1 = sources s /\ cs_fill_up_context s1 = cs_fill_up_context s /\
    current_track s1 = None) as (Hn1 & Hs1 & Hfu1 & Hc1).
  { rewrite <- Hn0, <- Hs0, <- Hfu0. unfold s1. destruct (current_track s0) as [t|]; [destruct (from_context t)|]; done. }
  clearbody s1. destruct (advance_spec (S (length (next_tracks s1))) s1) as
    (pre & post & o & s2 & E & Hn & Hpre & Hpost & Ho & Hp & Hs2 & Hfu2 & Hc2); [lia|].
  erewrite bind_ok; [|unfold ConnectState.run; rewrite E; reflexivity]. rewrite Hn1 in Hn.
  assert (sources s2 = sources s) as Hs2' by congruence.
  assert (fillable s2) as Hf2 by (apply (fillable_sources s); congruence).
  destruct o as [t|]; simpl in Hn.
  2:{ exists s2. rewrite (Ho eq_refl) in Hpost, Hn. split_and!; [done..|right]. rewrite app_nil_r in Hn. subst.
      split_and!; [done|done|congruence|done]. }
  destruct (fill_up_spec s2 Hf2) as (s3 & added & E3 & Hfl & Hsrc & Hf3 & _).
  erewrite bind_ok by exact E3.
  match goal with |- context [(if is_queue t then ConnectState.modify ?f1 else if is_autoplay t then ConnectState.modify ?f2 else ?m) ≫= ?k] =>
    assert (exists f, (if is_queue t then ConnectState.modify f1 else if is_autoplay t then ConnectState.modify f2 else m) = ConnectState.modify f /\
      next_tracks (f s3) = next_tracks s3 /\ sources (f s3) = sources s3 /\
      cs_fill_up_context (f s3) = cs_fill_up_context s3) as (f & Hm & Hn4 & Hs4 & Hfu4) end.
  { destruct (is_queue t); [by eexists|]. destruct (is_autoplay t).
    - eexists. split; [reflexivity|]. destruct (set_active_context_fields CAutoplay s3) as (_ & ? & Hc & Ha).
      unfold sources. split_and!; [done|simpl; by rewrite Hc, Ha|]. unfold set_active_context. simpl.
      by destruct (cs_autoplay_context s3).
    - destruct (get_context_index t); by eexists. }
  rewrite Hm, bind_modify, bind_modify. unfold ConnectState.gets.
  eexists. split; [|split; [|left; eexists pre, t, post, added, _; split; [done|]; split; [done|];
    split; [by apply Hp|]; split; [reflexivity|]; split; [done|]; split]].
  - apply (fillable_sources s3); [exact Hs4|exact Hfu4|done].
  - change (sources (f s3) = sources s). rewrite Hs4, (fills_sources _ _ _ Hfl). done.
  - change (next_tracks (f s3) = post ++ added). rewrite Hn4, (fl_next _ _ _ Hfl). by rewrite Hpost.
  - eapply Forall_impl; [exact Hsrc|]. intros u [Hu Hsource]. split; [done|].
    destruct Hsource as [?|(ty & c & Hc & Hin)]; [by left|right].
    destruct (sources_context _ _ ty c Hs2' Hc) as (c' & ? & Heq). exists ty, c'. by rewrite <- Heq.
Qed.
End Next.

(** ** A track that is not there *)

Lemma absent_next `{!QueueHash} uri s :
  names_track uri -> absent uri s ->
  exists o s', next_track s = (Ok o, s') /\ absent uri s' /\ current_uri s' <> uri.
Proof.
  intros [He Hd] [Hn Hs Hf]. destruct (next_track_spec s Hf) as (s' & Hf' & Hsrc & Hcases).
  assert (forall ty c, context_of s' ty = Some c -> Forall (fun t => pt_uri t <> uri) (vec (sc_tracks c))) as Hs'.
  { intros ty c Hc. destruct (sources_context _ _ ty c Hsrc Hc) as (c' & Hc' & ->). by eapply Hs. }
  destruct Hcases as [(pre & t & post & added & k & Hl & _ & _ & E & Hc & Hn' & Hadd)|(_ & E & Hc & Hn')];
    (eexists _, s'; split; [exact E|]).
  - rewrite Hl in Hn. apply Forall_app in Hn as [_ [Ht Hpost]%Forall_cons]. split.
    + constructor; [|done..]. rewrite Hn'. apply Forall_app. split; [done|]. eapply Forall_impl; [exact Hadd|].
      intros u [_ [[i ->]|(ty & c & Hcx & Hin)]]; [intros <-; by apply Hd|].
      by eapply Forall_forall in Hin; [|by eapply Hs].
    + unfold current_uri. by rewrite Hc.
  - split; [constructor; [by rewrite Hn'|done..]|]. unfold current_uri. rewrite Hc. simpl. congruence.
Qed.

Section Skip.
Context {B : Backend} {E : Env} `{!Probing} `{!QueueHash} `{!Rng}.

Lemma skip_step n track_uri (s : SpircTask) o c :
  next_track (connect_state s) = (Ok o, c) ->
  next_loop (S n) track_uri s =
    if match track_uri with Some uri => negb (String.eqb (current_uri c) uri) | None => false end
    then next_loop n track_uri (set_connect_state c s)
    else (Ok (match o with Some _ => true | None => false end), set_connect_state c s).
Proof.
  intros Hn. cbn [next_loop]. unfold mbind, eff_bind, conn, zoom, cget, gets. rewrite Hn. simpl.
  destruct (match track_uri with Some _ => _ | None => _ end); done.
Qed.

Lemma skip_absent uri n (s : SpircTask) :
  names_track uri -> absent uri (connect_state s) -> (next_loop n (Some uri) s).1 = Panic.
Proof.
  intros Hu. revert s; induction n as [|n IH]; intros s Ha; [done|].
  destruct (absent_next uri _ Hu Ha) as (o & c & Hn & Ha' & Hc). rewrite (skip_step _ _ _ o c Hn).
  rewrite (proj2 (String.eqb_neq _ _) Hc). simpl. by apply IH.
Qed.

(** ** A track that is there *)

Lemma skip_reaches k n (s : SpircTask) t :
  fillable (connect_state s) -> next_tracks (connect_state s) !! k = Some t -> playable t = true -> (k < n)%nat ->
  exists c t', next_loop n (Some (pt_uri t)) s = (Ok true, set_connect_state c s) /\
    current_track c = Some t' /\ pt_uri t' = pt_uri t /\ playable t' = true.
Proof.
  revert n s; induction k as [k IH] using lt_wf_ind; intros [|n] s Hf Hk Ht Hn; [lia|].
  destruct (next_track_spec _ Hf) as (c & Hfc & _ & [(pre & u & post & added & i & Hl & Hpre & Hu & Ec & Hc & Hn' & _)|
    (Hall & _)]).
  2:{ pose proof (Forall_lookup_1 _ _ _ _ Hall Hk) as Hx. simpl in Hx. congruence. }
  rewrite (skip_step _ _ _ _ c Ec). unfold current_uri. rewrite Hc. simpl.
  destruct (String.eqb_spec (pt_uri u) (pt_uri t)) as [Heq|Hne]; simpl; [by exists c, u|].
  rewrite Hl in Hk. assert (length pre < k)%nat as Hlt.
  { destruct (decide (k < length pre)%nat) as [Hlt|Hge].
    - rewrite lookup_app_l in Hk by done. pose proof (Forall_lookup_1 _ _ _ _ Hpre Hk) as Hx. simpl in Hx. congruence.
    - destruct (decide (k = length pre)) as [->|]; [|lia]. rewrite list_lookup_middle in Hk by done. congruence. }
  rewrite lookup_app_r in Hk by lia. destruct (k - length pre)%nat as [|j] eqn:Ej; [lia|]. simpl in Hk.
  destruct (IH j ltac:(lia) n (set_connect_state c s)) as (c' & t' & Es & Hr); [done| |done|lia|].
  { simpl. rewrite Hn', lookup_app_l; [done|]. by apply lookup_lt_Some in Hk. }
  exists c', t'. by rewrite Es.
Qed.

(** Asking for more autoplay tracks touches only the resolver. *)
Lemma autoplay_frame (s : SpircTask) :
  exists r n, add_autoplay_resolving_when_required s = (Ok tt, set_resolver r (set_ticks n s)).
Proof.
  unfold add_autoplay_resolving_when_required. run_step. run_step.
  destruct (negb _); [exists (resolver s), (ticks s); by destruct s|]. by eexists _, _.
Qed.

Lemma load_track_spec playing pos (s : SpircTask) t id :
  current_track (connect_state s) = Some t -> from_uri (pt_uri t) = Ok id ->
  exists s', load_track playing pos s = (Ok tt, s') /\
    play_status s' = (if playing : bool then LoadingPlay pos else LoadingPause pos) /\
    trace s' = trace s ++ [ToPlayer (CmdLoad id playing pos)] /\
    current_track (connect_state s') = Some t /\ next_tracks (connect_state s') = next_tracks (connect_state s).
Proof.
  intros Ht Hid. unfold load_track. run_step. rewrite Ht. erewrite run_bind.
  2:{ rewrite Hid. reflexivity. }
  eexists. split; [reflexivity|]. simpl. split_and!; [by destruct playing|done|exact Ht|done].
Qed.

Lemma handle_next_skips `{!Fuel} uri (s : SpircTask) :
  current_uri (connect_state s) <> uri ->
  handle_next (Some uri) s = (next_loop fuel (Some uri) ≫= fun has_next_track : bool =>
    if has_next_track then add_autoplay_resolving_when_required ;; load_track (is_playing (connect_state s)) 0
    else handle_stop) s.
Proof.
  intros Hc. unfold handle_next. run_step. run_step.
  by rewrite (proj2 (String.eqb_neq _ _) Hc).
Qed.
End Skip.

(** ** Properties *)

(** C10: Skipping to a track among the next tracks plays it: when the track asked for is at a position below
    the fuel among the next tracks, is playable and is not the current one, [handle_next] returns without
    an error, the current track has the URI asked for, and the player is told exactly one thing, to load
    this track from the start, playing if the device was playing. *)
Theorem skip_to_track {B : Backend} {E : Env} {P : Probing} {Q : QueueHash} {R : Rng} {F : Fuel}
  (s : SpircTask) (k : nat) (t : ProvidedTrack) (id : SpotifyUri)
  (Hf : fillable (connect_state s)) (Hk : next_tracks (connect_state s) !! k = Some t) (Ht : playable t = true)
  (Hfuel : (k < fuel)%nat) (Hid : from_uri (pt_uri t) = Ok id) (Hc : current_uri (connect_state s) <> pt_uri t) :
  exists s', handle_next (Some (pt_uri t)) s = (Ok tt, s') /\
    current_uri (connect_state s') = pt_uri t /\
    play_status s' = (if is_playing (connect_state s) then LoadingPlay 0 else LoadingPause 0) /\
    trace s' = trace s ++ [ToPlayer (CmdLoad id (is_playing (connect_state s)) 0)].
Proof.
  rewrite handle_next_skips by done. destruct (skip_reaches k fuel s t Hf Hk Ht Hfuel) as (c & t' & Es & Hct & Hu & _).
  run_with Es. destruct (autoplay_frame (set_connect_state c s)) as (r & n & Ea).
  run_with Ea.
  destruct (load_track_spec (is_playing (connect_state s)) 0 (set_resolver r (set_ticks n (set_connect_state c s))) t' id)
    as (s' & El & Hst & Htr & Hct' & _); [exact Hct|by rewrite Hu|].
  exists s'. split; [exact El|]. unfold current_uri. by rewrite Hct'.
Qed.

(** Skipping to a track that is not there never ends: when no list the next tracks are taken from holds the
    track another device asks for, the request is not answered with any number of rounds, so the controller
    handles no further event. *)
Theorem skip_to_absent_hangs {B : Backend} {E : Env} {P : Probing} {Q : QueueHash} {R : Rng}
  (s : SpircTask) (t : ProvidedTrack) (Hu : names_track (pt_uri t)) (Ha : absent (pt_uri t) (connect_state s))
  (Hc : current_uri (connect_state s) <> pt_uri t) (message_id : Z) (sender : string) :
  forall F : Fuel, (handle_event (OnRequest (mkRequest message_id sender (CSkipNext (Some t)))) s).1 = Panic.
Proof.
  intros F. set (s1 := set_connect_state (set_last_command message_id sender (connect_state s)) s).
  assert ((handle_next (Some (pt_uri t)) s1).1 = Panic) as Hh.
  { rewrite handle_next_skips by exact Hc. apply run_panic, skip_absent; [done|]. by destruct Ha; constructor. }
  assert (forall A (m : eff SpircTask SpircError A) x, (m x).1 = Panic -> (catch m x).1 = Panic) as Hcatch.
  { intros A m x. unfold catch. by destruct (m x) as [[]]. }
  apply run_panic. unfold ignore_error.
  assert ((handle_connect_state_request (mkRequest message_id sender (CSkipNext (Some t))) s).1 = Panic) as Hr.
  { unfold handle_connect_state_request. run_step. apply run_panic, Hcatch.
    by apply run_panic. }
  by destruct (handle_connect_state_request _ s) as [[]].
Qed.

(** ** Examples *)

(** A server that knows one playlist of two tracks, and accepts every state. *)
#[export] Instance ex_env : @Env (toy true true) := {|
  Mixer := Z;
  mixer_volume v := v;
  mixer_set_volume v _ := v;
  item_duration_ms _ := 3000;
  system_time t := Z.of_nat t * 1000000000;
  instant t := Z.of_nat t * 1000000000;
  random_seed _ := 7;
  random_below _ _ := 0;
  random_uid _ := ex_uuid;
  put_state _ _ := Some (Some (mkCluster EmptyString EmptyString None));
  put_inactive _ := true;
  transfer_here _ := true;
  answer _ f :=
    match f with
    | FetchContext _ => Some (ex_protocol_context [ex_page [uri1; uri2]])
    | FetchAutoplay _ _ => None
    end;
  reply_received _ := true;
  dealer_start _ := true
|}.

#[export] Instance ex_probe : Probing := fun _ _ => true.
#[export] Instance ex_fuel : Fuel := 100%nat.

Definition ex_sp_session : SpSession :=
  mkSpSession "connection" "user" "client" "name" "brand" "model" "device" "session" None false
    (mkSessionData 0 false "NL" {["type" := "premium"]}).

Definition ex_task : SpircTask := (start (spirc_task_new ConnectConfig_default ex_session ex_sp_session (0 : @Mixer _ ex_env))).2.

(** Another device starts the playlist. *)
Definition ex_play : Event (B := toy true true) :=
  OnRequest (mkRequest 1 "phone" (CPlay (mkContext (Some "spotify:playlist:x") None ∅ None []) PlayerPlayOrigin_default
    (mkPlayOptions None None None))).

Definition ex_started : SpircTask := (handle_event ex_play ex_task).2.

Definition ex_next_track : ProvidedTrack := track_or_default (head (next_tracks (connect_state ex_started))).

Definition ex_missing : ProvidedTrack := mkProvidedTrack "spotify:track:0000000000000000000001" EmptyString ∅ EmptyString.

(** ** Witnesses *)

Lemma skip_to_track_witness :
  exists s', handle_next (Some (pt_uri ex_next_track)) ex_started = (Ok tt, s') /\
    current_uri (connect_state s') = pt_uri ex_next_track.
Proof.
  assert (from_uri (pt_uri ex_next_track) = Ok (Track (mkSpotifyId 204841891221366092811751085145916697048))) as Hid
    by by vm_compute.
  edestruct (skip_to_track ex_started 0 ex_next_track) as (s' & Eq & Hc & _); [..|exact Hid| |].
  - eexists. by vm_compute.
  - by vm_compute.
  - by vm_compute.
  - vm_compute. lia.
  - vm_compute. congruence.
  - exists s'. exact (conj Eq Hc).
Defined.

Lemma skip_to_absent_hangs_witness :
  (handle_event (OnRequest (mkRequest 2 "phone" (CSkipNext (Some ex_missing)))) ex_started).1 = Panic.
Proof.
  apply skip_to_absent_hangs.
  - split; done.
  - constructor.
    + vm_compute. repeat constructor. congruence.
    + intros [] c; vm_compute; intros [= <-]; repeat constructor; congruence.
    + eexists. by vm_compute.
  - vm_compute. congruence.
Defined.
