(* ===== verification/SpircSpec.v ===== *)
(** * The connect controller: properties

    The controller goes on handling events, whatever it receives: the invariant of the connect state,
    of the resolver and of a transfer in progress is kept by every handler, and no handler ends the
    program, apart from the three events of [ends_program]. Then the behaviour of the handlers:
    volume, pausing and resuming, reports of the player that belong to an earlier track, becoming
    inactive. *)
From S2P Require Import Prelude Text ShuffleVec SpotifyId SpotifyUri Session Player Protocol Config ConnectState ConnectContext ConnectTracks ConnectHandle ConnectSpec ContextResolver Playback Effect Spirc SpircSkip.

(** ** The invariant *)

Section Invariant.
Context {B : Backend} {E : Env}.

Context {L : Limits}.

(** A transferred state with identifiers of bytes. *)
Definition transfer_in (t : TransferState) : Prop :=
  transfer_ok t /\ context_ok (default Context_default (ts_context (transfer_session t))).

Definition pending_ok (t : option TransferState) : Prop := match t with Some t => transfer_ok t | None => True end.

Record SInv (s : SpircTask) : Prop := mkSInv {
  si_conn : Inv (connect_state s);
  si_resolver : resolver_wf (resolver s);
  si_transfer : pending_ok (transfer_state s);
  si_premium : check_catalogue (attributes (sp_data (session s))) = true
}.

(** What the server promises about its answers. *)
Class EnvOk := {
  answer_ok : forall t f ctx, answer t f = Some ctx -> context_ok ctx;
  cluster_ok : forall t r cl tr, put_state t r = Some (Some cl) -> cl_transfer_data cl = Some (Some tr) -> transfer_in tr
}.

(** [m] keeps the invariant, and does not return only if [X]. *)
Definition survives (X : Prop) {A} (m : eff SpircTask SpircError A) : Prop :=
  forall s, SInv s -> wp X m (fun _ s' => SInv s') s.
End Invariant.

(** ** Programs that survive *)

Create HintDb survives.

Section Combinators.
Context {B : Backend} {E : Env} {L : Limits} (X : Prop).

Lemma survives_bind {A A'} (m : eff SpircTask SpircError A) (k : A -> eff SpircTask SpircError A') :
  survives X m -> (forall a, survives X (k a)) -> survives X (m ≫= k).
Proof.
  intros Hm Hk s Hs. apply wp_bind. eapply wp_mono; [|by apply Hm].
  intros [a|e|] s' Hr HI; [by apply Hk|done|done].
Qed.

Lemma survives_ret {A} (a : A) : survives X (mret a).
Proof. by intros s Hs. Qed.
Lemma survives_gets {A} (f : SpircTask -> A) : survives X (gets f).
Proof. by intros s Hs. Qed.
Lemma survives_throw {A} e : survives X (throw (A := A) e).
Proof. by intros s Hs. Qed.
Lemma survives_of_res {A} (r : res SpircError A) : r <> Panic -> survives X (of_res r).
Proof. intros Hr s Hs. by apply wp_of_res. Qed.
Lemma survives_ignore {A} (m : eff SpircTask SpircError A) : survives X m -> survives X (ignore_error m).
Proof. intros Hm s Hs. apply wp_ignore_error. eapply wp_mono; [|by apply Hm]. done. Qed.
Lemma survives_catch {A} (m : eff SpircTask SpircError A) : survives X m -> survives X (catch m).
Proof. intros Hm s Hs. apply wp_catch. eapply wp_mono; [|by apply Hm]. done. Qed.

Lemma survives_modify f : (forall s, SInv s -> SInv (f s)) -> survives X (modify f).
Proof. intros Hf s Hs. apply wp_modify. auto. Qed.
Lemma survives_cmod f : (forall c, Inv c -> Inv (f c)) -> survives X (cmod f).
Proof. intros Hf. apply survives_modify. intros s []. by constructor; try apply Hf. Qed.
Lemma survives_cget {A} (f : ConnectState -> A) : survives X (cget f).
Proof. by intros s Hs. Qed.
Lemma survives_emit a : survives X (emit a).
Proof. apply survives_modify. by intros s []. Qed.
Lemma survives_tell c : survives X (tell c).
Proof. apply survives_emit. Qed.
Lemma survives_tick : survives X tick.
Proof. intros s []. apply wp_state. by constructor. Qed.

Lemma survives_conn {A} (m : M A) : keeps Inv m -> survives X (conn m).
Proof.
  intros Hm s Hs. apply wp_zoom. destruct Hs. eapply (wp_mono X) with (Q := fun _ c => Inv c).
  - intros [a|e|] c Hr Hc; [by constructor..|done].
  - destruct (Hm _ si_conn0) as [Hp Hi]. unfold wp. destruct (m _) as [[a|e|] c]; done.
Qed.
End Combinators.

#[export] Hint Resolve survives_ret survives_gets survives_throw survives_cget survives_emit survives_tell survives_tick : survives.
#[export] Hint Extern 2 (survives _ (cmod _)) => apply survives_cmod; intros ? ?; solve [eauto with keeps] : survives.
#[export] Hint Extern 2 (survives _ (modify _)) => apply survives_modify; intros ? []; solve [constructor; done] : survives.

#[export] Hint Extern 2 (survives _ (conn _)) => apply survives_conn; solve [eauto with keeps] : survives.

Ltac surv_step :=
  match goal with
  | |- survives _ (_ ≫= _) => apply survives_bind; [|intros ?]
  | |- survives _ (ignore_error _) => apply survives_ignore
  | |- survives _ (catch _) => apply survives_catch
  | |- survives _ (if ?b then _ else _) => destruct b
  | |- survives _ (match ?x with _ => _ end) => destruct x
  | |- survives _ _ => solve [eauto with survives]
  end.
Ltac surv := repeat surv_step.

Section Handlers.
Context {B : Backend} {E : Env} `{!Probing} `{!QueueHash} {R : Rng} {ROk : RngOk} {EOk : EnvOk} {L : Limits} (X : Prop).

Lemma survives_now : survives X now_ms.
Proof. unfold now_ms. surv. Qed.
Lemma survives_add_resolve r : resolve_ok r -> survives X (add_resolve r).
Proof.
  intros Hr. unfold add_resolve. surv_step; [surv|]. apply survives_modify. intros s []. constructor; try done.
  by apply add_wf.
Qed.
Lemma survives_status st : survives X (set_play_status_to st).
Proof. unfold set_play_status_to. surv. Qed.
Lemma survives_update_position p : survives X (update_position_now p).
Proof. unfold update_position_now. surv_step; [apply survives_now|]. surv. Qed.
Hint Resolve survives_now survives_status survives_update_position : survives.

Lemma survives_put r : survives X (put_request r).
Proof. unfold put_request. surv. Qed.
Lemma survives_send m : survives X m -> survives X (send_put m).
Proof. intros Hm. unfold send_put. surv_step; [done|]. surv. Qed.

Hint Resolve inv_set_status inv_set_now : keeps.

Lemma survives_notify : survives X notify.
Proof. unfold notify. repeat (apply survives_send, survives_put || surv_step). Qed.
Hint Resolve survives_notify : survives.

Lemma survives_set_volume v : survives X (set_task_volume v).
Proof. unfold set_task_volume. surv. Qed.
Hint Resolve survives_set_volume : survives.

Lemma survives_emit_queue : survives X emit_set_queue_event.
Proof. unfold emit_set_queue_event. surv. Qed.
Hint Resolve survives_emit_queue : survives.

Lemma survives_stop : survives X handle_stop.
Proof. unfold handle_stop. surv. Qed.
Hint Resolve survives_stop : survives.

Lemma survives_load_track b p : survives X (load_track b p).
Proof.
  unfold load_track. surv_step; [surv|]. surv_step; [|surv]. surv_step; [|surv].
  apply survives_of_res. pose proof (from_uri_not_panic (pt_uri p0)). by destruct (from_uri _).
Qed.
Hint Resolve survives_load_track : survives.

Lemma survives_play : survives X handle_play.
Proof. unfold handle_play. surv. Qed.
Lemma survives_pause : survives X handle_pause.
Proof. unfold handle_pause. surv. Qed.
Hint Resolve survives_play survives_pause : survives.
Lemma survives_play_pause : survives X handle_play_pause.
Proof. unfold handle_play_pause. surv. Qed.
Lemma survives_seek p : survives X (handle_seek p).
Proof. unfold handle_seek. surv. Qed.
Lemma survives_position : survives X position.
Proof. unfold position. surv. Qed.
Hint Resolve survives_seek survives_position keeps_handle_shuffle keeps_handle_set_repeat_context : survives keeps.

Lemma survives_shuffle b : survives X (handle_shuffle b).
Proof. unfold handle_shuffle. surv. Qed.
Lemma survives_repeat_context b : survives X (handle_repeat_context b).
Proof. unfold handle_repeat_context. surv. Qed.
Lemma survives_repeat_track b : survives X (handle_repeat_track b).
Proof. unfold handle_repeat_track. surv. Qed.
Hint Resolve survives_shuffle survives_repeat_context survives_repeat_track : survives.

Lemma survives_autoplay : survives X add_autoplay_resolving_when_required.
Proof.
  unfold add_autoplay_resolving_when_required. do 2 (surv_step; [surv|]). surv_step; [surv|].
  by apply survives_add_resolve.
Qed.
Lemma survives_preload : survives X handle_preload_next_track.
Proof. unfold handle_preload_next_track. surv. Qed.
Hint Resolve survives_autoplay survives_preload : survives.
Lemma survives_unavailable id : parsed id -> survives X (handle_unavailable id).
Proof. intros Hid. unfold handle_unavailable. surv_step; [|surv]. apply survives_conn. by apply keeps_mark_unavailable. Qed.

Lemma survives_prev : survives X handle_prev.
Proof. unfold handle_prev. surv. Qed.
Lemma survives_activate : survives X handle_activate.
Proof.
  unfold handle_activate. repeat (surv_step || (apply survives_cmod; intros c Hc; unfold set_active; destruct (rq_is_active _); [done|revert Hc; inv_same])).
Qed.
Hint Resolve survives_prev survives_activate keeps_became_inactive : survives keeps.
Lemma survives_inactive : survives X become_inactive.
Proof. unfold become_inactive. surv. Qed.
Hint Resolve survives_inactive cleared_wf : survives.
Lemma survives_clear : survives X (modify (fun s => set_resolver (resolver_clear (resolver s)) s)).
Proof. apply survives_modify. intros s []. constructor; try done. apply cleared_wf. Qed.
Hint Resolve survives_clear : survives.
Lemma survives_disconnect : survives X handle_disconnect.
Proof. unfold handle_disconnect. surv. Qed.
Hint Resolve survives_disconnect : survives.

(** *** Resolving *)

Lemma survives_remove : survives X (modify (fun s => set_resolver (remove_used_and_invalid (resolver s)) s)).
Proof. apply survives_modify. intros s []. constructor; try done. by apply removed_wf. Qed.

(** The effect of a method of the connect state that is not a connect command. *)
Lemma wp_zoom_conn {A} (m : eff ConnectState RError A) (Q : res RError A -> ConnectState -> Prop)
    (Q' : res SpircError A -> SpircTask -> Prop) s :
  wp False m Q (connect_state s) ->
  (forall a c, Q (Ok a) c -> Q' (Ok a) (set_connect_state c s)) ->
  (forall e c, Q (Err e) c -> Q' (Err (resolver_error e)) (set_connect_state c s)) ->
  wp X (zoom connect_state set_connect_state resolver_error m) Q' s.
Proof. intros Hm Ha He. apply wp_zoom. unfold wp in *. destruct (m _) as [[a|e|] c]; auto. done. Qed.

Lemma survives_apply_context ctx : context_ok ctx -> survives X (apply_context ctx).
Proof.
  intros Hctx. unfold apply_context. surv_step; [surv|]. intros s Hs. do 3 wp_step. apply wp_catch.
  eapply wp_zoom_conn; [apply wp_apply; [done|apply Hs]|..].
  - intros rs c [Hc Hrs]. destruct Hs. destruct rs as [rs|]; wp_step; constructor; try done.
    apply add_list_wf; [by apply Hrs|done].
  - intros e c [Hc _]. destruct Hs. wp_step. by constructor.
Qed.

Lemma survives_finish_context : survives X finish_context.
Proof.
  unfold finish_context. surv_step; [surv|]. intros s Hs. do 5 wp_step.
  eapply wp_zoom_conn; [apply wp_try_finish; apply Hs|..].
  - intros [b tr] c [Hc Hr]. cbv beta iota. apply wp_bind, wp_modify.
    assert (SInv (set_transfer_state tr (set_connect_state c s))) as Hs'.
    { destruct Hs. constructor; try done. simpl. by destruct Hr as [[[= -> ->] _]|[= -> ->]]. }
    apply (survives_bind X); [surv|intros ?; surv|exact Hs'].
  - intros e c [_ [[? _]|?]]; done.
Qed.
Hint Resolve survives_finish_context survives_remove : survives.

Lemma survives_next_context ctx :
  match ctx with Some ctx => context_ok ctx | None => True end -> survives X (handle_next_context ctx).
Proof.
  intros Hctx. unfold handle_next_context. destruct ctx as [ctx|].
  - surv_step; [by apply survives_apply_context|surv].
  - surv_step; [surv|]. surv_step; [|surv]. apply survives_modify. intros s []. constructor; try done.
    by apply removed_wf, marked_wf.
Qed.

(** The answer to a fetch is used as a context with byte identifiers. *)
Lemma wp_get_next_context recent s :
  SInv s -> wp X (get_next_context recent) (fun r s' =>
    SInv s' /\ match r with Ok (Some ctx) => context_ok ctx | _ => True end) s.
Proof.
  intros Hs. unfold get_next_context. do 2 wp_step. destruct (next_fetch recent (resolver s)) as [f|e|]; [|by wp_step..].
  unfold tick, emit. do 5 wp_step. split; [destruct Hs; by constructor|]. destruct (answer _ f) as [ctx|] eqn:Ea; [|done]. simpl.
  apply answer_ok in Ea. unfold fetched. destruct (find_next _) as [[[next ?] ?]|]; [|done]. by destruct (update next).
Qed.

Lemma survives_fetch recent {A} (k : bool -> eff SpircTask SpircError A) :
  (forall b, survives X (k b)) -> survives X (ctx ← get_next_context recent; b ← handle_next_context ctx; k b).
Proof.
  intros Hk s Hs. apply wp_bind. eapply wp_mono; [|by apply wp_get_next_context].
  intros [ctx|e|] s' Hr [Hs' Hctx]; [|done|done]. apply (survives_bind X); [by apply survives_next_context|done|done].
Qed.

Lemma survives_from_tracks page : page_ok page -> survives X (load_context_from_tracks page).
Proof.
  intros Hp. unfold load_context_from_tracks. surv_step; [surv|]. surv_step; [|surv].
  apply survives_conn, keeps_update_context. by repeat constructor.
Qed.

Lemma survives_from_uri uri page b : survives X (load_context_from_uri uri page b).
Proof.
  unfold load_context_from_uri. do 5 (surv_step; [surv|]). surv_step; [surv|]. surv_step; [surv|].
  surv_step; [by apply survives_add_resolve|]. apply survives_fetch. intros ?. surv.
Qed.
Hint Resolve survives_from_uri : survives.

(** *** Loading *)

(** The position is open only when no track is named. *)
Lemma wp_load_index playing fb s :
  SInv s -> wp X (load_index playing fb) (fun r s' => SInv s' /\ (r = Ok None -> playing = None)) s.
Proof.
  intros Hs. unfold load_index.
  assert (forall f, wp X (ctx ← conn (attempt (get_context CDefault));
    mret (Some (match find_index_in_context ctx f with Ok i => Z.of_nat i | _ => default 0 fb end)))
    (fun r s' => SInv s' /\ (r = Ok None -> playing = None)) s) as Hf.
  { intros f. apply wp_bind. eapply wp_mono; [|apply (survives_conn X); [apply (keeps_get_context _ (fun _ => CDefault))|done]].
    intros [ctx|e|] s' Hr Hs'; [by wp_step|done|done]. }
  destruct playing as [[]|]; [by wp_step|apply Hf|apply Hf|by wp_step].
Qed.

Lemma page_of_uris_ok uris : page_ok (page_of_uris uris).
Proof. unfold page_ok, page_of_uris. simpl. apply Forall_fmap, Forall_true. done. Qed.

(** A load picks a random track when it is shuffled and names no track. *)
Definition random_load (o : LoadRequestOptions) : bool :=
  match context_options o, playing_track o with
  | Some (LcOptions o), None => op_shuffle o
  | _, _ => false
  end.

Lemma survives_random f : X -> survives X (conn (set_current_track_random f)).
Proof.
  intros HX s Hs. apply wp_zoom. destruct Hs.
  destruct (set_current_track_random_spec f (connect_state s) si_conn0) as [Hi _].
  unfold wp. destruct (set_current_track_random f (connect_state s)) as [[u|e|] c]; by constructor || done.
Qed.

Lemma inv_merge page c : Inv c -> Inv (merge_context page c).2.
Proof. apply inv_merge_context. Qed.
Lemma inv_clear_restrictions c : Inv c -> Inv (clear_restrictions c).
Proof. inv_same. Qed.
Hint Resolve inv_merge inv_clear_restrictions keeps_shuffle_new : keeps.

Lemma survives_load cmd page fb : (random_load (lr_options cmd) = true -> X) -> survives X (handle_load cmd page fb).
Proof.
  intros HX. unfold handle_load. surv_step; [surv|]. surv_step; [surv|]. cbv zeta. surv_step.
  { destruct (lr_context cmd); [surv|]. apply survives_from_tracks, page_of_uris_ok. }
  do 3 (surv_step; [surv|]). intros s Hs. apply wp_bind. eapply wp_mono; [|by apply wp_load_index].
  intros [index|e|] s' Hr [Hs' Hn]; [|done|done]. revert s' Hs'. clear s Hs.
  match goal with |- forall s, SInv s -> wp X ?m _ s => change (survives X m) end.
  surv_step; [surv|]. surv_step; [|surv]. destruct (context_options (lr_options cmd)) as [[o|]|] eqn:Eo; try by surv.
  destruct (op_shuffle o) eqn:Eshuffle; [|by surv]. surv_step; [|surv]. destruct index as [i|]; [surv|].
  surv_step; [surv|]. apply survives_random, HX. unfold random_load. by rewrite Eo, (Hn eq_refl).
Qed.

Lemma survives_queue uris : survives X (cmod (queue_uris uris)).
Proof.
  apply survives_cmod. unfold queue_uris. induction uris as [|u uris IH]; intros c Hc; simpl; [done|].
  by apply IH, inv_add_to_queue.
Qed.
Hint Resolve survives_queue : survives.

Lemma printed_safe uri : parsed uri ->
  match to_uri uri with Ok u => Ok u | Err e => Err (EConnect (EId e)) | Panic => Panic end <> Panic.
Proof. intros Hu. by destruct (from_to_uri uri Hu) as (u & -> & _). Qed.

Lemma survives_add_to_queue uri : parsed uri -> survives X (handle_add_to_queue uri).
Proof.
  intros Hu. pose proof (printed_safe uri Hu) as Hp. unfold handle_add_to_queue.
  destruct uri; surv; by apply survives_of_res.
Qed.

(** *** Taking over playback *)

Lemma survives_initial {A} transfer uri (k : TransferState -> eff SpircTask SpircError A) :
  survives X (k (taken_transfer transfer)) ->
  survives X (state (fun s => let '(t, c) := handle_initial_transfer transfer uri (connect_state s) in
                              (t, set_connect_state c s)) ≫= k).
Proof.
  intros Hk s Hs. apply wp_bind, wp_state. apply Hk. destruct Hs. constructor; try done.
  by apply (inv_handle_initial_transfer transfer uri).
Qed.

Lemma taken_ok t : transfer_ok t -> transfer_ok (taken_transfer t).
Proof. done. Qed.

Lemma all_tracks_ok c : context_ok c -> page_ok (page_of_tracks (concat (pg_tracks <$> ctx_pages c))).
Proof.
  intros Hc. unfold page_ok. simpl. unfold context_ok in Hc. induction Hc as [|p ps Hp Hps IH]; simpl; [done|].
  apply Forall_app. by split.
Qed.

Lemma survives_pending t : transfer_ok t -> survives X (modify (set_transfer_state (Some t))).
Proof. intros Ht. apply survives_modify. intros s []. by constructor. Qed.

Lemma survives_transfer transfer : transfer_in transfer -> survives X (handle_transfer transfer).
Proof.
  intros [Ht Hc]. unfold handle_transfer. surv_step; [surv|]. surv_step; [surv|]. surv_step; [surv|]. surv_step.
  { surv_step. apply survives_conn, keeps_attempt. intros s _. by apply current_track_from_transfer_safe. }
  do 3 (surv_step; [surv|]). surv_step.
  { match goal with |- survives _ (match ?o with _ => _ end) => destruct o end; surv.
    - by apply survives_add_resolve.
    - by apply survives_from_tracks, all_tracks_ok. }
  do 2 (surv_step; [surv|]). apply survives_initial. cbv zeta. do 2 (surv_step; [surv|]).
  surv_step; [surv; by apply survives_add_resolve|]. surv_step; [|surv].
  surv; try by apply survives_pending, taken_ok. apply survives_conn, keeps_attempt.
  intros c _. unfold find_index_in_context. by destruct (Prelude.position _ _).
Qed.

(** *** Requests, commands and reports *)

Context {F : Fuel} (HF : (0 < fuel)%nat).

(** Where the loop of [handle_next] ends: at once without a track to reach, otherwise when the track is the
    current one or among the next ones. *)
Definition skip_returns (track_uri : option string) (c : ConnectState) : Prop :=
  match track_uri with
  | None => True
  | Some uri =>
      current_uri c = uri \/
      fillable c /\ exists k t, next_tracks c !! k = Some t /\ pt_uri t = uri /\ playable t = true /\ (k < fuel)%nat
  end.

Lemma skip_partial n track_uri : survives True (next_loop n track_uri).
Proof. induction n as [|n IH]; [done|]. cbn [next_loop]. surv. Qed.

Lemma wp_next_loop uri s :
  SInv s -> skip_returns uri (connect_state s) \/ X ->
  match uri with Some uri => current_uri (connect_state s) <> uri | None => True end ->
  wp X (next_loop fuel uri) (fun _ s' => SInv s') s.
Proof.
  intros Hs [Hr|HX] Hc.
  2: { pose proof (skip_partial fuel uri s Hs) as Hp. unfold wp in *. by destruct (next_loop fuel uri s) as [[]]. }
  destruct uri as [uri|].
  - destruct Hr as [?|(Hf & k & t & Hk & <- & Ht & Hlt)]; [done|].
    destruct (skip_reaches k fuel s t Hf Hk Ht Hlt) as (c & t' & Eq & _).
    pose proof (skip_partial fuel (Some (pt_uri t)) s Hs) as Hp. unfold wp in *. by rewrite Eq in *.
  - destruct fuel as [|n]; [lia|]. cbn [next_loop]. assert (survives X (conn next_track)) as Hn by surv.
    apply (survives_bind X); [done|intros ?; surv|done].
Qed.

Lemma survives_next uri s :
  SInv s -> skip_returns uri (connect_state s) \/ X -> wp X (handle_next uri) (fun _ s' => SInv s') s.
Proof.
  intros Hs Hr. unfold handle_next, cget. do 4 wp_step. apply wp_bind. eapply wp_mono with (Q := fun _ s' => SInv s').
  - intros [b|e|] s' Hp Hs'; [|done|done]. revert s' Hs'.
    match goal with |- forall s', SInv s' -> wp X ?m _ s' => change (survives X m) end. surv.
  - destruct uri as [uri|]; [|by apply wp_next_loop]. destruct (String.eqb_spec (current_uri (connect_state s)) uri).
    + by wp_step.
    + by apply wp_next_loop.
Qed.

Lemma survives_next_none : survives X (handle_next None).
Proof. intros s Hs. apply survives_next; [done|by left]. Qed.
Hint Resolve survives_next_none : survives.

Definition random_play (o : PlayOptions) : bool :=
  match player_options_override o, (skip ← skip_to o; playing_track_of_skip skip) with
  | Some o, None => default false (cpo_shuffling_context o)
  | _, _ => false
  end.

Lemma survives_play_request ctx origin o : (random_play o = true -> X) -> survives X (handle_play_request ctx origin o).
Proof.
  intros HX. unfold handle_play_request. do 3 (surv_step; [surv|]). cbv zeta. surv_step; [|surv].
  apply survives_load. intros Hr. apply HX. revert Hr. unfold random_load, random_play. simpl.
  by destruct (player_options_override o), (skip ← skip_to o; playing_track_of_skip skip).
Qed.

(** Messages as the protocol describes them: identifiers are bytes. *)
Definition request_ok (c : Command) : Prop :=
  match c with
  | CTransfer (Some t) => transfer_in t
  | CUpdateContext ctx => context_ok ctx
  | _ => True
  end.

(** The lengths of the lists of previous and next tracks that a request stores. *)
Definition request_lists (c : Command) : nat * nat :=
  match c with CSetQueue next prev => (length prev, length next) | _ => (0%nat, 0%nat) end.

Definition within_limits (lists : nat * nat) : Prop := (lists.1 <= max_prev)%nat /\ (lists.2 <= max_next)%nat.

(** The track is the current one, or a playable one among the next tracks that can be refilled. *)
Definition can_skip_to (uri : string) (c : ConnectState) : bool :=
  String.eqb (current_uri c) uri ||
  match context_of c (cs_fill_up_context c) with Some _ => true | None => false end &&
  existsb (fun t => String.eqb (pt_uri t) uri && playable t) (next_tracks c).

Lemma can_skip_returns uri c :
  (length (next_tracks c) < fuel)%nat -> can_skip_to uri c = true -> skip_returns (Some uri) c.
Proof.
  unfold can_skip_to, skip_returns, fillable. intros Hl [Hc|[Hf Hx]%andb_prop]%orb_prop.
  - left. by apply String.eqb_eq.
  - right. split; [by destruct (context_of _ _); eauto|]. apply existsb_exists in Hx as (t & Hin & [Hu Ht]%andb_prop).
    apply list_elem_of_In, list_elem_of_lookup in Hin as [k Hk]. exists k, t. split_and!; [done|by apply String.eqb_eq|done|].
    apply lookup_lt_Some in Hk. lia.
Qed.

(** What a request must be like for its handler not to return. *)
Definition request_cause (c : Command) (s : ConnectState) : Prop :=
  match c with
  | CSkipNext (Some t) => can_skip_to (pt_uri t) s = false
  | CPlay _ _ o => random_play o = true
  | _ => False
  end.

Lemma survives_skip t s :
  (length (next_tracks (connect_state s)) < fuel)%nat -> (request_cause (CSkipNext t) (connect_state s) -> X) ->
  SInv s -> wp X (handle_next (pt_uri <$> t)) (fun _ s' => SInv s') s.
Proof.
  intros Hl Hx Hs. destruct t as [t|]; [|by apply survives_next_none]. simpl in *.
  apply survives_next; [done|]. destruct (can_skip_to (pt_uri t) (connect_state s)) eqn:Ec; [left|right; by apply Hx].
  by apply can_skip_returns.
Qed.

Lemma survives_state_command c s :
  request_ok c -> within_limits (request_lists c) -> (length (next_tracks (connect_state s)) < fuel)%nat ->
  (request_cause c (connect_state s) -> X) -> SInv s -> wp X (handle_state_command c) (fun _ s' => SInv s') s.
Proof.
  intros Hok Hb Hl Hr Hs. destruct c; simpl in *;
    try (match goal with |- wp X ?m _ _ => assert (survives X m) as Hm by surv; by apply Hm end).
  - by apply survives_play_request.
  - match goal with |- wp X ?m _ _ => assert (survives X m) as Hm; [|by apply Hm] end.
    surv_step; [|surv]. apply survives_cmod. intros c. destruct Hb. by apply inv_set_queue.
  - match goal with |- wp X ?m _ _ => assert (survives X m) as Hm; [|by apply Hm] end. unfold when_some. surv.
  - by apply survives_skip.
Qed.

Lemma survives_request c s :
  request_ok c -> within_limits (request_lists c) -> (length (next_tracks (connect_state s)) < fuel)%nat ->
  (request_cause c (connect_state s) -> X) -> SInv s -> wp X (handle_request c) (fun _ s' => SInv s') s.
Proof.
  intros Hok Hb Hl Hr Hs. unfold handle_request. destruct c as [[t|]| | | | | | | | | |ctx| | | |].
  1: { assert (survives X (handle_transfer t ;; notify)) as Hm; [|by apply Hm]. surv_step; [by apply survives_transfer|surv]. }
  1: by wp_step.
  10: { assert (survives X (current ← cget context_uri;
         if match ctx_uri ctx with Some uri => negb (String.eqb uri current) | None => false end then mret tt
         else add_resolve (resolve_from_context ctx CDefault Replace))) as Hm; [|by apply Hm].
       surv_step; [surv|]. surv_step; [surv|]. by apply survives_add_resolve. }
  13: by wp_step.
  all: apply wp_bind; eapply wp_mono; [|by apply survives_state_command]; intros [u|e|] s' Hp Hs'; [|done|done].
  all: wp_step; destruct Hs'; by constructor.
Qed.

Definition spirc_command_ok (c : SpircCommand) : Prop :=
  match c with SpAddToQueue uri => parsed uri | _ => True end.

Definition command_cause (c : SpircCommand) : Prop :=
  match c with SpLoad r => random_load (lr_options r) = true | _ => False end.

Hint Resolve survives_play_pause survives_add_to_queue : survives.

Lemma survives_closing : survives X (modify (fun s => set_commands_open false (set_closing true s))).
Proof. apply survives_modify. intros s []. by constructor. Qed.
Hint Resolve survives_closing : survives.

Lemma survives_volume_step : survives X handle_volume_up /\ survives X handle_volume_down.
Proof. unfold handle_volume_up, handle_volume_down. split; surv. Qed.

Lemma survives_command c : spirc_command_ok c -> (command_cause c -> X) -> survives X (handle_command c).
Proof.
  intros Hc Hx. unfold handle_command. surv_step; [surv|]. destruct survives_volume_step.
  destruct c, a; simpl in *; surv. by apply survives_load.
Qed.

(** Reports of the player name tracks it was given. *)
Definition player_event_ok (e : PlayerEvent) : Prop :=
  match e with Player.Unavailable _ id => parsed id | _ => True end.

Lemma survives_position_report p : survives X (player_position p).
Proof. unfold player_position. surv. Qed.
Hint Resolve survives_position_report : survives.

Lemma survives_track_event e : player_event_ok e -> survives X (handle_track_event e).
Proof.
  intros He. destruct e; simpl in *; try by surv.
  - intros s Hs. unfold cget. do 4 wp_step. apply wp_bind.
    eapply wp_mono; [|apply survives_next; [done|left; destruct (repeat_track _); simpl; auto]].
    intros [u|e|] s' Hp Hs'; [by wp_step|done|done].
  - surv_step; [by apply survives_unavailable|]. surv_step; [surv|]. surv_step; [|surv].
    by apply survives_of_res, printed_safe.
Qed.

Lemma survives_player_event e : player_event_ok e -> survives X (handle_player_event e).
Proof.
  intros He. unfold handle_player_event. pose proof (survives_track_event e He). destruct e; surv.
Qed.

Lemma wp_put r s : SInv s -> wp X (put_request r) (fun a s' => SInv s' /\ exists t, a = Ok (put_state t r)) s.
Proof. intros Hs. unfold put_request, tick, emit. do 5 wp_step. split; [destruct Hs; by constructor|by eexists]. Qed.

(** Reporting with a reason sends the state and leaves it as it is. *)
Lemma survives_report reason {A} (k : option (option Cluster) -> eff SpircTask SpircError A) :
  (forall t r, survives X (k (put_state t r))) ->
  survives X (c ← gets connect_state;
              let '(put, c) := send_with_reason put_request reason c in
              modify (set_connect_state c) ;; r ← put; k r).
Proof.
  intros Hk s Hs. do 2 wp_step. rewrite send_with_reason_restores. cbv beta iota. apply wp_bind, wp_modify, wp_bind.
  eapply wp_mono; [|apply wp_put; by destruct Hs].
  intros [a|e|] s' Hp [Hs' [t Ht]]; [|done|done]. simplify_eq. by apply Hk.
Qed.

Lemma survives_connection_id id : survives X (handle_connection_id_update id).
Proof.
  unfold handle_connection_id_update. surv_step; [surv|]. apply survives_report. intros t r.
  destruct (put_state t r) as [[cl|]|] eqn:Ep; [|surv..]. surv_step; [surv|]. surv_step; [surv|]. surv_step; [surv|].
  destruct (cl_transfer_data cl) as [[tr|]|] eqn:Et; [|surv..]. apply survives_transfer. by eapply cluster_ok.
Qed.

Lemma check_union (a b : gmap string string) :
  check_catalogue a = true -> check_catalogue b = true -> check_catalogue (a ∪ b) = true.
Proof.
  unfold check_catalogue. intros Ha Hb. destruct (a !! "type") as [v|] eqn:Ea.
  - by rewrite (lookup_union_Some_l _ _ _ _ Ea).
  - by rewrite lookup_union_r.
Qed.

Lemma survives_attributes attrs : (check_catalogue attrs = false -> X) -> survives X (set_user_attributes attrs).
Proof.
  intros HX. unfold set_user_attributes. destruct (check_catalogue attrs) eqn:Ec; [|intros s _; by apply wp_stop, HX].
  apply survives_modify. intros s []. constructor; try done. by apply check_union.
Qed.

(** Toggling keeps a premium account a premium account. *)
Lemma survives_mutate key : survives X (mutate_attribute key).
Proof.
  intros s Hs. unfold mutate_attribute. do 2 wp_step. destruct (_ && _); [by wp_step|].
  destruct (get_user_attribute key (session s)) as [old|] eqn:Eold; [|by wp_step]. revert Hs.
  assert (check_catalogue {[key := mutated old]} = false -> check_catalogue (attributes (sp_data (session s))) = false) as Hc.
  { unfold check_catalogue. destruct (decide (key = "type")) as [->|Hk].
    - unfold get_user_attribute in Eold. rewrite Eold, lookup_singleton_eq. unfold mutated.
      destruct (String.eqb_spec old "0") as [->|]; [done|]. by destruct (String.eqb_spec old "1") as [->|].
    - by rewrite lookup_singleton_ne. }
  intros Hs. assert (survives X (set_user_attributes {[key := mutated old]})) as Hset.
  { apply survives_attributes. intros Hf. destruct Hs. rewrite (Hc Hf) in si_premium0. done. }
  cbv zeta. apply (survives_bind X); [done|intros ?; surv|done].
Qed.

Lemma survives_mutation fields : survives X (handle_user_attributes_mutation fields).
Proof. induction fields; simpl; surv. apply survives_mutate. Qed.

Lemma survives_cluster cl : survives X (handle_cluster_update cl).
Proof. unfold handle_cluster_update. surv. Qed.

Lemma survives_playlist uri : survives X (handle_playlist_modification uri).
Proof. unfold handle_playlist_modification. surv; by apply survives_add_resolve. Qed.

Lemma survives_session_update u : survives X (handle_session_update u).
Proof. unfold handle_session_update. surv. Qed.

(** *** Events *)

Definition event_ok (e : Event) : Prop :=
  match e with
  | OnRequest r => request_ok (request_command r)
  | OnCommand (Some c) => spirc_command_ok c
  | OnPlayerEvent (Some e) => player_event_ok e
  | _ => True
  end.

Definition event_lists (e : Event) : nat * nat :=
  match e with OnRequest r => request_lists (request_command r) | _ => (0%nat, 0%nat) end.

(** The events whose handler may not return. *)
Definition event_cause (e : Event) (s : SpircTask) : Prop :=
  match e with
  | OnRequest r => request_cause (request_command r) (connect_state s)
  | OnCommand (Some c) => command_cause c
  | OnAttributesUpdate (Some pairs) => check_catalogue pairs = false
  | _ => False
  end.

Hint Resolve survives_connection_id survives_mutation survives_cluster survives_playlist survives_session_update : survives.

Lemma survives_event e s :
  event_ok e -> within_limits (event_lists e) -> (length (next_tracks (connect_state s)) < fuel)%nat ->
  (event_cause e s -> X) -> SInv s -> wp X (handle_event e) (fun _ s' => SInv s') s.
Proof.
  intros Hok Hb Hl Hr Hs. destruct e as [[]|[]|r|[]| |[]|[]|[]|[]|[]|[]| | | |].
  5: { unfold handle_event, handle_connect_state_request. apply wp_bind, wp_ignore_error, wp_bind, wp_modify, wp_bind, wp_catch.
       set (s1 := set_connect_state _ s). assert (SInv s1) by (destruct Hs; constructor; try done; revert si_conn0; inv_same).
       eapply wp_mono; [|by apply survives_request]. intros a s' Hp Hs'.
       assert (survives X (t ← tick; emit (ReplySent (is_ok a)) ;; if reply_received t then mret tt else throw EReply)) as Hm
         by surv.
       eapply wp_mono; [|by apply Hm]. intros [u|e|] s2 ? ?; done. }
  all: unfold handle_event; match goal with |- wp X ?m _ _ => assert (survives X m) as Hm; [|by apply Hm] end; simpl in Hok.
  all: try by surv.
  - surv_step; [|surv]. by apply survives_attributes.
  - surv_step; [|surv]. surv_step. by apply survives_command.
  - surv_step; [|surv]. surv_step. by apply survives_player_event.
  - surv_step; [surv|]. apply survives_report. intros t r. surv.
  - surv_step; [surv|]. apply survives_fetch. intros b. surv.
Qed.
End Handlers.

(** *** The state in which a load ends the program *)

(** The active context has no tracks to draw from. *)
Definition nothing_to_draw {B : Backend} {E : Env} (s : SpircTask) : Prop :=
  exists context, context_of (connect_state s) (cs_active_context (connect_state s)) = Some context /\
    vec (sc_tracks context) = [].

Section Draws.
Context {B : Backend} {E : Env} `{!Probing} `{!QueueHash} {R : Rng} {ROk : RngOk} {EOk : EnvOk} {L : Limits} {F : Fuel}.

Hint Resolve survives_stop survives_load_track survives_autoplay survives_activate survives_from_uri survives_notify
  : survives.
Hint Resolve inv_merge inv_clear_restrictions keeps_shuffle_new : keeps.

(** [m] keeps the invariant, or ends the program because there is nothing to draw. *)
Definition draws {A} (m : eff SpircTask SpircError A) : Prop :=
  forall s, SInv s -> match m s with (Panic, s') => nothing_to_draw s' | (_, s') => SInv s' end.

Lemma draws_safe {A} (m : eff SpircTask SpircError A) : survives False m -> draws m.
Proof. intros Hm s Hs. specialize (Hm s Hs). unfold wp in Hm. by destruct (m s) as [[]]. Qed.

Lemma draws_bind {A A'} (m : eff SpircTask SpircError A) (k : A -> eff SpircTask SpircError A') :
  draws m -> (forall a, draws (k a)) -> draws (m ≫= k).
Proof.
  intros Hm Hk s Hs. specialize (Hm s Hs). unfold mbind, eff_bind. destruct (m s) as [[a|e|] s']; [|done|done].
  by apply Hk.
Qed.

Lemma draws_catch {A} (m : eff SpircTask SpircError A) : draws m -> draws (catch m).
Proof. intros Hm s Hs. specialize (Hm s Hs). unfold catch. by destruct (m s) as [[]]. Qed.
Lemma draws_ignore {A} (m : eff SpircTask SpircError A) : draws m -> draws (ignore_error m).
Proof. intros Hm s Hs. specialize (Hm s Hs). unfold ignore_error. by destruct (m s) as [[]]. Qed.

Lemma draws_random f : draws (conn (set_current_track_random f)).
Proof.
  intros s []. destruct (set_current_track_random_spec f (connect_state s) si_conn0) as [Hi [Hp _]].
  unfold conn, zoom. unfold set_current_track_random in *. unfold mbind, M_bind, attempt in *.
  destruct (get_context _ _) as [ctx|e|] eqn:Ec; simpl in *; [|by constructor|by apply Hp].
  destruct (_ =? 0)%nat; [by apply Hp|].
  assert (keeps Inv (set_current_track (f (length (vec (sc_tracks ctx)))))) as Hk by eauto with keeps.
  destruct (Hk _ si_conn0) as [Hp' _]. destruct (set_current_track _ _) as [[u|e|] c]; simpl in *; by constructor || done.
Qed.

(** A step that goes on. *)
Ltac draws_go := apply draws_bind; [apply draws_safe; solve [surv]|intros ?].

Lemma draws_load cmd page fb : draws (handle_load cmd page fb).
Proof.
  unfold handle_load. cbv zeta. do 2 draws_go. apply draws_bind; [apply draws_safe|intros _].
  { destruct (lr_context cmd); [by apply survives_from_uri|]. apply survives_from_tracks, page_of_uris_ok. }
  do 3 draws_go. apply draws_bind; [apply draws_safe|intros index].
  { intros s Hs. eapply wp_mono; [|by apply wp_load_index]. by intros ? ? _ []. }
  draws_go. apply draws_bind; [|intros _; apply draws_safe; surv].
  destruct (match context_options (lr_options cmd) with Some (LcOptions o) => op_shuffle o | _ => false end);
    [|apply draws_safe; surv].
  apply draws_bind; [|intros _; apply draws_safe; surv].
  destruct index; [apply draws_safe; surv|]. draws_go. apply draws_random.
Qed.

Lemma draws_play_request ctx origin o : draws (handle_play_request ctx origin o).
Proof. unfold handle_play_request. cbv zeta. do 3 draws_go. apply draws_bind; [apply draws_load|intros _]. apply draws_safe; surv. Qed.

Lemma draws_request r ctx origin o :
  request_command r = CPlay ctx origin o -> draws (handle_connect_state_request r).
Proof.
  intros Hr. unfold handle_connect_state_request. rewrite Hr. draws_go. apply draws_bind; [|intros ?; apply draws_safe; surv].
  apply draws_catch, draws_bind; [apply draws_play_request|intros _; apply draws_safe; surv].
Qed.

Lemma draws_command r : draws (handle_command (SpLoad r)).
Proof.
  unfold handle_command. apply draws_bind; [apply draws_safe; surv|intros []]; [|apply draws_safe; surv].
  apply draws_bind; [apply draws_load|intros _; apply draws_safe; surv].
Qed.

(** A load that ends the program does so with nothing to draw. *)
Lemma draws_event e :
  match e with
  | OnRequest r => match request_command r with CPlay _ _ _ => True | _ => False end
  | OnCommand (Some (SpLoad _)) => True
  | _ => False
  end -> draws (handle_event e).
Proof.
  intros He. destruct e as [| |r| | | | | | |[c|]| | | | |]; try done.
  - destruct (request_command r) eqn:Er; try done. unfold handle_event.
    apply draws_bind; [|intros ?; apply draws_safe; surv]. apply draws_ignore. by eapply draws_request.
  - destruct c; try done. unfold handle_event. apply draws_bind; [|intros ?; apply draws_safe; surv].
    apply draws_ignore, draws_command.
Qed.
End Draws.

(** ** Properties *)

Section Reachable.
Context {B : Backend} {E : Env} `{!Probing} `{!QueueHash} {R : Rng} {F : Fuel}.

(** The states of the event loop: it goes on after an event whose handler has returned. *)
Inductive spirc_reachable (s0 : SpircTask) : SpircTask -> Prop :=
| spirc_start : spirc_reachable s0 s0
| spirc_step s e :
    spirc_reachable s0 s -> event_ok e -> (length (next_tracks (connect_state s)) < fuel)%nat ->
    (iterate e s).1 <> Panic -> spirc_reachable s0 (iterate e s).2.

Lemma iterate_enabled e s : enabled e s = true -> iterate e s = handle_event e s.
Proof. intros He. unfold iterate. run_step. by rewrite He. Qed.

Lemma reachable_once s e :
  enabled e s = true -> event_ok e -> (length (next_tracks (connect_state s)) < fuel)%nat ->
  (handle_event e s).1 <> Panic -> spirc_reachable s (handle_event e s).2.
Proof.
  intros He Hok Hf Hp. rewrite <- (iterate_enabled e s He) in Hp |- *. apply spirc_step; [apply spirc_start|done..].
Qed.

Lemma sinv_start {L : Limits} cfg info se m :
  check_catalogue (attributes (sp_data se)) = true -> SInv (start (spirc_task_new cfg info se m)).2.
Proof.
  intros Hp. assert (SInv (spirc_task_new cfg info se m)) as Hs.
  { constructor; [apply inv_new|repeat constructor|done|done]. }
  assert (survives False start) as Hm. { unfold start. surv; apply survives_set_volume. }
  specialize (Hm _ Hs). unfold wp in Hm. by destruct (start _) as [[]].
Qed.
End Reachable.

(** The bounds of the track lists after an event: those they had before, and those of a set-queue request. *)
Definition limits_after {B : Backend} {E : Env} (e : Event) (s : SpircTask) : Limits :=
  limits_of (Nat.max (length (prev_tracks (connect_state s))) (event_lists e).1)
            (Nat.max (length (next_tracks (connect_state s))) (event_lists e).2).

(** The events that end the program, in the state [s'] it ends in. *)
Definition ends_program {B : Backend} {E : Env} (e : Event) (s s' : SpircTask) : Prop :=
  match e with
  | OnRequest r =>
      match request_command r with
      | CSkipNext (Some t) => can_skip_to (pt_uri t) (connect_state s) = false
      | CPlay _ _ o => random_play o = true /\ nothing_to_draw s'
      | _ => False
      end
  | OnCommand (Some (SpLoad r)) => random_load (lr_options r) = true /\ nothing_to_draw s'
  | OnAttributesUpdate (Some pairs) => check_catalogue pairs = false
  | _ => False
  end.

Section Survival.
Context {B : Backend} {E : Env} `{!Probing} `{!QueueHash} {R : Rng} {ROk : RngOk} {EOk : EnvOk} {F : Fuel}.

Lemma sinv_weaken (L1 L2 : Limits) s :
  (@max_prev L1 <= @max_prev L2)%nat -> (@max_next L1 <= @max_next L2)%nat -> SInv (L := L1) s -> SInv (L := L2) s.
Proof. intros Hp Hn [[]]. constructor; [constructor; done || lia|done..]. Qed.

(** The bounds that the lists are within. *)
Lemma sinv_tight (L1 L2 : Limits) s :
  (length (prev_tracks (connect_state s)) <= @max_prev L2)%nat ->
  (length (next_tracks (connect_state s)) <= @max_next L2)%nat -> SInv (L := L1) s -> SInv (L := L2) s.
Proof. intros Hp Hn [[]]. by constructor. Qed.

Lemma iterate_survives (L : Limits) e s :
  SInv s -> event_ok e -> (length (next_tracks (connect_state s)) < fuel)%nat ->
  ((iterate e s).1 = Panic -> ends_program e s (iterate e s).2) /\
  ((iterate e s).1 <> Panic -> SInv (L := limits_after e s) (iterate e s).2).
Proof.
  intros Hs He Hf. assert (SInv (L := limits_after e s) s) as Hs'.
  { apply (sinv_tight L); [cbn; lia..|done]. }
  assert (within_limits (L := limits_after e s) (event_lists e)) as Hb by (split; cbn; lia).
  unfold iterate. run_step. destruct (enabled e s); simpl; [|done].
  pose proof (survives_event (L := limits_after e s) (event_cause e s) ltac:(lia) e s He Hb Hf (fun H => H) Hs') as Hw.
  unfold wp in Hw. split; [|by destruct (handle_event e s) as [[]]]. intros Hp.
  assert (event_cause e s) as Hc by (destruct (handle_event e s) as [[]]; done). clear Hw.
  pose proof (fun He => draws_event (L := limits_after e s) e He s Hs') as Hd.
  destruct (handle_event e s) as [r s']. simpl in *. subst r.
  destruct e as [| |rq| | | |[]| | |[c|]| | | | |]; try done.
  - simpl in *. destruct (request_command rq) as [| | | | | | | | | | | | | |]; try done. by split; [|apply Hd].
  - destruct c; try done. by split; [|apply Hd].
Qed.

Lemma spirc_reachable_inv cfg info se m s :
  check_catalogue (attributes (sp_data se)) = true ->
  spirc_reachable (start (spirc_task_new cfg info se m)).2 s -> exists L : Limits, SInv s.
Proof.
  intros Hp Hs. induction Hs as [|s e Hs [L IH] He Hf Hr].
  - exists (limits_of 0 0). by apply sinv_start.
  - exists (limits_after e s). by apply (iterate_survives L).
Qed.
End Survival.

(** C9: The controller goes on: in every state the event loop can reach from the start, and whatever event comes
    next, its handler returns unless the event is one of three: a skip to a track that is neither the current
    one nor among the (refillable) next tracks, an attribute update that ends a premium account, and a shuffled
    load without a track to start with, which can end it only by a draw from a context without tracks.
    When it returns, the contexts can be unshuffled, the resolver queue is free of duplicates, a pending transfer
    can be finished, and the track lists are no longer than the server's limits, than they were before and
    than what a set-queue request stored. *)
Theorem controller_survives {B : Backend} {E : Env} {P : Probing} {Q : QueueHash} {R : Rng} {ROk : RngOk} {EOk : EnvOk}
  {F : Fuel} (cfg : ConnectConfig) (info : SessionInfo) (se : SpSession) (m : Mixer) (s : SpircTask) (e : Event)
  (Hpremium : check_catalogue (attributes (sp_data se)) = true)
  (Hs : spirc_reachable (start (spirc_task_new cfg info se m)).2 s) (He : event_ok e)
  (Hfuel : (length (next_tracks (connect_state s)) < fuel)%nat) :
  ((iterate e s).1 = Panic -> ends_program e s (iterate e s).2) /\
  ((iterate e s).1 <> Panic -> SInv (L := limits_after e s) (iterate e s).2).
Proof. destruct (spirc_reachable_inv cfg info se m s Hpremium Hs) as [L HI]. by apply (iterate_survives L). Qed.

(** An inactive device: nothing is played, queued or to be fetched. *)
Record inactive (c : ConnectState) : Prop := mkInactive {
  in_active : is_active c = false;
  in_track : current_track c = None;
  in_prev : prev_tracks c = [];
  in_next : next_tracks c = [];
  in_context : cs_context c = None;
  in_autoplay : cs_autoplay_context c = None;
  in_uri : context_uri c = EmptyString
}.

Lemma unshuffle_default_ok {L : Limits} c : Inv c -> exists o, unshuffle_default c = (Ok tt, set_cs_context o c).
Proof.
  intros Hc. destruct (keeps_unshuffle_default c Hc) as [Hp _]. unfold unshuffle_default, unshuffle_context in *.
  destruct (cs_context c) as [x|] eqn:Ex; [|exists None; by rewrite <- Ex; destruct c].
  destruct (unshuffle (sc_tracks x)); simpl in *; [by eexists|done|done].
Qed.

Lemma became_inactive_spec {L : Limits} c : Inv c -> exists c', became_inactive tt c = (Ok tt, c') /\ inactive c'.
Proof.
  intros Hc. unfold became_inactive, reset_context. rewrite ConnectState.bind_modify.
  destruct (unshuffle_default_ok (reset c)) as [o Ho]; [by apply inv_reset|].
  eexists. erewrite bind_ok. 1: split; [reflexivity|]. 2:{ rewrite bind_gets. erewrite bind_ok by exact Ho. reflexivity. }
  by constructor.
Qed.

Section Disconnect.
Context {B : Backend} {E : Env} `{!Probing} `{!QueueHash} {R : Rng} {L : Limits}.

(** What other devices see as paused. *)
Definition paused_status (st : SpircPlayStatus) : bool :=
  match st with LoadingPause _ | Paused _ _ | Stopped => true | _ => false end.

Lemma set_now_fields now c :
  is_active (set_now now c) = is_active c /\ player (set_now now c) = player c.
Proof. unfold set_now. by destruct (cs_active_since _); [destruct (_ && _)|]. Qed.

Lemma send_spec s :
  exists now t t' c, c = set_now now (connect_state s) /\
    (now ← now_ms; cmod (set_now (wrap 64 now)) ;; c ← gets connect_state;
     send_put (send_state put_request c) ≫= fun _ => mret tt) s =
      (match put_state t (cs_request c) with Some _ => Ok tt | None => Err EService end,
       set_trace (trace s ++ [PutState (cs_request c)]) (set_ticks t' (set_connect_state c s))).
Proof.
  exists (wrap 64 (i64 (i64 (Z.abs (system_time (ticks s)) / 1000000) + i64 (1000 * time_delta (sp_data (session s)))))).
  exists (S (ticks s)), (S (S (ticks s))). eexists. split; [reflexivity|]. run_step. run_step. run_step. unfold send_put, send_state, put_request.
  unfold mbind, eff_bind, tick, emit, state, modify, mret, eff_ret. cbn [connect_state set_connect_state set_ticks ticks].
  destruct (put_state _ _); reflexivity.
Qed.

(** A notification sends the state it leaves behind, which shows the status of the playback. *)
Lemma notify_spec s :
  exists c t t', notify s =
      (match put_state t (cs_request c) with Some _ => Ok tt | None => Err EService end,
       set_trace (trace s ++ [PutState (cs_request c)]) (set_ticks t' (set_connect_state c s))) /\
    is_active c = is_active (connect_state s) /\ ps_is_paused (player c) = paused_status (play_status s) /\
    (forall l : Limits, Inv (connect_state s) -> Inv c).
Proof.
  unfold notify. do 3 run_step. pose proof (fun l : Limits => inv_set_status (play_status s) (connect_state s)) as Hi.
  set (c0 := set_status (play_status s) (connect_state s)) in *. assert (is_active c0 = is_active (connect_state s) /\
    ps_is_paused (player c0) = paused_status (play_status s)) as [Ha Hp] by by destruct (play_status s).
  change (connect_state (set_connect_state c0 s)) with c0. rewrite <- Ha, <- Hp. clearbody c0. destruct (is_playing c0).
  - run_step. match goal with |- context [_ ?s1 = _] => destruct (send_spec s1) as (now & t & t' & c & Hc & Eq) end.
    rewrite Eq. exists c, t, t'. split; [reflexivity|]. subst c. cbn [connect_state set_connect_state set_ticks].
    match goal with |- context [set_now now ?x] => destruct (set_now_fields now x) as [-> ->] end.
    split_and!; [done|done|]. intros l Hc. apply inv_set_now. specialize (Hi l Hc). revert Hi. inv_same.
  - run_step. destruct (send_spec (set_connect_state c0 s)) as (now & t & t' & c & Hc & Eq). rewrite Eq.
    exists c, t, t'. split; [reflexivity|]. subst c. cbn [connect_state set_connect_state].
    destruct (set_now_fields now c0) as [-> ->]. split_and!; [done|done|]. intros l Hc. by apply inv_set_now, Hi.
Qed.

Lemma become_inactive_spec s :
  Inv (connect_state s) -> exists c, inactive c /\
    become_inactive s = (if put_inactive (ticks s) then Ok tt else Err EService,
      set_trace (trace s ++ [PutInactive]) (set_ticks (S (ticks s)) (set_connect_state c s))).
Proof.
  intros Hc. destruct (became_inactive_spec _ Hc) as (c & Ei & Hin). exists c. split; [done|]. unfold become_inactive.
  erewrite run_bind. 2:{ unfold conn, zoom. rewrite Ei. reflexivity. } cbv beta. run_step. run_step.
  by destruct (put_inactive (ticks s)) eqn:Eput; simpl; rewrite Eput.
Qed.

(** The state that is reported when disconnecting. *)
Definition stopping (s : SpircTask) : SpircTask :=
  ((now ← now_ms; cmod (update_position_in_relation now))
     (set_play_status Stopped (set_resolver (resolver_clear (resolver s)) s))).2.

Lemma disconnect_spec s :
  SInv s -> exists t c c' s1,
    ps_is_paused (player c) = true /\ is_active c = is_active (connect_state s) /\ inactive c' /\
    s1 = set_trace (trace s ++ [PutState (cs_request c)]) (set_ticks (ticks s1) (set_connect_state c (stopping s))) /\
    handle_disconnect s =
      match put_state t (cs_request c) with
      | None => (Err EService, s1)
      | Some _ =>
          let s2 := set_trace (trace s1 ++ [PutInactive]) (set_ticks (S (ticks s1)) (set_connect_state c' s1)) in
          if put_inactive (ticks s1)
          then (Ok tt, set_trace (trace s2 ++ [ToPlayer (EmitSessionDisconnectedEvent (sp_connection_id (session s))
                                                          (sp_username (session s)))]) s2)
          else (Err EService, s2)
      end.
Proof.
  intros Hs. unfold handle_disconnect. do 2 run_step. erewrite (run_bind now_ms) by reflexivity. cbv beta.
  erewrite (run_bind (cmod _)) by reflexivity. cbv beta.
  match goal with |- context [(notify ≫= _) ?s1] => change s1 with (stopping s) end.
  destruct (notify_spec (stopping s)) as (c & t & t' & En & Ha & Hp & Hi).
  assert (Inv c) as Hc by (apply Hi; destruct Hs; revert si_conn0; inv_same).
  set (s1 := set_trace (trace s ++ [PutState (cs_request c)]) (set_ticks t' (set_connect_state c (stopping s)))).
  change (set_trace (trace (stopping s) ++ _) _) with s1 in En.
  destruct (become_inactive_spec s1 Hc) as (c' & Hin & Ei).
  exists t, c, c', s1. split_and!; [exact Hp|exact Ha|done|reflexivity|]. unfold mbind, eff_bind at 1. rewrite En.
  destruct (put_state t (cs_request c)); [|reflexivity]. unfold eff_bind at 1. rewrite Ei.
  by destruct (put_inactive (ticks s1)).
Qed.
End Disconnect.

(** Giving up control leaves nothing behind: when disconnecting succeeds, the device is inactive, without
    tracks, contexts or a context to resolve, and stopped; the other devices were told, in this order, that
    playback is paused and that the device is inactive, and then the player's listeners that it is gone. *)
Theorem disconnect_releases {B : Backend} {E : Env} {P : Probing} {Q : QueueHash} {R : Rng} {L : Limits} (s s' : SpircTask)
  (Hs : SInv s) (Hd : handle_disconnect s = (Ok tt, s')) :
  inactive (connect_state s') /\ queue (resolver s') = [] /\ play_status s' = Stopped /\
  exists c, ps_is_paused (player c) = true /\
    trace s' = trace s ++ [PutState (cs_request c); PutInactive;
      ToPlayer (EmitSessionDisconnectedEvent (sp_connection_id (session s)) (sp_username (session s)))].
Proof.
  destruct (disconnect_spec s Hs) as (t & c & c' & s1 & Hp & _ & Hin & Hs1 & Eq). rewrite Eq in Hd.
  destruct (put_state t (cs_request c)); [|done]. cbv zeta in Hd. destruct (put_inactive (ticks s1)); [|done].
  injection Hd as <-. split_and!; [exact Hin|by rewrite Hs1|by rewrite Hs1|]. exists c. split; [done|].
  simpl. rewrite Hs1. simpl. by rewrite <- !app_assoc.
Qed.

Section Frames.
Context {B : Backend} {E : Env} `{!Probing} `{!QueueHash} {R : Rng} {ROk : RngOk} {EOk : EnvOk} {L : Limits}.

Lemma now_frame s : exists now, now_ms s = (Ok now, set_ticks (S (ticks s)) s).
Proof. by eexists. Qed.

Lemma position_frame p s :
  exists now, update_position_now p s =
    (Ok tt, set_connect_state (update_position p now (connect_state s)) (set_ticks (S (ticks s)) s)).
Proof. by eexists. Qed.

Lemma volume_frame v s :
  exists s' rest, set_task_volume v s = (Ok tt, s') /\ play_status s' = play_status s /\ trace s' = trace s ++ rest.
Proof.
  unfold set_task_volume. do 2 run_step. destruct (_ || _); [|eexists _, []; split; [reflexivity|]; by rewrite app_nil_r].
  do 4 run_step. destruct (sp_has_cache _); run_step; run_step; destruct (is_active _); eexists _, _; (split; [reflexivity|]);
    (split; [reflexivity|]); simpl; rewrite <- ?app_assoc; first [reflexivity|symmetry; apply app_nil_r].
Qed.

Lemma pause_frame s :
  SInv s -> exists s1, handle_pause s = (Ok tt, s1) /\ closing s1 = closing s /\ commands_open s1 = commands_open s /\
    SInv s1.
Proof.
  intros Hs. pose proof (survives_pause False s Hs) as Hp. unfold wp in Hp.
  assert (exists s1, handle_pause s = (Ok tt, s1) /\ closing s1 = closing s /\ commands_open s1 = commands_open s)
    as (s1 & Eq & Hc & Ho).
  { unfold handle_pause. run_step. destruct (play_status s); by eexists. }
  exists s1. by rewrite Eq in Hp.
Qed.
End Frames.

(** A shutdown needs the server: when the server answers, the command disconnects the device, closes the command
    channel and ends the event loop; when it cannot be reached, the error leaves the loop running and the
    channel open, so the task does not end. *)
Theorem shutdown_outcome {B : Backend} {E : Env} {P : Probing} {Q : QueueHash} {R : Rng} {ROk : RngOk} {EOk : EnvOk}
  {F : Fuel} {L : Limits} (s : SpircTask) (Hs : SInv s) :
  let '(r, s') := handle_event (OnCommand (Some SpShutdown)) s in
  r = Ok true /\
  ((forall t q, put_state t q <> None) -> (forall t, put_inactive t = true) ->
     running s' = false /\ commands_open s' = false /\ is_active (connect_state s') = false) /\
  ((forall t q, put_state t q = None) -> closing s' = closing s /\ commands_open s' = commands_open s).
Proof.
  destruct (pause_frame s Hs) as (s1 & Ep & Hcl & Hop & Hs1).
  destruct (disconnect_spec s1 Hs1) as (t & c & c' & s2 & _ & _ & Hin & Hs2 & Ed).
  unfold handle_event, handle_command, ignore_error. unfold mbind at 1, eff_bind at 1. run_step. run_with Ep.
  unfold mbind at 1, eff_bind at 1. rewrite Ed. destruct (put_state t (cs_request c)) as [cl|] eqn:Eput.
  - cbv zeta. destruct (put_inactive (ticks s2)) eqn:Ei.
    + run_step. match goal with |- context [notify ?s3] => destruct (notify_spec s3) as (c3 & t3 & t3' & En & Ha & _) end.
      rewrite En. destruct (put_state t3 (cs_request c3)) eqn:E3; simpl.
      all: split; [done|]; split; [intros Hput _|intros Hput; by rewrite Hput in Eput].
      2: by apply Hput in E3.
      split_and!; [unfold running; simpl; by rewrite andb_false_r|done|]. rewrite Ha. apply Hin.
    + split; [done|]. split; [intros _ Hi; by rewrite Hi in Ei|intros Hput; by rewrite Hput in Eput].
  - split; [done|]. split; [intros Hput; by apply Hput in Eput|]. intros _. by rewrite Hs2.
Qed.

(** The position of a track that has been playing since [start], at [now]. *)
Definition elapsed (now start : Z) : Z := wrap 32 (i64 (now - start)).

Lemma elapsed_start now p : fits 32 p -> elapsed now (i64 (now - p)) = p.
Proof.
  intros Hp. unfold elapsed, i64, wrap. unfold fits in Hp.
  assert (2 ^ 64 = 2 ^ 32 * 2 ^ 32) as H64 by reflexivity. assert (2 ^ 63 = 2 ^ 32 * 2 ^ 31) as H63 by reflexivity.
  pose proof (Z.div_mod (now - p + 2 ^ 63) (2 ^ 64)) as H1.
  set (q1 := (now - p + 2 ^ 63) / 2 ^ 64) in *. set (r1 := (now - p + 2 ^ 63) mod 2 ^ 64) in *.
  pose proof (Z.div_mod (now - (r1 - 2 ^ 63) + 2 ^ 63) (2 ^ 64)) as H2.
  set (q2 := (now - (r1 - 2 ^ 63) + 2 ^ 63) / 2 ^ 64) in *. set (r2 := (now - (r1 - 2 ^ 63) + 2 ^ 63) mod 2 ^ 64) in *.
  symmetry. apply (Z.mod_unique_pos _ _ (2 ^ 32 * (q1 - q2))); lia.
Qed.

(** Pausing and resuming continues where playback was: pausing a playing device tells the player to pause and
    keeps the position it has at that moment, which is also the one other devices see; resuming tells the player
    to play and restarts the clock so that the position at that moment is the one it was paused at. *)
Theorem pause_resume_continues {B : Backend} {E : Env} {P : Probing} {Q : QueueHash} {R : Rng}
  (s : SpircTask) (start : Z) (preloading : bool) (Hs : play_status s = Playing start preloading) :
  let s1 := (handle_pause s).2 in
  let s2 := (handle_play s1).2 in
  exists now1 now2 start2,
    play_status s1 = Paused (elapsed now1 start) preloading /\
    ps_position_as_of_timestamp (player (connect_state s1)) = elapsed now1 start /\
    trace s1 = trace s ++ [ToPlayer CmdPause] /\
    play_status s2 = Playing start2 preloading /\ elapsed now2 start2 = elapsed now1 start /\
    exists rest, trace s2 = trace s1 ++ ToPlayer CmdPlay :: rest.
Proof.
  cbv zeta. assert (exists now1 s1, handle_pause s = (Ok tt, s1) /\ play_status s1 = Paused (elapsed now1 start) preloading /\
    ps_position_as_of_timestamp (player (connect_state s1)) = elapsed now1 start /\
    trace s1 = trace s ++ [ToPlayer CmdPause]) as (now1 & s1 & -> & H1 & H2 & H3).
  { unfold handle_pause. run_step. rewrite Hs. run_step. set (s0 := set_trace _ s). destruct (now_frame s0) as [now Hn].
    run_with Hn. cbv zeta. destruct (position_frame (elapsed now start) (set_ticks (S (ticks s0)) s0)) as [now' Hp].
    run_with Hp. eexists _, _. split; [reflexivity|]. split; [reflexivity|]. split; reflexivity. }
  simpl. assert (exists now2 s2, handle_play s1 = set_task_volume (mixer_volume (mixer s2)) s2 /\
    play_status s2 = Playing (i64 (now2 - elapsed now1 start)) preloading /\ trace s2 = trace s1 ++ [ToPlayer CmdPlay])
    as (now2 & s2 & -> & H4 & H5).
  { unfold handle_play. run_step. rewrite H1. run_step. set (s0 := set_trace _ s1).
    destruct (position_frame (elapsed now1 start) s0) as [now Hp]. run_with Hp. set (s3 := set_connect_state _ _).
    destruct (now_frame s3) as [now2 Hn]. run_with Hn. run_step. run_step. eexists _, _. split; [reflexivity|].
    split; reflexivity. }
  destruct (volume_frame (mixer_volume (mixer s2)) s2) as (s3 & rest & -> & H6 & H7).
  exists now1, now2, (i64 (now2 - elapsed now1 start)). simpl. split_and!; try done.
  - by rewrite H6.
  - apply elapsed_start, wrap_fits. lia.
  - exists rest. rewrite H7, H5. by rewrite <- app_assoc.
Qed.

(** A repeated track starts over: when the player reports the end of the current track and the track is to be
    repeated, the same track is loaded again from the start with the next tracks as they were, and the state is
    reported; the report of a track that is no longer the current one changes nothing. *)
Theorem end_of_track_repeats {B : Backend} {E : Env} {P : Probing} {Q : QueueHash} {R : Rng} {F : Fuel}
  (s : SpircTask) (id current : Z) (track_id uri : SpotifyUri) (t : ProvidedTrack)
  (Hid : play_request_id s = Some current) (Ht : current_track (connect_state s) = Some t)
  (Hrep : repeat_track (connect_state s) = true) (Huri : from_uri (pt_uri t) = Ok uri) :
  let r := handle_player_event (EvEndOfTrack id track_id) s in
  if id =? current then
    r.1 = Ok tt /\ current_track (connect_state r.2) = Some t /\
    next_tracks (connect_state r.2) = next_tracks (connect_state s) /\ update_state r.2 = true /\
    trace r.2 = trace s ++ [ToPlayer (CmdLoad uri (is_playing (connect_state s)) 0)]
  else r = (Ok tt, s).
Proof.
  cbv zeta. unfold handle_player_event. run_step. rewrite Hid. simpl. destruct (id =? current); [|done].
  assert (exists s', handle_next (Some (current_uri (connect_state s))) s = (Ok tt, s') /\
    current_track (connect_state s') = Some t /\ next_tracks (connect_state s') = next_tracks (connect_state s) /\
    trace s' = trace s ++ [ToPlayer (CmdLoad uri (is_playing (connect_state s)) 0)]) as (s' & En & H1 & H2 & H3).
  { unfold handle_next. do 2 run_step. rewrite String.eqb_refl. run_step.
    destruct (autoplay_frame s) as (r & n & Ea). run_with Ea.
    destruct (load_track_spec (is_playing (connect_state s)) 0 (set_resolver r (set_ticks n s)) t uri Ht Huri)
      as (s' & El & _ & Htr & Hct & Hnt). by exists s'. }
  assert (handle_track_event (EvEndOfTrack id track_id) s = (Ok true, s')) as Eh.
  { unfold handle_track_event. do 2 run_step. rewrite Hrep. by run_with En. }
  run_with Eh. done.
Qed.

(** ** Examples *)

(** A shuffled play request whose tracks all have addresses that cannot be parsed leaves an empty context, and
    drawing a random track of it panics. *)
Lemma unplayable_shuffle_crashes :
  let play := CPlay (mkContext None None ∅ None [page_of_uris ["spotify:unknown"]]) PlayerPlayOrigin_default
    (mkPlayOptions None (Some (mkContextPlayerOptions (Some true) None None None ∅)) None) in
  (handle_event (OnRequest (mkRequest 1 "phone" play)) ex_task).1 = Panic.
Proof. by vm_compute. Qed.

(** Switching the filter for explicit content off is not announced to the player's listeners. *)
Lemma filter_off_silent :
  let on := (handle_event (OnAttributesUpdate (Some {["filter-explicit-content" := "1"]})) ex_task).2 in
  let off := (handle_event (OnAttributesMutation (Some ["filter-explicit-content"])) on).2 in
  filter_explicit_content (session off) = false /\ trace off = trace on.
Proof. by vm_compute. Qed.

(** ** Witnesses *)

Lemma ex_spirc_env_ok : @EnvOk _ ex_env.
Proof.
  constructor.
  - intros t [uri|uri l] ctx [= <-]. constructor; [apply page_of_uris_ok|constructor].
  - intros t r cl tr [= <-]. done.
Qed.

Lemma ex_started_reachable :
  spirc_reachable (start (spirc_task_new ConnectConfig_default ex_session ex_sp_session (0 : @Mixer _ ex_env))).2 ex_started.
Proof.
  unfold ex_started, ex_task. apply reachable_once; [reflexivity|exact I|vm_compute; lia|by vm_compute].
Qed.

Lemma ex_task_inv {L : Limits} : SInv ex_task.
Proof. exact (sinv_start ConnectConfig_default ex_session ex_sp_session (0 : @Mixer _ ex_env) eq_refl). Qed.

Lemma ex_started_inv : SInv (L := limits_of 0 80) ex_started.
Proof.
  pose proof (survives_event (L := limits_of 0 80) (ROk := lcg_ok) (EOk := ex_spirc_env_ok) False
    (Nat.lt_0_succ 99) ex_play ex_task I) as H.
  refine (wp_result _ _ _ (H _ _ _ ex_task_inv)); [split; cbn; lia|vm_compute; lia|by vm_compute].
Qed.

Definition ex_long_queue : Event (B := toy true true) :=
  OnRequest (mkRequest 2 "phone" (CSetQueue (replicate 90 (mkProvidedTrack "spotify:track:x" EmptyString ∅ EmptyString)) [])).

(** A queue of 90 tracks is accepted and kept. *)
Lemma controller_survives_witness :
  (iterate ex_long_queue ex_started).1 <> Panic /\
  SInv (L := limits_of 0 90) (iterate ex_long_queue ex_started).2.
Proof.
  destruct (controller_survives (ROk := lcg_ok) (EOk := ex_spirc_env_ok) ConnectConfig_default ex_session ex_sp_session
    (0 : @Mixer _ ex_env) ex_started ex_long_queue) as [_ H]; [by vm_compute|exact ex_started_reachable|exact I|vm_compute; lia|].
  assert ((iterate ex_long_queue ex_started).1 <> Panic) as Hp by (by vm_compute).
  split; [exact Hp|]. eapply sinv_weaken; [| |exact (H Hp)]; vm_compute; lia.
Defined.

Lemma disconnect_releases_witness :
  inactive (connect_state (handle_disconnect ex_started).2) /\ play_status (handle_disconnect ex_started).2 = Stopped.
Proof.
  destruct (disconnect_releases ex_started (handle_disconnect ex_started).2 ex_started_inv) as (H1 & _ & H2 & _);
    [by vm_compute|]. exact (conj H1 H2).
Defined.

Lemma shutdown_outcome_witness :
  let '(r, s') := handle_event (OnCommand (Some SpShutdown)) ex_started in r = Ok true /\ running s' = false.
Proof.
  pose proof (shutdown_outcome (ROk := lcg_ok) (EOk := ex_spirc_env_ok) ex_started ex_started_inv) as Hs.
  destruct (handle_event _ ex_started) as [r s']. destruct Hs as (H1 & H2 & _). split; [exact H1|].
  by apply H2.
Defined.

Definition ex_playing : SpircTask := set_play_status (Playing 0 false) ex_started.

Lemma pause_resume_continues_witness :
  exists p start2, play_status (handle_pause ex_playing).2 = Paused p false /\
    play_status (handle_play (handle_pause ex_playing).2).2 = Playing start2 false.
Proof.
  destruct (pause_resume_continues ex_playing 0 false eq_refl) as (now1 & now2 & start2 & H1 & _ & _ & H2 & _).
  exists (elapsed now1 0), start2. exact (conj H1 H2).
Defined.

Definition ex_repeat_track : SpircTask :=
  set_play_request_id (Some 3) (set_connect_state (set_repeat_track true (connect_state ex_started)) ex_started).

Lemma end_of_track_repeats_witness :
  (handle_player_event (EvEndOfTrack 3 toy_track) ex_repeat_track).1 = Ok tt.
Proof.
  pose proof (end_of_track_repeats ex_repeat_track 3 3 toy_track (Track (mkSpotifyId 238762092608182713602505436543891614649))
    (track_or_default (current_track (connect_state ex_repeat_track)))) as Hr.
  destruct Hr as (H1 & _); [by vm_compute..|]. exact H1.
Defined.
