(* ===== verification/OAuth.v ===== *)
(** * OAuth ([native/librespot/oauth/src/lib.rs])

    Two ways to get an access token: the authorization code flow, which sends the user to a web
    page and waits for the redirect, and the device flow the Radio pairs with, which shows an
    address and polls. The oauth2 crate, URL parsing, sockets and standard input are parameters;
    what is printed and opened is the state. The supervisor reads the printed address ([Helpers]). *)
From S2P Require Import Prelude Text Helpers Events Errors Auth Tokens Effect.

Definition AUTH_URL : string := "https://accounts.spotify.com/authorize".
Definition TOKEN_URL : string := "https://accounts.spotify.com/api/token".
Definition DEVICE_AUTHORIZATION_URL : string := "https://accounts.spotify.com/oauth2/device/authorize".

(** ** Tokens *)

(** [StandardTokenResponse]; [tr_type] is the printed type. *)
Record TokenResponse := mkTokenResponse {
  tr_access : string; tr_refresh : option string; tr_expires : option Z; tr_type : string; tr_scopes : option (list string)
}.

Record OAuthToken := mkOAuthToken {
  access_token : string; refresh_token : string; expires_at : Z; token_type : string; token_scopes : list string
}.

(** Times are in nanoseconds; an [Instant] out of range is a panic. *)
Definition build_token (now : Z) (resp : TokenResponse) (default_scopes : list string) : res OAuthError OAuthToken :=
  match time_add now (default (3600 * SECOND) (tr_expires resp)) with
  | Some t => Ok (mkOAuthToken (tr_access resp) (default "" (tr_refresh resp)) t (tr_type resp) (default default_scopes (tr_scopes resp)))
  | None => Panic
  end.

(** ** What the program prints *)

Record Out := mkOut { stdout : list string; opened : list string }.

Section oauth.

(** [Url::parse] with [query_pairs]; [parse_redirect] gives the scheme, the port that is written in
    the URL, and the socket addresses. *)
Context {SocketAddr : Type}.
Variable query_pairs : string -> option (list (string * string)).
Variable parse_redirect : string -> option (string * option Z * option (list SocketAddr)).

#[local] Abbreviation M := (eff Out OAuthError).

Definition println (line : string) : M unit := modify (fun o => mkOut (stdout o ++ [line]) (opened o)).
Definition open_url (url : string) : M unit := modify (fun o => mkOut (stdout o) (opened o ++ [url])).

(** ** The authorization code *)

Definition get_code (redirect_url : string) : res OAuthError string :=
  pairs ← ok_or AuthCodeBadUri (query_pairs redirect_url);
  kv ← ok_or AuthCodeNotFound (find (fun kv => String.eqb kv.1 "code") pairs);
  Ok kv.2.

Definition get_authcode_stdin (read_line : res IoErrorKind string) : M string :=
  _ ← println "Provide redirect URL";
  match read_line with
  | Ok buffer => of_res (get_code (trim buffer))
  | _ => throw AuthCodeStdinRead
  end.

(** A connection to the listener: its first line and whether the answer can be written. *)
Record Connection := mkConnection { request_line : res IoErrorKind string; write_all : string -> res IoErrorKind unit }.

Definition http_response (message : string) : string :=
  let crlf := String (code_char 13) (String (code_char 10) "") in
  "HTTP/1.1 200 OK" +:+ crlf +:+ "content-length: " +:+ show_Z (Z.of_nat (String.length message)) +:+ crlf +:+ crlf +:+ message.

(** [incoming().flatten().next()] is the first connection that was accepted. The code is only
    returned after the answer was written. *)
Definition get_authcode_listener (bind : res IoErrorKind unit) (incoming : list (res IoErrorKind Connection)) (message : string) :
    res OAuthError string :=
  _ ← (match bind with Ok _ => Ok tt | _ => Err AuthCodeListenerBind end);
  stream ← ok_or AuthCodeListenerTerminated (head (omap res_ok incoming));
  line ← (match request_line stream with Ok l => Ok l | _ => Err AuthCodeListenerRead end);
  redirect_url ← ok_or AuthCodeListenerParse (words (String.length line) line !! 1%nat);
  let code := get_code ("http://localhost" +:+ redirect_url) in
  _ ← (match write_all stream (http_response message) with Ok _ => Ok tt | _ => Err AuthCodeListenerWrite end);
  code.

(** Only an HTTP address with a port can be listened on; [pop] takes the last address. *)
Definition get_socket_address (redirect_uri : string) : option SocketAddr :=
  match parse_redirect redirect_uri with
  | Some (scheme, Some _, addrs) => if String.eqb scheme "http" then addrs ← addrs; last addrs else None
  | _ => None
  end.

(** ** Clients *)

Inductive Grant := GCode (code verifier : string) | GRefresh (token : string).

Record OAuthClient := mkOAuthClient {
  oc_scopes : list string; redirect_uri : string; oc_should_open_url : bool; message : string; oc_client_id : string
}.

Record OAuthClientBuilder := mkOAuthClientBuilder {
  ob_client_id : string; ob_redirect_uri : string; ob_scopes : list string; ob_should_open_url : bool; ob_message : string
}.
Definition client_builder_new (client_id redirect_uri : string) (scopes : list string) : OAuthClientBuilder :=
  mkOAuthClientBuilder client_id redirect_uri scopes false "Go back to your terminal :)".
Definition client_open_in_browser (b : OAuthClientBuilder) : OAuthClientBuilder :=
  mkOAuthClientBuilder (ob_client_id b) (ob_redirect_uri b) (ob_scopes b) true (ob_message b).
Definition with_custom_message (m : string) (b : OAuthClientBuilder) : OAuthClientBuilder :=
  mkOAuthClientBuilder (ob_client_id b) (ob_redirect_uri b) (ob_scopes b) (ob_should_open_url b) m.

(** [valid_url] is whether the crate accepts an address. *)
Definition client_build (valid_url : string -> bool) (b : OAuthClientBuilder) : res OAuthError OAuthClient :=
  if negb (valid_url AUTH_URL) then Err InvalidSpotifyUri
  else if negb (valid_url TOKEN_URL) then Err InvalidSpotifyUri
  else if negb (valid_url (ob_redirect_uri b)) then Err InvalidRedirectUri
  else Ok (mkOAuthClient (ob_scopes b) (ob_redirect_uri b) (ob_should_open_url b) (ob_message b) (ob_client_id b)).

(** The address with the scopes and the challenge; the verifier is kept for the exchange. The state
    parameter the crate draws is dropped. *)
Definition set_auth_url (authorize_url : list string -> string -> string) (challenge : string) (c : OAuthClient) : M unit :=
  let auth_url := authorize_url (oc_scopes c) challenge in
  _ ← (if oc_should_open_url c then open_url auth_url else mret tt);
  println ("Browse to: " +:+ auth_url).

(** Where the code comes from: the listener at the address of the redirect, or standard input. *)
Definition obtain_code (bind : SocketAddr -> res IoErrorKind unit) (incoming : list (res IoErrorKind Connection))
    (read_line : res IoErrorKind string) (c : OAuthClient) : M string :=
  match get_socket_address (redirect_uri c) with
  | Some addr => of_res (get_authcode_listener (bind addr) incoming (message c))
  | None => get_authcode_stdin read_line
  end.

(** [exchange] is the token endpoint; its thread is gone without an answer when it gives [None]. *)
Definition client_get_access_token (now : Z) (authorize_url : list string -> string -> string) (challenge verifier : string)
    (bind : SocketAddr -> res IoErrorKind unit) (incoming : list (res IoErrorKind Connection)) (read_line : res IoErrorKind string)
    (exchange : Grant -> option (res string TokenResponse)) (c : OAuthClient) : M OAuthToken :=
  _ ← set_auth_url authorize_url challenge c;
  code ← obtain_code bind incoming read_line c;
  match exchange (GCode code verifier) with
  | None => throw Recv
  | Some (Ok resp) => of_res (build_token now resp (oc_scopes c))
  | Some _ => throw ExchangeCode
  end.

Definition client_refresh_token (now : Z) (exchange : Grant -> res string TokenResponse) (token : string) (c : OAuthClient) :
    res OAuthError OAuthToken :=
  match exchange (GRefresh token) with Ok resp => build_token now resp (oc_scopes c) | _ => Err ExchangeCode end.

(** ** The device flow *)

Record DeviceAuthorization := mkDeviceAuthorization {
  user_code : string; verification_uri : string; verification_uri_complete : option string
}.
Definition auth_url (a : DeviceAuthorization) : string := default (verification_uri a) (verification_uri_complete a).

Record DeviceAuthClient := mkDeviceAuthClient { dc_scopes : list string; dc_should_open_url : bool; dc_client_id : string }.

Record DeviceAuthClientBuilder := mkDeviceAuthClientBuilder { db_client_id : string; db_scopes : list string; db_should_open_url : bool }.
Definition device_builder_new (client_id : string) (scopes : list string) : DeviceAuthClientBuilder :=
  mkDeviceAuthClientBuilder client_id scopes false.
Definition device_open_in_browser (b : DeviceAuthClientBuilder) : DeviceAuthClientBuilder :=
  mkDeviceAuthClientBuilder (db_client_id b) (db_scopes b) true.
Definition device_build (valid_url : string -> bool) (b : DeviceAuthClientBuilder) : res OAuthError DeviceAuthClient :=
  if negb (valid_url DEVICE_AUTHORIZATION_URL) then Err InvalidSpotifyUri
  else if negb (valid_url TOKEN_URL) then Err InvalidSpotifyUri
  else Ok (mkDeviceAuthClient (db_scopes b) (db_should_open_url b) (db_client_id b)).

Definition announce (auth : DeviceAuthorization) (c : DeviceAuthClient) : M unit :=
  let url := auth_url auth in
  _ ← (if dc_should_open_url c then open_url url else mret tt);
  _ ← println ("Browse to: " +:+ url);
  println ("If prompted, enter code: " +:+ user_code auth).

(** The device endpoint, and the token endpoint that the crate polls until the user has answered;
    the asynchronous variants do the same. *)
Variable device_code : list string -> res string DeviceAuthorization.
Variable poll_device : DeviceAuthorization -> res string TokenResponse.

Definition request_device_code (c : DeviceAuthClient) : res OAuthError DeviceAuthorization :=
  match device_code (dc_scopes c) with Ok a => Ok a | _ => Err DeviceCode end.

Definition poll_for_token (now : Z) (auth : DeviceAuthorization) (c : DeviceAuthClient) : res OAuthError OAuthToken :=
  match poll_device auth with Ok resp => build_token now resp (dc_scopes c) | _ => Err ExchangeDeviceCode end.

Definition device_get_access_token (now : Z) (c : DeviceAuthClient) : M OAuthToken :=
  auth ← of_res (request_device_code c);
  _ ← announce auth c;
  of_res (poll_for_token now auth c).

Definition device_refresh_token (now : Z) (exchange : Grant -> res string TokenResponse) (token : string) (c : DeviceAuthClient) :
    res OAuthError OAuthToken :=
  match exchange (GRefresh token) with Ok resp => build_token now resp (dc_scopes c) | _ => Err ExchangeCode end.

(** The deprecated function: the same steps as the client, with the settings of a new builder. *)
Definition get_access_token (valid_url : string -> bool) (now : Z) (authorize_url : list string -> string -> string)
    (challenge verifier : string) (bind : SocketAddr -> res IoErrorKind unit) (incoming : list (res IoErrorKind Connection))
    (read_line : res IoErrorKind string) (exchange : Grant -> option (res string TokenResponse))
    (client_id redirect_uri : string) (scopes : list string) : M OAuthToken :=
  c ← of_res (client_build valid_url (client_builder_new client_id redirect_uri scopes));
  client_get_access_token now authorize_url challenge verifier bind incoming read_line exchange c.

(** ** Lemmas *)

Lemma starts_with_append p s : starts_with (p +:+ s) p = true.
Proof. induction p as [|c p IH]; [by destruct s|]. cbn. by rewrite Ascii.eqb_refl. Qed.

Lemma find_from_skip c p pre s : no_char c pre = true -> find_from (pre +:+ s) (String c p) = find_from s (String c p).
Proof.
  induction pre as [|a pre IH]; [done|]. cbn. intros [Ha Hp]%andb_true_iff. rewrite Ascii.eqb_sym. apply negb_true_iff in Ha. rewrite Ha. cbn. by apply IH.
Qed.

Lemma browse_line url : Supervisor.line_status ("Browse to: " +:+ url) = Some ("pairing", Some ("url", trim url)).
Proof.
  unfold Supervisor.line_status. assert (find_from ("Browse to: " +:+ url) "Browse to: " = Some ("Browse to: " +:+ url)) as ->.
  { pose proof (starts_with_append "Browse to: " url) as H. destruct ("Browse to: " +:+ url); cbn [find_from]; by rewrite H. }
  assert (Supervisor.drop_str 11 ("Browse to: " +:+ url) = url) as ->; [|done].
  unfold Supervisor.drop_str. cbn. rewrite Nat.sub_0_r. apply substring_all.
Qed.

Lemma code_line code : str_contains code "Browse to: " = false -> str_contains code "Authenticated as" = false ->
  Supervisor.line_status ("If prompted, enter code: " +:+ code) = None.
Proof.
  unfold Supervisor.line_status, str_contains. intros Hb Ha. rewrite (find_from_skip "B" "rowse to: "), (find_from_skip "A" "uthenticated as") by done.
  destruct (find_from code "Browse to: "); [done|]. by rewrite Ha.
Qed.

(** ** Properties *)

(** C25: Pairing works end to end. When the device endpoint answers, the client prints the address
    and the code, the supervisor that reads these lines publishes the status [pairing] with exactly
    that address for the applet, and then the outcome is that of the user's answer: the access token
    of the token endpoint with its scopes and its time, or an error when the user declined. The
    address is assumed to have no white space around it and the code not to imitate the two messages
    the supervisor looks for. *)
Theorem pairing_reaches_applet (now : Z) (c : DeviceAuthClient) (a : DeviceAuthorization) (o : Out)
    (Ha : device_code (dc_scopes c) = Ok a) (Hurl : trim (auth_url a) = auth_url a)
    (Hb : str_contains (user_code a) "Browse to: " = false) (Hc : str_contains (user_code a) "Authenticated as" = false) :
  let '(r, o') := device_get_access_token now c o in
  exists lines, stdout o' = stdout o ++ lines /\
  Supervisor.status_file lines None = Supervisor.status_json "pairing" (Some ("url", auth_url a)) /\
  match poll_device a with
  | Ok resp =>
      forall t, time_add now (default (3600 * SECOND) (tr_expires resp)) = Some t ->
        exists tok, r = Ok tok /\ access_token tok = tr_access resp /\ expires_at tok = t /\
          token_scopes tok = default (dc_scopes c) (tr_scopes resp)
  | _ => r = Err ExchangeDeviceCode
  end.
Proof.
  unfold device_get_access_token, request_device_code. rewrite Ha.
  assert (exists o', announce a c o = (Ok tt, o') /\
    stdout o' = stdout o ++ ["Browse to: " +:+ auth_url a; "If prompted, enter code: " +:+ user_code a]) as (o' & Han & Hout).
  { unfold announce. destruct (dc_should_open_url c); eexists; (split; [reflexivity|]); cbn; by rewrite <- app_assoc. }
  run_step. run_with Han. unfold of_res. exists ["Browse to: " +:+ auth_url a; "If prompted, enter code: " +:+ user_code a].
  split_and!; [done| |].
  - unfold Supervisor.status_file, Supervisor.statuses. cbn [omap list_omap]. rewrite browse_line, code_line, Hurl by done. done.
  - unfold poll_for_token, build_token. destruct (poll_device a) as [resp| |]; [|done..]. intros t ->. by eexists.
Qed.

End oauth.

(** ** Examples *)

Definition ex_auth : DeviceAuthorization := mkDeviceAuthorization "ABCD" "https://spotify.com/pair" (Some "https://spotify.com/pair?code=ABCD").
Definition ex_device_code (scopes : list string) : res string DeviceAuthorization := Ok ex_auth.
Definition ex_poll (a : DeviceAuthorization) : res string TokenResponse := Ok (mkTokenResponse "token" None (Some SECOND) "Bearer" None).
Definition ex_client : DeviceAuthClient := mkDeviceAuthClient ["streaming"] false "id".

(** The address of the redirect is what decides where the code is read. *)
Example ex_listener : get_authcode_listener (fun _ => Some [("state", "x"); ("code", "42")]) (Ok tt)
  [Err IoOther; Ok (mkConnection (Ok "GET /login?code=42 HTTP/1.1") (fun _ => Ok tt))] "bye" = Ok "42".
Proof. reflexivity. Qed.

Lemma pairing_reaches_applet_witness :
  (device_get_access_token ex_device_code ex_poll 0 ex_client (mkOut [] [])).1 =
    Ok (mkOAuthToken "token" "" SECOND "Bearer" ["streaming"]) /\
  trim (auth_url ex_auth) = auth_url ex_auth.
Proof.
  assert (trim (auth_url ex_auth) = auth_url ex_auth) as Hu by (vm_compute; reflexivity). split; [|exact Hu].
  pose proof (pairing_reaches_applet ex_device_code ex_poll 0 ex_client ex_auth (mkOut [] []) eq_refl Hu eq_refl eq_refl) as H.
  destruct (device_get_access_token _ _ _ _ _) as [r o'] eqn:E. destruct H as (lines & _ & _ & Hp).
  destruct (Hp SECOND eq_refl) as (tok & -> & _). vm_compute in E. injection E as <- _. reflexivity.
Defined.
