(* ===== verification/Options.v ===== *)
(** * Command line ([native/librespot/src/main.rs], [playback/src/config.rs], [audio_backend/mod.rs], [mixer/mod.rs], [dither.rs])

    [get_setup] turns the arguments and the environment into the configuration of the program, or
    ends it. The build is the one for the Radio: no ALSA, the [pipe] and [subprocess] backends, the
    [libmdns] discovery and the passthrough decoder. The getopts crate is the record [Matches] of
    what it found, SHA-1 and URL parsing are parameters, and floating-point numbers are the class
    [Float]. An outcome [Err n] is [exit(n)]. Messages are left out, warnings with them. *)
From S2P Require Import Prelude Text SpotifyId Errors Config Auth Cache Discovery TrackLoader ConnectState.

(** ** Floating point *)

(** What the options need of [f64] and [f32]. *)
Class Float := {
  f64 : Type;
  parse_f64 : string -> option f64;
  f64_of : Z -> f64;
  f64_leb : f64 -> f64 -> bool;
  is_finite : f64 -> bool;
  scaled : f64 -> Z -> Z;                  (* [(x * n as f64) as u64] *)
  duration_to_coefficient : Z -> f64;      (* of milliseconds *)
  percent_of_volume : Z -> Z               (* [(x as f32 / 100.0 * 65535 as f32) as u16] *)
}.

(** A cast to an unsigned type gives a value of the type, and zero times a finite number is zero. *)
Class FloatOk {F : Float} : Prop := {
  scaled_fits x n : fits 64 (scaled x n);
  scaled_zero x : is_finite x = true -> scaled x 0 = 0;
  percent_fits x : fits 16 (percent_of_volume x)
}.

Section options.
Context {F : Float}.

(** [(lo..=hi).contains(&x)] *)
Definition f64_within (lo hi : Z) (x : f64) : bool := f64_leb (f64_of lo) x && f64_leb x (f64_of hi).

(** ** Values of options *)

(** [str::to_uppercase], up to characters without an ASCII upper case; the long s is the bytes 197, 191. *)
Definition upper_char (c : ascii) : ascii :=
  let z := char_code c in if (97 <=? z) && (z <=? 122) then code_char (z - 32) else c.
Fixpoint to_uppercase (s : string) : string :=
  match s with
  | EmptyString => EmptyString
  | String c s1 =>
      let plain := String (upper_char c) (to_uppercase s1) in
      match s1 with
      | String c2 s2 => if (char_code c =? 197) && (char_code c2 =? 191) then String "S"%char (to_uppercase s2) else plain
      | EmptyString => plain
      end
  end.

Inductive AudioFormat := F64 | F32 | S32 | S24 | S24_3 | S16.

Definition format_from_str (s : string) : option AudioFormat :=
  assoc (to_uppercase s) [("F64", F64); ("F32", F32); ("S32", S32); ("S24", S24); ("S24_3", S24_3); ("S16", S16)].

Definition format_size (f : AudioFormat) : Z :=
  match f with F64 => 8 | F32 => 4 | S24_3 => 3 | S16 => 2 | S32 | S24 => 4 end.

Inductive NormalisationType := Album | Track | Auto.
Definition normalisation_type_from_str (s : string) : option NormalisationType :=
  assoc (to_lowercase s) [("album", Album); ("track", Track); ("auto", Auto)].

Inductive NormalisationMethod := Basic | Dynamic.
Definition normalisation_method_from_str (s : string) : option NormalisationMethod :=
  assoc (to_lowercase s) [("basic", Basic); ("dynamic", Dynamic)].

Inductive VolumeCtrl := Cubic (range : f64) | Fixed | Linear | Log (range : f64).
Definition MAX_VOLUME : Z := 65535.
Definition DEFAULT_DB_RANGE : f64 := f64_of 60.
Definition from_str_with_range (s : string) (db_range : f64) : option VolumeCtrl :=
  assoc (to_lowercase s) [("cubic", Cubic db_range); ("fixed", Fixed); ("linear", Linear); ("log", Log db_range)].

Inductive Ditherer := Triangular | Gaussian | HighPass.
Definition find_ditherer (name : option string) : option Ditherer :=
  name ← name; assoc name [("tpdf", Triangular); ("gpdf", Gaussian); ("tpdf_hp", HighPass)].

Inductive SinkBuilder := StdoutSink | SubprocessSink.
Definition BACKENDS : list (string * SinkBuilder) := [("pipe", StdoutSink); ("subprocess", SubprocessSink)].
Definition find_sink (name : option string) : option SinkBuilder :=
  match name with Some name => assoc name BACKENDS | None => snd <$> head BACKENDS end.

Inductive MixerFn := SoftMixer.
Definition MIXERS : list (string * MixerFn) := [("softvol", SoftMixer)].
Definition find_mixer (name : option string) : option MixerFn :=
  match name with Some name => assoc name MIXERS | None => snd <$> head MIXERS end.

(** The discovery backends of the build. *)
Definition DISCOVERY_BACKENDS : list (string * bool) := [("avahi", false); ("dns-sd", false); ("libmdns", true)].

(** ** Configurations *)

Record MixerConfig := mkMixerConfig { mx_device : string; mx_control : string; mx_index : Z; volume_ctrl : VolumeCtrl }.
Definition mixer_config_default : MixerConfig := mkMixerConfig "default" "PCM" 0 (Log DEFAULT_DB_RANGE).

Record PlayerConfig := mkPlayerConfig {
  bitrate : Bitrate; gapless : bool; passthrough : bool; normalisation : bool;
  normalisation_type : NormalisationType; normalisation_method : NormalisationMethod;
  pregain_db : f64; threshold_dbfs : f64; attack_cf : f64; release_cf : f64; knee_db : f64;
  local_file_directories : list string; ditherer : option Ditherer; position_update_interval : option Z
}.
Definition player_config_default : PlayerConfig :=
  mkPlayerConfig Bitrate160 true false false Auto Dynamic (f64_of 0) (f64_of (-2)) (duration_to_coefficient 5)
    (duration_to_coefficient 100) (f64_of 5) [] (Some Triangular) None.

(** ** Sizes *)

Inductive ParseFileSizeError := EmptyInput | InvalidSuffix | InvalidNumber | NotFinite.

(** The exponent of a suffix, and whether it is part of the number. *)
Definition suffix_exponent (iec : bool) (c : ascii) : option (Z * bool) :=
  match digit_of c with
  | Some _ => if iec then None else Some (0, true)
  | None =>
      (fun e => (e, false)) <$> assoc (String (upper_char c) EmptyString)
        [("K", 1); ("M", 2); ("G", 3); ("T", 4); ("P", 5); ("E", 6); ("Z", 7); ("Y", 8)]
  end.

(** The characters are taken from the end; a suffix is ASCII, so its characters are bytes. The
    power of the base is a [u64] that wraps around. *)
Definition parse_file_size (input : string) : res ParseFileSizeError Z :=
  match str_rev input with
  | EmptyString => Err EmptyInput
  | String c rest =>
      let iec := Ascii.eqb c "i"%char || Ascii.eqb c "I"%char in
      '(suffix, rest) ← (if iec then match rest with EmptyString => Err InvalidSuffix | String c rest => Ok (c, rest) end else Ok (c, rest));
      let base := if iec then 1024 else 1000 in
      '(exponent, digit) ← ok_or InvalidSuffix (suffix_exponent iec suffix);
      num ← ok_or InvalidNumber (parse_f64 (if digit : bool then input else str_rev rest));
      if is_finite num then Ok (scaled num (wrap 64 (base ^ exponent))) else Err NotFinite
  end.

(** ** Options from the command line and the environment *)

(** What [getopts] found: which options exist, which were given and with which values. *)
Record Matches := mkMatches {
  opt_defined : string -> bool;
  m_present : string -> bool;
  m_str : string -> option string;
  m_strs : string -> list string
}.

(** Strings of the system that are not Unicode are [None]. *)
Definition valid_args (args_os : list (option string)) : list string := omap (fun s => s) args_os.

(** [trim_start_matches("LIBRESPOT_")]: repeated prefixes are stripped. *)
Definition stripped_env_key (k : string) : string :=
  to_lowercase (replace_char "_" "-" (trim_start_go (String.length k) ["LIBRESPOT_"] k)).

(** [chars().count()]: the bytes that start a character. *)
Definition char_count (s : string) : nat := length (filter (fun b => negb ((128 <=? b) && (b <=? 191)) = true) (bytes s)).

Definition env_vars (m : Matches) (vars_os : list (option string * option string)) : list (string * string) :=
  omap (fun '(k, v) =>
    key ← k;
    if starts_with key "LIBRESPOT_" && (1 <? char_count (stripped_env_key key))%nat && opt_defined m (stripped_env_key key)
    then (fun value => (key, value)) <$> v else None) vars_os.

Record Opts := mkOpts { matches : Matches; vars : list (string * string) }.

Definition opt_present (o : Opts) (opt : string) : bool :=
  m_present (matches o) opt || existsb (fun kv => String.eqb (stripped_env_key kv.1) opt) (vars o).

Definition opt_str (o : Opts) (opt : string) : option string :=
  if m_present (matches o) opt then m_str (matches o) opt
  else snd <$> find (fun kv => String.eqb (stripped_env_key kv.1) opt) (vars o).

(** [.map(|s| parse(s).unwrap_or_else(|_| exit(1)))] *)
Definition parse_opt {A} (o : Opts) (opt : string) (parse : string -> option A) : res Z (option A) :=
  match opt_str o opt with
  | Some s => match parse s with Some a => Ok (Some a) | None => Err 1 end
  | None => Ok None
  end.

(** [Ok(value) if value != 0 => value] of a port *)
Definition parse_port (s : string) : option Z :=
  v ← parse_uint 16 s; if v =? 0 then None else Some v.

Definition non_empty (s : string) : option string := if is_empty s then None else Some s.
Definition parse_within (w lo hi : Z) (s : string) : option Z :=
  v ← parse_uint w s; if (lo <=? v) && (v <=? hi) then Some v else None.
Definition parse_f64_within (lo hi : Z) (s : string) : option f64 :=
  v ← parse_f64 s; if f64_within lo hi v then Some v else None.

(** ** The parts of [get_setup] *)

Definition get_backend (o : Opts) : res Z SinkBuilder :=
  let name := opt_str o "backend" in
  if bool_decide (name = Some "?") then Err 0 else ok_or 1 (find_sink name).

Definition get_format (o : Opts) : res Z AudioFormat :=
  f ← parse_opt o "format" format_from_str; Ok (default S16 f).

(** Both backends end the program when the device is a question mark. *)
Definition get_device (o : Opts) : res Z (option string) :=
  match opt_str o "device" with
  | Some value => if String.eqb value "?" then Err 0 else if is_empty value then Err 1 else Ok (Some value)
  | None => Ok None
  end.

Definition get_mixer_config (o : Opts) : res Z MixerConfig :=
  range ← parse_opt o "volume-range" (parse_f64_within 0 100);
  let volume_range := default DEFAULT_DB_RANGE range in
  ctrl ← parse_opt o "volume-ctrl" (fun s => from_str_with_range s volume_range);
  Ok (mkMixerConfig (mx_device mixer_config_default) (mx_control mixer_config_default) (mx_index mixer_config_default)
        (default (Log volume_range) ctrl)).

Definition get_autoplay (o : Opts) : res Z (option bool) :=
  parse_opt o "autoplay" (fun s => assoc s [("on", true); ("off", false)]).

Definition get_credentials (o : Opts) (cached_creds : option Credentials) : res Z (option Credentials) :=
  match opt_str o "access-token" with
  | Some access_token => if is_empty access_token then Err 1 else Ok (Some (with_access_token access_token))
  | None =>
      match opt_str o "username" with
      | Some username =>
          if is_empty username then Err 1
          else if opt_present o "password" then Err 1
          else Ok (creds ← cached_creds; if bool_decide (Some username = Auth.username creds) then Some creds else None)
      | None => Ok cached_creds
      end
  end.

Definition get_oauth_port (o : Opts) : res Z (option Z) :=
  if opt_present o "oauth-port" then
    port ← parse_opt o "oauth-port" (parse_uint 16);
    Ok (v ← port; if 0 <? v then Some v else None)
  else Ok (Some 5588).

Definition get_zeroconf_port (o : Opts) (no_discovery : bool) : res Z Z :=
  if no_discovery then Ok 0 else port ← parse_opt o "zeroconf-port" parse_port; Ok (default 0 port).

Definition get_zeroconf_backend (o : Opts) (no_discovery : bool) : res Z (option string) :=
  if no_discovery then Ok None
  else match find_backend DISCOVERY_BACKENDS (opt_str o "zeroconf-backend") with
       | Ok b => Ok (Some b)
       | Err _ => Err 1
       | Panic => Panic
       end.

(** [cached_volume] is what the cache gives. *)
Definition get_connect_config (o : Opts) (ctrl : VolumeCtrl) (cached_volume : option Z) : res Z ConnectConfig :=
  let d := ConnectConfig_default in
  name ← parse_opt o "name" non_empty;
  volume ← parse_opt o "initial-volume" (parse_within 16 0 100);
  let initial_volume := match volume with Some v => Some (percent_of_volume v) | None => cached_volume end in
  device_type ← parse_opt o "device-type" device_from_str;
  volume_steps ← parse_opt o "volume-steps" (parse_uint 16);
  Ok (mkConnectConfig (default (cfg_name d) name) (default (cfg_device_type d) device_type) (opt_present o "group")
        (default (cfg_initial_volume d) initial_volume) (match ctrl with Fixed => true | _ => false end)
        (default (cfg_volume_steps d) volume_steps) false).

(** The seven settings of the normalisation, only read when it is enabled. *)
Definition get_normalisation (o : Opts) : res Z (NormalisationMethod * NormalisationType * f64 * f64 * f64 * f64 * f64) :=
  let d := player_config_default in
  if negb (opt_present o "enable-volume-normalisation") then
    Ok (normalisation_method d, normalisation_type d, pregain_db d, threshold_dbfs d, attack_cf d, release_cf d, knee_db d)
  else
    method ← parse_opt o "normalisation-method" normalisation_method_from_str;
    gain_type ← parse_opt o "normalisation-gain-type" normalisation_type_from_str;
    pregain ← parse_opt o "normalisation-pregain" (parse_f64_within (-10) 10);
    threshold ← parse_opt o "normalisation-threshold" (parse_f64_within (-10) 0);
    attack ← parse_opt o "normalisation-attack" (parse_within 64 1 500);
    release ← parse_opt o "normalisation-release" (parse_within 64 1 1000);
    knee ← parse_opt o "normalisation-knee" (parse_f64_within 0 10);
    Ok (default (normalisation_method d) method, default (normalisation_type d) gain_type, default (pregain_db d) pregain,
        default (threshold_dbfs d) threshold, default (attack_cf d) (duration_to_coefficient <$> attack),
        default (release_cf d) (duration_to_coefficient <$> release), default (knee_db d) knee).

Definition get_ditherer (o : Opts) (format : AudioFormat) : res Z (option Ditherer) :=
  let ditherer_name := opt_str o "dither" in
  match ditherer_name with
  | Some value =>
      if String.eqb value "none" then Ok None
      else match format with
           | F64 | F32 => Err 1
           | _ => d ← ok_or 1 (find_ditherer ditherer_name); Ok (Some d)
           end
  | None => Ok match format with S16 | S24 | S24_3 => ditherer player_config_default | _ => None end
  end.

Definition get_player_config (o : Opts) (format : AudioFormat) : res Z PlayerConfig :=
  rate ← parse_opt o "bitrate" bitrate_from_str;
  '(method, gain_type, pregain, threshold, attack, release, knee) ← get_normalisation o;
  d ← get_ditherer o format;
  Ok (mkPlayerConfig (default (bitrate player_config_default) rate) (negb (opt_present o "disable-gapless"))
        (opt_present o "passthrough") (opt_present o "enable-volume-normalisation") gain_type method pregain threshold attack
        release knee (m_strs (matches o) "local-file-dir") d None).

(** ** The rest of the system *)

(** [Path::from(s)]: its components; a leading dot is one. *)
Definition path_of (s : string) : Path :=
  let parts := split "/"%char s in
  (if starts_with s "/" then ["/"] else match parts with "." :: _ => ["."] | _ => [] end) ++
  filter (fun c => negb (is_empty c || String.eqb c ".") = true) parts.

(** What [get_setup] asks of a parsed URL. *)
Record ProxyUrl := mkProxyUrl { proxy_text : string; has_host : bool; has_port : bool }.

Context {Q : Type} {PQ : PriorityQueue Q}.
Context {IpAddr : Type}.
Variable fail : gmap Path (list Z) -> fs_op -> option IoErrorKind.
Variable read_dir : Path -> res IoErrorKind (list (res IoErrorKind DirEntry)).
Variable metadata : Path -> res IoErrorKind Cache.Metadata.
Variable from_json : list Z -> option Credentials.
Variable sha1 : list Z -> list Z.
Variable parse_url : string -> option ProxyUrl.
Variable parse_ip : string -> option IpAddr.

Definition get_tmp_dir (o : Opts) (temp_dir : string) (d : gmap Path (list Z)) : res Z string :=
  match opt_str o "tmp" with
  | Some p => match create_dir_all fail d (path_of p) with Ok _ => Ok p | _ => Err 1 end
  | None => Ok temp_dir
  end.

(** A cache that cannot be opened is left out. [depth] bounds the directories that are scanned. *)
Definition get_cache (o : Opts) (now : Z) (depth : nat) (d : gmap Path (list Z)) : res Z (option (world Q)) :=
  let volume_dir := path_of <$> (match opt_str o "system-cache" with Some p => Some p | None => opt_str o "cache" end) in
  let cred_dir := if opt_present o "disable-credential-cache" then None else volume_dir in
  let audio_dir := if opt_present o "disable-audio-cache" then None
                   else (fun p => path_join (path_of p) "files") <$> opt_str o "cache" in
  limit ← (match audio_dir with
           | Some _ => parse_opt o "cache-size-limit" (fun s => res_ok (parse_file_size s))
           | None => Ok None
           end);
  match cache_new fail read_dir metadata now depth cred_dir volume_dir audio_dir limit d with
  | Ok w => Ok (Some w)
  | Err _ => Ok None
  | Panic => Panic
  end.

Definition get_zeroconf_ip (o : Opts) : res Z (list IpAddr) :=
  if opt_present o "zeroconf-interface" then
    match opt_str o "zeroconf-interface" with
    | Some s => ok_or 1 (mapM (fun s => parse_ip (trim s)) (split ","%char s))
    | None => Ok []
    end
  else Ok [].

(** [device_id] *)
Definition device_id (name : string) : string := file_id_to_base16 (sha1 (bytes name)).

Definition get_proxy (o : Opts) (http_proxy : option string) : res Z (option string) :=
  match (match opt_str o "proxy" with Some s => Some s | None => http_proxy end) with
  | Some s =>
      match parse_url s with
      | Some url => if has_host url && has_port url then Ok (Some (proxy_text url)) else Err 1
      | None => Err 1
      end
  | None => Ok None
  end.

Definition get_session_config (o : Opts) (http_proxy : option string) (name tmp_dir uuid : string) (autoplay : option bool) :
    res Z SessionConfig :=
  proxy ← get_proxy o http_proxy;
  ap_port ← parse_opt o "ap-port" parse_port;
  Ok (mkSessionConfig (client_id (default_for_os uuid tmp_dir "linux")) (device_id name) proxy ap_port tmp_dir autoplay).

Record Setup := mkSetup {
  format : AudioFormat; backend : SinkBuilder; device : option string; mixer : MixerFn; st_cache : option (world Q);
  player_config : PlayerConfig; session_config : SessionConfig; connect_config : ConnectConfig; mixer_config : MixerConfig;
  st_credentials : option Credentials; enable_oauth : bool; enable_device_auth : bool; oauth_port : option Z;
  zeroconf_port : Z; player_event_program : option string; emit_sink_events : bool; zeroconf_ip : list IpAddr;
  zeroconf_backend : option string
}.

(** What the program reads from the system. *)
Record System := mkSystem {
  args_os : list (option string);
  vars_os : list (option string * option string);
  http_proxy : option string;
  temp_dir : string;
  uuid : string;
  clock : Z;
  files_at_start : gmap Path (list Z)
}.

(** The options once they are parsed, in the order of the source. *)
Definition setup_from (o : Opts) (sys : System) (depth : nat) : res Z Setup :=
  if opt_present o "help" then Err 0 else if opt_present o "version" then Err 0 else
  backend ← get_backend o;
  format ← get_format o;
  device ← get_device o;
  mixer ← ok_or 1 (find_mixer None);
  mixer_config ← get_mixer_config o;
  tmp_dir ← get_tmp_dir o (temp_dir sys) (files_at_start sys);
  let enable_oauth := opt_present o "enable-oauth" in
  let enable_device_auth := opt_present o "enable-device-auth" in
  if enable_oauth && enable_device_auth then Err 1 else
  cache ← get_cache o (clock sys) depth (files_at_start sys);
  credentials ← get_credentials o (w ← cache; credentials fail from_json w);
  let no_discovery := opt_present o "disable-discovery" in
  if bool_decide (credentials = None) && no_discovery && negb enable_oauth && negb enable_device_auth then Err 1 else
  oauth_port ← get_oauth_port o;
  zeroconf_port ← get_zeroconf_port o no_discovery;
  autoplay ← get_autoplay o;
  zeroconf_ip ← get_zeroconf_ip o;
  zeroconf_backend ← get_zeroconf_backend o no_discovery;
  connect_config ← get_connect_config o (volume_ctrl mixer_config) (w ← cache; volume fail w);
  session_config ← get_session_config o (http_proxy sys) (cfg_name connect_config) tmp_dir (uuid sys) autoplay;
  player_config ← get_player_config o format;
  Ok (mkSetup format backend device mixer cache player_config session_config connect_config mixer_config credentials
        enable_oauth enable_device_auth oauth_port zeroconf_port (opt_str o "onevent") (opt_present o "emit-sink-events")
        zeroconf_ip zeroconf_backend).

(** [&args\[1..\]] panics without a program name. *)
Definition get_setup (parse : list string -> option Matches) (sys : System) (depth : nat) : res Z Setup :=
  match valid_args (args_os sys) with
  | [] => Panic
  | _ :: args =>
      match parse args with
      | None => Err 1
      | Some m => setup_from (mkOpts m (env_vars m (vars_os sys))) sys depth
      end
  end.

(** What a configuration promises to the rest of the program. *)
Record setup_ok (s : Setup) : Prop := {
  ok_login : st_credentials s <> None \/ zeroconf_backend s = Some "libmdns" \/ enable_oauth s = true \/ enable_device_auth s = true;
  ok_one_flow : enable_oauth s && enable_device_auth s = false;
  ok_volume : fits 16 (cfg_initial_volume (connect_config s)) /\ fits 16 (cfg_volume_steps (connect_config s));
  ok_volume_ctrl : cfg_disable_volume (connect_config s) = true <-> volume_ctrl (mixer_config s) = Fixed;
  ok_name : cfg_name (connect_config s) <> EmptyString;
  ok_device_id : Config.device_id (session_config s) = device_id (cfg_name (connect_config s));
  ok_device : device s <> Some EmptyString /\ device s <> Some "?";
  ok_ap_port : forall p, ap_port (session_config s) = Some p -> 1 <= p <= 65535;
  ok_zeroconf_port : 0 <= zeroconf_port s <= 65535;
  ok_oauth_port : forall p, oauth_port s = Some p -> 1 <= p <= 65535;
  ok_ditherer : ditherer (player_config s) <> None -> format s <> F32 /\ format s <> F64
}.

(** ** Lemmas *)

Lemma rev_app_append s t u : String.rev_app (s +:+ t) u = String.rev_app t (String.rev_app s u).
Proof. revert u; induction s as [|c s IH]; intros u; [done|]. apply IH. Qed.

Lemma rev_app_rev s u v : String.rev_app (String.rev_app s u) v = String.rev_app u (s +:+ v).
Proof. revert u v; induction s as [|c s IH]; intros u v; [done|]. cbn. by rewrite IH. Qed.

Lemma str_rev_involutive s : str_rev (str_rev s) = s.
Proof. unfold str_rev, String.rev. rewrite rev_app_rev. cbn. apply append_nil_r. Qed.

Lemma parse_opt_Ok {A} o k (parse : string -> option A) v : parse_opt o k parse = Ok v ->
  match v with Some a => exists s, opt_str o k = Some s /\ parse s = Some a | None => opt_str o k = None end.
Proof. unfold parse_opt. destruct (opt_str o k) as [s|]; [destruct (parse s) eqn:Hp; [|done]|]; intros [= <-]; eauto. Qed.

Lemma parse_opt_default {A} o k (parse : string -> option A) v (P : A -> Prop) d : parse_opt o k parse = Ok v ->
  (forall s a, parse s = Some a -> P a) -> P d -> P (default d v).
Proof. intros Hv%parse_opt_Ok Hp Hd. destruct v as [a|]; [|done]. destruct Hv as (s & _ & Hs). by eapply Hp. Qed.

Lemma parse_port_range s p : parse_port s = Some p -> 1 <= p <= 65535.
Proof.
  unfold parse_port. destruct (parse_uint 16 s) as [v|] eqn:Hv; [|done]. cbn. destruct (v =? 0) eqn:E; [done|]. intros [= <-].
  apply Z.eqb_neq in E. apply parse_uint_fits in Hv; [|lia]. unfold fits in Hv. lia.
Qed.

(** Step through a sequence of fallible calls that succeeded. *)
Ltac ok_steps H := repeat match type of H with
  | (?m ≫= _) = Ok _ => let E := fresh "E" in destruct m eqn:E; [cbn in H|discriminate H|discriminate H]
  | context [let '(_, _) := ?p in _] => destruct p
  end.

Lemma get_connect_config_ok {FOk : FloatOk} o ctrl v c : get_connect_config o ctrl v = Ok c ->
  (forall x, v = Some x -> fits 16 x) ->
  fits 16 (cfg_initial_volume c) /\ fits 16 (cfg_volume_steps c) /\ (cfg_disable_volume c = true <-> ctrl = Fixed) /\
  cfg_name c <> EmptyString.
Proof.
  unfold get_connect_config. intros H Hv. ok_steps H. injection H as <-. cbn. split_and!.
  - destruct a0 as [p|]; cbn; [apply percent_fits|]. destruct v as [x|]; cbn; [by apply Hv|]. by split; vm_compute.
  - eapply parse_opt_default; [eassumption|intros s v'; apply parse_uint_fits; lia|by split; vm_compute].
  - by destruct ctrl.
  - eapply parse_opt_default; [eassumption| |done]. intros s n. unfold non_empty. destruct s; [done|]. by intros [= <-].
Qed.

Lemma get_session_config_ok o px name dir u a c : get_session_config o px name dir u a = Ok c ->
  Config.device_id c = device_id name /\ forall p, ap_port c = Some p -> 1 <= p <= 65535.
Proof.
  unfold get_session_config. intros H. ok_steps H. injection H as <-. cbn. split; [done|]. intros p ->.
  apply parse_opt_Ok in E0 as (s & _ & Hs). by eapply parse_port_range.
Qed.

Lemma get_zeroconf_port_ok o b p : get_zeroconf_port o b = Ok p -> 0 <= p <= 65535.
Proof.
  unfold get_zeroconf_port. intros H. destruct b; [injection H as <-; lia|]. ok_steps H. injection H as <-.
  eapply (parse_opt_default _ _ _ _ (fun p => 0 <= p <= 65535)); [eassumption| |lia]. intros s a1 Hs%parse_port_range. lia.
Qed.

Lemma get_oauth_port_ok o p : get_oauth_port o = Ok (Some p) -> 1 <= p <= 65535.
Proof.
  unfold get_oauth_port. intros H. destruct (opt_present o "oauth-port"); [|injection H as <-; lia]. ok_steps H.
  destruct a as [v|]; [|done]. cbn in H. destruct (0 <? v) eqn:E0; [|done]. injection H as <-. apply Z.ltb_lt in E0.
  apply parse_opt_Ok in E as (s & _ & Hs). apply parse_uint_fits in Hs; [|lia]. unfold fits in Hs. lia.
Qed.

Lemma get_ditherer_ok o f d : get_ditherer o f = Ok d -> d <> None -> f <> F32 /\ f <> F64.
Proof.
  unfold get_ditherer. intros H Hd. destruct (opt_str o "dither") as [v|]; [destruct (String.eqb v "none")|]; destruct f; by simplify_eq.
Qed.

Lemma get_device_ok o d : get_device o = Ok d -> d <> Some EmptyString /\ d <> Some "?".
Proof.
  unfold get_device. destruct (opt_str o "device") as [v|]; [|by intros [= <-]]. destruct (String.eqb_spec v "?"); [done|].
  destruct v; [done|]. intros [= <-]. split; congruence.
Qed.

Lemma find_backend_libmdns name b : find_backend DISCOVERY_BACKENDS name = Ok b -> b = "libmdns".
Proof.
  destruct name as [name|]; cbn; [|congruence]. destruct (String.eqb name "avahi"); [done|]. destruct (String.eqb name "dns-sd"); [done|].
  destruct (String.eqb_spec name "libmdns"); [congruence|done].
Qed.

Lemma get_login o no_discovery b : get_zeroconf_backend o no_discovery = Ok b -> no_discovery = false -> b = Some "libmdns".
Proof.
  unfold get_zeroconf_backend. intros H ->. destruct (find_backend _ _) eqn:E; [|done..]. injection H as <-.
  by rewrite (find_backend_libmdns _ _ E).
Qed.

Lemma get_player_config_ditherer o f c : get_player_config o f = Ok c -> ditherer c <> None -> f <> F32 /\ f <> F64.
Proof. unfold get_player_config. intros H. ok_steps H. injection H as <-. cbn. by eapply get_ditherer_ok. Qed.

Lemma cached_volume_fits (w : world Q) x : volume fail w = Some x -> fits 16 x.
Proof.
  unfold volume. destruct (volume_location (cache w)) as [p|]; [|done]. cbn. destruct (read_file fail (files w) p); [|done..]. cbn.
  destruct (from_utf8 a); [|done]. cbn. destruct (parse_uint 16 s) eqn:E; [|done]. intros [= <-]. by apply parse_uint_fits in E.
Qed.

(** Code that returns a value or ends the program with 0 or 1; it panics only when [X] holds. *)
Definition ends (X : Prop) {A} (r : res Z A) : Prop := match r with Ok _ => True | Err c => c = 0 \/ c = 1 | Panic => X end.

Lemma ends_bind X {A B} (m : res Z A) (f : A -> res Z B) : ends X m -> (forall a, ends X (f a)) -> ends X (m ≫= f).
Proof. destruct m; cbn; auto. Qed.
Lemma ends_ok X {A} (a : A) : ends X (Ok a).
Proof. exact I. Qed.
Lemma ends_ok_or X {A} (o : option A) : ends X (ok_or 1 o).
Proof. destruct o; cbn; auto. Qed.
Lemma ends_parse_opt X {A} o k (p : string -> option A) : ends X (parse_opt o k p).
Proof. unfold parse_opt. destruct (opt_str o k); [destruct (p s)|]; cbn; auto. Qed.

Ltac ends_tac := repeat first
  [ progress cbn beta zeta | apply ends_ok | apply ends_ok_or | apply ends_parse_opt | apply ends_bind; [|intros ?]
  | match goal with
    | |- ends _ (Err _) => cbn; auto
    | |- ends _ (let '(_, _) := ?p in _) => destruct p
    | |- ends _ (if ?b then _ else _) => destruct b
    | |- ends _ (match ?x with _ => _ end) => destruct x eqn:?
    end ].

Lemma ends_backend X o : ends X (get_backend o).
Proof. unfold get_backend. ends_tac. Qed.
Lemma ends_format X o : ends X (get_format o).
Proof. unfold get_format. ends_tac. Qed.
Lemma ends_device X o : ends X (get_device o).
Proof. unfold get_device. ends_tac. Qed.
Lemma ends_mixer_config X o : ends X (get_mixer_config o).
Proof. unfold get_mixer_config. ends_tac. Qed.
Lemma ends_credentials X o c : ends X (get_credentials o c).
Proof. unfold get_credentials. ends_tac. Qed.
Lemma ends_oauth_port X o : ends X (get_oauth_port o).
Proof. unfold get_oauth_port. ends_tac. Qed.
Lemma ends_zeroconf_port X o b : ends X (get_zeroconf_port o b).
Proof. unfold get_zeroconf_port. ends_tac. Qed.
Lemma ends_zeroconf_backend X o b : ends X (get_zeroconf_backend o b).
Proof.
  unfold get_zeroconf_backend. destruct b; [exact I|]. destruct (opt_str o "zeroconf-backend") as [s|]; cbn; [|exact I].
  destruct (String.eqb s "avahi"); [by right|]. destruct (String.eqb s "dns-sd"); [by right|].
  destruct (String.eqb s "libmdns"); [exact I|by right].
Qed.
Lemma ends_tmp_dir X o t d : ends X (get_tmp_dir o t d).
Proof. unfold get_tmp_dir. ends_tac. Qed.
Lemma ends_connect_config X o c v : ends X (get_connect_config o c v).
Proof. unfold get_connect_config. ends_tac. Qed.
Lemma ends_session_config X o px name dir u a : ends X (get_session_config o px name dir u a).
Proof. unfold get_session_config, get_proxy. ends_tac. Qed.
Lemma ends_zeroconf_ip X o : ends X (get_zeroconf_ip o).
Proof. unfold get_zeroconf_ip. ends_tac. Qed.
Lemma ends_player_config X o f : ends X (get_player_config o f).
Proof. unfold get_player_config, get_normalisation, get_ditherer. ends_tac. Qed.

Create HintDb ends.
#[local] Hint Resolve ends_backend ends_format ends_device ends_mixer_config ends_credentials ends_oauth_port ends_zeroconf_port
  ends_zeroconf_backend ends_tmp_dir ends_connect_config ends_session_config ends_zeroconf_ip ends_player_config ends_ok_or
  ends_parse_opt : ends.

Lemma ends_cache o t depth d : ends (get_cache o t depth d = Panic) (get_cache o t depth d).
Proof.
  destruct (get_cache o t depth d) as [w|c|] eqn:H; [exact I| |done]. cbn. unfold get_cache in H.
  set (audio_dir := if opt_present o "disable-audio-cache" then None else _) in H.
  pose proof (ends_parse_opt False o "cache-size-limit" (fun s => res_ok (parse_file_size s))) as He.
  destruct audio_dir; cbn in H; [destruct (parse_opt _ _ _) as [lim|c'|]; cbn in H|]; try done;
    try (by destruct (cache_new _ _ _ _ _ _ _ _ _ _)). by simplify_eq.
Qed.

Lemma ends_setup o sys depth : ends (get_cache o (clock sys) depth (files_at_start sys) = Panic) (setup_from o sys depth).
Proof.
  pose proof (ends_cache o (clock sys) depth (files_at_start sys)) as Hc. unfold setup_from, get_autoplay.
  repeat first [ apply ends_ok | apply ends_bind; [by auto with ends|intros ?] | progress cbn beta zeta
               | match goal with |- ends _ (if ?b then _ else _) => destruct b; [cbn; by auto|] end ].
Qed.

Lemma setup_from_ok {FOk : FloatOk} o sys depth s : setup_from o sys depth = Ok s -> setup_ok s.
Proof.
  unfold setup_from. intros H. destruct (opt_present o "help"); [done|]. destruct (opt_present o "version"); [done|]. ok_steps H.
  destruct (opt_present o "enable-oauth" && opt_present o "enable-device-auth") eqn:Hflow; [done|]. ok_steps H.
  destruct (bool_decide _ && _ && _ && _) eqn:Hlogin; [done|]. ok_steps H. injection H as <-.
  apply get_connect_config_ok in E11 as (Hv & Hs & Hd & Hn).
  2:{ intros x Hx. destruct a4 as [w|]; [|done]. by eapply cached_volume_fits. }
  apply get_session_config_ok in E12 as [Hid Hap]. pose proof (get_login _ _ _ E10) as Hlib.
  split; cbn; eauto using get_device_ok, get_zeroconf_port_ok.
  - destruct a5; [by left|right]. destruct (opt_present o "enable-oauth"); [by auto|]. destruct (opt_present o "enable-device-auth"); [by auto|].
    left. rewrite bool_decide_eq_true_2, !andb_true_r in Hlogin by done. by apply Hlib.
  - intros p ->. by apply get_oauth_port_ok in E6.
  - eauto using get_player_config_ditherer.
Qed.

(** ** Properties *)

(** C23: The command line gives a usable configuration or ends the program. Whatever the arguments and
    the environment: a configuration that is returned has a way to log in (credentials, discovery, or
    one of the two OAuth flows, never both), volumes and ports within their types, a device name and
    the identifier derived from it, no remote volume control exactly when the volume is fixed, and no
    dithering for floating-point formats; otherwise the program ends with status 0 or 1. The only
    panics are a call without any readable argument, not even a program name, and a cache whose
    directory cannot be opened with the arguments that were parsed. *)
Theorem setup_valid {FOk : FloatOk} (parse : list string -> option Matches) (sys : System) (depth : nat) :
  match get_setup parse sys depth with
  | Ok s => setup_ok s
  | Err code => code = 0 \/ code = 1
  | Panic => valid_args (args_os sys) = [] \/
      exists name args m, valid_args (args_os sys) = name :: args /\ parse args = Some m /\
        let o := mkOpts m (env_vars m (vars_os sys)) in get_cache o (clock sys) depth (files_at_start sys) = Panic
  end.
Proof.
  unfold get_setup. destruct (valid_args (args_os sys)) as [|name args]; [by left|]. destruct (parse args) as [m|] eqn:Hm; [|by right].
  set (o := mkOpts m (env_vars m (vars_os sys))). pose proof (ends_setup o sys depth) as He.
  destruct (setup_from o sys depth) as [s|c|] eqn:Hs; [by eapply setup_from_ok|exact He|]. right. by exists name, args, m.
Qed.

(** The options the applet starts the program with ([applet/SpotifyService.lua]). *)
Definition radio_values (name program fifo dir : string) : list (string * string) :=
  [("name", name); ("onevent", program); ("backend", "pipe"); ("device", fifo); ("system-cache", dir); ("bitrate", "96")].
Definition radio_flags (pairing : bool) : list string :=
  ["passthrough"; "disable-audio-cache"; "disable-discovery"] ++ if pairing then ["enable-device-auth"] else [].

(** [m] is what these options and no others give. *)
Record radio_matches (m : Matches) (values : list (string * string)) (flags : list string) : Prop := {
  rm_present : forall k, m_present m k = existsb (String.eqb k) flags || bool_decide (is_Some (assoc k values));
  rm_str : forall k, m_str m k = assoc k values;
  rm_strs : forall k, m_strs m k = []
}.

Lemma radio_opt_str m values flags k : radio_matches m values flags -> opt_str (mkOpts m []) k = assoc k values.
Proof.
  intros Hm. unfold opt_str. cbn. rewrite (rm_present _ _ _ Hm), (rm_str _ _ _ Hm). destruct (assoc k values) as [v|]; [|by destruct (_ || _)].
  by rewrite orb_true_r.
Qed.

Lemma radio_opt_present m values flags k : radio_matches m values flags ->
  opt_present (mkOpts m []) k = existsb (String.eqb k) flags || bool_decide (is_Some (assoc k values)).
Proof. intros Hm. unfold opt_present. cbn. by rewrite (rm_present _ _ _ Hm), orb_false_r. Qed.

(** The cache of the Radio: credentials and volume in one directory, no audio files. *)
Definition radio_cache (dir : string) (d : gmap Path (list Z)) : world Q :=
  mkWorld (mkCache (Some (path_join (path_of dir) "credentials.json")) (Some (path_join (path_of dir) "volume")) None None) d.

Lemma setup_bind_ok {E A B} (a : A) (f : A -> res E B) : (Ok a ≫= f) = f a.
Proof. done. Qed.

Section radio.
Context (m : Matches) (name program fifo dir : string) (pairing : bool).
Hypothesis Hm : radio_matches m (radio_values name program fifo dir) (radio_flags pairing).

Lemma radio_plain : name <> EmptyString -> fifo <> EmptyString -> fifo <> "?" ->
  let o := mkOpts m [] in
  get_backend o = Ok StdoutSink /\ get_format o = Ok S16 /\ get_device o = Ok (Some fifo) /\
  get_mixer_config o = Ok mixer_config_default /\ get_oauth_port o = Ok (Some 5588) /\ get_zeroconf_port o true = Ok 0 /\
  get_autoplay o = Ok None /\ get_zeroconf_backend o true = Ok None /\ opt_str o "onevent" = Some program /\
  (forall ctrl v, get_connect_config o ctrl v =
    Ok (mkConnectConfig name Speaker false (default 32767 v) (match ctrl with Fixed => true | _ => false end) 64 false)) /\
  get_player_config o S16 =
    Ok (mkPlayerConfig Bitrate96 true true false Auto Dynamic (pregain_db player_config_default) (threshold_dbfs player_config_default)
          (attack_cf player_config_default) (release_cf player_config_default) (knee_db player_config_default) [] (Some Triangular) None).
Proof.
  intros Hname Hfifo Hq. cbv zeta. split_and!.
  all: unfold get_backend, get_format, get_device, get_mixer_config, get_oauth_port, get_autoplay, get_connect_config, get_player_config,
    get_normalisation, get_ditherer, parse_opt.
  all: intros; rewrite ?(radio_opt_str m _ _ _ Hm), ?(radio_opt_present m _ _ _ Hm), ?(rm_strs m _ _ Hm).
  all: try (by destruct pairing).
  - cbn. rewrite (proj2 (String.eqb_neq fifo "?") Hq). by destruct fifo.
  - cbn. destruct name; [done|]. cbn. by destruct pairing.
Qed.

Lemma radio_get_cache t depth d : fail d (CreateDirAll (path_of dir)) = None -> get_cache (mkOpts m []) t depth d = Ok (Some (radio_cache dir d)).
Proof.
  intros Hf. unfold get_cache. rewrite !(radio_opt_str m _ _ _ Hm), !(radio_opt_present m _ _ _ Hm). cbn.
  destruct pairing; cbn; unfold cache_new, create_dir_all, permitted; cbn; by rewrite Hf.
Qed.

Lemma radio_present : let o := mkOpts m [] in
  opt_present o "help" = false /\ opt_present o "version" = false /\ opt_present o "enable-oauth" = false /\
  opt_present o "enable-device-auth" = pairing /\ opt_present o "disable-discovery" = true /\ opt_present o "emit-sink-events" = false.
Proof. cbv zeta. rewrite !(radio_opt_present m _ _ _ Hm). by destruct pairing. Qed.

Lemma radio_rest dir0 d : let o := mkOpts m [] in
  get_tmp_dir o dir0 d = Ok dir0 /\ (forall c, get_credentials o c = Ok c) /\ get_zeroconf_ip o = Ok [] /\
  (forall u, get_session_config o None name dir0 u None = Ok (mkSessionConfig KEYMASTER_CLIENT_ID (device_id name) None None dir0 None)).
Proof.
  cbv zeta. unfold get_tmp_dir, get_credentials, get_zeroconf_ip, get_session_config, get_proxy, parse_opt.
  rewrite !(radio_opt_str m _ _ _ Hm), !(radio_opt_present m _ _ _ Hm). by destruct pairing.
Qed.

End radio.

(** C24: The command line of the Radio does what the applet means. The program writes to the
    FIFO with the pipe backend, passes the original packets through at 96 kbit/s, runs the metadata
    hook, announces nothing on the network, is named and identified by the given name, starts at the
    stored volume (or half) and logs in with the credentials stored in the given directory; when the
    applet asks for pairing it uses the device flow if there are none, and without credentials and
    without pairing it ends with status 1. *)
Theorem radio_setup (parse : list string -> option Matches) (m : Matches) (sys : System) (depth : nat)
    (prog name program fifo dir : string) (args : list string) (pairing : bool)
    (Hargs : valid_args (args_os sys) = prog :: args) (Hparse : parse args = Some m)
    (Hm : radio_matches m (radio_values name program fifo dir) (radio_flags pairing))
    (Henv : env_vars m (vars_os sys) = []) (Hproxy : http_proxy sys = None)
    (Hname : name <> EmptyString) (Hfifo : fifo <> EmptyString) (Hfifo' : fifo <> "?")
    (Hdir : fail (files_at_start sys) (CreateDirAll (path_of dir)) = None) :
  let w := radio_cache dir (files_at_start sys) in
  let cached := credentials fail from_json w in
  let d := player_config_default in
  get_setup parse sys depth =
    if bool_decide (cached = None) && negb pairing then Err 1
    else Ok (mkSetup S16 StdoutSink (Some fifo) SoftMixer (Some w)
      (mkPlayerConfig Bitrate96 true true false Auto Dynamic (pregain_db d) (threshold_dbfs d) (attack_cf d) (release_cf d)
         (knee_db d) [] (Some Triangular) None)
      (mkSessionConfig KEYMASTER_CLIENT_ID (device_id name) None None (temp_dir sys) None)
      (mkConnectConfig name Speaker false (default 32767 (volume fail w)) false 64 false)
      mixer_config_default cached false pairing (Some 5588) 0 (Some program) false [] None).
Proof.
  cbv zeta. unfold get_setup. rewrite Hargs, Hparse, Henv. unfold setup_from.
  destruct (radio_plain m name program fifo dir pairing Hm Hname Hfifo Hfifo')
    as (Hbk & Hfmt & Hdev & Hmx & Hop & Hzp & Hap & Hzb & Hev & Hcc & Hpc).
  destruct (radio_rest m name program fifo dir pairing Hm (temp_dir sys) (files_at_start sys)) as (Htd & Hcr & Hip & Hsc).
  destruct (radio_present m name program fifo dir pairing Hm) as (-> & -> & -> & -> & -> & ->).
  change (ok_or 1 (find_mixer None)) with (Ok (E := Z) SoftMixer).
  rewrite Hbk, setup_bind_ok, Hfmt, setup_bind_ok, Hdev, setup_bind_ok, setup_bind_ok, Hmx, setup_bind_ok, Htd, setup_bind_ok. cbv zeta. rewrite andb_false_l.
  rewrite (radio_get_cache m name program fifo dir pairing Hm) by done. rewrite setup_bind_ok, Hcr, setup_bind_ok.
  cbn [mbind option_bind negb]. rewrite !andb_true_r. destruct (bool_decide _ && negb pairing); [done|].
  rewrite Hop, setup_bind_ok, Hzp, setup_bind_ok, Hap, setup_bind_ok, Hip, setup_bind_ok, Hzb, setup_bind_ok, Hcc, setup_bind_ok, Hproxy. cbn [cfg_name].
  by rewrite Hsc, setup_bind_ok, Hpc, setup_bind_ok, Hev.
Qed.

(** Binary multiples from the zettabyte on are lost: the power of the base wraps around to 0 in a
    [u64], so a cache limit like [1Zi] is a limit of 0 bytes. *)
Theorem zebi_limit_is_zero {FOk : FloatOk} (n : string) (x : f64) (Hn : parse_f64 n = Some x) (Hx : is_finite x = true) :
  parse_file_size (n +:+ "Zi") = Ok 0 /\ parse_file_size (n +:+ "Yi") = Ok 0.
Proof.
  assert (forall c, str_rev (n +:+ String c "i") = String "i" (String c (str_rev n))) as Hrev.
  { intros c. unfold str_rev, String.rev. by rewrite rev_app_append. }
  unfold parse_file_size. rewrite !Hrev. cbn -[str_rev wrap Z.pow]. rewrite !str_rev_involutive.
  change (suffix_exponent true "Z") with (Some (7, false)). change (suffix_exponent true "Y") with (Some (8, false)).
  cbn -[wrap Z.pow]. rewrite Hn. cbn -[wrap Z.pow]. rewrite Hx.
  change (wrap 64 (1024 ^ 7)) with 0. change (wrap 64 (1024 ^ 8)) with 0. by rewrite scaled_zero.
Qed.

(** A program name that is not Unicode swallows the first option, which is taken for the name. *)
Theorem odd_program_name_eats_option (parse : list string -> option Matches) (sys : System) (depth : nat) (a : string)
    (l : list (option string)) :
  let call args := get_setup parse (mkSystem args (vars_os sys) (http_proxy sys) (temp_dir sys) (uuid sys) (clock sys) (files_at_start sys)) depth in
  call (None :: Some a :: l) = call (Some a :: l) /\ call [None] = Panic.
Proof. done. Qed.

End options.

(** ** Examples *)

(** Whole numbers as floating-point numbers. *)
#[export] Instance int_float : Float := {|
  f64 := Z;
  parse_f64 := parse_uint 53;
  f64_of n := n;
  f64_leb := Z.leb;
  is_finite _ := true;
  scaled x n := Z.max 0 (Z.min (x * n) (2 ^ 64 - 1));
  duration_to_coefficient ms := ms;
  percent_of_volume x := Z.max 0 (Z.min (x * 65535 / 100) 65535)
|}.

#[export] Instance int_float_ok : FloatOk (F := int_float).
Proof. split; cbn; intros; unfold fits; lia. Qed.

Example ex_sizes : parse_file_size "16G" = Ok 16000000000 /\ parse_file_size "2ki" = Ok 2048 /\ parse_file_size "512" = Ok 512 /\
  parse_file_size "5X" = Err InvalidSuffix /\ parse_file_size "i" = Err InvalidSuffix /\ parse_file_size "" = Err EmptyInput.
Proof. by vm_compute. Qed.

Example ex_env_key : stripped_env_key "LIBRESPOT_CACHE_SIZE_LIMIT" = "cache-size-limit".
Proof. reflexivity. Qed.

(** Long options that are written out, each with its value unless it is a flag. *)
Fixpoint ex_options (flags args : list string) : option (list (string * string) * list string) :=
  match args with
  | [] => Some ([], [])
  | a :: args =>
      k ← strip_prefix a "--";
      if existsb (String.eqb k) flags then '(vs, fs) ← ex_options flags args; Some (vs, k :: fs)
      else match args with
           | v :: args => '(vs, fs) ← ex_options flags args; Some ((k, v) :: vs, fs)
           | [] => None
           end
  end.
Definition ex_parse (args : list string) : option Matches :=
  '(values, flags) ← ex_options (radio_flags true) args;
  Some (mkMatches (fun _ => true) (fun k => existsb (String.eqb k) flags || bool_decide (is_Some (assoc k values)))
          (fun k => assoc k values) (fun _ => [])).

Definition ex_args : list string :=
  ["--name"; "Kitchen"; "--onevent"; "hook m.json"; "--backend"; "pipe"; "--device"; "/tmp/fifo"; "--passthrough"; "--disable-audio-cache";
   "--disable-discovery"; "--system-cache"; "/user"; "--bitrate"; "96"].
Definition ex_system : System :=
  mkSystem (Some <$> ("librespot" :: ex_args)) [] None "/tmp" "u" 0 {[ ["/"; "user"; "credentials.json"] := [1] ]}.

Definition ex_json (l : list Z) : option Credentials := Some (mkCredentials (Some "me") AUTHENTICATION_STORED_SPOTIFY_CREDENTIALS l).
Definition ex_setup : res Z (Setup (IpAddr := string) (Q := gmap Path Z)) :=
  get_setup (fun _ _ => None) (fun _ => Ok []) (fun _ => Err IoOther) ex_json (fun l => l) (fun _ => None) Some ex_parse ex_system 3.

Lemma setup_valid_witness : match ex_setup with
  | Ok s => zeroconf_backend s = None /\ st_credentials s <> None
  | _ => False
  end.
Proof.
  assert (match ex_setup with Ok s => (zeroconf_backend s, enable_oauth s, enable_device_auth s) = (None, false, false) | _ => False end) as Hv
    by (vm_compute; reflexivity).
  pose proof (setup_valid (FOk := int_float_ok) (IpAddr := string) (Q := gmap Path Z) (fun _ _ => None) (fun _ => Ok []) (fun _ => Err IoOther)
    ex_json (fun l => l) (fun _ => None) Some ex_parse ex_system 3) as H.
  destruct ex_setup as [s|e|] eqn:Hs; [|destruct Hv..]. unfold ex_setup in Hs. rewrite Hs in H. injection Hv as Hz Ho Hd.
  split; [exact Hz|]. destruct (ok_login _ _ H) as [Hc|[Hc|[Hc|Hc]]]; [exact Hc|congruence..].
Defined.

Lemma radio_setup_witness : match ex_setup with
  | Ok s => passthrough (player_config s) = true /\ device s = Some "/tmp/fifo" /\ Config.device_id (session_config s) = "4b69746368656e"
  | _ => False
  end.
Proof.
  unfold ex_setup. destruct (ex_parse ex_args) as [m|] eqn:Hm; [|vm_compute in Hm; discriminate].
  rewrite (radio_setup (IpAddr := string) (fun _ _ => None) (fun _ => Ok []) (fun _ => Err IoOther)
    ex_json (fun l => l) (fun _ => None) Some ex_parse m ex_system 3 "librespot" "Kitchen" "hook m.json" "/tmp/fifo" "/user" ex_args false).
  - by vm_compute.
  - reflexivity.
  - exact Hm.
  - unfold ex_parse in Hm. change (ex_options (radio_flags true) ex_args) with
      (Some (radio_values "Kitchen" "hook m.json" "/tmp/fifo" "/user", radio_flags false)) in Hm.
    injection Hm as <-. by split.
  - reflexivity.
  - reflexivity.
  - done.
  - done.
  - done.
  - reflexivity.
Defined.

Lemma zebi_limit_is_zero_witness : parse_file_size "1Zi" = Ok 0 /\ parse_file_size "1Yi" = Ok 0.
Proof. apply (zebi_limit_is_zero (FOk := int_float_ok) "1" 1); reflexivity. Defined.
