(* ===== verification/Main.v ===== *)
(** * The program ([main] of [native/librespot/src/main.rs])

    After the setup the program announces itself on the network if asked to, finds credentials, and
    then runs a loop: credentials from the network replace the controller (Spirc), a controller is
    started whenever the program is connecting, and one that ends is replaced unless that happened
    too often. Sessions and controllers are numbered in the order they are made; the environment
    decides which arm of the [select!] goes on, when sessions break and when tasks end. Times are in
    milliseconds. *)
From stdpp Require Import sorting.
From S2P Require Import Prelude Text Errors Config Auth Effect OAuth Options.

Definition RECONNECT_RATE_LIMIT_WINDOW : Z := 600000.
Definition RECONNECT_RATE_LIMIT : nat := 5.

(** ** Starting *)

Section start.
Context {F : Float} {Q IpAddr : Type}.

(** The loop that starts the discovery: [attempt] and [uptime] are what the system answers the
    [k]-th time; [uptime] is in seconds. [None] is a loop that goes on. *)
Fixpoint start_discovery (fuel : nat) (attempt : nat -> bool) (uptime : nat -> Z) (k : nat) : option bool :=
  match fuel with
  | O => None
  | S fuel => if attempt k then Some true else if uptime k <=? 1 then start_discovery fuel attempt uptime (S k) else Some false
  end.

(** The redirect of the browser flow. *)
Definition oauth_redirect (port : option Z) : string :=
  "http://127.0.0.1" +:+ match port with Some p => ":" +:+ show_Z p | None => "" end +:+ "/login".

(** The credentials the program starts with and whether it connects at once; [device] and [browser]
    are the outcomes of the two flows. *)
Definition initial_credentials (s : Setup (Q := Q) (IpAddr := IpAddr)) (device browser : res OAuthError OAuthToken) (discovery : bool) :
    res Z (option Credentials * bool) :=
  match st_credentials s with
  | Some c => Ok (Some c, true)
  | None =>
      if enable_device_auth s then
        match device with Ok t => Ok (Some (with_access_token (access_token t)), true) | Err _ => Err 1 | Panic => Panic end
      else if enable_oauth s then
        match browser with Ok t => Ok (Some (with_access_token (access_token t)), true) | Err _ => Err 1 | Panic => Panic end
      else if discovery then Ok (None, false) else Err 1
  end.

End start.

(** ** The loop *)

(** A controller: the session and the credentials it was started with, whether it was told to shut
    down and whether its task runs. *)
Record Controller := mkController { co_session : nat; co_credentials : Credentials; told : bool; running : bool }.

Record App := mkApp {
  last_credentials : option Credentials;
  spirc : option nat;
  spirc_task : option nat;
  auto_connect_times : list Z;
  discovery : bool;
  connecting : bool;
  session : nat;
  sessions : list bool;          (* [is_invalid] of every session *)
  player_session : nat;
  controllers : list Controller
}.

(** The state before the loop: the first session, which the player has too. *)
Definition app_new (creds : option Credentials) (discovery connecting : bool) : App :=
  mkApp creds None None [] discovery connecting 0 [false] 0 [].

Inductive Flow := Continue | Exit (code : Z) | Break.

(** [spirc.shutdown()]; an error, when its task is gone, is only logged. *)
Definition tell (n : nat) (l : list Controller) : list Controller :=
  alter (fun c => mkController (co_session c) (co_credentials c) true (running c)) n l.
Definition end_task (n : nat) (l : list Controller) : list Controller :=
  alter (fun c => mkController (co_session c) (co_credentials c) (told c) false) n l.

Definition is_invalid (a : App) : bool := default true (sessions a !! session a).
(** [session.shutdown()] when it is not invalid already *)
Definition shutdown_session (a : App) : list bool := if is_invalid a then sessions a else <[session a := true]> (sessions a).

(** Credentials from the network; a running controller is told to shut down and its task goes on
    by itself. *)
Definition on_credentials (credentials : option Credentials) (a : App) : Flow * App :=
  match credentials with
  | Some c =>
      (Continue, mkApp (Some c) None None [] (discovery a) true (session a) (shutdown_session a) (player_session a)
                   (match spirc a with Some n => tell n (controllers a) | None => controllers a end))
  | None => (Exit 1, a)
  end.

(** Starting a controller, with a new session if the old one is invalid; [ok] is the outcome of
    [Spirc::new]. *)
Definition on_connect (ok : bool) (a : App) : Flow * App :=
  let '(session', sessions', player') :=
    if is_invalid a then (length (sessions a), sessions a ++ [false], length (sessions a))
    else (session a, sessions a, player_session a) in
  if ok then
    let n := length (controllers a) in
    (Continue, mkApp (last_credentials a) (Some n) (Some n) (auto_connect_times a) (discovery a) false session' sessions' player'
                 (controllers a ++ [mkController session' (default (mkCredentials None AUTHENTICATION_USER_PASS []) (last_credentials a)) false true]))
  else (Exit 1, mkApp (last_credentials a) (spirc a) (spirc_task a) (auto_connect_times a) (discovery a) (connecting a) session' sessions'
                  player' (controllers a)).

(** The times that count against the limit. *)
Definition recent (now : Z) (l : list Z) : list Z := filter (fun t => now - t < RECONNECT_RATE_LIMIT_WINDOW) l.

(** The task [n] of the controller has ended. *)
Definition on_spirc_ended (now : Z) (n : nat) (a : App) : Flow * App :=
  let l := end_task n (controllers a) in
  match last_credentials a with
  | Some _ =>
      let times := recent now (auto_connect_times a) in
      if (RECONNECT_RATE_LIMIT <? length times)%nat then
        (Exit 1, mkApp (last_credentials a) (spirc a) None times (discovery a) (connecting a) (session a) (sessions a) (player_session a) l)
      else (Continue, mkApp (last_credentials a) (spirc a) None (times ++ [now]) (discovery a) true (session a) (shutdown_session a)
                        (player_session a) l)
  | None =>
      (Exit 1, mkApp None (spirc a) None (auto_connect_times a) (discovery a) (connecting a) (session a) (sessions a) (player_session a) l)
  end.

Inductive Event :=
| EvDiscovery (credentials : option Credentials)
| EvConnect (ok : bool)
| EvSpircEnded
| EvPlayerInvalid
| EvCtrlC
| EvSessionLost (i : nat)     (* not an arm: a session breaks *)
| EvTaskEnded (n : nat).      (* not an arm: a task that runs by itself ends *)

(** One event; [None] when it is not enabled. *)
Definition handle (now : Z) (e : Event) (a : App) : option (Flow * App) :=
  match e with
  | EvDiscovery c => if discovery a then Some (on_credentials c a) else None
  | EvConnect ok => if connecting a && bool_decide (is_Some (last_credentials a)) then Some (on_connect ok a) else None
  | EvSpircEnded =>
      match spirc_task a with
      | Some n => if connecting a then None else Some (on_spirc_ended now n a)
      | None => None
      end
  | EvPlayerInvalid => Some (Exit 1, a)
  | EvCtrlC => Some (Break, a)
  | EvSessionLost i =>
      Some (Continue, mkApp (last_credentials a) (spirc a) (spirc_task a) (auto_connect_times a) (discovery a) (connecting a) (session a)
                        (<[i := true]> (sessions a)) (player_session a) (controllers a))
  | EvTaskEnded n =>
      if bool_decide (spirc_task a = Some n) then None
      else Some (Continue, mkApp (last_credentials a) (spirc a) (spirc_task a) (auto_connect_times a) (discovery a) (connecting a) (session a)
                        (sessions a) (player_session a) (end_task n (controllers a)))
  end.

(** After [break]: the controller is told to shut down and, with the discovery, waited for. *)
Definition graceful_shutdown (a : App) : list nat * App :=
  match spirc a with
  | Some n => (match spirc_task a with Some m => [m] | None => [] end,
               mkApp (last_credentials a) None None (auto_connect_times a) (discovery a) (connecting a) (session a) (sessions a)
                 (player_session a) (tell n (controllers a)))
  | None => ([], a)
  end.

(** An execution while the loop goes on, with the times of the automatic reconnects. *)
Fixpoint run (es : list (Z * Event)) (a : App) : option (list Z * App) :=
  match es with
  | [] => Some ([], a)
  | (now, e) :: es =>
      match handle now e a with
      | Some (Continue, a') =>
          '(log, a'') ← run es a';
          Some (match e with EvSpircEnded => now :: log | _ => log end, a'')
      | _ => None
      end
  end.

(** ** Starting: theorems *)

Lemma initial_connecting {F : Float} {Q IpAddr} (s : Setup (Q := Q) (IpAddr := IpAddr)) device browser d c conn :
  initial_credentials s device browser d = Ok (c, conn) ->
  (conn = true <-> is_Some c) /\ (conn = true \/ d = true).
Proof.
  unfold initial_credentials. intros H.
  repeat case_match; simplify_eq/=; split; try (split; [by eauto | done]); auto;
    (split; [done | by intros [? ?]]).
Qed.

(** With ten seconds between two attempts the second attempt is the last one. *)
Lemma discovery_retried_once attempt uptime fuel :
  (forall k, 0 <= uptime k /\ uptime k + 10 <= uptime (S k)) ->
  start_discovery (S (S fuel)) attempt uptime 0 = Some (attempt 0%nat || (uptime 0%nat <=? 1) && attempt 1%nat).
Proof.
  intros Hup. destruct (Hup 0%nat), (Hup 1%nat). simpl.
  destruct (attempt 0%nat), (attempt 1%nat); simpl; repeat case_match; try done; simpl; lia.
Qed.

(** A system that has been up for two seconds is not retried, well inside its first minute. *)
Lemma discovery_gives_up_early fuel :
  start_discovery (S fuel) (fun k => (1 <=? k)%nat) (fun k => 2 + 10 * Z.of_nat k) 0 = Some false.
Proof. reflexivity. Qed.

(** ** The invariant of the loop *)

Definition current (a : App) (n : nat) : Prop :=
  spirc a = Some n /\ exists c, controllers a !! n = Some c /\ running c = true /\ told c = false /\
    co_session c = session a /\ last_credentials a = Some (co_credentials c).

Record app_inv (a : App) : Prop := {
  ai_player : player_session a = session a;
  ai_made : (session a < length (sessions a))%nat;
  ai_idle : connecting a = true -> spirc_task a = None /\ is_Some (last_credentials a);
  ai_task : forall n, spirc_task a = Some n -> current a n;
  ai_others : forall n c, controllers a !! n = Some c -> running c = true -> told c = true \/ spirc_task a = Some n;
  ai_alive : connecting a = true \/ is_Some (spirc_task a) \/ discovery a = true;
  ai_bound : Forall (fun s => (s <= session a)%nat) (co_session <$> controllers a);
  ai_fresh : connecting a = true -> is_invalid a = true \/ session a ∉ co_session <$> controllers a;
  ai_own : NoDup (co_session <$> controllers a)
}.

Lemma app_new_inv c d conn : (conn = true -> is_Some c) -> conn = true \/ d = true -> app_inv (app_new c d conn).
Proof.
  intros Hc Hd. split; simpl; auto; try lia; try done.
  - destruct Hd; auto.
  - intros _. right. set_solver.
  - constructor.
Qed.

Lemma co_session_tell n l : co_session <$> tell n l = co_session <$> l.
Proof.
  unfold tell. apply list_eq. intros i. rewrite !list_lookup_fmap, list_lookup_alter.
  case_decide; [|done]. subst. by destruct (l !! i).
Qed.
Lemma co_session_end n l : co_session <$> end_task n l = co_session <$> l.
Proof.
  unfold end_task. apply list_eq. intros i. rewrite !list_lookup_fmap, list_lookup_alter.
  case_decide; [|done]. subst. by destruct (l !! i).
Qed.

Lemma length_shutdown a : length (shutdown_session a) = length (sessions a).
Proof. unfold shutdown_session. case_match; [done|]. by rewrite length_insert. Qed.

Lemma shutdown_invalid a s : (session a < length (sessions a))%nat -> default s (shutdown_session a !! session a) = true.
Proof.
  intros Hl. unfold shutdown_session, is_invalid.
  destruct (lookup_lt_is_Some_2 _ _ Hl) as [b Hb]. rewrite Hb. simpl. destruct b; [by rewrite Hb|].
  by rewrite list_lookup_insert_eq by done.
Qed.

Lemma credentials_inv c a a' : app_inv a -> on_credentials c a = (Continue, a') -> app_inv a'.
Proof.
  intros [Hp Hm Hi Ht Ho Ha Hb Hf Hn] H. unfold on_credentials in H. destruct c as [c|]; [|done]. injection H as <-.
  assert (Hs : co_session <$> match spirc a with Some n => tell n (controllers a) | None => controllers a end
               = co_session <$> controllers a) by (case_match; [apply co_session_tell | done]).
  split; simpl; rewrite ?length_shutdown, ?Hs; auto; try done.
  - intros n x Hx Hr. left. destruct (spirc a) as [m|] eqn:Em.
    + unfold tell in Hx. rewrite list_lookup_alter in Hx. case_decide.
      * subst. destruct (controllers a !! n); by simplify_eq/=.
      * destruct (Ho n x Hx Hr) as [|E]; [done|]. destruct (Ht n E) as [E' _]. congruence.
    + destruct (Ho n x Hx Hr) as [|E]; [done|]. destruct (Ht n E) as [E' _]. congruence.
  - intros _. left. unfold is_invalid. simpl. by apply shutdown_invalid.
Qed.

Lemma ended_inv now n a a' :
  app_inv a -> spirc_task a = Some n -> on_spirc_ended now n a = (Continue, a') -> app_inv a'.
Proof.
  intros [Hp Hm Hi Ht Ho Ha Hb Hf Hn] En H. unfold on_spirc_ended in H.
  destruct (last_credentials a) as [c|] eqn:Ec; [|done]. case_match; [done|]. injection H as <-.
  split; simpl; rewrite ?length_shutdown, ?co_session_end; eauto; try done.
  - intros m x Hx Hr. left. unfold end_task in Hx. rewrite list_lookup_alter in Hx. case_decide.
    + subst. destruct (controllers a !! m); by simplify_eq/=.
    + destruct (Ho m x Hx Hr) as [|E]; [done|]. congruence.
  - intros _. left. unfold is_invalid. simpl. by apply shutdown_invalid.
Qed.

Lemma connect_inv ok a a' :
  app_inv a -> connecting a = true -> on_connect ok a = (Continue, a') -> app_inv a'.
Proof.
  intros [Hp Hm Hi Ht Ho Ha Hb Hf Hn] Hc H. destruct (Hi Hc) as [Et [c Ec]]. unfold on_connect in H.
  destruct ok; [|by repeat case_match]. rewrite Ec in H. simpl in H.
  assert (Hrun : forall x, x ∈ controllers a -> running x = true -> told x = true).
  { intros x [m Hx]%list_elem_of_lookup Hr. destruct (Ho m x Hx Hr) as [|]; [done|congruence]. }
  set (s := if is_invalid a then length (sessions a) else session a).
  assert (Hs : exists l, a' = mkApp (Some c) (Some (length (controllers a))) (Some (length (controllers a))) (auto_connect_times a)
             (discovery a) false s l s (controllers a ++ [mkController s c false true]) /\ (s < length l)%nat).
  { subst s. rewrite Hp in H. destruct (is_invalid a); simpl in H; injection H as <-; eexists; (split; [reflexivity|]); rewrite ?length_app; simpl; lia. }
  destruct Hs as (l & -> & Hl). clear H.
  assert (Hle : (session a <= s)%nat) by (subst s; case_match; lia).
  assert (Hfr : s ∉ co_session <$> controllers a).
  { subst s. destruct (is_invalid a) eqn:Ei; [|by destruct (Hf Hc)].
    intros Hin. rewrite Forall_forall in Hb. specialize (Hb _ Hin). lia. }
  split; simpl; eauto; try done.
  - intros n [= <-]. split; [done|]. simpl. exists (mkController s c false true).
    rewrite lookup_app_r, Nat.sub_diag by lia. done.
  - intros n x Hx Hr. apply lookup_app_Some in Hx as [Hx | [Hge Hx]].
    + left. apply Hrun; [by eapply list_elem_of_lookup_2|done].
    + right. apply list_lookup_singleton_Some in Hx as [? _]. f_equal. lia.
  - rewrite fmap_app. apply Forall_app. split; [|by repeat constructor].
    eapply Forall_impl; [exact Hb|]. intros; simpl in *; lia.
  - rewrite fmap_app. apply NoDup_app. split_and!; [done| |apply NoDup_singleton].
    intros x Hx ->%list_elem_of_singleton. done.
Qed.

Lemma lost_inv i a :
  app_inv a ->
  app_inv (mkApp (last_credentials a) (spirc a) (spirc_task a) (auto_connect_times a) (discovery a) (connecting a) (session a)
                 (<[i := true]> (sessions a)) (player_session a) (controllers a)).
Proof.
  intros [Hp Hm Hi Ht Ho Ha Hb Hf Hn]. split; simpl; rewrite ?length_insert; auto.
  intros Hc. destruct (Hf Hc) as [Hinv|]; [left|by right]. unfold is_invalid in *. simpl.
  destruct (decide (i = session a)) as [->|]; [by rewrite list_lookup_insert_eq|by rewrite list_lookup_insert_ne].
Qed.

Lemma task_ended_inv n a :
  app_inv a -> spirc_task a <> Some n ->
  app_inv (mkApp (last_credentials a) (spirc a) (spirc_task a) (auto_connect_times a) (discovery a) (connecting a) (session a)
                 (sessions a) (player_session a) (end_task n (controllers a))).
Proof.
  intros [Hp Hm Hi Ht Ho Ha Hb Hf Hn] En. split; simpl; rewrite ?co_session_end; auto.
  - intros m Em. destruct (Ht m Em) as [Es (c & Hc & Hr)]. split; [done|]. exists c. simpl.
    unfold end_task. rewrite list_lookup_alter_ne by congruence. done.
  - intros m x Hx Hr. unfold end_task in Hx. rewrite list_lookup_alter in Hx. case_decide; [|by eauto].
    subst. destruct (controllers a !! m); by simplify_eq/=.
Qed.

Lemma handle_inv now e a a' : app_inv a -> handle now e a = Some (Continue, a') -> app_inv a'.
Proof.
  intros Hi H. destruct e; simpl in H.
  - destruct (discovery a); [|done]. injection H as H. by eapply credentials_inv.
  - destruct (connecting a) eqn:Ec; [|done]. simpl in H. case_bool_decide; [|done]. injection H as H. by eapply connect_inv.
  - destruct (spirc_task a) eqn:Et; [|done]. destruct (connecting a); [done|]. injection H as H. by eapply ended_inv.
  - done.
  - done.
  - injection H as <-. by apply lost_inv.
  - case_bool_decide; [done|]. injection H as <-. by apply task_ended_inv.
Qed.

Lemma run_inv es a log a' : app_inv a -> run es a = Some (log, a') -> app_inv a'.
Proof.
  revert a log. induction es as [|[now e] es IH]; intros a log Hi H; simpl in H; [by simplify_eq|].
  destruct (handle now e a) as [[[] a1]|] eqn:Eh; [|done..].
  apply bind_Some in H as ([log' a2] & Hr & [= <- <-]). eapply IH; [|exact Hr]. by eapply handle_inv.
Qed.

(** C21: whatever happens while the program runs (credentials from the network, controllers and
    sessions that end, failures), it has at most one controller that it has not told to shut down:
    every other one whose task still runs was told to. The current one works for the newest
    credentials, on the session that the player uses; no two controllers ever had the same session;
    and there is always a reason to go on: it is connecting, a controller runs, or credentials may
    still come from the network. *)
Theorem one_controller {F : Float} {Q IpAddr} (s : Setup (Q := Q) (IpAddr := IpAddr)) device browser d c conn es log a :
  initial_credentials s device browser d = Ok (c, conn) ->
  run es (app_new c d conn) = Some (log, a) ->
  player_session a = session a /\
  (forall n, spirc_task a = Some n -> current a n) /\
  (forall n x, controllers a !! n = Some x -> running x = true -> told x = false -> spirc_task a = Some n) /\
  NoDup (co_session <$> controllers a) /\
  (connecting a = true \/ is_Some (spirc_task a) \/ discovery a = true).
Proof.
  intros Hc Hr. destruct (initial_connecting _ _ _ _ _ _ Hc) as [Hcc Hd].
  destruct (run_inv _ _ _ _ (app_new_inv c d conn (proj1 Hcc) Hd) Hr) as [Hp Hm Hi Ht Ho Ha Hb Hf Hn].
  split_and!; try done. intros n x Hx Hrun Hto. destruct (Ho n x Hx Hrun); [congruence|done].
Qed.

(** ** The rate limit *)

(** An execution by the clock: the events come in order, from [last] on. *)
Fixpoint in_order (last : Z) (es : list (Z * Event)) : Prop :=
  match es with [] => True | (now, _) :: es => last <= now /\ in_order now es end.
Definition is_discovery (e : Event) : bool := match e with EvDiscovery _ => true | _ => false end.

Lemma recent_recent now last l : last <= now -> recent now (recent last l) = recent now l.
Proof.
  intros Hle. unfold recent. rewrite list_filter_filter. apply list_filter_iff.
  unfold RECONNECT_RATE_LIMIT_WINDOW. lia.
Qed.

Lemma recent_all now l : Forall (fun t => now - t < RECONNECT_RATE_LIMIT_WINDOW) l -> recent now l = l.
Proof. unfold recent. induction 1 as [|t l Ht _ IH]; [done|]. rewrite filter_cons_True by done. by rewrite IH. Qed.

(** The times kept are as good as all of them, from [last] on. *)
Definition counts (hist : list Z) (last : Z) (a : App) : Prop :=
  forall now, last <= now -> recent now (auto_connect_times a) = recent now hist.

(** Seven reconnects span the window. *)
Definition spaced (l : list Z) : Prop :=
  forall i t t', l !! i = Some t -> l !! (i + 6)%nat = Some t' -> t + RECONNECT_RATE_LIMIT_WINDOW <= t'.

Lemma handle_counts now e a a' hist last :
  last <= now -> is_discovery e = false -> counts hist last a -> handle now e a = Some (Continue, a') ->
  match e with
  | EvSpircEnded => (length (recent now hist) <= 5)%nat /\ counts (hist ++ [now]) now a'
  | _ => counts hist now a'
  end.
Proof.
  intros Hle Hd Hc H. assert (Hc' : counts hist now a) by (intros t Ht; apply Hc; lia).
  destruct e as [|ok| | | | |]; simpl in H; try done.
  - case_match; [|done]. injection H as H. unfold on_connect in H.
    destruct (is_invalid a), ok; simpl in H; by simplify_eq.
  - destruct (spirc_task a); [|done]. case_match; [done|]. injection H as H. unfold on_spirc_ended in H.
    destruct (last_credentials a); [|done]. rewrite (Hc now Hle) in H. case_match eqn:El; [done|]. injection H as <-.
    apply Nat.ltb_ge in El. split; [exact El|]. intros t Ht. simpl. unfold recent. rewrite !filter_app. f_equal.
    by apply recent_recent.
  - by injection H as <-.
  - case_match; [done|]. by injection H as <-.
Qed.

Lemma spaced_snoc hist now :
  Forall (fun t => t <= now) hist -> StronglySorted Z.le hist -> spaced hist -> (length (recent now hist) <= 5)%nat ->
  spaced (hist ++ [now]).
Proof.
  intros Hb Hs Hsp Hl i t t' Hi Hj.
  destruct (decide (i + 6 < length hist)%nat) as [|Hge].
  { rewrite lookup_app_l in Hi, Hj by lia. eauto. }
  rewrite lookup_app_r in Hj by lia. apply list_lookup_singleton_Some in Hj as [Hj ->].
  rewrite lookup_app_l in Hi by lia. destruct (decide (t + RECONNECT_RATE_LIMIT_WINDOW <= t')) as [|Hlt]; [done|]. exfalso.
  rewrite <- (take_drop_middle hist i t Hi) in Hl, Hs. unfold recent in Hl. rewrite filter_app, length_app in Hl. fold (recent t' (t :: drop (S i) hist)) in Hl.
  assert (Hf : recent t' (t :: drop (S i) hist) = t :: drop (S i) hist).
  { apply recent_all. apply StronglySorted_app_1_r in Hs. apply StronglySorted_inv in Hs as [_ Hs].
    constructor; [lia|]. eapply Forall_impl; [exact Hs|]. intros; simpl in *; lia. }
  rewrite Hf in Hl. simpl in Hl. rewrite length_drop in Hl. lia.
Qed.

Lemma sorted_snoc hist now : Forall (fun t => t <= now) hist -> StronglySorted Z.le hist -> StronglySorted Z.le (hist ++ [now]).
Proof.
  induction hist as [|t l IH]; simpl; intros Hb Hs; [by repeat constructor|].
  apply Forall_cons in Hb as [Ht Hb]. apply StronglySorted_inv in Hs as [Hs Hf].
  constructor; [by apply IH|]. apply Forall_app. split; [done|by repeat constructor].
Qed.

Lemma run_counts es a log a' hist last :
  in_order last es -> Forall (fun e => is_discovery e.2 = false) es -> run es a = Some (log, a') ->
  counts hist last a -> Forall (fun t => t <= last) hist -> StronglySorted Z.le hist -> spaced hist ->
  (forall now, last <= now -> Forall (fun e => e.1 <= now) es -> counts (hist ++ log) now a') /\ spaced (hist ++ log).
Proof.
  revert a log hist last. induction es as [|[now e] es IH]; intros a log hist last Ho Hd Hr Hc Hb Hs Hsp; simpl in Hr.
  { simplify_eq. rewrite app_nil_r. split; [|done]. intros now Hn _ t Ht. apply Hc. lia. }
  destruct Ho as [Hle Ho]. apply Forall_cons in Hd as [He Hd]. simpl in He.
  destruct (handle now e a) as [[[] a1]|] eqn:Eh; [|done..].
  apply bind_Some in Hr as ([log' a2] & Hr & [= <- <-]).
  pose proof (handle_counts _ _ _ _ _ _ Hle He Hc Eh) as Hn.
  assert (Hb' : Forall (fun t => t <= now) hist) by (eapply Forall_impl; [exact Hb|]; intros; simpl in *; lia).
  assert (HIH : exists hist', hist' ++ log' = hist ++ (match e with EvSpircEnded => now :: log' | _ => log' end) /\
    counts hist' now a1 /\ Forall (fun t => t <= now) hist' /\ StronglySorted Z.le hist' /\ spaced hist').
  { destruct e; try (exists hist; by split_and!). destruct Hn as [Hl Hn]. exists (hist ++ [now]).
    rewrite <- app_assoc. split_and!; try done.
    - apply Forall_app. split; [done|]. by repeat constructor.
    - by apply sorted_snoc.
    - by apply spaced_snoc. }
  destruct HIH as (hist' & <- & Hc1 & Hb1 & Hs1 & Hsp1).
  destruct (IH a1 log' hist' now Ho Hd Hr Hc1 Hb1 Hs1 Hsp1) as [Hc2 Hsp2]. split; [|done].
  intros t Ht [Hnt Hes]%Forall_cons. by apply Hc2.
Qed.

(** C22: while no new credentials come from the network, however the sessions and controllers fail,
    any seven automatic reconnects span ten minutes at least (the constant says five, the comparison
    allows six in the window); and when a controller ends, the program gives up exactly if six
    reconnects lie within the last ten minutes. *)
Theorem reconnects_rate_limited c d conn start es log a :
  (conn = true -> is_Some c) -> conn = true \/ d = true ->
  in_order start es -> Forall (fun e => is_discovery e.2 = false) es ->
  run es (app_new c d conn) = Some (log, a) ->
  spaced log /\
  (forall now n, start <= now -> Forall (fun e => e.1 <= now) es -> spirc_task a = Some n ->
     exists f a', handle now EvSpircEnded a = Some (f, a') /\
       ((6 <= length (recent now log))%nat /\ f = Exit 1 \/ (length (recent now log) <= 5)%nat /\ f = Continue)).
Proof.
  intros Hcc Hd Ho Hno Hr. pose proof (run_inv _ _ _ _ (app_new_inv c d conn Hcc Hd) Hr) as Hi.
  destruct (run_counts es (app_new c d conn) log a [] start Ho Hno Hr) as [Hc Hs]; simpl in *; try (by constructor); try done.
  split; [done|]. intros now n Hnow Hes En. rewrite En.
  destruct (ai_task a Hi n En) as (_ & x & _ & _ & _ & _ & Ex).
  destruct (connecting a) eqn:Ec; [by destruct (ai_idle a Hi Ec); congruence|].
  unfold on_spirc_ended. rewrite Ex, (Hc now Hnow Hes now (Z.le_refl now)). unfold RECONNECT_RATE_LIMIT.
  case_match eqn:El; do 2 eexists; (split; [reflexivity|]); [left|right].
  - apply Nat.ltb_lt in El. split; [lia|done].
  - apply Nat.ltb_ge in El. split; [lia|done].
Qed.

(** ** Examples *)

Definition ex_cred : Credentials := mkCredentials (Some "me") AUTHENTICATION_STORED_SPOTIFY_CREDENTIALS [1].
Definition ex_other : Credentials := mkCredentials (Some "guest") AUTHENTICATION_USER_PASS [2].
Definition ex_events : list (Z * Event) :=
  [(0, EvConnect true); (10, EvDiscovery (Some ex_other)); (11, EvConnect true); (12, EvTaskEnded 0); (20, EvSpircEnded); (21, EvConnect true)].

(** Six crashes in a row, 100 ms apart. *)
Definition ex_crashes : list (Z * Event) :=
  [(0, EvConnect true); (100, EvSpircEnded); (100, EvConnect true); (200, EvSpircEnded); (200, EvConnect true);
   (300, EvSpircEnded); (300, EvConnect true); (400, EvSpircEnded); (400, EvConnect true); (500, EvSpircEnded); (500, EvConnect true);
   (600, EvSpircEnded); (600, EvConnect true)].

(** The seventh is the end. *)
Example ex_seventh : match run ex_crashes (app_new (Some ex_cred) false true) with
  | Some (log, a) => log = [100; 200; 300; 400; 500; 600] /\ (fst <$> handle 700 EvSpircEnded a) = Some (Exit 1) /\
                     (fst <$> handle 600100 EvSpircEnded a) = Some Continue
  | None => False
  end.
Proof. by vm_compute. Qed.

(** Quitting: the controller is told and waited for. *)
Example ex_quit : match run ex_events (app_new (Some ex_cred) true true) with
  | Some (_, a) => fst (graceful_shutdown a) = [2%nat] /\ (told <$> controllers (snd (graceful_shutdown a))) = [true; false; true]
  | None => False
  end.
Proof. by vm_compute. Qed.

Lemma one_controller_witness : match run ex_events (app_new (Some ex_cred) true true) with
  | Some (_, a) => current a 2 /\ NoDup (co_session <$> controllers a)
  | None => False
  end.
Proof.
  assert (match ex_setup with Ok s => st_credentials s = Some ex_cred | _ => False end) as Hs by (vm_compute; reflexivity).
  destruct ex_setup as [s|e|]; [|destruct Hs..].
  destruct (run ex_events (app_new (Some ex_cred) true true)) as [[log a]|] eqn:Er; [|by vm_compute in Er].
  destruct (one_controller (F := int_float) s (Err InvalidSpotifyUri) (Err InvalidSpotifyUri) true (Some ex_cred) true ex_events log a) as (_ & Hc & _ & Hn & _).
  - unfold initial_credentials. rewrite Hs. reflexivity.
  - exact Er.
  - split; [|exact Hn]. apply Hc. vm_compute in Er. by injection Er as _ <-.
Defined.

Lemma reconnects_rate_limited_witness : match run ex_crashes (app_new (Some ex_cred) false true) with
  | Some (log, a) => exists a', handle 700 EvSpircEnded a = Some (Exit 1, a')
  | None => False
  end.
Proof.
  destruct (run ex_crashes (app_new (Some ex_cred) false true)) as [[log a]|] eqn:Er; [|by vm_compute in Er].
  destruct (reconnects_rate_limited (Some ex_cred) false true 0 ex_crashes log a) as [_ H].
  - by eexists.
  - by left.
  - cbn. lia.
  - by repeat constructor.
  - exact Er.
  - vm_compute in Er. injection Er as <- <-.
    destruct (H 700 6%nat) as (f & a' & He & [[_ ->]|[Hl _]]).
    + lia.
    + repeat constructor; simpl; lia.
    + reflexivity.
    + exists a'. exact He.
    + assert (Hb : (length (recent 700 [100; 200; 300; 400; 500; 600]%Z) <=? 5)%nat = false) by reflexivity.
      apply Nat.leb_gt in Hb. lia.
Defined.

Lemma discovery_retried_once_witness :
  start_discovery 2 (fun k => (1 <=? k)%nat) (fun k => 1 + 10 * Z.of_nat k) 0 = Some true.
Proof. rewrite (discovery_retried_once (fun k => (1 <=? k)%nat) (fun k => 1 + 10 * Z.of_nat k) 0); [reflexivity|lia]. Defined.
