(* ===== verification/Sinks.v ===== *)
(** * Sinks ([native/librespot/playback/src/audio_backend/mod.rs], [pipe.rs], [phase5_fifo.rs], [subprocess.rs])

    Where the player's packets go: a file, standard output or the standard input of a command. The
    system is a [World]: files by name and by identity, standard output, processes, and a script of
    what the next system calls do, which succeed when the script is over. Strings of errors, logged
    times and signals are left out. *)
From S2P Require Import Prelude Text Errors Options Packet SpotifyUri Effect Player PlayerSpec Playback Passthrough.

(** ** The system *)

(** A FIFO keeps what was written to it, whoever reads it. *)
Inductive Node := Fifo (sent : list Z) | Regular (contents : list Z) | Symlink (target : string) | Directory.

Record Fs := mkFs { names : gmap string nat; nodes : list Node }.

Record Proc := mkProc { command : list string; received : list Z; killed : bool }.

(** What a system call does: it succeeds, it fails after some bytes, it fails, it accepts at most
    some bytes, a process turns out to have exited, or it succeeds after somebody has changed the files. *)
Inductive Answer := Success | FailsAfter (n : nat) (e : IoErrorKind) | Fails (e : IoErrorKind) | Accepts (n : nat) | Exited | Changed (fs : Fs).

Record World := mkWorld { fs : Fs; stdout_bytes : list Z; procs : list Proc; script : list Answer }.

#[local] Abbreviation Sys := (eff World IoErrorKind).

Definition set_fs (x : Fs) (w : World) : World := mkWorld x (stdout_bytes w) (procs w) (script w).
Definition set_stdout (x : list Z) (w : World) : World := mkWorld (fs w) x (procs w) (script w).
Definition set_procs (x : list Proc) (w : World) : World := mkWorld (fs w) (stdout_bytes w) x (script w).
Definition set_script (x : list Answer) (w : World) : World := mkWorld (fs w) (stdout_bytes w) (procs w) x.

(** The next answer. *)
Definition answer : Sys Answer :=
  a ← gets script;
  match a with
  | [] => mret Success
  | Changed x :: l => _ ← modify (fun w => set_fs x (set_script l w)); mret Success
  | a :: l => _ ← modify (set_script l); mret a
  end.

(** A call that succeeds or fails. *)
Definition call : Sys unit :=
  a ← answer; match a with FailsAfter _ e | Fails e => throw e | _ => mret tt end.

(** ** Files *)

Definition node_of (path : string) (x : Fs) : option Node := i ← names x !! path; nodes x !! i.

(** Following symbolic links, at most so many. *)
Fixpoint resolve (fuel : nat) (path : string) (x : Fs) : res IoErrorKind string :=
  match fuel with
  | O => Err IoOther
  | S fuel => match node_of path x with Some (Symlink target) => resolve fuel target x | _ => Ok path end
  end.

(** [OpenOptions] for writing. *)
Record OpenOptions := mkOpenOptions { create : bool; truncate : bool }.

(** The identity of the file that is opened, and the files then. *)
Definition open_file (o : OpenOptions) (path : string) (x : Fs) : res IoErrorKind nat * Fs :=
  match resolve 40 path x with
  | Ok path =>
      match names x !! path with
      | Some i =>
          match nodes x !! i with
          | Some (Regular _) => (Ok i, if truncate o then mkFs (names x) (<[i := Regular []]> (nodes x)) else x)
          | Some (Fifo _) => (Ok i, x)
          | _ => (Err IoOther, x)
          end
      | None =>
          if create o then (Ok (length (nodes x)), mkFs (<[path := length (nodes x)]> (names x)) (nodes x ++ [Regular []]))
          else (Err IoNotFound, x)
      end
  | Err e => (Err e, x)
  | Panic => (Panic, x)
  end.

Definition open_path (o : OpenOptions) (path : string) : Sys nat :=
  _ ← call;
  r ← state (fun w => let '(r, x) := open_file o path (fs w) in (r, set_fs x w));
  of_res r.

Definition symlink_metadata (path : string) : Sys Node :=
  _ ← call; x ← gets fs; match node_of path x with Some n => mret n | None => throw IoNotFound end.
Definition metadata (i : nat) : Sys Node :=
  _ ← call; x ← gets fs; match nodes x !! i with Some n => mret n | None => throw IoOther end.
Definition is_fifo (n : Node) : bool := match n with Fifo _ => true | _ => false end.

(** ** The pipe sink: opening *)

Definition open_required_fifo (path : string) : Sys nat :=
  before ← symlink_metadata path;
  if negb (is_fifo before) then throw IoInvalidInput
  else
    file ← open_path (mkOpenOptions false false) path;
    opened ← metadata file;
    if negb (is_fifo opened) then throw IoInvalidInput else mret file.

Definition open_output (file : string) : Sys nat :=
  if String.eqb file "/tmp/phase5-vorbis.fifo" then open_required_fifo file
  else open_path (mkOpenOptions true true) file.

(** Bytes written at an offset; a gap is filled with zeros. *)
Definition write_at (offset : nat) (data l : list Z) : list Z :=
  take offset (l ++ replicate (offset - length l) 0) ++ data ++ drop (offset + length data) l.
Definition node_write (offset : nat) (data : list Z) (n : Node) : Node :=
  match n with Fifo sent => Fifo (sent ++ data) | Regular l => Regular (write_at offset data l) | _ => n end.

Inductive Output := OStdout | OFile (inode offset : nat).

(** The bytes go out; the output moves on. *)
Definition put_bytes (out : Output) (data : list Z) : Sys Output :=
  match out with
  | OStdout => _ ← modify (fun w => set_stdout (stdout_bytes w ++ data) w); mret OStdout
  | OFile i offset =>
      _ ← modify (fun w => set_fs (mkFs (names (fs w)) (alter (node_write offset data) i (nodes (fs w)))) w);
      mret (OFile i (offset + length data))
  end.

(** [write_all]: an error after some of the bytes, or all of them; interrupted calls are repeated. *)
Definition write_all (out : Output) (data : list Z) : Sys (option IoErrorKind * Output) :=
  a ← answer;
  match a with
  | FailsAfter n e => out ← put_bytes out (take n data); mret (Some e, out)
  | Fails e => mret (Some e, out)
  | _ => out ← put_bytes out data; mret (None, out)
  end.

(** A file has nothing to flush. *)
Definition flush (out : Output) : Sys unit := match out with OFile _ _ => mret tt | OStdout => call end.

(** ** The pipe sink *)

Inductive SinkError := SinkNotConnected | SinkConnectionRefused | SinkOnWrite | SinkInvalidParams | SinkStateChange.

(** [sink_as_bytes!]: samples are converted, with a state for the dither; packets that are already
    encoded are not. *)
Definition sink_write_packet {S Conv Sample : Type} (format : S -> AudioFormat) (write_bytes : list Z -> eff S SinkError unit)
    (convert : AudioFormat -> list Sample -> Conv -> list Z * Conv) (packet : AudioPacket Sample) : eff (S * Conv) SinkError unit :=
  match packet with
  | Samples samples =>
      data ← state (fun s => let '(data, c) := convert (format s.1) samples s.2 in (data, (s.1, c)));
      zoom fst (fun x s => (x, s.2)) id (write_bytes data)
  | Raw samples => zoom fst (fun x s => (x, s.2)) id (write_bytes samples)
  end.

Record StdoutSink := mkStdoutSink { output : option Output; file : option string; format : AudioFormat; poc_bytes : Z }.

#[local] Abbreviation Pipe := (StdoutSink * World)%type.
#[local] Abbreviation P := (eff Pipe SinkError).

Definition set_output (x : option Output) (s : Pipe) : Pipe := (mkStdoutSink x (file s.1) (format s.1) (poc_bytes s.1), s.2).
Definition set_poc_bytes (x : Z) (s : Pipe) : Pipe := (mkStdoutSink (output s.1) (file s.1) (format s.1) x, s.2).

(** A system call of the sink, with its error. *)
Definition sys {S A} (e : SinkError) (m : Sys A) : eff (S * World) SinkError A := zoom snd (fun w s => (s.1, w)) (fun _ => e) m.

(** [None] is the exit after the usage. *)
Definition pipe_open (file : option string) (format : AudioFormat) : option StdoutSink :=
  if bool_decide (file = Some "?") then None else Some (mkStdoutSink None file format 0).

(** The argument of [get_or_insert] is evaluated in any case. *)
Definition pipe_start : P unit :=
  _ ← modify (set_poc_bytes 0);
  file ← gets (fun s => file s.1);
  out ← match file with
        | Some file => i ← sys SinkConnectionRefused (open_output file); mret (OFile i 0)
        | None => mret OStdout
        end;
  modify (fun s => set_output (Some (default out (output s.1))) s).

Definition pipe_stop : P unit :=
  out ← gets (fun s => output s.1);
  _ ← modify (set_output None);
  match out with
  | None => throw SinkNotConnected
  | Some out => sys SinkOnWrite (flush out)
  end.

Definition pipe_write_bytes (data : list Z) : P unit :=
  _ ← modify (fun s => set_poc_bytes (wrap 64 (poc_bytes s.1 + Z.of_nat (length data))) s);
  out ← gets (fun s => output s.1);
  match out with
  | None => throw SinkNotConnected
  | Some out =>
      r ← sys SinkOnWrite (write_all out data);
      _ ← modify (set_output (Some r.2));
      match r.1 with None => mret tt | Some _ => throw SinkOnWrite end
  end.

(** ** The subprocess sink *)

Record Child := mkChild { pid : nat; stdin : bool }.
Record SubprocessSink := mkSubprocessSink { shell_command : option string; child : option Child; sub_format : AudioFormat }.

#[local] Abbreviation Sub := (SubprocessSink * World)%type.
#[local] Abbreviation C := (eff Sub SinkError).

Definition set_child (x : option Child) (s : Sub) : Sub := (mkSubprocessSink (shell_command s.1) x (sub_format s.1), s.2).

Definition subprocess_open (shell_command : option string) (format : AudioFormat) : option SubprocessSink :=
  if bool_decide (shell_command = Some "?") then None else Some (mkSubprocessSink shell_command None format).

Section subprocess.
(** [shell_words::split] *)
Variable split : string -> option (list string).

Definition spawn (args : list string) : Sys Child :=
  _ ← call;
  state (fun w => (mkChild (length (procs w)) true, set_procs (procs w ++ [mkProc args [] false]) w)).

(** [args\[0\]] panics on a command without words. *)
Definition subprocess_start : C unit :=
  command ← gets (fun s => shell_command s.1);
  new ← match command with
        | Some command =>
            match split command with
            | None => throw SinkInvalidParams
            | Some [] => stop
            | Some args => sys SinkConnectionRefused (spawn args)
            end
        | None => throw SinkInvalidParams
        end;
  modify (fun s => set_child (Some (default new (child s.1))) s).

Definition kill (pid : nat) : Sys unit :=
  _ ← call; modify (fun w => set_procs (alter (fun p => mkProc (command p) (received p) true) pid (procs w)) w).

Definition subprocess_stop : C unit :=
  c ← gets (fun s => child s.1);
  _ ← modify (set_child None);
  match c with
  | None => throw SinkNotConnected
  | Some c =>
      a ← sys SinkOnWrite answer;
      match a with
      | Exited => mret tt
      | Fails _ | FailsAfter _ _ => throw SinkOnWrite
      | _ =>
          if stdin c then
            _ ← sys SinkOnWrite call;        (* flush *)
            _ ← sys SinkOnWrite (kill (pid c));
            sys SinkOnWrite call             (* wait *)
          else throw SinkNotConnected
      end
  end.

(** A system call whose error the sink looks at. *)
Definition attempt {A} (m : Sys A) : C (res IoErrorKind A) := fun s =>
  match m s.2 with
  | (Panic, w) => (Panic, (s.1, w))
  | (r, w) => (Ok r, (s.1, w))
  end.

(** One [write] to the standard input: how many bytes it takes. *)
Definition child_write (pid : nat) (data : list Z) : Sys nat :=
  a ← answer;
  match a with
  | Fails e | FailsAfter _ e => throw e
  | _ =>
      let n := match a with Accepts n => Nat.min n (length data) | _ => length data end in
      _ ← modify (fun w => set_procs (alter (fun p => mkProc (command p) (received p ++ take n data) (killed p)) pid (procs w)) w);
      mret n
  end.

Definition try_restart (restarted : bool) : C bool :=
  if restarted then throw SinkOnWrite
  else
    stopped ← catch subprocess_stop;
    match stopped with
    | Ok _ => started ← catch subprocess_start; match started with Ok _ => mret true | _ => throw SinkOnWrite end
    | _ => throw SinkOnWrite
    end.

(** The loop of [write_bytes]; the slice is [data\[start..end\]]. *)
Fixpoint write_loop (fuel : nat) (data : list Z) (restarted : bool) (start end_ : nat) : C unit :=
  match fuel with
  | O => stop
  | S fuel =>
      c ← gets (fun s => child s.1);
      match c with
      | None => throw SinkNotConnected
      | Some c =>
          if stdin c then
            r ← attempt (child_write (pid c) (take (end_ - start) (drop start data)));
            match r with
            | Ok O => b ← try_restart restarted; write_loop fuel data b start end_
            | Ok n =>
                let start := Nat.min (length data) (start + n) in
                let end_ := Nat.min (length data) (start + n) in
                if (end_ =? length data)%nat then mret tt else write_loop fuel data restarted start end_
            | Err IoInterrupted => write_loop fuel data restarted start end_
            | Err _ => b ← try_restart restarted; write_loop fuel data b start end_
            | Panic => stop
            end
          else throw SinkNotConnected
      end
  end.

Definition subprocess_write_bytes (fuel : nat) (data : list Z) : C unit := write_loop fuel data false 0 (length data).

End subprocess.

(** ** The guard of the FIFO *)

(** What others have made of the files while these calls were done. *)
Definition left_by (done : list Answer) (x : Fs) : Fs :=
  foldl (fun x a => match a with Changed y => y | _ => x end) x done.

(** Calls that use up a part of the script and leave the files to others. *)
Definition harmless {A} (m : Sys A) : Prop := forall w, exists done,
  script w = done ++ script (m w).2 /\ fs (m w).2 = left_by done (fs w) /\
  stdout_bytes (m w).2 = stdout_bytes w /\ procs (m w).2 = procs w.

Lemma harmless_bind {A B} (m : Sys A) (k : A -> Sys B) : harmless m -> (forall a, harmless (k a)) -> harmless (m ≫= k).
Proof.
  intros Hm Hk w. destruct (Hm w) as (d1 & E1 & F1 & O1 & P1). unfold mbind, eff_bind.
  destruct (m w) as [[a|e|] w1]; simpl in *; [|by exists d1..].
  destruct (Hk a w1) as (d2 & E2 & F2 & O2 & P2). exists (d1 ++ d2). rewrite <- (assoc_L (++)), <- E2, E1.
  split_and!; [done| |congruence|congruence]. rewrite F2, F1. unfold left_by. by rewrite foldl_app.
Qed.

Lemma harmless_pure {A} (r : World -> res IoErrorKind A) : harmless (fun w => (r w, w)).
Proof. intros w. by exists []. Qed.

Lemma harmless_answer : harmless answer.
Proof.
  intros w. unfold answer, mbind, eff_bind, gets, modify. destruct (script w) as [|a l] eqn:E; [exists []; simpl; by rewrite E|].
  exists [a]. by destruct a; simpl.
Qed.

Lemma harmless_call : harmless call.
Proof. apply harmless_bind; [apply harmless_answer|]. intros []; apply harmless_pure. Qed.

Lemma open_plain path x : (open_file (mkOpenOptions false false) path x).2 = x.
Proof. unfold open_file. simpl. by repeat case_match. Qed.

Lemma harmless_open path : harmless (open_path (mkOpenOptions false false) path).
Proof.
  apply harmless_bind; [apply harmless_call|]. intros _. apply harmless_bind; [|intros r; apply (harmless_pure (fun _ => r))].
  intros w. exists []. unfold state. pose proof (open_plain path (fs w)) as Ho. destruct (open_file _ path (fs w)) as [r x].
  simpl in *. by subst x.
Qed.

Lemma harmless_get {A} (f : Fs -> option A) e : harmless (_ ← call; x ← gets fs; match f x with Some n => mret n | None => throw e end).
Proof.
  apply harmless_bind; [apply harmless_call|]. intros _. apply harmless_bind; [apply (harmless_pure (fun w => Ok (fs w)))|].
  intros x. destruct (f x) as [n|]; [apply (harmless_pure (fun _ => Ok n))|apply (harmless_pure (fun _ => Err e))].
Qed.

(** A call that looks at a file, and what it saw. *)
Lemma metadata_ok i w n w' : metadata i w = (Ok n, w') -> nodes (fs w') !! i = Some n.
Proof.
  unfold metadata, mbind, eff_bind, gets. destruct (call w) as [[[]|e|] w1]; [|done..].
  destruct (nodes (fs w1) !! i) eqn:E; [|done]. by intros [= -> ->].
Qed.

(** Calls that end. *)
Definition ends_well {A} (m : Sys A) : Prop := forall w, (m w).1 <> Panic.

Lemma ends_well_bind {A B} (m : Sys A) (k : A -> Sys B) : ends_well m -> (forall a, ends_well (k a)) -> ends_well (m ≫= k).
Proof.
  intros Hm Hk w. specialize (Hm w). unfold mbind, eff_bind. destruct (m w) as [[a|e|] w']; [apply Hk|done|done].
Qed.

Lemma ends_well_call : ends_well call.
Proof. intros w. unfold call, answer, mbind, eff_bind, gets, modify. by destruct (script w) as [|[] ?]. Qed.

Lemma open_file_ends o path x : (open_file o path x).1 <> Panic.
Proof.
  unfold open_file. assert (H : forall fuel p, resolve fuel p x <> Panic).
  { induction fuel as [|fuel IH]; intros p; simpl; [done|]. repeat case_match; by try apply IH. }
  specialize (H 40%nat path). by repeat case_match.
Qed.

Lemma ends_well_open o path : ends_well (open_path o path).
Proof.
  apply ends_well_bind; [apply ends_well_call|]. intros _ w. unfold mbind, eff_bind, state, of_res.
  pose proof (open_file_ends o path (fs w)). by destruct (open_file o path (fs w)).
Qed.

Lemma ends_well_get {A} (f : Fs -> option A) e : ends_well (_ ← call; x ← gets fs; match f x with Some n => mret n | None => throw e end).
Proof. apply ends_well_bind; [apply ends_well_call|]. intros _ w. unfold mbind, eff_bind, gets. by destruct (f (fs w)). Qed.

Lemma harmless_guard path : harmless (open_required_fifo path).
Proof.
  apply harmless_bind; [apply (harmless_get (node_of path))|]. intros n. destruct (is_fifo n); simpl; [|apply (harmless_pure (fun _ => Err IoInvalidInput))].
  apply harmless_bind; [apply harmless_open|]. intros i.
  apply harmless_bind; [apply (harmless_get (fun x => nodes x !! i))|]. intros m.
  destruct (is_fifo m); simpl; [apply (harmless_pure (fun _ => Ok i))|apply (harmless_pure (fun _ => Err IoInvalidInput))].
Qed.

Lemma ends_well_guard path : ends_well (open_required_fifo path).
Proof.
  apply ends_well_bind; [apply (ends_well_get (node_of path))|]. intros n. destruct (is_fifo n); simpl; [|done].
  apply ends_well_bind; [apply ends_well_open|]. intros i.
  apply ends_well_bind; [apply (ends_well_get (fun x => nodes x !! i))|]. intros m. by destruct (is_fifo m).
Qed.

Lemma guard_fifo path w i w' : open_required_fifo path w = (Ok i, w') -> exists sent, nodes (fs w') !! i = Some (Fifo sent).
Proof.
  unfold open_required_fifo. unfold mbind, eff_bind. destruct (symlink_metadata path w) as [[n|e|] w1]; [|done..].
  destruct (is_fifo n); simpl; [|done]. destruct (open_path _ path w1) as [[j|e|] w2]; [|done..].
  destruct (metadata j w2) as [[m|e|] w3] eqn:Em; [|done..]. apply metadata_ok in Em.
  destruct m; simpl; [|done..]. intros [= -> ->]. by eexists.
Qed.

(** C27: The guard of the FIFO: whatever happens to the path between the check and the opening, no
    file is created, truncated or written (the files are exactly what others made of them); the
    call ends, and when it gives a file, that file is a FIFO. *)
Theorem fifo_guard (path : string) (w : World) :
  let '(r, w') := open_required_fifo path w in
  (exists done, script w = done ++ script w' /\ fs w' = left_by done (fs w)) /\
  stdout_bytes w' = stdout_bytes w /\ procs w' = procs w /\
  match r with
  | Ok i => exists sent, nodes (fs w') !! i = Some (Fifo sent)
  | Err _ => True
  | Panic => False
  end.
Proof.
  pose proof (ends_well_guard path w) as He. pose proof (guard_fifo path w) as Hf.
  destruct (harmless_guard path w) as (d & E & F & O & P). destruct (open_required_fifo path w) as [r w']. simpl in *.
  split_and!; [by exists d|done|done|]. destruct r; [by eapply Hf|done|done].
Qed.

(** Every other path is created when it is missing, as a file that grows with the audio; the path
    the applet passes is such a path. *)
Theorem unguarded_path_creates_file (path : string) (format : AudioFormat) (data : list Z) (w : World) :
  path <> "/tmp/phase5-vorbis.fifo" -> names (fs w) !! path = None -> script w = [] ->
  exists s' w', (_ ← pipe_start; pipe_write_bytes data) (mkStdoutSink None (Some path) format 0, w) = (Ok tt, (s', w')) /\
    node_of path (fs w') = Some (Regular data).
Proof.
  intros Hp Hn Hs. do 2 eexists. unfold pipe_start, pipe_write_bytes, open_output, open_path, write_all, call, answer, sys, zoom.
  unfold mbind, eff_bind, gets, modify, state, of_res, mret, eff_ret, id. simpl.
  assert (E : String.eqb path "/tmp/phase5-vorbis.fifo" = false) by by apply String.eqb_neq. rewrite E. simpl. rewrite Hs. simpl.
  unfold open_file. simpl. unfold node_of. rewrite Hn. simpl. rewrite Hn. simpl. rewrite Hs. simpl. split; [reflexivity|].
  simpl. rewrite lookup_insert_eq. simpl. rewrite list_lookup_alter_eq, lookup_app_r, Nat.sub_diag by lia. simpl.
  unfold write_at. simpl. by rewrite drop_nil, app_nil_r.
Qed.

(** ** From the decoder to the FIFO *)

(** The pipe sink as the sink of a player. *)
Definition with_pipe {Conv : Type} (B : Backend) (convert : AudioFormat -> list Sample -> Conv -> list Z * Conv) : Backend := {|
  Decoder := Decoder; Sample := Sample; next_packet := next_packet; decoder_seek := decoder_seek;
  Sink := (StdoutSink * World) * Conv;
  sink_start s := let '(r, p) := pipe_start s.1 in (is_ok r, (p, s.2));
  sink_stop s := let '(r, p) := pipe_stop s.1 in (is_ok r, (p, s.2));
  sink_write x s := let '(r, s) := sink_write_packet (fun s => format s.1) pipe_write_bytes convert x s in (is_ok r, s);
  Controller := Controller; range_to_end_available := range_to_end_available;
  fetch_next_and_wait := fetch_next_and_wait; read_ahead_length := read_ahead_length;
  AudioItem := AudioItem; NormalisationData := NormalisationData; Factor := Factor; get_factor := get_factor;
  Dsp := Dsp; amplify := amplify; Clock := Clock; read_clock := read_clock
|}.

(** A sink that is open on a FIFO, on a system without failures. *)
Definition fifo_sink {Conv} (i : nat) (sent : list Z) (s : (StdoutSink * World) * Conv) : Prop :=
  (exists offset, output s.1.1 = Some (OFile i offset)) /\ script s.1.2 = [] /\ nodes (fs s.1.2) !! i = Some (Fifo sent).

Lemma pipe_write_fifo {Conv} data i sent (p : StdoutSink * World) (c : Conv) :
  fifo_sink i sent (p, c) ->
  (pipe_write_bytes data p).1 = Ok tt /\ forall c' : Conv, fifo_sink i (sent ++ data) ((pipe_write_bytes data p).2, c').
Proof.
  intros ((offset & Ho) & Hs & Hn). destruct p as [s w]. simpl in *.
  unfold pipe_write_bytes, write_all, answer, sys, zoom, mbind, eff_bind, gets, modify, mret, eff_ret. simpl.
  rewrite Ho. simpl. rewrite Hs. simpl. split; [done|]. intros c'. split_and!; simpl; [by eexists|done|].
  by rewrite list_lookup_alter_eq, Hn.
Qed.

Section fifo.
Context {Conv : Type} {B : Backend} (convert : AudioFormat -> list Sample -> Conv -> list Z * Conv).

Lemma sink_write_fifo x i sent (s : (StdoutSink * World) * Conv) : fifo_sink i sent s ->
  (sink_write (Backend := with_pipe B convert) x s).1 = true /\
  exists more, fifo_sink i (sent ++ more) (sink_write (Backend := with_pipe B convert) x s).2 /\
    match x with Raw data => more = data | Samples _ => True end.
Proof.
  destruct s as [p c]. intros Hf. simpl. unfold sink_write_packet. destruct x as [l|l].
  - unfold mbind, eff_bind, state, zoom. simpl. destruct (convert (format p.1) l c) as [data c'].
    destruct (pipe_write_fifo data i sent p c Hf) as [Hok Hg]. specialize (Hg c'). simpl.
    destruct (pipe_write_bytes data p) as [r p']. simpl in *. subst r. simpl. split; [done|]. by exists data.
  - unfold zoom. destruct (pipe_write_fifo l i sent p c Hf) as [Hok Hg]. specialize (Hg c). simpl.
    destruct (pipe_write_bytes l p) as [r p']. simpl in *. subst r. simpl. split; [done|]. by exists l.
Qed.

(** Packets that are already encoded arrive in the FIFO as they are. *)
Lemma rendered_fifo f l ds i : forall sent s, fifo_sink i sent s ->
  Forall (fun x : AudioPacketPosition * AudioPacket Sample => match x.2 with Raw _ => True | Samples _ => False end) l ->
  fifo_sink i (sent ++ concat (raw_bytes <$> l)) (rendered (B := with_pipe B convert) f l ds s).2.
Proof.
  revert ds. induction l as [|[pos x] l IH]; intros ds sent s Hf Hr; simpl; [by rewrite app_nil_r|].
  apply Forall_cons in Hr as [Hx Hr]. destruct x as [data|data]; [done|]. unfold raw_bytes at 1. simpl.
  destruct data as [|z data]; simpl; [by apply IH|].
  destruct (sink_write_fifo (Raw (z :: data)) i sent s Hf) as (_ & more & Hm & ->).
  specialize (IH ds (sent ++ z :: data) _ Hm Hr). by rewrite <- (assoc_L (++)) in IH.
Qed.

End fifo.

(** The passthrough decoder gives packets that are already encoded. *)
Definition is_raw {Sample} (x : AudioPacketPosition * AudioPacket Sample) : Prop :=
  match x.2 with Raw _ => True | Samples _ => False end.

Lemma packet_loop_raw {Ogg : OggCrate} {Sample} fuel : forall d,
  wp True (packet_loop (Sample := Sample) fuel) (fun r _ => forall x, r = Ok (Some x) -> is_raw x) d.
Proof.
  induction fuel as [|fuel IH]; intros d; simpl; [by wp_run|]. unfold next_ogg_packet. wp_run.
  destruct (read_packet (rdr d)) as [[[|e]|[pck|]] rd]; simpl; wp_run; [done..| |done]. simpl.
  destruct (_ || _); [by apply IH|].
  assert (Hgo : forall d0 inf gp, wp True (_ ← put (pck_data pck) inf gp;
      data ← gets (fun d => written (wtr d));
      match data with
      | [] => packet_loop fuel
      | _ => _ ← modify (fun d => set_wtr (take_written (wtr d)) d);
             mret (Some (mkAudioPacketPosition (pcm_to_ms (absgp_page pck)) false, Raw (Sample := Sample) data))
      end) (fun r _ => forall x, r = Ok (Some x) -> is_raw x) d0).
  { intros d0 inf gp. wp_run. apply put_any. intros [[]|e|] w; [|done..]. wp_run. simpl.
    destruct (written w); [by apply IH|]. wp_run. by intros x [= <-]. }
  destruct (last_in_stream pck); [do 3 wp_step|destruct (last_in_page pck); wp_step]; by apply Hgo.
Qed.

Lemma next_packet_raw {Ogg : OggCrate} {Sample} fuel d x d' :
  passthrough_next_packet (Sample := Sample) fuel d = (Ok (Some x), d') -> is_raw x.
Proof.
  unfold passthrough_next_packet, mbind, eff_bind. destruct (write_headers d) as [[[]|e|] d1]; [|done..]. intros E.
  pose proof (packet_loop_raw (Sample := Sample) fuel d1) as H. unfold wp in H. rewrite E in H. by apply H.
Qed.

(** The Radio's player: the passthrough decoder and the pipe sink. *)
Definition radio_backend {Conv : Type} (Ogg : OggCrate) (so : bool) (fuel : nat) (B : Backend)
    (convert : AudioFormat -> list Sample -> Conv -> list Z * Conv) : Backend :=
  with_pipe (with_passthrough Ogg so fuel B) convert.

Lemma drain_decodes {Conv : Type} {Ogg : OggCrate} (B : Backend) (convert : AudioFormat -> list Sample -> Conv -> list Z * Conv) so fuel n : forall d l d',
  drain (Sample := Sample) n fuel d = (Ok l, d') ->
  decodes (B := radio_backend Ogg so fuel B convert) d l d' /\ Forall is_raw l.
Proof.
  induction n as [|n IH]; intros d l d' E; [done|]. simpl in E. unfold mbind, eff_bind, mret, eff_ret in E.
  destruct (passthrough_next_packet fuel d) as [[[x|]|e|] d1] eqn:En; [| |done..]; cycle 1.
  { simplify_eq. split; [|constructor]. apply (decodes_end (B := radio_backend Ogg so fuel B convert)). simpl. by rewrite En. }
  destruct (drain n fuel d1) as [[l1|e|] d2] eqn:Ed; simplify_eq. destruct (IH _ _ _ Ed) as [Hd Hr]. split.
  - eapply (decodes_more (B := radio_backend Ogg so fuel B convert)); [simpl; by rewrite En|exact Hd].
  - constructor; [by eapply next_packet_raw|done].
Qed.

(** C26: A track reaches the FIFO unchanged: the player with the passthrough decoder and the pipe
    sink, open on a FIFO of a system without failures, plays the track to its end, and what it has
    added to the FIFO is one Ogg stream with the three headers and every audio packet of the track
    in order. *)
Theorem fifo_receives_track {Ogg : OggCrate} {LW : LawfulWriter (H := Ogg)} {Conv : Type} (so : bool) (fuel : nat) (B : Backend)
    (convert : AudioFormat -> list Sample -> Conv -> list Z * Conv) (L : Loaders (H := radio_backend Ogg so fuel B convert))
    (p : PlayerInternal (L := L)) a r (d : PassthroughDecoder) (l : list OggPacket) (r' : PacketReader) (i : nat) (sent : list Z) :
  ps p = PsPlaying a r -> sink_status p = Running -> fifo_sink i sent (sink p) ->
  decoder (a_loaded a) = d -> bos d = false -> written (wtr d) = [] ->
  supplies (rdr d) l r' -> (length l < fuel)%nat -> audio_packets (ofsgp_page d) l <> [] ->
  exists n p' loaded, rounds n p = (Ok tt, p') /\ ps p' = PsEndOfTrack (a_track_id a) (a_request_id a) loaded /\
    fifo_sink i (sent ++ (emit_all (core (wtr d)) (stream_serial d) (headers d ++ audio_packets (ofsgp_page d) l)).1) (sink p').
Proof.
  intros Hs Hrun Hf Hd Hb Hw Hsup Hfuel Haudio.
  pose proof (drain_outputs (Sample := Sample) d l r' (S (length l)) fuel Hb Hw Hsup ltac:(lia) Hfuel) as HD.
  unfold wp in HD. destruct (drain (S (length l)) fuel d) as [[outs|e|] d'] eqn:Ed; [|by destruct HD as (? & ? & _)|done].
  destruct HD as (outs' & [= <-] & Ho & [|Hw']); [done|]. rewrite Hw', app_nil_r in Ho.
  destruct (drain_decodes B convert so fuel _ _ _ _ Ed) as [Hdec Hraw].
  assert (H : wp False (rounds (S (length outs))) (fun r p' => is_ok r /\
      Ended (B := radio_backend Ogg so fuel B convert) (a_track_id a) (a_request_id a) d'
      (rendered (a_factor a) outs (dsp p) (sink p)).1 (rendered (a_factor a) outs (dsp p) (sink p)).2 p') p).
  { eapply (rounds_play_track (B := radio_backend Ogg so fuel B convert) (fun s => exists sent, fifo_sink i sent s)); [|by exists sent|exact Hdec|].
    - intros x s [sent1 Hs1]. destruct (sink_write_fifo (B := with_passthrough Ogg so fuel B) convert x i sent1 s Hs1) as (Hok & more & Hm & _).
      split; [exact Hok|by eexists].
    - split_and!; [|done..]. exists a, r. by rewrite <- Hd. }
  unfold wp in H. destruct (rounds _ p) as [[[]|?|] p'] eqn:Er; [|by destruct H|done].
  destruct H as (_ & (loaded & Hps & _) & _ & Hsk). exists (S (length outs)), p', loaded. split_and!; [done..|].
  rewrite Hsk, <- Ho. by apply (rendered_fifo (B := with_passthrough Ogg so fuel B) convert).
Qed.

(** ** Partial writes to a subprocess *)

Section partial.
Variable split : string -> option (list string).

(** The child has received so much more. *)
Definition child_has (p : nat) (pr : Proc) (data : list Z) (w : World) : Prop :=
  procs w !! p = Some (mkProc (command pr) (received pr ++ data) (killed pr)).

Lemma child_write_all p pr got data w : script w = [] -> child_has p pr got w -> exists w',
  child_write p data w = (Ok (length data), w') /\ script w' = [] /\ child_has p pr (got ++ data) w'.
Proof.
  intros Hs Hp. unfold child_write, answer, mbind, eff_bind, gets, modify, mret, eff_ret. rewrite Hs. simpl.
  eexists. split; [reflexivity|]. split; [done|]. unfold child_has. simpl. rewrite list_lookup_alter_eq, Hp. simpl.
  by rewrite firstn_all, <- (assoc_L (++)).
Qed.

(** The rest of a write whose last piece was [k] bytes. *)
Lemma write_loop_rest (data : list Z) (k p : nat) (pr : Proc) sh f b : (0 < k)%nat -> forall fuel start w,
  script w = [] -> (start + k < length data)%nat -> (length data - start <= fuel)%nat -> child_has p pr (take start data) w ->
  exists m w', write_loop split fuel data b start (start + k) (mkSubprocessSink sh (Some (mkChild p true)) f, w) =
      (Ok tt, (mkSubprocessSink sh (Some (mkChild p true)) f, w')) /\
    child_has p pr (take m data) w' /\ (length data - k <= m < length data)%nat.
Proof.
  intros Hk. induction fuel as [|fuel IH]; intros start w Hs Hlt Hfuel Hp; [lia|]. simpl.
  destruct (child_write_all p pr _ (take (start + k - start) (drop start data)) w Hs Hp) as (w1 & Ew & Hs1 & Hp1).
  assert (El : length (take (start + k - start) (drop start data)) = k) by (rewrite length_take, length_drop; lia).
  assert (Et : take start data ++ take (start + k - start) (drop start data) = take (start + k) data).
  { replace (start + k - start)%nat with k by lia. by rewrite take_take_drop. }
  rewrite Et in Hp1. unfold mbind, eff_bind, gets, attempt. simpl. rewrite Ew, El. simpl. destruct k as [|k]; [lia|].
  replace (Nat.min (length data) (start + S k)) with (start + S k)%nat by lia. destruct (_ =? _)%nat eqn:Ee.
  - apply Nat.eqb_eq in Ee. exists (start + S k)%nat, w1. split_and!; [done|done|lia|lia].
  - apply Nat.eqb_neq in Ee. replace (Nat.min (length data) (start + S k + S k)) with (start + S k + S k)%nat by lia.
    apply IH; [done|lia|lia|done].
Qed.

(** When the child takes only a part of the data, the write reports success although the end of the
    data, up to as many bytes as that part, is never written: the loop ends when the next piece
    would reach the end, before that piece is written. *)
Theorem subprocess_loses_tail (data : list Z) (k p : nat) (pr : Proc) sh f fuel w :
  (0 < k < length data)%nat -> (length data < fuel)%nat -> script w = [Accepts k] -> procs w !! p = Some pr ->
  exists m w', subprocess_write_bytes split fuel data (mkSubprocessSink sh (Some (mkChild p true)) f, w) =
      (Ok tt, (mkSubprocessSink sh (Some (mkChild p true)) f, w')) /\
    child_has p pr (take m data) w' /\ (length data - k <= m < length data)%nat.
Proof.
  intros Hk Hfuel Hs Hp. destruct fuel as [|fuel]; [lia|]. unfold subprocess_write_bytes.
  cbn [write_loop]. rewrite drop_0, Nat.sub_0_r, firstn_all.
  set (w1 := set_procs (alter (fun q => mkProc (command q) (received q ++ take k data) (killed q)) p (procs w)) (set_script [] w)).
  assert (Ew : child_write p data w = (Ok k, w1)).
  { unfold child_write, answer, mbind, eff_bind, gets, modify, mret, eff_ret. rewrite Hs. simpl.
    by replace (Nat.min k (length data)) with k by lia. }
  assert (Hp1 : child_has p pr (take k data) w1) by (unfold child_has; simpl; by rewrite list_lookup_alter_eq, Hp).
  unfold mbind, eff_bind, gets, attempt. simpl. rewrite Ew. destruct k as [|k]; [lia|].
  replace (Nat.min (length data) (S k)) with (S k) by lia. simpl. destruct (_ =? _)%nat eqn:Ee.
  - apply Nat.eqb_eq in Ee. exists (S k), w1. split_and!; [done|done|lia|lia].
  - apply Nat.eqb_neq in Ee. assert (Hlt : (S k + S k < length data)%nat) by lia.
    replace (Nat.min (length data) (S (k + S k))) with (S k + S k)%nat by lia.
    apply (write_loop_rest data (S k) p pr sh f false ltac:(lia) fuel (S k) w1); [done|lia|lia|done].
Qed.

(** A command without words ends the program. *)
Theorem blank_command_panics command f c w : split command = Some [] ->
  (subprocess_start split (mkSubprocessSink (Some command) c f, w)).1 = Panic.
Proof. intros H. unfold subprocess_start, mbind, eff_bind, gets. simpl. by rewrite H. Qed.

End partial.

(** ** Examples *)

Definition ex_fs : Fs := mkFs {[ "/tmp/phase5-vorbis.fifo" := 0%nat; "/song" := 1%nat ]} [Fifo []; Regular [1; 2; 3]].
Definition ex_world : World := mkWorld ex_fs [] [mkProc ["cat"] [] false] [].

(** Somebody replaces the FIFO by a file between the check and the opening. *)
Definition ex_race : World :=
  mkWorld ex_fs [] [] [Success; Changed (mkFs {[ "/tmp/phase5-vorbis.fifo" := 1%nat ]} (nodes ex_fs))].

Example ex_guard_race : (open_required_fifo "/tmp/phase5-vorbis.fifo" ex_race).1 = Err IoInvalidInput /\
  nodes (fs (open_required_fifo "/tmp/phase5-vorbis.fifo" ex_race).2) = [Fifo []; Regular [1; 2; 3]].
Proof. by vm_compute. Qed.

(** Ten bytes of which the command first takes six: the last four are lost. *)
Example ex_lost : (received <$> procs (subprocess_write_bytes (fun _ => None) 20 [1; 2; 3; 4; 5; 6; 7; 8; 9; 10]
    (mkSubprocessSink None (Some (mkChild 0 true)) S16, set_script [Accepts 6] ex_world)).2.2) = [[1; 2; 3; 4; 5; 6]].
Proof. by vm_compute. Qed.

Lemma subprocess_loses_tail_witness : exists m, (2 <= m < 3)%nat.
Proof.
  destruct (subprocess_loses_tail (fun _ => None) [1; 2; 3] 1 0 (mkProc ["cat"] [] false) None S16 10 (set_script [Accepts 1] ex_world))
    as (m & _ & _ & _ & H); [simpl; lia|simpl; lia|done|done|by exists m].
Defined.

Lemma unguarded_path_creates_file_witness : exists w', node_of "/etc/squeezeplay/userpath/SpotifyConnect/audio.fifo" (fs w') = Some (Regular [7]).
Proof.
  destruct (unguarded_path_creates_file "/etc/squeezeplay/userpath/SpotifyConnect/audio.fifo" S16 [7] ex_world) as (s & w & _ & H);
    [done|done|done|by exists w].
Defined.

(** The player of the Radio: the sink is started on the guarded FIFO and the toy track plays. *)
Definition ex_convert (f : AudioFormat) (l : list Z) (c : unit) : list Z * unit := (l, c).
Definition ex_radio : Backend := radio_backend toy_ogg true 9 (toy true true) ex_convert.
Definition ex_radio_loaders : Loaders (H := ex_radio) := {|
  Loader := unit; load_track _ _ := tt; is_terminated _ := false; loader_poll l := (Pending, l)
|}.
Definition ex_pipe : StdoutSink * World := (pipe_start (mkStdoutSink None (Some "/tmp/phase5-vorbis.fifo") S16 0, ex_world)).2.
Definition ex_loaded : PlayerLoadedTrackData (H := ex_radio) := mkLoaded ex_radio toy_decoder tt tt tt 40000 3000 0 false.
Definition ex_active : Active (B := ex_radio) := mkActive (B := ex_radio) toy_track 4 ex_loaded 1 false.
Definition ex_playing : PlayerInternal (B := ex_radio) (L := ex_radio_loaders) :=
  set_sink_status Running (set_ps (PsPlaying ex_active None)
    (player_new (B := ex_radio) (L := ex_radio_loaders) (mkPlayerConfig true true NAuto None) (ex_pipe, tt) tt 0)).

Lemma fifo_receives_track_witness : exists n p', rounds n ex_playing = (Ok tt, p') /\
  fifo_sink 0 [7; 1; 0; 1; 7; 1; 0; 3; 0; 5; 7; 1; 44; 11; 44; 12; 7; 2; 88; 13] (sink p').
Proof.
  destruct (fifo_receives_track (LW := toy_writer) true 9 (toy true true) ex_convert ex_radio_loaders ex_playing ex_active None
    toy_decoder toy_packets [] 0 []) as (n & p' & loaded & Hr & _ & Hf).
  - reflexivity.
  - reflexivity.
  - split; [exists 0%nat; reflexivity|]. split; reflexivity.
  - reflexivity.
  - reflexivity.
  - reflexivity.
  - repeat (eapply supplies_more; [reflexivity|]). eapply supplies_end; [reflexivity|by left].
  - simpl. lia.
  - discriminate.
  - exists n, p'. split; [exact Hr|exact Hf].
Defined.
