(* ===== verification/Handles.v ===== *)
(** * Handles ([Player] of [playback/src/player.rs], [Spirc] of [connect/src/spirc.rs])

    What the rest of the program holds of the player's thread and of the controller's task: methods
    that queue a command on a channel. A channel is its queue and whether the other end is there. *)
From S2P Require Import Prelude Text Errors Packet ShuffleVec SpotifyUri ConnectState ConnectContext ContextResolver Effect Player Playback Spirc SpircSpec.

Record Chan (A : Type) := mkChan { queued : list A; receiver_alive : bool }.
Arguments mkChan {A}. Arguments queued {A}. Arguments receiver_alive {A}.

(** [UnboundedSender::send], whose error is converted by [?]. *)
Definition chan_send {A} (a : A) : eff (Chan A) Errors.Error unit := fun c =>
  if receiver_alive c then (Ok tt, mkChan (queued c ++ [a]) true) else (Err (error_from_library SendError), c).

(** ** The controller's handle *)

Section spirc.

#[local] Abbreviation H := (eff (Chan SpircCommand) Errors.Error unit).

Definition spirc_shutdown : H := chan_send SpShutdown.
Definition spirc_play : H := chan_send SpPlay.
Definition spirc_play_pause : H := chan_send SpPlayPause.
Definition spirc_pause : H := chan_send SpPause.
Definition spirc_prev : H := chan_send SpPrev.
Definition spirc_next : H := chan_send SpNext.
Definition spirc_volume_up : H := chan_send SpVolumeUp.
Definition spirc_volume_down : H := chan_send SpVolumeDown.
Definition spirc_shuffle (shuffle : bool) : H := chan_send (SpShuffle shuffle).
Definition spirc_repeat (repeat : bool) : H := chan_send (SpRepeat repeat).
Definition spirc_repeat_track (repeat : bool) : H := chan_send (SpRepeatTrack repeat).
Definition spirc_set_volume (volume : Z) : H := chan_send (SpSetVolume volume).
Definition spirc_set_position_ms (position_ms : Z) : H := chan_send (SpSetPosition position_ms).
Definition spirc_load (request : LoadRequest) : H := chan_send (SpLoad request).
Definition spirc_queue_uri (uri : SpotifyUri) : H :=
  match spirc_add_to_queue uri with Some cmd => chan_send cmd | None => throw (invalid_argument (EMessage "uri")) end.
Definition spirc_clear_queue : H := chan_send SpClearQueue.
Definition spirc_disconnect (pause : bool) : H := chan_send (SpDisconnect pause).
Definition spirc_activate : H := chan_send SpActivate.
Definition spirc_transfer : H := chan_send SpTransfer.

End spirc.

(** The commands that the documentation of the handle says are for an active device only, and which are. *)
Definition active_only (cmd : SpircCommand) : bool :=
  match cmd with SpShutdown | SpActivate | SpTransfer => false | _ => true end.

Section contract.
Context {B : Backend} {E : Env} `{!Probing} `{!QueueHash} {R : Rng} {FU : Fuel}.

(** "Does nothing if we are not the active device": an inactive controller that handles such a
    command only reports its state; the player gets no command and nothing else changes. *)
Theorem inactive_commands_ignored (cmd : SpircCommand) (s : SpircTask) :
  is_active (connect_state s) = false -> active_only cmd = true ->
  exists r c t, handle_command cmd s = (r, set_trace (trace s ++ [PutState (cs_request c)]) (set_ticks t (set_connect_state c s))) /\
    r <> Panic /\ is_active c = false.
Proof.
  intros Ha Hc. destruct (notify_spec s) as (c & t & t' & En & Hac & _).
  exists (match put_state t (cs_request c) with Some _ => Ok tt | None => Err EService end), c, t'.
  split; [|split; [by case_match|by rewrite Hac]].
  rewrite <- En. unfold handle_command. unfold cget, mbind, eff_bind, gets. rewrite Ha. by destruct cmd.
Qed.

(** The same sentence stands at [activate] and [transfer], which do the opposite: they act on an
    inactive device and only report the state of an active one. *)
Theorem activation_ignored_when_active (cmd : SpircCommand) (s : SpircTask) :
  is_active (connect_state s) = true -> cmd = SpActivate \/ cmd = SpTransfer -> handle_command cmd s = notify s.
Proof. intros Ha [-> | ->]; unfold handle_command, cget, mbind, eff_bind, gets; by rewrite Ha. Qed.

Theorem activate_when_inactive (s : SpircTask) :
  is_active (connect_state s) = false -> handle_command SpActivate s = (handle_activate ;; notify) s.
Proof. intros Ha. unfold handle_command, cget. unfold mbind at 1, eff_bind at 1, gets. by rewrite Ha. Qed.

End contract.

(** ** The player's handle *)

Section player.
Context {B : Backend}.

(** [thread_finished] is whether the thread has ended; both are gone while the handle is dropped. *)
Record PlayerHandle := mkPlayerHandle { commands : option (Chan PlayerCommand); thread_finished : option bool }.

#[local] Abbreviation H := (PlayerHandle -> PlayerHandle).

Definition player_is_invalid (h : PlayerHandle) : bool := default true (thread_finished h).

(** Errors are only logged. *)
Definition player_command (cmd : PlayerCommand) : H := fun h =>
  mkPlayerHandle ((fun c => (chan_send cmd c).2) <$> commands h) (thread_finished h).

Definition player_load (track_id : SpotifyUri) (start_playing : bool) (position_ms : Z) : H :=
  player_command (CmdLoad track_id start_playing position_ms).
Definition player_preload (track_id : SpotifyUri) : H := player_command (CmdPreload track_id).
Definition player_play : H := player_command CmdPlay.
Definition player_pause : H := player_command CmdPause.
Definition player_stop : H := player_command CmdStop.
Definition player_seek (position_ms : Z) : H := player_command (CmdSeek position_ms).
Definition player_set_session : H := player_command SetSession.
(** The number of the new channel is given by the runtime. *)
Definition get_player_event_channel (sender : nat) : H := player_command (AddEventSender sender).
Definition set_sink_event_callback (callback : option (list SinkStatus)) : H := player_command (SetSinkEventCallback callback).
Definition emit_volume_changed_event (volume : Z) : H := player_command (EmitVolumeChangedEvent volume).
Definition set_auto_normalise_as_album (setting : bool) : H := player_command (SetAutoNormaliseAsAlbum setting).
Definition emit_filter_explicit_content_changed_event (filter : bool) : H := player_command (EmitFilterExplicitContentChangedEvent filter).
Definition emit_session_connected_event (connection_id user_name : string) : H :=
  player_command (EmitSessionConnectedEvent connection_id user_name).
Definition emit_session_disconnected_event (connection_id user_name : string) : H :=
  player_command (EmitSessionDisconnectedEvent connection_id user_name).
Definition emit_session_client_changed_event (client_id client_name client_brand_name client_model_name : string) : H :=
  player_command (EmitSessionClientChangedEvent client_id client_name client_brand_name client_model_name).
Definition emit_shuffle_changed_event (shuffle : bool) : H := player_command (EmitShuffleChangedEvent shuffle).
Definition emit_repeat_changed_event (context track : bool) : H := player_command (EmitRepeatChangedEvent context track).
Definition emit_auto_play_changed_event (auto_play : bool) : H := player_command (EmitAutoPlayChangedEvent auto_play).
Definition emit_set_queue_event (context_uri : string) (current_track : option QueueTrack) (next_tracks prev_tracks : list QueueTrack) : H :=
  player_command (EmitSetQueueEvent context_uri current_track next_tracks prev_tracks).

(** [await_end_of_track] on the events of its channel: [true] when an event ends the wait, [false]
    when the events end, with what is left. *)
Fixpoint await_end_of_track (events : list PlayerEvent) : bool * list PlayerEvent :=
  match events with
  | [] => (false, [])
  | EvEndOfTrack _ _ :: l | EvStopped _ _ :: l => (true, l)
  | _ :: l => await_end_of_track l
  end.

(** Dropping the handle: the channel is closed and, with the thread gone, so is the handle. *)
Definition player_drop (h : PlayerHandle) : PlayerHandle := mkPlayerHandle None None.

Lemma await_end_first l :
  await_end_of_track l = (false, []) /\ Forall (fun e => match e with EvEndOfTrack _ _ | EvStopped _ _ => False | _ => True end) l \/
  exists before e after, l = before ++ e :: after /\ await_end_of_track l = (true, after) /\
    match e with EvEndOfTrack _ _ | EvStopped _ _ => True | _ => False end /\
    Forall (fun e => match e with EvEndOfTrack _ _ | EvStopped _ _ => False | _ => True end) before.
Proof.
  induction l as [|e l [[IH1 IH2]|(b & x & a & -> & IH1 & IH2 & IH3)]]; [left; by split|..].
  - destruct e; try (left; split; [exact IH1|by constructor]); right; exists []; by do 2 eexists.
  - right. destruct e; try (by exists [], (EvStopped play_request_id track_id), (b ++ x :: a));
      try (by exists [], (EvEndOfTrack play_request_id track_id), (b ++ x :: a));
      (eexists (_ :: b), x, a; split; [reflexivity|]; split; [exact IH1|]; split; [done|]; by constructor).
Qed.

End player.
