(* ===== verification/Proxy.v ===== *)
(** * Connecting, directly or through a proxy ([core/src/socket.rs], [core/src/proxytunnel.rs])

    The tunnel asks an HTTP proxy to connect and reads its answer into a buffer that grows until the
    answer is complete. The httparse crate is a parameter: [None] is an answer that is not complete,
    otherwise the status code, if there is one. A connection is what the other side will send, how
    much of it each read gives, and what was sent to it. *)
From S2P Require Import Prelude Text Errors.

Record Conn := mkConn { incoming : list Z; read_sizes : list nat; outgoing : list Z; write_ok : bool }.

(** [read] into [space] bytes: at least one byte while the other side has more. *)
Definition conn_read (space : nat) (c : Conn) : list Z * Conn :=
  let n := match read_sizes c with [] => space | n :: _ => Nat.min space (Nat.max 1 n) end in
  (take n (incoming c), mkConn (drop n (incoming c)) (tail (read_sizes c)) (outgoing c) (write_ok c)).

Definition conn_write_all (data : list Z) (c : Conn) : res IoErrorKind unit * Conn :=
  if write_ok c then (Ok tt, mkConn (incoming c) (read_sizes c) (outgoing c ++ data) true) else (Err IoBrokenPipe, c).

Section proxy.
Variable parse_response : list Z -> option (option (option Z)).

(** The request line and the empty line. *)
Definition connect_request (connect_host connect_port : string) : list Z :=
  bytes "CONNECT " ++ bytes connect_host ++ [58] ++ bytes connect_port ++ bytes " HTTP/1.1" ++ [13; 10; 13; 10].

(** The loop: [buffer] is the bytes read so far and [size] the length of the buffer; [None] is a
    loop that goes on. *)
Fixpoint proxy_loop (fuel : nat) (buffer : list Z) (size : nat) (c : Conn) : option (res IoErrorKind unit * Conn) :=
  match fuel with
  | O => None
  | S fuel =>
      let '(data, c) := conn_read (size - length buffer) c in
      match data with
      | [] => Some (Err IoOther, c)
      | _ =>
          let buffer := buffer ++ data in
          match parse_response buffer with
          | None => Some (Err IoOther, c)
          | Some (Some (Some code)) => if code =? 200 then Some (Ok tt, c) else Some (Err IoOther, c)
          | Some (Some None) => Some (Err IoOther, c)
          | Some None => proxy_loop fuel buffer (if (size <=? length buffer)%nat then size + 100 else size) c
          end
      end
  end.

(** [capacity] is the capacity of the buffer the request was put into. *)
Definition proxy_connect (fuel capacity : nat) (connect_host connect_port : string) (c : Conn) : option (res IoErrorKind unit * Conn) :=
  match conn_write_all (connect_request connect_host connect_port) c with
  | (Ok _, c) => proxy_loop fuel [] capacity c
  | (e, c) => Some (e, c)
  end.

(** [connect]: [dial] opens a socket to a host and port, or to the proxy. *)
Definition socket_connect {Url : Type} (dial : string * Z -> res IoErrorKind Conn) (dial_proxy : Url -> res IoErrorKind Conn)
    (fuel capacity : nat) (host : string) (port : Z) (proxy : option Url) : option (res IoErrorKind Conn) :=
  match proxy with
  | Some url =>
      match dial_proxy url with
      | Ok socket =>
          '(r, c) ← proxy_connect fuel capacity host (show_Z port) socket;
          Some (match r with Ok _ => Ok c | Err e => Err e | Panic => Panic end)
      | Err e => Some (Err e)
      | Panic => Some Panic
      end
  | None => Some (dial (host, port))
  end.

(** ** Lemmas *)

Lemma conn_read_spec space c : (0 < space)%nat ->
  exists n, (conn_read space c).1 = take n (incoming c) /\ incoming (conn_read space c).2 = drop n (incoming c) /\
    outgoing (conn_read space c).2 = outgoing c /\ (n <= space)%nat /\ (0 < n)%nat.
Proof.
  intros Hs. unfold conn_read. simpl. destruct (read_sizes c) as [|n l]; [by exists space|].
  exists (Nat.min space (Nat.max 1 n)). split_and!; [done..|lia|lia].
Qed.

(** The outcome of the loop on what the proxy sends. *)
Lemma proxy_loop_spec fuel : forall buffer size c all,
  all = buffer ++ incoming c -> (length buffer < size)%nat -> (length (incoming c) < fuel)%nat ->
  exists r c', proxy_loop fuel buffer size c = Some (r, c') /\ outgoing c' = outgoing c /\
    match r with
    | Ok _ => exists k, parse_response (take k all) = Some (Some (Some 200)) /\ incoming c' = drop k all
    | Err _ => True
    | Panic => False
    end.
Proof.
  induction fuel as [|fuel IH]; intros buffer size c all -> Hsize Hfuel; [lia|]. cbn [proxy_loop].
  destruct (conn_read_spec (size - length buffer) c ltac:(lia)) as (n & Hd & Hi & Ho & Hn & Hn0).
  destruct (conn_read _ c) as [data c1]. simpl in *. subst data. destruct (take n (incoming c)) as [|z l] eqn:Et; [by eexists _, _|].
  rewrite <- Et. assert (Hk : buffer ++ take n (incoming c) = take (length buffer + n) (buffer ++ incoming c)) by by rewrite take_app_add.
  assert (Hl : incoming c <> []) by (intros E; by rewrite E, take_nil in Et).
  destruct (parse_response (buffer ++ take n (incoming c))) as [[[code|]|]|] eqn:Ep; [| by eexists _, _| |by eexists _, _].
  - destruct (code =? 200) eqn:Ec; [|by eexists _, _]. apply Z.eqb_eq in Ec. subst code. eexists _, _. split; [done|]. split; [done|].
    exists (length buffer + n)%nat. rewrite <- Hk, Ep, Hi. split; [done|]. by rewrite drop_app_add.
  - destruct (IH (buffer ++ take n (incoming c)) (if (size <=? length (buffer ++ take n (incoming c)))%nat then size + 100 else size)%nat c1
      (buffer ++ incoming c)) as (r & c' & E & Hout & Hr).
    + by rewrite Hi, <- (assoc_L (++)), take_drop.
    + case_match eqn:El; [|by apply Nat.leb_gt in El]. rewrite length_app, length_take. lia.
    + rewrite Hi, length_drop. destruct (incoming c); [done|]. simpl in *. lia.
    + exists r, c'. split; [done|]. split; [by rewrite Hout|done].
Qed.

(** Connecting through a proxy ends, however the answer is cut into reads, after sending exactly the
    request; it succeeds only with an answer that is complete and says 200, and the connection then
    goes on after what was read. *)
Theorem proxy_connect_ends (fuel capacity : nat) (host port : string) (c : Conn) :
  (0 < capacity)%nat -> (length (incoming c) < fuel)%nat -> write_ok c = true ->
  exists r c', proxy_connect fuel capacity host port c = Some (r, c') /\
    outgoing c' = outgoing c ++ connect_request host port /\
    match r with
    | Ok _ => exists k, parse_response (take k (incoming c)) = Some (Some (Some 200)) /\ incoming c' = drop k (incoming c)
    | Err _ => True
    | Panic => False
    end.
Proof.
  intros Hc Hf Hw. unfold proxy_connect, conn_write_all. rewrite Hw.
  destruct (proxy_loop_spec fuel [] capacity (mkConn (incoming c) (read_sizes c) (outgoing c ++ connect_request host port) true)
    (incoming c)) as (r & c' & E & Ho & Hr); [done|simpl; lia|done|]. by exists r, c'.
Qed.

End proxy.

(** ** Examples *)

(** A toy parser: complete at the first 10, with the byte before as the code. *)
Fixpoint ex_parse_response (l : list Z) : option (option (option Z)) :=
  match l with
  | code :: 10 :: _ => Some (Some (Some code))
  | _ :: l => ex_parse_response l
  | [] => Some None
  end.

(** What is read after the end of the answer is lost to the connection. *)
Example ex_proxy : (fun x => (x.1, incoming x.2)) <$> proxy_connect ex_parse_response 9 2 "h" "1" (mkConn [7; 200; 10; 5; 6] [2%nat; 1%nat] [] true) = Some (Ok tt, [5; 6]) /\
  (fun x => (x.1, incoming x.2)) <$> proxy_connect ex_parse_response 9 64 "h" "1" (mkConn [7; 200; 10; 5; 6] [] [] true) = Some (Ok tt, []).
Proof. by vm_compute. Qed.

Lemma proxy_connect_ends_witness : exists r c', proxy_connect ex_parse_response 9 2 "h" "1" (mkConn [7; 200; 10] [1%nat] [] true) = Some (r, c') /\
  outgoing c' = connect_request "h" "1".
Proof.
  destruct (proxy_connect_ends ex_parse_response 9 2 "h" "1" (mkConn [7; 200; 10] [1%nat] [] true)) as (r & c' & E & Ho & _);
    [lia|simpl; lia|done|by exists r, c'].
Defined.
