(* ===== verification/LocalFiles.v ===== *)
(** * Local files ([native/librespot/playback/src/local_file.rs])

    The lookup of local files by their URI, which is made of their tags: the directories are walked
    once, when the player starts. The file system and the symphonia and form_urlencoded crates are
    parameters; [TrackLoader] uses the lookup. *)
From S2P Require Import Prelude Text Errors Config SpotifyUri Player.

Definition SUPPORTED_FILE_EXTENSIONS : list string := ["mp3"; "mp4"; "m4p"; "flac"].

(** [HashMap<SpotifyUri, PathBuf>] *)
Abbreviation LocalFileLookup := (list (SpotifyUri * string)).

Definition lookup_get (uri : SpotifyUri) (l : LocalFileLookup) : option string :=
  snd <$> find (fun kv => bool_decide (kv.1 = uri)) l.
Definition lookup_insert (uri : SpotifyUri) (path : string) (l : LocalFileLookup) : LocalFileLookup :=
  (uri, path) :: filter (fun kv => kv.1 <> uri) l.

(** [Path::extension]: what follows the last dot of the file name, unless the name starts with it. *)
Definition file_name (path : string) : string := default "" (last (split "/"%char path)).
Definition extension (path : string) : option string :=
  match reverse (split "."%char (file_name path)) with
  | ext :: stem :: rest => if is_empty stem && bool_decide (rest = []) then None else Some ext
  | _ => None
  end.

Inductive TagKey := TagAlbum | TagArtist | TagTrackTitle | TagOther.

(** What the probe finds: the latest tags, and of the default track the duration in seconds, which
    needs a time base and a number of frames. *)
Record Probed := mkProbed { tags : option (list (option TagKey * string)); default_track : option (option Z) }.

Section local_files.
Variable is_dir : string -> bool.
Variable read_dir : string -> res IoErrorKind (list (res IoErrorKind string)).
Variable open : string -> res IoErrorKind unit.
Variable probe : string -> string -> option Probed.
Variable byte_serialize : string -> string.

Definition format_uri_part (input : option string) : string := default "" (byte_serialize <$> input).

(** The three tags, the last of each. *)
Definition read_tags (l : list (option TagKey * string)) : option string * option string * option string :=
  foldl (fun '(artist, album_title, track_title) '(key, value) =>
    match key with
    | Some TagAlbum => (artist, Some value, track_title)
    | Some TagArtist => (Some value, album_title, track_title)
    | Some TagTrackTitle => (artist, album_title, Some value)
    | _ => (artist, album_title, track_title)
    end) (None, None, None) l.

Definition get_uri_from_file (audio_path file_extension : string) : res Errors.Error SpotifyUri :=
  _ ← raise (open audio_path);
  probed ← ok_or (internal (EMessage "Failed to probe file")) (probe audio_path file_extension);
  tags ← ok_or (internal (EMessage "Failed to probe audio tags")) (tags probed);
  let '(artist, album_title, track_title) := read_tags tags in
  first_track ← ok_or (internal (EMessage "Failed to find an audio track")) (default_track probed);
  seconds ← ok_or (internal (EMessage "Failed to calculate track duration")) first_track;
  Ok (Local (format_uri_part artist) (format_uri_part album_title) (format_uri_part track_title) (from_secs seconds)).

(** One entry that is not a directory. *)
Definition visit_file (path : string) (accumulator : LocalFileLookup) : LocalFileLookup :=
  match extension path with
  | None => accumulator
  | Some file_extension =>
      if existsb (String.eqb (to_lowercase file_extension)) SUPPORTED_FILE_EXTENSIONS then
        match get_uri_from_file path file_extension with
        | Ok uri => lookup_insert uri path accumulator
        | _ => accumulator
        end
      else accumulator
  end.

(** The entries of a directory; an error ends the visit and keeps what was found. [depth] bounds
    the nesting, and a deeper one is a panic. *)
Fixpoint visit_dir (depth : nat) (dir : string) (accumulator : LocalFileLookup) : res IoErrorKind unit * LocalFileLookup :=
  match depth with
  | O => (Panic, accumulator)
  | S depth =>
      match read_dir dir with
      | Ok entries =>
          (fix go (entries : list (res IoErrorKind string)) (accumulator : LocalFileLookup) :=
             match entries with
             | [] => (Ok tt, accumulator)
             | Ok path :: entries =>
                 if is_dir path then
                   match visit_dir depth path accumulator with
                   | (Ok _, accumulator) => go entries accumulator
                   | (e, accumulator) => (e, accumulator)
                   end
                 else go entries (visit_file path accumulator)
             | Err e :: _ => (Err e, accumulator)
             | Panic :: _ => (Panic, accumulator)
             end) entries accumulator
      | Err e => (Err e, accumulator)
      | Panic => (Panic, accumulator)
      end
  end.

Definition create_local_file_lookup (depth : nat) (directories : list string) : LocalFileLookup :=
  foldl (fun lookup path => if is_dir path then (visit_dir depth path lookup).2 else lookup) [] directories.

(** ** Lemmas *)

Lemma lookup_get_insert uri path l uri' :
  lookup_get uri' (lookup_insert uri path l) = if bool_decide (uri = uri') then Some path else lookup_get uri' l.
Proof.
  unfold lookup_get, lookup_insert. simpl. case_bool_decide; [done|]. f_equal.
  induction l as [|[u p] l IH]; [done|]. rewrite filter_cons. simpl. case_decide; simpl.
  - by case_bool_decide.
  - rewrite bool_decide_eq_false_2; [done|]. intros ->. naive_solver.
Qed.

(** What may stand in the lookup. *)
Definition sound (l : LocalFileLookup) : Prop := forall uri path, lookup_get uri l = Some path ->
  exists ext, extension path = Some ext /\ to_lowercase ext ∈ SUPPORTED_FILE_EXTENSIONS /\ get_uri_from_file path ext = Ok uri.

Lemma visit_file_sound path l : sound l -> sound (visit_file path l).
Proof.
  intros Hl. unfold visit_file. destruct (extension path) as [ext|] eqn:Ee; [|done].
  destruct (existsb _ _) eqn:Ex; [|done]. destruct (get_uri_from_file path ext) as [uri|e|] eqn:Eu; [|done..].
  intros uri' path'. rewrite lookup_get_insert. case_bool_decide; [|apply Hl]. intros [= <-]. subst uri'. exists ext.
  split_and!; [done| |done]. apply existsb_exists in Ex as (x & Hx & ->%String.eqb_eq). by apply list_elem_of_In.
Qed.

Lemma visit_dir_sound depth : forall dir l, sound l -> sound (visit_dir depth dir l).2.
Proof.
  induction depth as [|depth IH]; intros dir l Hl; [done|]. simpl. destruct (read_dir dir) as [entries|e|]; [|done..].
  revert l Hl. induction entries as [|[path|e|] entries IHe]; intros l Hl; [done| |done..].
  destruct (is_dir path); [|by apply IHe, visit_file_sound].
  specialize (IH path l Hl). destruct (visit_dir depth path l) as [[[]|e|] l']; [by apply IHe|done..].
Qed.

Lemma lookup_sound depth directories : sound (create_local_file_lookup depth directories).
Proof.
  unfold create_local_file_lookup. assert (H0 : sound []) by done. revert H0. generalize (@nil (SpotifyUri * string)).
  induction directories as [|d l IH]; intros acc H0; [done|]. simpl. apply IH. case_match; [by apply visit_dir_sound|done].
Qed.

(** A local URI that a device sends as text finds the file it was made of: whatever is found under a
    URI is a supported file whose tags give that URI, and printing the URI and parsing the text
    gives the same key again, since the parts are serialised without colons. *)
Theorem local_file_found (depth : nat) (directories : list string) (uri : SpotifyUri) (path : string)
    (Hserialize : forall s, plain (byte_serialize s)) (Hseconds : forall p e x s, probe p e = Some x -> default_track x = Some (Some s) -> fits 64 s)
    (Hget : lookup_get uri (create_local_file_lookup depth directories) = Some path) :
  exists ext text, extension path = Some ext /\ to_lowercase ext ∈ SUPPORTED_FILE_EXTENSIONS /\
    get_uri_from_file path ext = Ok uri /\ to_uri uri = Ok text /\ from_uri text = Ok uri.
Proof.
  destruct (lookup_sound depth directories uri path Hget) as (ext & He & Hs & Hu).
  assert (Hp : parsed uri /\ canonical uri = uri).
  { unfold get_uri_from_file in Hu. destruct (open path); [|done..]. simpl in Hu. destruct (probe path ext) as [x|] eqn:Ep; [|done]. simpl in Hu.
    destruct (tags x) as [l|]; [|done]. simpl in Hu. destruct (read_tags l) as [[artist album] title].
    destruct (default_track x) as [[s|]|] eqn:Ed; [|done..]. injection Hu as <-. split; [|done].
    assert (Hf : forall o, plain (format_uri_part o)) by (intros [s'|]; [apply Hserialize|done]).
    simpl. split_and!; [apply Hf..| |done]. by eapply Hseconds. }
  destruct Hp as [Hp Hc]. destruct (from_to_uri uri Hp) as (text & Ht & Hf). exists ext, text. by rewrite Hc in Hf.
Qed.

End local_files.

(** ** Examples *)

Definition ex_tree (d : string) : res IoErrorKind (list (res IoErrorKind string)) :=
  if String.eqb d "/music" then Ok [Ok "/music/a.MP3"; Ok "/music/sub"; Ok "/music/.mp3"]
  else if String.eqb d "/music/sub" then Ok [Ok "/music/sub/b.flac"; Ok "/music/sub/c.txt"] else Err IoNotFound.
Definition ex_is_dir (d : string) : bool := String.eqb d "/music" || String.eqb d "/music/sub".
Definition ex_probe (p e : string) : option Probed :=
  Some (mkProbed (Some [(Some TagArtist, "x"); (None, "y"); (Some TagTrackTitle, file_name p)]) (Some (Some 61))).
Definition ex_serialize (s : string) : string := replace_char ":" "_" s.

Example ex_lookup : create_local_file_lookup ex_is_dir ex_tree (fun _ => Ok tt) ex_probe ex_serialize 4 ["/none"; "/music"] =
  [(Local "x" "" "b.flac" (from_secs 61), "/music/sub/b.flac"); (Local "x" "" "a.MP3" (from_secs 61), "/music/a.MP3")].
Proof. by vm_compute. Qed.

Lemma no_char_replace s : no_char ":"%char (ex_serialize s) = true.
Proof. unfold ex_serialize. induction s as [|c s IH]; [done|]. simpl. destruct (Ascii.eqb c ":") eqn:E; simpl; by rewrite ?E, ?IH. Qed.

Lemma local_file_found_witness : exists text, from_uri text = Ok (Local "x" "" "a.MP3" (from_secs 61)).
Proof.
  destruct (local_file_found ex_is_dir ex_tree (fun _ => Ok tt) ex_probe ex_serialize 4 ["/none"; "/music"]
    (Local "x" "" "a.MP3" (from_secs 61)) "/music/a.MP3") as (ext & text & _ & _ & _ & _ & H).
  - exact no_char_replace.
  - intros p e x s [= <-] [= <-]. done.
  - by vm_compute.
  - by exists text.
Defined.
